(* ===== verification/_CoqProject ===== *)
-Q . S2P
Prelude.v
CLib.v
DString.v
DReal.v
DParser.v
DTotal.v
DRefine.v
DSpec.v
DText.v
DInverse.v
DSymbol.v
DCorrect.v
LongFloat.v
Nuts.v
NutsCorrect.v
Output.v
OutputCorrect.v
DecoderState.v
Decoder.v
DecoderTotal.v
DecoderFrame.v
DecoderCorrect.v
DecoderTests.v
DecoderRound.v
LegacyState.v
Legacy.v
LegacyTests.v
LegacyCorrect.v
Unmangle.v
UnmangleCorrect.v
Encoder.v
EncoderCorrect.v
FloatArith.v
Variant.v
VariantCorrect.v
Expr.v
ExprTests.v
ExprCorrect.v
Effects.v
Target.v
DebugRegs.v
DebugRegsCorrect.v
BreakPoint.v
BreakPointMgr.v
BreakPointCorrect.v
BreakPointMgrCorrect.v
BreakPointGrp.v
BreakPointGrpCorrect.v
SharedString.v
SharedStringCorrect.v
SymbolTable.v
SymbolTableCorrect.v
SymbolMap.v
SymbolMapCorrect.v
Dwarf.v
DwarfCorrect.v
StackTrace.v
StackTraceCorrect.v
LineInfo.v
LineInfoCorrect.v
Properties.v
StepOver.v
StepOverCorrect.v
ReadLine.v
ReadLineCorrect.v
ReadLineScreen.v
Stream.v
StreamCorrect.v
SettingsCorrect.v
TaskPool.v
TaskPoolCorrect.v
Elf.v
ElfCorrect.v
Environ.v
CoreFile.v
CoreFileCorrect.v
DynLib.v
DynLibCorrect.v
