(* ===== verification/Prelude.v ===== *)
(** * ZeroBugs: a verification library for parts of the debugger

    ZeroBugs is a debugger for C, C++ and D programs. This library models the parts of it
    that carry logic of their own and can be separated from the operating system and the user
    interface, and proves what they do. Source files are named relative to [src/].

    ** The program's parts and how they interact

    The engine stops the threads of a debuggee through [ptrace] ([target/]), patches
    breakpoints into its code or sets debug registers ([engine/]), finds the symbol at an
    address or the addresses of a name in the symbol tables of the mapped modules
    ([symbolz/], with the ELF reader [elfz/] and the shared strings of [zdk/]), and shows
    names demangled ([unmangle/] for C++, [demangle_d/] for D). The interpreter ([interp/])
    evaluates the expressions that the user types, over values ([dharma/variant.cpp]) and
    types ([typez/]). From the debug information ([dwarfz/]) come the lines of addresses, the
    places of variables and the rules by which the stack of a thread is unwound. The user
    interfaces are built on top of these.

    ** Files

    Shared: [Prelude] (byte strings, outcomes with faults, [let*], decimal numerals, tactics),
    [CLib] (C strings, pointers into them, [strtol] and the like, [demangle_d/util.c]),
    [Effects] (a monad for C++ code that changes objects and throws).

    The D demangler, [demangle_d/]:
    - [DString]: [string.c]. [DStringOps] is the interface that the parser uses, [string_t]
      the heap block with its uninitialized cells, [bytes] the text it stands for.
    - [DReal], [DParser]: [parser.c] and [main.c], one definition per function or case of a
      [switch], over any [DStringOps]; the recursion through [next_type] is opened and tied
      with a bound.
    - [DTotal] (the bounds are enough), [DRefine] (heap strings refine texts), [DSpec],
      [DText], [DInverse], [DSymbol] (declarations, their mangled form and their text; the
      parser inverts mangling), [DCorrect] (the properties C1 to C4).

    The C++ demangler, [unmangle/]:
    - [Nuts]: the containers of [nuts/]; [NutsCorrect]: they implement texts.
    - [Output]: [output.h], text with a pending delimiter and tracked positions;
      [OutputCorrect]: positions keep their place.
    - [LongFloat]: [long double] in the C++ library, for [parse_double].
    - [DecoderState], [Decoder]: [decoder.h] and [dictionary.h], one definition per member
      function, over a record of the members and stores for what is passed by reference.
    - [DecoderTotal], [DecoderFrame], [DecoderCorrect], [DecoderTests], [DecoderRound]:
      C14, C15, C19, C23.
    - [LegacyState], [Legacy]: [legacy.h], the decoder of g++ 2.95 names, in the same style;
      [LegacyTests] (its test program), [LegacyCorrect]: C10.
    - [Unmangle]: [unmangle.cpp] and [unmangle.h], the driver that chooses between the C++
      ABI, g++ 2.95 and D; [__cxa_demangle] and the environment are parameters.
      [UnmangleCorrect]: C18.
    - [Encoder]: [encoder.cpp] and [encoder.h], the keys by which a name that the user types
      is looked up among mangled names; [EncoderCorrect]: C9.

    Breakpoints, [target/] and [engine/]:
    - [Target]: [target/memory_access.h], [target/x86.h]. [Ptrace] is the interface of the
      operating system, [PtraceLaws] its documented behaviour, [sim] an instance.
    - [DebugRegs]: [target/debug_regs_386.cpp]; [DebugRegsCorrect]: C24, C25.
    - [BreakPoint]: [engine/breakpoint.cpp], [engine/deferred_breakpoint.cpp] and
      [enable_software_breakpoint]; [BreakPointCorrect]: C28.
    - [BreakPointMgr]: [engine/breakpoint_mgr.cpp], [WatchPoint::in_scope], the replication of
      breakpoints in a forked process; [BreakPointMgrCorrect]: C26, C27, C32.
    - [BreakPointGrp]: [engine/breakpoint_grp.cpp], one manager per process;
      [BreakPointGrpCorrect]: C40.

    Symbols, [zdk/] and [symbolz/]:
    - [SharedString]: [zdk/src/shared_string.cpp], [zdk/src/string.cpp];
      [SharedStringCorrect]: lemmas on these.
    - [SymbolTable]: [symbolz/symbol_table.cpp] and [symbolz/private/]; [std::sort] is the
      interface [StdSort], with insertion sort as an instance; [SymbolTableCorrect]: C35.
    - [SymbolMap]: [symbolz/symbol_map.cpp]; [SymbolMapCorrect]: C38, C39.

    Expressions, [interp/], [dharma/] and [typez/]:
    - [FloatArith]: rounding to the formats of x86, [strtod], arithmetic and comparison of
      [long double], on the numbers of [LongFloat].
    - [Variant]: [dharma/variant.cpp], [zdk/include/zdk/variant.h], the printing, testing and
      conversion of values, and how the types of [typez/] read a value from text;
      [VariantCorrect]: lemmas on these.
    - [Expr]: the operators and constants of [interp/], one definition per class of
      expressions, with the type that each sets on itself; [ExprTests]: the expressions of
      [interp/main.cpp]; [ExprCorrect]: C5, C7, C16.

    Debug information and stacks, [dwarfz/], [plugin/dwarf/] and [engine/]:
    - [Dwarf]: [dwarfz/location.cpp], the stack machine that finds variables, and
      [dwarfz/unwind.cpp], the step to the caller, with [Reader::unwind_step]. [AddrOps] is the
      interface of the debuggee, [Dwarf_Debug] what libdwarf reads; [DwarfCorrect]: C22.
    - [StackTrace]: [engine/stack_trace.cpp], [engine/stack-x86_64.cpp], signal trampolines and
      system calls of [target/], [ThreadImpl::stack_trace]; [addr_ops] implements [AddrOps] on a
      thread and its trace; [StackTraceCorrect]: C12, C21.
    - [LineInfo]: [dwarfz/private/line_info_cache.h] over [generic/AssocVector.h];
      [LineInfoCorrect]: C20.

    Settings and the console, [engine/], [dharma/] and [readline/]:
    - [Properties]: [dharma/properties.cpp], named words, numbers, strings and objects.
    - [StepOver]: [engine/step_over_mgr.cpp], the functions, files and directories that are
      stepped over, kept in the properties; [StepOverCorrect]: C8, C29.
    - [Stream]: [dharma/stream.cpp] and its buffers and files, [dharma/settings.cpp].
      [OutputStream] is the interface of a stream, [StreamLaws] what it promises; buffers and
      files are instances. [StreamCorrect]: C34; [SettingsCorrect], the step-over manager with
      its properties and the file: C31.
    - [ReadLine]: [readline/read_line.cpp], [readline/terminal.cpp], the line editor with the
      keys and commands of the terminal; [ReadLineCorrect]: C36; [ReadLineScreen], the
      commands on a row of a terminal: C17.

    ELF files, [elfz/] and [dharma/]:
    - [Elf]: headers, sections, symbols, program headers, dynamic sections and notes;
      [Elf] is the record of what libelf gives for a file. [ElfCorrect], with [SymbolTable]: C6.
    - [Environ]: [dharma/environ.cpp], [dharma/utility.cpp].
    - [CoreFile]: [elfz/core_file.cpp], the constructor and the memory of a crashed program, in
      a monad [M] over the object; [CoreFileCorrect]: C11, C37.
    - [DynLib]: [elfz/dyn_lib_list.cpp], [elfz/ldsoconf.cpp]; [DynLibCorrect]: C13.

    Threads, [dharma/] and [zdk/]:
    - [TaskPool]: [dharma/task_pool.cpp], worker threads and their clients as a state machine,
      and the deadlines of [zdk/src/mutex.cpp]; [TaskPoolCorrect]: C30, C33.

    ** What the theorems show

    Round trips: the D demangler inverts mangling (C1), the C++ decoder inverts it for
    nested functions (C23), the decoder of g++ 2.95 for functions with simple parameters
    (C10), the driver for all three schemes (C18), setting and removing a breakpoint leaves
    no trace (C32), settings are read as they were written (C34), step-over rules are
    restored from the properties (C29) and from the file (C31), symbols are read as they are
    in the file (C6). Refinement: heap strings implement texts (C2), debug registers
    implement four slots (C24), the step-over manager a set of rules (C8), the line editor a
    text in two parts (C36), core dumps the memory that they describe (C37). Invariants
    under every sequence of operations: string blocks (C4), decoder members (C14), the code
    of the debuggee is the original one but for enabled breakpoints (C26), containers are
    typed (C27), the symbol map follows the link map (C39), the terminal shows the line that
    is edited (C17), tasks are taken once and no wake-up is lost under every interleaving of
    threads (C33). Termination: C3, C15. Equivalence with a reference: integer arithmetic of
    the interpreter and of C (C16), location descriptions and the expressions they stand for
    (C22). Functional behaviour: C9, C19, C35, C38, C40; the libraries of a program are
    found (C13); the chain of calls is recovered (C12). Liveness: delivery of hardware hits
    (C25), the pool of workers comes to rest with its work done (C30). Errors, bounds and
    memory safety, including inputs on which the code goes wrong: C5, C7, C11, C20, C21,
    C28.

    ** Bounds

    Recursion that is not structural takes fuel. The D parser gets a bound linear in the
    length of the symbol, and for the elements of a tuple the count that stands in the symbol,
    which C3 proves to be enough on every input; the decoder a linear one, which C15 proves for names whose numbers have less than nineteen digits, and
    [source_name_endless] shows names on which the code itself does not return. The legacy
    decoder gets two levels more than the length of the name, which C10 shows to be enough
    for the names it is about. The loops of the encoder get one step per character of the
    name or per component. Binary search gets one step more than the length of the list. The
    walk up a stack recurs on the number of frames that are left. The reader of settings
    gets one step per byte of the file, of which a record takes eight (C34); the line editor
    one step per key (C36). The search for libraries and the parser of [ld.so.conf] get one
    level per file, which C13 and [ldsoconf_ends] prove to be enough; the link map of a core
    dump may be a cycle, and the fuel is a parameter. [drain] calls [hit] five times, one
    more than there are registers. Integers are [Z] with their width written out where the
    code depends on it.

    ** What is not modelled

    Locks outside of the task pool, logging and assertions; the dispatch of observers;
    printing. Of [interp/] and [typez/]: operands that live in the debuggee (symbols,
    assignment, members, calls), casts, the grammar, and compound types. Of [engine/]: the
    command shell, thread events, histories (settings are read by a factory that knows the
    class of settings only, so that the objects of other classes are kept as records). Of [symbolz/]: the deferred breakpoints of a
    table, source lines, the parsing of [/proc] maps and enumeration over all tables. Of
    [dwarfz/]: the wrappers of libdwarf for types and functions, and paths of files. Of
    [elfz/]: archives and separate debug files. [stabz/], [rpc/], [server/], the rest of
    [dharma/], terminal attributes: not yet, or mostly wrappers of the operating system and
    of vendored libraries. The plugins, the Python bindings and the vendored libraries are
    left aside: user interface, generated or third-party code. *)
From Stdlib Require Export String Ascii List ZArith Lia Bool ZifyBool ZifyNat.
Export ListNotations.

(** ** Byte strings *)

(** A [char] array is a list of 8-bit characters. *)
Abbreviation bytes := (list ascii).

(** The bytes of a string literal of the source. *)
Abbreviation B s := (list_ascii_of_string s%string).

(** The terminator of a C string. *)
Definition NUL : ascii := "000"%char.

(** The value of a character as an unsigned 8-bit integer. *)
Definition code (c : ascii) : Z := Z.of_N (N_of_ascii c).

(** [(char) n] of an [int]: the low eight bits. *)
Definition char_of_int (n : Z) : ascii := ascii_of_N (Z.to_N (n mod 256)).

Declare Scope char_eq_scope.
Delimit Scope char_eq_scope with ceq.
Notation "a =c b" := (Ascii.eqb a b%char) (at level 70, no associativity) : char_eq_scope.
#[global] Open Scope char_eq_scope.

(** Character classes of the C locale. *)
Definition isdigit (c : ascii) : bool := (48 <=? code c)%Z && (code c <=? 57)%Z.
Definition isupper (c : ascii) : bool := (65 <=? code c)%Z && (code c <=? 90)%Z.
Definition isxdigit (c : ascii) : bool :=
  isdigit c || (97 <=? code c)%Z && (code c <=? 102)%Z
            || (65 <=? code c)%Z && (code c <=? 70)%Z.
Definition isspace (c : ascii) : bool :=
  (code c =? 32)%Z || (9 <=? code c)%Z && (code c <=? 13)%Z.

(** ** Outcomes

    A C or C++ computation either returns a value or stops with a fault. *)

Inductive fault : Type :=
| NullDeref        (* a null pointer is read *)
| OutOfBounds      (* a read outside of its object *)
| BufferOverflow   (* a write outside of its object *)
| OutOfMemory      (* the allocator has no block of that size *)
| Thrown           (* a failed NUTS_ASSERT: std::runtime_error *)
| OutOfFuel.       (* the model's recursion bound is exhausted *)

Inductive res (A : Type) : Type :=
| Ok (a : A)
| Fail (f : fault).
Arguments Ok {A} a.
Arguments Fail {A} f.

Definition bind {A C : Type} (m : res A) (k : A -> res C) : res C :=
  match m with Ok a => k a | Fail f => Fail f end.

Declare Scope res_scope.
Delimit Scope res_scope with res.
Notation "'let*' x ':=' m 'in' k" := (bind m (fun x => k))
  (at level 10, x pattern, m at level 100, k at level 200) : res_scope.
#[global] Open Scope res_scope.

Definition is_ok {A} (m : res A) : bool := match m with Ok _ => true | Fail _ => false end.

Lemma bind_ok_inv {A C} (m : res A) (k : A -> res C) (c : C) :
  bind m k = Ok c -> exists a, m = Ok a /\ k a = Ok c.
Proof. destruct m; simpl; [eauto | discriminate]. Qed.

Lemma bind_assoc {A C D} (m : res A) (k : A -> res C) (h : C -> res D) :
  bind (bind m k) h = bind m (fun a => bind (k a) h).
Proof. destruct m; reflexivity. Qed.

(** [sat P m]: the computation does not exhaust the model's bounds, and a value that it
    returns satisfies [P]. *)
Definition sat {A} (P : A -> Prop) (m : res A) : Prop :=
  match m with Ok a => P a | Fail f => f <> OutOfFuel end.

Lemma sat_bind {A C} (Q : A -> Prop) (P : C -> Prop) m k :
  sat Q m -> (forall a, Q a -> sat P (k a)) -> sat P (bind m k).
Proof. destruct m; simpl; auto. Qed.

Lemma sat_mono {A} (Q P : A -> Prop) m : sat Q m -> (forall a, Q a -> P a) -> sat P m.
Proof. destruct m; simpl; auto. Qed.

Lemma sat_ret {A} (P : A -> Prop) a : P a -> sat P (Ok a).
Proof. auto. Qed.

(** Case analysis on the scrutinee of the first [if], [match] or [bind] of the goal
    or of a hypothesis, and inversion of successful binds. *)
Ltac break_if :=
  match goal with
  | |- context [if ?b then _ else _] => destruct b eqn:?
  | H : context [if ?b then _ else _] |- _ => destruct b eqn:?
  end.

Ltac inv H := inversion H; subst; clear H.

Ltac inv_ok :=
  repeat match goal with
  | H : bind _ _ = Ok _ |- _ =>
      let a := fresh "a" in let Ha := fresh "Ha" in
      apply bind_ok_inv in H; destruct H as (a & Ha & H)
  | H : Ok _ = Ok _ |- _ => inv H
  | H : Fail _ = Ok _ |- _ => discriminate H
  | H : Ok _ = Fail _ |- _ => discriminate H
  end.

(** ** Splitting at the end of a run of characters *)

Fixpoint span (p : ascii -> bool) (s : bytes) : bytes * bytes :=
  match s with
  | [] => ([], [])
  | c :: s' => if p c then let '(a, r) := span p s' in (c :: a, r) else ([], s)
  end.

Lemma span_app p s : let '(a, r) := span p s in s = a ++ r.
Proof.
  induction s as [|c s IH]; simpl; [reflexivity|].
  destruct (p c); [|reflexivity].
  destruct (span p s). simpl. now f_equal.
Qed.

Lemma span_all p a r :
  forallb p a = true -> (match r with c :: _ => p c = false | [] => True end) ->
  span p (a ++ r) = (a, r).
Proof.
  induction a as [|c a IH]; simpl; intros Ha Hr.
  - destruct r as [|c r]; simpl; [|rewrite Hr]; reflexivity.
  - apply andb_true_iff in Ha as [-> Ha]. now rewrite IH.
Qed.

Lemma span_forallb p s : forallb p (fst (span p s)) = true.
Proof.
  induction s as [|c s IH]; simpl; [reflexivity|].
  destruct (p c) eqn:E; [|reflexivity].
  destruct (span p s). simpl in *. now rewrite E.
Qed.

Lemma span_length p s : length (fst (span p s)) + length (snd (span p s)) = length s.
Proof.
  pose proof (span_app p s) as H. destruct (span p s) as [a r]. simpl.
  rewrite H, length_app. reflexivity.
Qed.

(** A decidable property of the numbers below a bound, by computation. *)
Lemma all_below (k : nat) (P : Z -> bool) (n : Z) :
  forallb P (map Z.of_nat (seq 0 k)) = true -> (0 <= n < Z.of_nat k)%Z -> P n = true.
Proof.
  intros H Hn. rewrite forallb_forall in H. apply H. apply in_map_iff.
  exists (Z.to_nat n). split; [lia|]. apply in_seq. lia.
Qed.

(** ** Decimal numerals *)

(** The value of a run of decimal digits, most significant first. *)
Definition dec_val (s : bytes) : Z :=
  fold_left (fun v c => (v * 10 + (code c - 48))%Z) s 0%Z.

(** The decimal digits of a natural number. *)
Fixpoint dec_aux (fuel : nat) (n : Z) (acc : bytes) : bytes :=
  match fuel with
  | O => acc
  | S fuel' =>
      let d := char_of_int (48 + n mod 10) in
      if (n / 10 =? 0)%Z then d :: acc else dec_aux fuel' (n / 10) (d :: acc)
  end.

Definition dec (n : Z) : bytes := dec_aux (S (Z.to_nat (Z.log2 n))) n [].

Lemma code_digit d : (0 <= d < 10)%Z -> code (char_of_int (48 + d)) = (48 + d)%Z.
Proof.
  intros H. unfold code, char_of_int.
  rewrite N_ascii_embedding; rewrite Z.mod_small; lia.
Qed.

Lemma isdigit_digit d : (0 <= d < 10)%Z -> isdigit (char_of_int (48 + d)) = true.
Proof. intros H. unfold isdigit. rewrite code_digit by lia. lia. Qed.

Lemma dec_val_app a b : dec_val (a ++ b) =
  fold_left (fun v c => (v * 10 + (code c - 48))%Z) b (dec_val a).
Proof. apply fold_left_app. Qed.

Lemma dec_aux_app fuel n acc : dec_aux fuel n acc = dec_aux fuel n [] ++ acc.
Proof.
  revert n acc. induction fuel as [|fuel IH]; intros n acc; simpl; [reflexivity|].
  destruct (n / 10 =? 0)%Z; [reflexivity|].
  rewrite (IH _ (_ :: acc)), (IH _ [_]), <- app_assoc. reflexivity.
Qed.

Lemma dec_aux_spec fuel n :
  (0 <= n < 2 ^ Z.of_nat fuel)%Z -> (0 < fuel)%nat ->
  dec_val (dec_aux fuel n []) = n /\ forallb isdigit (dec_aux fuel n []) = true
  /\ exists c s, dec_aux fuel n [] = c :: s /\ ((0 < n)%Z -> (c =c "0") = false).
Proof.
  revert n. induction fuel as [|fuel IH]; intros n Hn Hf; [lia|].
  cbn [dec_aux].
  pose proof (Z.mod_pos_bound n 10 ltac:(lia)) as Hm.
  pose proof (Z.div_mod n 10 ltac:(lia)) as Hd.
  destruct (Z.eqb_spec (n / 10) 0) as [Hz|Hz].
  - rewrite Hz in Hd. replace (n mod 10)%Z with n in * by lia.
    repeat split.
    + unfold dec_val. cbn [fold_left]. rewrite code_digit; lia.
    + cbn [forallb]. now rewrite isdigit_digit by lia.
    + do 2 eexists; split; [reflexivity|]. intros Hp.
      apply Ascii.eqb_neq. intros E. apply (f_equal code) in E.
      rewrite code_digit in E by lia. change (code "0") with 48%Z in E. lia.
  - rewrite dec_aux_app.
    rewrite Nat2Z.inj_succ, Z.pow_succ_r in Hn by lia.
    destruct (IH (n / 10)%Z) as (Hv & Hdig & c & s & Hc & H0); [lia| |].
    { destruct fuel; [simpl in Hn|]; lia. }
    repeat split.
    + rewrite dec_val_app, Hv. cbn [fold_left]. rewrite code_digit; lia.
    + rewrite forallb_app, Hdig. cbn [forallb]. now rewrite isdigit_digit by lia.
    + exists c, (s ++ [char_of_int (48 + n mod 10)]). rewrite Hc.
      split; [reflexivity|]. intros _. apply H0. lia.
Qed.

Lemma dec_fuel n : (0 <= n)%Z -> (0 <= n < 2 ^ Z.of_nat (S (Z.to_nat (Z.log2 n))))%Z.
Proof.
  intros Hn. pose proof (Z.log2_nonneg n).
  replace (Z.of_nat (S (Z.to_nat (Z.log2 n)))) with (Z.succ (Z.log2 n)) by lia.
  destruct (Z.eq_dec n 0) as [->|]; [cbn; lia|].
  pose proof (Z.log2_spec n ltac:(lia)). lia.
Qed.

(** Digits that follow do not make a value smaller. *)
Lemma dec_val_prefix ds v : forallb isdigit ds = true -> (0 <= v)%Z ->
  (v <= fold_left (fun v c => v * 10 + (code c - 48)) ds v)%Z.
Proof.
  revert v. induction ds as [|c ds IH]; intros v Hd Hv; cbn in *; [lia|].
  apply andb_true_iff in Hd as [Hc Hd]. unfold isdigit in Hc.
  specialize (IH (v * 10 + (code c - 48))%Z Hd ltac:(lia)). lia.
Qed.

Lemma dec_val_dec n : (0 <= n)%Z -> dec_val (dec n) = n.
Proof. intros. unfold dec. apply dec_aux_spec; [now apply dec_fuel | lia]. Qed.

Lemma dec_digits n : (0 <= n)%Z -> forallb isdigit (dec n) = true.
Proof. intros. unfold dec. apply dec_aux_spec; [now apply dec_fuel | lia]. Qed.

Lemma dec_cons n : (0 <= n)%Z ->
  exists c s, dec n = c :: s /\ isdigit c = true /\ ((0 < n)%Z -> (c =c "0") = false).
Proof.
  intros Hn. unfold dec.
  destruct (dec_aux_spec _ n (dec_fuel n Hn) ltac:(lia)) as (_ & Hd & c & s & E & H0).
  exists c, s. rewrite E in *. cbn [forallb] in Hd.
  apply andb_true_iff in Hd as [-> _]. auto.
Qed.

Lemma dec_val_nonneg s : forallb isdigit s = true -> (0 <= dec_val s)%Z.
Proof.
  enough (forall v, (0 <= v)%Z -> forallb isdigit s = true ->
    (0 <= fold_left (fun v c => (v * 10 + (code c - 48))%Z) s v)%Z) as H.
  { intros Hs. apply H; [lia | assumption]. }
  induction s as [|c s IH]; simpl; intros v Hv Hs; [assumption|].
  apply andb_true_iff in Hs as [Hc Hs]. apply IH; [|assumption].
  unfold isdigit in Hc. lia.
Qed.
