(* ===== verification/CLib.v ===== *)
(** * The C library as the demanglers use it

    Read-only C strings and the pointers into them, the functions of [<string.h>] and
    [<stdlib.h>] that [demangle_d/] and [unmangle/] call, and the portable replacements of
    some of them in [demangle_d/util.c]. *)
From S2P Require Import Prelude.
Local Open Scope Z_scope.

(** ** Pointers into constant text

    [PAt s] points into a block whose remaining readable bytes are [s] and then the
    terminating NUL; [PPast] is past the end of the block. *)
Inductive cptr : Type :=
| PNull
| PAt (s : bytes)
| PPast.

Definition is_null (p : cptr) : bool := match p with PNull => true | _ => false end.

(** Number of bytes before the terminator: bounds how far a scan can still advance. *)
Definition plen (p : cptr) : nat := match p with PAt s => length s | _ => O end.

(** [s[i]] for a text whose readable bytes are [s] and a NUL. *)
Fixpoint rd_at (s : bytes) (i : nat) : res ascii :=
  match s, i with
  | [], O => Ok NUL
  | [], S _ => Fail OutOfBounds
  | c :: _, O => Ok c
  | _ :: s', S i' => rd_at s' i'
  end.

(** [p[i]] *)
Definition rd (p : cptr) (i : nat) : res ascii :=
  match p with
  | PNull => Fail NullDeref
  | PPast => Fail OutOfBounds
  | PAt s => rd_at s i
  end.

(** [p + n] *)
Definition padd (p : cptr) (n : Z) : cptr :=
  match p with
  | PAt s => if n <=? Z.of_nat (length s) then PAt (skipn (Z.to_nat n) s) else PPast
  | _ => p
  end.

(** [p + 1] *)
Definition pnext (p : cptr) : cptr :=
  match p with
  | PAt (_ :: s) => PAt s
  | PAt [] => PPast
  | _ => p
  end.

(** The [n] bytes that a [memcpy] from [p] reads. *)
Definition load (p : cptr) (n : Z) : res bytes :=
  match p with
  | PNull => if n =? 0 then Ok [] else Fail NullDeref
  | PPast => if n =? 0 then Ok [] else Fail OutOfBounds
  | PAt s => if n <=? Z.of_nat (length s) + 1
             then Ok (firstn (Z.to_nat n) (s ++ [NUL]))
             else Fail OutOfBounds
  end.

(** The bytes before the first NUL. *)
Definition cstr_of (s : bytes) : bytes := fst (span (fun c => negb (c =c NUL)) s).

(** [strlen(p)], together with the bytes it counts. *)
Definition cstr (p : cptr) : res bytes :=
  match p with
  | PNull => Fail NullDeref
  | PPast => Fail OutOfBounds
  | PAt s => Ok (cstr_of s)
  end.

(** [strncmp(p, lit, n) == 0]. Both texts end in NUL, where the comparison stops. *)
Fixpoint strncmp_at (s lit : bytes) (n : nat) : bool :=
  match n with
  | O => true
  | S n' =>
      match s, lit with
      | [], [] => true
      | [], d :: _ => d =c NUL
      | c :: _, [] => c =c NUL
      | c :: s', d :: lit' =>
          if Ascii.eqb c d then (if c =c NUL then true else strncmp_at s' lit' n') else false
      end
  end.

Definition strncmp_eq (p : cptr) (lit : bytes) (n : nat) : res bool :=
  match p with
  | PNull => Fail NullDeref
  | PPast => Fail OutOfBounds
  | PAt s => Ok (strncmp_at s lit n)
  end.

(** ** [strtol(p, &end, 10)] with a 64-bit [long] *)

Definition LONG_MAX : Z := 9223372036854775807.
Definition LONG_MIN : Z := - LONG_MAX - 1.

Definition clamp_long (v : Z) : Z :=
  if LONG_MAX <? v then LONG_MAX else if v <? LONG_MIN then LONG_MIN else v.

Definition strtol_at (s : bytes) : Z * bytes :=
  let s1 := snd (span isspace s) in
  let '(sign, s2) :=
    match s1 with
    | c :: r => if c =c "-" then (-1, r) else if c =c "+" then (1, r) else (1, s1)
    | [] => (1, s1)
    end in
  let '(ds, r) := span isdigit s2 in
  match ds with
  | [] => (0, s)
  | _ => (clamp_long (sign * dec_val ds), r)
  end.

Definition strtol (p : cptr) : res (Z * cptr) :=
  match p with
  | PNull => Fail NullDeref
  | PPast => Fail OutOfBounds
  | PAt s => let '(v, r) := strtol_at s in Ok (v, PAt r)
  end.

(** ** [strtol(p, &end, 0)] and [strtoul(p, &end, 0)]: the base is that of a C constant *)

Definition digit_value (c : ascii) : Z :=
  if isdigit c then code c - 48
  else if (97 <=? code c) && (code c <=? 102) then code c - 87 else code c - 55.

Definition isoctal (c : ascii) : bool := (48 <=? code c) && (code c <=? 55).

(** The base, what its digits are, and the text behind the prefix. *)
Definition base_of (s : bytes) : Z * (ascii -> bool) * bytes :=
  match s with
  | z :: x :: c :: r =>
      if (z =c "0") && ((x =c "x") || (x =c "X")) && isxdigit c then (16, isxdigit, c :: r)
      else if z =c "0" then (8, isoctal, s) else (10, isdigit, s)
  | z :: _ => if z =c "0" then (8, isoctal, s) else (10, isdigit, s)
  | [] => (10, isdigit, s)
  end.

Definition digits_value (base : Z) (ds : bytes) : Z :=
  fold_left (fun v c => v * base + digit_value c) ds 0.

(** Sign, magnitude and the rest; [None] when there are no digits. *)
Definition scan_number (s : bytes) : option (bool * Z * bytes) :=
  let s1 := snd (span isspace s) in
  let '(neg, s2) :=
    match s1 with
    | c :: r => if c =c "-" then (true, r) else if c =c "+" then (false, r) else (false, s1)
    | [] => (false, s1)
    end in
  let '(base, digit, s3) := base_of s2 in
  let '(ds, r) := span digit s3 in
  match ds with
  | [] => None
  | _ => Some (neg, digits_value base ds, r)
  end.

Definition ULONG_MAX : Z := 2 ^ 64 - 1.

Definition strtol_0 (s : bytes) : Z * bytes :=
  match scan_number s with
  | Some (neg, v, r) => (clamp_long (if neg then - v else v), r)
  | None => (0, s)
  end.

(** A magnitude that does not fit gives [ULONG_MAX], a negative one wraps around. *)
Definition strtoul_0 (s : bytes) : Z * bytes :=
  match scan_number s with
  | Some (neg, v, r) => (if ULONG_MAX <? v then ULONG_MAX else (if neg then - v else v) mod 2 ^ 64, r)
  | None => (0, s)
  end.

(** GNU [strndup(p, n)]: at most [n] bytes, up to the terminator. *)
Definition strndup (p : cptr) (n : Z) : res bytes :=
  let* s := cstr p in Ok (firstn (Z.to_nat (Z.min n (Z.of_nat (length s)))) s).

(** ** The portable replacements of [demangle_d/util.c] *)

Module Util.

(** [DD_(strndup)]: copies [n] bytes whatever they are, and terminates the copy. The result
    is the C string in the new block. *)
Definition DD_strndup (p : cptr) (n : Z) : res bytes :=
  let* s := load p n in Ok (cstr_of s).

(** [DD_(strtol_10)] on the text at [src]; the accumulator is the mathematical value, which
    is the value of the [long] as long as it fits. *)
Definition DD_strtol_10 (src : bytes) : Z * bytes :=
  let '(sign, src) :=
    match src with
    | c :: r => if c =c "-" then (-1, r) else if c =c "+" then (1, r) else (1, src)
    | [] => (1, src)
    end in
  let '(ds, r) := span isdigit src in
  (sign * dec_val ds, r).

(** A block of bytes with the pointers of [memmove] as offsets into it. *)
Definition copy_within (m : bytes) (dest src n : nat) : bytes :=
  firstn dest m ++ firstn n (skipn src m) ++ skipn (dest + n) m.

(** [memcpy] copies forwards byte by byte: on overlapping regions it reads what it wrote. *)
Fixpoint memcpy (m : bytes) (dest src n : nat) : bytes :=
  match n with
  | O => m
  | S n' =>
      match nth_error m src with
      | Some c => memcpy (firstn dest m ++ c :: skipn (S dest) m) (S dest) (S src) n'
      | None => m
      end
  end.

(** [DD_(memmove)]: a plain copy when the regions are apart, else through a temporary. *)
Definition DD_memmove (m : bytes) (dest src n : nat) : bytes :=
  let a := dest in
  let b := src in
  if ((a <? b) && (a + n <? b) || (b <? a) && (b + n <? a))%nat%bool
  then memcpy m dest src n
  else
    let tmp := firstn n (skipn src m) in
    firstn dest m ++ tmp ++ skipn (dest + n) m.

End Util.

(** ** Facts *)

Lemma pnext_padd p : pnext p = padd p 1.
Proof.
  destruct p as [|[|c s]|]; try reflexivity. unfold padd.
  change (Z.to_nat 1) with 1%nat.
  destruct (1 <=? Z.of_nat (length (c :: s))) eqn:E; [reflexivity|].
  cbn [length] in E. lia.
Qed.

Lemma rd_0_cons c s : rd (PAt (c :: s)) 0 = Ok c.
Proof. reflexivity. Qed.

Lemma padd_app a s : padd (PAt (a ++ s)) (Z.of_nat (length a)) = PAt s.
Proof.
  unfold padd. rewrite length_app.
  destruct (Z.of_nat (length a) <=? Z.of_nat (length a + length s)) eqn:E; [|lia].
  now rewrite Nat2Z.id, skipn_app, skipn_all, Nat.sub_diag.
Qed.

Lemma load_app a s : load (PAt (a ++ s)) (Z.of_nat (length a)) = Ok a.
Proof.
  unfold load. rewrite length_app.
  destruct (_ <=? _) eqn:E; [|lia].
  rewrite Nat2Z.id, <- app_assoc, firstn_app, firstn_all, Nat.sub_diag.
  cbn [firstn]. now rewrite app_nil_r.
Qed.

Lemma load_all a : load (PAt a) (Z.of_nat (length a)) = Ok a.
Proof. rewrite <- (app_nil_r a) at 1. apply load_app. Qed.

Lemma plen_padd p n : (plen (padd p n) <= plen p)%nat.
Proof.
  destruct p; simpl; auto. destruct (_ <=? _); simpl; [|lia].
  rewrite length_skipn. lia.
Qed.

(** A text without NUL bytes is its own C string. *)
Definition no_nul (s : bytes) : bool := forallb (fun c => negb (c =c NUL)) s.

Lemma cstr_of_no_nul s : no_nul s = true -> cstr_of s = s.
Proof.
  intros H. unfold cstr_of, no_nul in *.
  rewrite <- (app_nil_r s) at 1. now rewrite span_all.
Qed.

Lemma no_nul_app a b : no_nul (a ++ b) = no_nul a && no_nul b.
Proof. apply forallb_app. Qed.

Lemma isdigit_not_space c : isdigit c = true -> isspace c = false.
Proof. unfold isdigit, isspace. lia. Qed.

Lemma isdigit_not_sign c : isdigit c = true -> (c =c "-") = false /\ (c =c "+") = false.
Proof.
  intros H. split; apply Ascii.eqb_neq; intros ->; discriminate H.
Qed.

(** [strtol] on a run of digits that is followed by something else. *)
Lemma strtol_at_digits ds r :
  forallb isdigit ds = true -> ds <> [] ->
  (match r with c :: _ => isdigit c = false | [] => True end) ->
  strtol_at (ds ++ r) = (clamp_long (dec_val ds), r).
Proof.
  intros Hd Hne Hr. unfold strtol_at.
  destruct ds as [|c ds]; [congruence|]. cbn [forallb] in Hd.
  apply andb_true_iff in Hd as [Hc Hd].
  cbn [app span]. rewrite (isdigit_not_space c Hc). cbn [snd].
  destruct (isdigit_not_sign c Hc) as [-> ->]. cbn [span]. rewrite Hc.
  rewrite (span_all isdigit ds r Hd Hr). now rewrite Z.mul_1_l.
Qed.

(** The same behind a sign. *)
Lemma strtol_at_signed (neg : bool) ds r :
  forallb isdigit ds = true -> ds <> [] ->
  (match r with c :: _ => isdigit c = false | [] => True end) ->
  strtol_at ((if neg then "-"%char else "+"%char) :: ds ++ r)
  = (clamp_long (if neg then - dec_val ds else dec_val ds), r).
Proof.
  intros Hd Hne Hr. unfold strtol_at.
  destruct neg; cbn -[clamp_long dec_val Z.mul]; rewrite span_all by assumption;
    (destruct ds; [congruence|]); do 2 f_equal; lia.
Qed.

Lemma strtol_dec n r :
  0 <= n <= LONG_MAX ->
  (match r with c :: _ => isdigit c = false | [] => True end) ->
  strtol (PAt (dec n ++ r)) = Ok (n, PAt r).
Proof.
  intros Hn Hr. unfold strtol.
  rewrite strtol_at_digits; try assumption.
  - rewrite dec_val_dec by lia. unfold clamp_long, LONG_MIN in *.
    destruct (LONG_MAX <? n) eqn:E1; [lia|]. destruct (n <? _) eqn:E2; [|reflexivity].
    unfold LONG_MAX in *; lia.
  - apply dec_digits; lia.
  - destruct (dec_cons n ltac:(lia)) as (? & ? & -> & _). discriminate.
Qed.
