(* ===== verification/DString.v ===== *)
(** * Growable strings of the D demangler ([demangle_d/string.c])

    [DStringOps] is the interface that the parser of [demangle_d/parser.c] uses; it has two
    instances. [string_t] is the code: a heap block of [len] cells with [used] bytes in use
    and a terminator, grown by [xrealloc]. [bytes] is its specification: the text itself.
    [DStringSpec] states what the first owes to the second, up to exhausting memory, and
    [string_t_spec] proves it. *)
From S2P Require Import Prelude CLib.
Local Open Scope Z_scope.

(** ** The interface *)

Class DStringOps (T : Type) := {
  new_string : res T;
  append_n : T -> cptr -> Z -> res T;
  append_c : T -> Z -> res T;
  prepend_n : T -> cptr -> Z -> res T;
  (* [dest->used], [dest->str] *)
  used : T -> Z;
  str : T -> cptr;
  (* dest->used = 0; dest->str[0] = 0 *)
  truncate : T -> res T
}.

(** The operations that are built from the others. *)
Section Derived.
  Context {T : Type} {ops : DStringOps T}.

Definition append (dest : T) (source : cptr) : res T :=
  let* s := cstr source in append_n dest source (Z.of_nat (length s)).

Definition prepend (dest : T) (source : cptr) : res T :=
  let* s := cstr source in prepend_n dest source (Z.of_nat (length s)).

Definition nestpend_n (dest : T) (source : cptr) (len : Z) (is_nested : bool) : res T :=
  if is_nested then append_n dest source len
  else
    let* dest := prepend dest (PAt (B " ")) in
    prepend_n dest source len.

Definition nestpend (dest : T) (source : cptr) (is_nested : bool) : res T :=
  let* s := cstr source in nestpend_n dest source (Z.of_nat (length s)) is_nested.

End Derived.

(** ** The specification: the text itself *)

#[export] Instance bytes_ops : DStringOps bytes := {
  new_string := Ok [];
  append_n d p n := let* s := load p n in Ok (d ++ s);
  append_c d c := Ok (d ++ [char_of_int c]);
  prepend_n d p n := let* s := load p n in Ok (s ++ d);
  used d := Z.of_nat (length d);
  str d := PAt d;
  truncate _ := Ok []
}.

(** ** The implementation: cells in a heap block *)

Module Impl.

(** A cell that was never written is [None]. *)
Record string_t : Type := mk_string { s_used : Z; s_str : list (option ascii); s_len : Z }.

Definition u64 (n : Z) : Z := n mod 2 ^ 64.

(** No block is larger than the address space of a process on x86-64. *)
Definition USER_SPACE : Z := 2 ^ 47.

Definition xmalloc (n : Z) : res (list (option ascii)) :=
  if n <=? USER_SPACE then Ok (repeat None (Z.to_nat n)) else Fail OutOfMemory.

Definition xrealloc (p : list (option ascii)) (n : Z) : res (list (option ascii)) :=
  if n <=? USER_SPACE
  then Ok (firstn (Z.to_nat n) p ++ repeat None (Z.to_nat n - length p))
  else Fail OutOfMemory.

(** Writing a run of cells into the block. *)
Definition write (p : list (option ascii)) (off : Z) (data : list (option ascii))
  : res (list (option ascii)) :=
  if off + Z.of_nat (length data) <=? Z.of_nat (length p)
  then Ok (firstn (Z.to_nat off) p ++ data
           ++ skipn (Z.to_nat off + length data) p)
  else Fail BufferOverflow.

Definition poke (p : list (option ascii)) (off : Z) (c : ascii) := write p off [Some c].

Definition new_string : res string_t :=
  let len := 128 in
  let* p := xmalloc len in
  let* p := poke p 0 NUL in
  Ok (mk_string 0 p len).

(** The growth step that append_n, append_c and prepend_n share. *)
Definition reserve (dest : string_t) (new_len : Z) : res string_t :=
  if s_len dest <? new_len then
    let len := u64 (new_len + Z.shiftr new_len 1) in
    let* p := xrealloc (s_str dest) len in
    Ok (mk_string (s_used dest) p len)
  else Ok dest.

Definition append_n (dest : string_t) (source : cptr) (len : Z) : res string_t :=
  let new_len := u64 (s_used dest + len + 1) in
  let* dest := reserve dest new_len in
  let* data := load source len in
  let* p := write (s_str dest) (s_used dest) (map Some data) in
  let used := u64 (s_used dest + len) in
  let* p := poke p used NUL in
  Ok (mk_string used p (s_len dest)).

Definition append_c (dest : string_t) (source : Z) : res string_t :=
  let new_len := u64 (s_used dest + 2) in
  let* dest := reserve dest new_len in
  let* p := poke (s_str dest) (s_used dest) (char_of_int source) in
  let used := u64 (s_used dest + 1) in
  let* p := poke p used NUL in
  Ok (mk_string used p (s_len dest)).

Definition prepend_n (dest : string_t) (source : cptr) (len : Z) : res string_t :=
  let new_len := u64 (s_used dest + len + 1) in
  let* dest := reserve dest new_len in
  let* p := if s_used dest =? 0 then Ok (s_str dest)
            else (* memmove(str + len, str, used) *)
              write (s_str dest) len (firstn (Z.to_nat (s_used dest)) (s_str dest)) in
  let* data := load source len in
  let* p := write p 0 (map Some data) in
  let used := u64 (s_used dest + len) in
  let* p := poke p used NUL in
  Ok (mk_string used p (s_len dest)).

Definition truncate (dest : string_t) : res string_t :=
  let* p := poke (s_str dest) 0 NUL in
  Ok (mk_string 0 p (s_len dest)).

(** The written bytes of a run of cells. *)
Definition written (p : list (option ascii)) : bytes :=
  flat_map (fun o => match o with Some c => [c] | None => [] end) p.

Definition str (d : string_t) : cptr := PAt (written (firstn (Z.to_nat (s_used d)) (s_str d))).

End Impl.

#[export] Instance string_t_ops : DStringOps Impl.string_t := {
  new_string := Impl.new_string;
  append_n := Impl.append_n;
  append_c := Impl.append_c;
  prepend_n := Impl.prepend_n;
  used := Impl.s_used;
  str := Impl.str;
  truncate := Impl.truncate
}.

(** ** Refinement up to exhausted memory *)

(** [sim R m n]: the computation [m] does what [n] does, or runs out of memory. *)
Inductive sim {A C : Type} (R : A -> C -> Prop) : res A -> res C -> Prop :=
| sim_ok a c : R a c -> sim R (Ok a) (Ok c)
| sim_fail f : sim R (Fail f) (Fail f)
| sim_oom n : sim R (Fail OutOfMemory) n.

Lemma sim_bind {A C D E} (R : A -> C -> Prop) (Q : D -> E -> Prop) m n h k :
  sim R m n -> (forall a c, R a c -> sim Q (h a) (k c)) -> sim Q (bind m h) (bind n k).
Proof. destruct 1; simpl; intros H0; [auto | constructor | constructor]. Qed.

Lemma sim_refl {A} (R : A -> A -> Prop) (m : res A) :
  (forall a, m = Ok a -> R a a) -> sim R m m.
Proof. destruct m; constructor; auto. Qed.

(** What an implementation [T] owes: its operations follow those of the text it stands for. *)
Class DStringSpec (T : Type) {ops : DStringOps T} := {
  repr : T -> bytes -> Prop;
  repr_bound d s : repr d s -> Z.of_nat (length s) < Impl.USER_SPACE;
  used_spec d s : repr d s -> used d = Z.of_nat (length s);
  str_spec d s : repr d s -> str d = PAt s;
  new_string_spec : sim repr new_string new_string;
  append_n_spec d s p n : repr d s -> 0 <= n <= LONG_MAX ->
    Z.of_nat (plen p) < Impl.USER_SPACE -> sim repr (append_n d p n) (append_n s p n);
  append_c_spec d s c : repr d s -> sim repr (append_c d c) (append_c s c);
  prepend_n_spec d s p n : repr d s -> 0 <= n <= LONG_MAX ->
    Z.of_nat (plen p) < Impl.USER_SPACE -> sim repr (prepend_n d p n) (prepend_n s p n);
  truncate_spec d s : repr d s -> sim repr (truncate d) (truncate s)
}.

Section DerivedSpec.
  Context {T : Type} {ops : DStringOps T} {spec : DStringSpec T}.

Lemma cstr_of_length s : (length (cstr_of s) <= length s)%nat.
Proof. unfold cstr_of. pose proof (span_length (fun c => negb (c =c NUL)) s). lia. Qed.

Lemma cstr_length p s : cstr p = Ok s -> (length s <= plen p)%nat.
Proof. destruct p; simpl; intros H; inv H. apply cstr_of_length. Qed.

Lemma small_len (s : bytes) p : (length s <= plen p)%nat ->
  Z.of_nat (plen p) < Impl.USER_SPACE -> 0 <= Z.of_nat (length s) <= LONG_MAX.
Proof. unfold Impl.USER_SPACE, LONG_MAX. lia. Qed.

Lemma append_spec d s p : repr d s -> Z.of_nat (plen p) < Impl.USER_SPACE ->
  sim repr (append d p) (append s p).
Proof.
  intros Hr Hp. unfold append. destruct (cstr p) as [t|] eqn:E; simpl; [|constructor].
  apply append_n_spec; eauto using small_len, cstr_length.
Qed.

Lemma prepend_spec d s p : repr d s -> Z.of_nat (plen p) < Impl.USER_SPACE ->
  sim repr (prepend d p) (prepend s p).
Proof.
  intros Hr Hp. unfold prepend. destruct (cstr p) as [t|] eqn:E; simpl; [|constructor].
  apply prepend_n_spec; eauto using small_len, cstr_length.
Qed.

Lemma nestpend_n_spec d s p n b : repr d s -> 0 <= n <= LONG_MAX ->
  Z.of_nat (plen p) < Impl.USER_SPACE -> sim repr (nestpend_n d p n b) (nestpend_n s p n b).
Proof.
  intros Hr Hn Hp. unfold nestpend_n. destruct b; [now apply append_n_spec|].
  eapply sim_bind; [apply prepend_spec; [eassumption|reflexivity]|].
  intros. now apply prepend_n_spec.
Qed.

Lemma nestpend_spec d s p b : repr d s -> Z.of_nat (plen p) < Impl.USER_SPACE ->
  sim repr (nestpend d p b) (nestpend s p b).
Proof.
  intros Hr Hp. unfold nestpend. destruct (cstr p) as [t|] eqn:E; simpl; [|constructor].
  apply nestpend_n_spec; eauto using small_len, cstr_length.
Qed.

End DerivedSpec.

(** ** The heap implementation meets the specification *)

Module ImplSpec.
Import Impl(string_t, mk_string, s_used, s_str, s_len, u64, USER_SPACE, xmalloc, xrealloc,
  write, poke, reserve, written).

(** The representation invariant: [used] counts the text, the block holds the text and a
    terminator within its [len] cells. *)
Definition holds (d : string_t) (s : bytes) : Prop :=
  s_used d = Z.of_nat (length s)
  /\ s_len d = Z.of_nat (length (s_str d))
  /\ s_len d <= USER_SPACE
  /\ exists rest, s_str d = map Some s ++ Some NUL :: rest.

Lemma write_mid p a b b' c :
  p = a ++ b ++ c -> length b' = length b ->
  write p (Z.of_nat (length a)) b' = Ok (a ++ b' ++ c).
Proof.
  intros -> E. unfold write. rewrite !length_app, E.
  destruct (_ <=? _) eqn:L; [|lia]. rewrite Nat2Z.id. do 2 f_equal.
  - now rewrite firstn_app, firstn_all, Nat.sub_diag, app_nil_r.
  - f_equal. rewrite !skipn_app, skipn_all2 by lia.
    replace (length a + length b - length a)%nat with (length b) by lia.
    now rewrite skipn_all, Nat.sub_diag.
Qed.

Lemma write_0 p b b' c :
  p = b ++ c -> length b' = length b -> write p 0 b' = Ok (b' ++ c).
Proof. intros E L. apply (write_mid p [] b b' c E L). Qed.

(** A block of [n + 1] cells or more splits after [n] cells and the next. *)
Lemma split_at {A} (p : list A) n : (n < length p)%nat ->
  exists a x c, p = a ++ x :: c /\ length a = n.
Proof.
  intros H. exists (firstn n p).
  destruct (skipn n p) as [|x c] eqn:E.
  - apply (f_equal (@length A)) in E. rewrite length_skipn in E. simpl in E. lia.
  - exists x, c. rewrite <- E, firstn_skipn, length_firstn. split; [reflexivity | lia].
Qed.

Lemma u64_small n : 0 <= n < 2 ^ 64 -> u64 n = n.
Proof. apply Z.mod_small. Qed.

Lemma reserve_spec d s n :
  holds d s -> 0 <= n <= 2 ^ 63 + 2 ^ 47 ->
  reserve d n = Fail OutOfMemory
  \/ exists d', reserve d n = Ok d' /\ holds d' s /\ n <= s_len d'.
Proof.
  intros Hd Hn. destruct Hd as (Hu & Hl & Hb & rest & Hs). unfold reserve.
  destruct (s_len d <? n) eqn:E.
  - rewrite Z.shiftr_div_pow2 by lia. change (2 ^ 1) with 2.
    rewrite u64_small by lia. unfold xrealloc, USER_SPACE in *.
    destruct (_ <=? 2 ^ 47) eqn:Hm; [right | now left].
    eexists. split; [reflexivity|]. cbn. rewrite firstn_all2 by lia.
    repeat split; try assumption; cbn.
    + rewrite length_app, repeat_length. lia.
    + lia.
    + exists (rest ++ repeat None (Z.to_nat (n + n / 2) - length (s_str d))).
      rewrite Hs at 1. rewrite <- app_assoc. reflexivity.
    + lia.
  - right. exists d. repeat split; try assumption; [|lia]. eauto.
Qed.

Lemma load_length p n t : load p n = Ok t -> 0 <= n -> length t = Z.to_nat n.
Proof.
  unfold load. destruct p; repeat break_if; intros H; inv H; cbn; try lia.
  rewrite length_firstn, length_app. cbn. lia.
Qed.

Lemma load_bound p n t : load p n = Ok t -> n <= Z.of_nat (plen p) + 1.
Proof. unfold load. destruct p; repeat break_if; intros H; inv H; cbn; lia. Qed.

Lemma holds_bound d s : holds d s -> Z.of_nat (length s) < USER_SPACE.
Proof.
  intros (_ & Hl & Hb & rest & Hs). apply (f_equal (@length _)) in Hs.
  rewrite length_app, length_map in Hs. cbn in Hs. lia.
Qed.

(** What both appends do once the room is there. *)
Lemma put_at_end d s t :
  holds d s -> Z.of_nat (length s + length t + 1) <= s_len d ->
  exists p, write (s_str d) (s_used d) (map Some t) = Ok p
  /\ exists q, poke p (Z.of_nat (length s + length t)) NUL = Ok q
  /\ holds (mk_string (Z.of_nat (length (s ++ t))) q (s_len d)) (s ++ t).
Proof.
  intros (Hu & Hl & Hb & rest & Hs) Hroom.
  destruct (split_at (s_str d) (length s + length t) ltac:(lia)) as (a & x & c & Hp & Ha).
  rewrite Hs in Hp. rewrite Hl, Hs in *.
  assert (exists b, a = map Some s ++ b /\ length b = length t) as (b & -> & Hbl).
  { exists (skipn (length s) a). split.
    - rewrite <- (firstn_skipn (length s) a) at 1. f_equal.
      apply (f_equal (firstn (length s))) in Hp.
      rewrite !firstn_app, !length_map in Hp. rewrite Nat.sub_diag in Hp.
      cbn [firstn] in Hp. rewrite app_nil_r in Hp.
      rewrite firstn_all2 in Hp by (now rewrite length_map).
      replace (length s - length a)%nat with O in Hp by lia.
      cbn [firstn] in Hp. now rewrite app_nil_r in Hp.
    - rewrite length_skipn. lia. }
  rewrite <- app_assoc in Hp. rewrite Hu, <- (length_map Some s).
  eexists. split.
  { eapply write_mid; [exact Hp|]. now rewrite length_map. }
  eexists. split.
  { unfold poke. rewrite length_map.
    replace (length s + length t)%nat with (length (map Some (s ++ t)))
      by (now rewrite length_map, length_app).
    eapply (write_mid _ _ [x]); [|reflexivity].
    rewrite map_app, <- app_assoc. reflexivity. }
  repeat split; cbn; try assumption.
  - rewrite Hp, map_app, !length_app, !length_map. cbn. lia.
  - eexists. reflexivity.
Qed.

Lemma append_n_holds d s p n :
  holds d s -> 0 <= n <= LONG_MAX -> Z.of_nat (plen p) < USER_SPACE ->
  sim holds (Impl.append_n d p n) (append_n s p n).
Proof.
  intros Hh Hn Hp. pose proof (holds_bound _ _ Hh) as Hb.
  unfold USER_SPACE, LONG_MAX in *. unfold Impl.append_n. cbn [append_n bytes_ops].
  rewrite (proj1 Hh), u64_small by lia.
  destruct (reserve_spec d s (Z.of_nat (length s) + n + 1) Hh ltac:(lia)) as [->|(d' & -> & Hh' & Hroom)];
    [constructor|].
  cbn [bind]. destruct (load p n) as [t|] eqn:Hl; [|constructor]. cbn [bind].
  pose proof (load_length _ _ _ Hl ltac:(lia)) as Hlen.
  pose proof (load_bound _ _ _ Hl).
  destruct (put_at_end d' s t Hh' ltac:(lia)) as (q & -> & r & Hr & Hfin). cbn [bind].
  destruct Hh' as (Hu' & _). rewrite Hu', u64_small by lia.
  replace (Z.of_nat (length s) + n) with (Z.of_nat (length s + length t)) by lia.
  rewrite Hr. cbn [bind]. constructor. now rewrite length_app in Hfin.
Qed.

Lemma append_c_holds d s c :
  holds d s -> sim holds (Impl.append_c d c) (append_c s c).
Proof.
  intros Hh. pose proof (holds_bound _ _ Hh) as Hb.
  unfold USER_SPACE in *. unfold Impl.append_c. cbn [append_c bytes_ops].
  rewrite (proj1 Hh), u64_small by lia.
  destruct (reserve_spec d s (Z.of_nat (length s) + 2) Hh ltac:(lia)) as [->|(d' & -> & Hh' & Hroom)];
    [constructor|].
  cbn [bind]. unfold poke at 1.
  destruct (put_at_end d' s [char_of_int c] Hh' ltac:(cbn; lia)) as (q & Hq & r & Hr & Hfin).
  cbn [map] in Hq. rewrite Hq. cbn [bind].
  rewrite (proj1 Hh'), u64_small by lia.
  replace (Z.of_nat (length s) + 1) with (Z.of_nat (length s + length [char_of_int c]))
    by (cbn; lia).
  rewrite Hr. cbn [bind]. constructor. now rewrite length_app in Hfin.
Qed.

(** The [memmove] of prepend_n: the text ends up [n] cells higher. *)
Lemma shift_up p s rest n :
  p = map Some s ++ rest -> (n + length s < length p)%nat ->
  exists g x c,
    (if Z.of_nat (length s) =? 0 then Ok p
     else write p (Z.of_nat n) (firstn (Z.to_nat (Z.of_nat (length s))) p))
    = Ok (g ++ map Some s ++ x :: c)
    /\ length g = n /\ length (g ++ map Some s ++ x :: c) = length p.
Proof.
  intros Hs Hlt. destruct (split_at p (n + length s) Hlt) as (a & x & c & Hp & Ha).
  destruct (Z.of_nat (length s) =? 0) eqn:E0.
  - destruct s; [|discriminate]. exists a, x, c. cbn in *. rewrite Hp.
    repeat split. lia.
  - assert (firstn (Z.to_nat (Z.of_nat (length s))) p = map Some s) as ->.
    { rewrite Nat2Z.id, Hs, firstn_app, length_map, Nat.sub_diag.
      cbn [firstn]. rewrite app_nil_r, firstn_all2; [reflexivity|]. now rewrite length_map. }
    exists (firstn n a), x, c. rewrite !length_app, length_firstn, length_map.
    split; [|rewrite Hp, length_app; cbn; lia].
    replace (Z.of_nat n) with (Z.of_nat (length (firstn n a)))
      by (rewrite length_firstn; lia).
    apply (write_mid _ _ (skipn n a) _ (x :: c)).
    + rewrite app_assoc, firstn_skipn. exact Hp.
    + rewrite length_map, length_skipn. lia.
Qed.

Lemma prepend_n_holds d s p n :
  holds d s -> 0 <= n <= LONG_MAX -> Z.of_nat (plen p) < USER_SPACE ->
  sim holds (Impl.prepend_n d p n) (prepend_n s p n).
Proof.
  intros Hh Hn Hp. pose proof (holds_bound _ _ Hh) as Hb.
  unfold USER_SPACE, LONG_MAX in *. unfold Impl.prepend_n. cbn [prepend_n bytes_ops].
  rewrite (proj1 Hh), u64_small by lia.
  destruct (reserve_spec d s (Z.of_nat (length s) + n + 1) Hh ltac:(lia))
    as [->|(d' & -> & (Hu & Hl & Hbd & rest & Hs) & Hroom)]; [constructor|].
  cbn [bind]. rewrite Hu.
  destruct (shift_up (s_str d') s (Some NUL :: rest) (Z.to_nat n) Hs ltac:(lia))
    as (g & x & c & Hq & Hg & Hql).
  rewrite Z2Nat.id in Hq by lia. rewrite Hq. cbn [bind].
  destruct (load p n) as [t|] eqn:Hld; [|constructor]. cbn [bind].
  pose proof (load_length _ _ _ Hld ltac:(lia)) as Hlen.
  pose proof (load_bound _ _ _ Hld).
  erewrite (write_0 _ g (map Some t)); [|reflexivity|rewrite length_map; lia].
  cbn [bind]. rewrite u64_small by lia. unfold poke.
  replace (Z.of_nat (length s) + n) with (Z.of_nat (length (map Some t ++ map Some s)))
    by (rewrite length_app, !length_map; lia).
  erewrite (write_mid _ (map Some t ++ map Some s) [x]);
    [|rewrite <- app_assoc; reflexivity|reflexivity].
  cbn [bind]. constructor.
  rewrite !length_app, !length_map in *. cbn [length] in Hql.
  repeat split; cbn [s_used s_str s_len].
  - rewrite !length_app. lia.
  - rewrite Hl, <- Hql, !length_app, !length_map. cbn [length]. lia.
  - assumption.
  - rewrite map_app. eexists. reflexivity.
Qed.

Lemma truncate_holds d s : holds d s -> sim holds (Impl.truncate d) (truncate s).
Proof.
  intros (Hu & Hl & Hb & rest & Hs). unfold Impl.truncate, poke.
  destruct (s_str d) as [|x r] eqn:E; [destruct s; discriminate|].
  rewrite (write_0 _ [x] _ r) by reflexivity. cbn. constructor.
  repeat split; cbn; try assumption. now exists r.
Qed.

Lemma written_some s r : written (firstn (length s) (map Some s ++ r)) = s.
Proof.
  rewrite firstn_app, length_map, Nat.sub_diag. cbn [firstn].
  rewrite app_nil_r, firstn_all2 by (now rewrite length_map).
  induction s as [|c s IH]; cbn; [reflexivity|]. now f_equal.
Qed.

Lemma new_string_holds : sim holds Impl.new_string new_string.
Proof.
  cbn. constructor. repeat split; [discriminate|]. eexists. reflexivity.
Qed.

End ImplSpec.

#[export] Instance string_t_spec : DStringSpec Impl.string_t.
Proof.
  refine {| repr := ImplSpec.holds |}.
  - exact ImplSpec.holds_bound.
  - intros d s H. apply H.
  - intros d s (Hu & _ & _ & rest & Hs). cbn. unfold Impl.str.
    rewrite Hu, Hs, Nat2Z.id. f_equal. apply ImplSpec.written_some.
  - exact ImplSpec.new_string_holds.
  - exact ImplSpec.append_n_holds.
  - exact ImplSpec.append_c_holds.
  - exact ImplSpec.prepend_n_holds.
  - exact ImplSpec.truncate_holds.
Defined.
