(* ===== verification/DReal.v ===== *)
(** * Floating-point template arguments ([parse_real] of [demangle_d/parser.c])

    The C library's conversions between text and [long double] (the 80-bit format of x86),
    computed exactly over [Z], and the routine that rewrites the mangled form of a number
    into C's hexadecimal notation inside a buffer of 64 bytes. *)
From S2P Require Import Prelude CLib DString.
Local Open Scope Z_scope.

(** ** [long double] *)

Module LongDouble.

(** Sign, and either infinity or [mant * 2 ^ exp]. *)
Inductive t : Type :=
| Inf (neg : bool)
| Fin (neg : bool) (mant exp : Z).

(** [n / d] rounded to nearest, ties to even. *)
Definition div_half_even (n d : Z) : Z :=
  let q := n / d in
  let r := n mod d in
  if 2 * r <? d then q
  else if d <? 2 * r then q + 1
  else if Z.even q then q else q + 1.

(** [m * 2 ^ e] in the format: 64 significant bits, least unit [2 ^ -16445], largest
    exponent 16383. Exponents that are far out of range are decided first. *)
Definition round (neg : bool) (m e : Z) : t :=
  if m =? 0 then Fin neg 0 0 else
  let top := Z.log2 m + e in
  if 20000 <? top then Inf neg
  else if top <? -20000 then Fin neg 0 0
  else
    let unit := Z.max (top - 63) (-16445) in
    if unit <=? e then
      (if 16383 <? top then Inf neg else Fin neg m e)
    else
      let m' := div_half_even m (2 ^ (unit - e)) in
      if 16383 <? Z.log2 m' + unit then Inf neg else Fin neg m' unit.

Definition hex_digit (c : ascii) : Z :=
  if isdigit c then code c - 48
  else if (97 <=? code c) && (code c <=? 102) then code c - 87
  else code c - 55.

Definition hex_val (s : bytes) : Z := fold_left (fun v c => v * 16 + hex_digit c) s 0.

(** [strtold] of a hexadecimal numeral: the value and the text it leaves unread. *)
Definition strtold (s : bytes) : t * bytes :=
  let '(neg, s1) := match s with
                    | c :: r => if c =c "-" then (true, r) else (false, s)
                    | [] => (false, s)
                    end in
  match s1 with
  | z :: x :: r =>
      if (z =c "0") && (x =c "x") then
        let '(ip, r) := span isxdigit r in
        let '(fp, r) := match r with
                        | c :: r' => if c =c "." then span isxdigit r' else ([], r)
                        | [] => ([], r)
                        end in
        match ip ++ fp with
        | [] => (Fin neg 0 0, x :: r)
        | ds =>
            let m := hex_val ds in
            let e0 := - 4 * Z.of_nat (length fp) in
            let plain := (round neg m e0, r) in
            match r with
            | p :: r1 =>
                if (p =c "P") || (p =c "p") then
                  let '(eneg, r2) :=
                    match r1 with
                    | c :: r' => if c =c "-" then (true, r')
                                 else if c =c "+" then (false, r') else (false, r1)
                    | [] => (false, r1)
                    end in
                  let '(es, r3) := span isdigit r2 in
                  match es with
                  | [] => plain
                  | _ =>
                      let e := if (eneg : bool) then - dec_val es else dec_val es in
                      (round neg m (e + e0), r3)
                  end
                else plain
            | [] => plain
            end
        end
      else (Fin neg 0 0, s)
  | _ => (Fin neg 0 0, s)
  end.

Definition pad6 (s : bytes) : bytes := repeat "0"%char (6 - length s) ++ s.

(** [printf("%Lf")] *)
Definition print (x : t) : bytes :=
  let sign (neg : bool) := if neg then B "-" else [] in
  match x with
  | Inf neg => sign neg ++ B "inf"
  | Fin neg m e =>
      let n := if 0 <=? e then m * 2 ^ e * 1000000
               else div_half_even (m * 1000000) (2 ^ (- e)) in
      sign neg ++ dec (n / 1000000) ++ B "." ++ pad6 (dec (n mod 1000000))
  end.

End LongDouble.

(** ** [parse_real] *)

(** The text at a pointer that is about to be read. *)
Definition text (p : cptr) : res bytes :=
  match p with
  | PNull => Fail NullDeref
  | PPast => Fail OutOfBounds
  | PAt s => Ok s
  end.

(** [buffer[index++] = c] with [char buffer[64]]: the bytes written so far are
    [buffer], so that [index] is their number. *)
Definition REAL_BUFFER : nat := 64.

Definition put (buffer : bytes) (c : ascii) : res bytes :=
  if (length buffer <? REAL_BUFFER)%nat then Ok (buffer ++ [c]) else Fail BufferOverflow.

(** The first loop: hexadecimal digits, with a point after the second. *)
Fixpoint real_mantissa (source buffer : bytes) (digit_count : nat) : res (bytes * bytes) :=
  match source with
  | c :: r =>
      if isxdigit c then
        let* buffer := put buffer c in
        let* buffer := if (digit_count =? 1)%nat then put buffer "."%char else Ok buffer in
        real_mantissa r buffer (S digit_count)
      else Ok (source, buffer)
  | [] => Ok (source, buffer)
  end.

(** The second loop: the digits of the exponent. *)
Fixpoint real_exponent (source buffer : bytes) : res (bytes * bytes) :=
  match source with
  | c :: r =>
      if isxdigit c then
        let* buffer := put buffer c in real_exponent r buffer
      else Ok (source, buffer)
  | [] => Ok (source, buffer)
  end.

(** What is put in the output for the numeral in [buffer]. *)
Definition real_text (buffer : bytes) : bytes :=
  let '(result, rest) := LongDouble.strtold buffer in
  match rest with
  | [] => firstn (REAL_BUFFER - 1) (LongDouble.print result)
  | _ => buffer
  end.

Section ParseReal.
  Context {T : Type} {ops : DStringOps T}.

Definition parse_real (dest : T) (source : cptr) : res (T * cptr) :=
  let* nan := strncmp_eq source (B "NAN") 3 in
  if nan then let* dest := append dest (PAt (B "NAN")) in Ok (dest, padd source 3) else
  let* inf := strncmp_eq source (B "INF") 3 in
  if inf then let* dest := append dest (PAt (B "INF")) in Ok (dest, padd source 3) else
  let* ninf := strncmp_eq source (B "NINF") 4 in
  if ninf then let* dest := append dest (PAt (B "-INF")) in Ok (dest, padd source 4) else
  let* c := rd source 0 in
  let* s := text source in
  let* (s, buffer) :=
    if c =c "N" then let* buffer := put [] "-"%char in Ok (tl s, buffer) else Ok (s, []) in
  let* buffer := put buffer "0"%char in
  let* buffer := put buffer "x"%char in
  let* (s, buffer) := real_mantissa s buffer 0 in
  let* c := rd (PAt s) 0 in
  if c =c "P" then
    let* buffer := put buffer "P"%char in
    let s := tl s in
    let* c := rd (PAt s) 0 in
    let* (s, buffer) :=
      if c =c "N" then let* buffer := put buffer "-"%char in Ok (tl s, buffer)
      else let* buffer := put buffer "+"%char in Ok (s, buffer) in
    let* (s, buffer) := real_exponent s buffer in
    (* buffer[index] = 0 *)
    let* _ := put buffer NUL in
    let* dest := append dest (PAt (real_text buffer)) in
    Ok (dest, PAt s)
  else
    let* dest := append dest (PAt (B " @bug@[3]{")) in
    let* dest := append dest (PAt s) in
    let* dest := append_c dest (code "}") in
    Ok (dest, PNull).

End ParseReal.

(** ** Examples *)

Example real_one_and_half :
  parse_real [] (PAt (B "18P0Z")) = Ok (B "24.000000", PAt (B "Z")).
Proof. vm_compute. reflexivity. Qed.

Example real_negative :
  parse_real [] (PAt (B "N8PN3")) = Ok (B "-1.000000", PAt []).
Proof. vm_compute. reflexivity. Qed.

(** ** Facts *)

(** Reading stays within the text, so what is left is a suffix of it. *)
Lemma real_mantissa_suffix s buf n r buf' :
  real_mantissa s buf n = Ok (r, buf') -> (length r <= length s)%nat.
Proof.
  revert buf n. induction s as [|c s IH]; cbn; intros buf n H; [inv H; auto|].
  destruct (isxdigit c); [|inv H; auto].
  inv_ok. apply IH in H. lia.
Qed.

Lemma real_exponent_suffix s buf r buf' :
  real_exponent s buf = Ok (r, buf') -> (length r <= length s)%nat.
Proof.
  revert buf. induction s as [|c s IH]; cbn; intros buf H; [inv H; auto|].
  destruct (isxdigit c); [|inv H; auto].
  inv_ok. apply IH in H. lia.
Qed.
