(* ===== verification/DParser.v ===== *)
(** * The D demangler ([demangle_d/parser.c], [demangle_d/main.c])

    The parser works over any implementation of the growable strings ([DStringOps]). The
    recursion of [next_type] through [parse_function] and [interprete_template] is opened:
    each of them takes the recursive call [next] as an argument, and [next_type] ties the
    knot with a bound on the nesting depth. A [while] loop is a [Fixpoint] with its own
    bound. [DTotal] proves that the bounds chosen here are never exhausted. *)
From S2P Require Import Prelude CLib DString DReal.
Local Open Scope Z_scope.

(** [ASCI2HEX] of [config.h] *)
Definition xasci2hex (c : ascii) : Z :=
  if (97 <=? code c) && (code c <=? 102) then code c - 97 + 10
  else if (65 <=? code c) && (code c <=? 70) then code c - 65 + 10
  else if (48 <=? code c) && (code c <=? 57) then code c - 48
  else 0.

(** [xisdigit(c) && c != '0'] *)
Definition is_count (c : ascii) : bool := isdigit c && negb (c =c "0").

(** The one-letter types of the switch in [next_type]. *)
Definition basic_type (c : ascii) : option bytes :=
  match c with
  | "v"%char => Some (B "void")
  | "Z"%char => Some (B "const void")
  | "b"%char => Some (B "bool")
  | "g"%char => Some (B "byte")
  | "h"%char => Some (B "ubyte")
  | "s"%char => Some (B "short")
  | "t"%char => Some (B "ushort")
  | "i"%char => Some (B "int")
  | "k"%char => Some (B "uint")
  | "l"%char => Some (B "long")
  | "m"%char => Some (B "ulong")
  | "f"%char => Some (B "float")
  | "d"%char => Some (B "double")
  | "e"%char => Some (B "real")
  | "o"%char => Some (B "ifloat")
  | "p"%char => Some (B "idouble")
  | "j"%char => Some (B "ireal")
  | "q"%char => Some (B "cfloat")
  | "r"%char => Some (B "cdouble")
  | "c"%char => Some (B "creal")
  | "a"%char => Some (B "char")
  | "u"%char => Some (B "wchar")
  | "w"%char => Some (B "dchar")
  | _ => None
  end.

(** Letters that open a function: D, C, Windows, Pascal and C++ calling conventions. *)
Definition is_convention (c : ascii) : bool :=
  (c =c "F") || (c =c "U") || (c =c "W") || (c =c "V") || (c =c "R").

(** [_D<n>] at the pointer; the reads stop at the first mismatch. *)
Definition starts_symbol (p : cptr) : res bool :=
  let* c0 := rd p 0 in
  if negb (c0 =c "_") then Ok false else
  let* c1 := rd p 1 in
  if negb (c1 =c "D") then Ok false else
  let* c2 := rd p 2 in
  Ok (is_count c2).

(** [__T<n>] at the pointer. *)
Definition starts_template (p : cptr) : res bool :=
  let* c0 := rd p 0 in
  if negb (c0 =c "_") then Ok false else
  let* c1 := rd p 1 in
  if negb (c1 =c "_") then Ok false else
  let* c2 := rd p 2 in
  if negb (c2 =c "T") then Ok false else
  let* c3 := rd p 3 in
  Ok (is_count c3).

(** The [goto Lreevaluate] loop over the [M] prefixes. *)
Fixpoint skip_this (s : bytes) (has_this_pointer : bool) : bytes * bool :=
  match s with
  | c :: r => if c =c "M" then skip_this r true else (s, has_this_pointer)
  | [] => (s, has_this_pointer)
  end.

Section Parser.
  Context {T : Type} {ops : DStringOps T}.

(** The type of [next_type] for the recursive calls. *)
Definition parser := T -> cptr -> bool -> res (T * cptr).

(** ** Template instances *)

Fixpoint template_id (fuel : nat) (dest : T) (raw : cptr) : res (T * cptr) :=
  match fuel with
  | O => Fail OutOfFuel
  | S fuel =>
      let* c := rd raw 0 in
      if is_count c then
        let* (len, raw) := strtol raw in
        let* dest := append_n dest raw len in
        template_id fuel dest (padd raw len)
      else Ok (dest, raw)
  end.

(** The bytes of a character literal, two hexadecimal digits each. *)
Fixpoint literal_chars (fuel : nat) (dataLen : Z) (dest : T) (raw : cptr) : res (T * cptr) :=
  if dataLen =? 0 then Ok (dest, raw) else
  match fuel with
  | O => Fail OutOfFuel
  | S fuel =>
      let* c0 := rd raw 0 in
      let* c1 := if isxdigit c0 then rd raw 1 else Ok NUL in
      let* dest :=
        if isxdigit c0 && isxdigit c1
        then append_c dest (Z.shiftl (xasci2hex c0) 4 + xasci2hex c1)
        else append_c dest (code "?") in
      literal_chars fuel (dataLen - 1) dest (padd raw 2)
  end.

(** The label [integer_arg]: the digits are copied as they are. *)
Definition integer_arg (dest : T) (raw : cptr) : res (T * cptr) :=
  let* s := text raw in
  let '(ds, r) := span isdigit s in
  let* dest := append_n dest raw (Z.of_nat (length ds)) in
  Ok (dest, PAt r).

(** The label [bug]. *)
Definition template_bug (dest : T) (raw : cptr) : res T :=
  let* dest := append dest (PAt (B " @bug@[1]{")) in
  let* dest := append dest raw in
  append_c dest (code "}").

(** After the type of a value parameter: its value. [None] leaves the argument loop. *)
Definition value_arg (dest : T) (raw : cptr) : res (T * option cptr) :=
  let* dest := append_c dest (code " ") in
  let* c := rd raw 0 in
  if isdigit c then
    let* (dest, raw) := integer_arg dest raw in Ok (dest, Some raw)
  else if c =c "N" then
    let* dest := append_c dest (code "-") in
    let* (dest, raw) := integer_arg dest (pnext raw) in Ok (dest, Some raw)
  else if c =c "e" then
    let* (dest, raw) := parse_real dest (pnext raw) in Ok (dest, Some raw)
  else if c =c "c" then
    let* (dest, raw) := parse_real dest (pnext raw) in
    let* dest := append dest (PAt (B " + ")) in
    let* (dest, raw) := parse_real dest raw in
    let* dest := append_c dest (code "i") in
    Ok (dest, Some raw)
  else if c =c "n" then
    let* dest := append dest (PAt (B "null")) in Ok (dest, Some (pnext raw))
  else if (c =c "a") || (c =c "w") || (c =c "d") then
    let raw := pnext raw in
    let* c := rd raw 0 in
    if negb (isdigit c) then let* dest := template_bug dest raw in Ok (dest, None) else
    let* (dataLen, raw) := strtol raw in
    let* c := rd raw 0 in
    if negb (c =c "_") then let* dest := template_bug dest raw in Ok (dest, None) else
    let raw := pnext raw in
    let* dest := append_c dest 34 in
    let* (dest, raw) := literal_chars (S (S (plen raw))) dataLen dest raw in
    let* dest := append_c dest 34 in
    Ok (dest, Some raw)
  else
    let* dest := template_bug dest raw in Ok (dest, None).

(** [", "] between the arguments. *)
Definition separate (dest : T) (first_arg : bool) : res T :=
  if first_arg then Ok dest else append dest (PAt (B ", ")).

Fixpoint template_args (fuel : nat) (next : parser) (dest : T) (raw : cptr) (first_arg : bool)
  : res T :=
  match fuel with
  | O => Fail OutOfFuel
  | S fuel =>
      if is_null raw then Ok dest else
      let* c := rd raw 0 in
      if c =c NUL then Ok dest
      else if c =c "T" then
        let* dest := separate dest first_arg in
        let* (dest, raw) := next dest (pnext raw) true in
        template_args fuel next dest raw false
      else if c =c "V" then
        let* dest := separate dest first_arg in
        let* (dest, raw) := next dest (pnext raw) true in
        if is_null raw then Ok dest else
        let* (dest, more) := value_arg dest raw in
        match more with
        | Some raw => template_args fuel next dest raw false
        | None => Ok dest
        end
      else if c =c "Z" then Ok dest
      else if c =c "a" then
        let* dest := append dest (PAt (B "char")) in
        template_args fuel next dest (pnext raw) first_arg
      else if c =c "u" then
        let* dest := append dest (PAt (B "wchar")) in
        template_args fuel next dest (pnext raw) first_arg
      else if c =c "w" then
        let* dest := append dest (PAt (B "dchar")) in
        template_args fuel next dest (pnext raw) first_arg
      else template_bug dest raw
  end.

Definition interprete_template (next : parser) (dest : T) (raw : cptr) : res T :=
  let* (dest, raw) := template_id (S (plen raw)) dest raw in
  let* dest := append dest (PAt (B "!(")) in
  let* dest := template_args (S (plen raw)) next dest raw true in
  append_c dest (code ")").

(** ** Functions *)

(** The parameters after the first. The flag tells a variadic list, after which the
    return type follows whatever the next letter is. *)
Fixpoint fn_params (fuel : nat) (next : parser) (fn_param : T) (source : cptr)
  : res (T * cptr * bool) :=
  match fuel with
  | O => Fail OutOfFuel
  | S fuel =>
      if is_null source then Ok (fn_param, source, false) else
      let* c := rd source 0 in
      if (c =c NUL) || (c =c "Z") then Ok (fn_param, source, false)
      else if c =c "Y" then
        let* fn_param := append fn_param (PAt (B ", ...")) in Ok (fn_param, source, true)
      else if c =c "X" then
        let* fn_param := append fn_param (PAt (B " ...")) in Ok (fn_param, source, true)
      else
        let* fn_param := append fn_param (PAt (B ", ")) in
        let* (fn_param, source) := next fn_param source true in
        fn_params fuel next fn_param source
  end.

(** The output of parse_function; [name] is null, empty or the name of the function. *)
Definition fn_output (dest : T) (name : cptr) (is_nested has_this_pointer : bool)
  (fn_return fn_param : T) : res T :=
  let* named := if is_null name then Ok false
                else let* c := rd name 0 in Ok (negb (c =c NUL)) in
  let* dest :=
    if named : bool then
      if negb is_nested then
        let* dest := prepend dest (PAt (B " ")) in
        let* dest := prepend_n dest (str fn_return) (used fn_return) in
        append dest name
      else
        let* dest := append_n dest (str fn_return) (used fn_return) in
        let* dest := append_c dest (code " ") in
        append dest name
    else
      let* dest := append_n dest (str fn_return) (used fn_return) in
      append dest (PAt (if is_null name then B " delegate" else B " function")) in
  if negb (used fn_param =? 0) then
    let* dest := append_c dest (code "(") in
    let* dest := append_n dest (str fn_param) (used fn_param) in
    let* dest := if has_this_pointer then append dest (PAt (B ", this")) else Ok dest in
    append_c dest (code ")")
  else if has_this_pointer then append dest (PAt (B "(this)"))
  else append dest (PAt (B "()")).

Definition parse_function (next : parser) (dest : T) (source : cptr) (name : cptr)
  (is_nested has_this_pointer : bool) : res (T * cptr) :=
  let* fn_return := new_string in
  let* fn_param := new_string in
  let source := pnext source in
  let* c := rd source 0 in
  (* params *)
  let* (fn_param, source, var_arg_param) :=
    if c =c "Z" then Ok (fn_param, source, false)
    else if c =c "Y" then
      let* fn_param := append fn_param (PAt (B "...")) in Ok (fn_param, source, true)
    else
      let* (fn_param, source) := next fn_param source true in
      fn_params (S (plen source)) next fn_param source in
  (* return type *)
  let* has_return :=
    if var_arg_param then Ok true
    else if is_null source then Ok false
    else let* c := rd source 0 in Ok (c =c "Z") in
  let* (fn_return, source) :=
    if has_return : bool then next fn_return (pnext source) true
    else Ok (fn_return, source) in
  (* output *)
  let* dest := fn_output dest name is_nested has_this_pointer fn_return fn_param in
  Ok (dest, source).

(** ** The cases of the switch in [next_type] *)

Definition static_array (next : parser) (dest : T) (source : cptr) (is_nested : bool)
  : res (T * cptr) :=
  let start := pnext source in
  let* s := text start in
  let '(ds, r) := span isdigit s in
  let len := Z.of_nat (length ds) in
  let* dest :=
    if negb is_nested then
      let* dest := prepend dest (PAt (B "] ")) in
      let* dest := prepend_n dest start len in
      prepend dest (PAt (B "["))
    else Ok dest in
  let* (dest, source) := next dest (PAt r) is_nested in
  let* dest :=
    if is_nested then
      let* dest := append_c dest (code "[") in
      let* dest := append_n dest start len in
      append_c dest (code "]")
    else Ok dest in
  Ok (dest, source).

Definition assoc_array (next : parser) (dest : T) (source : cptr) (is_nested : bool)
  : res (T * cptr) :=
  let* aa := new_string in
  let* (aa, source) := next aa (pnext source) true in
  let* aa := prepend aa (PAt (B "[")) in
  let* aa := append_c aa (code "]") in
  let* (aa, source) := next aa source false in
  let* dest := nestpend dest (str aa) is_nested in
  Ok (dest, source).

(** Delegates ([name] is null) and pointers to functions ([name] is empty). *)
Definition fn_type (next : parser) (dest : T) (source name : cptr)
  (is_nested has_this_pointer : bool) : res (T * cptr) :=
  let* sig := new_string in
  let* (sig, source) := parse_function next sig (pnext source) name false has_this_pointer in
  let* dest := nestpend_n dest (str sig) (used sig) is_nested in
  Ok (dest, source).

Definition pointer (next : parser) (dest : T) (source : cptr)
  (is_nested has_this_pointer : bool) : res (T * cptr) :=
  let* c1 := rd source 1 in
  if is_convention c1 then fn_type next dest source (PAt []) is_nested has_this_pointer
  else
    let* dest := if negb is_nested then prepend dest (PAt (B "* ")) else Ok dest in
    let* (dest, source) := next dest (pnext source) is_nested in
    let* dest := if is_nested then append dest (PAt (B " *")) else Ok dest in
    Ok (dest, source).

Definition dynamic_array (next : parser) (dest : T) (source : cptr) (is_nested : bool)
  : res (T * cptr) :=
  let* dest := if negb is_nested then prepend dest (PAt (B "[] ")) else Ok dest in
  let* (dest, source) := next dest (pnext source) is_nested in
  let* dest := if is_nested then append dest (PAt (B "[]")) else Ok dest in
  Ok (dest, source).

(** class, struct, enum and typedef *)
Definition named_type (next : parser) (dest : T) (source : cptr) (is_nested : bool)
  : res (T * cptr) :=
  if negb is_nested then
    let* sig := new_string in
    let* (sig, source) := next sig (pnext source) false in
    let* sig := append_c sig (code " ") in
    let* dest := prepend_n dest (str sig) (used sig) in
    Ok (dest, source)
  else next dest (pnext source) true.

(** One part of a qualified name. The flag tells that the static constructor or
    destructor was found, which leaves the loop. *)
Definition name_part (next : parser) (dest : T) (source : cptr) (len : Z)
  : res (T * cptr * bool) :=
  let* is_template := if 5 <=? len then starts_template source else Ok false in
  if is_template : bool then
    let* template := strndup (padd source 3) (len - 3) in
    let* dest := interprete_template next dest (PAt template) in
    Ok (dest, padd source len, false)
  else
  let* is_ctor := if len =? 5 then strncmp_eq source (B "_ctor") 5 else Ok false in
  if is_ctor : bool then
    let* dest := append dest (PAt (B "this")) in Ok (dest, padd source len, false)
  else
  let* is_dtor := if len =? 5 then strncmp_eq source (B "_dtor") 5 else Ok false in
  if is_dtor : bool then
    let* dest := append dest (PAt (B "~this")) in Ok (dest, padd source len, false)
  else
  let* is_sctor :=
    if len =? 11 then strncmp_eq source (B "_staticCtorFZv") 14 else Ok false in
  if is_sctor : bool then
    let* dest := prepend dest (PAt (B "static void ")) in
    let* dest := append dest (PAt (B "this()")) in
    Ok (dest, padd source 14, true)
  else
  let* is_sdtor :=
    if len =? 11 then strncmp_eq source (B "_staticDtorFZv") 14 else Ok false in
  if is_sdtor : bool then
    let* dest := prepend dest (PAt (B "static void ")) in
    let* dest := append dest (PAt (B "~this()")) in
    Ok (dest, padd source 14, true)
  else
    let* dest := append_n dest source len in
    Ok (dest, padd source len, false).

Fixpoint name_parts (fuel : nat) (next : parser) (dest : T) (source : cptr)
  (first_round : bool) : res (T * cptr) :=
  match fuel with
  | O => Fail OutOfFuel
  | S fuel =>
      if is_null source then Ok (dest, source) else
      let* c := rd source 0 in
      if is_count c then
        let* (len, source) := strtol source in
        let* dest := if first_round then Ok dest else append_c dest (code ".") in
        let* (dest, source, stop) := name_part next dest source len in
        if stop : bool then Ok (dest, source)
        else name_parts fuel next dest source false
      else Ok (dest, source)
  end.

Definition qualified_name (next : parser) (dest : T) (source : cptr) (is_nested : bool)
  : res (T * cptr) :=
  let* (dest, source) := name_parts (S (plen source)) next dest source true in
  if negb is_nested then next dest source false else Ok (dest, source).

(** A function in the place of a declaration: what was parsed so far is its name. *)
Definition function_symbol (next : parser) (dest : T) (source : cptr)
  (is_nested has_this_pointer : bool) : res (T * cptr) :=
  if negb is_nested then
    let* id := new_string in
    let* id := append_n id (str dest) (used dest) in
    let* dest := truncate dest in
    parse_function next dest source (str id) false has_this_pointer
  else parse_function next dest source (PAt []) true has_this_pointer.

(** The loop [while (elements > 1)]. The number of its rounds does not depend on the length of
    the input, but on the count that stands in it. *)
Fixpoint tuple_elements (fuel : nat) (next : parser) (elements : Z) (dest element : T) (source : cptr)
  : res (Z * T * T * cptr) :=
  match fuel with
  | O => Fail OutOfFuel
  | S fuel =>
      if 1 <? elements then
        let elements := elements - 1 in
        let* element := truncate element in
        let* (element, source) := next element source true in
        let* dest := append dest (str element) in
        let* dest := append dest (PAt (B ", ")) in
        tuple_elements fuel next elements dest element source
      else Ok (elements, dest, element, source)
  end.

(** One round more than the count says, for the test that ends the loop. *)
Definition tuple_bound (elements : Z) : nat := S (Z.to_nat (elements - 1)).

Definition tuple (next : parser) (dest : T) (source : cptr) : res (T * cptr) :=
  let* dest := append dest (PAt (B "Tuple[")) in
  let* (elements, source) := strtol (pnext source) in
  let* element := new_string in
  let* (elements, dest, element, source) :=
    tuple_elements (tuple_bound elements) next elements dest element source in
  let* (dest, source) :=
    if elements =? 1 then
      let* element := truncate element in
      let* (element, source) := next element source true in
      let* dest := append dest (str element) in
      Ok (dest, source)
    else Ok (dest, source) in
  let* dest := append dest (PAt (B "]")) in
  Ok (dest, source).

(** The [default] case. *)
Definition type_bug (dest : T) (source : cptr) : res (T * cptr) :=
  let* dest := append dest (PAt (B " @bug@[2]{")) in
  let* dest := append dest source in
  let* dest := append_c dest (code "}") in
  Ok (dest, PNull).

Definition type_switch (next : parser) (dest : T) (source : cptr)
  (is_nested has_this_pointer : bool) : res (T * cptr) :=
  let* c := rd source 0 in
  match basic_type c with
  | Some name =>
      let* dest := nestpend dest (PAt name) is_nested in Ok (dest, pnext source)
  | None =>
      if c =c "x" then
        let* dest := prepend dest (PAt (B "const ")) in
        next dest (pnext source) is_nested
      else if c =c "y" then
        let* dest := prepend dest (PAt (B "invariant ")) in
        next dest (pnext source) is_nested
      else if c =c "A" then dynamic_array next dest source is_nested
      else if c =c "G" then static_array next dest source is_nested
      else if c =c "H" then assoc_array next dest source is_nested
      else if c =c "D" then fn_type next dest source PNull is_nested has_this_pointer
      else if c =c "P" then pointer next dest source is_nested has_this_pointer
      else if c =c "J" then
        let* dest := append dest (PAt (B "out ")) in next dest (pnext source) true
      else if c =c "K" then
        let* dest := append dest (PAt (B "inout ")) in next dest (pnext source) true
      else if c =c "L" then
        let* dest := append dest (PAt (B "lazy ")) in next dest (pnext source) true
      else if (c =c "C") || (c =c "S") || (c =c "E") || (c =c "T")
      then named_type next dest source is_nested
      else if is_count c then qualified_name next dest source is_nested
      else if is_convention c
      then function_symbol next dest source is_nested has_this_pointer
      else if c =c "B" then tuple next dest source
      else if c =c "." then
        let* c1 := rd source 1 in
        if is_count c1 then Ok (dest, PNull) else type_bug dest source
      else type_bug dest source
  end.

(** A whole symbol in the place of a type. *)
Definition inner_symbol (next : parser) (dest : T) (source : cptr) : res (T * cptr) :=
  let* tmp := new_string in
  let* (tmp, source) := next tmp (padd source 2) false in
  let* dest :=
    if used dest =? 0 then Ok dest
    else
      let* c := rd (str dest) (Z.to_nat (used dest)) in
      if c =c "." then Ok dest else append_c dest (code ".") in
  let* dest := append_n dest (str tmp) (used tmp) in
  Ok (dest, source).

Definition next_type_step (next : parser) (dest : T) (source : cptr) (is_nested : bool)
  : res (T * cptr) :=
  if is_null source then Ok (dest, PNull) else
  let* c := rd source 0 in
  if c =c NUL then Ok (dest, PNull) else
  let* symbol := starts_symbol source in
  if symbol : bool then inner_symbol next dest source
  else
    let* s := text source in
    let '(s, has_this_pointer) := skip_this s false in
    type_switch next dest (PAt s) is_nested has_this_pointer.

Fixpoint next_type (fuel : nat) : parser :=
  match fuel with
  | O => fun _ _ _ => Fail OutOfFuel
  | S fuel => next_type_step (next_type fuel)
  end.

(** ** Entry points *)

(** The symbols nested in the first. *)
Fixpoint nested_symbols (fuel : nat) (next : parser) (dest : T) (source : cptr) : res T :=
  match fuel with
  | O => Fail OutOfFuel
  | S fuel =>
      if is_null source then Ok dest else
      let* c := rd source 0 in
      if c =c NUL then Ok dest else
      let* nested := new_string in
      let* dest := append_c dest (code ".") in
      let* (nested, source) := next nested source false in
      let* dest := append_n dest (str nested) (used nested) in
      nested_symbols fuel next dest source
  end.

(** [demangle_d]: the demangled text, or nothing (NULL) for what is not a D symbol. *)
Definition demangle_d (source : bytes) : res (option bytes) :=
  let next := next_type (S (length source)) in
  let* symbol := starts_symbol (PAt source) in
  if symbol : bool then
    let source := padd (PAt source) 2 in
    let* dest := new_string in
    let* (dest, source) := next dest source false in
    let* dest := nested_symbols (S (plen source)) next dest source in
    let* back := strndup (str dest) (used dest + 1) in
    Ok (Some back)
  else Ok None.

(** The lines that the stand-alone program prints for its arguments. *)
Fixpoint main_lines (argv : list bytes) : res bytes :=
  match argv with
  | [] => Ok []
  | a :: argv =>
      let* demangled := demangle_d a in
      let shown := match demangled with Some t => t | None => B "(null)" end in
      let* rest := main_lines argv in
      Ok (a ++ [char_of_int 9] ++ shown ++ [char_of_int 10] ++ rest)
  end.

End Parser.

Arguments parser T : clear implicits.

(** ** The examples of the README *)

Example readme_toUTF8 :
  demangle_d (T:=bytes) (B "_D3std3utf6toUTF8FG4awZAa")
  = Ok (Some (B "char[] std.utf.toUTF8(char[4], dchar)")).
Proof. vm_compute. reflexivity. Qed.

Example readme_sformat :
  demangle_d (T:=bytes) (B "_D3std6string7sformatFAaYAa")
  = Ok (Some (B "char[] std.string.sformat(char[], ...)")).
Proof. vm_compute. reflexivity. Qed.

Example readme_sformat_heap :
  demangle_d (T:=Impl.string_t) (B "_D3std6string7sformatFAaYAa")
  = Ok (Some (B "char[] std.string.sformat(char[], ...)")).
Proof. vm_compute. reflexivity. Qed.
