(* ===== verification/DTotal.v ===== *)
(** * The D demangler terminates

    Every loop and every nested call of [demangle_d/parser.c] advances the pointer into the
    mangled text, so that the recursion bounds in [DParser] are never exhausted: on every
    input the demangler returns, or stops at a memory fault. *)
From S2P Require Import Prelude CLib DString DReal DParser.
Local Open Scope Z_scope.

(** An implementation of the strings whose operations always return or fault. *)
Class DStringTotal (T : Type) {ops : DStringOps T} := {
  new_string_sat : sat (fun _ : T => True) new_string;
  append_n_sat (d : T) p n : sat (fun _ => True) (append_n d p n);
  append_c_sat (d : T) c : sat (fun _ => True) (append_c d c);
  prepend_n_sat (d : T) p n : sat (fun _ => True) (prepend_n d p n);
  truncate_sat (d : T) : sat (fun _ => True) (truncate d);
}.

(** Closes a leaf of such a proof. *)
Ltac easy_sat := cbn; solve [exact I | congruence | lia].

Lemma load_sat p n : sat (fun _ => True) (load p n).
Proof. unfold load. destruct p; repeat break_if; easy_sat. Qed.

#[export] Instance bytes_total : DStringTotal bytes.
Proof.
  constructor; intros; cbn; try exact I;
    (eapply sat_bind; [apply load_sat|]; intros; exact I).
Qed.

#[export] Instance string_t_total : DStringTotal Impl.string_t.
Proof.
  assert (forall p off q, sat (fun _ => True) (Impl.write p off q)) as W.
  { intros. unfold Impl.write. break_if; easy_sat. }
  assert (forall d n, sat (fun _ => True) (Impl.reserve d n)) as R.
  { intros. unfold Impl.reserve, Impl.xrealloc. repeat break_if; easy_sat. }
  constructor; intros; cbn -[Impl.write Impl.reserve load];
    unfold Impl.append_n, Impl.append_c, Impl.prepend_n, Impl.truncate, Impl.poke;
    try exact I;
    repeat first [ eapply (sat_bind (fun _ => True)); [solve [apply W | apply R | apply load_sat
                                     | break_if; [exact I | apply W]]|]; intros
                 | exact I ].
Qed.

Create HintDb total.

Section Total.
  Context {T : Type} {ops : DStringOps T} {tot : DStringTotal T}.

Lemma cstr_sat p : sat (fun _ => True) (cstr p).
Proof. destruct p; easy_sat. Qed.

Lemma rd_sat p i : sat (fun _ => True) (rd p i).
Proof.
  destruct p; cbn; try congruence.
  revert i. induction s; destruct i; cbn; auto; congruence.
Qed.

Lemma append_sat (d : T) p : sat (fun _ => True) (append d p).
Proof. eapply sat_bind; [apply cstr_sat|]. intros. apply append_n_sat. Qed.

Lemma prepend_sat (d : T) p : sat (fun _ => True) (prepend d p).
Proof. eapply sat_bind; [apply cstr_sat|]. intros. apply prepend_n_sat. Qed.

Lemma nestpend_n_sat (d : T) p n b : sat (fun _ => True) (nestpend_n d p n b).
Proof.
  unfold nestpend_n. destruct b; [apply append_n_sat|].
  eapply sat_bind; [apply prepend_sat|]. intros. apply prepend_n_sat.
Qed.

Lemma nestpend_sat (d : T) p b : sat (fun _ => True) (nestpend d p b).
Proof. eapply sat_bind; [apply cstr_sat|]. intros. apply nestpend_n_sat. Qed.

(** ** How far pointers advance *)

Lemma plen_pnext p : (plen (pnext p) <= plen p - 1)%nat.
Proof. destruct p as [|[|c s]|]; cbn; lia. Qed.

Lemma plen_pnext_le p : (plen (pnext p) <= plen p)%nat.
Proof. pose proof (plen_pnext p). lia. Qed.

Lemma rd_pos p c : rd p 0 = Ok c -> c <> NUL -> (0 < plen p)%nat.
Proof. destruct p as [|[|d s]|]; cbn; intros H Hc; inv H; [congruence | lia]. Qed.

Lemma strtol_at_length s v r : strtol_at s = (v, r) -> (length r <= length s)%nat.
Proof.
  unfold strtol_at. intros H.
  pose proof (span_length isspace s) as H1.
  destruct (span isspace s) as [sp s1]. cbn in H1, H.
  destruct s1 as [|c s1].
  - cbn in H. inv H. lia.
  - destruct (c =c "-"); [|destruct (c =c "+")];
      match goal with H : context [span isdigit ?t] |- _ =>
        pose proof (span_length isdigit t) as H2; destruct (span isdigit t) as [ds r'] end;
      cbn in H2; destruct ds; inv H; cbn in *; lia.
Qed.

Lemma strtol_le p : sat (fun x => plen (snd x) <= plen p)%nat (strtol p).
Proof.
  destruct p; cbn; try congruence.
  destruct (strtol_at s) as [v r] eqn:E. cbn. eauto using strtol_at_length.
Qed.

(** On a digit, strtol advances. *)
Lemma strtol_lt p c : rd p 0 = Ok c -> isdigit c = true ->
  sat (fun x => plen (snd x) < plen p)%nat (strtol p).
Proof.
  destruct p as [|[|d s]|]; cbn; intros H Hc; inv H; [discriminate|].
  unfold strtol_at. cbn [span]. rewrite (isdigit_not_space _ Hc). cbn [snd].
  destruct (isdigit_not_sign _ Hc) as [-> ->]. cbn [span]. rewrite Hc.
  pose proof (span_length isdigit s). destruct (span isdigit s). cbn in *. lia.
Qed.

Lemma text_sat p : sat (fun s => length s = plen p) (text p).
Proof. destruct p; cbn; congruence. Qed.

Lemma strndup_sat p n : sat (fun s => length s <= plen p)%nat (strndup p n).
Proof.
  unfold strndup. destruct (cstr p) as [s|] eqn:E; cbn.
  - apply cstr_length in E. rewrite length_firstn. lia.
  - pose proof (cstr_sat p) as H. rewrite E in H. exact H.
Qed.

(** ** Automation: walk through a computation *)

Lemma sat_bind_true {A C} (P : C -> Prop) (m : res A) k :
  sat (fun _ => True) m -> (forall a, m = Ok a -> sat P (k a)) -> sat P (bind m k).
Proof. destruct m; simpl; auto. Qed.

Lemma sat_bind_eq {A C} (Q : A -> Prop) (P : C -> Prop) (m : res A) k :
  sat Q m -> (forall a, m = Ok a -> Q a -> sat P (k a)) -> sat P (bind m k).
Proof. destruct m; simpl; auto. Qed.

Hint Resolve rd_sat append_sat prepend_sat nestpend_sat nestpend_n_sat append_n_sat
  append_c_sat prepend_n_sat truncate_sat new_string_sat cstr_sat : total.

Ltac total_step :=
  match goal with
  | |- sat _ (Ok _) => apply sat_ret; cbn [fst snd] in *
  | |- sat _ (Fail _) => cbn; congruence
  | |- sat _ (if ?b then _ else _) => destruct b eqn:?
  | |- sat _ (bind (if ?b then _ else _) _) => destruct b eqn:?
  | |- sat _ (bind (Ok _) _) => cbn [bind]
  | |- sat _ (bind (bind _ _) _) => rewrite bind_assoc
  | |- sat _ (bind (strtol _) _) =>
      first [ eapply sat_bind_eq; [eapply strtol_lt; eassumption|]
            | eapply sat_bind_eq; [apply strtol_le|] ]; intros [? ?] ? ?; cbn [snd] in *
  | |- sat _ (bind (text _) _) =>
      eapply sat_bind_eq; [apply text_sat|]; intros
  | |- sat _ (bind (strndup _ _) _) =>
      eapply sat_bind_eq; [apply strndup_sat|]; intros
  | |- sat _ (bind _ _) =>
      apply sat_bind_true; [solve [auto with total]|]; intros
  | |- sat _ (let '(_, _) := ?x in _) => destruct x eqn:?
  | |- sat _ (match ?x with (_, _) => _ end) => destruct x eqn:?
  end.

(** The pointers that appear in the proof advance. *)
Ltac know H :=
  let P := type of H in
  lazymatch goal with _ : P |- _ => fail | _ => pose proof H end.

Ltac advance :=
  cbn [plen snd fst length pnext] in *;
  repeat match goal with
  | |- context [plen (pnext ?p)] => know (plen_pnext p)
  | _ : context [plen (pnext ?p)] |- _ => know (plen_pnext p)
  | |- context [plen (padd ?p ?n)] => know (plen_padd p n)
  | _ : context [plen (padd ?p ?n)] |- _ => know (plen_padd p n)
  end;
  cbn [plen snd fst length pnext] in *;
  repeat match goal with
  | H : _ = true |- _ => clear H
  | H : _ = false |- _ => clear H
  end;
  try lia.

(** ** The specification of the recursive call *)

(** A call returns with the pointer advanced, unless there was nothing to read. *)
Definition good (n : nat) (next : parser T) : Prop :=
  forall d p b, (plen p < n)%nat -> sat (fun x => plen (snd x) <= plen p - 1)%nat (next d p b).

Lemma template_id_sat fuel (d : T) p :
  (plen p < fuel)%nat -> sat (fun x => plen (snd x) <= plen p)%nat (template_id fuel d p).
Proof.
  revert d p. induction fuel as [|fuel IH]; intros d p Hp; [lia|]. cbn [template_id].
  total_step. total_step; [|total_step; lia].
  unfold is_count in *. apply andb_true_iff in Heqb as [Hd _].
  total_step. total_step.
  eapply sat_mono; [apply IH; advance|]. cbn. intros. advance.
Qed.

(** Past the end of the text the next read faults, which takes one more round. *)
Definition rounds (p : cptr) : nat := match p with PAt s => S (length s) | _ => O end.

Lemma rounds_padd2 s : (rounds (padd (PAt s) 2) <= length s)%nat.
Proof. cbn. break_if; cbn; rewrite ?length_skipn; lia. Qed.

Lemma literal_chars_sat fuel n (d : T) p :
  (rounds p < fuel)%nat -> sat (fun x => plen (snd x) <= plen p)%nat (literal_chars fuel n d p).
Proof.
  revert n d p. induction fuel as [|fuel IH]; intros n d p Hp; [lia|]. cbn [literal_chars].
  total_step; [total_step; lia|].
  destruct p as [|s|]; [cbn; congruence | | cbn; congruence].
  assert (forall d', sat (fun x => plen (snd x) <= plen (PAt s))%nat
            (literal_chars fuel (n - 1) d' (padd (PAt s) 2))) as Hnext.
  { intros d'. pose proof (rounds_padd2 s).
    eapply sat_mono; [apply IH; cbn [rounds] in *; lia|]. intros. advance. }
  repeat (total_step; try apply Hnext).
Qed.

Lemma integer_arg_sat (d : T) p :
  sat (fun x => plen (snd x) <= plen p)%nat (integer_arg d p).
Proof.
  unfold integer_arg. total_step.
  pose proof (span_length isdigit a). destruct (span isdigit a) as [ds r].
  repeat total_step. cbn in *. lia.
Qed.

Lemma put_sat b c : sat (fun _ => True) (put b c).
Proof. unfold put. break_if; easy_sat. Qed.

Lemma strncmp_eq_sat p l n : sat (fun _ => True) (strncmp_eq p l n).
Proof. destruct p; easy_sat. Qed.

Lemma real_mantissa_sat s b n :
  sat (fun x => length (fst x) <= length s)%nat (real_mantissa s b n).
Proof.
  revert b n. induction s as [|c s IH]; intros; cbn; [lia|].
  break_if; [|easy_sat].
  apply sat_bind_true; [apply put_sat|]. intros.
  apply sat_bind_true; [break_if; [apply put_sat | exact I]|]. intros.
  eapply sat_mono; [apply IH|]. cbn. lia.
Qed.

Lemma real_exponent_sat s b :
  sat (fun x => length (fst x) <= length s)%nat (real_exponent s b).
Proof.
  revert b. induction s as [|c s IH]; intros; cbn; [lia|].
  break_if; [|easy_sat].
  apply sat_bind_true; [apply put_sat|]. intros. eapply sat_mono; [apply IH|]. cbn. lia.
Qed.

Hint Resolve put_sat strncmp_eq_sat : total.

Lemma length_tl (s : bytes) : (length (tl s) <= length s)%nat.
Proof. destruct s; cbn; lia. Qed.

Lemma parse_real_sat (d : T) p :
  sat (fun x => plen (snd x) <= plen p)%nat (parse_real d p).
Proof.
  unfold parse_real.
  do 2 (total_step; try (solve [repeat total_step; advance])).
  do 2 (total_step; try (solve [repeat total_step; advance])).
  do 2 (total_step; try (solve [repeat total_step; advance])).
  total_step. total_step.
  eapply sat_bind with (Q := fun x => (length (fst x) <= plen p)%nat).
  { repeat total_step; pose proof (length_tl a3); lia. }
  intros [s b] Hs. cbn in Hs. do 2 total_step.
  eapply sat_bind; [apply real_mantissa_sat|]. intros [s' b'] Hs'. cbn in Hs'.
  total_step. total_step; [|repeat total_step; cbn; lia].
  pose proof (length_tl s').
  total_step. total_step.
  eapply sat_bind with (Q := fun x => (length (fst x) <= plen p)%nat).
  { pose proof (length_tl (tl s')). repeat total_step; lia. }
  intros [s'' b''] Hs''. cbn in Hs''.
  eapply sat_bind; [apply real_exponent_sat|]. intros [s3 b3] Hs3. cbn in Hs3.
  repeat total_step. cbn. lia.
Qed.

Lemma template_bug_sat (d : T) p : sat (fun _ => True) (template_bug d p).
Proof. unfold template_bug. repeat total_step. auto with total. Qed.

Hint Resolve template_bug_sat : total.

Definition more_len (x : T * option cptr) : nat :=
  match snd x with Some p => plen p | None => O end.

Lemma value_arg_sat (d : T) p : sat (fun x => more_len x <= plen p)%nat (value_arg d p).
Proof.
  unfold value_arg. total_step. total_step.
  total_step.
  { eapply sat_bind; [apply integer_arg_sat|]. intros [? ?] ?. repeat total_step. exact H1. }
  total_step.
  { total_step. eapply sat_bind; [apply integer_arg_sat|]. intros [? ?] ?.
    repeat total_step. unfold more_len. advance. }
  total_step.
  { eapply sat_bind; [apply parse_real_sat|]. intros [? ?] ?.
    repeat total_step. unfold more_len. advance. }
  total_step.
  { eapply sat_bind; [apply parse_real_sat|]. intros [? ?] ?. total_step.
    eapply sat_bind; [apply parse_real_sat|]. intros [? ?] ?.
    repeat total_step. unfold more_len. advance. }
  total_step; [repeat total_step; unfold more_len; advance|].
  total_step; [|repeat total_step; unfold more_len; cbn; lia].
  total_step. total_step; [repeat total_step; unfold more_len; cbn; lia|].
  do 2 total_step. total_step; [repeat total_step; unfold more_len; cbn; lia|].
  total_step. eapply sat_bind; [apply literal_chars_sat|].
  { destruct (pnext c); cbn; lia. }
  intros [? ?] ?. repeat total_step. unfold more_len. advance.
Qed.

Lemma separate_sat (d : T) b : sat (fun _ => True) (separate d b).
Proof. unfold separate. break_if; [exact I | apply append_sat]. Qed.

Hint Resolve separate_sat : total.

Section Step.
  Context (n : nat) (next : parser T) (Hnext : good n next).

Lemma next_bind {C} (P : C -> Prop) d p b (k : T * cptr -> res C) :
  (plen p < n)%nat ->
  (forall d' q, (plen q <= plen p - 1)%nat -> sat P (k (d', q))) -> sat P (bind (next d p b) k).
Proof.
  intros Hp Hk. eapply sat_bind; [apply Hnext; exact Hp|]. intros [d' q] Hq. now apply Hk.
Qed.

Lemma template_args_sat fuel d p b :
  (plen p < fuel)%nat -> (plen p <= n)%nat ->
  sat (fun _ => True) (template_args fuel next d p b).
Proof.
  revert d p b. induction fuel as [|fuel IH]; intros d p b Hf Hp; [lia|].
  cbn [template_args]. total_step; [exact I|]. total_step. total_step; [exact I|].
  assert (0 < plen p)%nat.
  { eapply rd_pos; [eassumption|]. apply Ascii.eqb_neq. assumption. }
  pose proof (plen_pnext p).
  total_step. { total_step. apply next_bind; [lia|]. intros. apply IH; lia. }
  total_step.
  { total_step. apply next_bind; [lia|]. intros. total_step; [exact I|].
    eapply sat_bind; [apply value_arg_sat|]. intros [d1 m] Hm. unfold more_len in Hm.
    cbn in Hm. destruct m; [apply IH; lia | exact I]. }
  total_step; [exact I|].
  do 3 (total_step; [total_step; apply IH; lia|]).
  auto with total.
Qed.

Lemma interprete_template_sat d p : (plen p <= n)%nat ->
  sat (fun _ => True) (interprete_template next d p).
Proof.
  intros Hp. unfold interprete_template.
  eapply sat_bind; [apply template_id_sat; lia|]. intros [d1 q] Hq. cbn in Hq.
  total_step. apply sat_bind_true; [apply template_args_sat; lia|]. intros. auto with total.
Qed.

Lemma fn_params_sat fuel d p :
  (plen p < fuel)%nat -> (plen p <= n)%nat -> (plen p < n)%nat ->
  sat (fun x => plen (snd (fst x)) <= plen p)%nat (fn_params fuel next d p).
Proof.
  revert d p. induction fuel as [|fuel IH]; intros d p Hf Hp Hn; [lia|].
  cbn [fn_params]. total_step; [total_step; cbn; lia|].
  total_step. total_step; [total_step; cbn; lia|].
  apply orb_false_iff in Heqb0 as [Hnul _].
  assert (0 < plen p)%nat by (eapply rd_pos; [eassumption|]; now apply Ascii.eqb_neq).
  do 2 (total_step; [repeat total_step; cbn; lia|]).
  total_step. apply next_bind; [lia|]. intros.
  eapply sat_mono; [apply IH; lia|]. cbn. intros. lia.
Qed.

Lemma fn_output_sat (d : T) name b1 b2 r q :
  sat (fun _ => True) (fn_output d name b1 b2 r q).
Proof.
  unfold fn_output.
  apply sat_bind_true. { repeat total_step; exact I. }
  intros. apply sat_bind_true. { repeat total_step; auto with total. }
  intros. repeat total_step; auto with total.
Qed.

Lemma parse_function_sat d p name b1 b2 : (plen p <= n)%nat -> (0 < plen p)%nat ->
  sat (fun x => plen (snd x) <= plen p - 1)%nat (parse_function next d p name b1 b2).
Proof.
  intros Hp H0. unfold parse_function. do 3 total_step. pose proof (plen_pnext p).
  eapply sat_bind with (Q := fun x => (plen (snd (fst x)) <= plen (pnext p))%nat).
  { total_step; [total_step; cbn; lia|]. total_step; [repeat total_step; cbn; lia|].
    apply next_bind; [lia|]. intros.
    eapply sat_mono; [apply fn_params_sat; lia|]. cbn. intros. lia. }
  intros [[fp q] v] Hq. cbn in Hq.
  apply sat_bind_true. { repeat total_step; exact I. }
  intros has _.
  eapply sat_bind with (Q := fun x => (plen (snd x) <= plen (pnext p))%nat).
  { total_step; [|total_step; cbn; lia].
    eapply sat_mono; [apply Hnext; advance|]. intros. advance. }
  intros [fr q'] Hq'. cbn in Hq'.
  apply sat_bind_true; [apply fn_output_sat|]. intros. total_step. cbn. lia.
Qed.

Ltac next_tac :=
  repeat first
    [ total_step
    | apply next_bind; [advance|]; intros
    | apply Hnext; advance
    | solve [auto with total] ];
  try solve [advance].

(** A switch case advances past its letter. *)
Abbreviation advances p := (sat (fun x : T * cptr => (plen (snd x) <= plen p - 1)%nat)).

Lemma static_array_sat d p b : (0 < plen p <= n)%nat -> advances p (static_array next d p b).
Proof.
  intros Hp. unfold static_array. pose proof (plen_pnext p). total_step.
  pose proof (span_length isdigit a). destruct (span isdigit a) as [ds r]. cbn in *.
  apply sat_bind_true; [repeat total_step; auto with total|]. intros.
  apply next_bind; [advance|]. intros.
  apply sat_bind_true; [repeat total_step; auto with total|]. intros. next_tac.
Qed.

Lemma assoc_array_sat d p b : (0 < plen p <= n)%nat -> advances p (assoc_array next d p b).
Proof. intros Hp. unfold assoc_array. next_tac. Qed.

Lemma fn_type_sat d p name b1 b2 :
  (0 < plen p <= n)%nat -> advances p (fn_type next d p name b1 b2).
Proof.
  intros Hp. unfold fn_type. total_step. pose proof (plen_pnext p).
  destruct (Nat.eq_dec (plen (pnext p)) 0) as [E|E].
  - unfold parse_function. do 2 total_step.
    destruct (pnext p) as [|[|c s]|]; try discriminate E; cbn;
      repeat total_step; cbn; congruence.
  - eapply sat_bind; [apply parse_function_sat; lia|]. intros [sig q] Hq. next_tac.
Qed.

Lemma pointer_sat d p b1 b2 : (0 < plen p <= n)%nat -> advances p (pointer next d p b1 b2).
Proof.
  intros Hp. unfold pointer. total_step. total_step; [now apply fn_type_sat|].
  apply sat_bind_true; [repeat total_step; auto with total|]. intros.
  apply next_bind; [advance|]. intros.
  apply sat_bind_true; [repeat total_step; auto with total|]. intros. next_tac.
Qed.

Lemma dynamic_array_sat d p b : (0 < plen p <= n)%nat -> advances p (dynamic_array next d p b).
Proof.
  intros Hp. unfold dynamic_array.
  apply sat_bind_true; [repeat total_step; auto with total|]. intros.
  apply next_bind; [advance|]. intros.
  apply sat_bind_true; [repeat total_step; auto with total|]. intros. next_tac.
Qed.

Lemma named_type_sat d p b : (0 < plen p <= n)%nat -> advances p (named_type next d p b).
Proof.
  intros Hp. unfold named_type. total_step; [next_tac|].
  eapply sat_mono; [apply Hnext; advance|]. intros. advance.
Qed.

Lemma starts_template_sat p : sat (fun _ => True) (starts_template p).
Proof. unfold starts_template. repeat total_step; exact I. Qed.

Hint Resolve starts_template_sat : total.

Lemma name_part_sat d p len : (plen p <= n)%nat ->
  sat (fun x => plen (snd (fst x)) <= plen p)%nat (name_part next d p len).
Proof.
  intros Hp. unfold name_part.
  apply sat_bind_true; [total_step; auto with total; exact I|]. intros [|] _.
  { total_step. apply sat_bind_true; [apply interprete_template_sat; advance|].
    intros. next_tac. }
  do 4 (apply sat_bind_true; [total_step; auto with total; exact I|]; intros [|] _;
    [next_tac|]).
  next_tac.
Qed.

Lemma name_parts_sat fuel d p b : (plen p < fuel)%nat -> (plen p <= n)%nat ->
  sat (fun x => plen (snd x) <= plen p)%nat (name_parts fuel next d p b).
Proof.
  revert d p b. induction fuel as [|fuel IH]; intros d p b Hf Hp; [lia|].
  cbn [name_parts]. total_step; [next_tac|]. total_step. total_step; [|next_tac].
  unfold is_count in *. apply andb_true_iff in Heqb1 as [Hd _].
  total_step. apply sat_bind_true; [total_step; auto with total; exact I|]. intros.
  eapply sat_bind; [apply name_part_sat; lia|]. intros [[d' q] stop] Hq. cbn in Hq.
  destruct stop; [next_tac|]. eapply sat_mono; [apply IH; lia|]. cbn. lia.
Qed.

(** On a count, the loop goes past it. *)
Lemma name_parts_lt fuel d p b c :
  rd p 0 = Ok c -> is_count c = true -> (plen p < fuel)%nat -> (plen p <= n)%nat ->
  advances p (name_parts fuel next d p b).
Proof.
  intros Hc Hcount Hf Hp. destruct fuel as [|fuel]; [lia|]. cbn [name_parts].
  total_step; [destruct p; discriminate|]. rewrite Hc. cbn [bind]. rewrite Hcount.
  unfold is_count in *. apply andb_true_iff in Hcount as [Hd _].
  total_step. apply sat_bind_true; [total_step; auto with total; exact I|]. intros.
  eapply sat_bind; [apply name_part_sat; lia|]. intros [[d' q] stop] Hq. cbn in Hq.
  destruct stop; [next_tac|]. eapply sat_mono; [apply name_parts_sat; lia|]. cbn. lia.
Qed.

Lemma qualified_name_sat d p b c : rd p 0 = Ok c -> is_count c = true ->
  (0 < plen p <= n)%nat -> advances p (qualified_name next d p b).
Proof.
  intros Hc Hcount Hp. unfold qualified_name.
  eapply sat_bind; [eapply name_parts_lt; try eassumption; lia|]. intros [d' q] Hq.
  cbn in Hq. total_step; [|next_tac].
  eapply sat_mono; [apply Hnext; lia|]. cbn. lia.
Qed.

Lemma function_symbol_sat d p b1 b2 : (0 < plen p <= n)%nat ->
  advances p (function_symbol next d p b1 b2).
Proof.
  intros Hp. unfold function_symbol. total_step; [|apply parse_function_sat; lia].
  do 3 total_step. apply parse_function_sat; lia.
Qed.

(** The rounds of the loop over the elements of a tuple. *)
Fixpoint tuple_rounds (k : nat) (d e : T) (p : cptr) : res (T * T * cptr) :=
  match k with
  | O => Ok (d, e, p)
  | S k =>
      let* e := truncate e in
      let* (e, p) := next e p true in
      let* d := append d (str e) in
      let* d := append d (PAt (B ", ")) in
      tuple_rounds k d e p
  end.

(** The loop runs as many rounds as there are elements but one, and ends within its bound. *)
Lemma tuple_loop elements d e p : tuple_elements (tuple_bound elements) next elements d e p =
  bind (tuple_rounds (Z.to_nat (elements - 1)) d e p) (fun '(d, e, p) => Ok (Z.min elements 1, d, e, p)).
Proof.
  unfold tuple_bound. remember (Z.to_nat (elements - 1)) as k eqn:Ek. revert elements Ek d e p.
  induction k as [|k IH]; intros elements Ek d e p; cbn [tuple_elements tuple_rounds].
  - destruct (Z.ltb_spec 1 elements); [lia|]. cbn [bind]. now replace (Z.min elements 1) with elements by lia.
  - destruct (Z.ltb_spec 1 elements); [|lia]. destruct (truncate e) as [e1|]; [|reflexivity]. cbn [bind].
    destruct (next e1 p true) as [[e2 p2]|]; [|reflexivity]. cbn [bind].
    destruct (append d (str e2)) as [d1|]; [|reflexivity]. cbn [bind].
    destruct (append d1 _) as [d2|]; [|reflexivity]. cbn [bind].
    replace (Z.min elements 1) with (Z.min (elements - 1) 1) by lia. apply IH. lia.
Qed.

Lemma tuple_unfold d p : tuple next d p =
  let* d := append d (PAt (B "Tuple[")) in
  let* (elements, p) := strtol (pnext p) in
  let* e := new_string in
  let* (d, e, p) := tuple_rounds (Z.to_nat (elements - 1)) d e p in
  let* (d, p) :=
    if 1 <=? elements then
      let* e := truncate e in
      let* (e, p) := next e p true in
      let* d := append d (str e) in
      Ok (d, p)
    else Ok (d, p) in
  let* d := append d (PAt (B "]")) in
  Ok (d, p).
Proof.
  unfold tuple. destruct (append d _) as [d1|]; [|reflexivity]. cbn [bind].
  destruct (strtol _) as [[elements q]|]; [|reflexivity]. cbn [bind]. destruct new_string as [e|]; [|reflexivity]. cbn [bind].
  rewrite tuple_loop. destruct (tuple_rounds _ d1 e q) as [[[d2 e2] q2]|]; [|reflexivity]. cbn [bind].
  replace (Z.min elements 1 =? 1) with (1 <=? elements); [reflexivity|]. lia.
Qed.

Lemma tuple_rounds_sat k d e p : (plen p < n)%nat ->
  sat (fun x => plen (snd x) <= plen p)%nat (tuple_rounds k d e p).
Proof.
  revert d e p. induction k as [|k IH]; intros d e p Hp; cbn [tuple_rounds].
  - next_tac.
  - total_step. apply next_bind; [lia|]. intros. do 2 total_step.
    eapply sat_mono; [apply IH; lia|]. cbn. lia.
Qed.

Lemma tuple_sat d p : (0 < plen p <= n)%nat -> advances p (tuple next d p).
Proof.
  intros Hp. rewrite tuple_unfold. pose proof (plen_pnext p). do 3 total_step.
  eapply sat_bind; [apply tuple_rounds_sat; lia|]. intros [[d' e] q] Hq. cbn in Hq.
  eapply sat_bind with (Q := fun x => (plen (snd x) <= plen p - 1)%nat); [next_tac|].
  intros [d'' q'] Hq'. next_tac.
Qed.

Lemma type_bug_sat d p : advances p (type_bug d p).
Proof. unfold type_bug. next_tac. Qed.

Hint Resolve static_array_sat assoc_array_sat fn_type_sat pointer_sat dynamic_array_sat
  named_type_sat qualified_name_sat function_symbol_sat tuple_sat type_bug_sat : total.

Lemma type_switch_sat d s b1 b2 : (length s <= n)%nat ->
  advances (PAt s) (type_switch next d (PAt s) b1 b2).
Proof.
  intros Hs. unfold type_switch. destruct s as [|c s].
  { cbn -[type_bug]. apply type_bug_sat. }
  assert (0 < plen (PAt (c :: s)) <= n)%nat as Hb by (cbn in *; lia).
  change (rd (PAt (c :: s)) 0) with (Ok c). cbn [bind].
  destruct (basic_type c); [next_tac|].
  do 2 (total_step; [total_step; eapply sat_mono; [apply Hnext; advance|]; intros; advance|]).
  do 5 (total_step; [auto with total; fail|]).
  do 3 (total_step; [total_step; eapply sat_mono; [apply Hnext; advance|]; intros; advance|]).
  total_step; [auto with total|].
  total_step; [eapply qualified_name_sat; [reflexivity|assumption|assumption]|].
  do 2 (total_step; [auto with total; fail|]).
  total_step; [|apply type_bug_sat].
  total_step. total_step; [total_step; apply Nat.le_0_l | apply type_bug_sat].
Qed.

Lemma skip_this_length s b : (length (fst (skip_this s b)) <= length s)%nat.
Proof.
  revert b. induction s as [|c s IH]; intros b; cbn; [lia|].
  break_if; cbn; [specialize (IH true); lia | lia].
Qed.

Lemma starts_symbol_sat p : sat (fun _ => True) (starts_symbol p).
Proof. unfold starts_symbol. repeat total_step; exact I. Qed.

Lemma inner_symbol_sat d p : (0 < plen p <= n)%nat ->
  starts_symbol p = Ok true -> advances p (inner_symbol next d p).
Proof.
  intros Hp Hs. unfold inner_symbol. total_step.
  assert (plen (padd p 2) <= plen p - 1)%nat.
  { destruct p; cbn; try lia. break_if; cbn; rewrite ?length_skipn; cbn in Hp; lia. }
  apply next_bind; [lia|]. intros.
  apply sat_bind_true; [repeat total_step; auto with total|]. intros. next_tac.
Qed.

(** One level of next_type advances if the calls below it do. *)
Lemma next_type_step_good : good (S n) (next_type_step next).
Proof.
  intros d p b Hp. unfold next_type_step. total_step; [next_tac|].
  total_step. total_step; [next_tac|].
  assert (0 < plen p)%nat by (eapply rd_pos; [eassumption|]; now apply Ascii.eqb_neq).
  apply sat_bind_true; [apply starts_symbol_sat|]. intros [|] Hsym.
  { apply inner_symbol_sat; [lia | assumption]. }
  total_step. pose proof (skip_this_length a0 false).
  destruct (skip_this a0 false) as [s this]. cbn in *.
  eapply sat_mono; [apply type_switch_sat; lia|]. cbn. lia.
Qed.

End Step.

Lemma next_type_good n : good n (next_type n).
Proof.
  induction n as [|n IH]; [intros d p b Hp; lia|]. cbn [next_type].
  now apply next_type_step_good.
Qed.

Lemma nested_symbols_sat fuel n d p : (plen p < fuel)%nat -> (plen p < n)%nat ->
  sat (fun _ => True) (nested_symbols fuel (next_type n) d p).
Proof.
  revert d p. induction fuel as [|fuel IH]; intros d p Hf Hp; [lia|].
  cbn [nested_symbols]. total_step; [exact I|]. total_step. total_step; [exact I|].
  assert (0 < plen p)%nat by (eapply rd_pos; [eassumption|]; now apply Ascii.eqb_neq).
  do 2 total_step. eapply sat_bind; [apply next_type_good; lia|]. intros [d' q] Hq.
  cbn in Hq. total_step. apply IH; lia.
Qed.

Lemma demangle_d_sat s : sat (fun _ => True) (demangle_d s).
Proof.
  unfold demangle_d. apply sat_bind_true; [apply starts_symbol_sat|].
  intros [|] _; [|exact I]. total_step. pose proof (plen_padd (PAt s) 2) as H2.
  cbn [plen] in H2.
  eapply sat_bind; [apply next_type_good; lia|]. intros [d q] Hq. cbn [snd] in Hq.
  apply sat_bind_true; [apply nested_symbols_sat; lia|]. intros.
  total_step. exact I.
Qed.

End Total.
