(* ===== verification/DRefine.v ===== *)
(** * The D demangler on the heap implements the demangler on texts

    The parser only touches its strings through [DStringOps], so that running it over the
    heap blocks of [demangle_d/string.c] gives the result of running it over plain texts,
    unless memory runs out: no heap write is out of bounds, whatever the symbol. *)
From S2P Require Import Prelude CLib DString DReal DParser DTotal.
Local Open Scope Z_scope.

Section Refine.
  Context {T : Type} {ops : DStringOps T} {spec : DStringSpec T}.

Definition small (p : cptr) : Prop := Z.of_nat (plen p) < Impl.USER_SPACE.

(** The results of the two runs: the string is represented and the pointer is the same. *)
Definition same (x : T * cptr) (y : bytes * cptr) : Prop :=
  repr (fst x) (fst y) /\ snd x = snd y /\ small (snd y).

Definition same_flag (x : T * cptr * bool) (y : bytes * cptr * bool) : Prop :=
  same (fst x) (fst y) /\ snd x = snd y.

Definition same_more (x : T * option cptr) (y : bytes * option cptr) : Prop :=
  repr (fst x) (fst y) /\ snd x = snd y
  /\ match snd y with Some p => small p | None => True end.

Definition follows (f : parser T) (g : parser bytes) : Prop :=
  forall d s p b, repr d s -> small p -> sim same (f d p b) (g s p b).

Lemma small_pnext p : small p -> small (pnext p).
Proof. unfold small. pose proof (plen_pnext_le p). lia. Qed.

Lemma small_padd p n : small p -> small (padd p n).
Proof. unfold small. pose proof (plen_padd p n). lia. Qed.

Lemma small_null : small PNull.
Proof. reflexivity. Qed.

Lemma small_repr d s : repr d s -> small (PAt s).
Proof. apply repr_bound. Qed.

Lemma small_len_ok s : small (PAt s) -> 0 <= Z.of_nat (length s) <= LONG_MAX.
Proof. unfold small, Impl.USER_SPACE, LONG_MAX. cbn. lia. Qed.

Lemma small_shorter p s : small p -> (length s <= plen p)%nat -> small (PAt s).
Proof. unfold small. cbn. lia. Qed.

Lemma small_strtol p v q : strtol p = Ok (v, q) -> small p -> small q.
Proof.
  intros H Hp. pose proof (strtol_le p) as Hl. rewrite H in Hl. cbn in Hl.
  unfold small in *. lia.
Qed.

Lemma clamp_bound v : 0 <= v -> 0 <= clamp_long v <= LONG_MAX.
Proof. unfold clamp_long, LONG_MIN, LONG_MAX. intros. repeat break_if; lia. Qed.

(** On a digit, strtol returns a count. *)
Lemma strtol_count p c v q :
  rd p 0 = Ok c -> isdigit c = true -> strtol p = Ok (v, q) -> 0 <= v <= LONG_MAX.
Proof.
  destruct p as [|[|d s]|]; cbn; intros Hc Hd H; inv Hc; [discriminate|].
  unfold strtol_at in H. cbn [span] in H. rewrite (isdigit_not_space _ Hd) in H.
  cbn [snd] in H. destruct (isdigit_not_sign _ Hd) as [E1 E2]. rewrite E1, E2 in H.
  cbn [span] in H. rewrite Hd in H.
  pose proof (span_forallb isdigit s) as Hf. destruct (span isdigit s) as [ds r].
  rewrite Z.mul_1_l in H. inv H. apply clamp_bound, dec_val_nonneg.
  cbn in *. now rewrite Hd.
Qed.

Lemma small_text p s : text p = Ok s -> small p -> small (PAt s).
Proof. destruct p; cbn; intros H; inv H. auto. Qed.

Lemma small_strndup p n s : strndup p n = Ok s -> small p -> small (PAt s).
Proof.
  intros H Hp. pose proof (strndup_sat p n) as Hs. rewrite H in Hs. cbn in Hs.
  eauto using small_shorter.
Qed.

(** Both runs do the same reads. *)
Lemma sim_same_bind {A C D} (R : C -> D -> Prop) (m : res A) h k :
  (forall a, m = Ok a -> sim R (h a) (k a)) -> sim R (bind m h) (bind m k).
Proof. destruct m; cbn; [auto | constructor]. Qed.

Create HintDb sim.
Hint Resolve append_spec prepend_spec nestpend_spec nestpend_n_spec append_n_spec
  append_c_spec prepend_n_spec truncate_spec new_string_spec : sim.
Hint Resolve small_pnext small_padd small_null small_repr small_len_ok small_strtol
  strtol_count small_text small_strndup : sim.
Hint Extern 1 (Z.of_nat (plen _) < Impl.USER_SPACE) => apply small_repr : sim.
Hint Extern 2 (Z.of_nat (plen (PAt (list_ascii_of_string _))) < Impl.USER_SPACE) =>
  reflexivity : sim.
Hint Extern 2 (small _) => assumption : sim.
Hint Extern 1 (Z.of_nat (plen _) < Impl.USER_SPACE) =>
  match goal with |- Z.of_nat (plen ?p) < _ => change (small p) end : sim.

(** What the strings of the two runs show is the same. *)
Ltac views :=
  repeat match goal with
  | H : repr ?d ?s |- context [str ?d] => rewrite (str_spec d s H)
  | H : repr ?d ?s |- context [used ?d] => rewrite (used_spec d s H)
  end;
  repeat match goal with
  | |- context [@str _ bytes_ops ?s] => change (@str _ bytes_ops s) with (PAt s)
  | |- context [@used _ bytes_ops ?s] =>
      change (@used _ bytes_ops s) with (Z.of_nat (length s))
  end.

Ltac sim_step :=
  views;
  match goal with
  | |- sim _ (Ok _) (Ok _) => apply sim_ok
  | |- sim _ (Fail _) (Fail _) => apply sim_fail
  | |- sim _ (bind (Ok _) _) (bind (Ok _) _) => cbn [bind]
  | |- sim _ (bind ?m _) (bind ?m _) => apply sim_same_bind; intros
  | |- sim _ (bind (bind _ _) _) (bind (bind _ _) _) => rewrite !bind_assoc
  | |- sim _ (if ?b then _ else _) (if ?b then _ else _) => destruct b eqn:?
  | |- sim _ (bind (if ?b then _ else _) _) (bind (if ?b then _ else _) _) => destruct b eqn:?
  | |- sim _ (let '(_, _) := ?x in _) (let '(_, _) := ?x in _) => destruct x eqn:?
  | |- sim _ (bind _ _) (bind _ _) =>
      eapply sim_bind; [solve [eauto 6 with sim]|]; intros
  | |- sim repr _ _ => solve [eauto 6 with sim]
  end.

Lemma template_id_sim fuel d s p : repr d s -> small p ->
  sim same (template_id fuel d p) (template_id fuel s p).
Proof.
  revert d s p. induction fuel as [|fuel IH]; intros d s p Hr Hp; [constructor|].
  cbn [template_id]. sim_step. sim_step; [|sim_step; repeat split; assumption].
  unfold is_count in *. apply andb_true_iff in Heqb as [Hd _].
  sim_step. destruct a0 as [v q]. sim_step. apply IH; eauto with sim.
Qed.

Lemma literal_chars_sim fuel n d s p : repr d s -> small p ->
  sim same (literal_chars fuel n d p) (literal_chars fuel n s p).
Proof.
  revert n d s p. induction fuel as [|fuel IH]; intros n d s p Hr Hp;
    cbn [literal_chars]; (destruct (n =? 0); [sim_step; repeat split; assumption|]);
    [constructor|].
  do 2 sim_step. sim_step; sim_step; apply IH; auto with sim.
Qed.

Lemma integer_arg_sim d s p : repr d s -> small p ->
  sim same (integer_arg d p) (integer_arg s p).
Proof.
  intros Hr Hp. unfold integer_arg. sim_step.
  pose proof (span_length isdigit a) as Hl.
  assert (small (PAt a)) as Ha by eauto with sim.
  destruct (span isdigit a) as [ds r]. cbn [fst snd] in Hl.
  eapply sim_bind; [apply append_n_spec; [eassumption| |assumption]|].
  { apply small_len_ok. eapply small_shorter; [exact Ha|]. cbn. lia. }
  intros. sim_step. repeat split; [assumption|]. eapply small_shorter; [exact Ha|]. cbn. lia.
Qed.

Lemma small_real_text b : (length b <= REAL_BUFFER)%nat -> small (PAt (real_text b)).
Proof.
  intros Hb. unfold real_text, small, Impl.USER_SPACE, REAL_BUFFER in *.
  destruct (LongDouble.strtold b) as [v [|c r]]; cbn [plen]; [|lia].
  rewrite length_firstn. lia.
Qed.

Lemma put_length b c b' : put b c = Ok b' -> (length b' <= REAL_BUFFER)%nat.
Proof. unfold put. break_if; intros H; inv H. rewrite length_app. cbn. lia. Qed.

Lemma put_room b c b' : put b c = Ok b' -> (length b <= REAL_BUFFER)%nat.
Proof. unfold put. break_if; intros H; inv H. lia. Qed.

(** The bytes of the scan and of the buffer stay short. *)
Lemma real_mantissa_small s b n r b' :
  real_mantissa s b n = Ok (r, b') -> small (PAt s) -> small (PAt r).
Proof.
  intros H Hs. eapply small_shorter; [exact Hs|]. eauto using real_mantissa_suffix.
Qed.

Lemma real_exponent_small s b r b' :
  real_exponent s b = Ok (r, b') -> small (PAt s) -> small (PAt r).
Proof.
  intros H Hs. eapply small_shorter; [exact Hs|]. eauto using real_exponent_suffix.
Qed.

Lemma small_tl s : small (PAt s) -> small (PAt (tl s)).
Proof. intros H. eapply small_shorter; [exact H|]. apply length_tl. Qed.

Hint Resolve real_mantissa_small real_exponent_small small_tl small_real_text put_room : sim.

Ltac done_same := repeat split; cbn [fst snd]; eauto 6 with sim.

Lemma parse_real_sim d s p : repr d s -> small p ->
  sim same (parse_real d p) (parse_real s p).
Proof.
  intros Hr Hp. unfold parse_real.
  do 3 (sim_step; sim_step; [sim_step; sim_step; done_same|]).
  sim_step. sim_step.
  assert (small (PAt a3)) as Ha3 by eauto with sim.
  apply sim_same_bind. intros [s1 b1] E1.
  assert (small (PAt s1)) as Hs1.
  { destruct (a2 =c "N"); [|now inv E1].
    inv_ok. now apply small_tl. }
  do 2 sim_step. sim_step. destruct a6 as [s2 b2].
  assert (small (PAt s2)) as Hs2 by eauto with sim.
  sim_step. sim_step.
  - sim_step. sim_step. apply sim_same_bind. intros [s3 b3] E3.
    assert (small (PAt s3)) as Hs3.
    { destruct (a8 =c "N"); inv_ok; auto using small_tl. }
    sim_step. destruct a9 as [s4 b4].
    sim_step. sim_step. sim_step. done_same.
  - do 4 sim_step. done_same.
Qed.

Lemma template_bug_sim d s p : repr d s -> small p ->
  sim repr (template_bug d p) (template_bug s p).
Proof. intros Hr Hp. unfold template_bug. repeat sim_step. Qed.

Hint Resolve template_bug_sim integer_arg_sim parse_real_sim literal_chars_sim : sim.

Ltac split_same :=
  repeat match goal with
  | H : same ?x ?y |- _ => destruct x, y; destruct H as (? & ? & ?); cbn [fst snd] in *; subst
  | H : same_flag ?x ?y |- _ =>
      destruct x as [[? ?] ?], y as [[? ?] ?]; destruct H as ((? & ? & ?) & ?);
      cbn [fst snd] in *; subst
  | H : same_more ?x ?y |- _ =>
      destruct x, y; destruct H as (? & ? & ?); cbn [fst snd] in *; subst
  end.

Lemma value_arg_sim d s p : repr d s -> small p ->
  sim same_more (value_arg d p) (value_arg s p).
Proof.
  intros Hr Hp. unfold value_arg. sim_step. sim_step.
  sim_step. { sim_step. split_same. sim_step. done_same. }
  sim_step. { sim_step. sim_step. split_same. sim_step. done_same. }
  sim_step. { sim_step. split_same. sim_step. done_same. }
  sim_step. { sim_step. split_same. sim_step. sim_step. split_same. sim_step. sim_step.
              done_same. }
  sim_step. { sim_step. sim_step. done_same. }
  sim_step; [|sim_step; sim_step; done_same].
  sim_step. sim_step; [sim_step; sim_step; done_same|].
  sim_step. destruct a2 as [v q].
  sim_step. sim_step; [sim_step; sim_step; done_same|].
  sim_step. sim_step. split_same. sim_step. sim_step. done_same.
Qed.

Lemma separate_sim d s b : repr d s -> sim repr (separate d b) (separate s b).
Proof. intros. unfold separate. destruct b; repeat sim_step. assumption. Qed.

Hint Resolve value_arg_sim separate_sim : sim.

Section Step.
  Context (f : parser T) (g : parser bytes) (Hfg : follows f g).
  Hint Resolve Hfg : sim.

Lemma template_args_sim fuel d s p b : repr d s -> small p ->
  sim repr (template_args fuel f d p b) (template_args fuel g s p b).
Proof.
  revert d s p b. induction fuel as [|fuel IH]; intros d s p b Hr Hp; [constructor|].
  cbn [template_args]. sim_step; [sim_step; assumption|]. sim_step.
  sim_step; [sim_step; assumption|].
  sim_step. { sim_step. sim_step. split_same. auto. }
  sim_step.
  { sim_step. sim_step. split_same. sim_step; [sim_step; assumption|].
    sim_step. split_same. destruct o0; [auto | sim_step; assumption]. }
  sim_step; [sim_step; assumption|].
  do 3 (sim_step; [sim_step; apply IH; auto with sim|]).
  auto with sim.
Qed.

Lemma interprete_template_sim d s p : repr d s -> small p ->
  sim repr (interprete_template f d p) (interprete_template g s p).
Proof.
  intros Hr Hp. unfold interprete_template.
  eapply sim_bind; [now apply template_id_sim|]. intros. split_same. sim_step.
  eapply sim_bind; [now apply template_args_sim|]. intros. sim_step.
Qed.

Lemma fn_params_sim fuel d s p : repr d s -> small p ->
  sim same_flag (fn_params fuel f d p) (fn_params fuel g s p).
Proof.
  revert d s p. induction fuel as [|fuel IH]; intros d s p Hr Hp; [constructor|].
  cbn [fn_params]. sim_step; [sim_step; done_same|]. sim_step.
  sim_step; [sim_step; done_same|].
  do 2 (sim_step; [sim_step; sim_step; done_same|]).
  sim_step. sim_step. split_same. auto.
Qed.

Lemma fn_output_sim d s name b1 b2 r r' q q' :
  repr d s -> repr r r' -> repr q q' -> small name ->
  sim repr (fn_output d name b1 b2 r q) (fn_output s name b1 b2 r' q').
Proof.
  intros Hd Hr Hq Hn. unfold fn_output. sim_step.
  eapply sim_bind with (R := repr).
  { destruct a; repeat sim_step.
    all: eapply append_spec; [eassumption|]; destruct (is_null name); reflexivity. }
  intros. sim_step.
  - sim_step. sim_step. sim_step; sim_step; sim_step.
  - repeat sim_step.
Qed.

Lemma parse_function_sim d s p name b1 b2 : repr d s -> small p -> small name ->
  sim same (parse_function f d p name b1 b2) (parse_function g s p name b1 b2).
Proof.
  intros Hr Hp Hn. unfold parse_function. do 3 sim_step.
  eapply sim_bind with (R := same_flag).
  { sim_step; [sim_step; done_same|]. sim_step; [sim_step; sim_step; done_same|].
    sim_step. split_same. now apply fn_params_sim. }
  intros. split_same. sim_step.
  eapply sim_bind with (R := same).
  { destruct a2; [eauto with sim | sim_step; done_same]. }
  intros. split_same.
  eapply sim_bind; [now apply fn_output_sim|]. intros. sim_step. done_same.
Qed.

Hint Resolve interprete_template_sim parse_function_sim : sim.

Lemma span_small p s (ds r : bytes) :
  span p s = (ds, r) -> small (PAt s) -> small (PAt ds) /\ small (PAt r).
Proof.
  intros H Hs. pose proof (span_length p s) as Hl. rewrite H in Hl. cbn in Hl.
  split; (eapply small_shorter; [exact Hs|]; cbn; lia).
Qed.

Lemma static_array_sim d s p b : repr d s -> small p ->
  sim same (static_array f d p b) (static_array g s p b).
Proof.
  intros Hr Hp. unfold static_array. sim_step.
  assert (small (PAt a)) as Ha by eauto with sim.
  destruct (span isdigit a) as [ds r] eqn:Es.
  destruct (span_small _ _ _ _ Es Ha) as [Hds Hrs].
  eapply sim_bind with (R := repr). { repeat sim_step. assumption. }
  intros. sim_step. split_same.
  eapply sim_bind with (R := repr). { repeat sim_step. assumption. }
  intros. sim_step. done_same.
Qed.

Lemma assoc_array_sim d s p b : repr d s -> small p ->
  sim same (assoc_array f d p b) (assoc_array g s p b).
Proof.
  intros Hr Hp. unfold assoc_array. sim_step. sim_step. split_same.
  sim_step. sim_step. sim_step. split_same. sim_step. sim_step. done_same.
Qed.

Lemma fn_type_sim d s p name b1 b2 : repr d s -> small p -> small name ->
  sim same (fn_type f d p name b1 b2) (fn_type g s p name b1 b2).
Proof.
  intros Hr Hp Hn. unfold fn_type. sim_step. sim_step. split_same.
  sim_step. sim_step. done_same.
Qed.

Lemma pointer_sim d s p b1 b2 : repr d s -> small p ->
  sim same (pointer f d p b1 b2) (pointer g s p b1 b2).
Proof.
  intros Hr Hp. unfold pointer. sim_step.
  sim_step; [apply fn_type_sim; [assumption | assumption | reflexivity]|].
  eapply sim_bind with (R := repr). { repeat sim_step. assumption. }
  intros. sim_step. split_same.
  eapply sim_bind with (R := repr). { repeat sim_step. assumption. }
  intros. sim_step. done_same.
Qed.

Lemma dynamic_array_sim d s p b : repr d s -> small p ->
  sim same (dynamic_array f d p b) (dynamic_array g s p b).
Proof.
  intros Hr Hp. unfold dynamic_array.
  eapply sim_bind with (R := repr). { repeat sim_step. assumption. }
  intros. sim_step. split_same.
  eapply sim_bind with (R := repr). { repeat sim_step. assumption. }
  intros. sim_step. done_same.
Qed.

Lemma named_type_sim d s p b : repr d s -> small p ->
  sim same (named_type f d p b) (named_type g s p b).
Proof.
  intros Hr Hp. unfold named_type. sim_step; [|eauto with sim].
  sim_step. sim_step. split_same. sim_step. sim_step. sim_step. done_same.
Qed.

Lemma name_part_sim d s p len : repr d s -> small p -> 0 <= len <= LONG_MAX ->
  sim same_flag (name_part f d p len) (name_part g s p len).
Proof.
  intros Hr Hp Hlen. unfold name_part.
  apply sim_same_bind. intros [|] _.
  { sim_step. sim_step. sim_step. done_same. }
  do 2 (apply sim_same_bind; intros [|] _; [sim_step; sim_step; done_same|]).
  do 2 (apply sim_same_bind; intros [|] _; [sim_step; sim_step; sim_step; done_same|]).
  sim_step. sim_step. done_same.
Qed.

Lemma name_parts_sim fuel d s p b : repr d s -> small p ->
  sim same (name_parts fuel f d p b) (name_parts fuel g s p b).
Proof.
  revert d s p b. induction fuel as [|fuel IH]; intros d s p b Hr Hp; [constructor|].
  cbn [name_parts]. sim_step; [sim_step; done_same|]. sim_step.
  sim_step; [|sim_step; done_same].
  unfold is_count in *. apply andb_true_iff in Heqb1 as [Hd _].
  sim_step. destruct a0 as [v q].
  eapply sim_bind with (R := repr). { repeat sim_step. assumption. }
  intros. eapply sim_bind; [eapply name_part_sim; eauto with sim|].
  intros. split_same. destruct b1; [sim_step; done_same | auto].
Qed.

Lemma qualified_name_sim d s p b : repr d s -> small p ->
  sim same (qualified_name f d p b) (qualified_name g s p b).
Proof.
  intros Hr Hp. unfold qualified_name.
  eapply sim_bind; [now apply name_parts_sim|]. intros. split_same.
  sim_step; [eauto with sim | sim_step; done_same].
Qed.

Lemma function_symbol_sim d s p b1 b2 : repr d s -> small p ->
  sim same (function_symbol f d p b1 b2) (function_symbol g s p b1 b2).
Proof.
  intros Hr Hp. unfold function_symbol.
  sim_step; [|apply parse_function_sim; [assumption | assumption | reflexivity]].
  do 3 sim_step. views. eauto with sim.
Qed.

Definition same_tuple (x : T * T * cptr) (y : bytes * bytes * cptr) : Prop :=
  repr (fst (fst x)) (fst (fst y)) /\ repr (snd (fst x)) (snd (fst y))
  /\ snd x = snd y /\ small (snd y).

Lemma tuple_rounds_sim k d s e e' p : repr d s -> repr e e' -> small p ->
  sim same_tuple (tuple_rounds f k d e p) (tuple_rounds g k s e' p).
Proof.
  revert d s e e' p. induction k as [|k IH]; intros d s e e' p Hr He Hp; cbn [tuple_rounds].
  - sim_step. done_same.
  - sim_step. sim_step. split_same. sim_step. sim_step. auto.
Qed.

Lemma tuple_sim d s p : repr d s -> small p -> sim same (tuple f d p) (tuple g s p).
Proof.
  intros Hr Hp. rewrite !tuple_unfold. sim_step. sim_step. destruct a0 as [v q].
  sim_step. eapply sim_bind; [apply tuple_rounds_sim; eauto with sim|].
  intros [[d1 e1] q1] [[s1 e1'] q1'] (H1d & H1e & Hq1 & Hq1'). cbn [fst snd] in *. subst q1.
  eapply sim_bind with (R := same).
  { sim_step; [|sim_step; done_same].
    sim_step. sim_step. split_same. sim_step. sim_step. done_same. }
  intros. split_same. sim_step. sim_step. done_same.
Qed.

Lemma type_bug_sim d s p : repr d s -> small p -> sim same (type_bug d p) (type_bug s p).
Proof. intros Hr Hp. unfold type_bug. do 4 sim_step. done_same. Qed.

Hint Resolve static_array_sim assoc_array_sim fn_type_sim pointer_sim dynamic_array_sim
  named_type_sim qualified_name_sim function_symbol_sim tuple_sim type_bug_sim : sim.

Lemma small_basic c name : basic_type c = Some name -> small (PAt name).
Proof.
  destruct c as [[|] [|] [|] [|] [|] [|] [|] [|]]; cbn; intros H; inv H; reflexivity.
Qed.

Lemma type_switch_sim d s p b1 b2 : repr d s -> small p ->
  sim same (type_switch f d p b1 b2) (type_switch g s p b1 b2).
Proof.
  intros Hr Hp. unfold type_switch. sim_step.
  destruct (basic_type a) eqn:Eb.
  { eapply sim_bind; [eapply nestpend_spec; [eassumption|]; now apply small_basic in Eb|].
    intros. sim_step. done_same. }
  do 2 (sim_step; [sim_step; eauto with sim|]).
  do 5 (sim_step; [eauto with sim; fail|]).
  do 3 (sim_step; [sim_step; eauto with sim|]).
  do 4 (sim_step; [eauto with sim; fail|]).
  sim_step; [|eauto with sim].
  sim_step. sim_step; [sim_step; done_same | eauto with sim].
Qed.

Lemma next_type_step_sim : follows (next_type_step f) (next_type_step g).
Proof.
  intros d s p b Hr Hp. unfold next_type_step. sim_step; [sim_step; done_same|].
  sim_step. sim_step; [sim_step; done_same|].
  apply sim_same_bind. intros [|] _.
  - unfold inner_symbol. sim_step. sim_step. split_same.
    eapply sim_bind with (R := repr). { repeat sim_step; assumption. }
    intros. sim_step. sim_step. done_same.
  - sim_step. pose proof (skip_this_length a0 false) as Hl.
    destruct (skip_this a0 false) as [s' this]. cbn in Hl.
    apply type_switch_sim; [assumption|].
    eapply small_shorter; [eapply small_text; eassumption|]. exact Hl.
Qed.

End Step.

Lemma next_type_sim n : follows (next_type n) (next_type n).
Proof.
  induction n as [|n IH]; [intros d s p b _ _; constructor|].
  cbn [next_type]. now apply next_type_step_sim.
Qed.

Lemma nested_symbols_sim fuel n d s p : repr d s -> small p ->
  sim repr (nested_symbols fuel (next_type n) d p) (nested_symbols fuel (next_type n) s p).
Proof.
  revert d s p. induction fuel as [|fuel IH]; intros d s p Hr Hp; [constructor|].
  cbn [nested_symbols]. sim_step; [sim_step; assumption|]. sim_step.
  sim_step; [sim_step; assumption|]. sim_step. sim_step.
  eapply sim_bind; [now apply next_type_sim|]. intros. split_same. sim_step. auto.
Qed.

Lemma demangle_d_sim s : Z.of_nat (length s) < Impl.USER_SPACE ->
  sim eq (demangle_d (T:=T) s) (demangle_d (T:=bytes) s).
Proof.
  intros Hs. assert (small (PAt s)) as Hp by exact Hs.
  unfold demangle_d. apply sim_same_bind. intros [|] _; [|now sim_step].
  sim_step. eapply sim_bind; [apply next_type_sim; auto with sim|].
  intros. split_same. eapply sim_bind; [apply nested_symbols_sim; assumption|].
  intros. sim_step. now sim_step.
Qed.

End Refine.
