(* ===== verification/DSpec.v ===== *)
(** * D symbols: abstract syntax, mangling and rendering

    The specification that the parser of [demangle_d/parser.c] is checked against: the
    declarations of the D language as trees, the letters the compiler mangles them to
    (documented case by case in the comments of [next_type], [parse_function] and
    [interprete_template]) and the text a reader expects. *)
From S2P Require Import Prelude CLib DString DReal DParser.
Local Open Scope Z_scope.

Inductive storage : Type := SIn | SOut | SInout | SLazy.

Inductive variadic : Type := VNone | VTyped | VUntyped.

(** Types, signatures, parts of qualified names and template arguments. *)
Inductive dty : Type :=
| TBasic (c : ascii)
| TConst (t : dty)
| TInvariant (t : dty)
| TDyn (t : dty)
| TSta (n : Z) (t : dty)
| TAssoc (k v : dty)
| TPtr (t : dty)
| TNamed (kind : ascii) (q : list qpart)
| TDelegate (f : dfn)
| TFunPtr (f : dfn)
| TTuple (ts : list dty)
with dfn : Type :=
| DFn (conv : ascii) (ps : list dparam) (va : variadic) (ret : dty)
with dparam : Type :=
| DParam (s : storage) (t : dty)
with qpart : Type :=
| QId (id : bytes)
| QCtor
| QDtor
| QTemplate (id : bytes) (args : list targ)
with targ : Type :=
| AType (t : dty)
| AInt (t : dty) (neg : bool) (v : Z)
| ANull (t : dty)
| AText (t : dty) (kind : ascii) (s : bytes).

(** ** Mangling *)

Definition storage_letter (s : storage) : bytes :=
  match s with SIn => [] | SOut => B "J" | SInout => B "K" | SLazy => B "L" end.

Definition end_letter (va : variadic) : ascii :=
  match va with VNone => "Z" | VTyped => "X" | VUntyped => "Y" end%char.

(** A length and that many bytes. *)
Definition counted (s : bytes) : bytes := dec (Z.of_nat (length s)) ++ s.

Definition hex_char (n : Z) : ascii :=
  if n <? 10 then char_of_int (48 + n) else char_of_int (97 + (n - 10)).

Definition hex2 (c : ascii) : bytes := [hex_char (code c / 16); hex_char (code c mod 16)].

Fixpoint mangle (t : dty) : bytes :=
  match t with
  | TBasic c => [c]
  | TConst t => B "x" ++ mangle t
  | TInvariant t => B "y" ++ mangle t
  | TDyn t => B "A" ++ mangle t
  | TSta n t => B "G" ++ dec n ++ mangle t
  | TAssoc k v => B "H" ++ mangle k ++ mangle v
  | TPtr t => B "P" ++ mangle t
  | TNamed kind q => kind :: flat_map mangle_part q
  | TDelegate f => B "D" ++ mangle_fn f
  | TFunPtr f => B "P" ++ mangle_fn f
  | TTuple ts => B "B" ++ dec (Z.of_nat (length ts)) ++ flat_map mangle ts
  end
with mangle_fn (f : dfn) : bytes :=
  match f with
  | DFn conv ps va ret =>
      conv :: flat_map mangle_param ps ++ end_letter va :: mangle ret
  end
with mangle_param (p : dparam) : bytes :=
  match p with DParam s t => storage_letter s ++ mangle t end
with mangle_part (q : qpart) : bytes :=
  match q with
  | QId id => counted id
  | QCtor => counted (B "_ctor")
  | QDtor => counted (B "_dtor")
  | QTemplate id args => counted (B "__T" ++ counted id ++ flat_map mangle_arg args ++ B "Z")
  end
with mangle_arg (a : targ) : bytes :=
  match a with
  | AType t => B "T" ++ mangle t
  | AInt t neg v => B "V" ++ mangle t ++ (if neg : bool then B "N" else []) ++ dec v
  | ANull t => B "V" ++ mangle t ++ B "n"
  | AText t kind s =>
      B "V" ++ mangle t ++ kind :: dec (Z.of_nat (length s)) ++ B "_" ++ flat_map hex2 s
  end.

(** ** Rendering *)

(** The items with a separator between them. *)
Fixpoint join (sep : bytes) (l : list bytes) : bytes :=
  match l with
  | [] => []
  | [x] => x
  | x :: l => x ++ sep ++ join sep l
  end.

Definition basic_name (c : ascii) : bytes :=
  match basic_type c with Some n => n | None => [] end.

Definition storage_word (s : storage) : bytes :=
  match s with SIn => [] | SOut => B "out " | SInout => B "inout " | SLazy => B "lazy " end.

(** The text of a parameter list, from the texts of the parameters. *)
Definition params_text (ps : list bytes) (va : variadic) : bytes :=
  match va, ps with
  | VNone, _ => join (B ", ") ps
  | VUntyped, [] => B "..."
  | VUntyped, _ => join (B ", ") ps ++ B ", ..."
  | VTyped, _ => join (B ", ") ps ++ B " ..."
  end.

Definition arg_list (this : bool) (ps : bytes) : bytes :=
  match ps with
  | [] => if this then B "(this)" else B "()"
  | _ => B "(" ++ ps ++ (if this then B ", this" else []) ++ B ")"
  end.

(** [show] is the text of a type by itself; [wrap t d] is the declaration of something that
    is written [d] so far and has type [t]. *)
Fixpoint show (t : dty) : bytes :=
  match t with
  | TBasic c => basic_name c
  | TConst t | TInvariant t => show t
  | TDyn t => show t ++ B "[]"
  | TSta n t => show t ++ B "[" ++ dec n ++ B "]"
  | TAssoc k v => wrap v (B "[" ++ show k ++ B "]")
  | TPtr t => show t ++ B " *"
  | TNamed _ q => join (B ".") (map show_part q)
  | TDelegate f => show_fn (B " delegate") f
  | TFunPtr f => show_fn (B " function") f
  | TTuple ts => B "Tuple[" ++ join (B ", ") (map show ts) ++ B "]"
  end
with wrap (t : dty) (d : bytes) : bytes :=
  match t with
  | TBasic c => basic_name c ++ B " " ++ d
  | TConst t => wrap t (B "const " ++ d)
  | TInvariant t => wrap t (B "invariant " ++ d)
  | TDyn t => wrap t (B "[] " ++ d)
  | TSta n t => wrap t (B "[" ++ dec n ++ B "] " ++ d)
  | TAssoc k v => wrap v (B "[" ++ show k ++ B "]") ++ B " " ++ d
  | TPtr t => wrap t (B "* " ++ d)
  | TNamed _ q => join (B ".") (map show_part q) ++ B " " ++ d
  | TDelegate f => show_fn (B " delegate") f ++ B " " ++ d
  | TFunPtr f => show_fn (B " function") f ++ B " " ++ d
  | TTuple ts => B "Tuple[" ++ join (B ", ") (map show ts) ++ B "] " ++ d
  end
with show_fn (word : bytes) (f : dfn) : bytes :=
  match f with
  | DFn _ ps va ret => show ret ++ word ++ arg_list false (params_text (map show_param ps) va)
  end
with show_param (p : dparam) : bytes :=
  match p with DParam s t => storage_word s ++ show t end
with show_part (q : qpart) : bytes :=
  match q with
  | QId id => id
  | QCtor => B "this"
  | QDtor => B "~this"
  | QTemplate id args => id ++ B "!(" ++ join (B ", ") (map show_arg args) ++ B ")"
  end
with show_arg (a : targ) : bytes :=
  match a with
  | AType t => show t
  | AInt t neg v => show t ++ B " " ++ (if neg : bool then B "-" else []) ++ dec v
  | ANull t => show t ++ B " null"
  | AText t _ s => show t ++ [" "%char; char_of_int 34] ++ s ++ [char_of_int 34]
  end.

(** ** Well-formed trees *)

(** The mangled form ends in digits or in a name, which a digit after it would continue. *)
Fixpoint open_ended (t : dty) : bool :=
  match t with
  | TBasic _ => false
  | TConst t | TInvariant t | TDyn t | TSta _ t | TPtr t => open_ended t
  | TAssoc _ v => open_ended v
  | TNamed _ _ => true
  | TDelegate f | TFunPtr f => open_ended_fn f
  | TTuple ts =>
      (fix last (ts : list dty) : bool :=
         match ts with
         | [] => true
         | [t] => open_ended t
         | _ :: ts => last ts
         end) ts
  end
with open_ended_fn (f : dfn) : bool :=
  match f with DFn _ _ _ ret => open_ended ret end.

Definition starts_template_id (id : bytes) : bool :=
  match id with
  | a :: b :: c :: d :: _ :: _ => (a =c "_") && (b =c "_") && (c =c "T") && is_count d
  | _ => false
  end.

Definition bytes_eqb (a b : bytes) : bool := if list_eq_dec ascii_dec a b then true else false.

(** Plain identifiers: what the parser treats specially is excluded. *)
Definition wf_id (id : bytes) : bool :=
  match id with
  | c :: _ => negb (isdigit c)
  | [] => false
  end
  && no_nul id
  && (Z.of_nat (length id) <=? LONG_MAX)
  && negb (starts_template_id id)
  && negb (bytes_eqb id (B "_ctor") || bytes_eqb id (B "_dtor")
           || bytes_eqb id (B "_staticCtor") || bytes_eqb id (B "_staticDtor")).

Definition wf_basic (c : ascii) : bool :=
  match basic_type c with Some _ => negb (c =c "Z") | None => false end.

Definition is_kind (c : ascii) : bool := (c =c "C") || (c =c "S") || (c =c "E") || (c =c "T").

Definition wf_variadic (ps : list dparam) (va : variadic) : bool :=
  match va, ps with VTyped, [] => false | _, _ => true end.

Definition wf_count (n : Z) : bool := (0 <=? n) && (n <=? LONG_MAX).

(** [wf] holds of the types that stand in a nested position, [wfd] of those that stand
    around a declared name. A qualifier is only mangled in front of a declared name; a named
    type only where nothing follows it (see [decl] below). *)
Fixpoint wf (t : dty) : bool :=
  match t with
  | TBasic c => wf_basic c
  | TConst _ | TInvariant _ => false
  | TDyn t | TPtr t => wf t
  | TSta n t => wf_count n && wf t
  | TAssoc k v => wf k && wfd v
  | TNamed kind q =>
      is_kind kind && match q with [] => false | _ => true end && forallb wf_part q
  | TDelegate f | TFunPtr f => wf_fn f
  | TTuple ts => (Z.of_nat (length ts) <=? LONG_MAX) && forallb wf ts
  end
with wfd (t : dty) : bool :=
  match t with
  | TBasic c => wf_basic c
  | TConst t | TInvariant t | TDyn t | TPtr t => wfd t
  | TSta n t => wf_count n && wfd t
  | TAssoc k v => wf k && wfd v
  | TNamed _ _ | TTuple _ => false
  | TDelegate f | TFunPtr f => wf_fn f
  end
with wf_fn (f : dfn) : bool :=
  match f with
  | DFn conv ps va ret =>
      is_convention conv && wf_variadic ps va && forallb wf_param ps && wf ret
  end
with wf_param (p : dparam) : bool := match p with DParam _ t => wf t end
with wf_part (q : qpart) : bool :=
  match q with
  | QId id => wf_id id
  | QCtor | QDtor => true
  | QTemplate id args =>
      wf_id id && forallb wf_arg args
      && (Z.of_nat (length (B "__T" ++ counted id ++ flat_map mangle_arg args ++ B "Z"))
          <=? LONG_MAX)
  end
with wf_arg (a : targ) : bool :=
  match a with
  | AType t => wf t
  | AInt t neg v => wf t && (neg || negb (open_ended t)) && wf_count v
  | ANull t => wf t
  | AText t kind s =>
      wf t && ((kind =c "a") || (kind =c "w") || (kind =c "d")) && no_nul s
      && (Z.of_nat (length s) <=? LONG_MAX)
  end.

(** ** Symbols *)

(** What a qualified name declares. *)
Inductive decl : Type :=
| DNothing
| DVar (t : dty)
| DObject (kind : ascii) (q : list qpart)
| DFunc (this : bool) (f : dfn)
| DStatic (ctor : bool).

Record symbol : Type := mk_symbol { path : list qpart; what : decl }.

Definition mangle_decl (d : decl) : bytes :=
  match d with
  | DNothing => []
  | DVar t => mangle t
  | DObject kind q => kind :: flat_map mangle_part q
  | DFunc this f => (if this then B "M" else []) ++ mangle_fn f
  | DStatic ctor => B "11" ++ (if ctor then B "_staticCtorFZv" else B "_staticDtorFZv")
  end.

Definition mangle_symbol (s : symbol) : bytes :=
  flat_map mangle_part (path s) ++ mangle_decl (what s).

Definition show_path (q : list qpart) : bytes := join (B ".") (map show_part q).

Definition show_symbol (s : symbol) : bytes :=
  let name := show_path (path s) in
  match what s with
  | DNothing => name
  | DVar t => wrap t name
  | DObject _ q => show_path q ++ B " " ++ name
  | DFunc this (DFn _ ps va ret) =>
      show ret ++ B " " ++ name ++ arg_list this (params_text (map show_param ps) va)
  | DStatic ctor =>
      B "static void " ++ name ++ B "." ++ (if ctor then B "this()" else B "~this()")
  end.

Definition wf_path (q : list qpart) : bool :=
  match q with [] => false | _ => true end && forallb wf_part q.

Definition wf_decl (d : decl) : bool :=
  match d with
  | DNothing | DStatic _ => true
  | DVar t => wfd t
  | DObject kind q => is_kind kind && wf_path q
  | DFunc _ f => wf_fn f
  end.

Definition wf_symbol (s : symbol) : bool := wf_path (path s) && wf_decl (what s).

(** A symbol that another one can follow, nested in it. *)
Definition encloses (s : symbol) : bool :=
  match what s with
  | DVar t => negb (open_ended t)
  | DFunc _ f => negb (open_ended_fn f)
  | _ => false
  end.

(** A mangled name: the symbols, from the outermost to the innermost. *)
Definition mangle_name (outer : list symbol) (s : symbol) : bytes :=
  B "_D" ++ flat_map mangle_symbol outer ++ mangle_symbol s.

Definition show_name (outer : list symbol) (s : symbol) : bytes :=
  join (B ".") (map show_symbol outer ++ [show_symbol s]).

Definition wf_name (outer : list symbol) (s : symbol) : bool :=
  forallb (fun o => wf_symbol o && encloses o) outer && wf_symbol s.

(** ** Examples *)

(** [std.utf.toUTF8(char[4], dchar)] returning [char[]]. *)
Definition toUTF8 : symbol :=
  mk_symbol [QId (B "std"); QId (B "utf"); QId (B "toUTF8")]
    (DFunc false (DFn "F" [DParam SIn (TSta 4 (TBasic "a")); DParam SIn (TBasic "w")]
                      VNone (TDyn (TBasic "a")))).

Example toUTF8_mangled : mangle_name [] toUTF8 = B "_D3std3utf6toUTF8FG4awZAa".
Proof. reflexivity. Qed.

Example toUTF8_shown : show_name [] toUTF8 = B "char[] std.utf.toUTF8(char[4], dchar)".
Proof. reflexivity. Qed.

(** A method of a class in a template, with a nested function. *)
Definition nested_example : list symbol * symbol :=
  ([mk_symbol [QId (B "m"); QTemplate (B "Map") [AType (TBasic "i"); AInt (TBasic "k") false 42;
                                                 AText (TDyn (TBasic "a")) "a" (B "hi")];
               QId (B "get")]
      (DFunc true (DFn "F" [DParam SOut (TAssoc (TBasic "i") (TDyn (TBasic "d")));
                            DParam SIn (TNamed "C" [QId (B "m"); QId (B "Key")])]
                       VUntyped (TBasic "v")))],
   mk_symbol [QId (B "inner")] (DVar (TPtr (TBasic "i")))).

Example nested_example_ok :
  wf_name (fst nested_example) (snd nested_example) = true
  /\ demangle_d (T:=bytes) (mangle_name (fst nested_example) (snd nested_example))
     = Ok (Some (show_name (fst nested_example) (snd nested_example))).
Proof. vm_compute. split; reflexivity. Qed.
