(* ===== verification/DText.v ===== *)
(** * Texts of D symbols: induction principle and facts about the strings

    The induction principle of the mutually recursive syntax of [DSpec], the behaviour of
    the string operations on texts, and the absence of NUL bytes from mangled and rendered
    forms. *)
From S2P Require Import Prelude CLib DString DReal DParser DTotal DSpec.
Local Open Scope Z_scope.

(** ** Induction over the syntax *)

Section Induction.
  Variables (P : dty -> Prop) (Pf : dfn -> Prop) (Pp : dparam -> Prop)
            (Pq : qpart -> Prop) (Pa : targ -> Prop).
  Hypotheses
    (Hbasic : forall c, P (TBasic c))
    (Hconst : forall t, P t -> P (TConst t))
    (Hinv : forall t, P t -> P (TInvariant t))
    (Hdyn : forall t, P t -> P (TDyn t))
    (Hsta : forall n t, P t -> P (TSta n t))
    (Hassoc : forall k v, P k -> P v -> P (TAssoc k v))
    (Hptr : forall t, P t -> P (TPtr t))
    (Hnamed : forall kind q, Forall Pq q -> P (TNamed kind q))
    (Hdeleg : forall f, Pf f -> P (TDelegate f))
    (Hfunptr : forall f, Pf f -> P (TFunPtr f))
    (Htuple : forall ts, Forall P ts -> P (TTuple ts))
    (Hfn : forall conv ps va ret, Forall Pp ps -> P ret -> Pf (DFn conv ps va ret))
    (Hparam : forall s t, P t -> Pp (DParam s t))
    (Hid : forall id, Pq (QId id))
    (Hctor : Pq QCtor)
    (Hdtor : Pq QDtor)
    (Htemplate : forall id args, Forall Pa args -> Pq (QTemplate id args))
    (Htype : forall t, P t -> Pa (AType t))
    (Hint : forall t neg v, P t -> Pa (AInt t neg v))
    (Hnull : forall t, P t -> Pa (ANull t))
    (Htext : forall t kind s, P t -> Pa (AText t kind s)).

Definition all_of {A} (Q : A -> Prop) (f : forall a, Q a) : forall l, Forall Q l :=
  fix go l := match l with
              | [] => Forall_nil Q
              | a :: l => Forall_cons a (f a) (go l)
              end.

Fixpoint dty_induct (t : dty) : P t :=
  match t with
  | TBasic c => Hbasic c
  | TConst t => Hconst t (dty_induct t)
  | TInvariant t => Hinv t (dty_induct t)
  | TDyn t => Hdyn t (dty_induct t)
  | TSta n t => Hsta n t (dty_induct t)
  | TAssoc k v => Hassoc k v (dty_induct k) (dty_induct v)
  | TPtr t => Hptr t (dty_induct t)
  | TNamed kind q => Hnamed kind q (all_of Pq part_induct q)
  | TDelegate f => Hdeleg f (fn_induct f)
  | TFunPtr f => Hfunptr f (fn_induct f)
  | TTuple ts => Htuple ts (all_of P dty_induct ts)
  end
with fn_induct (f : dfn) : Pf f :=
  match f with
  | DFn conv ps va ret => Hfn conv ps va ret (all_of Pp param_induct ps) (dty_induct ret)
  end
with param_induct (p : dparam) : Pp p :=
  match p with DParam s t => Hparam s t (dty_induct t) end
with part_induct (q : qpart) : Pq q :=
  match q with
  | QId id => Hid id
  | QCtor => Hctor
  | QDtor => Hdtor
  | QTemplate id args => Htemplate id args (all_of Pa arg_induct args)
  end
with arg_induct (a : targ) : Pa a :=
  match a with
  | AType t => Htype t (dty_induct t)
  | AInt t neg v => Hint t neg v (dty_induct t)
  | ANull t => Hnull t (dty_induct t)
  | AText t kind s => Htext t kind s (dty_induct t)
  end.

Lemma syntax_ind : (forall t, P t) /\ (forall f, Pf f) /\ (forall p, Pp p)
  /\ (forall q, Pq q) /\ (forall a, Pa a).
Proof.
  repeat split; [apply dty_induct | apply fn_induct | apply param_induct
                | apply part_induct | apply arg_induct].
Qed.

End Induction.

(** ** Texts as strings *)

Lemma append_text d s : no_nul s = true -> append (T:=bytes) d (PAt s) = Ok (d ++ s).
Proof.
  intros H. unfold append. cbn [cstr bind]. rewrite cstr_of_no_nul by assumption.
  cbn [append_n bytes_ops]. rewrite load_all. reflexivity.
Qed.

Lemma prepend_text d s : no_nul s = true -> prepend (T:=bytes) d (PAt s) = Ok (s ++ d).
Proof.
  intros H. unfold prepend. cbn [cstr bind]. rewrite cstr_of_no_nul by assumption.
  cbn [prepend_n bytes_ops]. rewrite load_all. reflexivity.
Qed.

Definition placed (s : bytes) (nested : bool) (d : bytes) : bytes :=
  if nested then d ++ s else s ++ B " " ++ d.

Lemma nestpend_n_text d s b :
  nestpend_n (T:=bytes) d (PAt s) (Z.of_nat (length s)) b = Ok (placed s b d).
Proof.
  unfold nestpend_n. destruct b.
  - cbn [append_n bytes_ops]. now rewrite load_all.
  - rewrite prepend_text by reflexivity. cbn [bind prepend_n bytes_ops].
    now rewrite load_all.
Qed.

Lemma nestpend_text d s b : no_nul s = true ->
  nestpend (T:=bytes) d (PAt s) b = Ok (placed s b d).
Proof.
  intros H. unfold nestpend. cbn [cstr bind]. rewrite cstr_of_no_nul by assumption.
  apply nestpend_n_text.
Qed.

Lemma append_n_text d s : append_n (T:=bytes) d (PAt s) (Z.of_nat (length s)) = Ok (d ++ s).
Proof. cbn [append_n bytes_ops]. now rewrite load_all. Qed.

Lemma append_n_prefix d s r :
  append_n (T:=bytes) d (PAt (s ++ r)) (Z.of_nat (length s)) = Ok (d ++ s).
Proof. cbn [append_n bytes_ops]. now rewrite load_app. Qed.

Lemma prepend_n_text d s : prepend_n (T:=bytes) d (PAt s) (Z.of_nat (length s)) = Ok (s ++ d).
Proof. cbn [prepend_n bytes_ops]. now rewrite load_all. Qed.

Lemma prepend_n_prefix d s r :
  prepend_n (T:=bytes) d (PAt (s ++ r)) (Z.of_nat (length s)) = Ok (s ++ d).
Proof. cbn [prepend_n bytes_ops]. now rewrite load_app. Qed.

Lemma char_of_code c : char_of_int (code c) = c.
Proof.
  unfold char_of_int, code. pose proof (N_ascii_bounded c).
  rewrite Z.mod_small by lia. rewrite N2Z.id. apply ascii_N_embedding.
Qed.

Lemma append_char d n : append_c (T:=bytes) d n = Ok (d ++ [char_of_int n]).
Proof. reflexivity. Qed.

Lemma join_cons sep x l : join sep (x :: l) = x ++ flat_map (fun y => sep ++ y) l.
Proof.
  revert x. induction l as [|y l IH]; intros x.
  - cbn. now rewrite app_nil_r.
  - change (join sep (x :: y :: l)) with (x ++ sep ++ join sep (y :: l)).
    rewrite IH. cbn [flat_map]. now rewrite <- app_assoc.
Qed.

Create Rewrite HintDb text.
#[export] Hint Rewrite append_n_text append_n_prefix prepend_n_text prepend_n_prefix
  nestpend_n_text append_char : text.
#[export] Hint Rewrite append_text prepend_text nestpend_text
  using solve [reflexivity | assumption] : text.

(** What follows a text does not continue its last number or name. *)
Definition no_digit (r : bytes) : Prop :=
  match r with c :: _ => isdigit c = false | [] => True end.

Lemma no_digit_count r c : no_digit r -> rd (PAt r) 0 = Ok c -> is_count c = false.
Proof.
  unfold is_count. destruct r; cbn; intros H E; inv E; [reflexivity|]. now rewrite H.
Qed.

(** ** Numbers and identifiers *)

Lemma dec_count n : 0 < n -> exists c s, dec n = c :: s /\ is_count c = true.
Proof.
  intros Hn. destruct (dec_cons n ltac:(lia)) as (c & s & E & Hd & H0).
  exists c, s. split; [assumption|]. unfold is_count. now rewrite Hd, H0.
Qed.

Lemma strtol_counted n s r c s' :
  0 <= n <= LONG_MAX -> s = c :: s' -> isdigit c = false ->
  strtol (PAt (dec n ++ s ++ r)) = Ok (n, PAt (s ++ r)).
Proof. intros Hn -> Hc. apply strtol_dec; [assumption|]. exact Hc. Qed.

Lemma strndup_prefix s r : no_nul s = true ->
  strndup (PAt (s ++ r)) (Z.of_nat (length s)) = Ok s.
Proof.
  intros H. unfold strndup. cbn [cstr bind]. f_equal.
  assert (exists r', cstr_of (s ++ r) = s ++ r') as (r' & ->).
  { unfold cstr_of, no_nul in *. induction s as [|c s IH]; cbn in *; [eauto|].
    apply andb_true_iff in H as [-> H]. destruct (IH H) as (r' & E).
    destruct (span _ (s ++ r)). cbn in *. subst. eauto. }
  rewrite length_app, Z.min_l, Nat2Z.id by lia.
  rewrite firstn_app, firstn_all, Nat.sub_diag. cbn. apply app_nil_r.
Qed.

(** The copy of the whole text that [demangle_d] returns. *)
Lemma strndup_all s : no_nul s = true -> strndup (str s) (used s + 1) = Ok s.
Proof.
  intros H. cbn [str used bytes_ops]. unfold strndup. cbn [cstr bind].
  rewrite cstr_of_no_nul by assumption.
  now rewrite Z.min_r, Nat2Z.id, firstn_all by lia.
Qed.

Lemma no_nul_cons c s : no_nul (c :: s) = negb (c =c NUL) && no_nul s.
Proof. reflexivity. Qed.

Lemma isdigit_no_nul s : forallb isdigit s = true -> no_nul s = true.
Proof.
  unfold no_nul. induction s as [|c s IH]; cbn; [auto|]. intros H.
  apply andb_true_iff in H as [Hc H]. rewrite IH by assumption.
  destruct (c =c NUL) eqn:E; [|reflexivity]. apply Ascii.eqb_eq in E. subst. discriminate.
Qed.

Lemma no_nul_dec n : 0 <= n -> no_nul (dec n) = true.
Proof. intros. now apply isdigit_no_nul, dec_digits. Qed.

Lemma no_nul_counted s : no_nul s = true -> no_nul (counted s) = true.
Proof. intros. unfold counted. now rewrite no_nul_app, no_nul_dec, H by lia. Qed.

(** ** No NUL in mangled or rendered text *)

Lemma basic_facts c n : basic_type c = Some n ->
  (c =c NUL) = false /\ (c =c "_") = false /\ (c =c "M") = false /\ no_nul n = true
  /\ isdigit c = false.
Proof.
  destruct c as [[|] [|] [|] [|] [|] [|] [|] [|]]; cbn; intros H; inv H;
    repeat split; reflexivity.
Qed.

Lemma no_nul_join sep l :
  no_nul sep = true -> Forall (fun s => no_nul s = true) l -> no_nul (join sep l) = true.
Proof.
  intros Hs H. destruct H as [|x l Hx Hl]; [reflexivity|]. rewrite join_cons, no_nul_app, Hx.
  cbn. induction Hl as [|y l Hy Hl IH]; cbn; [reflexivity|].
  now rewrite !no_nul_app, Hs, Hy, IH.
Qed.

Lemma no_nul_flat {A} (f : A -> bytes) l :
  Forall (fun a => no_nul (f a) = true) l -> no_nul (flat_map f l) = true.
Proof. induction 1; cbn; [reflexivity|]. now rewrite no_nul_app, H, IHForall. Qed.

Lemma no_nul_arg_list b s : no_nul s = true -> no_nul (arg_list b s) = true.
Proof.
  intros H. unfold arg_list. destruct s as [|c s]; [now destruct b|].
  rewrite !no_nul_app, H. now destruct b.
Qed.

Lemma no_nul_params l va :
  Forall (fun s => no_nul s = true) l -> no_nul (params_text l va) = true.
Proof.
  intros H. pose proof (no_nul_join (B ", ") l eq_refl H).
  destruct va, l; cbn [params_text]; rewrite ?no_nul_app, ?H0; reflexivity.
Qed.

(** A boolean conjunction in a hypothesis. *)
Ltac bools :=
  repeat match goal with
  | H : _ && _ = true |- _ => apply andb_true_iff in H; destruct H
  | H : true = true |- _ => clear H
  | H : negb _ = true |- _ => apply negb_true_iff in H
  end.

(** From the facts about all elements and their well-formedness, the facts that hold. *)
Lemma Forall_wf {A} (w : A -> bool) (Q : A -> Prop) l :
  Forall (fun a => w a = true -> Q a) l -> forallb w l = true -> Forall Q l.
Proof.
  induction 1; cbn; intros H1; [constructor|]. bools. constructor; auto.
Qed.

Lemma Forall_map_show {A} (f : A -> bytes) l :
  Forall (fun a => no_nul (f a) = true) l -> Forall (fun s => no_nul s = true) (map f l).
Proof. induction 1; cbn; constructor; auto. Qed.

Lemma wf_id_no_nul id : wf_id id = true -> no_nul id = true.
Proof. unfold wf_id. intros. bools. assumption. Qed.

Lemma basic_name_no_nul c : wf_basic c = true -> no_nul (basic_name c) = true.
Proof.
  unfold wf_basic, basic_name. destruct (basic_type c) eqn:E; [|discriminate].
  intros _. now apply basic_facts in E.
Qed.

Lemma basic_no_nul c : wf_basic c = true -> no_nul [c] = true.
Proof.
  unfold wf_basic. destruct (basic_type c) eqn:E; [|discriminate].
  intros _. apply basic_facts in E as (H & _). cbn. now rewrite H.
Qed.

Lemma kind_cases (Q : ascii -> Prop) :
  Q "C"%char -> Q "S"%char -> Q "E"%char -> Q "T"%char -> forall c, is_kind c = true -> Q c.
Proof.
  intros. unfold is_kind in *.
  repeat match goal with
  | H : _ || _ = true |- _ => apply orb_true_iff in H; destruct H
  | H : (c =c _) = true |- _ => apply Ascii.eqb_eq in H; subst; assumption
  end.
Qed.

Lemma conv_cases (Q : ascii -> Prop) :
  Q "F"%char -> Q "U"%char -> Q "W"%char -> Q "V"%char -> Q "R"%char ->
  forall c, is_convention c = true -> Q c.
Proof.
  intros. unfold is_convention in *.
  repeat match goal with
  | H : _ || _ = true |- _ => apply orb_true_iff in H; destruct H
  | H : (c =c _) = true |- _ => apply Ascii.eqb_eq in H; subst; assumption
  end.
Qed.

Ltac no_nul_tac :=
  rewrite ?no_nul_app, ?no_nul_cons;
  repeat match goal with
  | H : no_nul _ = true |- _ => rewrite H; clear H
  | H : _ -> no_nul ?s = true |- context [no_nul ?s] => rewrite H by (assumption || lia)
  end;
  try reflexivity.

Lemma show_no_nul :
  (forall t, (wf t = true -> no_nul (show t) = true)
             /\ (wfd t = true -> forall d, no_nul d = true -> no_nul (wrap t d) = true))
  /\ (forall f, wf_fn f = true -> forall w, no_nul w = true -> no_nul (show_fn w f) = true)
  /\ (forall p, wf_param p = true -> no_nul (show_param p) = true)
  /\ (forall q, wf_part q = true -> no_nul (show_part q) = true)
  /\ (forall a, wf_arg a = true -> no_nul (show_arg a) = true).
Proof.
  apply syntax_ind; cbn [wf wfd wf_fn wf_param wf_part wf_arg
                         show wrap show_fn show_param show_part show_arg]; intros;
    repeat match goal with H : _ /\ _ |- _ => destruct H end;
    try (split; intros; bools; try discriminate); intros; bools;
    unfold wf_count in *; bools;
    rewrite ?no_nul_app;
    repeat match goal with
    | H : _ -> no_nul (show _) = true |- _ => specialize (H ltac:(assumption))
    | H : wfd ?v = true -> forall d, _ -> no_nul (wrap ?v d) = true |- _ =>
        specialize (H ltac:(assumption))
    | H : wf_fn ?v = true -> forall d, _ -> no_nul (show_fn d ?v) = true |- _ =>
        specialize (H ltac:(assumption))
    end.
  all: try (apply basic_name_no_nul; assumption).
  all: try match goal with
    H : forall d, _ -> no_nul (wrap ?v d) = true |- context [no_nul (wrap ?v _)] =>
      rewrite H end.
  all: rewrite ?no_nul_app.
  all: repeat match goal with H : no_nul _ = true |- _ => rewrite H; clear H end.
  all: rewrite ?no_nul_dec by lia; try reflexivity; auto.
  all: try (rewrite basic_name_no_nul by assumption; reflexivity).
  all: try (match goal with H : forall w, _ -> no_nul (show_fn w ?f) = true |- _ =>
              rewrite H by reflexivity end; rewrite ?no_nul_app;
            repeat match goal with H : no_nul _ = true |- _ => rewrite H end; reflexivity).
  all: try (apply no_nul_join; [reflexivity|]; apply Forall_map_show;
            eapply Forall_wf; eassumption).
  - rewrite (no_nul_join (B ", ") (map show ts)); [reflexivity | reflexivity|].
    apply Forall_map_show. eapply Forall_wf; [|eassumption].
    eapply Forall_impl; [|eassumption]. intros t Ht. apply Ht.
  - apply no_nul_arg_list, no_nul_params, Forall_map_show. eapply Forall_wf; eassumption.
  - now destruct s.
  - now apply wf_id_no_nul.
  - rewrite (wf_id_no_nul id), (no_nul_join (B ", ")); try assumption; try reflexivity.
    apply Forall_map_show. eapply Forall_wf; eassumption.
  - now destruct neg.
Qed.

Lemma hex_char_no_nul n : 0 <= n < 16 -> (hex_char n =c NUL) = false.
Proof.
  intros H. apply negb_true_iff.
  exact (all_below 16 (fun n => negb (hex_char n =c NUL)) n eq_refl H).
Qed.

Lemma code_bound c : 0 <= code c < 256.
Proof. unfold code. pose proof (N_ascii_bounded c). lia. Qed.

Lemma no_nul_hex s : no_nul (flat_map hex2 s) = true.
Proof.
  apply no_nul_flat. apply Forall_forall. intros c _. cbn.
  pose proof (code_bound c).
  rewrite !hex_char_no_nul; [reflexivity | |]; lia.
Qed.

Lemma mangle_no_nul :
  (forall t, wf t = true \/ wfd t = true -> no_nul (mangle t) = true)
  /\ (forall f, wf_fn f = true -> no_nul (mangle_fn f) = true)
  /\ (forall p, wf_param p = true -> no_nul (mangle_param p) = true)
  /\ (forall q, wf_part q = true -> no_nul (mangle_part q) = true)
  /\ (forall a, wf_arg a = true -> no_nul (mangle_arg a) = true).
Proof.
  apply syntax_ind; cbn [wf wfd wf_fn wf_param wf_part wf_arg
                         mangle mangle_fn mangle_param mangle_part mangle_arg]; intros;
    repeat match goal with H : _ \/ _ |- _ => destruct H end; try discriminate;
    unfold wf_count in *; bools;
    repeat match goal with
    | H : _ \/ _ -> no_nul (mangle _) = true |- _ => specialize (H ltac:(auto))
    | H : wf_fn _ = true -> no_nul (mangle_fn _) = true |- _ => specialize (H ltac:(auto))
    end;
    rewrite ?no_nul_app, ?no_nul_cons, ?no_nul_app, ?no_nul_cons;
    repeat match goal with H : no_nul _ = true |- _ => rewrite H; clear H end;
    rewrite ?no_nul_dec by lia; try reflexivity;
    try (apply basic_no_nul; assumption).
  - rewrite no_nul_flat by (eapply Forall_wf; eassumption).
    revert kind H0. apply kind_cases; reflexivity.
  - rewrite no_nul_flat; [reflexivity|]. eapply Forall_wf; [|eassumption].
    eapply Forall_impl; [|eassumption]. auto.
  - rewrite no_nul_flat by (eapply Forall_wf; eassumption). destruct va;
    revert conv H1; apply conv_cases; reflexivity.
  - now destruct s.
  - now apply no_nul_counted, wf_id_no_nul.
  - apply no_nul_counted. rewrite !no_nul_app, no_nul_counted by now apply wf_id_no_nul.
    rewrite no_nul_flat by (eapply Forall_wf; eassumption). reflexivity.
  - now destruct neg.
  - rewrite no_nul_hex. apply orb_true_iff in H3 as [H3|H3];
      [apply orb_true_iff in H3 as [H3|H3]|]; apply Ascii.eqb_eq in H3; subst; reflexivity.
Qed.
