(* ===== verification/DInverse.v ===== *)
(** * The D demangler inverts mangling

    For every well-formed tree of [DSpec], the parser run over texts turns its mangled form
    into its rendered form and consumes exactly that form. *)
From S2P Require Import Prelude CLib DString DReal DParser DTotal DSpec DText.
Local Open Scope Z_scope.

#[local] Arguments dec : simpl never.
#[local] Arguments Z.of_nat : simpl never.
#[local] Arguments Z.to_nat : simpl never.
#[local] Arguments append : simpl never.
#[local] Arguments prepend : simpl never.
#[local] Arguments nestpend : simpl never.
#[local] Arguments nestpend_n : simpl never.
#[local] Arguments append_n : simpl never.
#[local] Arguments append_c : simpl never.
#[local] Arguments prepend_n : simpl never.
#[local] Arguments next_type : simpl never.
#[local] Arguments integer_arg : simpl never.
#[local] Arguments value_arg : simpl never.

(** ** First letters *)

(** What a type or a parameter starts with: nothing that the callers of [next_type] or its
    prologue look for. *)
Definition plain (c : ascii) : bool :=
  negb (c =c NUL) && negb (c =c "_") && negb (c =c "M") && negb (isdigit c)
  && negb (is_convention c) && negb (c =c "Z") && negb (c =c "X") && negb (c =c "Y").

Definition plain_head (s : bytes) : Prop := exists c r, s = c :: r /\ plain c = true.

Lemma basic_plain c : wf_basic c = true -> plain c = true.
Proof.
  destruct c as [[|] [|] [|] [|] [|] [|] [|] [|]]; cbn; intros H;
    first [reflexivity | discriminate H].
Qed.

Lemma kind_plain c : is_kind c = true -> plain c = true.
Proof. revert c. apply kind_cases; reflexivity. Qed.

Lemma plain_mangle t : wf t = true \/ wfd t = true -> plain_head (mangle t).
Proof.
  intros H. destruct t; cbn [mangle wf wfd] in *;
    try (do 2 eexists; split; [reflexivity|]; reflexivity);
    do 2 eexists; (split; [reflexivity|]); destruct H; bools; try discriminate;
    auto using basic_plain, kind_plain.
Qed.

Lemma plain_param p : wf_param p = true -> plain_head (mangle_param p).
Proof.
  destruct p as [s t]. cbn. intros H.
  destruct s; try (do 2 eexists; split; [reflexivity|]; reflexivity).
  apply plain_mangle. auto.
Qed.

Lemma plain_no_digit s r : plain_head s -> no_digit (s ++ r).
Proof.
  intros (c & s' & -> & H). unfold plain in H. bools. cbn. assumption.
Qed.

Lemma plain_facts c : plain c = true ->
  (c =c NUL) = false /\ (c =c "Z") = false /\ (c =c "X") = false /\ (c =c "Y") = false.
Proof. unfold plain. intros H. bools. auto. Qed.

(** The prologue of [next_type] passes a plain letter on to the switch. *)
Lemma step_plain (next : parser bytes) d c s b : plain c = true ->
  next_type_step next d (PAt (c :: s)) b = type_switch next d (PAt (c :: s)) b false.
Proof.
  intros H. unfold plain in H. bools.
  unfold next_type_step, starts_symbol. cbn [is_null rd rd_at bind].
  repeat match goal with E : (c =c _) = false |- _ => rewrite E; clear E end.
  cbn [negb bind text skip_this].
  destruct (c =c "M") eqn:E; [congruence|]. reflexivity.
Qed.

(** ** Numbers in the input *)

Lemma span_digits n r : 0 <= n -> no_digit r -> span isdigit (dec n ++ r) = (dec n, r).
Proof. intros Hn Hr. apply span_all; [now apply dec_digits | exact Hr]. Qed.

Lemma strtol_head n r : 0 <= n <= LONG_MAX -> no_digit r ->
  strtol (PAt (dec n ++ r)) = Ok (n, PAt r).
Proof. intros. now apply strtol_dec. Qed.

Lemma dec_not_nil n : 0 <= n -> (0 < length (dec n))%nat.
Proof. intros H. destruct (dec_cons n H) as (c & s & -> & _). cbn. lia. Qed.

(** A read of the first letter of a count. *)
Lemma rd_count n r : 0 < n -> exists c, rd (PAt (dec n ++ r)) 0 = Ok c /\ is_count c = true.
Proof. intros H. destruct (dec_count n H) as (c & s & -> & Hc). cbn. eauto. Qed.

Lemma id_no_digit id r : wf_id id = true -> no_digit (id ++ r).
Proof. unfold wf_id. destruct id; cbn; intros; bools; [discriminate | assumption]. Qed.

Lemma wf_id_length id : wf_id id = true -> 0 < Z.of_nat (length id) <= LONG_MAX.
Proof.
  unfold wf_id. destruct id as [|c id]; [discriminate|]. intros H. bools.
  match goal with H : (_ <=? LONG_MAX) = true |- _ => apply Z.leb_le in H end.
  cbn [length] in *. lia.
Qed.

(** ** The shape of the induction *)

(** [next_type] with enough fuel for [len] bytes. *)
Definition parses (len : nat) (s : bytes) (closed : bytes -> Prop) (b : bool)
  (out : bytes -> bytes) : Prop :=
  forall n d rest, closed rest -> (len <= n)%nat ->
  next_type (T:=bytes) n d (PAt (s ++ rest)) b = Ok (out d, PAt rest).

Definition closing (t : dty) (rest : bytes) : Prop := open_ended t = true -> no_digit rest.

Definition good_type (t : dty) : Prop :=
  (wf t = true ->
     parses (length (mangle t)) (mangle t) (closing t) true (fun d => d ++ show t))
  /\ (wfd t = true ->
     parses (length (mangle t)) (mangle t) (closing t) false (fun d => wrap t d)).

Definition fn_text (f : dfn) : bytes :=
  match f with DFn _ ps va _ => params_text (map show_param ps) va end.

Definition fn_ret (f : dfn) : dty := match f with DFn _ _ _ ret => ret end.

Definition good_fn (f : dfn) : Prop :=
  wf_fn f = true ->
  forall n d name this rest, closing (fn_ret f) rest ->
  (length (mangle_fn f) <= S n)%nat ->
  parse_function (next_type (T:=bytes) n) d (PAt (mangle_fn f ++ rest)) name false this
  = let* out := fn_output d name false this (show (fn_ret f)) (fn_text f) in
    Ok (out, PAt rest).

Definition good_param (p : dparam) : Prop :=
  wf_param p = true ->
  parses (length (mangle_param p)) (mangle_param p) no_digit true
         (fun d => d ++ show_param p).

Definition part_body (q : qpart) : bytes :=
  match q with
  | QId id => id
  | QCtor => B "_ctor"
  | QDtor => B "_dtor"
  | QTemplate id args => B "__T" ++ counted id ++ flat_map mangle_arg args ++ B "Z"
  end.

Lemma mangle_part_body q : mangle_part q = counted (part_body q).
Proof. destruct q; reflexivity. Qed.

Definition good_part (q : qpart) : Prop :=
  wf_part q = true ->
  forall n d rest, (length (part_body q) <= S n)%nat ->
  name_part (next_type (T:=bytes) n) d (PAt (part_body q ++ rest))
            (Z.of_nat (length (part_body q)))
  = Ok (d ++ show_part q, PAt rest, false).

Definition sep (first : bool) : bytes := if first then [] else B ", ".

Definition good_arg (a : targ) : Prop :=
  wf_arg a = true ->
  forall n fuel d first rest, no_digit rest -> (length (mangle_arg a) <= S n)%nat ->
  template_args (T:=bytes) (S fuel) (next_type n) d (PAt (mangle_arg a ++ rest)) first
  = template_args fuel (next_type n) (d ++ sep first ++ show_arg a) (PAt rest) false.

(** Bounds on lengths. *)
Ltac size :=
  unfold counted in *;
  cbn [mangle mangle_fn mangle_param mangle_arg part_body app length
       list_ascii_of_string flat_map] in *;
  repeat first [rewrite length_app in * | progress cbn [app length] in *]; lia.

(** Unfolds one call of [next_type] on a text that starts with a plain letter. *)
Ltac enter n :=
  destruct n as [|n]; [exfalso; size|]; 
  change (next_type (T:=bytes) (S n)) with (next_type_step (next_type (T:=bytes) n));
  cbn [app list_ascii_of_string];
  rewrite step_plain by (reflexivity || assumption).

(** Runs the string operations on texts. *)
Ltac texts :=
  repeat (progress (autorewrite with text; cbn [bind]));
  rewrite <- ?app_assoc; try reflexivity.

Ltac switch := unfold type_switch; cbn [rd rd_at bind basic_type]; cbn [Ascii.eqb Bool.eqb].

Lemma good_basic c : good_type (TBasic c).
Proof.
  split; cbn [wf wfd mangle]; intros H n d rest _ Hn;
    pose proof (basic_plain c H); enter n.
  all: unfold type_switch; cbn [rd rd_at bind]; unfold wf_basic in H;
    destruct (basic_type c) as [s|] eqn:E; [|discriminate];
    assert (basic_name c = s) as Hs by (unfold basic_name; now rewrite E);
    apply basic_facts in E as (_ & _ & _ & Hz & _);
    autorewrite with text; cbn [bind placed pnext show wrap]; now rewrite Hs.
Qed.

Lemma good_const t : good_type t -> good_type (TConst t).
Proof.
  intros [_ IH]. split; cbn [wf wfd]; [discriminate|]. intros H n d rest Hr Hn.
  cbn [mangle length app] in *. enter n. switch.
  autorewrite with text. cbn. rewrite IH; auto. size.
Qed.

Lemma good_invariant t : good_type t -> good_type (TInvariant t).
Proof.
  intros [_ IH]. split; cbn [wf wfd]; [discriminate|]. intros H n d rest Hr Hn.
  cbn [mangle length app] in *. enter n. switch.
  autorewrite with text. cbn. rewrite IH; auto. size.
Qed.

Lemma good_dyn t : good_type t -> good_type (TDyn t).
Proof.
  intros [IH1 IH2]. split; cbn [wf wfd]; intros H n d rest Hr Hn; cbn [mangle app] in *; enter n;
    switch; unfold dynamic_array; cbn.
  - rewrite IH1 by (assumption || size). texts.
  - texts. rewrite IH2 by (assumption || size). reflexivity.
Qed.

Lemma good_sta k t : good_type t -> good_type (TSta k t).
Proof.
  intros [IH1 IH2]. split; cbn [wf wfd]; intros H n d rest Hr Hn; cbn [mangle app] in *; enter n;
    unfold wf_count in H; bools;
    switch; unfold static_array; cbn; rewrite <- app_assoc, span_digits
      by (try apply plain_no_digit, plain_mangle; auto; lia).
  - rewrite IH1 by (assumption || size). texts.
  - texts. rewrite IH2 by (assumption || size). reflexivity.
Qed.

Lemma good_assoc k v : good_type k -> good_type v -> good_type (TAssoc k v).
Proof.
  intros [IHk _] [_ IHv].
  split; cbn [wf wfd]; intros H n d rest Hr Hn; cbn [mangle app] in *; enter n; bools;
    switch; unfold assoc_array; cbn; rewrite <- app_assoc, IHk
      by (try intro; try apply plain_no_digit, plain_mangle; auto; size);
    texts; cbn [bind]; rewrite (IHv ltac:(assumption)) by (assumption || size); cbn [bind].
  all: assert (no_nul (wrap v (B "[" ++ show k ++ B "]")) = true)
    by (apply show_no_nul; [|rewrite !no_nul_app, (proj1 (proj1 show_no_nul k))]; auto).
  all: cbn in *; texts.
Qed.

Lemma good_ptr t : good_type t -> good_type (TPtr t).
Proof.
  intros [IH1 IH2]. split; cbn [wf wfd]; intros H n d rest Hr Hn; cbn [mangle app] in *;
    enter n; destruct (plain_mangle t) as (c & s & E & Hc); auto;
    switch; unfold pointer; rewrite E in *; cbn [app rd rd_at bind];
    replace (is_convention c) with false by (unfold plain in Hc; bools; congruence); cbn.
  - change (c :: s ++ rest) with ((c :: s) ++ rest).
    rewrite IH1 by (assumption || size). texts.
  - change (c :: s ++ rest) with ((c :: s) ++ rest).
    texts. rewrite IH2 by (assumption || size). reflexivity.
Qed.

(** ** Parts of qualified names *)

Lemma starts_template_plain id rest : (5 <= length id)%nat -> starts_template_id id = false ->
  starts_template (PAt (id ++ rest)) = Ok false.
Proof.
  intros Hl H. do 5 (destruct id as [|? id]; [cbn in Hl; lia|]).
  unfold starts_template_id, starts_template in *. cbn [app rd rd_at bind].
  repeat (destruct (_ =c _); cbn [andb negb bind] in *; [|reflexivity]). now rewrite H.
Qed.

Lemma strncmp_diff s lit tail rest :
  length s = length lit -> s <> lit -> no_nul lit = true ->
  strncmp_at (s ++ rest) (lit ++ tail) (length (lit ++ tail)) = false.
Proof.
  revert lit. induction s as [|c s IH]; intros [|e lit] Hl Hne Hz; try discriminate;
    [congruence|]. cbn [app length strncmp_at].
  destruct (Ascii.eqb_spec c e) as [->|]; [|reflexivity].
  rewrite no_nul_cons in Hz. bools. rewrite H. apply IH; [now inv Hl | congruence | assumption].
Qed.

Lemma bytes_eqb_false a b : bytes_eqb a b = false -> a <> b.
Proof. unfold bytes_eqb. destruct (list_eq_dec _ _ _); congruence. Qed.

(** A comparison of an identifier with a special name fails. *)
Lemma special_diff lit tail id rest full k n :
  bytes_eqb id lit = false -> no_nul lit = true ->
  full = lit ++ tail -> n = length full -> k = Z.of_nat (length lit) ->
  (if Z.of_nat (length id) =? k then strncmp_eq (PAt (id ++ rest)) full n else Ok false)
  = Ok false.
Proof.
  intros H Hz -> -> ->.
  destruct (Z.eqb_spec (Z.of_nat (length id)) (Z.of_nat (length lit))); [|reflexivity].
  unfold strncmp_eq. rewrite strncmp_diff; [reflexivity | lia | now apply bytes_eqb_false|].
  assumption.
Qed.

Lemma good_id id : good_part (QId id).
Proof.
  intros H n d rest _. cbn [part_body wf_part show_part] in *. unfold wf_id in H. bools.
  repeat match goal with H : _ || _ = false |- _ => apply orb_false_iff in H as [H ?] end.
  unfold name_part.
  replace (if 5 <=? _ then _ else _) with (Ok false : res bool).
  2:{ destruct (Z.leb_spec 5 (Z.of_nat (length id))); [|reflexivity].
      rewrite starts_template_plain; auto. lia. }
  cbn [bind].
  rewrite (special_diff (B "_ctor") []) by auto. cbn [bind].
  rewrite (special_diff (B "_dtor") []) by auto. cbn [bind].
  rewrite (special_diff (B "_staticCtor") (B "FZv")) by auto. cbn [bind].
  rewrite (special_diff (B "_staticDtor") (B "FZv")) by auto. cbn [bind].
  texts. now rewrite padd_app.
Qed.

Lemma good_ctor : good_part QCtor.
Proof.
  intros _ n d rest _. rewrite <- (padd_app (B "_ctor") rest).
  transitivity (let* d := append d (PAt (B "this")) in
                Ok (d, padd (PAt (B "_ctor" ++ rest)) 5, false)); [destruct rest; reflexivity|].
  texts.
Qed.

Lemma good_dtor : good_part QDtor.
Proof.
  intros _ n d rest _. rewrite <- (padd_app (B "_dtor") rest).
  transitivity (let* d := append d (PAt (B "~this")) in
                Ok (d, padd (PAt (B "_dtor" ++ rest)) 5, false)); [destruct rest; reflexivity|].
  texts.
Qed.

(** ** Template arguments *)

Lemma hex_char_digit n : 0 <= n < 16 ->
  isxdigit (hex_char n) = true /\ xasci2hex (hex_char n) = n.
Proof.
  intros H. pose proof (all_below 16
    (fun n => isxdigit (hex_char n) && (xasci2hex (hex_char n) =? n)) n eq_refl H) as E.
  cbv beta in E. apply andb_true_iff in E as [-> E]. split; [reflexivity | lia].
Qed.

Lemma literal_chars_hex s : forall fuel d rest, (length s <= fuel)%nat ->
  literal_chars (T:=bytes) fuel (Z.of_nat (length s)) d (PAt (flat_map hex2 s ++ rest))
  = Ok (d ++ s, PAt rest).
Proof.
  induction s as [|c s IH]; intros fuel d rest Hf.
  - destruct fuel; cbn; now rewrite app_nil_r.
  - destruct fuel as [|fuel]; [cbn in Hf; lia|]. cbn [literal_chars flat_map hex2 app].
    destruct (Z.eqb_spec (Z.of_nat (length (c :: s))) 0) as [E|_]; [cbn [length] in E; lia|].
    pose proof (code_bound c).
    destruct (hex_char_digit (code c / 16)) as [H1 H2]; [lia|].
    destruct (hex_char_digit (code c mod 16)) as [H3 H4]; [lia|].
    cbn [rd rd_at bind]. rewrite H1. cbn [bind]. rewrite H3, H2, H4.
    autorewrite with text. cbn [andb bind].
    rewrite Z.shiftl_mul_pow2 by lia.
    replace (code c / 16 * 2 ^ 4 + code c mod 16) with (code c)
      by (change (2 ^ 4) with 16; lia).
    rewrite char_of_code.
    change (padd _ 2) with (padd (PAt ([hex_char (code c / 16); hex_char (code c mod 16)]
      ++ flat_map hex2 s ++ rest)) (Z.of_nat 2)).
    rewrite (padd_app [hex_char (code c / 16); hex_char (code c mod 16)]).
    replace (Z.of_nat (length (c :: s)) - 1) with (Z.of_nat (length s)) by (cbn [length]; lia).
    rewrite IH by (cbn in Hf; lia). now rewrite <- app_assoc.
Qed.

Lemma separate_text d first : separate (T:=bytes) d first = Ok (d ++ sep first).
Proof. destruct first; cbn; [now rewrite app_nil_r | texts]. Qed.
#[local] Hint Rewrite separate_text : text.

Lemma integer_arg_dec d v rest : 0 <= v -> no_digit rest ->
  integer_arg (T:=bytes) d (PAt (dec v ++ rest)) = Ok (d ++ dec v, PAt rest).
Proof.
  intros Hv Hr. unfold integer_arg. cbn [text bind]. rewrite span_digits by assumption. texts.
Qed.

Lemma value_int d neg v rest : 0 <= v -> no_digit rest ->
  value_arg (T:=bytes) d (PAt ((if neg : bool then B "N" else []) ++ dec v ++ rest))
  = Ok (d ++ B " " ++ (if neg then B "-" else []) ++ dec v, Some (PAt rest)).
Proof.
  intros Hv Hr. unfold value_arg. destruct neg; cbn [app list_ascii_of_string].
  - texts. cbn. texts. rewrite integer_arg_dec by assumption. cbn. texts.
  - destruct (dec_cons v Hv) as (c & s & E & Hc & _).
    texts. rewrite E at 1. cbn [app rd rd_at bind]. rewrite Hc, integer_arg_dec by assumption.
    cbn. texts.
Qed.

Lemma value_null d rest :
  value_arg (T:=bytes) d (PAt (B "n" ++ rest)) = Ok (d ++ B " null", Some (PAt rest)).
Proof. unfold value_arg. texts. Qed.

Lemma value_text d kind s rest :
  (kind =c "a") || (kind =c "w") || (kind =c "d") = true ->
  Z.of_nat (length s) <= LONG_MAX ->
  value_arg (T:=bytes) d
    (PAt (kind :: dec (Z.of_nat (length s)) ++ B "_" ++ flat_map hex2 s ++ rest))
  = Ok (d ++ [" "%char; char_of_int 34] ++ s ++ [char_of_int 34], Some (PAt rest)).
Proof.
  intros Hk Hs. unfold value_arg. autorewrite with text. cbn [bind rd rd_at].
  assert (isdigit kind = false /\ (kind =c "N") = false /\ (kind =c "e") = false
          /\ (kind =c "c") = false /\ (kind =c "n") = false) as (-> & -> & -> & -> & ->).
  { repeat (apply orb_true_iff in Hk as [Hk|Hk]); apply Ascii.eqb_eq in Hk; subst;
      repeat split. }
  rewrite Hk. cbn [pnext].
  destruct (dec_cons (Z.of_nat (length s)) ltac:(lia)) as (c & r & E & Hc & _).
  rewrite E at 1. cbn [app rd rd_at bind]. rewrite Hc. cbn [negb].
  rewrite strtol_head by (cbn; auto || lia). cbn [bind app rd rd_at list_ascii_of_string pnext].
  change (negb ("_" =c "_")) with false. cbn [plen]. texts.
  rewrite literal_chars_hex.
  - cbn [bind]. texts.
  - rewrite length_app. enough (length s <= length (flat_map hex2 s))%nat by lia.
    clear. induction s; cbn; lia.
Qed.

Lemma good_atype t : good_type t -> good_arg (AType t).
Proof.
  intros [IH _] H n fuel d first rest Hr Hn. cbn [wf_arg mangle_arg show_arg] in *.
  cbn [template_args is_null app list_ascii_of_string rd rd_at bind]. cbn. texts.
  rewrite IH by (try intro; auto; size). cbn [bind]. now rewrite <- app_assoc.
Qed.

(** A value parameter: its type, then what [value_arg] makes of its value. *)
Lemma good_value t v out :
  good_type t -> wf t = true ->
  forall n fuel d first rest, closing t (v ++ rest) -> (length (mangle t) <= n)%nat ->
  value_arg (T:=bytes) ((d ++ sep first) ++ show t) (PAt (v ++ rest))
    = Ok (((d ++ sep first) ++ show t) ++ out, Some (PAt rest)) ->
  template_args (T:=bytes) (S fuel) (next_type n) d (PAt ((B "V" ++ mangle t ++ v) ++ rest)) first
  = template_args fuel (next_type n) (d ++ sep first ++ show t ++ out) (PAt rest) false.
Proof.
  intros [IH _] Ht n fuel d first rest Hr Hn Hv.
  cbn [template_args is_null app list_ascii_of_string rd rd_at bind]. cbn. texts.
  rewrite IH by assumption. cbn [bind is_null]. rewrite Hv. cbn [bind].
  now rewrite <- !app_assoc.
Qed.

Lemma good_aint t neg v : good_type t -> good_arg (AInt t neg v).
Proof.
  intros IH H n fuel d first rest Hr Hn. cbn [wf_arg mangle_arg show_arg] in *.
  unfold wf_count in H. bools. apply good_value; try assumption.
  - rewrite <- app_assoc. intros Ho. rewrite Ho, orb_false_r in *. now subst neg.
  - size.
  - rewrite <- (app_assoc _ (dec v)). apply value_int; [lia | assumption].
Qed.

Lemma good_anull t : good_type t -> good_arg (ANull t).
Proof.
  intros IH H n fuel d first rest Hr Hn. cbn [wf_arg mangle_arg show_arg] in *.
  apply good_value; try assumption.
  - intros _. reflexivity.
  - size.
  - apply value_null.
Qed.

Lemma good_atext t kind s : good_type t -> good_arg (AText t kind s).
Proof.
  intros IH H n fuel d first rest Hr Hn. cbn [wf_arg mangle_arg show_arg] in *. bools.
  apply good_value; try assumption.
  - intros _. cbn.
    match goal with H : _ || _ = true |- _ => rename H into Hk end.
    repeat (apply orb_true_iff in Hk as [Hk|Hk]); apply Ascii.eqb_eq in Hk; subst; reflexivity.
  - size.
  - pose proof (value_text ((d ++ sep first) ++ show t) kind s rest ltac:(assumption)
                  ltac:(lia)) as E.
    cbn [app] in *. now rewrite <- !app_assoc in *.
Qed.

Lemma arg_no_digit args rest : no_digit (flat_map mangle_arg args ++ B "Z" ++ rest).
Proof. destruct args as [|[]]; reflexivity. Qed.

Lemma template_args_list args n rest :
  Forall good_arg args -> forallb wf_arg args = true ->
  (length (flat_map mangle_arg args) <= S n)%nat ->
  forall fuel d, (length (flat_map mangle_arg args) < fuel)%nat ->
  template_args (T:=bytes) fuel (next_type n) d
                (PAt (flat_map mangle_arg args ++ B "Z" ++ rest)) false
  = Ok (d ++ flat_map (fun s => B ", " ++ s) (map show_arg args)).
Proof.
  induction 1 as [|a args Ha Hargs IH]; cbn [forallb flat_map map]; intros Hw Hn fuel d Hf; bools.
  - destruct fuel; [lia|]. cbn. now rewrite app_nil_r.
  - destruct fuel; [lia|]. rewrite length_app in *. rewrite <- app_assoc.
    rewrite (Ha ltac:(assumption)); [|apply arg_no_digit | lia].
    rewrite IH; try assumption; [| lia |].
    + cbn [sep]. now rewrite <- !app_assoc.
    + enough (0 < length (mangle_arg a))%nat by lia. destruct a; cbn; lia.
Qed.

Lemma template_args_text args n rest :
  Forall good_arg args -> forallb wf_arg args = true ->
  (length (flat_map mangle_arg args) <= S n)%nat ->
  forall fuel d, (length (flat_map mangle_arg args) < fuel)%nat ->
  template_args (T:=bytes) fuel (next_type n) d
                (PAt (flat_map mangle_arg args ++ B "Z" ++ rest)) true
  = Ok (d ++ join (B ", ") (map show_arg args)).
Proof.
  intros H Hw Hn fuel d Hf. destruct H as [|a args Ha Hargs].
  - destruct fuel; [lia|]. cbn. now rewrite app_nil_r.
  - cbn [forallb flat_map map] in *. bools. destruct fuel; [lia|]. rewrite length_app in *.
    rewrite <- app_assoc, (Ha ltac:(assumption)); [|apply arg_no_digit | lia].
    rewrite join_cons, template_args_list; try assumption; [| lia |].
    + cbn [sep app]. now rewrite <- !app_assoc.
    + enough (0 < length (mangle_arg a))%nat by lia. destruct a; cbn; lia.
Qed.

Lemma template_id_counted id rest fuel d : wf_id id = true -> (1 < fuel)%nat ->
  no_digit rest ->
  template_id (T:=bytes) fuel d (PAt (counted id ++ rest)) = Ok (d ++ id, PAt rest).
Proof.
  intros H Hf Hr. do 2 (destruct fuel as [|fuel]; [lia|]).
  pose proof (wf_id_length id H) as Hl. unfold counted. rewrite <- app_assoc.
  destruct (rd_count (Z.of_nat (length id)) (id ++ rest) ltac:(lia)) as (c & E & Hc).
  cbn [template_id]. rewrite E. cbn [bind].
  rewrite Hc, strtol_head by (try lia; now apply id_no_digit). cbn [bind]. texts.
  rewrite padd_app. destruct rest as [|e rest]; cbn; [reflexivity|].
  unfold is_count. cbn in Hr. now rewrite Hr.
Qed.

Lemma interprete_template_text id args n d :
  Forall good_arg args -> wf_id id = true -> forallb wf_arg args = true ->
  (length (flat_map mangle_arg args) <= S n)%nat ->
  interprete_template (T:=bytes) (next_type n) d
    (PAt (counted id ++ flat_map mangle_arg args ++ B "Z"))
  = Ok (d ++ id ++ B "!(" ++ join (B ", ") (map show_arg args) ++ B ")").
Proof.
  intros Ha Hid Hw Hn. unfold interprete_template.
  rewrite template_id_counted; try assumption.
  - cbn [bind]. texts. cbn [plen].
    rewrite <- (app_nil_r (B "Z")), template_args_text; try assumption.
    + cbn [bind]. texts.
    + rewrite length_app. lia.
  - cbn [plen]. unfold counted. rewrite !length_app. pose proof (wf_id_length id Hid). lia.
  - rewrite <- (app_nil_r (B "Z")). apply arg_no_digit.
Qed.

Lemma counted_starts id rest : wf_id id = true ->
  starts_template (PAt ((B "__T" ++ counted id ++ rest))) = Ok true.
Proof.
  intros H. unfold counted. rewrite <- app_assoc. pose proof (wf_id_length id H).
  destruct (dec_count (Z.of_nat (length id))) as (c & s & -> & Hc); [lia|].
  unfold starts_template. cbn. now rewrite Hc.
Qed.

Lemma good_template id args : Forall good_arg args -> good_part (QTemplate id args).
Proof.
  intros Ha H n d rest Hn. cbn [wf_part part_body show_part] in *. bools.
  match goal with H : wf_id id = true |- _ => rename H into Hid end.
  set (inner := counted id ++ flat_map mangle_arg args ++ B "Z") in *.
  assert (3 <= length inner)%nat as Hlen.
  { unfold inner, counted. rewrite !length_app. pose proof (wf_id_length id Hid).
    pose proof (dec_not_nil (Z.of_nat (length id)) ltac:(lia)). cbn. lia. }
  unfold name_part. rewrite length_app. change (length (B "__T")) with 3%nat.
  replace (5 <=? Z.of_nat (3 + length inner)) with true by lia.
  replace (starts_template _) with (Ok true : res bool).
  2:{ symmetry. unfold inner. rewrite <- !app_assoc. now apply counted_starts. }
  cbn [bind].
  replace (Z.of_nat (3 + length inner) - 3) with (Z.of_nat (length inner)) by lia.
  replace (padd (PAt ((B "__T" ++ inner) ++ rest)) 3) with (PAt (inner ++ rest))
    by (symmetry; rewrite <- app_assoc; apply (padd_app (B "__T"))).
  rewrite strndup_prefix.
  - cbn [bind]. unfold inner at 1. rewrite interprete_template_text; try assumption.
    + cbn [bind]. repeat f_equal. apply (padd_app (B "__T" ++ inner)).
    + unfold inner in Hn. rewrite !length_app in Hn. cbn in Hn. lia.
  - unfold inner. rewrite !no_nul_app, no_nul_counted by now apply wf_id_no_nul.
    rewrite no_nul_flat; [reflexivity|]. apply Forall_forall. intros a Hi.
    apply mangle_no_nul. rewrite forallb_forall in *. auto.
Qed.

Lemma wf_part_body q : wf_part q = true ->
  0 < Z.of_nat (length (part_body q)) <= LONG_MAX
  /\ forall rest, no_digit (part_body q ++ rest).
Proof.
  destruct q; cbn [wf_part part_body]; intros H; bools.
  - split; [now apply wf_id_length | intros; now apply id_no_digit].
  - split; [unfold LONG_MAX; cbn; lia | reflexivity].
  - split; [unfold LONG_MAX; cbn; lia | reflexivity].
  - split; [|reflexivity]. rewrite length_app in *. cbn [length list_ascii_of_string] in *. lia.
Qed.

(** The loop over the parts of a qualified name, whatever follows them. *)
Lemma name_parts_app q n rest :
  Forall good_part q -> forallb wf_part q = true ->
  (length (flat_map mangle_part q) <= S n)%nat ->
  forall fuel d first,
  name_parts (T:=bytes) (length q + fuel) (next_type n) d
             (PAt (flat_map mangle_part q ++ rest)) first
  = name_parts fuel (next_type n)
      (d ++ (if first : bool then join (B ".") (map show_part q)
             else flat_map (fun s => B "." ++ s) (map show_part q)))
      (PAt rest) (match q with [] => first | _ => false end).
Proof.
  induction 1 as [|a q Ha Hq IH]; cbn [forallb]; intros Hw Hn fuel d first; bools.
  - destruct first; cbn [map join flat_map app length Nat.add]; now rewrite app_nil_r.
  - cbn [flat_map map length Nat.add] in *. rewrite mangle_part_body in *.
    destruct (wf_part_body a ltac:(assumption)) as [Hl Hd]. unfold counted in *.
    rewrite <- !app_assoc.
    destruct (rd_count (Z.of_nat (length (part_body a)))
                (part_body a ++ flat_map mangle_part q ++ rest) ltac:(lia)) as (c & E & Hc).
    cbn [name_parts is_null]. rewrite E. cbn [bind].
    rewrite Hc, strtol_head by (lia || apply Hd). cbn [bind].
    rewrite !length_app in Hn. rewrite join_cons.
    destruct first; cbn [bind]; texts; cbn [bind];
      (rewrite Ha by (assumption || lia)); cbn [bind];
      (rewrite IH by (assumption || lia)); rewrite <- !app_assoc; now destruct q.
Qed.

Lemma name_parts_stop fuel n d rest first : no_digit rest -> (0 < fuel)%nat ->
  name_parts (T:=bytes) fuel (next_type n) d (PAt rest) first = Ok (d, PAt rest).
Proof.
  intros Hr Hf. destruct fuel; [lia|]. destruct rest as [|e rest]; cbn in *; [reflexivity|].
  unfold is_count. now rewrite Hr.
Qed.

Lemma name_parts_list q n rest :
  Forall good_part q -> forallb wf_part q = true -> no_digit rest ->
  (length (flat_map mangle_part q) <= S n)%nat ->
  forall fuel d, (length q < fuel)%nat ->
  name_parts (T:=bytes) fuel (next_type n) d (PAt (flat_map mangle_part q ++ rest)) true
  = Ok (d ++ join (B ".") (map show_part q), PAt rest).
Proof.
  intros Hq Hw Hr Hn fuel d Hf.
  replace fuel with (length q + (fuel - length q))%nat by lia.
  rewrite name_parts_app by assumption. apply name_parts_stop; [assumption | lia].
Qed.

(** ** Named types *)

Lemma step_count (next : parser bytes) d c s b : is_count c = true ->
  next_type_step next d (PAt (c :: s)) b = qualified_name next d (PAt (c :: s)) b.
Proof.
  destruct c as [[|] [|] [|] [|] [|] [|] [|] [|]]; intros H; first [reflexivity | discriminate H].
Qed.

Lemma path_head q rest : q <> [] -> forallb wf_part q = true ->
  exists c s, flat_map mangle_part q ++ rest = c :: s /\ is_count c = true.
Proof.
  destruct q as [|a q]; [congruence|]. cbn. intros _ H. bools.
  destruct (wf_part_body a ltac:(assumption)) as [Hl _]. rewrite mangle_part_body. unfold counted.
  destruct (dec_count (Z.of_nat (length (part_body a)))) as (c & s & -> & Hc); [lia|].
  cbn. eauto.
Qed.

Lemma path_length q : forallb wf_part q = true -> (length q <= length (flat_map mangle_part q))%nat.
Proof.
  induction q as [|a q IH]; cbn; intros H; [lia|]. bools. rewrite length_app.
  destruct (wf_part_body a ltac:(assumption)) as [Hl _]. rewrite mangle_part_body. unfold counted.
  rewrite length_app. specialize (IH ltac:(assumption)). lia.
Qed.

(** A qualified name in a nested position, and in front of what it declares. *)
Lemma path_nested q n d rest :
  q <> [] -> Forall good_part q -> forallb wf_part q = true -> no_digit rest ->
  (length (flat_map mangle_part q) <= n)%nat ->
  next_type (T:=bytes) n d (PAt (flat_map mangle_part q ++ rest)) true
  = Ok (d ++ show_path q, PAt rest).
Proof.
  intros Hne Hq Hw Hr Hn. pose proof (path_length q Hw).
  destruct n as [|n]; [assert (length q <> 0)%nat by (now destruct q); lia|].
  destruct (path_head q rest Hne Hw) as (c & s & E & Hc).
  change (next_type (T:=bytes) (S n)) with (next_type_step (next_type (T:=bytes) n)).
  rewrite E, step_count, <- E by assumption. unfold qualified_name. cbn [plen].
  rewrite name_parts_list; try assumption; [reflexivity|].
  rewrite length_app. lia.
Qed.

Lemma path_declares q n d rest :
  q <> [] -> Forall good_part q -> forallb wf_part q = true -> no_digit rest ->
  (length (flat_map mangle_part q) <= S n)%nat ->
  next_type (T:=bytes) (S n) d (PAt (flat_map mangle_part q ++ rest)) false
  = next_type n (d ++ show_path q) (PAt rest) false.
Proof.
  intros Hne Hq Hw Hr Hn. pose proof (path_length q Hw).
  destruct (path_head q rest Hne Hw) as (c & s & E & Hc).
  change (next_type (T:=bytes) (S n)) with (next_type_step (next_type (T:=bytes) n)).
  rewrite E, step_count, <- E by assumption. unfold qualified_name. cbn [plen].
  rewrite name_parts_list; try assumption; [reflexivity |].
  rewrite length_app. lia.
Qed.

Lemma good_named kind q : Forall good_part q -> good_type (TNamed kind q).
Proof.
  intros Hq. split; cbn [wf wfd]; [|discriminate]. intros H n d rest Hr Hn. bools.
  cbn [mangle app] in *. pose proof (kind_plain kind ltac:(assumption)). enter n.
  transitivity (next_type n d (PAt (flat_map mangle_part q ++ rest)) true).
  - match goal with H : is_kind kind = true |- _ => revert kind H Hr H2 Hn end.
    apply (kind_cases (fun kind => _ -> _ -> _ -> _ = _)); reflexivity.
  - apply path_nested; try assumption; [now destruct q | now apply Hr | size].
Qed.

(** ** Functions *)

Definition va_suffix (va : variadic) : bytes :=
  match va with VNone => [] | VTyped => B " ..." | VUntyped => B ", ..." end.

Definition is_va (va : variadic) : bool := match va with VNone => false | _ => true end.

Lemma params_no_digit ps va rest : forallb wf_param ps = true ->
  no_digit (flat_map mangle_param ps ++ end_letter va :: rest).
Proof.
  destruct ps as [|p ps]; cbn; intros H; [now destruct va|]. bools.
  rewrite <- app_assoc. now apply plain_no_digit, plain_param.
Qed.

Lemma param_length p : wf_param p = true -> (0 < length (mangle_param p))%nat.
Proof. intros H. destruct (plain_param p H) as (c & s & -> & _). cbn. lia. Qed.

Lemma fn_params_list ps va n rest :
  Forall good_param ps -> forallb wf_param ps = true ->
  (length (flat_map mangle_param ps) <= n)%nat ->
  forall fuel d, (length (flat_map mangle_param ps) < fuel)%nat ->
  fn_params (T:=bytes) fuel (next_type n) d
            (PAt (flat_map mangle_param ps ++ end_letter va :: rest))
  = Ok (d ++ flat_map (fun s => B ", " ++ s) (map show_param ps) ++ va_suffix va,
        PAt (end_letter va :: rest), is_va va).
Proof.
  induction 1 as [|p ps Hp Hps IH]; cbn [forallb flat_map map]; intros Hw Hn fuel d Hf; bools.
  - destruct fuel; [lia|]. destruct va; cbn; texts. now rewrite app_nil_r.
  - destruct fuel; [lia|]. rewrite length_app in *.
    pose proof (param_length p ltac:(assumption)).
    destruct (plain_param p ltac:(assumption)) as (c & s & E & Hc).
    rewrite <- app_assoc. cbn [fn_params is_null].
    rewrite E at 1. cbn [app rd rd_at bind].
    destruct (plain_facts c Hc) as (-> & -> & -> & ->). clear Hc. cbn [orb].
    texts. rewrite Hp; try assumption; [| now apply params_no_digit | lia].
    cbn [bind]. rewrite IH by (assumption || lia). now rewrite <- !app_assoc.
Qed.

(** The parameters of a function that has some. *)
Lemma params_text_cons p ps va :
  params_text (show_param p :: map show_param ps) va
  = show_param p ++ flat_map (fun s => B ", " ++ s) (map show_param ps) ++ va_suffix va.
Proof.
  unfold params_text. rewrite join_cons. destruct va; rewrite ?app_nil_r, <- ?app_assoc; reflexivity.
Qed.

Lemma good_function conv ps va ret :
  Forall good_param ps -> good_type ret -> good_fn (DFn conv ps va ret).
Proof.
  intros Hps [IH _] H n d name this rest Hr Hn. cbn [wf_fn fn_ret fn_text mangle_fn] in *. bools.
  cbn [length] in Hn. rewrite length_app in Hn. cbn [length] in Hn.
  unfold parse_function. cbn [new_string bytes_ops bind app pnext]. rewrite <- app_assoc. cbn [app].
  destruct Hps as [|p ps Hp Hps]; cbn [forallb flat_map map app] in *; bools.
  - destruct va; try discriminate; cbn; texts; cbn [bind app pnext];
      rewrite IH by (assumption || lia); reflexivity.
  - destruct (plain_param p ltac:(assumption)) as (c & s & E & Hc).
    rewrite <- app_assoc. rewrite length_app in Hn.
    rewrite E at 1. cbn [app rd rd_at bind].
    destruct (plain_facts c Hc) as (_ & -> & _ & ->). clear Hc.
    rewrite Hp; try assumption; [| now apply params_no_digit | lia].
    cbn [bind plen]. rewrite fn_params_list; try assumption; [| lia | rewrite length_app; lia].
    cbn [bind app]. rewrite params_text_cons.
    destruct va; cbn [is_va is_null bind rd rd_at end_letter pnext]; cbn;
      rewrite IH by (assumption || lia); reflexivity.
Qed.

Lemma fn_output_anon f (w : bool) :
  fn_output (T:=bytes) [] (if w then PNull else PAt []) false false (show (fn_ret f)) (fn_text f)
  = Ok (show_fn (if w then B " delegate" else B " function") f).
Proof.
  destruct f as [conv ps va ret]. cbn [fn_ret fn_text show_fn].
  set (txt := params_text _ _). unfold fn_output.
  replace (if is_null _ then _ else _) with (Ok false : res bool) by now destruct w.
  cbn [bind]. change (str (show ret)) with (PAt (show ret)).
  change (used (show ret)) with (Z.of_nat (length (show ret))). texts.
  change (used txt) with (Z.of_nat (length txt)). change (str txt) with (PAt txt).
  clearbody txt. destruct txt as [|c s]; [destruct w; cbn; texts|].
  replace (Z.of_nat (length (c :: s)) =? 0) with false by (cbn [length]; lia).
  unfold arg_list. destruct w; cbn [is_null negb]; texts.
Qed.

Lemma fn_type_text f n d rest (w b : bool) c :
  good_fn f -> wf_fn f = true -> closing (fn_ret f) rest -> (length (mangle_fn f) <= S n)%nat ->
  fn_type (T:=bytes) (next_type n) d (PAt (c :: mangle_fn f ++ rest))
          (if w then PNull else PAt []) b false
  = Ok (placed (show_fn (if w then B " delegate" else B " function") f) b d, PAt rest).
Proof.
  intros IH Hw Hr Hn. unfold fn_type. cbn [new_string bytes_ops bind pnext].
  rewrite IH by assumption. rewrite fn_output_anon. cbn [bind].
  set (txt := show_fn _ f). change (str txt) with (PAt txt).
  change (used txt) with (Z.of_nat (length txt)). texts.
Qed.

Lemma closing_fn f rest : (open_ended_fn f = true -> no_digit rest) -> closing (fn_ret f) rest.
Proof. destruct f. exact (fun H => H). Qed.

Lemma good_delegate f : good_fn f -> good_type (TDelegate f).
Proof.
  intros IH. split; cbn [wf wfd]; intros H n d rest Hr Hn; cbn [mangle app] in *; enter n; switch.
  - rewrite (fn_type_text f n d rest true true) by (auto using closing_fn; size). reflexivity.
  - rewrite (fn_type_text f n d rest true false) by (auto using closing_fn; size). reflexivity.
Qed.

Lemma fn_head f : wf_fn f = true -> exists c s, mangle_fn f = c :: s /\ is_convention c = true.
Proof. destruct f. cbn. intros H. bools. eauto. Qed.

Lemma good_fnptr f : good_fn f -> good_type (TFunPtr f).
Proof.
  intros IH. split; cbn [wf wfd]; intros H n d rest Hr Hn; cbn [mangle app] in *; enter n;
    switch; unfold pointer; destruct (fn_head f H) as (c & s & E & Hc);
    rewrite E at 1; cbn [app rd rd_at bind]; rewrite Hc.
  - rewrite (fn_type_text f n d rest false true) by (auto using closing_fn; size). reflexivity.
  - rewrite (fn_type_text f n d rest false false) by (auto using closing_fn; size). reflexivity.
Qed.

Lemma good_dparam s t : good_type t -> good_param (DParam s t).
Proof.
  intros [IH _] H n d rest Hr Hn. cbn [wf_param mangle_param show_param] in *.
  destruct s; cbn [storage_letter storage_word app] in *;
    [apply IH; try intro; assumption|..]; enter n; switch; cbn; texts;
    rewrite IH by (try intro; assumption || size); now rewrite <- app_assoc.
Qed.

(** ** Tuples *)

Definition last_open (ts : list dty) : bool := open_ended (TTuple ts).

(** The loop over all but the last element, then the last. *)
Definition tuple_tail (n : nat) (k : nat) (d e : bytes) (p : cptr) : res (bytes * cptr) :=
  let* (d, e, p) := tuple_rounds (T:=bytes) (next_type n) k d e p in
  let* e := truncate e in
  let* (e, p) := next_type n e p true in
  let* d := append d (str e) in
  Ok (d, p).

Lemma tuple_tail_list ts n rest : forall t d e,
  Forall good_type (t :: ts) -> forallb wf (t :: ts) = true ->
  (last_open (t :: ts) = true -> no_digit rest) ->
  (length (flat_map mangle (t :: ts)) <= n)%nat ->
  tuple_tail n (length ts) d e (PAt (flat_map mangle (t :: ts) ++ rest))
  = Ok (d ++ join (B ", ") (map show (t :: ts)), PAt rest).
Proof.
  induction ts as [|u ts IH]; intros t d e Hg Hw Hr Hn;
    inversion Hg as [|? ? [Ht _] Hts]; subst; cbn [forallb] in Hw;
    apply andb_true_iff in Hw as [Hwt Hws];
    assert (no_nul (show t) = true) as Hz by now apply show_no_nul.
  - unfold tuple_tail. cbn [length tuple_rounds bind truncate bytes_ops flat_map map join app].
    cbn [flat_map] in Hn. rewrite app_nil_r in *.
    rewrite (Ht Hwt) by (assumption || lia). cbn [bind app].
    change (str (show t)) with (PAt (show t)). texts.
  - unfold tuple_tail in *. cbn [length tuple_rounds truncate bytes_ops].
    change (flat_map mangle (t :: u :: ts)) with (mangle t ++ flat_map mangle (u :: ts)) in *.
    rewrite length_app in Hn. rewrite <- app_assoc. cbn [bind].
    rewrite (Ht Hwt); [| | lia].
    + cbn [bind app]. change (str (show t)) with (PAt (show t)).
      autorewrite with text. cbn [bind]. autorewrite with text. cbn [bind].
      rewrite IH; [| assumption | assumption | exact Hr | lia].
      cbn [map join]. now rewrite <- !app_assoc.
    + intros _. cbn [flat_map]. rewrite <- app_assoc. cbn [forallb] in Hws. bools.
      apply plain_no_digit, plain_mangle. auto.
Qed.

Lemma good_tuple ts : Forall good_type ts -> good_type (TTuple ts).
Proof.
  intros IH. split; cbn [wf wfd]; [|discriminate]. intros H n d rest Hr Hn.
  cbn [mangle app] in *. enter n. bools.
  change (type_switch _ _ ?p _ _) with (tuple (next_type (T:=bytes) n) d p).
  rewrite tuple_unfold. autorewrite with text.
  cbn [bind pnext]. rewrite <- app_assoc.
  assert (no_digit (flat_map mangle ts ++ rest)) as Hd.
  { destruct ts as [|t ts]; [now apply Hr|]. cbn [flat_map forallb] in *. bools.
    rewrite <- app_assoc. apply plain_no_digit, plain_mangle. auto. }
  rewrite strtol_head by (assumption || lia). cbn [bind new_string bytes_ops].
  destruct ts as [|t ts].
  { change (Z.to_nat _) with 0%nat. change (1 <=? _) with false. cbn. texts. }
  replace (Z.to_nat _) with (length ts) by (cbn [length]; lia).
  replace (1 <=? _) with true by (cbn [length]; lia).
  assert (length (flat_map mangle (t :: ts)) <= n)%nat as Hl by size.
  pose proof (tuple_tail_list ts n rest t (d ++ B "Tuple[") [] IH ltac:(assumption) Hr Hl) as E.
  unfold tuple_tail in E. destruct (tuple_rounds _ _ _ _ _) as [[[d' e'] p']|]; [|discriminate].
  cbn [bind] in *. rewrite E. cbn [bind]. texts.
Qed.

(** ** All the syntax *)

Lemma all_good : (forall t, good_type t) /\ (forall f, good_fn f) /\ (forall p, good_param p)
  /\ (forall q, good_part q) /\ (forall a, good_arg a).
Proof.
  apply syntax_ind; eauto using good_basic, good_const, good_invariant, good_dyn, good_sta,
    good_assoc, good_ptr, good_named, good_delegate, good_fnptr, good_tuple, good_function,
    good_dparam, good_id, good_ctor, good_dtor, good_template, good_atype, good_aint,
    good_anull, good_atext.
Qed.
