(* ===== verification/DSymbol.v ===== *)
(** * Whole D symbols and the round trip of the demangler

    Variables, objects, functions and static constructors behind their qualified names,
    symbols nested in symbols, and the theorem that [demangle_d] inverts mangling. *)
From S2P Require Import Prelude CLib DString DReal DParser DTotal DRefine DSpec DText DInverse.
Local Open Scope Z_scope.

#[local] Arguments dec : simpl never.
#[local] Arguments Z.of_nat : simpl never.
#[local] Arguments Z.to_nat : simpl never.
#[local] Arguments append : simpl never.
#[local] Arguments prepend : simpl never.
#[local] Arguments nestpend : simpl never.
#[local] Arguments nestpend_n : simpl never.
#[local] Arguments append_n : simpl never.
#[local] Arguments append_c : simpl never.
#[local] Arguments prepend_n : simpl never.
#[local] Arguments next_type : simpl never.
#[local] Arguments integer_arg : simpl never.
#[local] Arguments value_arg : simpl never.

(** ** Symbols *)

Lemma path_good q : Forall good_part q.
Proof. apply Forall_forall. intros a _. apply all_good. Qed.

Lemma fn_good f : good_fn f.
Proof. apply all_good. Qed.

Lemma next_type_end n d b : (0 < n)%nat -> next_type (T:=bytes) n d (PAt []) b = Ok (d, PNull).
Proof. intros. destruct n; [lia | reflexivity]. Qed.

Lemma show_path_text q : wf_path q = true ->
  no_nul (show_path q) = true /\ exists c s, show_path q = c :: s /\ (c =c NUL) = false.
Proof.
  unfold wf_path. intros H. bools.
  assert (no_nul (show_path q) = true) as Hz.
  { apply no_nul_join; [reflexivity|]. apply Forall_map_show, Forall_forall. intros a Ha.
    apply show_no_nul. rewrite forallb_forall in *. auto. }
  split; [assumption|]. destruct q as [|a q]; [discriminate|].
  assert (exists c s, show_part a = c :: s) as (c & s & E).
  { cbn [forallb] in *. bools. destruct a as [id| | |id args]; cbn in *; eauto;
      bools; unfold wf_id in *; destruct id; try discriminate; cbn; eauto. }
  unfold show_path in *. cbn [map] in *. rewrite join_cons, E in *. cbn in *. bools. eauto.
Qed.

Lemma step_function (next : parser bytes) d c s (this b : bool) : is_convention c = true ->
  next_type_step next d (PAt ((if this then B "M" else []) ++ c :: s)) b
  = function_symbol next d (PAt (c :: s)) b this.
Proof.
  revert c. apply conv_cases; destruct this; reflexivity.
Qed.

Lemma fn_output_named f name this :
  no_nul name = true -> (exists c s, name = c :: s /\ (c =c NUL) = false) ->
  fn_output (T:=bytes) [] (PAt name) false this (show (fn_ret f)) (fn_text f)
  = Ok (show (fn_ret f) ++ B " " ++ name ++ arg_list this (fn_text f)).
Proof.
  intros Hz (c & s & E & Hc). unfold fn_output.
  replace (if is_null _ then _ else _) with (Ok true : res bool)
    by (rewrite E; cbn; now rewrite Hc).
  cbn [bind negb]. set (txt := fn_text f). set (ret := show _).
  change (str ret) with (PAt ret). change (used ret) with (Z.of_nat (length ret)). texts.
  change (used txt) with (Z.of_nat (length txt)). change (str txt) with (PAt txt).
  clearbody txt. destruct txt as [|e r]; [destruct this; cbn; texts|].
  replace (Z.of_nat (length (e :: r)) =? 0) with false by (cbn [length]; lia).
  unfold arg_list. destruct this; cbn [is_null negb]; texts.
Qed.

(** What is left after a symbol that is the last one, or that others follow. *)
Definition consumed (rest : bytes) (p : cptr) : Prop := p = PAt rest \/ rest = [] /\ p = PNull.

Definition parses_symbol (s : symbol) : Prop :=
  forall n rest, rest = [] \/ encloses s = true ->
  (length (mangle_symbol s) < n)%nat ->
  exists p, next_type (T:=bytes) n [] (PAt (mangle_symbol s ++ rest)) false
            = Ok (show_symbol s, p) /\ consumed rest p.

(** Reads the path of a symbol, then what it declares. *)
Ltac read_path q :=
  rewrite <- app_assoc, path_declares;
  [| now destruct q | apply path_good | assumption | | rewrite ?length_app in *; lia].

Lemma symbol_nothing q : wf_path q = true -> parses_symbol (mk_symbol q DNothing).
Proof.
  intros Hq n rest [->|He] Hn; [|discriminate He].
  unfold mangle_symbol, show_symbol, wf_path in *. cbn [path what mangle_decl] in *.
  bools. destruct n as [|n]; [lia|]. read_path q; [|exact I].
  pose proof (path_length q ltac:(assumption)).
  exists PNull. cbn [app]. rewrite next_type_end; [split; [reflexivity | right; auto]|].
  rewrite length_app in *. destruct q; [discriminate|]. cbn [length] in *. lia.
Qed.

Lemma symbol_var q t : wf_path q = true -> wfd t = true -> parses_symbol (mk_symbol q (DVar t)).
Proof.
  intros Hq Ht n rest Hr Hn.
  unfold mangle_symbol, show_symbol, wf_path in *. cbn [path what mangle_decl encloses] in *.
  bools. destruct n as [|n]; [lia|].
  read_path q; [|apply plain_no_digit, plain_mangle; auto].
  exists (PAt rest). rewrite (proj2 (proj1 all_good t) Ht); [split; [reflexivity | now left]| |].
  - intros Ho. destruct Hr as [->|Hr]; [exact I|]. rewrite Ho in Hr. discriminate.
  - pose proof (path_length q ltac:(assumption)). rewrite length_app in *. lia.
Qed.

Lemma symbol_object q kind p :
  wf_path q = true -> is_kind kind = true -> wf_path p = true ->
  parses_symbol (mk_symbol q (DObject kind p)).
Proof.
  intros Hq Hk Hp n rest [->|He] Hn; [|discriminate He].
  unfold mangle_symbol, show_symbol, wf_path in *. cbn [path what mangle_decl] in *.
  bools. pose proof (path_length q ltac:(assumption)). pose proof (path_length p ltac:(assumption)).
  assert (length q <> 0 /\ length p <> 0)%nat as [] by (split; [now destruct q | now destruct p]).
  destruct n as [|n]; [lia|]. rewrite length_app in Hn. cbn [length] in Hn.
  pose proof (kind_plain kind Hk).
  read_path q; [|apply (plain_no_digit (kind :: _)); do 2 eexists; eauto].
  destruct n as [|n]; [lia|]. cbn [app].
  change (next_type (T:=bytes) (S n)) with (next_type_step (next_type (T:=bytes) n)).
  rewrite step_plain by assumption.
  replace (type_switch _ _ _ _ _)
    with (named_type (T:=bytes) (next_type n) (show_path q)
            (PAt (kind :: flat_map mangle_part p ++ [])) false)
    by (clear - Hk; revert kind Hk; apply kind_cases; reflexivity).
  unfold named_type. cbn [negb new_string bytes_ops bind pnext].
  destruct n as [|n]; [lia|].
  rewrite path_declares; [| now destruct p | apply path_good | assumption | exact I | lia].
  cbn [app]. rewrite next_type_end by lia. cbn [bind]. texts.
  exists PNull. split; [|right; auto].
  set (txt := show_path p ++ [char_of_int 32]).
  change (str txt) with (PAt txt). change (used txt) with (Z.of_nat (length txt)).
  texts.
Qed.

Lemma symbol_function q this f : wf_path q = true -> wf_fn f = true ->
  parses_symbol (mk_symbol q (DFunc this f)).
Proof.
  intros Hq Hf n rest Hr Hn. destruct (show_path_text q Hq) as [Hz Hne]. exists (PAt rest).
  unfold mangle_symbol, show_symbol, wf_path in *. cbn [path what mangle_decl encloses] in *.
  bools. pose proof (path_length q ltac:(assumption)).
  destruct (fn_head f Hf) as (c & s & E & Hc). rewrite !length_app in Hn.
  destruct n as [|n]; [lia|].
  read_path q; [|rewrite E; revert c Hc E; apply (conv_cases (fun c => _ -> _));
                 destruct this; reflexivity].
  assert (length q <> 0)%nat by now destruct q. destruct n as [|n]; [lia|].
  rewrite <- app_assoc.
  change (next_type (T:=bytes) (S n)) with (next_type_step (next_type (T:=bytes) n)).
  rewrite E at 1. cbn [app]. rewrite step_function by assumption.
  change (c :: s ++ rest) with ((c :: s) ++ rest). rewrite <- E.
  unfold function_symbol. cbn [negb new_string bind truncate bytes_ops].
  set (name := show_path q) in *. change (used name) with (Z.of_nat (length name)).
  change (str name) with (PAt name). texts. cbn [app].
  change (str name) with (PAt name).
  assert (closing (fn_ret f) rest).
  { apply closing_fn. intros Ho. destruct Hr as [->|Hr]; [exact I | now rewrite Ho in Hr]. }
  rewrite (fn_good f) by (assumption || lia).
  rewrite fn_output_named by assumption. split; [|now left]. now destruct f.
Qed.

Lemma symbol_static q ctor : wf_path q = true -> parses_symbol (mk_symbol q (DStatic ctor)).
Proof.
  intros Hq n rest [->|He] Hn; [|discriminate He].
  unfold mangle_symbol, show_symbol, wf_path in *. cbn [path what mangle_decl] in *.
  bools. destruct n as [|n]; [lia|]. rewrite <- app_assoc, app_nil_r.
  destruct (path_head q (mangle_decl (DStatic ctor))) as (c & s & E & Hc); [now destruct q | auto|].
  cbn [mangle_decl] in E.
  change (next_type (T:=bytes) (S n)) with (next_type_step (next_type (T:=bytes) n)).
  rewrite E, step_count, <- E by assumption. unfold qualified_name. cbn [plen].
  pose proof (path_length q ltac:(assumption)). rewrite !length_app in *.
  replace (S (_ + _))%nat with (length q + (S (length (flat_map mangle_part q) - length q
    + length (B "11" ++ (if ctor then B "_staticCtorFZv" else B "_staticDtorFZv")))))%nat
    by (rewrite length_app; lia).
  rewrite name_parts_app by (apply path_good || assumption || lia).
  assert (length q <> 0)%nat by now destruct q.
  destruct q as [|a q]; [discriminate|]. exists PNull. split; [|right; auto].
  assert (0 < n)%nat by lia. cbn [app].
  destruct ctor; cbn; texts; rewrite next_type_end by assumption; reflexivity.
Qed.

Lemma symbol_good s : wf_symbol s = true -> parses_symbol s.
Proof.
  destruct s as [q w]. unfold wf_symbol. cbn [path what]. intros H. bools.
  destruct w as [|t|kind p|this f|ctor]; cbn [wf_decl] in *; bools;
    auto using symbol_nothing, symbol_var, symbol_object, symbol_function, symbol_static.
Qed.

(** ** Nested symbols *)

Lemma symbol_head s rest : wf_symbol s = true ->
  exists c r, mangle_symbol s ++ rest = c :: r /\ is_count c = true.
Proof.
  unfold wf_symbol, wf_path, mangle_symbol. intros H. bools. rewrite <- app_assoc.
  apply path_head; [now destruct (path s) | assumption].
Qed.

Lemma symbols_step s rest n fuel d :
  wf_symbol s = true -> rest = [] \/ encloses s = true -> (length (mangle_symbol s) < n)%nat ->
  exists p, consumed rest p /\
  nested_symbols (T:=bytes) (S fuel) (next_type n) d (PAt (mangle_symbol s ++ rest))
  = nested_symbols fuel (next_type n) (d ++ B "." ++ show_symbol s) p.
Proof.
  intros Hs Hr Hn. destruct (symbol_good s Hs n rest Hr Hn) as (p & E & Hp).
  exists p. split; [assumption|]. destruct (symbol_head s rest Hs) as (c & r & Eh & Hc).
  cbn [nested_symbols is_null]. rewrite Eh at 1. cbn [rd rd_at bind].
  replace (c =c NUL) with false.
  2:{ symmetry. apply Ascii.eqb_neq. intros ->. discriminate Hc. }
  cbn [new_string bytes_ops bind]. texts. cbn [bind]. rewrite E. cbn [bind].
  set (txt := show_symbol s). change (str txt) with (PAt txt).
  change (used txt) with (Z.of_nat (length txt)). texts.
Qed.

Lemma nested_end n fuel d p : consumed [] p -> (0 < fuel)%nat ->
  nested_symbols (T:=bytes) fuel (next_type n) d p = Ok d.
Proof.
  intros Hp Hf. destruct fuel; [lia|]. destruct Hp as [->|[_ ->]]; reflexivity.
Qed.

Lemma symbol_length s : wf_symbol s = true -> (0 < length (mangle_symbol s))%nat.
Proof.
  intros H. destruct (symbol_head s [] H) as (c & r & E & _). rewrite app_nil_r in E.
  rewrite E. cbn. lia.
Qed.

Lemma nested_list outer s n :
  forallb (fun o => wf_symbol o && encloses o) outer = true -> wf_symbol s = true ->
  (length (flat_map mangle_symbol outer ++ mangle_symbol s) < n)%nat ->
  forall fuel d, (length (flat_map mangle_symbol outer ++ mangle_symbol s) < fuel)%nat ->
  nested_symbols (T:=bytes) fuel (next_type n) d
                 (PAt (flat_map mangle_symbol outer ++ mangle_symbol s))
  = Ok (d ++ flat_map (fun t => B "." ++ t) (map show_symbol outer ++ [show_symbol s])).
Proof.
  intros Ho Hs. induction outer as [|o outer IH]; cbn [flat_map map forallb] in *; bools;
    intros Hn fuel d Hf; (destruct fuel as [|fuel]; [lia|]).
  - pose proof (symbol_length s Hs). cbn [app] in *.
    destruct (symbols_step s [] n fuel d Hs (or_introl eq_refl) Hn) as (p & Hp & E).
    rewrite app_nil_r in E. rewrite E, nested_end by (assumption || lia).
    cbn [flat_map app]. now rewrite app_nil_r.
  - match goal with H : wf_symbol o = true |- _ => pose proof (symbol_length o H); rename H into Hw end.
    rewrite <- !app_assoc, !length_app in *.
    destruct (symbols_step o (flat_map mangle_symbol outer ++ mangle_symbol s) n fuel d)
      as (p & Hp & E); auto; [lia|].
    rewrite E. destruct Hp as [->|[Hp _]].
    + rewrite IH by (assumption || rewrite ?length_app; lia). cbn [flat_map app].
      now rewrite <- !app_assoc.
    + pose proof (symbol_length s Hs). apply (f_equal (@length _)) in Hp.
      rewrite length_app in Hp. cbn in Hp. lia.
Qed.

(** ** The round trip *)

Lemma show_symbol_no_nul s : wf_symbol s = true -> no_nul (show_symbol s) = true.
Proof.
  unfold wf_symbol. intros H. bools. destruct s as [q w]. cbn [path what] in *.
  destruct (show_path_text q ltac:(assumption)) as [Hz _].
  unfold show_symbol. cbn [path what]. destruct w as [|t|kind p|this f|ctor]; cbn [wf_decl] in *; bools.
  - assumption.
  - now apply show_no_nul.
  - destruct (show_path_text p ltac:(assumption)) as [Hp _]. now rewrite !no_nul_app, Hz, Hp.
  - destruct f as [conv ps va ret]. cbn [wf_fn] in *. bools.
    rewrite !no_nul_app, Hz, no_nul_arg_list, (proj1 (proj1 show_no_nul ret)); auto.
    apply no_nul_params, Forall_map_show, Forall_forall. intros p Hp.
    apply show_no_nul. rewrite forallb_forall in *. auto.
  - rewrite !no_nul_app, Hz. now destruct ctor.
Qed.

Lemma show_name_no_nul outer s : wf_name outer s = true -> no_nul (show_name outer s) = true.
Proof.
  unfold wf_name, show_name. intros H. bools. apply no_nul_join; [reflexivity|].
  apply Forall_app. split; [|repeat constructor; now apply show_symbol_no_nul].
  apply Forall_map_show, Forall_forall. intros o Ho. apply show_symbol_no_nul.
  rewrite forallb_forall in *. match goal with H : forall x, _ |- _ => specialize (H o Ho) end.
  now bools.
Qed.

(** The whole demangler on texts. *)
Lemma demangle_mangled outer s : wf_name outer s = true ->
  demangle_d (T:=bytes) (mangle_name outer s) = Ok (Some (show_name outer s)).
Proof.
  intros H. pose proof (show_name_no_nul outer s H) as Hz. unfold wf_name in H. bools.
  unfold mangle_name, demangle_d.
  set (body := flat_map mangle_symbol outer ++ mangle_symbol s).
  replace (starts_symbol _) with (Ok true : res bool).
  2:{ assert (exists c r, body = c :: r /\ is_count c = true) as (c & r & E & Hc).
      { unfold body. destruct outer as [|o outer]; cbn [flat_map forallb app] in *; bools.
        - rewrite <- (app_nil_r (mangle_symbol s)). now apply symbol_head.
        - rewrite <- app_assoc. now apply symbol_head. }
      rewrite E. unfold starts_symbol. cbn. now rewrite Hc. }
  cbn [bind]. replace (padd (PAt (B "_D" ++ body)) 2) with (PAt body)
    by (symmetry; apply (padd_app (B "_D"))).
  cbn [new_string bytes_ops bind].
  set (n := S (length (B "_D" ++ body))).
  assert (length body < n)%nat as Hn by (unfold n; rewrite length_app; lia).
  enough (exists d q, next_type (T:=bytes) n [] (PAt body) false = Ok (d, q)
    /\ nested_symbols (T:=bytes) (S (plen q)) (next_type n) d q = Ok (show_name outer s))
    as (d & q & -> & E).
  { cbn [bind]. rewrite E. cbn [bind]. now rewrite strndup_all. }
  unfold show_name, body in *.
  destruct outer as [|o outer]; cbn [flat_map forallb map app] in *; bools.
  - destruct (symbol_good s ltac:(assumption) n [] (or_introl eq_refl) Hn) as (p & E & Hp).
    rewrite app_nil_r in E. exists (show_symbol s), p. split; [assumption|].
    apply nested_end; [assumption | lia].
  - rewrite <- app_assoc in *. rewrite length_app in Hn.
    destruct (symbol_good o ltac:(assumption) n (flat_map mangle_symbol outer ++ mangle_symbol s))
      as (p & E & Hp); [auto | lia |].
    exists (show_symbol o), p. split; [assumption|]. destruct Hp as [->|[Hp _]].
    + rewrite nested_list by (assumption || cbn; lia). now rewrite join_cons.
    + pose proof (symbol_length s ltac:(assumption)). apply (f_equal (@length _)) in Hp.
      rewrite length_app in Hp. cbn in Hp. lia.
Qed.
