(* ===== verification/DCorrect.v ===== *)
(** * What the D demangler guarantees

    The properties of [demangle_d/] as a whole: it inverts mangling, its heap strings never
    leave their blocks, it returns on every input; and the inputs on which it reads or writes
    out of bounds or produces an output out of proportion to its input. *)
From S2P Require Import Prelude CLib DString DReal DParser DTotal DRefine DSpec DText DInverse.
From S2P Require Import DSymbol.
Local Open Scope Z_scope.

#[local] Arguments dec : simpl never.
#[local] Arguments Z.of_nat : simpl never.

(** ** Sequences of string operations *)

(** The calls that the parser makes on a string. *)
Inductive string_call : Type :=
| CAppendN (p : cptr) (n : Z)
| CAppendC (c : Z)
| CAppend (p : cptr)
| CPrependN (p : cptr) (n : Z)
| CPrepend (p : cptr)
| CNestpend (p : cptr) (is_nested : bool)
| CTruncate.

Definition call {T} {ops : DStringOps T} (d : T) (c : string_call) : res T :=
  match c with
  | CAppendN p n => append_n d p n
  | CAppendC c => append_c d c
  | CAppend p => append d p
  | CPrependN p n => prepend_n d p n
  | CPrepend p => prepend d p
  | CNestpend p b => nestpend d p b
  | CTruncate => truncate d
  end.

Fixpoint calls {T} {ops : DStringOps T} (d : T) (l : list string_call) : res T :=
  match l with
  | [] => Ok d
  | c :: l => let* d := call d c in calls d l
  end.

(** Sources are C strings of a process, counts are what [strtol] returns. *)
Definition call_ok (c : string_call) : bool :=
  match c with
  | CAppendN p n | CPrependN p n =>
      (0 <=? n) && (n <=? LONG_MAX) && (Z.of_nat (plen p) <? Impl.USER_SPACE)
  | CAppend p | CPrepend p | CNestpend p _ => Z.of_nat (plen p) <? Impl.USER_SPACE
  | CAppendC _ | CTruncate => true
  end.

Lemma call_sim d s c : ImplSpec.holds d s -> call_ok c = true ->
  sim ImplSpec.holds (call d c) (call s c).
Proof.
  intros Hh Hc. change (ImplSpec.holds) with (repr (T:=Impl.string_t)) in *.
  destruct c; cbn [call call_ok] in *; bools;
    [apply append_n_spec | apply append_c_spec | apply append_spec | apply prepend_n_spec
    | apply prepend_spec | apply nestpend_spec | apply truncate_spec]; auto; lia.
Qed.

(** C4: the representation invariant of [string.c]. Whatever sequence of calls is made on a
    new string, either the allocator refuses a block or the heap string holds exactly the
    text that the same calls build: [used] counts it, it is terminated inside its block, and
    no call writes outside of the block. *)
Theorem string_calls_hold (l : list string_call) :
  forallb call_ok l = true ->
  sim ImplSpec.holds (let* d := new_string in calls (T:=Impl.string_t) d l)
                     (calls (T:=bytes) [] l).
Proof.
  intros Hl. change (calls (T:=bytes) [] l) with (let* d := new_string in calls (T:=bytes) d l).
  eapply sim_bind; [apply ImplSpec.new_string_holds|].
  induction l as [|c l IH]; cbn [forallb calls] in *; intros d s Hh; [now constructor|]. bools.
  eapply sim_bind; [now apply call_sim|]. auto.
Qed.

Definition sample_calls : list string_call :=
  [CAppend (PAt (B "int")); CPrepend (PAt (B "const ")); CAppendC 42; CTruncate;
   CNestpend (PAt (B "void")) false].

Lemma string_calls_hold_witness :
  sim ImplSpec.holds (let* d := new_string in calls (T:=Impl.string_t) d sample_calls)
                     (calls (T:=bytes) [] sample_calls)
  /\ calls (T:=bytes) [] sample_calls = Ok (B "void ").
Proof. split; [apply string_calls_hold; reflexivity | reflexivity]. Defined.

(** ** The whole demangler *)

(** C1: round trip. The mangled name of any well-formed chain of D symbols (functions,
    variables, objects, constructors, with template instances, arrays, pointers, delegates,
    tuples and literals nested to any depth) is demangled to the text of its declaration;
    with the heap strings of the code the only other outcome is that memory runs out. *)
Theorem demangle_round_trip (outer : list symbol) (s : symbol) :
  wf_name outer s = true ->
  Z.of_nat (length (mangle_name outer s)) < Impl.USER_SPACE ->
  demangle_d (T:=bytes) (mangle_name outer s) = Ok (Some (show_name outer s))
  /\ (demangle_d (T:=Impl.string_t) (mangle_name outer s) = Ok (Some (show_name outer s))
      \/ demangle_d (T:=Impl.string_t) (mangle_name outer s) = Fail OutOfMemory).
Proof.
  intros Hw Hl. pose proof (demangle_mangled outer s Hw) as E. split; [assumption|].
  pose proof (demangle_d_sim (T:=Impl.string_t) (mangle_name outer s) Hl) as Hs.
  rewrite E in Hs. inv Hs; auto.
Qed.

Lemma demangle_round_trip_witness :
  demangle_d (T:=bytes) (B "_D3std3utf6toUTF8FG4awZAa")
  = Ok (Some (B "char[] std.utf.toUTF8(char[4], dchar)")).
Proof. apply (demangle_round_trip [] toUTF8); [reflexivity | vm_compute; reflexivity]. Defined.

(** C2: refinement. On every input that fits in the address space, well-formed or not, the
    demangler over heap strings does what the demangler over plain texts does, or runs out
    of memory; in particular it never writes outside of a string's block. *)
Theorem demangle_heap_refines (s : bytes) :
  Z.of_nat (length s) < Impl.USER_SPACE ->
  demangle_d (T:=Impl.string_t) s = demangle_d (T:=bytes) s
  \/ demangle_d (T:=Impl.string_t) s = Fail OutOfMemory.
Proof.
  intros H. pose proof (demangle_d_sim (T:=Impl.string_t) s H) as Hs.
  inv Hs; auto.
Qed.

Lemma demangle_heap_refines_witness :
  demangle_d (T:=Impl.string_t) (B "_D1aB3i") = demangle_d (T:=bytes) (B "_D1aB3i")
  \/ demangle_d (T:=Impl.string_t) (B "_D1aB3i") = Fail OutOfMemory.
Proof. apply demangle_heap_refines. reflexivity. Defined.

(** C3: termination. On every byte string the demangler ends within the bounds of the model.
    The recursion and all loops but one have bounds that are linear in the length of the
    input. The loop over the elements of a tuple has the count that stands in the input as its
    bound ([tuple_bound]), which is up to [2 ^ 63 - 1] and is not checked against the length:
    [tuple_count_unchecked] shows inputs of about twenty bytes on which it runs that often. *)
Theorem demangle_terminates (s : bytes) :
  demangle_d (T:=Impl.string_t) s <> Fail OutOfFuel
  /\ demangle_d (T:=bytes) s <> Fail OutOfFuel.
Proof.
  pose proof (demangle_d_sat (T:=Impl.string_t) s). pose proof (demangle_d_sat (T:=bytes) s).
  split; intros E; rewrite E in *; cbn in *; congruence.
Qed.

(** [_D] and a non-zero digit. *)
Definition d_prefix (s : bytes) : bool :=
  match s with
  | a :: b :: c :: _ => (a =c "_") && (b =c "D") && is_count c
  | _ => false
  end.

Lemma starts_symbol_prefix s : starts_symbol (PAt s) = Ok (d_prefix s).
Proof.
  destruct s as [|a [|b [|c s]]]; unfold starts_symbol; cbn; try reflexivity;
    destruct (a =c "_"); cbn; try reflexivity; destruct (b =c "D"); reflexivity.
Qed.

(** a name is left alone (NULL) exactly when it is not of the form [_D<digit>...]. *)
Theorem demangle_rejects (s : bytes) :
  demangle_d (T:=Impl.string_t) s = Ok None <-> d_prefix s = false.
Proof.
  unfold demangle_d. rewrite starts_symbol_prefix. cbn [bind]. split.
  - intros H. destruct (d_prefix s); [|reflexivity]. inv_ok.
    repeat match goal with x : _ * _ |- _ => destruct x end. inv_ok.
  - now intros ->.
Qed.

(** ** Inputs outside of the grammar *)

(** What does not start with an underscore is a plain identifier. *)
Lemma name_part_other (next : parser bytes) d s n :
  match s with c :: _ => (c =c "_") = false | [] => True end ->
  name_part next d (PAt s) n
  = (let* d := append_n d (PAt s) n in Ok (d, padd (PAt s) n, false)).
Proof.
  intros Hs. unfold name_part.
  assert (starts_template (PAt s) = Ok false) as ->.
  { unfold starts_template. destruct s as [|c s]; [reflexivity|]. cbn. now rewrite Hs. }
  assert (forall lit k, strncmp_at s ("_"%char :: lit) (S k) = false) as Hc.
  { intros lit k. destruct s as [|c s]; [reflexivity|]. cbn -[Ascii.eqb]. now rewrite Hs. }
  destruct (5 <=? n), (n =? 5), (n =? 11); cbn [bind strncmp_eq list_ascii_of_string];
    rewrite ?Hc; reflexivity.
Qed.

(** A count that runs past the end. The length in front of an identifier is trusted: when
    it exceeds what is left of the symbol, the demangler reads out of bounds. *)
Theorem demangle_overrun (n : Z) (id : bytes) :
  Z.of_nat (length id) < n <= LONG_MAX ->
  match id with c :: _ => isdigit c = false /\ (c =c "_") = false | [] => True end ->
  demangle_d (T:=bytes) (B "_D" ++ dec n ++ id) = Fail OutOfBounds.
Proof.
  intros Hn Hid. unfold demangle_d. rewrite starts_symbol_prefix.
  destruct (dec_count n) as (c & s & E & Hc); [lia|].
  replace (d_prefix _) with true by (rewrite E; cbn; now rewrite Hc). cbn [bind].
  replace (padd (PAt (B "_D" ++ dec n ++ id)) 2) with (PAt (dec n ++ id))
    by (symmetry; apply (padd_app (B "_D"))).
  cbn [new_string bytes_ops bind]. set (k := length _). clearbody k.
  change (next_type (T:=bytes) (S k)) with (next_type_step (next_type (T:=bytes) k)).
  rewrite E at 1. cbn [app]. rewrite step_count by assumption.
  change (c :: s ++ id) with ((c :: s) ++ id). rewrite <- E.
  unfold qualified_name. cbn [plen].
  destruct (rd_count n id ltac:(lia)) as (c' & E' & Hc'). cbn [name_parts is_null].
  rewrite E'. cbn [bind].
  assert (no_digit id) by (destruct id; [exact I | apply Hid]).
  rewrite Hc', strtol_head by (assumption || lia). cbn [bind].
  rewrite name_part_other by (destruct id; [exact I | apply Hid]).
  cbn [append_n bytes_ops load padd].
  replace (n <=? Z.of_nat (length id)) with false by lia.
  destruct (n <=? _); [|reflexivity]. cbn [bind].
  rewrite length_app. destruct (dec_not_nil n ltac:(lia)); reflexivity.
Qed.

Lemma demangle_overrun_witness : demangle_d (T:=bytes) (B "_D2a") = Fail OutOfBounds.
Proof. apply (demangle_overrun 2 (B "a")); vm_compute; split; discriminate || reflexivity. Defined.

Fixpoint copies (n : nat) (s : bytes) : bytes :=
  match n with O => [] | S n => s ++ copies n s end.

Lemma tuple_rounds_null k n d e : 0 < Z.of_nat n ->
  tuple_rounds (T:=bytes) (next_type n) k d e PNull
  = Ok (d ++ copies k (B ", "), match k with O => e | _ => [] end, PNull).
Proof.
  intros Hn. revert d e. destruct n as [|n]; [lia|]. clear Hn.
  assert (forall d', next_type (T:=bytes) (S n) d' PNull true = Ok (d', PNull)) as Hnull
    by reflexivity.
  induction k as [|k IH]; intros d e; cbn [tuple_rounds copies]; [now rewrite app_nil_r|].
  cbn [truncate bytes_ops bind]. rewrite Hnull. cbn [bind].
  change (str (@nil ascii)) with (PAt []). rewrite append_text by reflexivity.
  cbn [bind]. rewrite append_text by reflexivity. cbn [bind].
  rewrite IH. rewrite app_nil_r, <- app_assoc. now destruct k.
Qed.

(** the element count of a tuple is not checked against the input: the symbol
    [_D1aB<n>], of about twenty bytes, is demangled to a text of [2 * n] bytes. *)
Theorem tuple_count_unchecked (n : Z) :
  2 <= n <= LONG_MAX ->
  demangle_d (T:=bytes) (B "_D1aB" ++ dec n)
  = Ok (Some (B "aTuple[" ++ copies (Z.to_nat (n - 1)) (B ", ") ++ B "]")).
Proof.
  intros Hn.
  set (k := Z.to_nat (n - 1)). set (t := copies k (B ", ")).
  assert (no_nul t = true) as Ht by (unfold t; clear; induction k; cbn; auto).
  unfold demangle_d. rewrite starts_symbol_prefix.
  change (d_prefix _) with true. cbn [bind new_string bytes_ops].
  replace (padd (PAt (B "_D1aB" ++ dec n)) 2)
    with (PAt (flat_map mangle_part [QId (B "a")] ++ B "B" ++ dec n))
    by (symmetry; apply (padd_app (B "_D"))).
  pose proof (dec_not_nil n ltac:(lia)) as Hd. rewrite length_app.
  change (length (B "_D1aB")) with 5%nat. cbn [Nat.add].
  set (m := S (S (S (length (dec n))))).
  rewrite path_declares; [|discriminate|apply path_good|reflexivity|reflexivity|].
  2:{ replace (length (flat_map mangle_part _)) with 2%nat by reflexivity. lia. }
  change (next_type (T:=bytes) (S (S m))) with (next_type_step (next_type (T:=bytes) (S m))) at 1.
  change ([] ++ show_path [QId (B "a")]) with (B "a").
  cbn [app list_ascii_of_string]. rewrite step_plain by reflexivity.
  change (type_switch _ ?d ?p _ _) with (tuple (next_type (T:=bytes) (S m)) d p).
  rewrite tuple_unfold. rewrite append_text by reflexivity. cbn [bind pnext].
  rewrite <- (app_nil_r (dec n)), strtol_head by (exact I || lia). cbn [bind new_string bytes_ops].
  fold k. replace k with (S (Nat.pred k)) by lia. cbn [tuple_rounds truncate bytes_ops bind].
  rewrite next_type_end by lia. cbn [bind str bytes_ops].
  rewrite append_text by reflexivity. cbn [bind]. rewrite append_text by reflexivity. cbn [bind].
  rewrite tuple_rounds_null by lia. cbn [bind].
  replace (1 <=? n) with true by lia.
  change (next_type (T:=bytes) (S m) [] PNull true) with (@Ok (bytes * cptr) ([], PNull)).
  cbn [bind str bytes_ops]. rewrite append_text by reflexivity. cbn [bind].
  rewrite append_text by reflexivity. cbn [bind nested_symbols is_null plen].
  set (out := _ ++ B "]").
  assert (out = B "aTuple[" ++ t ++ B "]") as ->.
  { unfold out, t. replace k with (S (Nat.pred k)) at 2 by lia. cbn [copies].
    now rewrite !app_nil_r, <- !app_assoc. }
  rewrite strndup_all; [reflexivity|]. now rewrite !no_nul_app, Ht.
Qed.

Lemma tuple_count_unchecked_witness :
  demangle_d (T:=bytes) (B "_D1aB5") = Ok (Some (B "aTuple[, , , , ]")).
Proof. apply (tuple_count_unchecked 5). vm_compute. split; discriminate. Defined.

(** ** Floating-point arguments *)

(** The bytes that a numeral takes in the buffer of [parse_real]: sign, [0x], the digits with
    a point after the second, [P], a sign, the exponent and the terminator. *)
Definition real_room (neg : bool) (ds es : bytes) : nat :=
  ((if neg then 1 else 0) + 2 + length ds + (if 2 <=? length ds then 1 else 0)
   + 2 + length es + 1)%nat.

(** [fills m n rest]: the buffer has [n] bytes and [rest] is left, or [n] was too much. *)
Definition fills (m : res (bytes * bytes)) (n : nat) (rest : bytes) : Prop :=
  if (n <=? REAL_BUFFER)%nat
  then exists buf, m = Ok (rest, buf) /\ length buf = n
  else m = Fail BufferOverflow.

Lemma put_fills buf c : (length buf <= REAL_BUFFER)%nat ->
  if (S (length buf) <=? REAL_BUFFER)%nat
  then put buf c = Ok (buf ++ [c]) /\ length (buf ++ [c]) = S (length buf)
  else put buf c = Fail BufferOverflow.
Proof.
  intros H. unfold put. rewrite length_app. cbn [length].
  destruct (Nat.leb_spec (S (length buf)) REAL_BUFFER), (Nat.ltb_spec (length buf) REAL_BUFFER);
    try lia; [split; [reflexivity | lia] | reflexivity].
Qed.

(** Runs one [put]; when it overflows, so does the whole. *)
Ltac put_step :=
  match goal with
  | |- context [put ?b ?c] =>
      let H := fresh in let E := fresh "Hput" in let L := fresh "Hlen" in
      pose proof (put_fills b c ltac:(lia)) as H;
      destruct (Nat.leb_spec (S (length b)) REAL_BUFFER);
      [destruct H as [E L]; rewrite E; cbn [bind]; clear E | rewrite H; cbn [bind]]
  end.

Lemma fills_eq m n n' rest : fills m n rest -> n = n' -> fills m n' rest.
Proof. now intros H <-. Qed.

Lemma fills_over n rest : (REAL_BUFFER < n)%nat -> fills (Fail BufferOverflow) n rest.
Proof.
  intros H. unfold fills. now destruct (Nat.leb_spec n REAL_BUFFER); [lia|].
Qed.

Definition mantissa_room (ds : bytes) (k : nat) : nat :=
  (length ds + (if (k <=? 1) && (2 <=? k + length ds) then 1 else 0))%nat.

Lemma real_mantissa_fills ds c r : forallb isxdigit ds = true -> isxdigit c = false ->
  forall buf k, (length buf <= REAL_BUFFER)%nat ->
  fills (real_mantissa (ds ++ c :: r) buf k) (length buf + mantissa_room ds k) (c :: r).
Proof.
  intros Hd Hc. induction ds as [|e ds IH]; cbn [forallb app real_mantissa]; intros buf k Hb.
  - rewrite Hc. unfold mantissa_room. cbn [length].
    replace (_ && _) with false by lia. rewrite Nat.add_0_r. unfold fills.
    destruct (Nat.leb_spec (length buf) REAL_BUFFER); [eauto | lia].
  - cbn in Hd. apply andb_true_iff in Hd as [-> Hd]. specialize (IH Hd).
    unfold mantissa_room in *. cbn [length]. put_step.
    + destruct (Nat.eqb_spec k 1) as [->|Hk].
      * put_step.
        -- rewrite length_app in *. cbn [length] in *.
           specialize (IH ((buf ++ [e]) ++ ["."%char]) 2%nat).
           rewrite !length_app in IH. cbn [length] in IH.
           cbn [Nat.leb andb] in IH. apply (fills_eq _ _ _ _ (IH ltac:(lia))). cbn. lia.
        -- apply fills_over. rewrite length_app in *. cbn in *. lia.
      * cbn [bind]. specialize (IH (buf ++ [e]) (S k) ltac:(lia)). rewrite length_app in *.
        cbn [length] in *.
        apply (fills_eq _ _ _ _ IH).
        destruct (Nat.leb_spec (S k) 1), (Nat.leb_spec k 1), (Nat.leb_spec 2 (S k + length ds)),
          (Nat.leb_spec 2 (k + S (length ds))); cbn; lia.
    + apply fills_over. lia.
Qed.

Lemma real_exponent_fills es r : forallb isxdigit es = true ->
  match r with c :: _ => isxdigit c = false | [] => True end ->
  forall buf, (length buf <= REAL_BUFFER)%nat ->
  fills (real_exponent (es ++ r) buf) (length buf + length es) r.
Proof.
  intros He Hr. induction es as [|e es IH]; cbn [forallb app]; intros buf Hb.
  - cbn [length]. rewrite Nat.add_0_r. unfold fills.
    destruct (Nat.leb_spec (length buf) REAL_BUFFER); [|lia].
    destruct r as [|c r]; cbn; [eauto | rewrite Hr; eauto].
  - cbn in He. apply andb_true_iff in He as [Hx He]. cbn [real_exponent]. rewrite Hx.
    specialize (IH He). cbn [length]. put_step.
    + specialize (IH (buf ++ [e]) ltac:(lia)). rewrite length_app in *. cbn [length] in *.
      replace (length buf + S (length es))%nat with (length buf + 1 + length es)%nat by lia.
      exact IH.
    + apply fills_over. lia.
Qed.

Lemma xdigit_not_N c : isxdigit c = true ->
  (c =c "N") = false /\ (c =c "I") = false /\ (c =c "P") = false.
Proof.
  intros H. repeat split; apply Ascii.eqb_neq; intros ->; discriminate H.
Qed.

(** None of the special words starts a numeral. *)
Lemma real_no_word (neg : bool) ds r :
  forallb isxdigit ds = true ->
  let s := (if neg then B "N" else []) ++ ds ++ B "P" ++ r in
  strncmp_at s (B "NAN") 3 = false /\ strncmp_at s (B "INF") 3 = false
  /\ strncmp_at s (B "NINF") 4 = false
  /\ rd (PAt s) 0 = Ok (if neg then "N"%char else hd "P"%char ds)
  /\ (hd "P"%char ds =c "N") = false.
Proof.
  intros Hd. destruct ds as [|a ds]; cbn in Hd; bools; cbn [hd].
  - destruct neg; cbn; auto.
  - match goal with H : isxdigit a = true |- _ => destruct (xdigit_not_N a H) as (Hn & Hi & Hp) end.
    destruct neg; cbn -[Ascii.eqb]; rewrite ?Hn, ?Hi; repeat split.
    destruct (Ascii.eqb_spec a "A") as [->|]; [|reflexivity].
    destruct ds as [|b ds]; cbn -[Ascii.eqb] in *; bools; [reflexivity|].
    match goal with H : isxdigit b = true |- _ => destruct (xdigit_not_N b H) as (-> & _) end.
    reflexivity.
Qed.

Lemma append_some d s : exists t, append (T:=bytes) d (PAt s) = Ok (d ++ t).
Proof.
  unfold append. cbn [cstr bind append_n bytes_ops load].
  pose proof (cstr_of_length s).
  destruct (Z.leb_spec (Z.of_nat (length (cstr_of s))) (Z.of_nat (length s) + 1)); [|lia].
  cbn [bind]. eauto.
Qed.

(** From the [P] on: marker, sign, digits and terminator. *)
Lemma real_tail (eneg : bool) es rest d buf :
  forallb isxdigit es = true -> es <> [] ->
  match rest with c :: _ => isxdigit c = false | [] => True end ->
  (length buf <= REAL_BUFFER)%nat ->
  let m :=
    let* buffer := put buf "P"%char in
    let s := (if eneg then B "N" else []) ++ es ++ rest in
    let* c := rd (PAt s) 0 in
    let* (s, buffer) :=
      if c =c "N" then let* buffer := put buffer "-"%char in Ok (tl s, buffer)
      else let* buffer := put buffer "+"%char in Ok (s, buffer) in
    let* (s, buffer) := real_exponent s buffer in
    let* _ := put buffer NUL in
    let* dest := append (T:=bytes) d (PAt (real_text buffer)) in
    Ok (dest, PAt s) in
  if (length buf + 2 + length es + 1 <=? REAL_BUFFER)%nat
  then exists t, m = Ok (d ++ t, PAt rest) else m = Fail BufferOverflow.
Proof.
  intros He Hne Hr Hb. cbn zeta.
  assert (REAL_BUFFER = 64)%nat as Hsz by reflexivity.
  remember (length buf + 2 + length es + 1)%nat as total eqn:Ht.
  put_step; [|destruct (Nat.leb_spec total REAL_BUFFER); [lia | reflexivity]].
  set (sign := if eneg then "-"%char else "+"%char).
  replace (let* c := rd _ 0 in _) with
    (let* buffer := put (buf ++ ["P"%char]) sign in
     let* (s, buffer) := real_exponent (es ++ rest) buffer in
     let* _ := put buffer NUL in
     let* dest := append (T:=bytes) d (PAt (real_text buffer)) in
     Ok (dest, PAt s)).
  2:{ unfold sign. destruct eneg; cbn [app list_ascii_of_string rd rd_at bind tl].
      - cbn. now destruct (put _ _).
      - destruct es as [|e es]; [congruence|]. cbn [app rd rd_at bind].
        cbn in He. apply andb_true_iff in He as [Hx _]. destruct (xdigit_not_N e Hx) as (-> & _).
        now destruct (put _ _). }
  put_step; [|destruct (Nat.leb_spec total REAL_BUFFER); [lia | reflexivity]].
  set (buf1 := (buf ++ _) ++ _) in *.
  pose proof (real_exponent_fills es rest He Hr buf1 ltac:(lia)) as Hx. unfold fills in Hx.
  destruct (Nat.leb_spec (length buf1 + length es) REAL_BUFFER).
  - destruct Hx as (buf2 & -> & Hb2). cbn [bind].
    put_step; [|destruct (Nat.leb_spec total REAL_BUFFER); [lia | reflexivity]].
    destruct (append_some d (real_text buf2)) as (t & ->). cbn [bind].
    destruct (Nat.leb_spec total REAL_BUFFER); [eauto | lia].
  - rewrite Hx. cbn [bind]. destruct (Nat.leb_spec total REAL_BUFFER); [lia | reflexivity].
Qed.

(** The 64-byte buffer of [parse_real]. A numeral with the hexadecimal digits [ds] and
    [es] is converted, and exactly it is consumed, when it fits in the buffer with its sign,
    point and terminator; otherwise the stack buffer is overflown. *)
Theorem parse_real_buffer (neg eneg : bool) (ds es rest d : bytes) :
  forallb isxdigit ds = true -> forallb isxdigit es = true -> es <> [] ->
  match rest with c :: _ => isxdigit c = false | [] => True end ->
  let source := (if neg then B "N" else []) ++ ds ++ B "P"
                ++ (if eneg then B "N" else []) ++ es ++ rest in
  if (real_room neg ds es <=? REAL_BUFFER)%nat
  then exists t, parse_real d (PAt source) = Ok (d ++ t, PAt rest)
  else parse_real d (PAt source) = Fail BufferOverflow.
Proof.
  intros Hd He Hne Hr source.
  destruct (real_no_word neg ds ((if eneg then B "N" else []) ++ es ++ rest) Hd)
    as (H1 & H2 & H3 & H4 & H5). fold source in H1, H2, H3, H4.
  unfold parse_real. cbn [strncmp_eq]. rewrite H1, H2, H3, H4. cbn [bind text].
  set (buf0 := if neg then ["-"%char] else []).
  set (tl0 := ds ++ B "P" ++ (if eneg then B "N" else []) ++ es ++ rest).
  replace (if _ =c "N" then _ else _) with (@Ok (bytes * bytes) (tl0, buf0))
    by (unfold buf0, tl0, source; destruct neg; [reflexivity | now rewrite H5]).
  cbn [bind].
  assert (length buf0 = if neg then 1 else 0)%nat as Hb0 by (unfold buf0; now destruct neg).
  assert (length buf0 <= 1)%nat by (destruct neg; lia).
  assert (REAL_BUFFER = 64)%nat as Hsz by reflexivity.
  do 2 (put_step; [|lia]).
  set (buf2 := (buf0 ++ _) ++ _) in *. assert (length buf2 = length buf0 + 2)%nat as Hb2 by lia.
  pose proof (real_mantissa_fills ds "P" ((if eneg then B "N" else []) ++ es ++ rest) Hd eq_refl
    buf2 0 ltac:(lia)) as Hm.
  change (ds ++ "P"%char :: _) with tl0 in Hm. unfold fills in Hm.
  remember (real_room neg ds es) as total eqn:Ht.
  assert (total = length buf2 + mantissa_room ds 0 + 2 + length es + 1)%nat as Htot
    by (subst total; rewrite Hb2, Hb0; unfold real_room, mantissa_room; cbn; lia).
  destruct (Nat.leb_spec (length buf2 + mantissa_room ds 0) REAL_BUFFER) as [Hroom|Hroom].
  - destruct Hm as (buf3 & -> & Hb3). cbn [bind rd rd_at tl].
    rewrite Htot, <- Hb3. apply (real_tail eneg es rest d buf3 He Hne Hr). lia.
  - rewrite Hm. cbn [bind]. destruct (Nat.leb_spec total REAL_BUFFER); [lia | reflexivity].
Qed.

Lemma parse_real_buffer_witness :
  (exists t, parse_real [] (PAt (B "N8PN3Z")) = Ok ([] ++ t, PAt (B "Z")))
  /\ parse_real [] (PAt (repeat "8"%char 60 ++ B "P0")) = Fail BufferOverflow.
Proof.
  split.
  - apply (parse_real_buffer true true (B "8") (B "3") (B "Z") []); reflexivity || discriminate.
  - apply (parse_real_buffer false false (repeat "8"%char 60) (B "0") [] []);
      reflexivity || discriminate.
Defined.

(** ** The replacements of library functions *)

Section Memory.
Local Open Scope nat_scope.

Lemma nth_error_update (m : bytes) d c i : d < length m ->
  nth_error (firstn d m ++ c :: skipn (S d) m) i
  = if i =? d then Some c else nth_error m i.
Proof.
  intros Hd. destruct (Nat.eqb_spec i d) as [->|Hne].
  - rewrite nth_error_app2; rewrite length_firstn; [|lia].
    replace (d - Nat.min d (length m)) with 0 by lia. reflexivity.
  - destruct (Nat.lt_ge_cases i d).
    + rewrite nth_error_app1 by (rewrite length_firstn; lia).
      rewrite nth_error_firstn. destruct (Nat.ltb_spec i d); [reflexivity | lia].
    + rewrite nth_error_app2; rewrite length_firstn; [|lia].
      replace (i - Nat.min d (length m)) with (S (i - d - 1)) by lia. cbn [nth_error].
      rewrite nth_error_skipn. f_equal. lia.
Qed.

Lemma update_length (m : bytes) d c : d < length m ->
  length (firstn d m ++ c :: skipn (S d) m) = length m.
Proof. intros H. rewrite length_app, length_firstn. cbn [length]. rewrite length_skipn. lia. Qed.

(** What lies at [i] after [n] bytes were copied from [src] to [dest]. *)
Definition copied (m : bytes) (dest src n i : nat) : option ascii :=
  if (dest <=? i) && (i <? dest + n) then nth_error m (src + (i - dest)) else nth_error m i.

Lemma copy_within_nth m dest src n i : dest + n <= length m -> src + n <= length m ->
  nth_error (Util.copy_within m dest src n) i = copied m dest src n i.
Proof.
  intros Hd Hs. unfold Util.copy_within, copied.
  destruct (Nat.leb_spec dest i).
  - rewrite nth_error_app2 by (rewrite length_firstn; lia).
    rewrite length_firstn. replace (Nat.min dest (length m)) with dest by lia.
    destruct (Nat.ltb_spec i (dest + n)); cbn [andb].
    + rewrite nth_error_app1 by (rewrite length_firstn, length_skipn; lia).
      rewrite nth_error_firstn, nth_error_skipn.
      destruct (Nat.ltb_spec (i - dest) n); [reflexivity | lia].
    + rewrite nth_error_app2; rewrite length_firstn, length_skipn; [|lia].
      rewrite nth_error_skipn. f_equal. lia.
  - rewrite nth_error_app1 by (rewrite length_firstn; lia). cbn [andb].
    rewrite nth_error_firstn. destruct (Nat.ltb_spec i dest); [reflexivity | lia].
Qed.

Lemma memcpy_nth n : forall m dest src i,
  dest + n <= length m -> src + n <= length m -> dest + n <= src \/ src + n <= dest ->
  nth_error (Util.memcpy m dest src n) i = copied m dest src n i.
Proof.
  induction n as [|n IH]; intros m dest src i Hd Hs Hap; cbn [Util.memcpy].
  - unfold copied. destruct (Nat.leb_spec dest i), (Nat.ltb_spec i (dest + 0)); cbn; auto; lia.
  - destruct (nth_error m src) as [c|] eqn:E; [|apply nth_error_None in E; lia].
    rewrite IH by (rewrite ?update_length; lia). unfold copied.
    rewrite !nth_error_update by lia.
    destruct (Nat.eqb_spec i dest) as [->|].
    + destruct (Nat.leb_spec (S dest) dest); [lia|]. cbn [andb].
      destruct (Nat.leb_spec dest dest), (Nat.ltb_spec dest (dest + S n)); cbn; try lia.
      now rewrite Nat.sub_diag, Nat.add_0_r, E.
    + destruct (Nat.leb_spec (S dest) i), (Nat.leb_spec dest i),
        (Nat.ltb_spec i (S dest + n)), (Nat.ltb_spec i (dest + S n)); cbn [andb]; try lia; try reflexivity.
      destruct (Nat.eqb_spec (S src + (i - S dest)) dest); [lia|]. f_equal. lia.
Qed.

(** the replacement of [memmove] copies [n] bytes between any two ranges of a block as if
    through a temporary, whether the ranges overlap or not, and changes nothing else; the
    plain forward copy is only taken for ranges that it copies correctly. *)
Theorem DD_memmove_correct (m : bytes) (dest src n : nat) :
  dest + n <= length m -> src + n <= length m ->
  forall i, nth_error (Util.DD_memmove m dest src n) i
            = if (dest <=? i) && (i <? dest + n)
              then nth_error m (src + (i - dest)) else nth_error m i.
Proof.
  intros Hd Hs i. change (if _ && _ then _ else _) with (copied m dest src n i).
  unfold Util.DD_memmove. destruct (_ || _) eqn:E.
  - apply memcpy_nth; try assumption. lia.
  - now apply copy_within_nth.
Qed.

End Memory.

Lemma DD_memmove_correct_witness :
  Util.DD_memmove (B "abcdef") 1 0 4 = B "aabcdf"
  /\ nth_error (Util.DD_memmove (B "abcdef") 1 0 4) 4 = Some "d"%char.
Proof.
  split; [reflexivity|].
  rewrite (DD_memmove_correct (B "abcdef") 1 0 4); [reflexivity| |]; cbn; lia.
Defined.

(** The replacement of [strtol] agrees with the C library on every numeral that the
    parser hands to it: an optional sign and digits whose value fits in a [long]. *)
Theorem DD_strtol_10_correct (sign : option bool) (ds r : bytes) :
  let neg := match sign with Some true => true | _ => false end in
  let s := match sign with Some true => B "-" | Some false => B "+" | None => [] end ++ ds ++ r in
  forallb isdigit ds = true -> ds <> [] ->
  match r with c :: _ => isdigit c = false | [] => True end ->
  dec_val ds <= LONG_MAX ->
  Util.DD_strtol_10 s = (if neg then - dec_val ds else dec_val ds, r)
  /\ strtol_at s = Util.DD_strtol_10 s.
Proof.
  intros neg s Hd Hne Hr Hv. pose proof (dec_val_nonneg ds Hd) as Hnn.
  assert (Util.DD_strtol_10 s = (if neg then - dec_val ds else dec_val ds, r)) as E.
  { unfold s, neg, Util.DD_strtol_10. destruct sign as [[|]|]; cbn [app list_ascii_of_string].
    - cbn -[span dec_val Z.mul]. rewrite span_all by assumption. f_equal; lia.
    - cbn -[span dec_val Z.mul]. rewrite span_all by assumption. f_equal; lia.
    - destruct ds as [|c ds']; [congruence|]. cbn [app].
      pose proof Hd as Hd'. cbn [forallb] in Hd'. apply andb_true_iff in Hd' as [Hc _].
      destruct (isdigit_not_sign c Hc) as [-> ->].
      change (c :: ds' ++ r) with ((c :: ds') ++ r). rewrite span_all by assumption. f_equal; lia. }
  split; [assumption|]. rewrite E. unfold s, neg.
  assert (clamp_long (dec_val ds) = dec_val ds /\ clamp_long (- dec_val ds) = - dec_val ds) as [C1 C2].
  { unfold clamp_long, LONG_MIN in *. unfold LONG_MAX in *.
    repeat match goal with |- context [?a <? ?b] => destruct (Z.ltb_spec a b) end; lia. }
  destruct sign as [[|]|]; cbn [app list_ascii_of_string].
  - now rewrite (strtol_at_signed true), C2.
  - now rewrite (strtol_at_signed false), C1.
  - now rewrite strtol_at_digits, C1.
Qed.

Lemma DD_strtol_10_correct_witness :
  Util.DD_strtol_10 (B "-12ab") = (-12, B "ab") /\ strtol_at (B "-12ab") = Util.DD_strtol_10 (B "-12ab").
Proof.
  apply (DD_strtol_10_correct (Some true) (B "12") (B "ab")); try reflexivity; vm_compute; discriminate.
Defined.
