(* ===== verification/LongFloat.v ===== *)
(** * Reading and printing [long double] in the C++ library

    [strtold] on any text and the default formatting of [operator<<(ostream&, long double)]
    (six significant digits), both computed exactly over [Z]: what [Decoder::parse_double]
    uses. *)
From S2P Require Import Prelude CLib DString DReal.
Local Open Scope Z_scope.

Module LongFloat.
Import LongDouble(Fin, Inf, div_half_even, round, hex_val).

Inductive t : Type :=
| NaN (neg : bool)
| Num (v : LongDouble.t).

(** [n / d] in the 80-bit format; both are positive. *)
Definition round_ratio (neg : bool) (n d : Z) : LongDouble.t :=
  let guess := Z.log2 n - Z.log2 d in
  let fits := if 0 <=? guess then d * 2 ^ guess <=? n else d <=? n * 2 ^ (- guess) in
  let top := if fits then guess else guess - 1 in
  let unit := Z.max (top - 63) (-16445) in
  let m := if 0 <=? unit then div_half_even n (d * 2 ^ unit)
           else div_half_even (n * 2 ^ (- unit)) d in
  if m =? 0 then Fin neg 0 0
  else if 16383 <? Z.log2 m + unit then Inf neg else Fin neg m unit.

(** [m * 10 ^ e]; exponents far out of range are decided first. *)
Definition round_decimal (neg : bool) (m e : Z) : LongDouble.t :=
  if m =? 0 then Fin neg 0 0 else
  let magnitude := Z.of_nat (length (dec m)) + e in
  if 5000 <? magnitude then Inf neg
  else if magnitude <? -5000 then Fin neg 0 0
  else if 0 <=? e then round_ratio neg (m * 10 ^ e) 1 else round_ratio neg m (10 ^ (- e)).

Definition lower (c : ascii) : ascii := if isupper c then char_of_int (code c + 32) else c.

Fixpoint strip_word (w s : bytes) : option bytes :=
  match w, s with
  | [], _ => Some s
  | a :: w, c :: s => if Ascii.eqb a (lower c) then strip_word w s else None
  | _ :: _, [] => None
  end.

(** The digits around a decimal point. *)
Definition split_point (digit : ascii -> bool) (s : bytes) : bytes * bytes * bytes :=
  let '(ip, r) := span digit s in
  match r with
  | c :: r' => if c =c "." then let '(fp, r'') := span digit r' in (ip, fp, r'')
               else (ip, [], r)
  | [] => (ip, [], r)
  end.

(** An exponent behind its letter: nothing is read when it has no digits. *)
Definition exponent (letter : ascii) (s : bytes) : Z * bytes :=
  match s with
  | c :: r =>
      if Ascii.eqb (lower c) letter then
        let '(neg, r') := match r with
                          | g :: r' => if g =c "-" then (true, r')
                                       else if g =c "+" then (false, r') else (false, r)
                          | [] => (false, r)
                          end in
        let '(es, r'') := span isdigit r' in
        match es with
        | [] => (0, s)
        | _ => (if (neg : bool) then - dec_val es else dec_val es, r'')
        end
      else (0, s)
  | [] => (0, s)
  end.

(** [nan] with an optional sequence in parentheses. *)
Definition nan_tail (s : bytes) : bytes :=
  match s with
  | c :: r =>
      if c =c "(" then
        let '(_, r') := span (fun c => isdigit c || isupper c || isupper (char_of_int (code c - 32))
                                       || (c =c "_")) r in
        match r' with
        | e :: r'' => if e =c ")" then r'' else s
        | [] => s
        end
      else s
  | [] => s
  end.

Definition hex_number (neg : bool) (s : bytes) : option (LongDouble.t * bytes) :=
  let '(ip, fp, r) := split_point isxdigit s in
  match ip ++ fp with
  | [] => None
  | ds =>
      let '(e, r) := exponent "p" r in
      Some (round neg (hex_val ds) (e - 4 * Z.of_nat (length fp)), r)
  end.

Definition dec_number (neg : bool) (s : bytes) : option (LongDouble.t * bytes) :=
  let '(ip, fp, r) := split_point isdigit s in
  match ip ++ fp with
  | [] => None
  | ds =>
      let '(e, r) := exponent "e" r in
      Some (round_decimal neg (dec_val ds) (e - Z.of_nat (length fp)), r)
  end.

(** [strtold(s, &end)]: the value and the text from [end] on. *)
Definition strtold (s : bytes) : t * bytes :=
  let s0 := snd (span isspace s) in
  let '(neg, s1) := match s0 with
                    | c :: r => if c =c "-" then (true, r)
                                else if c =c "+" then (false, r) else (false, s0)
                    | [] => (false, s0)
                    end in
  match strip_word (B "infinity") s1 with
  | Some r => (Num (Inf neg), r)
  | None =>
  match strip_word (B "inf") s1 with
  | Some r => (Num (Inf neg), r)
  | None =>
  match strip_word (B "nan") s1 with
  | Some r => (NaN neg, nan_tail r)
  | None =>
      let hex := match strip_word (B "0x") s1 with Some r => hex_number neg r | None => None end in
      match hex with
      | Some (v, r) => (Num v, r)
      | None =>
          match dec_number neg s1 with
          | Some (v, r) => (Num v, r)
          | None => (Num (Fin false 0 0), s)
          end
      end
  end end end.

(** ** [operator<<] *)

Definition ratio (m e : Z) : Z * Z := if 0 <=? e then (m * 2 ^ e, 1) else (m, 2 ^ (- e)).

(** The decimal exponent of [n / d]. *)
Definition exponent10 (n d : Z) : Z :=
  if d <=? n then Z.of_nat (length (dec (n / d))) - 1
  else
    let k := Z.of_nat (length (dec (d / n))) in
    if d <=? n * 10 ^ (k - 1) then - (k - 1) else - k.

Fixpoint strip_zeros (r : bytes) : bytes :=
  match r with
  | c :: r' => if c =c "0" then strip_zeros r' else r
  | [] => []
  end.

(** A fraction without its trailing zeros, with its point if anything is left. *)
Definition fraction (s : bytes) : bytes :=
  match rev (strip_zeros (rev s)) with [] => [] | f => B "." ++ f end.

Definition digits6 (v : Z) : bytes := let s := dec v in repeat "0"%char (6 - length s) ++ s.

Definition print (x : t) : bytes :=
  let sign (neg : bool) := if neg then B "-" else [] in
  match x with
  | NaN neg => sign neg ++ B "nan"
  | Num (Inf neg) => sign neg ++ B "inf"
  | Num (Fin neg m e) =>
      sign neg ++
      if m =? 0 then B "0"
      else
        let '(n, d) := ratio m e in
        let x := exponent10 n d in
        let v := if 5 <=? x then div_half_even n (d * 10 ^ (x - 5))
                 else div_half_even (n * 10 ^ (5 - x)) d in
        let '(v, x) := if 1000000 <=? v then (100000, x + 1) else (v, x) in
        let s := digits6 v in
        if (x <? -4) || (6 <=? x) then
          firstn 1 s ++ fraction (skipn 1 s) ++ B "e" ++ (if x <? 0 then B "-" else B "+")
          ++ (if Z.abs x <? 10 then B "0" else []) ++ dec (Z.abs x)
        else if x <? 0 then
          B "0" ++ fraction (repeat "0"%char (Z.to_nat (- x - 1)) ++ s)
        else firstn (Z.to_nat (x + 1)) s ++ fraction (skipn (Z.to_nat (x + 1)) s)
  end.

End LongFloat.

Definition shows (s out : bytes) : bool :=
  if list_eq_dec ascii_dec (LongFloat.print (fst (LongFloat.strtold s))) out then true else false.

Example float_texts :
  shows (B "1.2E") (B "1.2") && shows (B "-0.5") (B "-0.5") && shows (B "1234567") (B "1.23457e+06")
  && shows (B "0.00001") (B "1e-05") && shows (B "100000") (B "100000") && shows (B "0x10p-1") (B "8")
  && shows (B "nan(1)x") (B "nan") && shows (B "-INFINITY") (B "-inf") && shows (B "0.0001") (B "0.0001")
  && shows (B "123.456789") (B "123.457") && shows (B "-0") (B "-0") && shows (B "999999.7") (B "1e+06")
  = true.
Proof. vm_compute. reflexivity. Qed.
