(* ===== verification/Nuts.v ===== *)
(** * The containers of the C++ demangler ([unmangle/nuts/])

    [nuts::fixed_stack], [nuts::static_vector], [nuts::string] and [nuts::substring]. The
    string is modelled twice: as the text it holds, which the decoders work with, and as the
    heap block with its size and capacity; [NString] proves that the second implements the
    first. A failed [NUTS_ASSERT] throws, which is the fault [Thrown]. *)
From S2P Require Import Prelude CLib DString.
Local Open Scope Z_scope.

Definition NUTS_ASSERT (e : bool) : res unit := if e then Ok tt else Fail Thrown.

(** [size_t] arithmetic and its largest value, which is also [npos]. *)
Definition u64 (n : Z) : Z := n mod 2 ^ 64.
Definition NPOS : Z := 2 ^ 64 - 1.

(** ** [fixed_stack<T, N>]: the top is the head of the list *)

Section FixedStack.
  Context {T : Type} (N : nat).

(** A push on a full stack is dropped: [NUTS_EXHAUSTED_FIXED_MEM] is empty. *)
Definition fs_push (v : T) (s : list T) : list T :=
  if (length s <? N)%nat then v :: s else s.

Definition fs_pop (s : list T) : res (list T) :=
  match s with _ :: s => Ok s | [] => Fail Thrown end.

Definition fs_top (s : list T) : res T :=
  match s with v :: _ => Ok v | [] => Fail Thrown end.

End FixedStack.

(** ** [static_vector<T>]: elements in order of insertion, at most [capacity] of them *)

Section StaticVector.
  Context {T : Type}.

Definition sv_push_back (capacity : Z) (v : T) (s : list T) : res (list T) :=
  let* _ := NUTS_ASSERT (Z.of_nat (length s) <? capacity) in
  Ok (s ++ [v]).

Definition sv_at (s : list T) (i : Z) : res T :=
  match nth_error s (Z.to_nat i) with
  | Some v => if i <? Z.of_nat (length s) then Ok v else Fail Thrown
  | None => Fail Thrown
  end.

(** The copy from an offset; an offset past the end leaves the elements uninitialized. *)
Definition sv_copy (s : list T) (offs : Z) : res (list T) :=
  if offs <=? Z.of_nat (length s) then Ok (skipn (Z.to_nat offs) s) else Fail OutOfBounds.

End StaticVector.

(** ** [nuts::string] as the text it holds *)

(** [append(chars, size)]; [chars] is the text up to its terminator. *)
Definition t_append (t : bytes) (chars : bytes) (size : Z) : res bytes :=
  let size := if size =? NPOS then Z.of_nat (length chars) else size in
  if size =? 0 then Ok t
  else
    let* _ := NUTS_ASSERT (size <=? Z.of_nat (length chars)) in
    Ok (t ++ firstn (Z.to_nat size) chars).

(** [prepend(chars, size)] *)
Definition t_prepend (t : bytes) (chars : bytes) : bytes := chars ++ t.

Definition t_rewind (t : bytes) (n : Z) : res bytes :=
  let* _ := NUTS_ASSERT (n <=? Z.of_nat (length t)) in
  Ok (firstn (length t - Z.to_nat n) t).

(** [operator[](i)]: the terminator may be read. *)
Definition t_index (t : bytes) (i : Z) : res ascii :=
  let* _ := NUTS_ASSERT (i <=? Z.of_nat (length t)) in
  Ok (nth (Z.to_nat i) t NUL).

(** ** [nuts::string] as a heap block *)

Module NString.

(** [cells] is [None] while [buf_] is null. *)
Record t : Type := mk { cells : option (list (option ascii)); size : Z; capacity : Z }.

Definition empty : t := mk None 0 0.

Definition min_alloc_size : Z := 256.

Definition block (s : t) : list (option ascii) :=
  match cells s with Some p => p | None => [] end.

(** [allocate]: [A::allocate] throws [bad_alloc] when there is no such block. *)
Definition allocate (n : Z) : res (list (option ascii)) := Impl.xmalloc n.

(** [reallocate_to_fit_extra(size, prefix)]; the old block is freed by the caller. *)
Definition reallocate_to_fit_extra (s : t) (extra : Z) (prefix : option bytes) : res t :=
  let* _ := NUTS_ASSERT (negb (extra =? 0)) in
  let* _ := NUTS_ASSERT (u64 (capacity s - size s) <=? extra) in
  let cap := Z.max (u64 (Z.shiftl (u64 (size s + extra + 1)) 1)) min_alloc_size in
  let* cap :=
    if cap <=? capacity s then
      let cap := u64 (size s + extra + 1) in
      if cap <=? capacity s then Fail OutOfMemory else Ok cap
    else Ok cap in
  let* p := allocate cap in
  match prefix with
  | Some chars =>
      let* p := Impl.write p 0 (map Some (firstn (Z.to_nat extra) chars)) in
      let* p := Impl.write p extra (firstn (Z.to_nat (size s)) (block s)) in
      let size := size s + extra in
      let* p := Impl.poke p size NUL in
      Ok (mk (Some p) size cap)
  | None =>
      (* clone(cap) *)
      let* _ := NUTS_ASSERT (size s + 1 <=? cap) in
      let* p := Impl.write p 0 (firstn (Z.to_nat (size s)) (block s)) in
      let* p := Impl.poke p (size s) NUL in
      Ok (mk (Some p) (size s) cap)
  end.

Definition append (s : t) (chars : bytes) (n : Z) : res t :=
  let n := if n =? NPOS then Z.of_nat (length chars) else n in
  if n =? 0 then Ok s
  else
    let* _ := NUTS_ASSERT (size s <=? capacity s) in
    let* _ := NUTS_ASSERT (n <=? Z.of_nat (length chars)) in
    let* s := if capacity s - size s <=? n then reallocate_to_fit_extra s n None else Ok s in
    let* _ := NUTS_ASSERT (size s + n + 1 <=? capacity s) in
    let* p := Impl.write (block s) (size s) (map Some (firstn (Z.to_nat n) chars)) in
    let size := size s + n in
    let* p := Impl.poke p size NUL in
    Ok (mk (Some p) size (capacity s)).

(** The callers pass the length of the text. *)
Definition prepend (s : t) (chars : bytes) : res t :=
  let n := Z.of_nat (length chars) in
  if n =? 0 then Ok s
  else if capacity s - size s <=? n then reallocate_to_fit_extra s n (Some chars)
  else
    let* _ := NUTS_ASSERT (size s + n + 1 <=? capacity s) in
    let* p := Impl.write (block s) n (firstn (Z.to_nat (size s)) (block s)) in
    let* p := Impl.write p 0 (map Some chars) in
    let size := size s + n in
    let* p := Impl.poke p size NUL in
    Ok (mk (Some p) size (capacity s)).

Definition rewind (s : t) (n : Z) : res t :=
  let* _ := NUTS_ASSERT (n <=? size s) in
  let size := size s - n in
  let* p := match cells s with Some p => Impl.poke p size NUL | None => Fail NullDeref end in
  Ok (mk (Some p) size (capacity s)).

(** [clear] leaves the bytes, and no terminator. *)
Definition clear (s : t) : t := mk (cells s) 0 (capacity s).

End NString.

(** ** [nuts::substring]: a range of another string *)

(** [str_] is the identity of the master string. *)
Record substring : Type := mk_sub { sub_str : nat; sub_pos : Z; sub_len : Z }.

(** The constructor, given the size of the master. *)
Definition substring_new (str : nat) (size pos len : Z) : res substring :=
  let* _ := NUTS_ASSERT ((len =? 0) || (pos <=? size) && (pos + len <=? size)) in
  Ok (mk_sub str pos len).

Definition same_range (a b : substring) : bool :=
  (sub_str a =? sub_str b)%nat && (sub_pos a =? sub_pos b).

(** [equal], given what the two ranges hold at the time of the comparison. *)
Definition substring_equal (a b : substring) (ta tb : bytes) : bool :=
  if negb (sub_len a =? sub_len b) then false
  else if same_range a b then true
  else if list_eq_dec ascii_dec ta tb then true else false.

(** The value of a [char], which is signed. *)
Definition schar (c : ascii) : Z := if code c <? 128 then code c else code c - 256.

(** [std::lexicographical_compare] *)
Fixpoint lex_lt (a b : bytes) : bool :=
  match a, b with
  | _, [] => false
  | [], _ => true
  | x :: a, y :: b =>
      if schar x <? schar y then true
      else if schar y <? schar x then false
      else lex_lt a b
  end.

(** [less] *)
Definition substring_less (a b : substring) (ta tb : bytes) : bool :=
  if same_range a b && (sub_len a =? sub_len b) then false else lex_lt ta tb.
