(* ===== verification/Output.v ===== *)
(** * Output with deferred delimiters and tracked positions ([unmangle/output.h])

    An [Output] is a text that is only appended to (and rewound), with a pending two-character
    delimiter that is written before the next text, and a stack of positions into the text
    that are moved past a delimiter written at their place. *)
From S2P Require Import Prelude CLib DString Nuts.
Local Open Scope Z_scope.

(** [buf] is [None] while the buffer of the string is null; [positions] has its top first.
    [spaceOnce] is the union with [boolAlpha_], which is only used in another configuration. *)
Record Output : Type := mk_output {
  buf : option bytes;
  delim : option bytes;
  spaceOnce : bool;
  substIndex : Z;
  positions : list Z
}.

Definition MAX_POSITIONS : nat := 256.

Definition new_output : Output := mk_output None None false NPOS [].

(** [data()], up to the terminator. *)
Definition content (o : Output) : bytes := match buf o with Some b => b | None => [] end.

Definition osize (o : Output) : Z := Z.of_nat (length (content o)).

Definition set_buf (o : Output) (t : bytes) : Output :=
  mk_output (Some t) (delim o) (spaceOnce o) (substIndex o) (positions o).
Definition set_delim (o : Output) (d : option bytes) : Output :=
  mk_output (buf o) d (spaceOnce o) (substIndex o) (positions o).
Definition set_spaceOnce (o : Output) (b : bool) : Output :=
  mk_output (buf o) (delim o) b (substIndex o) (positions o).
Definition set_substIndex (o : Output) (i : Z) : Output :=
  mk_output (buf o) (delim o) (spaceOnce o) i (positions o).
Definition set_positions (o : Output) (l : list Z) : Output :=
  mk_output (buf o) (delim o) (spaceOnce o) (substIndex o) l.

(** [buf_.append(s, len)]: a null buffer stays null when there is nothing to append. *)
Definition buf_append (o : Output) (s : bytes) (len : Z) : res Output :=
  let* t := t_append (content o) s len in
  match buf o, t with
  | None, [] => Ok o
  | _, _ => Ok (set_buf o t)
  end.

(** [update_pos]: the positions at the end skip the delimiter. *)
Definition update_pos (o : Output) : Output :=
  set_positions o (map (fun p => if p =? osize o then p + 2 else p) (positions o)).

(** What precedes the text in [append]: the pending delimiter, or the space that separates
    [> >] and [operator< <]; [c] is the first character of the text. *)
Definition prepare (o : Output) (c : ascii) : Output :=
  let o :=
    match delim o with
    | Some d => set_delim (set_buf (update_pos o) (content o ++ d)) None
    | None =>
        if c =c ">" then
          (if last (content o) NUL =c ">" then set_buf o (content o ++ B " ") else o)
        else if (c =c "<") && spaceOnce o then set_buf o (content o ++ B " ")
        else o
    end in
  set_spaceOnce o false.

(** The rest of [append]: the text itself. *)
Definition finish (o : Output) (s : bytes) (len : Z) : res Output :=
  let* o := buf_append o s len in
  Ok (if len =? 0 then o else set_substIndex o NPOS).

(** [append(s, len)] for a pointer outside of the buffer; [s] is the text up to its
    terminator. *)
Definition oappend (o : Output) (s : bytes) (len : Z) : res Output :=
  finish (prepare o (hd NUL s)) s len.

(** [append(data() + off, len)]: the pointer is adjusted to the buffer as it is after the
    delimiter. A pointer past the end of the text is not, and reads what is not text. *)
Definition oappend_own (o : Output) (off len : Z) : res Output :=
  match buf o with
  | None => if off =? 0 then Ok o else Fail OutOfBounds
  | Some b =>
      if off <? Z.of_nat (length b) then
        let o := prepare o (hd NUL (skipn (Z.to_nat off) b)) in
        finish o (skipn (Z.to_nat off) (content o)) len
      else if (off =? Z.of_nat (length b)) && (len =? 0) then finish (prepare o NUL) [] 0
      else Fail OutOfBounds
  end.

(** [append(val)] of an object with data and size. *)
Definition oappend_text (o : Output) (s : bytes) : res Output :=
  match s with [] => Ok o | _ => oappend o s (Z.of_nat (length s)) end.

(** The digits of [append(size_t)]: [d] is a power of ten, that divides down to one. *)
Fixpoint digit_scale (fuel : nat) (i d : Z) : Z :=
  match fuel with
  | O => d
  | S fuel => let i := i / 10 in if i =? 0 then d else digit_scale fuel i (u64 (d * 10))
  end.

Fixpoint digits_loop (fuel : nat) (n d : Z) (acc : bytes) : bytes :=
  match fuel with
  | O => acc
  | S fuel =>
      let '(i, n) := if d =? 0 then (n mod 10, n) else (n / d, n mod d) in
      let acc := acc ++ [char_of_int (48 + i)] in
      let d := d / 10 in
      if d =? 0 then acc else digits_loop fuel n d acc
  end.

(** A [size_t] has at most twenty digits. *)
Definition MAX_DIGITS : nat := 20.

Definition size_digits (n : Z) : bytes :=
  digits_loop MAX_DIGITS n (digit_scale MAX_DIGITS n 1) [].

(** [append(size_t n)]: neither the delimiter nor the space is looked at. *)
Definition oappend_size (o : Output) (n : Z) : Output :=
  set_substIndex (set_buf o (content o ++ size_digits n)) NPOS.

Definition orewind (o : Output) (n : Z) : res Output :=
  let* t := t_rewind (content o) n in Ok (set_buf o t).

Definition oindex (o : Output) (i : Z) : res ascii := t_index (content o) i.

(** [substr(pos, size)] of the output with the identity [id]. *)
Definition osubstr (id : nat) (o : Output) (pos size : Z) : res substring :=
  let size := if size =? NPOS then (if pos <=? osize o then osize o - pos else 0) else size in
  substring_new id (osize o) pos size.

(** [Position]: construction, conversion to an index, destruction. *)
Definition push_position (o : Output) : Output :=
  set_positions o (fs_push MAX_POSITIONS (osize o) (positions o)).
Definition position (o : Output) : res Z := fs_top (positions o).
Definition pop_position (o : Output) : res Output :=
  let* l := fs_pop (positions o) in Ok (set_positions o l).

(** [detach(len)]: the text, or null when it is empty. *)
Definition odetach (o : Output) : option bytes :=
  match content o with [] => None | t => Some t end.
