(* ===== verification/OutputCorrect.v ===== *)
(** * What the output of the C++ demangler guarantees ([unmangle/output.h])

    Numbers are printed in decimal, and the tracked positions denote the same piece of text
    however many delimiters are written. *)
From S2P Require Import Prelude CLib DString Nuts Output.
Local Open Scope Z_scope.

(** ** Numbers *)

Abbreviation digit d := (char_of_int (48 + d)).

Lemma dec_aux_eq f n : dec_aux (S f) n [] =
  if n / 10 =? 0 then [digit (n mod 10)] else dec_aux f (n / 10) [] ++ [digit (n mod 10)].
Proof. rewrite <- (dec_aux_app f (n / 10)). reflexivity. Qed.

(** The decimal digits do not depend on the bound, once it is large enough. *)
Lemma dec_aux_fuel f g n : 0 <= n -> n < 2 ^ Z.of_nat (S f) -> n < 2 ^ Z.of_nat (S g) ->
  dec_aux (S f) n [] = dec_aux (S g) n [].
Proof.
  revert g n. induction f as [|f IH]; intros g n Hn Hf Hg;
    rewrite (dec_aux_eq _ n), (dec_aux_eq g n);
    (destruct (Z.eqb_spec (n / 10) 0) as [E|E]; [reflexivity|]).
  - change (2 ^ Z.of_nat 1) with 2 in Hf. exfalso. apply E, Z.div_small. lia.
  - destruct g as [|g].
    { change (2 ^ Z.of_nat 1) with 2 in Hg. exfalso. apply E, Z.div_small. lia. }
    rewrite (Nat2Z.inj_succ (S f)), Z.pow_succ_r in Hf by lia.
    rewrite (Nat2Z.inj_succ (S g)), Z.pow_succ_r in Hg by lia.
    f_equal. apply IH; [apply Z.div_pos | apply Z.div_lt_upper_bound
      | apply Z.div_lt_upper_bound]; lia.
Qed.

Lemma dec_small n : 0 <= n < 10 -> dec n = [digit n].
Proof.
  intros H. unfold dec. rewrite dec_aux_eq.
  rewrite Z.div_small, Z.mod_small by lia. reflexivity.
Qed.

Lemma dec_step n : 10 <= n -> dec n = dec (n / 10) ++ [digit (n mod 10)].
Proof.
  intros H. unfold dec. set (f := Z.to_nat (Z.log2 n)).
  pose proof (dec_fuel n ltac:(lia)) as Hf. fold f in Hf.
  pose proof (Z.div_str_pos n 10 ltac:(lia)) as Hd.
  pose proof (dec_fuel (n / 10) ltac:(lia)) as Hg.
  rewrite dec_aux_eq. destruct (Z.eqb_spec (n / 10) 0); [lia|].
  destruct f as [|f]; [change (2 ^ Z.of_nat 1) with 2 in Hf; lia|].
  f_equal. apply dec_aux_fuel; [lia| |lia].
  rewrite (Nat2Z.inj_succ (S f)), Z.pow_succ_r in Hf by lia.
  apply Z.div_lt_upper_bound; lia.
Qed.

(** [n] as [k + 1] digits, the first one by division by [10 ^ k]. *)
Fixpoint padded (k : nat) (n : Z) : bytes :=
  match k with
  | O => [digit n]
  | S k' => digit (n / 10 ^ Z.of_nat k) :: padded k' (n mod 10 ^ Z.of_nat k)
  end.

Lemma pow10_succ k : 10 ^ Z.of_nat (S k) = 10 * 10 ^ Z.of_nat k.
Proof. rewrite Nat2Z.inj_succ, Z.pow_succ_r by lia. reflexivity. Qed.

Lemma pow10_pos k : 0 < 10 ^ Z.of_nat k.
Proof. apply Z.pow_pos_nonneg; lia. Qed.

Lemma padded_last k n : 0 <= n < 10 ^ Z.of_nat (S (S k)) ->
  padded (S k) n = padded k (n / 10) ++ [digit (n mod 10)].
Proof.
  revert n. induction k as [|k IH]; intros n Hn.
  - cbn [padded app]. change (10 ^ Z.of_nat 1) with 10. reflexivity.
  - change (padded (S (S k)) n) with
      (digit (n / 10 ^ Z.of_nat (S (S k))) :: padded (S k) (n mod 10 ^ Z.of_nat (S (S k)))).
    pose proof (pow10_pos (S k)). rewrite (pow10_succ (S k)) in *.
    rewrite IH by (rewrite pow10_succ; apply Z.mod_pos_bound; lia).
    cbn [padded app]. rewrite Z.div_div by lia.
    replace (n mod (10 * 10 ^ Z.of_nat (S k)) / 10) with ((n / 10) mod 10 ^ Z.of_nat (S k)).
    2:{ rewrite Z.rem_mul_r by lia. rewrite Z.mul_comm, Z.add_comm, Z.div_add_l by lia.
        rewrite (Z.div_small (n mod 10)) by (apply Z.mod_pos_bound; lia). lia. }
    replace ((n mod (10 * 10 ^ Z.of_nat (S k))) mod 10) with (n mod 10).
    2:{ rewrite Z.rem_mul_r by lia. rewrite Z.mul_comm, Z.mod_add by lia.
        now rewrite Z.mod_mod by lia. }
    reflexivity.
Qed.

(** The number of digits of [n], less one. *)
Definition magnitude (k : nat) (n : Z) : Prop :=
  (k = O /\ 0 <= n < 10) \/ (10 ^ Z.of_nat k <= n < 10 ^ Z.of_nat (S k)).

Lemma magnitude_step k n : magnitude (S k) n -> magnitude k (n / 10) /\ 10 <= n.
Proof.
  intros [[E _]|H]; [discriminate|]. pose proof (pow10_pos k).
  rewrite !pow10_succ in *. split; [right|lia]. rewrite pow10_succ.
  split; [apply Z.div_le_lower_bound | apply Z.div_lt_upper_bound]; lia.
Qed.

Lemma magnitude_nonneg k n : magnitude k n -> 0 <= n.
Proof. pose proof (pow10_pos k). intros [Hm|Hm]; lia. Qed.

Lemma magnitude_exists m n : 0 <= n < 10 ^ Z.of_nat (S m) ->
  exists k, (k <= m)%nat /\ magnitude k n.
Proof.
  induction m as [|m IH]; intros Hn.
  - exists O. split; [lia|]. left. change (10 ^ Z.of_nat 1) with 10 in Hn. lia.
  - destruct (Z.ltb_spec n (10 ^ Z.of_nat (S m))).
    + destruct IH as (k & Hk & Hm); [lia|]. exists k. split; [lia | assumption].
    + exists (S m). split; [lia|]. right. lia.
Qed.

Lemma padded_dec k n : magnitude k n -> padded k n = dec n.
Proof.
  revert n. induction k as [|k IH]; intros n H.
  - destruct H as [[_ H]|H]; [|change (10 ^ Z.of_nat 0) with 1 in H;
      change (10 ^ Z.of_nat 1) with 10 in H]; now rewrite dec_small by lia.
  - pose proof (magnitude_step _ _ H) as [Hk Hn].
    rewrite padded_last by (destruct H; lia). now rewrite IH, <- dec_step by assumption.
Qed.

Lemma u64_id n : 0 <= n < 2 ^ 64 -> u64 n = n.
Proof. apply Z.mod_small. Qed.

Lemma digit_scale_pow fuel k n d : magnitude k n -> (k < fuel)%nat ->
  0 < d -> d * 10 ^ Z.of_nat k < 2 ^ 64 -> digit_scale fuel n d = d * 10 ^ Z.of_nat k.
Proof.
  revert k n d. induction fuel as [|fuel IH]; intros k n d Hm Hf Hd Hlt; [lia|].
  cbn [digit_scale]. destruct k as [|k].
  - change (10 ^ Z.of_nat 0) with 1 in *. destruct Hm as [[_ Hm]|Hm];
      [|change (10 ^ Z.of_nat 1) with 10 in Hm]; rewrite Z.div_small by lia; cbn; lia.
  - destruct (magnitude_step _ _ Hm) as [Hk Hn].
    pose proof (Z.div_str_pos n 10 ltac:(lia)).
    destruct (Z.eqb_spec (n / 10) 0); [lia|].
    pose proof (pow10_pos k). rewrite pow10_succ in *.
    rewrite u64_id by nia. rewrite (IH k) by (assumption || lia || nia). ring.
Qed.

Lemma digits_loop_padded k fuel n acc : (k < fuel)%nat -> 0 <= n ->
  digits_loop fuel n (10 ^ Z.of_nat k) acc = acc ++ padded k n.
Proof.
  revert fuel n acc. induction k as [|k IH]; intros fuel n acc Hf Hn;
    (destruct fuel as [|fuel]; [lia|]); cbn [digits_loop padded].
  - change (10 ^ Z.of_nat 0) with 1. cbn. now rewrite Z.div_1_r.
  - pose proof (pow10_pos (S k)). pose proof (pow10_pos k).
    destruct (Z.eqb_spec (10 ^ Z.of_nat (S k)) 0); [lia|].
    replace (10 ^ Z.of_nat (S k) / 10) with (10 ^ Z.of_nat k)
      by (rewrite pow10_succ, Z.mul_comm, Z.div_mul by lia; reflexivity).
    destruct (Z.eqb_spec (10 ^ Z.of_nat k) 0); [lia|].
    rewrite IH; [now rewrite <- app_assoc | lia|].
    apply Z.mod_pos_bound. lia.
Qed.

Lemma size_digits_dec n : 0 <= n < 2 ^ 64 -> size_digits n = dec n.
Proof.
  intros Hn. destruct (magnitude_exists 19 n) as (k & Hk & Hm).
  { change (10 ^ Z.of_nat 20) with 100000000000000000000. lia. }
  assert (10 ^ Z.of_nat k < 2 ^ 64) as Hp.
  { apply Z.le_lt_trans with (10 ^ 19); [apply Z.pow_le_mono_r; lia | reflexivity]. }
  unfold size_digits. rewrite (digit_scale_pow _ k) by (assumption || (unfold MAX_DIGITS; lia)).
  rewrite Z.mul_1_l, digits_loop_padded by (unfold MAX_DIGITS; lia).
  now apply padded_dec.
Qed.

(** [append(size_t)] writes the decimal numeral of every 64-bit number, although it
    scales by powers of ten in arithmetic modulo [2^64] and writes the digits from the
    first to the last; the delimiter stays pending. *)
Theorem append_size_decimal (o : Output) (n : Z) :
  0 <= n < 2 ^ 64 ->
  content (oappend_size o n) = content o ++ dec n
  /\ delim (oappend_size o n) = delim o /\ positions (oappend_size o n) = positions o
  /\ dec_val (dec n) = n.
Proof.
  intros Hn. split; [|split; [reflexivity | split; [reflexivity | apply dec_val_dec; lia]]].
  rewrite <- size_digits_dec by assumption. reflexivity.
Qed.

Lemma append_size_decimal_witness :
  content (oappend_size new_output (2 ^ 64 - 1)) = B "18446744073709551615".
Proof. apply (append_size_decimal new_output (2 ^ 64 - 1)). split; [discriminate | reflexivity]. Defined.

(** ** Positions *)

(** The text from a position to the end. *)
Definition piece (o : Output) (p : Z) : bytes := skipn (Z.to_nat p) (content o).

(** Positions lie in the text, and a delimiter has two characters. *)
Definition wf_output (o : Output) : Prop :=
  Forall (fun p => 0 <= p <= osize o) (positions o)
  /\ match delim o with Some d => length d = 2%nat | None => True end.

(** What [append] writes before a text that starts with [c]. *)
Definition separator (o : Output) (c : ascii) : bytes :=
  match delim o with
  | Some d => d
  | None =>
      if c =c ">" then if last (content o) NUL =c ">" then B " " else []
      else if (c =c "<") && spaceOnce o then B " " else []
  end.

(** Where a position goes: past a delimiter that is written at its place. *)
Definition moved (o : Output) (p : Z) : Z :=
  match delim o with
  | Some _ => if p =? osize o then p + 2 else p
  | None => p
  end.

(** What is in front of the text when it is read from a position. *)
Definition skipped (o : Output) (c : ascii) (p : Z) : bytes :=
  match delim o with
  | Some d => if p =? osize o then [] else d
  | None => separator o c
  end.

Lemma prepare_content o c : content (prepare o c) = content o ++ separator o c.
Proof.
  unfold prepare, separator. destruct (delim o); [reflexivity|].
  destruct (c =c ">").
  - destruct (_ =c ">"); cbn; [reflexivity | now rewrite app_nil_r].
  - destruct (_ && _); cbn; [reflexivity | now rewrite app_nil_r].
Qed.

Lemma prepare_positions o c : positions (prepare o c) = map (moved o) (positions o).
Proof.
  unfold prepare, moved. destruct (delim o); [reflexivity|]. rewrite map_id.
  destruct (c =c ">"); [destruct (_ =c ">") | destruct (_ && _)]; reflexivity.
Qed.

Lemma prepare_delim o c : delim (prepare o c) = None.
Proof.
  unfold prepare. destruct (delim o) eqn:E; [reflexivity|].
  destruct (c =c ">"); [destruct (_ =c ">") | destruct (_ && _)]; assumption.
Qed.

Lemma finish_spec o s len : 0 < len <= Z.of_nat (length s) -> len <> NPOS ->
  exists o', finish o s len = Ok o' /\ content o' = content o ++ firstn (Z.to_nat len) s
  /\ positions o' = positions o /\ delim o' = delim o.
Proof.
  intros Hl Hn. unfold finish, buf_append, t_append.
  destruct (Z.eqb_spec len NPOS); [contradiction|]. destruct (Z.eqb_spec len 0); [lia|].
  unfold NUTS_ASSERT. replace (len <=? _) with true by lia. cbn [bind].
  destruct (buf o) as [b|] eqn:E.
  - eexists. split; [reflexivity|]. cbn. auto.
  - destruct (content o ++ firstn (Z.to_nat len) s) as [|c r] eqn:Er.
    + apply app_eq_nil in Er as [_ Er]. apply (f_equal (@length _)) in Er.
      rewrite length_firstn in Er. cbn [length] in Er. lia.
    + eexists. split; [reflexivity|]. cbn. auto.
Qed.

Lemma oappend_spec o s len : 0 < len <= Z.of_nat (length s) -> len <> NPOS ->
  exists o', oappend o s len = Ok o'
  /\ content o' = content o ++ separator o (hd NUL s) ++ firstn (Z.to_nat len) s
  /\ positions o' = map (moved o) (positions o) /\ delim o' = None.
Proof.
  intros Hl Hn. destruct (finish_spec (prepare o (hd NUL s)) s len Hl Hn) as (o' & E & Hc & Hp & Hd).
  exists o'. rewrite prepare_content, <- app_assoc in Hc.
  rewrite prepare_positions in Hp. rewrite prepare_delim in Hd. auto.
Qed.

Lemma moved_piece o c t p : wf_output o -> 0 <= p <= osize o ->
  0 <= moved o p <= osize o + Z.of_nat (length (separator o c))
  /\ skipn (Z.to_nat (moved o p)) (content o ++ separator o c ++ t)
     = piece o p ++ skipped o c p ++ t.
Proof.
  intros [_ Hd] Hp. unfold moved, skipped, separator, piece, osize in *.
  destruct (delim o) as [d|].
  - destruct (Z.eqb_spec p (Z.of_nat (length (content o)))) as [->|Hne].
    + split; [lia|]. rewrite Nat2Z.id, skipn_all, app_assoc. cbn [app].
      rewrite skipn_app, skipn_all2 by (rewrite length_app; lia).
      rewrite length_app. replace (_ - _)%nat with O by lia. reflexivity.
    + split; [lia|]. rewrite skipn_app. replace (_ - _)%nat with O by lia. reflexivity.
  - split; [lia|]. rewrite skipn_app. replace (_ - _)%nat with O by lia. reflexivity.
Qed.

(** Tracked positions. Appending a text moves every [Output::Position] so that it still
    denotes the piece of text it denoted, followed by the new text: a position at the end of
    the output is moved past a pending delimiter, and so denotes the new text alone. *)
Theorem append_tracks_positions (o : Output) (s : bytes) (len : Z) :
  wf_output o -> 0 < len <= Z.of_nat (length s) -> len <> NPOS ->
  exists o', oappend o s len = Ok o' /\ wf_output o'
  /\ Forall2 (fun p p' => piece o' p' = piece o p ++ skipped o (hd NUL s) p ++ firstn (Z.to_nat len) s)
             (positions o) (positions o').
Proof.
  intros Hw Hl Hn. destruct (oappend_spec o s len Hl Hn) as (o' & E & Hc & Hp & Hd).
  exists o'. split; [assumption|]. destruct Hw as [Hpos Hdel].
  assert (forall p, 0 <= p <= osize o -> _) as Hm by exact (fun p => moved_piece o (hd NUL s)
    (firstn (Z.to_nat len) s) p (conj Hpos Hdel)).
  unfold wf_output, piece at 1, osize. rewrite Hc, Hp, Hd. split; [split; [|exact I]|].
  - apply Forall_map. eapply Forall_impl; [|exact Hpos]. intros p H.
    destruct (Hm p H) as [H' _]. unfold osize in H'. rewrite !length_app. lia.
  - clear Hp. induction Hpos as [|p l H Hpos IH]; cbn [map]; constructor; [|assumption].
    apply Hm. assumption.
Qed.

(** An output in the middle of [f(int, ...]: one position at the end, one at the start. *)
Definition sample_output : Output := mk_output (Some (B "f(int")) (Some (B ", ")) false NPOS [5; 0].

Lemma append_tracks_positions_witness :
  exists o', oappend sample_output (B "char") 4 = Ok o' /\ wf_output o'
  /\ Forall2 (fun p p' => piece o' p' = piece sample_output p ++ skipped sample_output "c" p ++ B "char")
             (positions sample_output) (positions o').
Proof.
  apply (append_tracks_positions sample_output (B "char") 4); [|split; [reflexivity|discriminate]|discriminate].
  split; [|reflexivity]. repeat constructor; discriminate.
Defined.
