(* ===== verification/DecoderState.v ===== *)
(** * State of the Itanium decoder ([unmangle/decoder.h], [unmangle/dictionary.h])

    The members of [Decoder<char>] as a record, a monad that threads it, the dictionaries of
    substitutions and template arguments, and the helpers that do not recur. The [Output]s
    and the qualifier strings that the code passes by reference live in stores and are
    referred to by their index, so that ranges of one output stay valid in the dictionaries
    while another one is written. *)
From S2P Require Import Prelude CLib DString Nuts Output.
Local Open Scope Z_scope.

(** [UNMANGLE_STATUS_SUCCESS] and [UNMANGLE_STATUS_INVALID_NAME]. *)
Inductive dstatus : Type := SUCCESS | INVALID_NAME.

Definition success (s : dstatus) : bool := match s with SUCCESS => true | _ => false end.

Definition UNMANGLE_NOFUNARGS : Z := 1.

Record NameFlags : Type := mk_flags {
  isTemplate : bool; isCtor : bool; isDtor : bool;
  isOperator : bool; isConvOper : bool; isSource : bool
}.

Definition no_flags : NameFlags := mk_flags false false false false false false.

Definition may_have_return_type (f : NameFlags) : bool :=
  isTemplate f && negb (isCtor f) && negb (isDtor f) && negb (isConvOper f).

Definition may_substitute (f : NameFlags) (c : ascii) : bool :=
  (c =c "I") || negb (isOperator f) && negb (isDtor f) && negb (isCtor f).

Definition set_isTemplate (f : NameFlags) b :=
  mk_flags b (isCtor f) (isDtor f) (isOperator f) (isConvOper f) (isSource f).
Definition set_isCtor (f : NameFlags) b :=
  mk_flags (isTemplate f) b (isDtor f) (isOperator f) (isConvOper f) (isSource f).
Definition set_isDtor (f : NameFlags) b :=
  mk_flags (isTemplate f) (isCtor f) b (isOperator f) (isConvOper f) (isSource f).
Definition set_isOperator (f : NameFlags) b :=
  mk_flags (isTemplate f) (isCtor f) (isDtor f) b (isConvOper f) (isSource f).
Definition set_isSource (f : NameFlags) b :=
  mk_flags (isTemplate f) (isCtor f) (isDtor f) (isOperator f) (isConvOper f) b.

Record state : Type := mk_state {
  pos : Z;
  sourceNamePos : Z;
  sourceNameSize : Z;
  cvQualifiers : option nat;        (* a string of [strings] *)
  subst : list substring;
  templateArgs : list substring;
  templateDepth : Z;
  inPrototype : Z;
  inPrefix : bool;
  anonymous : bool;
  status : dstatus;
  outputs : list Output;            (* the output of [parse], then the temporaries *)
  strings : list bytes              (* the local qualifier strings *)
}.

(** The constructor of [Decoder], with the output of [parse]. *)
Definition init_state : state :=
  mk_state 0 NPOS 0 None [] [] 0 0 false false SUCCESS [new_output] [].

Definition set_pos (s : state) x := mk_state x (sourceNamePos s) (sourceNameSize s)
  (cvQualifiers s) (subst s) (templateArgs s) (templateDepth s) (inPrototype s) (inPrefix s)
  (anonymous s) (status s) (outputs s) (strings s).
Definition set_sourceName (s : state) x y := mk_state (pos s) x y
  (cvQualifiers s) (subst s) (templateArgs s) (templateDepth s) (inPrototype s) (inPrefix s)
  (anonymous s) (status s) (outputs s) (strings s).
Definition set_cvQualifiers (s : state) x := mk_state (pos s) (sourceNamePos s)
  (sourceNameSize s) x (subst s) (templateArgs s) (templateDepth s) (inPrototype s) (inPrefix s)
  (anonymous s) (status s) (outputs s) (strings s).
Definition set_subst (s : state) x := mk_state (pos s) (sourceNamePos s)
  (sourceNameSize s) (cvQualifiers s) x (templateArgs s) (templateDepth s) (inPrototype s)
  (inPrefix s) (anonymous s) (status s) (outputs s) (strings s).
Definition set_templateArgs (s : state) x := mk_state (pos s) (sourceNamePos s)
  (sourceNameSize s) (cvQualifiers s) (subst s) x (templateDepth s) (inPrototype s)
  (inPrefix s) (anonymous s) (status s) (outputs s) (strings s).
Definition set_templateDepth (s : state) x := mk_state (pos s) (sourceNamePos s)
  (sourceNameSize s) (cvQualifiers s) (subst s) (templateArgs s) x (inPrototype s)
  (inPrefix s) (anonymous s) (status s) (outputs s) (strings s).
Definition set_inPrototype (s : state) x := mk_state (pos s) (sourceNamePos s)
  (sourceNameSize s) (cvQualifiers s) (subst s) (templateArgs s) (templateDepth s) x
  (inPrefix s) (anonymous s) (status s) (outputs s) (strings s).
Definition set_inPrefix (s : state) x := mk_state (pos s) (sourceNamePos s)
  (sourceNameSize s) (cvQualifiers s) (subst s) (templateArgs s) (templateDepth s)
  (inPrototype s) x (anonymous s) (status s) (outputs s) (strings s).
Definition set_anonymous (s : state) x := mk_state (pos s) (sourceNamePos s)
  (sourceNameSize s) (cvQualifiers s) (subst s) (templateArgs s) (templateDepth s)
  (inPrototype s) (inPrefix s) x (status s) (outputs s) (strings s).
Definition set_status (s : state) x := mk_state (pos s) (sourceNamePos s)
  (sourceNameSize s) (cvQualifiers s) (subst s) (templateArgs s) (templateDepth s)
  (inPrototype s) (inPrefix s) (anonymous s) x (outputs s) (strings s).
Definition set_outputs (s : state) x := mk_state (pos s) (sourceNamePos s)
  (sourceNameSize s) (cvQualifiers s) (subst s) (templateArgs s) (templateDepth s)
  (inPrototype s) (inPrefix s) (anonymous s) (status s) x (strings s).
Definition set_strings (s : state) x := mk_state (pos s) (sourceNamePos s)
  (sourceNameSize s) (cvQualifiers s) (subst s) (templateArgs s) (templateDepth s)
  (inPrototype s) (inPrefix s) (anonymous s) (status s) (outputs s) x.

(** ** The monad *)

Definition M (A : Type) : Type := state -> res (A * state).

Definition ret {A} (a : A) : M A := fun s => Ok (a, s).
Definition mbind {A C} (m : M A) (k : A -> M C) : M C :=
  fun s => let* (a, s) := m s in k a s.
Definition fail {A} (f : fault) : M A := fun _ => Fail f.
Definition get : M state := fun s => Ok (s, s).
Definition modify (f : state -> state) : M unit := fun s => Ok (tt, f s).
Definition lift {A} (m : res A) : M A := fun s => let* a := m in Ok (a, s).

Declare Scope decoder_scope.
Delimit Scope decoder_scope with dec.
Notation "x <- m ;; k" := (mbind m (fun x => k))
  (at level 61, m at next level, right associativity) : decoder_scope.
Notation "' p <- m ;; k" := (mbind m (fun x => let 'p := x in k))
  (at level 61, p pattern, m at next level, right associativity) : decoder_scope.
Notation "m ;;; k" := (mbind m (fun _ => k))
  (at level 61, right associativity) : decoder_scope.
Open Scope decoder_scope.

Definition gets {A} (f : state -> A) : M A := s <- get ;; ret (f s).
Definition when (b : bool) (m : M unit) : M unit := if b then m else ret tt.
Definition assert (b : bool) : M unit := lift (NUTS_ASSERT b).

(** [DECODER_ERROR__(INVALID_NAME)] *)
Definition error : M unit := modify (fun s => set_status s INVALID_NAME).

Definition ok : M bool := gets (fun s => success (status s)).

(** [Temporary<T> __(member, value)] around the rest of its scope. *)
Definition temporarily {A T} (read : state -> T) (write : state -> T -> state) (v : T)
  (m : M A) : M A :=
  old <- gets read ;; modify (fun s => write s v) ;;; a <- m ;;
  modify (fun s => write s old) ;;; ret a.

(** ** Stores *)

Fixpoint list_set {A} (l : list A) (i : nat) (a : A) : list A :=
  match l, i with
  | [], _ => []
  | _ :: l, O => a :: l
  | x :: l, S i => x :: list_set l i a
  end.

Definition out_at (out : nat) (s : state) : Output := nth out (outputs s) new_output.

Definition get_out (out : nat) : M Output := gets (out_at out).
Definition put_out (out : nat) (o : Output) : M unit :=
  modify (fun s => set_outputs s (list_set (outputs s) out o)).

(** Applies an operation of [Output] to the output [out]. *)
Definition on_out (out : nat) (f : Output -> res Output) : M unit :=
  o <- get_out out ;; o <- lift (f o) ;; put_out out o.

(** [out.append("lit", n)] *)
Definition emit (out : nat) (lit : bytes) : M unit :=
  on_out out (fun o => oappend o lit (Z.of_nat (length lit))).

Definition out_size (out : nat) : M Z := o <- get_out out ;; ret (osize o).
Definition out_text (out : nat) : M bytes := o <- get_out out ;; ret (content o).

(** [out.append(temp)] *)
Definition emit_output (out temp : nat) : M unit :=
  t <- out_text temp ;; on_out out (fun o => oappend_text o t).

Definition MAX_TEMP : nat := 512.

(** [temp_output]: when [MAX_TEMP] temporaries exist, the last one is returned again. *)
Definition temp_output : M nat :=
  outs <- gets outputs ;;
  if (length outs <=? MAX_TEMP)%nat
  then modify (fun s => set_outputs s (outputs s ++ [new_output])) ;;; ret (length outs)
  else ret (Nat.pred (length outs)).

(** A local [string_type]. *)
Definition new_string : M nat :=
  l <- gets strings ;;
  modify (fun s => set_strings s (strings s ++ [[]])) ;;; ret (length l).
Definition string_at (q : nat) : M bytes := l <- gets strings ;; ret (nth q l []).
Definition put_string (q : nat) (t : bytes) : M unit :=
  modify (fun s => set_strings s (list_set (strings s) q t)).
Definition prepend_string (q : nat) (t : bytes) : M unit :=
  old <- string_at q ;; put_string q (t_prepend old t).

(** [Output::Position p(out)] around the rest of its scope, and its value. *)
Definition with_position {A} (out : nat) (m : M A) : M A :=
  on_out out (fun o => Ok (push_position o)) ;;;
  a <- m ;; on_out out pop_position ;;; ret a.
Definition position_of (out : nat) : M Z := o <- get_out out ;; lift (position o).

(** [Temporary<const CharT*> __(out.delim_, d)] *)
Definition with_delim {A} (out : nat) (d : option bytes) (m : M A) : M A :=
  o <- get_out out ;;
  on_out out (fun o => Ok (set_delim o d)) ;;;
  a <- m ;; on_out out (fun o' => Ok (set_delim o' (delim o))) ;;; ret a.
Definition put_delim (out : nat) (d : option bytes) : M unit :=
  on_out out (fun o => Ok (set_delim o d)).

(** ** Dictionaries *)

(** The text of a range; a range that its output no longer covers is not text. *)
Definition sub_text (outs : list Output) (v : substring) : res bytes :=
  let t := content (nth (sub_str v) outs new_output) in
  if sub_pos v + sub_len v <=? Z.of_nat (length t)
  then Ok (firstn (Z.to_nat (sub_len v)) (skipn (Z.to_nat (sub_pos v)) t))
  else Fail OutOfBounds.

Section Decoder.
  (** The mangled name and the option flags. *)
  Variables (name_ : bytes) (flags_ : Z).

Definition size_ : Z := Z.of_nat (length name_).

Definition dict_capacity : Z := (size_ + 1) / 2.

(** [name_[i]]: the terminator may be read. *)
Definition name_at (i : Z) : M ascii :=
  if (0 <=? i) && (i <=? size_) then ret (nth (Z.to_nat i) name_ NUL) else fail OutOfBounds.
Definition peek : M ascii := p <- gets pos ;; name_at p.
Definition peek_next : M ascii := p <- gets pos ;; name_at (p + 1).
(** [pos_ += n] for a small constant [n]: the position stays far below [SIZE_MAX]. *)
Definition advance (n : Z) : M unit := modify (fun s => set_pos s (pos s + n)).
(** [pos_ += len] for a length read from the name, which may wrap around. *)
Definition skip_len (len : Z) : M unit := modify (fun s => set_pos s (u64 (pos s + len))).
Definition in_range : M bool := p <- gets pos ;; ret (p <? size_).

(** The name from [pos_] to its terminator. *)
Definition rest : M bytes :=
  p <- gets pos ;;
  if p <=? size_ then ret (skipn (Z.to_nat p) name_) else fail OutOfBounds.

(** [SubstPolicy::insert] through [Dictionary::insert] of [subst_]. *)
Definition subst_insert (v : substring) (override : bool) : M unit :=
  if sub_len v =? 0 then ret tt
  else
    s <- get ;;
    differs <-
      match override, subst s with
      | true, _ | _, [] => ret true
      | false, l =>
          let back := last l v in
          tb <- lift (sub_text (outputs s) back) ;;
          tv <- lift (sub_text (outputs s) v) ;;
          assert (Bool.eqb (substring_equal back v tb tv) (substring_equal v back tv tb)) ;;;
          ret (negb (substring_equal back v tb tv))
      end ;;
    if differs : bool then
      tv <- lift (sub_text (outputs s) v) ;;
      let c := hd NUL tv in
      assert (negb (c =c ",")) ;;;
      if c =c ":" then ret tt
      else
        l <- lift (sv_push_back dict_capacity v (subst s)) ;;
        modify (fun s => set_subst s l)
    else ret tt.

(** [DefaultPolicy::insert] through [Dictionary::insert] of [templateArgs_]. *)
Definition templateArgs_insert (v : substring) : M unit :=
  if sub_len v =? 0 then ret tt
  else
    s <- get ;;
    l <- lift (sv_push_back dict_capacity v (templateArgs s)) ;;
    modify (fun s => set_templateArgs s l).

(** [Dictionary::output_elem]: the range may be one of the output itself. *)
Definition output_elem (dict : list substring) (out : nat) (i : Z) : M bool :=
  if i <? Z.of_nat (length dict) then
    v <- lift (sv_at dict i) ;;
    outs <- gets outputs ;;
    (if (sub_str v =? out)%nat then on_out out (fun o => oappend_own o (sub_pos v) (sub_len v))
     else
       let t := content (nth (sub_str v) outs new_output) in
       on_out out (fun o => oappend o (skipn (Z.to_nat (sub_pos v)) t) (sub_len v))) ;;;
    ret true
  else ret false.

(** [out.substr(pos, size)] *)
Definition substr (out : nat) (p size : Z) : M substring :=
  o <- get_out out ;; lift (osubstr out o p size).

(** [add_substitution_] *)
Definition add_substitution (out : nat) (p : Z) (f : NameFlags) : M NameFlags :=
  o <- get_out out ;;
  (if (substIndex o =? NPOS) && (p <? osize o) then
     c <- peek ;;
     when (may_substitute f c) (v <- substr out p NPOS ;; subst_insert v (isSource f))
   else ret tt) ;;;
  ret (set_isSource f false).

(** ** Numbers *)

(** The loop of [parse_unsigned]. *)
Fixpoint unsigned_loop (fuel : nat) (n : Z) : M Z :=
  match fuel with
  | O => fail OutOfFuel
  | S fuel =>
      c <- peek ;;
      if isdigit c then advance 1 ;;; unsigned_loop fuel (u64 (n * 10 + (code c - 48)))
      else ret n
  end.

Definition parse_unsigned (output : option nat) : M Z :=
  c <- peek ;;
  if negb (isdigit c) then error ;;; ret 0
  else
    n <- unsigned_loop (S (length name_)) 0 ;;
    p <- gets pos ;; assert (p <=? size_) ;;;
    match output with
    | Some out => on_out out (fun o => Ok (oappend_size o n))
    | None => ret tt
    end ;;;
    ret n.

(** [parse_signed]; its value is not used by any caller. *)
Definition parse_signed (output : option nat) : M unit :=
  c <- peek ;;
  (if c =c "n" then
     match output with Some out => emit out (B "-") | None => ret tt end ;;;
     advance 1 ;;; b <- in_range ;; when (negb b) error
   else ret tt) ;;;
  parse_unsigned output ;;; ret tt.

Definition parse_signed_uscore (output : option nat) : M unit :=
  parse_signed output ;;;
  c <- peek ;;
  if c =c "_" then advance 1 else error.

Definition parse_virtual_offset (out : nat) : M unit :=
  emit out (B "[v:") ;;; parse_signed_uscore (Some out) ;;;
  emit out (B ",") ;;; parse_signed_uscore (Some out) ;;; emit out (B "] ").

Definition parse_non_virtual_offset (out : nat) : M unit :=
  emit out (B "[nv:") ;;; parse_signed_uscore (Some out) ;;; emit out (B "] ").

End Decoder.
