(* ===== verification/Decoder.v ===== *)
(** * The Itanium decoder ([unmangle/decoder.h])

    One definition per member function. The calls that recur ([parse_type],
    [parse_encoding], [parse_name] and [parse_expression_]) go through the record [calls],
    whose knot is tied by [decoder] with a bound on the depth; a loop has its own bound. *)
From S2P Require Import Prelude CLib DString DReal LongFloat Nuts Output DecoderState.
Local Open Scope Z_scope.

(** ** Tables *)

Record Operator : Type := mk_operator { demangled : bytes; op_flags : Z }.

Definition OPF_SPACE_ONCE : Z := 1.
Definition OPF_CAST : Z := 2.
Definition OPF_VENDOR : Z := 4.
Definition OPF_UNARY : Z := 8.
Definition OPF_BINARY : Z := 16.
Definition OPF_TRINARY : Z := 24.
Definition OPF_CALL : Z := 32.

(** The initializers of [operator_table]: the letters, the text and the flags. *)
Definition oper : list (bytes * Operator) :=
  let op name flags := mk_operator (B "operator" ++ name) flags in
  [ (B "nw", op (B " new") 0); (B "na", op (B " new[]") 0);
    (B "dl", op (B " delete") 0); (B "da", op (B " delete[]") 0);
    (B "ps", op (B "+") OPF_UNARY); (B "ng", op (B "-") OPF_UNARY);
    (B "ad", op (B "&") OPF_UNARY); (B "de", op (B "*") OPF_UNARY);
    (B "co", op (B "~") OPF_UNARY); (B "pl", op (B "+") OPF_BINARY);
    (B "mi", op (B "-") OPF_BINARY); (B "ml", op (B "*") OPF_BINARY);
    (B "dv", op (B "/") OPF_BINARY); (B "rm", op (B "%") OPF_BINARY);
    (B "an", op (B "&") OPF_BINARY); (B "or", op (B "|") OPF_BINARY);
    (B "eo", op (B "^") OPF_BINARY); (B "aS", op (B "=") OPF_BINARY);
    (B "pL", op (B "+=") OPF_BINARY); (B "mI", op (B "-=") OPF_BINARY);
    (B "mL", op (B "*=") OPF_BINARY); (B "dV", op (B "/=") OPF_BINARY);
    (B "rM", op (B "%=") OPF_BINARY); (B "aN", op (B "&=") OPF_BINARY);
    (B "oR", op (B "|=") OPF_BINARY); (B "eO", op (B "^=") OPF_BINARY);
    (B "ls", op (B "<<") (OPF_SPACE_ONCE + OPF_BINARY)); (B "rs", op (B ">>") OPF_BINARY);
    (B "lS", op (B "<<=") OPF_BINARY); (B "rS", op (B ">>=") OPF_BINARY);
    (B "eq", op (B "==") OPF_BINARY); (B "ne", op (B "!=") OPF_BINARY);
    (B "lt", op (B "<") (OPF_SPACE_ONCE + OPF_BINARY)); (B "gt", op (B ">") OPF_BINARY);
    (B "le", op (B "<=") OPF_BINARY); (B "ge", op (B ">=") OPF_BINARY);
    (B "nt", op (B "!") OPF_UNARY); (B "aa", op (B "&&") OPF_BINARY);
    (B "oo", op (B "||") OPF_BINARY); (B "pp", op (B "++") 0);
    (B "mm", op (B "--") 0); (B "cm", op (B ",") 0);
    (B "pm", op (B "->*") 0); (B "pt", op (B "->") 0);
    (B "cl", op (B "()") OPF_CALL); (B "ix", op (B "[]") 0);
    (B "qu", op (B "?") OPF_TRINARY);
    (B "st", mk_operator [] OPF_UNARY);
    (B "sz", mk_operator (B "sizeof") OPF_UNARY);
    (B "sr", mk_operator (B "::") 0);
    (B "cv", mk_operator (B "operator ") OPF_CAST);
    (B "v", mk_operator [] OPF_VENDOR) ].

(** [OperatorTable] is an array of 26 rows of 58 entries: [table[n][m]] lies at [58 * n + m],
    whatever [m] is. The second letter of a one-letter name is its terminator. *)
Definition table_index (n m : Z) : Z := 58 * n + m.

Definition oper_index (mangled : bytes) : Z :=
  table_index (code (nth 0 mangled NUL) - code "a") (code (nth 1 mangled NUL) - code "A").

(** The entry at an index, which the last initializer for that index has written. *)
Definition operator_table (i : Z) : option Operator :=
  fold_left (fun e d => if oper_index (fst d) =? i then Some (snd d) else e) oper None.

Definition builtin_table (c : ascii) : option bytes :=
  match c with
  | "a"%char => Some (B "signed char")
  | "b"%char => Some (B "bool")
  | "c"%char => Some (B "char")
  | "d"%char => Some (B "double")
  | "e"%char => Some (B "long double")
  | "f"%char => Some (B "float")
  | "g"%char => Some (B "__float128")
  | "h"%char => Some (B "unsigned char")
  | "i"%char => Some (B "int")
  | "j"%char => Some (B "unsigned int")
  | "l"%char => Some (B "long")
  | "m"%char => Some (B "unsigned long")
  | "n"%char => Some (B "__int128")
  | "o"%char => Some (B "unsigned __int128")
  | "s"%char => Some (B "short")
  | "t"%char => Some (B "unsigned short")
  | "v"%char => Some (B "void")
  | "w"%char => Some (B "wchar_t")
  | "x"%char => Some (B "long long")
  | "y"%char => Some (B "unsigned long long")
  | "z"%char => Some (B "...")
  | _ => None
  end.

Inductive BuiltinType : Type := B_NONE | B_NORMAL | B_VOID | B_VENDOR.

Definition is_none_or_vendor (b : BuiltinType) : bool :=
  match b with B_NONE | B_VENDOR => true | _ => false end.
Definition is_none (b : BuiltinType) : bool := match b with B_NONE => true | _ => false end.

Definition ANONYMOUS_NS_PREFIX : bytes := B "(anonymous namespace)".

(** The recursive calls. *)
Record calls : Type := mk_calls {
  c_encoding : nat -> M unit;
  c_type : nat -> bool -> Z -> nat -> M bool;
  c_name : nat -> NameFlags -> M (bool * NameFlags);
  c_expression : nat -> bool -> M bool
}.

Section Parse.
  Variables (name_ : bytes) (flags_ : Z).

  #[local] Abbreviation peek := (peek name_).
  #[local] Abbreviation peek_next := (peek_next name_).
  #[local] Abbreviation in_range := (in_range name_).
  #[local] Abbreviation rest := (rest name_).
  #[local] Abbreviation name_at := (name_at name_).
  #[local] Abbreviation size_ := (size_ name_).
  #[local] Abbreviation subst_insert := (subst_insert name_).
  #[local] Abbreviation templateArgs_insert := (templateArgs_insert name_).
  #[local] Abbreviation add_substitution := (add_substitution name_).
  #[local] Abbreviation parse_unsigned := (parse_unsigned name_).
  #[local] Abbreviation parse_signed := (parse_signed name_).

(** Loops and the recursion of [parse_source_name] run at most once per input byte. *)
Definition loop_fuel : nat := S (S (length name_)).

(** ** Members that do not recur *)

Definition parse_double (out : nat) : M unit :=
  s <- rest ;;
  let '(f, r) := LongFloat.strtold s in
  advance (Z.of_nat (length s - length r)) ;;;
  emit out (B "[") ;;;
  on_out out (fun o => oappend_text o (LongFloat.print f)) ;;;
  emit out (B "]").

(** The loop that skips the qualifiers. *)
Fixpoint skip_qualifiers (fuel : nat) : M unit :=
  match fuel with
  | O => fail OutOfFuel
  | S fuel =>
      c <- peek ;;
      if (c =c "r") || (c =c "V") || (c =c "K") then advance 1 ;;; skip_qualifiers fuel
      else ret tt
  end.

(** The loop that prepends them, from the last to the first. *)
Fixpoint prepend_qualifiers (q : nat) (from : Z) (n : nat) : M unit :=
  match n with
  | O => ret tt
  | S n =>
      c <- name_at (from + Z.of_nat n) ;;
      (if c =c "r" then prepend_string q (B " restricted")
       else if c =c "V" then prepend_string q (B " volatile")
       else if c =c "K" then prepend_string q (B " const")
       else fail Thrown) ;;;
      prepend_qualifiers q from n
  end.

Definition parse_cv_qualifiers (q : nat) : M bool :=
  b <- in_range ;; assert b ;;;
  from <- gets pos ;;
  skip_qualifiers loop_fuel ;;;
  upto <- gets pos ;;
  prepend_qualifiers q from (Z.to_nat (upto - from)) ;;;
  ret (from <? upto).

(** [name_ + pos_] starts with [_GLOBAL_] and is the mark of an anonymous namespace. *)
Definition is_anonymous (len : Z) : M bool :=
  if len <? 8 then ret false
  else
    s <- rest ;;
    if (length s <? 8)%nat then fail OutOfBounds      (* memcmp of eight bytes *)
    else if list_eq_dec ascii_dec (firstn 8 s) (B "_GLOBAL_") then
      p <- gets pos ;;
      c <- name_at (p + 8) ;;
      if (c =c ".") || (c =c "_") || (c =c "$")
      then d <- name_at (p + 9) ;; ret (d =c "N")
      else ret false
    else ret false.

Fixpoint source_name (fuel : nat) (out : nat) : M unit :=
  match fuel with
  | O => fail OutOfFuel
  | S fuel =>
      b <- in_range ;; assert b ;;;
      len <- parse_unsigned None ;;
      p <- gets pos ;;
      if u64 (p + len) <=? size_ then
        anon <- is_anonymous len ;;
        if anon : bool then
          with_position out (
            emit out ANONYMOUS_NS_PREFIX ;;;
            pre <- gets inPrefix ;;
            (if pre : bool then modify (fun s => set_anonymous s true)
             else
               p <- position_of out ;;
               v <- substr out p (Z.of_nat (length ANONYMOUS_NS_PREFIX)) ;;
               subst_insert v true) ;;;
            skip_len len ;;;
            emit out (B "::") ;;;
            depth <- gets templateDepth ;;
            (if depth =? 0
             then n <- out_size out ;; modify (fun s => set_sourceName s n 0)
             else ret tt) ;;;
            source_name fuel out)
        else
          s <- rest ;;
          on_out out (fun o => oappend o s len) ;;;
          skip_len len
      else error
  end.

Definition parse_source_name (out : nat) : M unit := source_name loop_fuel out.

Definition parse_ctor_dtor_name (out : nat) : M unit :=
  b <- in_range ;; assert b ;;;
  c <- peek ;;
  assert ((c =c "C") || (c =c "D")) ;;;
  advance 1 ;;;
  p <- gets pos ;;
  if p =? size_ then error
  else
    k <- peek ;;
    (* strchr also finds the terminator *)
    if negb (existsb (Ascii.eqb k) (NUL :: if c =c "C" then B "1239" else B "0129")) then error
    else
      from <- gets sourceNamePos ;;
      assert (negb (from =? NPOS)) ;;;
      advance 1 ;;;
      n <- gets sourceNameSize ;;
      end_ <- out_size out ;;
      let size := if n =? 0 then u64 (end_ - from) else n in
      (if c =c "C" then ret tt else emit out (B "~")) ;;;
      on_out out (fun o => oappend_own o from size) ;;;
      modify (fun s => set_sourceName s NPOS 0).

Definition parse_template_param (out : nat) : M unit :=
  b <- in_range ;; assert b ;;;
  c <- peek ;; assert (c =c "T") ;;;
  advance 1 ;;;
  c <- peek ;;
  i <- (if negb (c =c "_") then n <- parse_unsigned None ;; ret (u64 (n + 1)) else ret 0) ;;
  c <- peek ;;
  when (negb (c =c "_")) error ;;;
  args <- gets templateArgs ;;
  found <- output_elem args out i ;;
  (if found : bool then v <- lift (sv_at args i) ;; subst_insert v true else error) ;;;
  advance 1.

(** The [do ... while] loop over the letters of a sequence id. *)
Fixpoint seq_id (fuel : nat) (i : Z) : M Z :=
  match fuel with
  | O => fail OutOfFuel
  | S fuel =>
      c <- peek ;;
      let i := u64 (i * 36) in
      if isdigit c || isupper c then
        let i := u64 (i + (if isdigit c then code c - 48 else code c - 65 + 10)) in
        advance 1 ;;;
        c <- peek ;;
        if c =c "_" then ret i else seq_id fuel i
      else error ;;; ret i
  end.

(** The abbreviations of [std::] entities. *)
Definition std_abbreviation (c : ascii) : option bytes :=
  match c with
  | "t"%char => Some (B "std")
  | "a"%char => Some (B "std::allocator")
  | "b"%char => Some (B "std::basic_string")
  | "s"%char => Some (B "std::string")
  | "i"%char => Some (B "std::istream")
  | "o"%char => Some (B "std::ostream")
  | "d"%char => Some (B "std::iostream")
  | _ => None
  end.

Definition parse_substitution (out : nat) (f : NameFlags) : M NameFlags :=
  b <- in_range ;; assert b ;;;
  c <- peek ;; assert (c =c "S") ;;;
  advance 1 ;;;
  c <- peek ;;
  (match std_abbreviation c with
   | Some abbr =>
       depth <- gets templateDepth ;;
       n <- out_size out ;;
       when (depth =? 0) (modify (fun s => set_sourceName s (n + 5) 0)) ;;;
       emit out abbr ;;;
       on_out out (fun o => Ok (set_substIndex o (NPOS - 1)))
   | None =>
       i <- (if c =c "_" then ret 0 else n <- seq_id loop_fuel 0 ;; ret (u64 (n + 1))) ;;
       p <- gets pos ;; assert (p <=? size_) ;;;
       good <- ok ;;
       if good : bool then
         dict <- gets subst ;;
         found <- output_elem dict out i ;;
         when (negb found) error ;;;
         on_out out (fun o => Ok (set_substIndex o i))
       else ret tt
   end) ;;;
  advance 1 ;;;
  ret (set_isSource f false).

Definition parse_builtin_type (out : nat) (is_ret : bool) : M BuiltinType :=
  b <- in_range ;;
  c <- (if b : bool then peek else ret NUL) ;;
  proto <- gets inPrototype ;;
  if c =c "u" then
    advance 1 ;;;
    b <- in_range ;;
    if b : bool then parse_source_name out ;;; ret B_VENDOR else error ;;; ret B_NONE
  else if (c =c "v") && negb is_ret && negb (proto =? 0) then advance 1 ;;; ret B_VOID
  else
    match builtin_table c with
    | Some entry =>
        emit out entry ;;; advance 1 ;;; ret (if c =c "v" then B_VOID else B_NORMAL)
    | None => ret B_NONE
    end.

(** The loop of [apply_qualifiers] over the appended qualifiers. *)
Fixpoint qualifier_prefixes (fuel : nat) (out : nat) (p i n : Z) : M unit :=
  match fuel with
  | O => fail OutOfFuel
  | S fuel =>
      if i <? n then
        o <- get_out out ;;
        c <- lift (oindex o i) ;;
        if (c =c "*") || (c =c "&") then
          v <- substr out p (i - p) ;; subst_insert v false ;;;
          v <- substr out p (i + 1 - p) ;; subst_insert v false ;;;
          qualifier_prefixes fuel out p (i + 2) n
        else qualifier_prefixes fuel out p (i + 1) n
      else ret tt
  end.

(** [apply_qualifiers(out, qual, pos)]; without a position nothing enters the dictionary. *)
Definition apply_qualifiers (out q : nat) (at_ : option Z) : M unit :=
  qual <- string_at q ;;
  match qual with
  | [] => ret tt
  | _ =>
      with_delim out None (
        i <- out_size out ;;
        on_out out (fun o => oappend_text o qual) ;;;
        n <- out_size out ;;
        match at_ with
        | Some p =>
            when (p <? i) (
              qualifier_prefixes (S (Z.to_nat (n - i))) out p (i + 1) n ;;;
              v <- substr out p (n - p) ;; subst_insert v false)
        | None => ret tt
        end ;;;
        put_string q [])
  end.

(** ** Members that recur *)

Section Recursive.
  Variable self : calls.

(** [parse_type(out, ret, indx)] with its own qualifiers. *)
Definition parse_type_new (out : nat) (is_ret : bool) (indx : Z) : M bool :=
  q <- new_string ;; c_type self out is_ret indx q.

Definition parse_operator_name (out : nat) : M (option Z) :=
  b <- in_range ;; assert b ;;;
  n <- peek ;;
  p <- gets pos ;;
  m <- (if p + 1 <? size_ then peek_next else ret NUL) ;;
  let n := code n in let m := code m in
  if (97 <=? n) && (n <=? 122) && (65 <=? m) && (m <=? 122) then
    match operator_table (table_index (n - 97) (m - 65)) with
    | Some op =>
        on_out out (fun o => oappend o (demangled op) (Z.of_nat (length (demangled op)))) ;;;
        advance 2 ;;;
        (if negb (Z.land (op_flags op) OPF_CAST =? 0) then
           b <- parse_type_new out false 0 ;; when (negb b) error
         else when (negb (Z.land (op_flags op) OPF_VENDOR =? 0)) error) ;;;
        on_out out (fun o => Ok (set_spaceOnce o
          (negb (Z.land (op_flags op) OPF_SPACE_ONCE =? 0)))) ;;;
        ret (Some (op_flags op))
    | None => ret None
    end
  else ret None.

Definition parse_unqualified_name (out : nat) (f : NameFlags) : M (bool * NameFlags) :=
  b <- in_range ;; assert b ;;;
  c <- peek ;;
  if c =c "C" then parse_ctor_dtor_name out ;;; ret (true, set_isCtor f true)
  else if c =c "D" then parse_ctor_dtor_name out ;;; ret (true, set_isDtor f true)
  else if c =c "E" then ret (false, f)
  else
    c <- (if c =c "L" then advance 1 ;;; peek else ret c) ;;
    if isdigit c then
      depth <- gets templateDepth ;;
      (if depth =? 0 then
         o <- get_out out ;;
         modify (fun s => set_sourceName s
           (osize o + match delim o with Some _ => 2 | None => 0 end) 0)
       else ret tt) ;;;
      parse_source_name out ;;;
      good <- ok ;;
      ret (if good : bool then (true, set_isSource f true) else (false, f))
    else
      r <- parse_operator_name out ;;
      match r with
      | Some _ => ret (true, set_isOperator (set_isSource f false) true)
      | None => ret (false, f)
      end.

Definition parse_unscoped_name (out : nat) (f : NameFlags) : M (bool * NameFlags) :=
  b <- in_range ;;
  if b : bool then parse_unqualified_name out f else ret (false, f).

(** The loop over the parameters: the number of types read. *)
Fixpoint params_loop (fuel : nat) (out : nat) (i : Z) : M Z :=
  match fuel with
  | O => fail OutOfFuel
  | S fuel =>
      b <- parse_type_new out false i ;;
      if b : bool then params_loop fuel out (i + 1) else ret i
  end.

Definition emit_function_params (out : nat) : M bool :=
  depth <- gets templateDepth ;;
  outp <- (if (depth =? 0) && negb (Z.land flags_ UNMANGLE_NOFUNARGS =? 0)
           then temp_output else ret out) ;;
  proto <- gets inPrototype ;;
  temporarily inPrototype set_inPrototype (proto + 1) (
    emit outp (B "(") ;;;
    i <- params_loop loop_fuel outp 0 ;;
    emit outp (B ")") ;;;
    when (i =? 0) (on_out outp (fun o => orewind o 2)) ;;;
    ok).

Definition parse_bare_function_type (out q : nat) (klass : option nat) : M unit :=
  with_position out (
    b <- parse_type_new out true 0 ;;
    if b : bool then
      with_delim out None (
        temp <- temp_output ;;
        p <- position_of out ;;
        v <- substr out p NPOS ;;
        outs <- gets outputs ;;
        t <- lift (sub_text outs v) ;;
        on_out temp (fun o => oappend_text o t) ;;;
        emit temp (B " ()") ;;;
        emit out (B " (") ;;;
        match klass with Some k => emit_output out k | None => ret tt end ;;;
        apply_qualifiers out q None ;;;
        emit out (B ")") ;;;
        outPos <- out_size out ;;
        emit_function_params out ;;;
        v <- substr out outPos NPOS ;;
        outs <- gets outputs ;;
        t <- lift (sub_text outs v) ;;
        on_out temp (fun o => oappend_text o t) ;;;
        v <- substr temp 0 NPOS ;;
        subst_insert v false)
    else ret tt).

(** [(pos_ >= size_) || (name_[pos_] != 'E')] is an error; the position moves anyway. *)
Definition expect_E : M unit :=
  b <- in_range ;;
  c <- (if b : bool then peek else ret NUL) ;;
  when (negb (c =c "E")) error ;;;
  advance 1.

Definition parse_function_type (out q : nat) (klass : option nat) : M unit :=
  b <- in_range ;; assert b ;;;
  c <- peek ;; assert (c =c "F") ;;;
  advance 1 ;;;
  c <- peek ;;
  (if c =c "Y" then emit out (B "extern C ") ;;; advance 1 else ret tt) ;;;
  parse_bare_function_type out q klass ;;;
  expect_E.

Definition parse_expr_primary (out : nat) : M unit :=
  b <- in_range ;; assert b ;;;
  c <- peek ;; assert (c =c "L") ;;;
  temp <- temp_output ;;
  advance 1 ;;;
  b <- in_range ;;
  (if b : bool then c <- peek ;; when (c =c "_") (advance 1) else error) ;;;
  b <- in_range ;;
  c <- (if b : bool then peek else ret NUL) ;;
  if c =c "Z" then
    advance 1 ;;;
    c_encoding self out ;;;
    b <- in_range ;;
    c <- (if b : bool then peek else ret NUL) ;;
    if c =c "E" then advance 1 else error
  else
    b <- parse_type_new temp false 0 ;;
    if negb b then error
    else
      emit out (B "(") ;;; emit_output out temp ;;; emit out (B ")") ;;;
      c <- peek ;;
      t <- out_text temp ;;
      (if existsb (fun w => if list_eq_dec ascii_dec t w then true else false)
            [B "float"; B "double"; B "__float128"]
       then parse_double out
       else when ((c =c "n") || isdigit c) (parse_signed (Some out))) ;;;
      c <- peek ;;
      if c =c "E" then advance 1 else error.

Definition parse_expression (out : nat) : M unit :=
  b <- in_range ;; assert b ;;;
  c <- peek ;; assert (c =c "X") ;;;
  advance 1 ;;;
  c_expression self out true ;;;
  c <- peek ;;
  if c =c "E" then advance 1 else error.

Definition parse_template_arg (out : nat) (p : Z) : M bool :=
  b <- in_range ;;
  if negb b then ret false
  else
    c <- peek ;;
    result <-
      (if c =c "X" then
         parse_expression out ;;;
         b <- in_range ;;
         c <- (if b : bool then peek else ret NUL) ;;
         if c =c "E" then ret true else error ;;; ret false
       else if c =c "L" then parse_expr_primary out ;;; ok
       else parse_type_new out false 0) ;;
    depth <- gets templateDepth ;;
    when (result && (depth =? 1)) (v <- substr out p NPOS ;; templateArgs_insert v) ;;;
    ret result.

Fixpoint template_args_loop (fuel : nat) (out : nat) (p : Z) : M unit :=
  match fuel with
  | O => fail OutOfFuel
  | S fuel =>
      b <- parse_template_arg out p ;;
      if b : bool then
        put_delim out (Some (B ", ")) ;;;
        n <- out_size out ;;
        template_args_loop fuel out (n + 2)
      else ret tt
  end.

Definition parse_template_args (out : nat) (f : NameFlags) : M NameFlags :=
  b <- in_range ;; assert b ;;;
  c <- peek ;; assert (c =c "I") ;;;
  temporarily inPrototype set_inPrototype 0 (
    s <- get ;;
    n <- out_size out ;;
    when ((templateDepth s =? 0) && negb (sourceNamePos s =? NPOS) && (sourceNamePos s <=? n))
      (modify (fun s => set_sourceName s (sourceNamePos s) (n - sourceNamePos s))) ;;;
    with_delim out None (
      emit out (B "<") ;;;
      temporarily templateDepth set_templateDepth (templateDepth s + 1) (
        advance 1 ;;;
        p <- out_size out ;;
        template_args_loop loop_fuel out p ;;;
        put_delim out None ;;;
        emit out (B ">") ;;;
        expect_E ;;;
        ret (set_isTemplate (set_isSource f false) true)))).

(** The operands: [i] of [n] are read. *)
Fixpoint operands (fuel : nat) (out temp : nat) (i n : Z) : M Z :=
  match fuel with
  | O => fail OutOfFuel
  | S fuel =>
      if i <? n then
        b <- c_expression self out false ;;
        if b : bool then
          (if (i =? 0) && (1 <? n) then
             t <- out_text temp ;;
             assert (8 <? Z.of_nat (length t)) ;;;
             on_out out (fun o => oappend o (skipn 8 t) (Z.of_nat (length t) - 8))
           else when ((i =? 1) && (2 <? n)) (emit out (B ":"))) ;;;
          operands fuel out temp (i + 1) n
        else ret i
      else ret i
  end.

(** [if (!top) out.append(...)] *)
Definition unless_top (top : bool) (out : nat) (t : bytes) : M unit :=
  when (negb top) (emit out t).

Definition expression_operator (out : nat) (top : bool) : M bool :=
  temp <- temp_output ;;
  r <- parse_operator_name temp ;;
  match r with
  | None => ret false
  | Some opFlags =>
      unless_top top out (B "(") ;;;
      let n := Z.land (Z.shiftr opFlags 3) 3 in
      (if n =? 1 then
         t <- out_text temp ;;
         if (length t <=? 8)%nat then on_out out (fun o => oappend_text o t)
         else on_out out (fun o => oappend o (skipn 8 t) (Z.of_nat (length t) - 8))
       else ret tt) ;;;
      i <- operands 4 out temp 0 n ;;
      if i <? n then error ;;; ret false
      else unless_top top out (B ")") ;;; ok
  end.

(** [st <type>] and [sr <type> <unqualified-name> [<template-args>]] *)
Definition expression_type (out : nat) (top : bool) (c : ascii) : M bool :=
  top <- (if c =c "t" then emit out (B "sizeof") ;;; ret false else ret top) ;;
  unless_top top out (B "(") ;;;
  advance 2 ;;;
  b <- parse_type_new out false 0 ;;
  (if negb b then error
   else if c =c "r" then
     emit out (B "::") ;;;
     ' (b, f) <- parse_unqualified_name out no_flags ;;
     if negb b then error
     else c <- peek ;; when (c =c "I") (parse_template_args out f ;;; ret tt)
   else ret tt) ;;;
  unless_top top out (B ")") ;;;
  ok.

Definition parse_expression_ (out : nat) (top : bool) : M bool :=
  b <- in_range ;; assert b ;;;
  c <- peek ;;
  if c =c "L" then
    unless_top top out (B "(") ;;;
    parse_expr_primary out ;;;
    unless_top top out (B ")") ;;;
    ok
  else if c =c "s" then
    c <- peek_next ;;
    if (c =c "t") || (c =c "r") then expression_type out top c else expression_operator out top
  else expression_operator out top.

(** ** Names *)

(** What [parse_prefix] keeps between the iterations of its loop. *)
Record prefix_vars : Type := mk_prefix {
  v_initial : bool; v_havePrefix : bool; v_maybeTemplatePrefix : bool; v_canSubstitute : bool;
  v_flags : NameFlags
}.

(** The [default] case of the loop: [None] leaves it, with the flags. *)
Definition prefix_name (out : nat) (v : prefix_vars) : M (prefix_vars * bool) :=
  temporarily inPrefix set_inPrefix true (
    let f := v_flags v in
    p <- position_of out ;;
    n <- out_size out ;;
    let len := u64 (n - p) in
    let template := isTemplate f in
    f <- (if v_havePrefix v then put_delim out (Some (B "::")) ;;; ret (set_isTemplate f false)
          else ret f) ;;
    ' (b, f) <- parse_unqualified_name out f ;;
    if negb b
    then ret (mk_prefix (v_initial v) (v_havePrefix v) (v_maybeTemplatePrefix v)
                        (v_canSubstitute v) (set_isTemplate f template), false)
    else
      p <- position_of out ;;
      when (v_canSubstitute v) (u <- substr out p len ;; subst_insert u true) ;;;
      anon <- gets anonymous ;;
      (if anon : bool then
         modify (fun s => set_anonymous s false) ;;;
         o <- get_out out ;;
         c <- lift (oindex o (u64 (len + 2))) ;;
         let len := if c =c ":" then len + 1 else len in
         u <- substr out (u64 (len + 2)) (Z.of_nat (length ANONYMOUS_NS_PREFIX)) ;;
         subst_insert u true
       else ret tt) ;;;
      ret (mk_prefix false true true (may_substitute f NUL) f, true)).

(** The case of template arguments behind a template prefix. *)
Definition prefix_args (out : nat) (v : prefix_vars) : M prefix_vars :=
  p <- position_of out ;;
  f <- add_substitution out p (v_flags v) ;;
  argPos <- gets (fun s => Z.of_nat (length (templateArgs s))) ;;
  f <- parse_template_args out f ;;
  c <- peek ;;
  ' (f, can) <-
    (if negb (c =c "E") then
       p <- position_of out ;; f <- add_substitution out p f ;; ret (f, false)
     else ret (f, v_canSubstitute v)) ;;
  s <- get ;;
  (if (templateDepth s =? 0) && (inPrototype s =? 0) then
     l <- lift (sv_copy (templateArgs s) argPos) ;;
     modify (fun s => set_templateArgs s l)
   else ret tt) ;;;
  ret (mk_prefix (v_initial v) (v_havePrefix v) (v_maybeTemplatePrefix v) can f).

Fixpoint prefix_loop (fuel : nat) (out : nat) (v : prefix_vars) : M NameFlags :=
  match fuel with
  | O => fail OutOfFuel
  | S fuel =>
      b <- in_range ;;
      if negb b then ret (v_flags v)
      else
        c <- peek ;;
        let v' f := mk_prefix (v_initial v) true true (v_canSubstitute v) f in
        if c =c "S" then
          if negb (v_initial v) then ret (v_flags v)
          else f <- parse_substitution out (v_flags v) ;; prefix_loop fuel out (v' f)
        else if c =c "T" then
          if negb (v_initial v) then ret (v_flags v)
          else
            parse_template_param out ;;;
            prefix_loop fuel out (v' (set_isSource (v_flags v) false))
        else if c =c "I" then
          let f := set_isSource (v_flags v) false in
          if v_maybeTemplatePrefix v then
            v <- prefix_args out (mk_prefix (v_initial v) (v_havePrefix v)
                                    (v_maybeTemplatePrefix v) (v_canSubstitute v) f) ;;
            prefix_loop fuel out v
          else error ;;; ret f
        else
          ' (v, more) <- prefix_name out v ;;
          if more : bool then prefix_loop fuel out v else ret (v_flags v)
  end.

Definition parse_prefix (out : nat) (f : NameFlags) : M NameFlags :=
  p <- gets pos ;;
  (if p =? size_ then error else assert (p <? size_)) ;;;
  assert (negb (isTemplate f)) ;;;
  with_position out (prefix_loop loop_fuel out (mk_prefix true false false false f)).

Definition parse_nested_name (out : nat) (f : NameFlags) : M NameFlags :=
  b <- in_range ;; assert b ;;;
  c <- peek ;; assert (c =c "N") ;;;
  advance 1 ;;;
  cv <- gets cvQualifiers ;;
  match cv with Some q => parse_cv_qualifiers q ;;; ret tt | None => ret tt end ;;;
  good <- ok ;;
  if good : bool then
    b <- in_range ;; assert b ;;;
    f <- parse_prefix out f ;;
    expect_E ;;;
    ret f
  else ret f.

Definition parse_local_name (out : nat) : M unit :=
  b <- in_range ;; assert b ;;;
  c <- peek ;; assert (c =c "Z") ;;;
  advance 1 ;;;
  c_encoding self out ;;;
  p <- gets pos ;;
  c <- (if p + 1 <? size_ then peek else ret NUL) ;;
  if negb (c =c "E") then error
  else
    advance 1 ;;;
    emit out (B "::") ;;;
    c <- peek ;;
    i <- (if c =c "s" then emit out (B "string literal") ;;; advance 1 ;;; ret 0
          else
            ' (b, _) <- c_name self out no_flags ;;
            if b : bool then ret 1 else error ;;; ret 0) ;;
    b <- in_range ;;
    c <- (if b : bool then peek else ret NUL) ;;
    when (c =c "_") (
      advance 1 ;;;
      n <- parse_unsigned None ;;
      emit out (B " [#") ;;;
      on_out out (fun o => Ok (oappend_size o (u64 (n + i)))) ;;;
      emit out (B "]")).

Definition parse_name (out : nat) (f : NameFlags) : M (bool * NameFlags) :=
  b <- in_range ;;
  if negb b then ret (false, f)
  else
    with_position out (
      let f := set_isSource f false in
      c <- peek ;;
      if c =c "N" then f <- parse_nested_name out f ;; ret (true, f)
      else if c =c "Z" then parse_local_name out ;;; ret (true, f)
      else if c =c "S" then
        c <- peek_next ;;
        f <- parse_substitution out f ;;
        ' (b, f) <- (if c =c "t" then with_delim out (Some (B "::")) (parse_unscoped_name out f)
                     else ret (true, f)) ;;
        if negb b then ret (false, f)
        else
          c <- peek ;;
          f <- (if c =c "I" then
                  p <- position_of out ;;
                  f <- add_substitution out p f ;;
                  parse_template_args out f
                else ret f) ;;
          good <- ok ;; ret (good, f)
      else
        ' (b, f) <- parse_unscoped_name out f ;;
        if negb b then ret (false, f)
        else
          b <- in_range ;;
          c <- (if b : bool then peek else ret NUL) ;;
          f <- (if c =c "I" then
                  p <- position_of out ;;
                  f <- add_substitution out p f ;;
                  parse_template_args out f
                else ret f) ;;
          ret (true, f)).

(** ** Types *)

Definition parse_array_type (out q : nat) : M unit :=
  b <- in_range ;; assert b ;;;
  c <- peek ;; assert (c =c "A") ;;;
  advance 1 ;;;
  b <- in_range ;;
  if negb b then error
  else
    c <- peek ;;
    ' (nelem, temp) <-
      (if isdigit c then n <- parse_unsigned None ;; ret (n, None)
       else if c =c "X" then parse_expression out ;;; ret (NPOS, None)
       else if c =c "T" then
         temp <- temp_output ;; parse_template_param temp ;;; ret (NPOS, Some temp)
       else ret (NPOS, None)) ;;
    c <- peek ;;
    if negb (c =c "_") then error
    else
      advance 1 ;;;
      b <- parse_type_new out false 0 ;;
      if b : bool then
        quals <- string_at q ;;
        match quals with
        | [] => ret tt
        | _ =>
            emit out (B " (") ;;; on_out out (fun o => oappend_text o quals) ;;; emit out (B ") ")
        end ;;;
        emit out (B "[") ;;;
        when (negb (nelem =? NPOS)) (on_out out (fun o => Ok (oappend_size o nelem))) ;;;
        match temp with Some t => emit_output out t | None => ret tt end ;;;
        emit out (B "]")
      else error.

Definition parse_pointer_to_member_type (out q : nat) : M unit :=
  b <- in_range ;; assert b ;;;
  c <- peek ;; assert (c =c "M") ;;;
  advance 1 ;;;
  temp <- temp_output ;;
  b <- parse_type_new temp false 0 ;;
  if negb b then error
  else
    emit temp (B "::*") ;;;
    c <- peek ;;
    if c =c "F" then parse_function_type out q (Some temp)
    else
      b <- parse_type_new out false 0 ;;
      if negb b then error
      else emit out (B " ") ;;; emit_output out temp ;;; apply_qualifiers out q None.

(** The label [check_for_template_args]. *)
Definition check_for_template_args (out q : nat) (f : NameFlags) : M NameFlags :=
  p <- position_of out ;;
  f <- add_substitution out p f ;;
  b <- in_range ;;
  c <- (if b : bool then peek else ret NUL) ;;
  f <- (if c =c "I" then
          f <- parse_template_args out f ;;
          p <- position_of out ;; add_substitution out p f
        else ret f) ;;
  p <- position_of out ;;
  apply_qualifiers out q (Some p) ;;;
  ret f.

(** The [default] case of the switch: builtin types and class or enum types. *)
Definition builtin_or_name (out : nat) (is_ret : bool) (q : nat) : M bool :=
  quals <- string_at q ;;
  let is_ret := match quals with [] => is_ret | _ => true end in
  builtin <- parse_builtin_type out is_ret ;;
  let f := match builtin with B_VENDOR => set_isSource no_flags true | _ => no_flags end in
  ' (b, f) <- (if negb (is_none builtin) then ret (true, f) else parse_name out f) ;;
  if negb b then ret false
  else
    depth <- gets templateDepth ;;
    (if is_none_or_vendor builtin then
       let f := if depth =? 0 then f else set_isSource f true in
       p <- position_of out ;;
       add_substitution out p f ;;; ret tt
     else ret tt) ;;;
    p <- position_of out ;;
    apply_qualifiers out q (Some p) ;;;
    ret true.

(** What the switch of [parse_type] leaves to do. *)
Inductive type_next : Type :=
| TReturn (b : bool)          (* return b *)
| TAgain                      (* haveQual: the qualified type follows *)
| TDone (f : NameFlags).      (* result = true *)

Definition type_cases (out : nat) (is_ret : bool) (q : nat) : M type_next :=
  c <- peek ;;
  if c =c "A" then parse_array_type out q ;;; ret (TDone no_flags)
  else if (c =c "C") || (c =c "G") || (c =c "U") then error ;;; ret (TReturn false)
  else if c =c "F" then parse_function_type out q None ;;; ret (TDone no_flags)
  else if c =c "M" then parse_pointer_to_member_type out q ;;; ret (TDone no_flags)
  else if c =c "P" then prepend_string q (B "*") ;;; advance 1 ;;; ret TAgain
  else if c =c "R" then prepend_string q (B "&") ;;; advance 1 ;;; ret TAgain
  else if c =c "S" then
    d <- peek_next ;;
    f <- (if negb (d =c "t") then parse_substitution out no_flags
          else ' (b, f) <- parse_name out no_flags ;; when (negb b) error ;;; ret f) ;;
    f <- check_for_template_args out q f ;; ret (TDone f)
  else if c =c "T" then
    parse_template_param out ;;;
    f <- check_for_template_args out q no_flags ;; ret (TDone f)
  else
    b <- parse_cv_qualifiers q ;;
    if b : bool then ret TAgain
    else b <- builtin_or_name out is_ret q ;; ret (TReturn b).

Definition parse_type (out : nat) (is_ret : bool) (indx : Z) (q : nat) : M bool :=
  b <- in_range ;;
  if negb b then ret false
  else
    with_position out (
      o <- get_out out ;;
      with_delim out (if negb (indx =? 0) && negb is_ret then Some (B ", ") else delim o) (
        r <- type_cases out is_ret q ;;
        match r with
        | TReturn b => ret b
        | TAgain => c_type self out is_ret indx q
        | TDone f => p <- position_of out ;; add_substitution out p f ;;; ret true
        end)).

(** ** Encodings *)

Definition parse_data_or_func_name (out : nat) : M unit :=
  b <- in_range ;;
  if negb b then error
  else
    q <- new_string ;;
    temporarily cvQualifiers set_cvQualifiers (Some q) (
      temp <- temp_output ;;
      ' (b, f) <- parse_name temp no_flags ;;
      if negb b then error
      else
        isFuncName <-
          (if may_have_return_type f then
             proto <- gets inPrototype ;;
             temporarily inPrototype set_inPrototype (proto + 1) (
               outp <- (if Z.land flags_ UNMANGLE_NOFUNARGS =? 0 then ret out else temp_output) ;;
               b <- parse_type_new outp true 0 ;;
               if b : bool then emit outp (B " ") ;;; ret true else ret false)
           else ret false) ;;
        emit_output out temp ;;;
        b <- in_range ;;
        c <- (if b : bool then peek else ret "E"%char) ;;
        good <- (if isFuncName || negb (c =c "E") then emit_function_params out else ret true) ;;
        if negb good then ret tt
        else
          quals <- string_at q ;;
          when (Z.land flags_ UNMANGLE_NOFUNARGS =? 0) (on_out out (fun o => oappend_text o quals))).

(** The label [read_type] of [parse_special_name]. *)
Definition special_type (out : nat) (t : bytes) : M bool :=
  emit out t ;;; advance 2 ;;;
  b <- parse_type_new out false 0 ;;
  when (negb b) error ;;; ret b.

(** The label [_read_encoding]. *)
Definition special_encoding (out : nat) : M bool :=
  emit out (B "to ") ;;; c_encoding self out ;;; ok.

(** One offset of a covariant return thunk. *)
Definition call_offset (out : nat) : M unit :=
  c <- peek ;;
  if c =c "h" then advance 1 ;;; parse_non_virtual_offset name_ out
  else if c =c "v" then advance 1 ;;; parse_virtual_offset name_ out
  else error.

(** The [||] chain of construction vtables: an error, or all is well. *)
Definition construction_vtable (out temp : nat) : M bool :=
  b <- parse_type_new temp false 0 ;;
  if negb b then ret false
  else
    n <- parse_unsigned None ;;
    if n =? NPOS then ret false
    else
      c <- peek ;; advance 1 ;;;
      if negb (c =c "_") then ret false else parse_type_new out false 0.

Definition parse_special_name (out : nat) : M bool :=
  p <- gets pos ;;
  if negb (p <? size_) then error ;;; ret false
  else if negb (p + 1 <? size_) then ret false
  else
    c <- peek ;;
    d <- peek_next ;;
    if c =c "G" then
      if d =c "V" then
        emit out (B "guard variable for ") ;;; advance 2 ;;;
        ' (b, _) <- parse_name out no_flags ;;
        when (negb b) error ;;; ret b
      else ret false
    else if c =c "T" then
      if d =c "C" then
        emit out (B "construction vtable for ") ;;; advance 2 ;;;
        b <- in_range ;;
        if negb b then ret false
        else
          temp <- temp_output ;;
          b <- construction_vtable out temp ;;
          when (negb b) error ;;;
          emit out (B "-in-") ;;; emit_output out temp ;;; ret true
      else if d =c "T" then special_type out (B "VTT for ")
      else if d =c "I" then special_type out (B "typeinfo for ")
      else if d =c "S" then special_type out (B "typeinfo name for ")
      else if d =c "V" then special_type out (B "vtable for ")
      else if d =c "c" then
        advance 2 ;;; emit out (B "covariant return thunk ") ;;;
        b <- in_range ;; when (negb b) error ;;;
        call_offset out ;;; call_offset out ;;;
        special_encoding out
      else if d =c "h" then
        advance 2 ;;; emit out (B "non-virtual thunk ") ;;;
        parse_non_virtual_offset name_ out ;;; special_encoding out
      else if d =c "v" then
        advance 2 ;;; emit out (B "virtual thunk ") ;;;
        parse_virtual_offset name_ out ;;; special_encoding out
      else ret false
    else ret false.

Definition parse_encoding (out : nat) : M unit :=
  b <- in_range ;;
  if negb b then error
  else
    special <- parse_special_name out ;;
    if special : bool then ret tt
    else
      parse_data_or_func_name out ;;;
      b <- in_range ;;
      c <- (if b : bool then peek else ret "E"%char) ;;
      if negb (c =c "E") then
        s <- rest ;;
        on_out out (fun o => oappend o s (Z.of_nat (length s))) ;;;
        modify (fun s => set_pos s size_)
      else ret tt.

End Recursive.

(** ** The knot and the entry points *)

Definition out_of_fuel : calls :=
  mk_calls (fun _ => fail OutOfFuel) (fun _ _ _ _ => fail OutOfFuel)
           (fun _ _ => fail OutOfFuel) (fun _ _ => fail OutOfFuel).

Fixpoint decoder (fuel : nat) : calls :=
  match fuel with
  | O => out_of_fuel
  | S fuel =>
      let self := decoder fuel in
      mk_calls (parse_encoding self) (parse_type self) (parse_name self) (parse_expression_ self)
  end.

Definition run (m : M unit) : res (option bytes * dstatus) :=
  let* (_, s) := m init_state in
  Ok (if success (status s) then odetach (out_at 0 s) else None, status s).

Definition depth_fuel : nat := S (S (length name_)).

(** [parse_global_ctor_dtor] *)
Definition parse_global_ctor_dtor : res (option bytes * dstatus) :=
  run (c <- name_at 9 ;;
       emit 0 (if c =c "I" then B "global constructors keyed to "
               else B "global destructors keyed to ") ;;;
       modify (fun s => set_pos s 11) ;;;
       c <- peek ;;
       d <- (if c =c "_" then peek_next else ret NUL) ;;
       if d =c "Z" then advance 2 ;;; parse_encoding (decoder depth_fuel) 0
       else s <- rest ;; on_out 0 (fun o => oappend o s (Z.of_nat (length s)))).

Definition is_global_prefix : bool :=
  strncmp_at (B "_GLOBAL_") name_ 8.

(** [parse]: the text or null, and the status. *)
Definition parse : res (option bytes * dstatus) :=
  match name_ with
  | a :: b :: _ =>
      if (a =c "_") && (b =c "Z")
      then run (modify (fun s => set_pos s 2) ;;; parse_encoding (decoder depth_fuel) 0)
      else
        let at_ i := nth i name_ NUL in
        if is_global_prefix
           && ((at_ 8%nat =c ".") || (at_ 8%nat =c "_") || (at_ 8%nat =c "$"))
           && ((at_ 9%nat =c "D") || (at_ 9%nat =c "I")) && (at_ 10%nat =c "_")
        then parse_global_ctor_dtor
        else Ok (None, INVALID_NAME)
  | _ => Ok (None, INVALID_NAME)
  end.

End Parse.
