(* ===== verification/DecoderTotal.v ===== *)
(** * The Itanium decoder returns

    Every member function ends within the model's bounds and never moves the reading position
    backwards, provided that no number in the name is so long that it wraps around [size_t].
    All facts are about the position: [runs m s Q] says that [m] does not exhaust its bounds
    from [s] and that its value and final position satisfy [Q]. *)
From S2P Require Import Prelude CLib DString DReal LongFloat Nuts Output DecoderState Decoder.
Local Open Scope Z_scope.

Definition runs {A} (m : M A) (s : state) (Q : A -> Z -> Prop) : Prop :=
  sat (fun x => Q (fst x) (pos (snd x))) (m s).

Lemma runs_ret {A} (a : A) s (Q : A -> Z -> Prop) : Q a (pos s) -> runs (ret a) s Q.
Proof. exact (fun H => H). Qed.

Lemma runs_bind {A C} (m : M A) (k : A -> M C) s (P : A -> Z -> Prop) (Q : C -> Z -> Prop) :
  runs m s P -> (forall a s', P a (pos s') -> runs (k a) s' Q) -> runs (mbind m k) s Q.
Proof.
  unfold runs, mbind. intros Hm Hk. destruct (m s) as [[a s']|]; cbn in *; [|assumption].
  apply Hk. assumption.
Qed.

Lemma runs_mono {A} (m : M A) s (P Q : A -> Z -> Prop) :
  runs m s P -> (forall a p, P a p -> Q a p) -> runs m s Q.
Proof. unfold runs. destruct (m s) as [[a s']|]; cbn; auto. Qed.

Lemma runs_fail {A} f s (Q : A -> Z -> Prop) : f <> OutOfFuel -> runs (fail f) s Q.
Proof. exact (fun H => H). Qed.

(** Computations that leave the position where it is. *)
Definition still {A} (m : M A) : Prop := forall s, runs m s (fun _ p => p = pos s).

(** Results that are never about the model's bounds. *)
Definition sound {A} (m : res A) : Prop := m <> Fail OutOfFuel.

Create HintDb still.
Create HintDb sound.

Lemma still_bind {A C} (m : M A) (k : A -> M C) :
  still m -> (forall a, still (k a)) -> still (mbind m k).
Proof.
  intros Hm Hk s. eapply runs_bind; [apply Hm|]. cbn. intros a s' E.
  eapply runs_mono; [apply Hk|]. cbn. congruence.
Qed.

Lemma still_ret {A} (a : A) : still (ret a).
Proof. intros s. reflexivity. Qed.

Lemma still_fail {A} f : f <> OutOfFuel -> still (A:=A) (fail f).
Proof. intros H s. exact H. Qed.

Lemma still_modify f : (forall s, pos (f s) = pos s) -> still (modify f).
Proof. intros H s. cbn. apply H. Qed.

Lemma still_gets {A} (f : state -> A) : still (gets f).
Proof. intros s. reflexivity. Qed.

Lemma still_get : still get.
Proof. intros s. reflexivity. Qed.

Lemma still_lift {A} (m : res A) : sound m -> still (lift m).
Proof. intros H s. unfold runs, lift, sound in *. destruct m; cbn; congruence. Qed.

Lemma still_if {A} (b : bool) (m n : M A) : still m -> still n -> still (if b then m else n).
Proof. now destruct b. Qed.

Lemma still_when b m : still m -> still (when b m).
Proof. intros H. unfold when. destruct b; [assumption | apply still_ret]. Qed.

#[export] Hint Resolve @still_ret @still_gets still_get @still_if still_when @still_bind : still.
#[export] Hint Extern 3 (still (modify _)) => apply still_modify; intros; reflexivity : still.
#[export] Hint Extern 3 (still (fail _)) => apply still_fail; discriminate : still.
#[export] Hint Extern 3 (still (lift _)) => apply still_lift : still.

(** ** Soundness of the pure operations *)

Lemma sound_ok {A} (a : A) : sound (Ok a).
Proof. discriminate. Qed.

Lemma sound_bind {A C} (m : res A) (k : A -> res C) :
  sound m -> (forall a, sound (k a)) -> sound (bind m k).
Proof. intros Hm Hk. unfold sound in *. destruct m; cbn; [apply Hk | congruence]. Qed.

Lemma sound_fail {A} f : f <> OutOfFuel -> sound (A:=A) (Fail f).
Proof. unfold sound. congruence. Qed.

#[export] Hint Resolve @sound_ok @sound_bind : sound.
#[export] Hint Extern 1 (sound (Fail _)) => discriminate : sound.

(** Case analysis inside pure operations. *)
Ltac sound_tac :=
  repeat match goal with
  | |- sound (bind _ _) => apply sound_bind; [|intros]
  | |- sound (Ok _) => apply sound_ok
  | |- sound (Fail _) => discriminate
  | |- sound (if ?b then _ else _) => destruct b
  | |- sound (match ?x with _ => _ end) => destruct x
  | |- _ => solve [auto with sound]
  end.

Lemma sound_assert b : sound (NUTS_ASSERT b).
Proof. unfold NUTS_ASSERT. sound_tac. Qed.
#[export] Hint Resolve sound_assert : sound.

Lemma sound_t_append t c n : sound (t_append t c n).
Proof. unfold t_append. sound_tac. Qed.
#[export] Hint Resolve sound_t_append : sound.

Lemma sound_buf_append o c n : sound (buf_append o c n).
Proof. unfold buf_append. sound_tac. Qed.
#[export] Hint Resolve sound_buf_append : sound.

Lemma sound_finish o c n : sound (finish o c n).
Proof. unfold finish. sound_tac. Qed.
#[export] Hint Resolve sound_finish : sound.

Lemma sound_oappend o c n : sound (oappend o c n).
Proof. unfold oappend. sound_tac. Qed.
Lemma sound_oappend_own o c n : sound (oappend_own o c n).
Proof. unfold oappend_own. sound_tac. Qed.
Lemma sound_oappend_text o c : sound (oappend_text o c).
Proof. unfold oappend_text. destruct c; [sound_tac|]. apply sound_oappend. Qed.
Lemma sound_orewind o n : sound (orewind o n).
Proof. unfold orewind, t_rewind. sound_tac. Qed.
Lemma sound_oindex o n : sound (oindex o n).
Proof. unfold oindex, t_index. sound_tac. Qed.
Lemma sound_substr id o p n : sound (osubstr id o p n).
Proof. unfold osubstr, substring_new. sound_tac. Qed.
Lemma sound_position o : sound (position o).
Proof. unfold position, fs_top. sound_tac. Qed.
Lemma sound_pop o : sound (pop_position o).
Proof. unfold pop_position, fs_pop. sound_tac. Qed.
Lemma sound_sub_text l v : sound (sub_text l v).
Proof. unfold sub_text. sound_tac. Qed.
Lemma sound_sv_at {A} (l : list A) i : sound (sv_at l i).
Proof. unfold sv_at. sound_tac. Qed.
Lemma sound_sv_copy {A} (l : list A) i : sound (sv_copy l i).
Proof. unfold sv_copy. sound_tac. Qed.
Lemma sound_push_back {A} c (v : A) l : sound (sv_push_back c v l).
Proof. unfold sv_push_back. sound_tac. Qed.
#[export] Hint Resolve sound_oappend sound_oappend_own sound_oappend_text sound_orewind
  sound_oindex sound_substr sound_position sound_pop sound_sub_text @sound_sv_at @sound_sv_copy
  @sound_push_back : sound.

(** ** Members that do not read *)

(** Unfolds a computation into primitives and closes each of them. *)
Ltac still_tac :=
  intros;
  repeat match goal with
  | |- still (mbind _ _) => apply still_bind; [|intros]
  | |- still (if ?b then _ else _) => destruct b
  | |- still (match ?x with _ => _ end) => destruct x
  | |- still (when _ _) => apply still_when
  | |- still (lift _) => apply still_lift
  | |- sound _ => solve [sound_tac]
  | |- still _ => solve [eauto 3 with still sound]
  end.

Lemma still_assert b : still (assert b).
Proof. unfold assert. still_tac. Qed.
Lemma still_error : still error.
Proof. unfold error. still_tac. Qed.
Lemma still_ok : still ok.
Proof. unfold ok. still_tac. Qed.
Lemma still_on_out out f : (forall o, sound (f o)) -> still (on_out out f).
Proof. intros H. unfold on_out, get_out, put_out. still_tac. Qed.
#[export] Hint Resolve still_assert still_error still_ok : still.
#[export] Hint Extern 2 (still (on_out _ _)) => apply still_on_out; intros; sound_tac : still.

Lemma still_emit out t : still (emit out t).
Proof. unfold emit. still_tac. Qed.
Lemma still_out_size out : still (out_size out).
Proof. unfold out_size, get_out. still_tac. Qed.
Lemma still_out_text out : still (out_text out).
Proof. unfold out_text, get_out. still_tac. Qed.
Lemma still_get_out out : still (get_out out).
Proof. unfold get_out. still_tac. Qed.
#[export] Hint Resolve still_emit still_out_size still_out_text still_get_out : still.
Lemma still_emit_output out t : still (emit_output out t).
Proof. unfold emit_output. still_tac. Qed.
Lemma still_temp_output : still temp_output.
Proof. unfold temp_output. still_tac. Qed.
Lemma still_new_string : still new_string.
Proof. unfold new_string. still_tac. Qed.
Lemma still_string_at q : still (string_at q).
Proof. unfold string_at. still_tac. Qed.
Lemma still_put_string q t : still (put_string q t).
Proof. unfold put_string. still_tac. Qed.
#[export] Hint Resolve still_emit_output still_temp_output still_new_string still_string_at
  still_put_string : still.
Lemma still_prepend_string q t : still (prepend_string q t).
Proof. unfold prepend_string. still_tac. Qed.
Lemma still_position_of out : still (position_of out).
Proof. unfold position_of. still_tac. Qed.
Lemma still_put_delim out d : still (put_delim out d).
Proof. unfold put_delim. still_tac. Qed.
Lemma still_substr out p n : still (substr out p n).
Proof. unfold substr. still_tac. Qed.
#[export] Hint Resolve still_prepend_string still_position_of still_put_delim still_substr : still.

Section Total.
  Variable name : bytes.

Lemma still_name_at i : still (name_at name i).
Proof. unfold name_at. still_tac. Qed.
#[local] Hint Resolve still_name_at : still.
Lemma still_peek : still (peek name).
Proof. unfold peek. still_tac. Qed.
Lemma still_peek_next : still (peek_next name).
Proof. unfold peek_next. still_tac. Qed.
Lemma still_in_range : still (in_range name).
Proof. unfold in_range. still_tac. Qed.
Lemma still_rest : still (rest name).
Proof. unfold rest. still_tac. Qed.
#[local] Hint Resolve still_peek still_peek_next still_in_range still_rest : still.
Lemma still_subst_insert v b : still (subst_insert name v b).
Proof. unfold subst_insert. still_tac. Qed.
Lemma still_templateArgs_insert v : still (templateArgs_insert name v).
Proof. unfold templateArgs_insert. still_tac. Qed.
Lemma still_output_elem l out i : still (output_elem l out i).
Proof. unfold output_elem. still_tac. Qed.
#[local] Hint Resolve still_subst_insert still_templateArgs_insert still_output_elem : still.
Lemma still_add_substitution out p f : still (add_substitution name out p f).
Proof. unfold add_substitution. still_tac. Qed.
#[local] Hint Resolve still_add_substitution : still.

(** ** Scopes *)

Lemma runs_scope {A} (enter leave : M unit) (m : M A) s (Q : A -> Z -> Prop) :
  still enter -> still leave -> (forall s', pos s' = pos s -> runs m s' Q) ->
  runs (enter ;;; a <- m ;; leave ;;; ret a) s Q.
Proof.
  intros He Hl Hm. eapply runs_bind; [apply He|]. cbn. intros _ s1 E1.
  eapply runs_bind; [apply Hm; assumption|]. cbn. intros a s2 H2.
  eapply runs_bind; [apply Hl|]. cbn. intros _ s3 E3. apply runs_ret. now rewrite E3.
Qed.

Lemma runs_with_position {A} out (m : M A) s (Q : A -> Z -> Prop) :
  (forall s', pos s' = pos s -> runs m s' Q) -> runs (with_position out m) s Q.
Proof. intros H. apply runs_scope; auto with still. Qed.

Lemma runs_bind_still {A C} (m : M A) (k : A -> M C) s (Q : C -> Z -> Prop) :
  still m -> (forall a s', pos s' = pos s -> runs (k a) s' Q) -> runs (mbind m k) s Q.
Proof. intros Hm Hk. eapply runs_bind; [apply Hm | exact Hk]. Qed.

Lemma runs_bind_ret {A C} (a : A) (k : A -> M C) s (Q : C -> Z -> Prop) :
  runs (k a) s Q -> runs (mbind (ret a) k) s Q.
Proof. exact (fun H => H). Qed.

Lemma runs_with_delim {A} out d (m : M A) s (Q : A -> Z -> Prop) :
  (forall s', pos s' = pos s -> runs m s' Q) -> runs (with_delim out d m) s Q.
Proof.
  intros H. unfold with_delim. apply runs_bind_still; [auto with still|]. intros o s' E.
  apply runs_scope; auto with still. intros s2 E2. apply H. congruence.
Qed.

Lemma runs_temporarily {A T} (rd_ : state -> T) wr (v : T) (m : M A) s (Q : A -> Z -> Prop) :
  (forall s x, pos (wr s x) = pos s) ->
  (forall s', pos s' = pos s -> runs m s' Q) -> runs (temporarily rd_ wr v m) s Q.
Proof.
  intros Hw H. unfold temporarily. apply runs_bind_still; [auto with still|]. intros o s' E.
  apply runs_scope; try (apply still_modify; intros; apply Hw). intros s2 E2. apply H. congruence.
Qed.

(** ** Reading *)

#[local] Abbreviation size := (size_ name).
#[local] Abbreviation at_ i := (nth (Z.to_nat i) name NUL).

(** Bytes that are left: what the bounds are compared with. *)
Definition rem (s : state) : nat := Z.to_nat (size - pos s).

Lemma runs_peek {C} (k : ascii -> M C) s (Q : C -> Z -> Prop) :
  (forall s', pos s' = pos s -> 0 <= pos s <= size -> runs (k (at_ (pos s))) s' Q) ->
  runs (mbind (peek name) k) s Q.
Proof.
  intros H. unfold peek, name_at, gets, get, mbind, ret, fail, runs in *. cbn.
  destruct (0 <=? pos s) eqn:E1, (pos s <=? size) eqn:E2; cbn; try discriminate.
  apply (H s eq_refl). lia.
Qed.

Lemma runs_peek_last s (Q : ascii -> Z -> Prop) :
  Q (at_ (pos s)) (pos s) -> runs (peek name) s Q.
Proof.
  intros H. unfold peek, name_at, gets, get, mbind, ret, fail, runs in *. cbn.
  destruct (_ && _); cbn; [assumption | discriminate].
Qed.

Lemma at_end i : size <= i -> at_ i = NUL.
Proof. intros H. apply nth_overflow. unfold size_ in H. lia. Qed.

(** A letter that is not the terminator lies inside the name. *)
Lemma at_inside i : at_ i <> NUL -> i < size.
Proof. intros H. destruct (Z.lt_ge_cases i size); [assumption|]. exfalso. auto using at_end. Qed.

Lemma runs_in_range {C} (k : bool -> M C) s (Q : C -> Z -> Prop) :
  (forall s', pos s' = pos s -> runs (k (pos s <? size)) s' Q) ->
  runs (mbind (in_range name) k) s Q.
Proof. intros H. apply (H s eq_refl). Qed.

Lemma runs_pos {C} (k : Z -> M C) s (Q : C -> Z -> Prop) :
  (forall s', pos s' = pos s -> runs (k (pos s)) s' Q) -> runs (mbind (gets pos) k) s Q.
Proof. intros H. apply (H s eq_refl). Qed.

Lemma runs_assert {C} b (k : unit -> M C) s (Q : C -> Z -> Prop) :
  (forall s', pos s' = pos s -> b = true -> runs (k tt) s' Q) ->
  runs (mbind (assert b) k) s Q.
Proof.
  intros H. unfold assert, lift, NUTS_ASSERT, mbind, runs in *. destruct b; cbn; [|discriminate].
  apply (H s); reflexivity.
Qed.

Lemma runs_advance {C} n (k : unit -> M C) s (Q : C -> Z -> Prop) :
  (forall s', pos s' = pos s + n -> runs (k tt) s' Q) ->
  runs (mbind (advance n) k) s Q.
Proof. intros H. unfold advance, modify, mbind, runs in *. cbn. apply (H (set_pos s _)). reflexivity. Qed.

Lemma runs_advance_last n s (Q : unit -> Z -> Prop) :
  Q tt (pos s + n) -> runs (advance n) s Q.
Proof. intros H. exact H. Qed.

Lemma runs_still {A} (m : M A) s (Q : A -> Z -> Prop) :
  still m -> (forall a, Q a (pos s)) -> runs m s Q.
Proof. intros Hm H. eapply runs_mono; [apply Hm|]. cbn. intros a p ->. apply H. Qed.

(** One step of a computation. *)
Ltac step :=
  lazymatch goal with
  | |- runs (mbind (peek _) _) _ _ =>
      apply runs_peek; let s := fresh "s" in let E := fresh "E" in intros s E ?
  | |- runs (mbind (in_range _) _) _ _ =>
      apply runs_in_range; let s := fresh "s" in let E := fresh "E" in intros s E
  | |- runs (mbind (gets pos) _) _ _ =>
      apply runs_pos; let s := fresh "s" in let E := fresh "E" in intros s E
  | |- runs (mbind (assert _) _) _ _ =>
      apply runs_assert; let s := fresh "s" in let E := fresh "E" in intros s E ?
  | |- runs (mbind (advance _) _) _ _ =>
      apply runs_advance; let s := fresh "s" in let E := fresh "E" in intros s E
  | |- runs (advance _) _ _ => apply runs_advance_last
  | |- runs (with_position _ _) _ _ =>
      apply runs_with_position; let s := fresh "s" in let E := fresh "E" in intros s E
  | |- runs (with_delim _ _ _) _ _ =>
      apply runs_with_delim; let s := fresh "s" in let E := fresh "E" in intros s E
  | |- runs (temporarily _ _ _ _) _ _ =>
      apply runs_temporarily; [intros; reflexivity|];
      let s := fresh "s" in let E := fresh "E" in intros s E
  | |- runs (ret _) _ _ => apply runs_ret
  | |- runs (fail _) _ _ => apply runs_fail; discriminate
  | |- runs (mbind (ret _) _) _ _ => apply runs_bind_ret
  | |- runs (if ?b then _ else _) _ _ => destruct b eqn:?
  | |- runs (match ?x with _ => _ end) _ _ => destruct x
  | |- runs (mbind ?m _) _ _ =>
      apply runs_bind_still; [solve [still_tac]|];
      let s := fresh "s" in let E := fresh "E" in intros ? s E
  | |- runs ?m _ _ => apply runs_still; [solve [still_tac]|intros]
  end.

(** ** Numbers *)

(** Length of the run of digits at a position. *)
Definition digit_run (i : Z) : Z :=
  Z.of_nat (length (fst (span isdigit (skipn (Z.to_nat i) name)))).

Lemma digit_run_cons i : 0 <= i -> isdigit (at_ i) = true -> digit_run i = 1 + digit_run (i + 1).
Proof.
  intros Hi Hd. unfold digit_run.
  assert (i < size) as Hs. { apply at_inside. intros E. rewrite E in Hd. discriminate. }
  unfold size_ in Hs.
  assert (skipn (Z.to_nat i) name = at_ i :: skipn (Z.to_nat (i + 1)) name) as ->.
  { replace (Z.to_nat (i + 1)) with (S (Z.to_nat i)) by lia.
    assert (Z.to_nat i < length name)%nat as L by lia. revert L.
    generalize (Z.to_nat i) as j. clear. induction name as [|c n IH]; intros [|j] L; cbn in *;
      try lia; [reflexivity|]. apply IH. lia. }
  cbn [span]. rewrite Hd. destruct (span isdigit _). cbn [fst length]. lia.
Qed.

Lemma unsigned_loop_runs fuel : forall n s, 0 <= n -> (rem s < fuel)%nat ->
  runs (unsigned_loop name fuel n) s (fun v p =>
    pos s <= p <= pos s + digit_run (pos s) /\ 0 <= v < (n + 1) * 10 ^ (p - pos s)
    /\ (isdigit (at_ (pos s)) = true -> pos s < p)).
Proof.
  induction fuel as [|fuel IH]; intros n s Hn Hf; [lia|]. cbn [unsigned_loop].
  assert (0 <= digit_run (pos s)) by (unfold digit_run; lia).
  step. step.
  - step. unfold isdigit in Heqb.
    assert (0 <= code (at_ (pos s)) - 48 <= 9) as Hc by lia.
    assert (isdigit (at_ (pos s)) = true) as Hd by (unfold isdigit; lia).
    assert (pos s < size). { apply at_inside. intros X. rewrite X in Hd. discriminate. }
    set (n' := n * 10 + (code (at_ (pos s)) - 48)) in *.
    assert (0 <= u64 n' <= n') by (unfold u64; split; [apply Z.mod_pos_bound | apply Z.mod_le]; lia).
    pose proof (digit_run_cons (pos s) ltac:(lia) Hd) as Hr.
    eapply runs_mono; [apply IH; [lia | unfold rem in *; lia]|]. cbn. intros v p (A1 & A2 & _).
    rewrite E0, E in *. split; [lia|]. split; [|lia].
    assert (0 <= p - (pos s + 1)) by lia.
    replace (p - pos s) with (Z.succ (p - (pos s + 1))) by lia. rewrite Z.pow_succ_r by lia.
    assert (0 < 10 ^ (p - (pos s + 1))) by (apply Z.pow_pos_nonneg; lia). nia.
  - step. split; [lia|]. split; [|congruence].
    rewrite E. rewrite Z.sub_diag. lia.
Qed.

(** The largest run of digits whose value cannot wrap around. *)
Hypothesis short_numbers : forall i, digit_run i <= 18.
Hypothesis fits : size < Impl.USER_SPACE.

(** What most members satisfy: the position does not go back, and on success it was inside the
    name and has moved. *)
Definition grows {A} (s : state) : A -> Z -> Prop := fun _ p => pos s <= p.
Definition hits {A} (yes : A -> bool) (s : state) : A -> Z -> Prop :=
  fun a p => pos s <= p /\ (yes a = true -> pos s < p /\ pos s < size).

Definition id_bool (b : bool) : bool := b.
Definition pair_hits (r : bool * NameFlags) : bool := fst r.
Definition is_some {A} (o : option A) : bool := match o with Some _ => true | None => false end.

(** Arithmetic over the positions of the states so far. *)
Ltac norm_pos :=
  repeat match goal with
  | E : pos ?a = pos ?b |- _ => rewrite E in *; clear E
  end.
Ltac drop_letters :=
  repeat match goal with
  | H : ?b = _ |- _ => match b with context [Ascii.eqb] => clear H end
  end.
Ltac pos_lia :=
  drop_letters;
  unfold grows, hits, id_bool, pair_hits, rem in *; norm_pos; cbn [negb is_none is_some fst] in *;
  intuition (try congruence; lia).

(** A call of a member whose lemma is [L]. *)
Tactic Notation "call" uconstr(L) :=
  eapply runs_bind;
  [eapply L; try pos_lia | cbv beta; let s := fresh "s" in let H := fresh "H" in intros ? s H].

(** The last call. *)
Tactic Notation "last_call" uconstr(L) := eapply runs_mono; [eapply L; try pos_lia | cbv beta; intros].

Lemma parse_unsigned_runs o s : 0 <= pos s ->
  runs (parse_unsigned name o) s (fun v p =>
    pos s <= p <= Z.max (pos s) size /\ 0 <= v < 10 ^ 18
    /\ (isdigit (at_ (pos s)) = true -> pos s < p)).
Proof.
  intros Hp. unfold parse_unsigned. step. step.
  - step. step. apply negb_true_iff in Heqb. rewrite Heqb. pos_lia.
  - call unsigned_loop_runs. { unfold rem, size_ in *. lia. }
    step. step. destruct H0 as (A1 & A2 & A3). rewrite E in *.
    assert (10 ^ (pos s1 - pos s) <= 10 ^ 18).
    { apply Z.pow_le_mono_r; [lia|]. pose proof (short_numbers (pos s)). lia. }
    step. step. rewrite Z.mul_1_l in A2. intuition lia.
Qed.

Lemma parse_signed_runs o s : 0 <= pos s -> runs (parse_signed name o) s (grows s).
Proof.
  intros Hp. unfold parse_signed. step.
  eapply runs_bind with (P := fun _ p => pos s <= p).
  - step; [|step; pos_lia].
    step. step. step. step. pos_lia.
  - intros _ s1 H1. call parse_unsigned_runs. step. pos_lia.
Qed.

Lemma parse_signed_uscore_runs o s : 0 <= pos s ->
  runs (parse_signed_uscore name o) s (grows s).
Proof.
  intros Hp. unfold parse_signed_uscore. call parse_signed_runs. step. step; step; pos_lia.
Qed.

Lemma parse_virtual_offset_runs out s : 0 <= pos s ->
  runs (parse_virtual_offset name out) s (grows s).
Proof.
  intros Hp. unfold parse_virtual_offset. step. call parse_signed_uscore_runs. step.
  call parse_signed_uscore_runs. step. pos_lia.
Qed.

Lemma parse_non_virtual_offset_runs out s : 0 <= pos s ->
  runs (parse_non_virtual_offset name out) s (grows s).
Proof.
  intros Hp. unfold parse_non_virtual_offset. step. call parse_signed_uscore_runs. step. pos_lia.
Qed.

Lemma parse_double_runs out s : 0 <= pos s -> runs (parse_double name out) s (grows s).
Proof.
  intros Hp. unfold parse_double. step. destruct (LongFloat.strtold _) as [f r].
  step. step. step. step. pos_lia.
Qed.

Lemma skip_qualifiers_runs fuel : forall s, (rem s < fuel)%nat ->
  runs (skip_qualifiers name fuel) s (grows s).
Proof.
  induction fuel as [|fuel IH]; intros s Hf; [lia|]. cbn [skip_qualifiers]. step. step.
  - step. assert (pos s < size).
    { apply at_inside. intros X. rewrite X in Heqb. discriminate. }
    eapply runs_mono; [apply IH; pos_lia|]. pos_lia.
  - step. pos_lia.
Qed.

Lemma still_prepend_qualifiers q from n : still (prepend_qualifiers name q from n).
Proof. induction n as [|n IH]; cbn [prepend_qualifiers]; still_tac. Qed.

Lemma loop_fuel_enough s : 0 <= pos s -> (rem s < loop_fuel name)%nat.
Proof. unfold loop_fuel, rem, size_. lia. Qed.

Lemma parse_cv_qualifiers_runs q s : 0 <= pos s ->
  runs (parse_cv_qualifiers name q) s (hits id_bool s).
Proof.
  intros Hp. unfold parse_cv_qualifiers. step. step. step.
  call skip_qualifiers_runs. { apply loop_fuel_enough. lia. }
  step. apply runs_bind_still; [apply still_prepend_qualifiers|]. intros _ s9 E9.
  step. pos_lia.
Qed.

(** ** Members that do not recur *)

Lemma is_anonymous_runs len s :
  runs (is_anonymous name len) s (fun b p => p = pos s /\ (b = true -> 8 <= len)).
Proof.
  unfold is_anonymous. step; [step; pos_lia|]. step.
  step; [step|]. step; [|step; pos_lia].
  step. step. step; [|step; pos_lia]. step. step. pos_lia.
Qed.

Lemma u64_plus p len : 0 <= p <= size -> 0 <= len < 10 ^ 18 -> u64 (p + len) = p + len.
Proof.
  intros Hp Hl. unfold u64. apply Z.mod_small. unfold Impl.USER_SPACE in fits.
  change (10 ^ 18) with 1000000000000000000 in Hl. lia.
Qed.

Lemma runs_skip_len {C} len (k : unit -> M C) s (Q : C -> Z -> Prop) :
  (forall s', pos s' = u64 (pos s + len) -> runs (k tt) s' Q) ->
  runs (mbind (skip_len len) k) s Q.
Proof. intros H. unfold skip_len, modify, mbind, runs in *. cbn. apply (H (set_pos s _)). reflexivity. Qed.

Lemma source_name_runs out fuel : forall s, 0 <= pos s -> (rem s < fuel)%nat ->
  runs (source_name name fuel out) s
       (fun _ p => pos s <= p /\ (isdigit (at_ (pos s)) = true -> pos s < p)).
Proof.
  induction fuel as [|fuel IH]; intros s Hp Hf; [lia|]. cbn [source_name].
  step. step. call parse_unsigned_runs. step. rename a into len.
  match goal with H : _ /\ 0 <= len < _ /\ _ |- _ => destruct H as (A1 & A2 & A3) end.
  step; [|step; pos_lia].
  rewrite u64_plus in Heqb by lia.
  call is_anonymous_runs. step.
  - step. step. step.
    eapply runs_bind with (P := fun _ p => p = pos s2).
    { step; [step; pos_lia|]. step. step. step. pos_lia. }
    intros _ ? ?. apply runs_skip_len. intros t Et. rewrite u64_plus in Et by (norm_pos; lia).
    step. step.
    eapply runs_bind with (P := fun _ p => p = pos t).
    { step; [|step; pos_lia]. step. step. pos_lia. }
    intros _ ? ?. eapply runs_mono; [apply IH; pos_lia|]. pos_lia.
  - step. step. unfold runs, skip_len, modify. cbn. rewrite u64_plus by (norm_pos; lia). pos_lia.
Qed.

Lemma parse_source_name_runs out s : 0 <= pos s ->
  runs (parse_source_name name out) s
       (fun _ p => pos s <= p /\ (isdigit (at_ (pos s)) = true -> pos s < p)).
Proof. intros Hp. apply source_name_runs; auto using loop_fuel_enough. Qed.

Lemma parse_ctor_dtor_name_runs out s : 0 <= pos s ->
  runs (parse_ctor_dtor_name name out) s (fun _ p => pos s < p).
Proof.
  intros Hp. unfold parse_ctor_dtor_name. step. step. step. step. step. step.
  step; [step; pos_lia|]. step. step; [step; pos_lia|].
  step. step. step. step. step. step. step. step. pos_lia.
Qed.

Lemma parse_template_param_runs out s : 0 <= pos s ->
  runs (parse_template_param name out) s (fun _ p => pos s < p).
Proof.
  intros Hp. unfold parse_template_param. step. step. step. step. step. step.
  eapply runs_bind with (P := fun _ p => pos s < p).
  { step; [call parse_unsigned_runs; step; pos_lia | step; pos_lia]. }
  intros i t Ht. step. step. step. step. step. step. pos_lia.
Qed.

Lemma seq_id_runs fuel : forall i s, (rem s < fuel)%nat ->
  runs (seq_id name fuel i) s (grows s).
Proof.
  induction fuel as [|fuel IH]; intros i s Hf; [lia|]. cbn [seq_id]. step. step.
  - step. step. assert (pos s < size).
    { apply at_inside. intros X. rewrite X in Heqb. discriminate. }
    step; [step; pos_lia|]. eapply runs_mono; [apply IH; pos_lia|]. pos_lia.
  - step. step. pos_lia.
Qed.

Lemma parse_substitution_runs out f s : 0 <= pos s ->
  runs (parse_substitution name out f) s (fun _ p => pos s + 1 < p).
Proof.
  intros Hp. unfold parse_substitution. step. step. step. step. step. step.
  eapply runs_bind with (P := fun _ p => pos s < p).
  { destruct (std_abbreviation _).
    - step. step. step. step. step. pos_lia.
    - eapply runs_bind with (P := fun _ p => pos s < p).
      { step; [step; pos_lia|]. call seq_id_runs. { apply loop_fuel_enough. pos_lia. }
        step. pos_lia. }
      intros i t Ht. step. step. step. step; [|step; pos_lia]. step. step. step. step. pos_lia. }
  intros _ t Ht. step. step. pos_lia.
Qed.

Lemma parse_builtin_type_runs out r s : 0 <= pos s ->
  runs (parse_builtin_type name out r) s (hits (fun b => negb (is_none b)) s).
Proof.
  intros Hp. unfold parse_builtin_type. step.
  destruct (pos s <? size) eqn:Hin; [|step; step; cbn -[runs]; step; pos_lia].
  step. step. step.
  - step. step. step.
    + call parse_source_name_runs. step. pos_lia.
    + step. step. pos_lia.
  - step; [step; step; pos_lia|]. destruct (builtin_table _).
    + step. step. step. pos_lia.
    + step. pos_lia.
Qed.

Lemma qualifier_prefixes_still out p n fuel : forall i, (Z.to_nat (n - i) < fuel)%nat ->
  still (qualifier_prefixes name fuel out p i n).
Proof.
  induction fuel as [|fuel IH]; intros i Hf; [lia|]. cbn [qualifier_prefixes].
  destruct (i <? n) eqn:E; [|still_tac].
  apply still_bind; [still_tac|]. intros o. apply still_bind; [still_tac|]. intros c.
  destruct ((c =c "*") || (c =c "&")); [|apply IH; lia].
  do 4 (apply still_bind; [solve [still_tac]|intros]). apply IH. lia.
Qed.

Lemma still_with_delim {A} out d (m : M A) : still m -> still (with_delim out d m).
Proof. intros H s. apply runs_with_delim. intros s' E. rewrite <- E. apply H. Qed.

Lemma still_apply_qualifiers out q p : still (apply_qualifiers name out q p).
Proof.
  unfold apply_qualifiers. apply still_bind; [still_tac|]. intros [|c t]; [still_tac|].
  apply still_with_delim. do 3 (apply still_bind; [solve [still_tac]|intros]).
  apply still_bind; [|still_tac]. destruct p; [|still_tac].
  apply still_when. apply still_bind; [|still_tac]. apply qualifier_prefixes_still. lia.
Qed.
#[local] Hint Resolve still_apply_qualifiers : still.

(** ** Members that recur *)

(** The recursive calls behave in every state with fewer than [k] bytes left. *)
Record good (self : calls) (k : nat) : Prop := {
  good_encoding out s : 0 <= pos s -> (rem s < k)%nat -> runs (c_encoding self out) s (grows s);
  good_type out b i q s : 0 <= pos s -> (rem s < k)%nat ->
    runs (c_type self out b i q) s (hits id_bool s);
  good_name out f s : 0 <= pos s -> (rem s < k)%nat ->
    runs (c_name self out f) s (hits pair_hits s);
  good_expression out b s : 0 <= pos s -> (rem s < k)%nat ->
    runs (c_expression self out b) s (hits id_bool s)
}.

Variables (self : calls) (k : nat) (flags : Z).
Hypothesis IH : good self k.

Lemma parse_type_new_runs out b i s : 0 <= pos s -> (rem s < k)%nat ->
  runs (parse_type_new self out b i) s (hits id_bool s).
Proof.
  intros Hp Hk. unfold parse_type_new. step. last_call (good_type _ _ IH). pos_lia.
Qed.

Lemma parse_operator_name_runs out s : 0 <= pos s -> (rem s <= k)%nat ->
  runs (parse_operator_name name self out) s
       (fun r p => pos s <= p /\ (is_some r = true -> pos s + 1 < p)).
Proof.
  intros Hp Hk. unfold parse_operator_name. step. step. step. step. step. step; [|step; cbn; pos_lia].
  destruct (operator_table _); [|step; cbn; pos_lia]. step. step.
  eapply runs_bind with (P := fun _ p => pos s + 1 < p).
  - step; [|step; pos_lia]. call parse_type_new_runs. step. pos_lia.
  - intros _ t Ht. step. step. cbn. pos_lia.
Qed.

Lemma parse_unqualified_name_runs out f s : 0 <= pos s -> (rem s <= k)%nat ->
  runs (parse_unqualified_name name self out f) s (hits pair_hits s).
Proof.
  intros Hp Hk. unfold parse_unqualified_name. step. step. step.
  step; [call parse_ctor_dtor_name_runs; step; pos_lia|].
  step; [call parse_ctor_dtor_name_runs; step; pos_lia|].
  step; [step; cbn; pos_lia|].
  eapply runs_bind with (P := fun c p => pos s <= p /\ (isdigit c = true -> isdigit (at_ p) = true)).
  { step; [|step; pos_lia]. step. apply runs_peek_last. pos_lia. }
  intros c t [Ht Hd]. step.
  - step. step. call parse_source_name_runs. step. step. destruct a; cbn; pos_lia.
  - call parse_operator_name_runs. destruct a; step; cbn in *; pos_lia.
Qed.

Lemma parse_unscoped_name_runs out f s : 0 <= pos s -> (rem s <= k)%nat ->
  runs (parse_unscoped_name name self out f) s (hits pair_hits s).
Proof.
  intros Hp Hk. unfold parse_unscoped_name. step. step; [|step; pos_lia].
  last_call parse_unqualified_name_runs. pos_lia.
Qed.

Lemma params_loop_runs out fuel : forall i s, 0 <= pos s -> (rem s < k)%nat -> (rem s < fuel)%nat ->
  runs (params_loop self fuel out i) s (grows s).
Proof.
  induction fuel as [|fuel IHf]; intros i s Hp Hk Hf; [lia|]. cbn [params_loop].
  call parse_type_new_runs. destruct a; [|step; pos_lia].
  eapply runs_mono; [apply IHf; pos_lia|]. pos_lia.
Qed.

Lemma emit_function_params_runs out s : 0 <= pos s -> (rem s < k)%nat ->
  runs (emit_function_params name flags self out) s (grows s).
Proof.
  intros Hp Hk. unfold emit_function_params. step. step. step. step. step.
  call params_loop_runs. { apply loop_fuel_enough. pos_lia. }
  step. step. step. pos_lia.
Qed.

Lemma parse_bare_function_type_runs out q c s : 0 <= pos s -> (rem s < k)%nat ->
  runs (parse_bare_function_type name flags self out q c) s (grows s).
Proof.
  intros Hp Hk. unfold parse_bare_function_type. step. call parse_type_new_runs.
  step; [|step; pos_lia]. step. do 8 step.
  apply runs_bind_still; [destruct c; still_tac|]. intros _ ? ?. step. step. step.
  call emit_function_params_runs. do 6 step. pos_lia.
Qed.

Lemma expect_E_runs s : runs (expect_E name) s (fun _ p => p = pos s + 1).
Proof. unfold expect_E. step. step. step. step. pos_lia. Qed.

Lemma parse_function_type_runs out q c s : 0 <= pos s -> (rem s <= k)%nat ->
  runs (parse_function_type name flags self out q c) s (fun _ p => pos s < p).
Proof.
  intros Hp Hk. unfold parse_function_type. step. step. step. step. step. step.
  eapply runs_bind with (P := fun _ p => pos s < p /\ pos s < size).
  { step; [step; step|step]; pos_lia. }
  intros _ t Ht. call parse_bare_function_type_runs. last_call expect_E_runs. pos_lia.
Qed.

Lemma parse_expr_primary_runs out s : 0 <= pos s -> (rem s <= k)%nat ->
  runs (parse_expr_primary name self out) s (fun _ p => pos s < p).
Proof.
  intros Hp Hk. unfold parse_expr_primary. step. step. step. step. step. step. step.
  eapply runs_bind with (P := fun _ p => pos s < p).
  { step; [|step; pos_lia]. step. unfold when. step; step; pos_lia. }
  intros _ t Ht. step. step. step.
  - step. call (good_encoding _ _ IH). step. step. step; step; pos_lia.
  - call parse_type_new_runs. step; [step; pos_lia|]. step. step. step. step. step.
    eapply runs_bind with (P := fun _ p => pos s < p).
    { step; [last_call parse_double_runs; pos_lia|]. unfold when. step; [|step; pos_lia].
      last_call parse_signed_runs. pos_lia. }
    intros _ t2 Ht2. step. step; step; pos_lia.
Qed.

Lemma parse_expression_runs out s : 0 <= pos s -> (rem s <= k)%nat ->
  runs (parse_expression name self out) s (fun _ p => pos s < p).
Proof.
  intros Hp Hk. unfold parse_expression. step. step. step. step. step.
  call (good_expression _ _ IH). step. step; step; pos_lia.
Qed.

Lemma parse_template_arg_runs out n s : 0 <= pos s -> (rem s < k)%nat ->
  runs (parse_template_arg name self out n) s (hits id_bool s).
Proof.
  intros Hp Hk. unfold parse_template_arg. step. step; [step; pos_lia|]. step.
  eapply runs_bind with (P := hits id_bool s).
  { step.
    - call parse_expression_runs. step. step. step; [step; pos_lia|]. step. step. pos_lia.
    - step; [call parse_expr_primary_runs; step; pos_lia|].
      last_call parse_type_new_runs. pos_lia. }
  intros b t Ht. step. step. step. pos_lia.
Qed.

Lemma template_args_loop_runs out fuel : forall n s, 0 <= pos s -> (rem s < k)%nat ->
  (rem s < fuel)%nat -> runs (template_args_loop name self fuel out n) s (grows s).
Proof.
  induction fuel as [|fuel IHf]; intros n s Hp Hk Hf; [lia|]. cbn [template_args_loop].
  call parse_template_arg_runs. destruct a; [|step; pos_lia]. step. step.
  eapply runs_mono; [apply IHf; pos_lia|]. pos_lia.
Qed.

Lemma parse_template_args_runs out f s : 0 <= pos s -> (rem s <= k)%nat ->
  runs (parse_template_args name self out f) s (fun _ p => pos s < p).
Proof.
  intros Hp Hk. unfold parse_template_args. do 13 step.
  call template_args_loop_runs. { apply loop_fuel_enough. pos_lia. }
  step. step. call expect_E_runs. step. pos_lia.
Qed.

Lemma operands_runs out temp fuel : forall i n s, 0 <= pos s -> (rem s < k)%nat ->
  (Z.to_nat (n - i) < fuel)%nat -> runs (operands self fuel out temp i n) s (grows s).
Proof.
  induction fuel as [|fuel IHf]; intros i n s Hp Hk Hf; [lia|]. cbn [operands].
  step; [|step; pos_lia]. call (good_expression _ _ IH). step; [|step; pos_lia].
  step. eapply runs_mono; [apply IHf; pos_lia|]. pos_lia.
Qed.

Lemma still_unless_top b out t : still (unless_top b out t).
Proof. unfold unless_top. still_tac. Qed.
#[local] Hint Resolve still_unless_top : still.

Lemma expression_operator_runs out b s : 0 <= pos s < size -> (rem s <= k)%nat ->
  runs (expression_operator name self out b) s (hits id_bool s).
Proof.
  intros Hp Hk. unfold expression_operator. step.
  call parse_operator_name_runs. destruct a0 as [fl|]; [|step; pos_lia].
  cbn [is_some] in *. step. step.
  call operands_runs.
  { pose proof (Z.land_ones (Z.shiftr fl 3) 2 ltac:(lia)) as X. change (Z.ones 2) with 3 in X.
    rewrite X. pose proof (Z.mod_pos_bound (Z.shiftr fl 3) (2 ^ 2) ltac:(lia)).
    change (2 ^ 2) with 4 in *. lia. }
  step; [step; step; pos_lia|]. step. step. pos_lia.
Qed.

Lemma expression_type_runs out b c s : 0 <= pos s < size -> (rem s <= k)%nat ->
  runs (expression_type name self out b c) s (hits id_bool s).
Proof.
  intros Hp Hk. unfold expression_type. step. step. step. call parse_type_new_runs.
  eapply runs_bind with (P := fun _ p => pos s < p).
  { step; [step; pos_lia|]. step; [|step; pos_lia]. step. call parse_unqualified_name_runs.
    step. step; [step; pos_lia|]. step. unfold when. step; [|step; pos_lia].
    call parse_template_args_runs. step. pos_lia. }
  intros _ t Ht. step. step. pos_lia.
Qed.

Lemma parse_expression__runs out b s : 0 <= pos s -> (rem s <= k)%nat ->
  runs (parse_expression_ name self out b) s (hits id_bool s).
Proof.
  intros Hp Hk. unfold parse_expression_. step. step. step. step.
  - step. call parse_expr_primary_runs. step. step. pos_lia.
  - step.
    + step. step; [last_call expression_type_runs|last_call expression_operator_runs]; pos_lia.
    + last_call expression_operator_runs. pos_lia.
Qed.

(** ** Names *)

Lemma prefix_name_runs out v s : 0 <= pos s -> (rem s <= k)%nat ->
  runs (prefix_name name self out v) s
       (fun r p => pos s <= p /\ (snd r = true -> pos s < p /\ pos s < size)).
Proof.
  intros Hp Hk. unfold prefix_name. step. step. step. step.
  call parse_unqualified_name_runs. step. step; [step; cbn [snd]; pos_lia|].
  step. step. step. step. step. cbn [snd]. pos_lia.
Qed.

Lemma prefix_args_runs out v s : 0 <= pos s -> (rem s <= k)%nat ->
  runs (prefix_args name self out v) s (fun _ p => pos s < p).
Proof.
  intros Hp Hk. unfold prefix_args. step. step. step. call parse_template_args_runs.
  step. step. step. step. step. step. pos_lia.
Qed.

Lemma prefix_loop_runs out fuel : forall v s, 0 <= pos s -> (rem s <= k)%nat ->
  (rem s < fuel)%nat -> runs (prefix_loop name self fuel out v) s (grows s).
Proof.
  induction fuel as [|fuel IHf]; intros v s Hp Hk Hf; [lia|]. cbn [prefix_loop].
  step. step; [step; pos_lia|]. step. step.
  { step; [step; pos_lia|]. call parse_substitution_runs.
    eapply runs_mono; [apply IHf; pos_lia|]. pos_lia. }
  step.
  { step; [step; pos_lia|]. call parse_template_param_runs.
    eapply runs_mono; [apply IHf; pos_lia|]. pos_lia. }
  step.
  { step; [|step; step; pos_lia]. call prefix_args_runs.
    eapply runs_mono; [apply IHf; pos_lia|]. pos_lia. }
  call prefix_name_runs. step. cbn [snd] in *. destruct b; [|step; pos_lia].
  eapply runs_mono; [apply IHf; pos_lia|]. pos_lia.
Qed.

Lemma parse_prefix_runs out f s : 0 <= pos s -> (rem s <= k)%nat ->
  runs (parse_prefix name self out f) s (grows s).
Proof.
  intros Hp Hk. unfold parse_prefix. step. step. step. step.
  last_call prefix_loop_runs; [|pos_lia]. apply loop_fuel_enough. pos_lia.
Qed.

Lemma parse_nested_name_runs out f s : 0 <= pos s -> (rem s <= k)%nat ->
  runs (parse_nested_name name self out f) s (fun _ p => pos s < p).
Proof.
  intros Hp Hk. unfold parse_nested_name. step. step. step. step. step. step.
  eapply runs_bind with (P := fun _ p => pos s < p).
  { step; [|step; pos_lia]. call parse_cv_qualifiers_runs. step. pos_lia. }
  intros _ t Ht. step. step; [|step; pos_lia]. step. step.
  call parse_prefix_runs. call expect_E_runs. step. pos_lia.
Qed.

Lemma parse_local_name_runs out s : 0 <= pos s -> (rem s <= k)%nat ->
  runs (parse_local_name name self out) s (fun _ p => pos s < p).
Proof.
  intros Hp Hk. unfold parse_local_name. step. step. step. step. step.
  call (good_encoding _ _ IH). step. step. step; [step; pos_lia|].
  step. step. step.
  eapply runs_bind with (P := fun _ p => pos s < p).
  { step; [step; step; step; pos_lia|]. call (good_name _ _ IH). step.
    step; [step; pos_lia|]. step. step. pos_lia. }
  intros i t Ht. step. step. unfold when. step; [|step; pos_lia].
  step. call parse_unsigned_runs. step. step. step. pos_lia.
Qed.

(** Template arguments behind a name, if there are any. *)
Lemma name_args_runs out f (c : ascii) s : 0 <= pos s -> (rem s <= k)%nat ->
  runs (if c =c "I" then
          p <- position_of out ;;
          f <- add_substitution name out p f ;;
          parse_template_args name self out f
        else ret f) s (grows s).
Proof.
  intros Hp Hk. step; [|step; pos_lia]. step. step. last_call parse_template_args_runs. pos_lia.
Qed.

Lemma parse_name_runs out f s : 0 <= pos s -> (rem s <= k)%nat ->
  runs (parse_name name self out f) s (hits pair_hits s).
Proof.
  intros Hp Hk. unfold parse_name. step. step; [step; pos_lia|]. step. step.
  step; [call parse_nested_name_runs; step; pos_lia|].
  step; [call parse_local_name_runs; step; pos_lia|].
  step.
  - step. call parse_substitution_runs.
    eapply runs_bind with (P := fun _ p => pos s < p).
    { step; [|step; pos_lia]. step. last_call parse_unscoped_name_runs. pos_lia. }
    intros r t Ht. step. step; [step; pos_lia|]. step. call name_args_runs. step. step. pos_lia.
  - call parse_unscoped_name_runs. step. step; [step; pos_lia|]. step. step.
    call name_args_runs. step. pos_lia.
Qed.

(** A name that starts with a substitution moves the position in any case. *)
Lemma parse_name_S_runs out f s : 0 <= pos s < size -> at_ (pos s) = "S"%char ->
  (rem s <= k)%nat -> runs (parse_name name self out f) s (fun _ p => pos s < p).
Proof.
  intros Hp HS Hk. unfold parse_name. step. step; [step; pos_lia|]. step. step.
  replace (at_ (pos s1)) with "S"%char by (norm_pos; congruence).
  change ("S" =c "N") with false. change ("S" =c "Z") with false. change ("S" =c "S") with true.
  cbv iota. step. call parse_substitution_runs.
  eapply runs_bind with (P := fun _ p => pos s < p).
  { step; [|step; pos_lia]. step. last_call parse_unscoped_name_runs. pos_lia. }
  intros r t Ht. step. step; [step; pos_lia|]. step. call name_args_runs. step. step. pos_lia.
Qed.

(** ** Types *)

Lemma parse_array_type_runs out q s : 0 <= pos s -> (rem s <= k)%nat ->
  runs (parse_array_type name self out q) s (fun _ p => pos s < p).
Proof.
  intros Hp Hk. unfold parse_array_type. step. step. step. step. step. step.
  step; [step; pos_lia|]. step.
  eapply runs_bind with (P := fun _ p => pos s < p).
  { step; [call parse_unsigned_runs; step; pos_lia|].
    step; [call parse_expression_runs; step; pos_lia|].
    step; [|step; pos_lia]. step. call parse_template_param_runs. step. pos_lia. }
  intros r t Ht. step. step. step; [step; pos_lia|]. step. call parse_type_new_runs.
  step; [|step; pos_lia]. step. step. step. step. step. step. pos_lia.
Qed.

Lemma parse_pointer_to_member_type_runs out q s : 0 <= pos s -> (rem s <= k)%nat ->
  runs (parse_pointer_to_member_type name flags self out q) s (fun _ p => pos s < p).
Proof.
  intros Hp Hk. unfold parse_pointer_to_member_type. step. step. step. step. step. step.
  call parse_type_new_runs. step; [step; pos_lia|]. step. step.
  step; [last_call parse_function_type_runs; pos_lia|].
  call parse_type_new_runs. step; [step; pos_lia|]. step. step. step. pos_lia.
Qed.

Lemma check_for_template_args_runs out q f s : 0 <= pos s -> (rem s <= k)%nat ->
  runs (check_for_template_args name self out q f) s (grows s).
Proof.
  intros Hp Hk. unfold check_for_template_args. step. step. step. step.
  eapply runs_bind with (P := grows s).
  { step; [|step; pos_lia]. call parse_template_args_runs. step. step. pos_lia. }
  intros f' t Ht. step. step. step. pos_lia.
Qed.

Lemma builtin_or_name_runs out b q s : 0 <= pos s -> (rem s <= k)%nat ->
  runs (builtin_or_name name self out b q) s (hits id_bool s).
Proof.
  intros Hp Hk. unfold builtin_or_name. step. call parse_builtin_type_runs.
  eapply runs_bind with (P := hits pair_hits s).
  { step; [step; pos_lia|]. last_call parse_name_runs. pos_lia. }
  intros r t Ht. step. step; [step; pos_lia|]. step. step. step. step. step. pos_lia.
Qed.

Definition type_hits (r : type_next) : bool := match r with TReturn b => b | _ => true end.

Lemma type_cases_runs out b q s : 0 <= pos s < size -> (rem s <= k)%nat ->
  runs (type_cases name flags self out b q) s
       (fun r p => pos s <= p /\ (type_hits r = true -> pos s < p)).
Proof.
  intros Hp Hk. unfold type_cases. step.
  step; [call parse_array_type_runs; step; pos_lia|].
  step; [step; step; cbn [type_hits]; pos_lia|].
  step; [call parse_function_type_runs; step; pos_lia|].
  step; [call parse_pointer_to_member_type_runs; step; pos_lia|].
  step; [step; step; step; pos_lia|].
  step; [step; step; step; pos_lia|].
  step.
  { step. eapply runs_bind with (P := fun _ p => pos s < p).
    - step; [last_call parse_substitution_runs; pos_lia|].
      call parse_name_S_runs. { norm_pos. now apply Ascii.eqb_eq. }
      step. step. step. pos_lia.
    - intros f t Ht. call check_for_template_args_runs. step. pos_lia. }
  step; [call parse_template_param_runs; call check_for_template_args_runs; step; pos_lia|].
  call parse_cv_qualifiers_runs. step; [step; pos_lia|].
  call builtin_or_name_runs. step. cbn [type_hits]. pos_lia.
Qed.

Lemma parse_type_runs out b i q s : 0 <= pos s -> (rem s <= k)%nat ->
  runs (parse_type name flags self out b i q) s (hits id_bool s).
Proof.
  intros Hp Hk. unfold parse_type. step. step; [step; pos_lia|]. step. step. step.
  call type_cases_runs. step; cbn [type_hits] in *.
  - step. pos_lia.
  - last_call (good_type _ _ IH). pos_lia.
  - step. step. step. pos_lia.
Qed.

(** ** Encodings *)

Lemma parse_data_or_func_name_runs out s : 0 <= pos s -> (rem s <= k)%nat ->
  runs (parse_data_or_func_name name flags self out) s (grows s).
Proof.
  intros Hp Hk. unfold parse_data_or_func_name. step. step; [step; pos_lia|]. step. step. step.
  call parse_name_runs. step. step; [step; pos_lia|].
  eapply runs_bind with (P := fun _ p => pos s < p).
  { step; [|step; pos_lia]. step. step. step. call parse_type_new_runs.
    step; [|step; pos_lia]. step. step. pos_lia. }
  intros fn t Ht. step. step. step.
  eapply runs_bind with (P := fun _ p => pos s < p).
  { step; [last_call emit_function_params_runs; pos_lia | step; pos_lia]. }
  intros g t2 Ht2. step; [step; pos_lia|]. step. step. pos_lia.
Qed.

Lemma special_type_runs out t s : 0 <= pos s < size -> (rem s <= k)%nat ->
  runs (special_type self out t) s (grows s).
Proof.
  intros Hp Hk. unfold special_type. step. step. call parse_type_new_runs. step. step. pos_lia.
Qed.

Lemma special_encoding_runs out s : 0 <= pos s -> (rem s < k)%nat ->
  runs (special_encoding self out) s (grows s).
Proof.
  intros Hp Hk. unfold special_encoding. step. call (good_encoding _ _ IH). step. pos_lia.
Qed.

Lemma call_offset_runs out s : 0 <= pos s -> runs (call_offset name out) s (grows s).
Proof.
  intros Hp. unfold call_offset. step.
  step; [step; last_call parse_non_virtual_offset_runs; pos_lia|].
  step; [step; last_call parse_virtual_offset_runs; pos_lia|]. step. pos_lia.
Qed.

Lemma construction_vtable_runs out temp s : 0 <= pos s -> (rem s < k)%nat ->
  runs (construction_vtable name self out temp) s (grows s).
Proof.
  intros Hp Hk. unfold construction_vtable. call parse_type_new_runs. step; [step; pos_lia|].
  call parse_unsigned_runs. step; [step; pos_lia|]. step. step. step; [step; pos_lia|].
  last_call parse_type_new_runs. pos_lia.
Qed.

Lemma parse_special_name_runs out s : 0 <= pos s -> (rem s <= k)%nat ->
  runs (parse_special_name name self out) s (grows s).
Proof.
  intros Hp Hk. unfold parse_special_name. step. step; [step; step; pos_lia|].
  step; [step; pos_lia|]. step. step. step.
  - step; [|step; pos_lia]. step. step. call parse_name_runs. step. step. step. pos_lia.
  - step; [|step; pos_lia]. step.
    { step. step. step. step; [step; pos_lia|]. step. call construction_vtable_runs.
      step. step. step. step. pos_lia. }
    do 4 (step; [last_call special_type_runs; pos_lia|]).
    step.
    { step. step. step. step. call call_offset_runs. call call_offset_runs.
      last_call special_encoding_runs. pos_lia. }
    step.
    { step. step. call parse_non_virtual_offset_runs. last_call special_encoding_runs. pos_lia. }
    step; [|step; pos_lia].
    step. step. call parse_virtual_offset_runs. last_call special_encoding_runs. pos_lia.
Qed.

Lemma parse_encoding_runs out s : 0 <= pos s -> (rem s <= k)%nat ->
  runs (parse_encoding name flags self out) s (grows s).
Proof.
  intros Hp Hk. unfold parse_encoding. step. step; [step; pos_lia|].
  call parse_special_name_runs. step; [step; pos_lia|].
  call parse_data_or_func_name_runs. step.
  destruct (pos s2 <? size) eqn:Hin; [|step; change (negb ("E" =c "E")) with false; cbv iota; step; pos_lia].
  step. step; [|step; pos_lia]. step. step. unfold runs, modify. cbn. pos_lia.
Qed.

End Total.

(** ** The knot *)

Lemma decoder_good name flags (short : forall i, digit_run name i <= 18)
  (fits : size_ name < Impl.USER_SPACE) n : good name (decoder name flags n) n.
Proof.
  induction n as [|n IH].
  - split; intros; lia.
  - split; intros; cbn [decoder c_encoding c_type c_name c_expression];
      [eapply parse_encoding_runs | eapply parse_type_runs | eapply parse_name_runs
      | eapply parse_expression__runs]; try eassumption; lia.
Qed.

Lemma run_sound (m : M unit) : sat (fun _ => True) (m init_state) -> sound (run m).
Proof.
  unfold run, sound. destruct (m init_state) as [[a s]|]; cbn; congruence.
Qed.

Lemma encoding_returns name flags s :
  (forall i, digit_run name i <= 18) -> size_ name < Impl.USER_SPACE -> 0 <= pos s ->
  runs (parse_encoding name flags (decoder name flags (depth_fuel name)) 0) s (fun _ _ => True).
Proof.
  intros Hs Hf Hp. eapply runs_mono; [eapply parse_encoding_runs; try eassumption|trivial].
  - apply decoder_good; assumption.
  - unfold rem, depth_fuel, size_ in *. lia.
Qed.

(** Neither entry point exhausts the bounds of the model. *)
Lemma parse_global_sound name flags :
  (forall i, digit_run name i <= 18) -> size_ name < Impl.USER_SPACE ->
  sound (parse_global_ctor_dtor name flags).
Proof.
  intros Hs Hf. apply run_sound. eapply (sat_mono (fun _ => True)); [|trivial].
  change (runs (c <- name_at name 9 ;;
       emit 0 (if c =c "I" then B "global constructors keyed to "
               else B "global destructors keyed to ") ;;;
       modify (fun s => set_pos s 11) ;;;
       c <- peek name ;;
       d <- (if c =c "_" then peek_next name else ret NUL) ;;
       if d =c "Z" then advance 2 ;;; parse_encoding name flags (decoder name flags (depth_fuel name)) 0
       else s <- rest name ;; on_out 0 (fun o => oappend o s (Z.of_nat (length s))))
    init_state (fun _ _ => True)).
  apply runs_bind_still; [apply still_name_at|]. intros c s1 E1.
  apply runs_bind_still; [apply still_emit|]. intros _ s2 E2.
  eapply runs_bind with (P := fun _ p => p = 11); [reflexivity|]. intros _ s3 E3.
  apply runs_peek. intros s4 E4 _.
  apply runs_bind_still.
  { apply still_if; [apply still_peek_next | apply still_ret]. }
  intros d s5 E5. destruct (d =c "Z").
  - apply runs_advance. intros s6 E6. apply encoding_returns; try assumption. lia.
  - apply runs_bind_still; [apply still_rest|]. intros r s6 E6.
    apply runs_still; [|trivial]. apply still_on_out. intros. apply sound_oappend.
Qed.

Lemma parse_sound name flags :
  (forall i, digit_run name i <= 18) -> size_ name < Impl.USER_SPACE -> sound (parse name flags).
Proof.
  intros Hs Hf. unfold parse. destruct name as [|a [|b n]]; try discriminate.
  destruct (_ && _).
  - apply run_sound. eapply (sat_mono (fun _ => True)); [|trivial].
    change (runs (modify (fun s => set_pos s 2) ;;;
      parse_encoding (a :: b :: n) flags (decoder (a :: b :: n) flags (depth_fuel (a :: b :: n))) 0)
      init_state (fun _ _ => True)).
    eapply runs_bind with (P := fun _ p => p = 2); [reflexivity|]. intros _ s E.
    apply encoding_returns; try assumption. lia.
  - destruct (_ && _); [now apply parse_global_sound | discriminate].
Qed.
