(* ===== verification/DecoderFrame.v ===== *)
(** * What every member of the decoder leaves alone

    The members of [Decoder] share mutable state. [frame] relates the state before a member
    to the state after it: the fields that [Temporary] saves are back at their values, the
    dictionary of substitutions has only grown, within its capacity, and an error that was
    recorded is still there. *)
From S2P Require Import Prelude CLib DString DReal LongFloat Nuts Output DecoderState Decoder.
From Stdlib Require Import RelationClasses Morphisms.
Local Open Scope Z_scope.

Section Frame.
  Variables (name_ : bytes) (flags_ : Z).

Record frame (s s' : state) : Prop := mk_frame {
  f_status : status s = INVALID_NAME -> status s' = INVALID_NAME;
  f_depth : templateDepth s' = templateDepth s;
  f_proto : inPrototype s' = inPrototype s;
  f_prefix : inPrefix s' = inPrefix s;
  f_cv : cvQualifiers s' = cvQualifiers s;
  f_outputs : (length (outputs s) <= length (outputs s'))%nat;
  f_subst : exists l, subst s' = subst s ++ l;
  f_subst_room : Z.of_nat (length (subst s)) <= dict_capacity name_ ->
                 Z.of_nat (length (subst s')) <= dict_capacity name_;
  f_args_room : Z.of_nat (length (templateArgs s)) <= dict_capacity name_ ->
                Z.of_nat (length (templateArgs s')) <= dict_capacity name_
}.

#[export] Instance frame_refl : Reflexive frame.
Proof. intros s. split; auto. exists []. now rewrite app_nil_r. Qed.

#[export] Instance frame_trans : Transitive frame.
Proof.
  intros s1 s2 s3 [? ? ? ? ? ? [l E] ? ?] [? ? ? ? ? ? [l' E'] ? ?].
  split; try congruence; auto; [lia|]. exists (l ++ l'). now rewrite E', E, <- app_assoc.
Qed.

(** A member frames what it does not own. *)
Definition frames {A} (m : M A) : Prop :=
  forall s, match m s with Ok (_, s') => frame s s' | Fail _ => True end.

Lemma frames_ret {A} (a : A) : frames (ret a).
Proof. intros s. apply frame_refl. Qed.

Lemma frames_fail {A} f : frames (A:=A) (fail f).
Proof. intros s. exact I. Qed.

Lemma frames_bind {A C} (m : M A) (k : A -> M C) :
  frames m -> (forall a, frames (k a)) -> frames (mbind m k).
Proof.
  intros Hm Hk s. unfold mbind. specialize (Hm s). destruct (m s) as [[a s']|]; cbn; [|trivial].
  specialize (Hk a s'). destruct (k a s') as [[c s'']|]; [|trivial]. now transitivity s'.
Qed.

Lemma frames_get : frames get.
Proof. intros s. apply frame_refl. Qed.

Lemma frames_gets {A} (f : state -> A) : frames (gets f).
Proof. intros s. apply frame_refl. Qed.

Lemma frames_lift {A} (m : res A) : frames (lift m).
Proof. intros s. unfold lift. destruct m; cbn; [apply frame_refl | exact I]. Qed.

Lemma frames_modify f : (forall s, frame s (f s)) -> frames (modify f).
Proof. intros H s. apply H. Qed.

Lemma frames_when b m : frames m -> frames (when b m).
Proof. intros H. unfold when. destruct b; [assumption | apply frames_ret]. Qed.

(** A field that [frame] does not mention, or that only an error changes. *)
Ltac frame_field :=
  intros; split; cbn; auto; try (exists []; now rewrite app_nil_r).

Lemma frame_pos s p : frame s (set_pos s p).
Proof. frame_field. Qed.
Lemma frame_sourceName s p n : frame s (set_sourceName s p n).
Proof. frame_field. Qed.
Lemma frame_anonymous s b : frame s (set_anonymous s b).
Proof. frame_field. Qed.
Lemma frame_error s : frame s (set_status s INVALID_NAME).
Proof. frame_field. Qed.
Lemma frame_strings s l : frame s (set_strings s l).
Proof. frame_field. Qed.
Lemma frame_outputs s l : (length (outputs s) <= length l)%nat -> frame s (set_outputs s l).
Proof. frame_field. Qed.

Lemma length_list_set {A} (l : list A) i a : length (list_set l i a) = length l.
Proof. revert i. induction l as [|x l IH]; intros [|i]; cbn; auto. Qed.

(** The four fields that are saved and restored around a scope. *)
Class Saved {T} (read : state -> T) (write : state -> T -> state) : Prop :=
  saved : forall s s' v, frame (write s v) s' -> frame s (write s' (read s)).

Ltac saved_tac :=
  intros s s' v []; split; cbn in *; auto.

#[export] Instance saved_depth : Saved templateDepth set_templateDepth.
Proof. saved_tac. Qed.
#[export] Instance saved_proto : Saved inPrototype set_inPrototype.
Proof. saved_tac. Qed.
#[export] Instance saved_prefix : Saved inPrefix set_inPrefix.
Proof. saved_tac. Qed.
#[export] Instance saved_cv : Saved cvQualifiers set_cvQualifiers.
Proof. saved_tac. Qed.

Lemma frames_temporarily {A T} (read : state -> T) write v (m : M A) `{!Saved read write} :
  frames m -> frames (temporarily read write v m).
Proof.
  intros Hm s. unfold temporarily, gets, mbind, get, modify, ret. cbn.
  specialize (Hm (write s v)). destruct (m (write s v)) as [[a s']|]; cbn; [|trivial].
  eapply saved. eassumption.
Qed.

(** ** The members, by the structure of their code *)

Create HintDb frames.
Hint Resolve frame_pos frame_sourceName frame_anonymous frame_error frame_strings : frames.

Ltac framed :=
  repeat match goal with
  | |- forall _, _ => intros
  | |- frames (mbind _ _) => apply frames_bind; [|intros]
  | |- frames (ret _) => apply frames_ret
  | |- frames (fail _) => apply frames_fail
  | |- frames get => apply frames_get
  | |- frames (gets _) => apply frames_gets
  | |- frames (lift _) => apply frames_lift
  | |- frames (assert _) => apply frames_lift
  | |- frames (when _ _) => apply frames_when
  | |- frames (temporarily _ _ _ _) => apply frames_temporarily; [typeclasses eauto|]
  | |- frames (modify _) => apply frames_modify; intros; solve [auto with frames]
  | |- frames (if ?b then _ else _) => destruct b
  | |- frames (let '(_, _) := ?x in _) => destruct x
  | |- frames (match ?x with _ => _ end) => destruct x
  | |- _ => solve [auto with frames]
  end.

Lemma frames_error : frames error.
Proof. unfold error. framed. Qed.
Lemma frames_ok : frames ok.
Proof. apply frames_gets. Qed.
Lemma frames_put_out out o : frames (put_out out o).
Proof. apply frames_modify. intros. apply frame_outputs. now rewrite length_list_set. Qed.
Hint Resolve frames_error frames_ok frames_put_out : frames.

Lemma frames_on_out out f : frames (on_out out f).
Proof. unfold on_out, get_out. framed. Qed.
Hint Resolve frames_on_out : frames.

Lemma frames_emit out t : frames (emit out t).
Proof. apply frames_on_out. Qed.
Lemma frames_get_out out : frames (get_out out).
Proof. apply frames_gets. Qed.
Lemma frames_put_delim out d : frames (put_delim out d).
Proof. apply frames_on_out. Qed.
Hint Resolve frames_emit frames_get_out frames_put_delim : frames.

Lemma frames_out_size out : frames (out_size out).
Proof. unfold out_size. framed. Qed.
Lemma frames_out_text out : frames (out_text out).
Proof. unfold out_text. framed. Qed.
Lemma frames_position_of out : frames (position_of out).
Proof. unfold position_of. framed. Qed.
Lemma frames_substr out p n : frames (substr out p n).
Proof. unfold substr. framed. Qed.
Hint Resolve frames_out_size frames_out_text frames_position_of frames_substr : frames.

Lemma frames_emit_output out t : frames (emit_output out t).
Proof. unfold emit_output. framed. Qed.
Lemma frames_new_string : frames new_string.
Proof. unfold new_string. framed. Qed.
Lemma frames_string_at q : frames (string_at q).
Proof. unfold string_at. framed. Qed.
Lemma frames_put_string q t : frames (put_string q t).
Proof. unfold put_string. framed. Qed.
Hint Resolve frames_emit_output frames_new_string frames_string_at frames_put_string : frames.

Lemma frames_prepend_string q t : frames (prepend_string q t).
Proof. unfold prepend_string. framed. Qed.
Lemma frames_temp_output : frames temp_output.
Proof.
  unfold temp_output. framed. apply frames_modify. intros. apply frame_outputs.
  rewrite length_app. lia.
Qed.
Hint Resolve frames_prepend_string frames_temp_output : frames.

Lemma frames_with_position {A} out (m : M A) : frames m -> frames (with_position out m).
Proof. unfold with_position. framed. Qed.
Lemma frames_with_delim {A} out d (m : M A) : frames m -> frames (with_delim out d m).
Proof. unfold with_delim. framed. Qed.
Hint Extern 2 (frames (with_position _ _)) => apply frames_with_position; framed : frames.
Hint Extern 2 (frames (with_delim _ _ _)) => apply frames_with_delim; framed : frames.

Lemma frames_name_at i : frames (name_at name_ i).
Proof. unfold name_at. framed. Qed.
Hint Resolve frames_name_at : frames.
Lemma frames_peek : frames (peek name_).
Proof. unfold peek. framed. Qed.
Lemma frames_peek_next : frames (peek_next name_).
Proof. unfold peek_next. framed. Qed.
Lemma frames_advance n : frames (advance n).
Proof. unfold advance. framed. Qed.
Lemma frames_skip_len n : frames (skip_len n).
Proof. unfold skip_len. framed. Qed.
Lemma frames_in_range : frames (in_range name_).
Proof. unfold in_range. framed. Qed.
Lemma frames_rest : frames (rest name_).
Proof. unfold rest. framed. Qed.
Hint Resolve frames_peek frames_peek_next frames_advance frames_skip_len frames_in_range
  frames_rest : frames.

(** A computation that reads the state and continues with what depends on it. *)
Definition frames_at {A} (s : state) (m : M A) : Prop :=
  match m s with Ok (_, s') => frame s s' | Fail _ => True end.

Lemma frames_pointwise {A} (m : M A) : (forall s, frames_at s m) -> frames m.
Proof. exact (fun H => H). Qed.

Lemma at_get {A} s (k : state -> M A) : frames_at s (k s) -> frames_at s (mbind get k).
Proof. exact (fun H => H). Qed.

Lemma at_lift {A C} s (m : res A) (k : A -> M C) :
  (forall a, m = Ok a -> frames_at s (k a)) -> frames_at s (mbind (lift m) k).
Proof.
  unfold frames_at, mbind, lift. intros H. destruct m as [a|]; [|exact I].
  exact (H a eq_refl).
Qed.

Lemma at_assoc {A C D} s (m : M A) (k : A -> M C) (h : C -> M D) :
  frames_at s (mbind m (fun a => mbind (k a) h)) -> frames_at s (mbind (mbind m k) h).
Proof. unfold frames_at, mbind. destruct (m s) as [[a s']|]; auto. Qed.

Lemma at_ret {A C} s (a : A) (k : A -> M C) : frames_at s (k a) -> frames_at s (mbind (ret a) k).
Proof. exact (fun H => H). Qed.

Lemma at_done {A} s (m : M A) : frames m -> frames_at s m.
Proof. intros H. apply H. Qed.

Lemma push_back_room {T} cap (v : T) l l' : sv_push_back cap v l = Ok l' ->
  l' = l ++ [v] /\ Z.of_nat (length l') <= cap.
Proof.
  unfold sv_push_back, NUTS_ASSERT. destruct (_ <? cap) eqn:E; cbn; intros H; inv_ok.
  rewrite length_app. cbn [length]. split; [reflexivity | lia].
Qed.

Lemma frame_push s v l : sv_push_back (dict_capacity name_) v (subst s) = Ok l ->
  frame s (set_subst s l).
Proof. intros H. apply push_back_room in H as [-> H]. split; cbn; auto. eauto. Qed.

Lemma frame_push_arg s v l : sv_push_back (dict_capacity name_) v (templateArgs s) = Ok l ->
  frame s (set_templateArgs s l).
Proof.
  intros H. apply push_back_room in H as [-> H]. split; cbn; auto.
  exists []. now rewrite app_nil_r.
Qed.

Lemma frames_subst_insert v b : frames (subst_insert name_ v b).
Proof.
  unfold subst_insert. destruct (_ =? 0); [apply frames_ret|].
  apply frames_pointwise. intros s. apply at_get.
  assert (forall d : bool, frames_at s (if d then
      tv <- lift (sub_text (outputs s) v) ;;
      assert (negb (hd NUL tv =c ",")) ;;;
      (if hd NUL tv =c ":" then ret tt
       else l <- lift (sv_push_back (dict_capacity name_) v (subst s)) ;;
            modify (fun s => set_subst s l))
    else ret tt)) as Hpush.
  { intros [|]; [|apply at_done, frames_ret].
    apply at_lift. intros tv _. apply at_lift. intros _ _.
    destruct (_ =c ":"); [apply at_done, frames_ret|].
    apply at_lift. intros l Hl. eapply frame_push. exact Hl. }
  destruct b; [apply at_ret, (Hpush true)|].
  destruct (subst s) as [|v0 l0] eqn:E; [apply at_ret, (Hpush true)|].
  cbv zeta. do 2 (apply at_assoc, at_lift; intros ? _). apply at_assoc, at_lift. intros _ _.
  apply at_ret, (Hpush (negb _)).
Qed.

Lemma frames_templateArgs_insert v : frames (templateArgs_insert name_ v).
Proof.
  unfold templateArgs_insert. destruct (_ =? 0); [apply frames_ret|].
  apply frames_pointwise. intros s. apply at_get. apply at_lift. intros l Hl.
  eapply frame_push_arg. exact Hl.
Qed.
Hint Resolve frames_subst_insert frames_templateArgs_insert : frames.

Lemma frames_output_elem d out i : frames (output_elem d out i).
Proof. unfold output_elem. framed. Qed.
Lemma frames_add_substitution out p f : frames (add_substitution name_ out p f).
Proof. unfold add_substitution. framed. Qed.
Lemma frames_unsigned_loop fuel n : frames (unsigned_loop name_ fuel n).
Proof. revert n. induction fuel; intros; cbn; framed. Qed.
Hint Resolve frames_output_elem frames_add_substitution frames_unsigned_loop : frames.
Lemma frames_parse_unsigned o : frames (parse_unsigned name_ o).
Proof. unfold parse_unsigned. framed. Qed.
Hint Resolve frames_parse_unsigned : frames.
Lemma frames_parse_signed o : frames (parse_signed name_ o).
Proof. unfold parse_signed. framed. Qed.
Hint Resolve frames_parse_signed : frames.
Lemma frames_parse_signed_uscore o : frames (parse_signed_uscore name_ o).
Proof. unfold parse_signed_uscore. framed. Qed.
Hint Resolve frames_parse_signed_uscore : frames.
Lemma frames_parse_virtual_offset out : frames (parse_virtual_offset name_ out).
Proof. unfold parse_virtual_offset. framed. Qed.
Lemma frames_parse_non_virtual_offset out : frames (parse_non_virtual_offset name_ out).
Proof. unfold parse_non_virtual_offset. framed. Qed.
Hint Resolve frames_parse_virtual_offset frames_parse_non_virtual_offset : frames.
Lemma frames_parse_double out : frames (parse_double name_ out).
Proof. unfold parse_double. framed. Qed.
Lemma frames_skip_qualifiers fuel : frames (skip_qualifiers name_ fuel).
Proof. induction fuel; cbn; framed. Qed.
Lemma frames_prepend_qualifiers q p n : frames (prepend_qualifiers name_ q p n).
Proof. induction n; cbn [prepend_qualifiers]; framed. Qed.
Hint Resolve frames_parse_double frames_skip_qualifiers frames_prepend_qualifiers : frames.
Lemma frames_parse_cv_qualifiers q : frames (parse_cv_qualifiers name_ q).
Proof. unfold parse_cv_qualifiers. framed. Qed.
Lemma frames_is_anonymous n : frames (is_anonymous name_ n).
Proof. unfold is_anonymous. framed. Qed.
Hint Resolve frames_parse_cv_qualifiers frames_is_anonymous : frames.
Lemma frames_source_name fuel out : frames (source_name name_ fuel out).
Proof. induction fuel; cbn [source_name]; framed. Qed.
Lemma frames_parse_source_name out : frames (parse_source_name name_ out).
Proof. apply frames_source_name. Qed.
Lemma frames_parse_ctor_dtor_name out : frames (parse_ctor_dtor_name name_ out).
Proof. unfold parse_ctor_dtor_name. framed. Qed.
Lemma frames_parse_template_param out : frames (parse_template_param name_ out).
Proof. unfold parse_template_param. framed. Qed.
Lemma frames_seq_id fuel i : frames (seq_id name_ fuel i).
Proof. revert i. induction fuel; intros; cbn [seq_id]; framed. Qed.
Hint Resolve frames_parse_source_name frames_parse_ctor_dtor_name frames_parse_template_param
  frames_seq_id : frames.
Lemma frames_parse_substitution out f : frames (parse_substitution name_ out f).
Proof. unfold parse_substitution. framed. Qed.
Lemma frames_parse_builtin_type out b : frames (parse_builtin_type name_ out b).
Proof. unfold parse_builtin_type. framed. Qed.
Lemma frames_qualifier_prefixes fuel out p i n : frames (qualifier_prefixes name_ fuel out p i n).
Proof. revert i. induction fuel; intros; cbn [qualifier_prefixes]; framed. Qed.
Hint Resolve frames_parse_substitution frames_parse_builtin_type frames_qualifier_prefixes : frames.
Lemma frames_apply_qualifiers out q p : frames (apply_qualifiers name_ out q p).
Proof. unfold apply_qualifiers. framed. Qed.
Hint Resolve frames_apply_qualifiers : frames.

(** ** The members that recur, given that the recursive calls are framed *)

Record framed_calls (self : calls) : Prop := {
  fc_encoding out : frames (c_encoding self out);
  fc_type out b i q : frames (c_type self out b i q);
  fc_name out f : frames (c_name self out f);
  fc_expression out b : frames (c_expression self out b)
}.

Section Recursive.
  Context (self : calls) (Hself : framed_calls self).

Hint Extern 1 (frames (c_encoding _ _)) => apply (fc_encoding _ Hself) : frames.
Hint Extern 1 (frames (c_type _ _ _ _ _)) => apply (fc_type _ Hself) : frames.
Hint Extern 1 (frames (c_name _ _ _)) => apply (fc_name _ Hself) : frames.
Hint Extern 1 (frames (c_expression _ _ _)) => apply (fc_expression _ Hself) : frames.

Lemma frames_parse_type_new out b i : frames (parse_type_new self out b i).
Proof. unfold parse_type_new. framed. Qed.
Hint Resolve frames_parse_type_new : frames.
Lemma frames_parse_operator_name out : frames (parse_operator_name name_ self out).
Proof. unfold parse_operator_name. framed. Qed.
Hint Resolve frames_parse_operator_name : frames.
Lemma frames_parse_unqualified_name out f : frames (parse_unqualified_name name_ self out f).
Proof. unfold parse_unqualified_name. framed. Qed.
Hint Resolve frames_parse_unqualified_name : frames.
Lemma frames_parse_unscoped_name out f : frames (parse_unscoped_name name_ self out f).
Proof. unfold parse_unscoped_name. framed. Qed.
Lemma frames_params_loop fuel out i : frames (params_loop self fuel out i).
Proof. revert i. induction fuel; intros; cbn [params_loop]; framed. Qed.
Hint Resolve frames_parse_unscoped_name frames_params_loop : frames.
Lemma frames_emit_function_params out : frames (emit_function_params name_ flags_ self out).
Proof. unfold emit_function_params. framed. Qed.
Hint Resolve frames_emit_function_params : frames.
Lemma frames_parse_bare_function_type out q k :
  frames (parse_bare_function_type name_ flags_ self out q k).
Proof. unfold parse_bare_function_type. framed. Qed.
Lemma frames_expect_E : frames (expect_E name_).
Proof. unfold expect_E. framed. Qed.
Hint Resolve frames_parse_bare_function_type frames_expect_E : frames.
Lemma frames_parse_function_type out q k : frames (parse_function_type name_ flags_ self out q k).
Proof. unfold parse_function_type. framed. Qed.
Lemma frames_parse_expr_primary out : frames (parse_expr_primary name_ self out).
Proof. unfold parse_expr_primary. framed. Qed.
Lemma frames_parse_expression out : frames (parse_expression name_ self out).
Proof. unfold parse_expression. framed. Qed.
Hint Resolve frames_parse_function_type frames_parse_expr_primary frames_parse_expression : frames.
Lemma frames_parse_template_arg out p : frames (parse_template_arg name_ self out p).
Proof. unfold parse_template_arg. framed. Qed.
Hint Resolve frames_parse_template_arg : frames.
Lemma frames_template_args_loop fuel out p : frames (template_args_loop name_ self fuel out p).
Proof. revert p. induction fuel; intros; cbn [template_args_loop]; framed. Qed.
Hint Resolve frames_template_args_loop : frames.
Lemma frames_parse_template_args out f : frames (parse_template_args name_ self out f).
Proof. unfold parse_template_args. framed. Qed.
Lemma frames_operands fuel out t i n : frames (operands self fuel out t i n).
Proof. revert i. induction fuel; intros; cbn [operands]; framed. Qed.
Lemma frames_unless_top b out t : frames (unless_top b out t).
Proof. unfold unless_top. framed. Qed.
Hint Resolve frames_parse_template_args frames_operands frames_unless_top : frames.
Lemma frames_expression_operator out b : frames (expression_operator name_ self out b).
Proof. unfold expression_operator. framed. Qed.
Lemma frames_expression_type out b c : frames (expression_type name_ self out b c).
Proof. unfold expression_type. framed. Qed.
Hint Resolve frames_expression_operator frames_expression_type : frames.
Lemma frames_parse_expression_ out b : frames (parse_expression_ name_ self out b).
Proof. unfold parse_expression_. framed. Qed.

(** ** Names *)

Lemma frames_prefix_name out v : frames (prefix_name name_ self out v).
Proof. unfold prefix_name. framed. Qed.
Hint Resolve frames_prefix_name : frames.

(** The end of a template prefix: the arguments before it are dropped. *)
Lemma frames_keep_args {A} p (k : M A) : frames k -> frames (s <- get ;;
  (if (templateDepth s =? 0) && (inPrototype s =? 0) then
     l <- lift (sv_copy (templateArgs s) p) ;; modify (fun s => set_templateArgs s l)
   else ret tt) ;;; k).
Proof.
  intros Hk. apply frames_pointwise. intros s. apply at_get.
  destruct (_ && _); [|now apply at_done]. apply at_assoc, at_lift. intros l Hl.
  unfold sv_copy in Hl. destruct (_ <=? _) eqn:E in Hl; inv Hl.
  unfold frames_at, mbind, modify. cbn. specialize (Hk (set_templateArgs s (skipn (Z.to_nat p) (templateArgs s)))).
  destruct (k _) as [[a s']|]; [|exact I]. etransitivity; [|exact Hk].
  split; cbn; auto; [exists []; now rewrite app_nil_r|]. rewrite length_skipn. lia.
Qed.

Lemma frames_prefix_args out v : frames (prefix_args name_ self out v).
Proof.
  unfold prefix_args. repeat (apply frames_bind; [solve [framed]|intros]).
  match goal with |- frames (let '(_, _) := ?x in _) => destruct x end.
  apply frames_keep_args. framed.
Qed.
Hint Resolve frames_prefix_args : frames.

Lemma frames_prefix_loop fuel out v : frames (prefix_loop name_ self fuel out v).
Proof. revert v. induction fuel; intros; cbn [prefix_loop]; framed. Qed.
Hint Resolve frames_prefix_loop : frames.
Lemma frames_parse_prefix out f : frames (parse_prefix name_ self out f).
Proof. unfold parse_prefix. framed. Qed.
Hint Resolve frames_parse_prefix : frames.
Lemma frames_parse_nested_name out f : frames (parse_nested_name name_ self out f).
Proof. unfold parse_nested_name. framed. Qed.
Lemma frames_parse_local_name out : frames (parse_local_name name_ self out).
Proof. unfold parse_local_name. framed. Qed.
Hint Resolve frames_parse_nested_name frames_parse_local_name : frames.
Lemma frames_parse_name out f : frames (parse_name name_ self out f).
Proof. unfold parse_name. framed. Qed.
Hint Resolve frames_parse_name : frames.

(** ** Types and encodings *)

Lemma frames_parse_array_type out q : frames (parse_array_type name_ self out q).
Proof. unfold parse_array_type. framed. Qed.
Lemma frames_parse_pointer_to_member_type out q :
  frames (parse_pointer_to_member_type name_ flags_ self out q).
Proof. unfold parse_pointer_to_member_type. framed. Qed.
Lemma frames_check_for_template_args out q f :
  frames (check_for_template_args name_ self out q f).
Proof. unfold check_for_template_args. framed. Qed.
Lemma frames_builtin_or_name out b q : frames (builtin_or_name name_ self out b q).
Proof. unfold builtin_or_name. framed. Qed.
Hint Resolve frames_parse_array_type frames_parse_pointer_to_member_type
  frames_check_for_template_args frames_builtin_or_name : frames.
Lemma frames_type_cases out b q : frames (type_cases name_ flags_ self out b q).
Proof. unfold type_cases. framed. Qed.
Hint Resolve frames_type_cases : frames.
Lemma frames_parse_type out b i q : frames (parse_type name_ flags_ self out b i q).
Proof. unfold parse_type. framed. Qed.

Lemma frames_parse_data_or_func_name out : frames (parse_data_or_func_name name_ flags_ self out).
Proof. unfold parse_data_or_func_name. framed. Qed.
Lemma frames_special_type out t : frames (special_type self out t).
Proof. unfold special_type. framed. Qed.
Lemma frames_special_encoding out : frames (special_encoding self out).
Proof. unfold special_encoding. framed. Qed.
Lemma frames_call_offset out : frames (call_offset name_ out).
Proof. unfold call_offset. framed. Qed.
Lemma frames_construction_vtable out t : frames (construction_vtable name_ self out t).
Proof. unfold construction_vtable. framed. Qed.
Hint Resolve frames_parse_data_or_func_name frames_special_type frames_special_encoding
  frames_call_offset frames_construction_vtable : frames.
Lemma frames_parse_special_name out : frames (parse_special_name name_ self out).
Proof. unfold parse_special_name. framed. Qed.
Hint Resolve frames_parse_special_name : frames.
Lemma frames_parse_encoding out : frames (parse_encoding name_ flags_ self out).
Proof. unfold parse_encoding. framed. Qed.

End Recursive.

(** Whatever the bound on the depth, the knot is framed. *)
Lemma decoder_framed fuel : framed_calls (decoder name_ flags_ fuel).
Proof.
  induction fuel as [|fuel IH]; split; intros; cbn [decoder c_encoding c_type c_name c_expression].
  1-4: apply frames_fail.
  - now apply frames_parse_encoding.
  - now apply frames_parse_type.
  - now apply frames_parse_name.
  - now apply frames_parse_expression_.
Qed.

End Frame.

(** C14: the discipline of the decoder's shared state. Whatever the name and however deep the
    nesting, a call of [parse_encoding], [parse_type], [parse_name] or [parse_expression_]
    that returns has restored [templateDepth_], [inPrototype_], [inPrefix_] and
    [cvQualifiers_], has not cleared an error, has only added to the dictionary of
    substitutions, whose earlier indices stay valid, and has kept both dictionaries within
    the capacity that was allocated for them. *)
Theorem members_restore_state (name : bytes) (flags : Z) (fuel : nat) :
  framed_calls name (decoder name flags fuel).
Proof. apply decoder_framed. Qed.
