(* ===== verification/DecoderCorrect.v ===== *)
(** * What the Itanium decoder guarantees

    It returns on every name without overlong numbers, and the names on which it does not
    return, reads past the end or rejects what it should accept; the operator names it
    recognizes, and the sequence ids of substitutions. *)
From S2P Require Import Prelude CLib DString DReal LongFloat Nuts Output OutputCorrect.
From S2P Require Import DecoderState Decoder DecoderTotal DecoderFrame.
Local Open Scope Z_scope.

(** ** Termination *)

(** No run of digits has more than eighteen of them, so that no length wraps around. *)
Fixpoint short_numbers (s : bytes) : bool :=
  (length (fst (span isdigit s)) <=? 18)%nat
  && match s with [] => true | _ :: s => short_numbers s end.

Lemma short_numbers_skipn s k : short_numbers s = true ->
  (length (fst (span isdigit (skipn k s))) <= 18)%nat.
Proof.
  revert k. induction s as [|c s IH]; intros k H; cbn [short_numbers] in H;
    apply andb_true_iff in H as [H1 H2].
  - rewrite skipn_nil. cbn. lia.
  - destruct k as [|k]; cbn [skipn]; [now apply Nat.leb_le | now apply IH].
Qed.

Lemma short_numbers_run name i : short_numbers name = true -> digit_run name i <= 18.
Proof.
  intros H. unfold digit_run. pose proof (short_numbers_skipn name (Z.to_nat i) H). lia.
Qed.

(** C15: termination. On every name without a number of nineteen digits or more, the
    mutually recursive members and the loops of the decoder end within bounds that are
    linear in the length of the name, whatever the name holds otherwise. *)
Theorem decoder_terminates (name : bytes) (flags : Z) :
  short_numbers name = true -> size_ name < Impl.USER_SPACE ->
  parse name flags <> Fail OutOfFuel.
Proof. intros H. apply parse_sound. intros i. now apply short_numbers_run. Qed.

Lemma decoder_terminates_witness : parse (B "_ZN3foo3barIiEEvPKcRS1_") 0 <> Fail OutOfFuel.
Proof. apply decoder_terminates; vm_compute; reflexivity. Defined.

(** ** A name that is never done *)

(** The length is [2^64 - 20], so that the position returns to the length itself. *)
Definition endless : bytes := B "_ZN18446744073709551596_GLOBAL__NE".

(** Running a known first step. *)
Lemma mbind_ok {A C} (m : M A) (k : A -> M C) s a s' :
  m s = Ok (a, s') -> mbind m k s = k a s'.
Proof. unfold mbind. now intros ->. Qed.

Definition updated (out : nat) (o : Output) (s : state) : state :=
  set_outputs s (list_set (outputs s) out o).

Lemma on_out_ok out f s o : f (out_at out s) = Ok o -> on_out out f s = Ok (tt, updated out o s).
Proof.
  intros H. unfold on_out, get_out, gets, mbind, get, ret, lift, put_out, modify. cbn.
  rewrite H. reflexivity.
Qed.

Lemma emit_ok out lit s : lit <> [] -> Z.of_nat (length lit) <> NPOS ->
  exists o, emit out lit s = Ok (tt, updated out o s).
Proof.
  intros Hl Hn. destruct (oappend_spec (out_at out s) lit (Z.of_nat (length lit)))
    as (o & E & _); [destruct lit; [congruence | cbn [length]; lia] | assumption|].
  exists o. apply on_out_ok. assumption.
Qed.

Lemma mbind_fail {A C} (m : M A) (k : A -> M C) s f :
  m s = Fail f -> mbind m k s = Fail f.
Proof. unfold mbind. now intros ->. Qed.

Lemma endless_source_name fuel out s :
  pos s = 3 -> inPrefix s = true -> source_name endless fuel out s = Fail OutOfFuel.
Proof.
  revert s. induction fuel as [|fuel IH]; intros s Hp Hi; [reflexivity|].
  cbn [source_name]. destruct s. cbn in Hp, Hi. subst.
  erewrite mbind_ok by reflexivity. erewrite mbind_ok by reflexivity.
  erewrite mbind_ok by (vm_compute; reflexivity). erewrite mbind_ok by reflexivity.
  cbn [pos]. change (_ <=? _) with true. cbv iota.
  erewrite mbind_ok by (vm_compute; reflexivity). cbv iota. unfold with_position.
  erewrite mbind_ok by (apply on_out_ok; reflexivity). apply mbind_fail.
  edestruct (emit_ok out ANONYMOUS_NS_PREFIX) as [o Ho]; [discriminate | discriminate|].
  erewrite mbind_ok by exact Ho. erewrite mbind_ok by reflexivity. cbn [inPrefix]. cbv iota.
  erewrite mbind_ok by reflexivity. erewrite mbind_ok by reflexivity.
  edestruct (emit_ok out (B "::")) as [o' Ho']; [discriminate | discriminate|].
  erewrite mbind_ok by exact Ho'. erewrite mbind_ok by reflexivity.
  destruct (_ =? 0); (erewrite mbind_ok by reflexivity); apply IH; reflexivity.
Qed.

(** a length that wraps around. In the nested name [_ZN18446744073709551596_GLOBAL__NE]
    the length of the anonymous namespace moves the position back to itself, so that
    [parse_source_name] calls itself again and again: no bound on the depth is enough, in
    whatever state the prefix is parsed, and so the decoder does not return. *)
Theorem source_name_endless (fuel out : nat) (s : state) :
  pos s = 3 -> inPrefix s = true ->
  source_name endless fuel out s = Fail OutOfFuel /\ parse endless 0 = Fail OutOfFuel.
Proof. intros Hp Hi. split; [now apply endless_source_name | vm_compute; reflexivity]. Qed.

Lemma source_name_endless_witness :
  source_name endless 1000 0 (set_inPrefix (set_pos init_state 3) true) = Fail OutOfFuel
  /\ parse endless 0 = Fail OutOfFuel.
Proof. apply source_name_endless; reflexivity. Defined.

(** ** Operator names *)

(** The operators of two letters that are followed neither by a type nor by a vendor name. *)
Definition plain_operator (d : bytes * Operator) : bool :=
  (length (fst d) =? 2)%nat && negb (length (demangled (snd d)) =? 0)%nat
  && (Z.land (op_flags (snd d)) (OPF_CAST + OPF_VENDOR) =? 0).

Definition operator_eqb (a b : Operator) : bool :=
  (if list_eq_dec ascii_dec (demangled a) (demangled b) then true else false)
  && (op_flags a =? op_flags b).

Lemma operator_eqb_eq a b : operator_eqb a b = true -> a = b.
Proof.
  unfold operator_eqb. destruct a as [d f], b as [d' f']. cbn [demangled op_flags].
  destruct (list_eq_dec _ _ _); [|discriminate]. intros. f_equal; [assumption | lia].
Qed.

(** What is to check of each entry: the table has it, and its letters are in range. *)
Definition entry_ok (d : bytes * Operator) : bool :=
  negb (plain_operator d) ||
  match fst d with
  | [n; m] =>
      (97 <=? code n) && (code n <=? 122) && (65 <=? code m) && (code m <=? 122)
      && (match operator_table (table_index (code n - 97) (code m - 65)) with
          | Some op => operator_eqb op (snd d)
          | None => false
          end)
      && (Z.land (op_flags (snd d)) OPF_CAST =? 0) && (Z.land (op_flags (snd d)) OPF_VENDOR =? 0)
      && negb (Z.of_nat (length (demangled (snd d))) =? NPOS)
  | _ => false
  end.

Lemma entries_ok : forallb entry_ok oper = true.
Proof. vm_compute. reflexivity. Qed.

Lemma entry_of d : In d oper -> plain_operator d = true ->
  exists n m, fst d = [n; m]
  /\ (97 <=? code n) && (code n <=? 122) && (65 <=? code m) && (code m <=? 122) = true
  /\ operator_table (table_index (code n - 97) (code m - 65)) = Some (snd d)
  /\ Z.land (op_flags (snd d)) OPF_CAST = 0 /\ Z.land (op_flags (snd d)) OPF_VENDOR = 0
  /\ (0 < length (demangled (snd d)))%nat /\ Z.of_nat (length (demangled (snd d))) <> NPOS.
Proof.
  intros Hin Hp. pose proof entries_ok as H. rewrite forallb_forall in H. specialize (H d Hin).
  unfold entry_ok in H. rewrite Hp in H. cbn [negb orb] in H.
  destruct (fst d) as [|n [|m [|x r]]]; try discriminate. exists n, m.
  apply andb_true_iff in H as [H Hn]. apply andb_true_iff in H as [H Hv].
  apply andb_true_iff in H as [H Hc]. apply andb_true_iff in H as [H Ht].
  destruct (operator_table _) as [op|]; [|discriminate].
  apply operator_eqb_eq in Ht. subst op. unfold plain_operator in Hp.
  apply andb_true_iff in Hp as [Hp _]. apply andb_true_iff in Hp as [_ Hl].
  repeat split; try assumption; lia.
Qed.

(** Reading the name at a known offset. *)
Lemma name_at_app pre c r s : name_at (pre ++ c :: r) (Z.of_nat (length pre)) s = Ok (c, s).
Proof.
  unfold name_at, size_. rewrite length_app. cbn [length].
  replace (_ && _) with true by lia. rewrite Nat2Z.id, app_nth2, Nat.sub_diag by lia. reflexivity.
Qed.

Lemma peek_app pre c r s : pos s = Z.of_nat (length pre) -> peek (pre ++ c :: r) s = Ok (c, s).
Proof.
  intros H. unfold peek. erewrite mbind_ok by reflexivity. rewrite H. apply name_at_app.
Qed.

Lemma peek_next_app pre c d r s : pos s = Z.of_nat (length pre) ->
  peek_next (pre ++ c :: d :: r) s = Ok (d, s).
Proof.
  intros H. unfold peek_next. erewrite mbind_ok by reflexivity. rewrite H.
  replace (Z.of_nat (length pre) + 1) with (Z.of_nat (length (pre ++ [c])))
    by (rewrite length_app; cbn; lia).
  change (c :: d :: r) with ([c] ++ d :: r). rewrite app_assoc. apply name_at_app.
Qed.

Lemma in_range_app pre c r s : pos s = Z.of_nat (length pre) ->
  in_range (pre ++ c :: r) s = Ok (true, s).
Proof.
  intros H. unfold in_range. erewrite mbind_ok by reflexivity. rewrite H.
  unfold size_. rewrite length_app. cbn [length]. replace (_ <? _) with true by lia. reflexivity.
Qed.

Lemma list_set_nth {A} (l : list A) i a d : (i < length l)%nat -> nth i (list_set l i a) d = a.
Proof. revert i. induction l as [|x l IH]; intros [|i]; cbn; intros; [lia..|reflexivity|]. apply IH. lia. Qed.

Lemma out_at_updated out o s : (out < length (outputs s))%nat -> out_at out (updated out o s) = o.
Proof. intros H. unfold out_at, updated. cbn. now apply list_set_nth. Qed.

Lemma emit_text out lit s : (0 < length lit)%nat -> Z.of_nat (length lit) <> NPOS ->
  exists o, on_out out (fun o => oappend o lit (Z.of_nat (length lit))) s = Ok (tt, updated out o s)
  /\ content o = content (out_at out s) ++ separator (out_at out s) (hd NUL lit) ++ lit.
Proof.
  intros Hl Hn. destruct (oappend_spec (out_at out s) lit (Z.of_nat (length lit)))
    as (o & E & Hc & _); [lia | assumption|]. exists o. split; [now apply on_out_ok|].
  rewrite Hc, Nat2Z.id, firstn_all. reflexivity.
Qed.

(** Operator names. Wherever the two letters of an operator stand in the name, the
    decoder consumes them, reports the operator's flags and appends the operator's text to
    the output, behind a pending delimiter if there is one; only the operators that may be
    followed by a template argument list ask for a space before its bracket. *)
Theorem operator_names_decoded (d : bytes * Operator) (pre rest : bytes) (self : calls)
  (out : nat) (s : state) :
  In d oper -> plain_operator d = true ->
  pos s = Z.of_nat (length pre) -> (out < length (outputs s))%nat ->
  exists s', parse_operator_name (pre ++ fst d ++ rest) self out s = Ok (Some (op_flags (snd d)), s')
  /\ pos s' = pos s + 2
  /\ content (out_at out s') = content (out_at out s)
       ++ separator (out_at out s) (hd NUL (demangled (snd d))) ++ demangled (snd d)
  /\ spaceOnce (out_at out s') = negb (Z.land (op_flags (snd d)) OPF_SPACE_ONCE =? 0).
Proof.
  intros Hin Hp Hpos Hout. destruct (entry_of d Hin Hp) as (n & m & -> & Hr & Ht & Hc & Hv & Hl & Hn).
  unfold parse_operator_name. cbn [app]. erewrite mbind_ok by now apply in_range_app.
  erewrite mbind_ok by reflexivity. erewrite mbind_ok by now apply peek_app.
  erewrite mbind_ok by reflexivity. replace (_ + 1 <? _) with true
    by (unfold size_; rewrite length_app; cbn [length]; lia).
  erewrite mbind_ok by now apply peek_next_app.
  rewrite Hr, Ht. destruct (emit_text out (demangled (snd d)) s Hl Hn) as (o & Ho & Hco).
  erewrite mbind_ok by exact Ho. erewrite mbind_ok by reflexivity. rewrite Hc, Hv.
  erewrite mbind_ok by reflexivity. erewrite mbind_ok by (apply on_out_ok; reflexivity).
  eexists. split; [reflexivity|]. split; [reflexivity|].
  rewrite out_at_updated by (cbn; now rewrite length_list_set). split; [|reflexivity].
  change (out_at out (set_pos (updated out o s) _)) with (out_at out (updated out o s)).
  rewrite out_at_updated by assumption. exact Hco.
Qed.

Lemma operator_names_decoded_witness :
  exists s', parse_operator_name (B "_ZlsRSoi") (decoder (B "_ZlsRSoi") 0 3) 0 (set_pos init_state 2)
             = Ok (Some (OPF_SPACE_ONCE + OPF_BINARY), s')
  /\ pos s' = 4 /\ content (out_at 0 s') = B "operator<<" /\ spaceOnce (out_at 0 s') = true.
Proof.
  apply (operator_names_decoded (B "ls", mk_operator (B "operator<<") (OPF_SPACE_ONCE + OPF_BINARY))
    (B "_Z") (B "RSoi")); [vm_compute; tauto | reflexivity | reflexivity | cbn; lia].
Defined.

Lemma oappend_nothing o : exists o', oappend o [] 0 = Ok o'.
Proof.
  unfold oappend, finish, buf_append. cbn [t_append bind hd].
  destruct (buf (prepare o NUL)); [eexists; reflexivity|].
  destruct (content (prepare o NUL)); eexists; reflexivity.
Qed.

(** Vendor operators. The operator [v <digit> <source-name>] of the grammar is never
    recognized: its table entry is written at the index of the letters [tt], because the
    second letter of its one-letter name is the terminator. *)
Theorem vendor_operator_misplaced (pre rest : bytes) (c : ascii) (self : calls) (out : nat)
  (s : state) :
  pos s = Z.of_nat (length pre) -> isdigit c = true ->
  parse_operator_name (pre ++ "v"%char :: c :: rest) self out s = Ok (None, s)
  /\ exists s', parse_operator_name (pre ++ B "tt" ++ rest) self out s = Ok (Some OPF_VENDOR, s')
     /\ status s' = INVALID_NAME.
Proof.
  intros Hpos Hc. split; unfold parse_operator_name; cbn [app list_ascii_of_string].
  - erewrite mbind_ok by now apply in_range_app. erewrite mbind_ok by reflexivity.
    erewrite mbind_ok by now apply peek_app. erewrite mbind_ok by reflexivity.
    replace (_ + 1 <? _) with true by (unfold size_; rewrite length_app; cbn [length]; lia).
    erewrite mbind_ok by now apply peek_next_app. unfold isdigit in Hc.
    replace (65 <=? code c) with false by lia. now rewrite andb_false_r.
  - erewrite mbind_ok by now apply in_range_app. erewrite mbind_ok by reflexivity.
    erewrite mbind_ok by now apply peek_app. erewrite mbind_ok by reflexivity.
    replace (_ + 1 <? _) with true by (unfold size_; rewrite length_app; cbn [length]; lia).
    erewrite mbind_ok by now apply peek_next_app.
    change (operator_table _) with (Some (mk_operator [] OPF_VENDOR)). cbv iota.
    change (_ && _) with true. cbv iota. cbn [demangled op_flags length].
    destruct (oappend_nothing (out_at out s)) as [o Ho].
    erewrite mbind_ok by (apply on_out_ok; exact Ho). erewrite mbind_ok by reflexivity.
    change (negb _) with false at 1. cbv iota. change (negb _) with true at 1.
    erewrite mbind_ok by reflexivity. erewrite mbind_ok by (apply on_out_ok; reflexivity).
    eexists. split; reflexivity.
Qed.

Lemma vendor_operator_misplaced_witness :
  parse_operator_name (B "_Zv13foo") (out_of_fuel) 0 (set_pos init_state 2)
  = Ok (None, set_pos init_state 2)
  /\ exists s', parse_operator_name (B "_Ztt3foo") (out_of_fuel) 0 (set_pos init_state 2)
                = Ok (Some OPF_VENDOR, s') /\ status s' = INVALID_NAME.
Proof.
  split.
  - apply (vendor_operator_misplaced (B "_Z") (B "3foo") "1"); reflexivity.
  - apply (vendor_operator_misplaced (B "_Z") (B "3foo") "1"); reflexivity.
Defined.

(** ** Substitutions *)

(** The digits of a sequence id, and their value in base 36. *)
Definition is36 (c : ascii) : bool := isdigit c || isupper c.
Definition digit36 (c : ascii) : Z := if isdigit c then code c - 48 else code c - 65 + 10.
Definition val36 (ds : bytes) (v : Z) : Z := fold_left (fun v c => v * 36 + digit36 c) ds v.

(** The index that a sequence id stands for: none is the first entry. *)
Definition seq_index (ds : bytes) : Z := match ds with [] => 0 | _ => val36 ds 0 + 1 end.

Lemma digit36_range c : is36 c = true -> 0 <= digit36 c < 36.
Proof. unfold is36, digit36, isdigit, isupper. intros. destruct (_ && _) eqn:E; lia. Qed.

Lemma val36_grows ds v : forallb is36 ds = true -> 0 <= v -> v <= val36 ds v.
Proof.
  revert v. induction ds as [|c ds IH]; intros v Hd Hv; cbn in *; [lia|].
  apply andb_true_iff in Hd as [Hc Hd]. pose proof (digit36_range c Hc).
  specialize (IH (v * 36 + digit36 c) Hd ltac:(lia)). unfold val36 in IH. lia.
Qed.

Lemma is36_not_uscore c : is36 c = true -> (c =c "_") = false.
Proof. intros H. destruct (Ascii.eqb_spec c "_"); [subst; discriminate | reflexivity]. Qed.

Lemma val36_cons c ds v : val36 (c :: ds) v = val36 ds (v * 36 + digit36 c).
Proof. reflexivity. Qed.

(** One digit of a sequence id. *)
Lemma seq_id_step c pre d r fuel v s :
  is36 c = true -> 0 <= v -> v * 36 + digit36 c < 2 ^ 64 -> pos s = Z.of_nat (length pre) ->
  seq_id (pre ++ c :: d :: r) (S fuel) v s
  = (if d =c "_" then ret (v * 36 + digit36 c)
     else seq_id (pre ++ c :: d :: r) fuel (v * 36 + digit36 c)) (set_pos s (pos s + 1)).
Proof.
  intros Hc Hv Hlt Hp. pose proof (digit36_range c Hc). cbn [seq_id].
  erewrite mbind_ok by now apply peek_app. unfold is36 in Hc. rewrite Hc. cbv zeta iota.
  fold (digit36 c). rewrite (u64_id (v * 36)), u64_id by lia. erewrite mbind_ok by reflexivity.
  erewrite mbind_ok; [reflexivity|]. change (c :: d :: r) with ([c] ++ d :: r).
  rewrite app_assoc. apply peek_app. cbn [pos set_pos]. rewrite length_app. cbn [length]. lia.
Qed.

Lemma seq_id_value c ds pre r fuel v s :
  forallb is36 (c :: ds) = true -> (length ds < fuel)%nat -> 0 <= v ->
  val36 (c :: ds) v < 2 ^ 64 -> pos s = Z.of_nat (length pre) ->
  seq_id (pre ++ (c :: ds) ++ "_"%char :: r) fuel v s
  = Ok (val36 (c :: ds) v, set_pos s (pos s + Z.of_nat (length (c :: ds)))).
Proof.
  revert c pre fuel v s. induction ds as [|d ds IH]; intros c pre fuel v s Hd Hf Hv Hlt Hp;
    (destruct fuel as [|fuel]; [lia|]); cbn [app];
    cbn [forallb] in Hd; apply andb_true_iff in Hd as [Hc Hd];
    pose proof (digit36_range c Hc) as Hr; rewrite val36_cons in *.
  - rewrite seq_id_step by assumption. reflexivity.
  - assert (v * 36 + digit36 c < 2 ^ 64).
    { pose proof (val36_grows (d :: ds) (v * 36 + digit36 c) Hd). lia. }
    rewrite seq_id_step by assumption.
    rewrite is36_not_uscore by (cbn [forallb] in Hd; now apply andb_true_iff in Hd).
    change (c :: d :: ds ++ "_"%char :: r) with ([c] ++ ((d :: ds) ++ "_"%char :: r)).
    rewrite app_assoc, (IH d (pre ++ [c])); cbn [length pos set_pos] in *; try assumption; try lia.
    + do 2 f_equal. unfold set_pos. cbn. f_equal. lia.
    + rewrite length_app. cbn [length]. lia.
Qed.

Lemma sub_text_spec outs v t : sub_text outs v = Ok t -> 0 <= sub_pos v -> 0 < sub_len v ->
  firstn (Z.to_nat (sub_len v)) (skipn (Z.to_nat (sub_pos v))
    (content (nth (sub_str v) outs new_output))) = t
  /\ sub_pos v + sub_len v <= osize (nth (sub_str v) outs new_output).
Proof.
  unfold sub_text, osize. destruct (_ <=? _) eqn:E; intros H; inv H. intros. split; [reflexivity | lia].
Qed.

(** A range of another output, or of the same one, is appended as it reads. *)
Lemma append_range o src p n t : 0 <= p -> 0 < n -> n <> NPOS -> p + n <= osize src ->
  firstn (Z.to_nat n) (skipn (Z.to_nat p) (content src)) = t ->
  (exists o', oappend o (skipn (Z.to_nat p) (content src)) n = Ok o'
   /\ content o' = content o ++ separator o (hd NUL t) ++ t)
  /\ (exists o', oappend_own src p n = Ok o'
      /\ content o' = content src ++ separator src (hd NUL t) ++ t).
Proof.
  intros Hp Hn Hnp Hle Ht. unfold osize in Hle.
  assert (hd NUL (skipn (Z.to_nat p) (content src)) = hd NUL t) as Hhd.
  { rewrite <- Ht. destruct (skipn _ _); [now rewrite firstn_nil|].
    destruct (Z.to_nat n) eqn:E; [lia | reflexivity]. }
  assert (n <= Z.of_nat (length (skipn (Z.to_nat p) (content src)))) as Hl
    by (rewrite length_skipn; lia).
  split.
  - destruct (oappend_spec o _ n (conj Hn Hl) Hnp) as (o' & E & Hc & _). exists o'.
    rewrite Hc, Hhd, Ht. auto.
  - unfold oappend_own. unfold content in Hle at 1. destruct (buf src) as [b|] eqn:Eb; [|cbn in Hle; lia].
    assert (content src = b) as Hb by (unfold content; now rewrite Eb). rewrite Hb in *.
    replace (p <? _) with true by lia. cbv zeta. rewrite Hhd.
    assert (skipn (Z.to_nat p) (content (prepare src (hd NUL t)))
            = skipn (Z.to_nat p) b ++ separator src (hd NUL t)) as Hs.
    { rewrite prepare_content, Hb, skipn_app. now replace (_ - _)%nat with O by lia. }
    destruct (finish_spec (prepare src (hd NUL t)) (skipn (Z.to_nat p) (content (prepare src (hd NUL t)))) n)
      as (o' & E & Hc & _); [rewrite Hs, length_app; lia | assumption|].
    exists o'. split; [exact E|]. rewrite Hc, Hs, prepare_content, Hb, <- app_assoc. f_equal. f_equal.
    rewrite firstn_app. replace (_ - _)%nat with O by lia. cbn [firstn]. now rewrite app_nil_r.
Qed.

Lemma output_elem_spec dict out i v t s :
  nth_error dict (Z.to_nat i) = Some v -> 0 <= i ->
  sub_text (outputs s) v = Ok t -> 0 <= sub_pos v -> 0 < sub_len v < NPOS ->
  exists o, output_elem dict out i s = Ok (true, updated out o s)
  /\ content o = content (out_at out s) ++ separator (out_at out s) (hd NUL t) ++ t.
Proof.
  intros Hv Hi Ht Hp Hl. destruct (sub_text_spec _ _ _ Ht Hp ltac:(lia)) as [Ht' Hle].
  assert (i < Z.of_nat (length dict)) as Hlt.
  { apply Z2Nat.inj_lt; [lia..|]. rewrite Nat2Z.id. apply nth_error_Some. congruence. }
  unfold output_elem. replace (i <? _) with true by lia.
  erewrite mbind_ok.
  2:{ unfold lift, sv_at. rewrite Hv. replace (i <? _) with true by lia. reflexivity. }
  erewrite mbind_ok by reflexivity.
  destruct (append_range (out_at out s) (nth (sub_str v) (outputs s) new_output) (sub_pos v)
    (sub_len v) t Hp ltac:(lia) ltac:(lia) Hle Ht') as [(o1 & E1 & H1) (o2 & E2 & H2)].
  destruct (Nat.eqb_spec (sub_str v) out) as [Heq|Hne].
  - subst out. exists o2. split; [|exact H2].
    erewrite mbind_ok by (apply on_out_ok; exact E2). reflexivity.
  - exists o1. split; [|exact H1]. erewrite mbind_ok by (apply on_out_ok; exact E1). reflexivity.
Qed.

Lemma set_pos_twice s p q : set_pos (set_pos s p) q = set_pos s q.
Proof. reflexivity. Qed.

Lemma std_abbreviation_36 c : is36 c = true -> std_abbreviation c = None.
Proof.
  unfold is36, isdigit, isupper. intros H. destruct (std_abbreviation c) eqn:E; [|reflexivity].
  exfalso. revert H E. destruct c as [[|] [|] [|] [|] [|] [|] [|] [|]]; vm_compute; congruence.
Qed.

(** The digits behind [S]: none, or a sequence id. *)
Lemma seq_reference ds pre r s (name := pre ++ ds ++ "_"%char :: r) :
  forallb is36 ds = true -> seq_index ds < 2 ^ 63 -> pos s = Z.of_nat (length pre) ->
  exists c, peek name s = Ok (c, s) /\ std_abbreviation c = None
  /\ (if c =c "_" then ret 0 else n <- seq_id name (loop_fuel name) 0 ;; ret (u64 (n + 1))) s
     = Ok (seq_index ds, set_pos s (pos s + Z.of_nat (length ds))).
Proof.
  intros Hd Hi Hp. destruct ds as [|c ds].
  - exists "_"%char. split; [now apply peek_app|]. split; [reflexivity|].
    cbn. unfold ret. rewrite Z.add_0_r. now destruct s.
  - exists c. split; [now apply peek_app|].
    assert (is36 c = true) as Hc by (cbn [forallb] in Hd; now apply andb_true_iff in Hd).
    split; [now apply std_abbreviation_36|]. rewrite is36_not_uscore by assumption.
    cbn [seq_index] in Hi. pose proof (val36_grows (c :: ds) 0 Hd ltac:(lia)).
    erewrite mbind_ok.
    2:{ apply seq_id_value; try assumption; [|lia..]. unfold loop_fuel, name.
        rewrite !length_app. cbn [length]. lia. }
    rewrite u64_id by lia. reflexivity.
Qed.

Lemma seq_index_nonneg ds : forallb is36 ds = true -> 0 <= seq_index ds.
Proof.
  intros Hd. destruct ds as [|c ds]; cbn [seq_index]; [lia|].
  pose proof (val36_grows (c :: ds) 0 Hd). lia.
Qed.

(** C19: back references. Behind [S], no digits stand for the first entry of the dictionary
    and the base-36 numeral [n] for entry [n + 1]: the decoder consumes the reference up to
    its underscore, appends to the output the text that the entry's range holds, behind a
    pending delimiter if there is one, and remembers the index. *)
Theorem substitution_refers (ds pre r : bytes) (out : nat) (f : NameFlags) (s : state)
  (v : substring) (t : bytes) :
  forallb is36 ds = true -> seq_index ds < 2 ^ 63 ->
  pos s = Z.of_nat (length pre) -> status s = SUCCESS -> (out < length (outputs s))%nat ->
  nth_error (subst s) (Z.to_nat (seq_index ds)) = Some v ->
  sub_text (outputs s) v = Ok t -> 0 <= sub_pos v -> 0 < sub_len v < NPOS ->
  exists s', parse_substitution (pre ++ "S"%char :: ds ++ "_"%char :: r) out f s
             = Ok (set_isSource f false, s')
  /\ pos s' = pos s + Z.of_nat (length ds) + 2
  /\ content (out_at out s') = content (out_at out s) ++ separator (out_at out s) (hd NUL t) ++ t
  /\ substIndex (out_at out s') = seq_index ds.
Proof.
  intros Hd Hi Hp Hs Ho Hv Ht Hvp Hvl. unfold parse_substitution.
  erewrite mbind_ok by now apply in_range_app. erewrite mbind_ok by reflexivity.
  erewrite mbind_ok by now apply peek_app. erewrite mbind_ok by reflexivity.
  erewrite mbind_ok by reflexivity.
  change ("S"%char :: ds ++ "_"%char :: r) with ([("S"%char)] ++ ds ++ "_"%char :: r).
  rewrite app_assoc. set (s1 := set_pos s (pos s + 1)).
  destruct (seq_reference ds (pre ++ ["S"%char]) r s1 Hd Hi) as (c & Hc & Ha & Hseq).
  { unfold s1. cbn [pos set_pos]. rewrite length_app. cbn [length]. lia. }
  erewrite mbind_ok by exact Hc. rewrite Ha. set (i := seq_index ds) in *.
  set (s2 := set_pos s1 (pos s1 + Z.of_nat (length ds))) in *.
  destruct (output_elem_spec (subst s2) out i v t s2 Hv (seq_index_nonneg ds Hd) Ht Hvp Hvl)
    as (o & Ho1 & Hco).
  erewrite mbind_ok.
  2:{ erewrite mbind_ok by exact Hseq. erewrite mbind_ok by reflexivity.
      replace (_ <=? _) with true.
      2:{ unfold s2, s1, size_. cbn [pos set_pos]. rewrite !length_app. cbn [length]. lia. }
      erewrite mbind_ok by reflexivity. erewrite mbind_ok by reflexivity.
      change (status s2) with (status s). rewrite Hs. cbv iota. cbn [success].
      erewrite mbind_ok by reflexivity. erewrite mbind_ok by exact Ho1.
      erewrite mbind_ok by reflexivity. apply on_out_ok. reflexivity. }
  erewrite mbind_ok by reflexivity. eexists. split; [reflexivity|].
  split; [cbn; lia|].
  match goal with |- context [set_pos (updated out ?o' ?s') _] =>
    change (out_at out (set_pos (updated out o' s') _)) with (out_at out (updated out o' s')) end.
  rewrite out_at_updated by (cbn; now rewrite length_list_set).
  rewrite out_at_updated by (cbn; assumption). split; [exact Hco | reflexivity].
Qed.

(** A state behind [f(std::vector]: entry 37 of the dictionary is the class. *)
Definition sample_state : state :=
  set_subst (set_outputs (set_pos init_state 2)
    [mk_output (Some (B "f(std::vector")) (Some (B ", ")) false NPOS []])
    (repeat (mk_sub 0 0 1) 37 ++ [mk_sub 0 2 11]).

Lemma substitution_refers_witness :
  exists s', parse_substitution (B "_ZS10_") 0 no_flags sample_state = Ok (no_flags, s')
  /\ pos s' = 6 /\ content (out_at 0 s') = B "f(std::vector, std::vector"
  /\ substIndex (out_at 0 s') = 37.
Proof.
  apply (substitution_refers (B "10") (B "_Z") [] 0 no_flags sample_state (mk_sub 0 2 11)
    (B "std::vector")); try reflexivity; cbn; lia.
Defined.

(** ** Names that the decoder mishandles *)

(** A function with one parameter that is a pointer of [n] levels to [int]. *)
Definition deep_pointer (n : nat) : bytes := B "_Z1f" ++ repeat "P"%char n ++ B "i".

(** The dictionary is too small. Its capacity is half the length of the name, but every
    level of a pointer is an entry: a parameter of six levels of indirection is decoded, and
    one of seven makes the valid name throw. *)
Theorem dictionary_overflow :
  parse (deep_pointer 6) 0 = Ok (Some (B "f(int******)"), SUCCESS)
  /\ parse (deep_pointer 7) 0 = Fail Thrown.
Proof. split; vm_compute; reflexivity. Qed.

(** Reading past the terminator. In the name [_ZS] the substitution has no letter; the
    position is moved past the end of the name, and the next character is read there. *)
Theorem lone_substitution_overrun (flags : Z) : parse (B "_ZS") flags = Fail OutOfBounds.
Proof. vm_compute. reflexivity. Qed.
