(* ===== verification/DecoderTests.v ===== *)
(** * The decoder on the names of its own test program ([unmangle/test_decoder.cpp])

    The pairs of mangled name and expected text of the test program, for the configuration in
    which the library is built. The test of a lambda, whose name the decoder gives up on and
    leaves to [__cxa_demangle], is not among them. *)
From S2P Require Import Prelude CLib DString DReal LongFloat Nuts Output DecoderState Decoder.

(** The function [test] of the program: the name, without options, is decoded to the text. *)
Definition test (name expect : bytes) : bool :=
  match parse name 0 with
  | Ok (Some t, SUCCESS) => if list_eq_dec ascii_dec t expect then true else false
  | _ => false
  end.

Local Open Scope string_scope.

Definition test_names : list (string * string) :=
  [ ("_Z2Ab",
      "Ab");
    ("_ZNSt2AbE",
      "std::Ab");
    ("_Z3fooKPv",
      "foo(void* const)");
    ("_Z3fooPKv",
      "foo(void const*)");
    ("_ZNSt3FooC1Ev",
      "std::Foo::Foo()");
    ("_ZN7DerivedC1Ev",
      "Derived::Derived()");
    ("_ZN7DerivedD1Ev",
      "Derived::~Derived()");
    ("_ZNSt3FooC1Eif",
      "std::Foo::Foo(int, float)");
    ("_Z3funcz",
      "fun(char, ...)");
    ("_Z3fooPv",
      "foo(void*)");
    ("_Z3fooPPv",
      "foo(void**)");
    ("_Z3fooPKPVv",
      "foo(void volatile* const*)");
    ("_Z3fooPFviE",
      "foo(void (*)(int))");
    ("_Z3fooKPFviE",
      "foo(void (* const)(int))");
    ("_Z3fun1A",
      "fun(A)");
    ("_Z3funKPN1EE",
      "fun(E* const)");
    ("_Z1fRKiS_v",
      "f(int const&, int const)");
    ("_ZN3FooaSERKS_",
      "Foo::operator=(Foo const&)");
    ("_ZN1AC1IiEEv",
      "A::A<int>()");
    ("_ZN1AC1IfEEv",
      "A::A<float>()");
    ("_ZN1AC1IdEEv",
      "A::A<double>()");
    ("_ZN1AC1IgEEv",
      "A::A<__float128>()");
    ("_ZN1AC1IcEEv",
      "A::A<char>()");
    ("_ZN1AC1IPcEEv",
      "A::A<char*>()");
    ("_Z1f3FooIiEc",
      "f(Foo<int>, char)");
    ("_Z1f3FooIiES_",
      "f(Foo<int>, Foo)");
    ("_Z1f3FooIiES0_",
      "f(Foo<int>, Foo<int>)");
    ("_Z1f3FooIiES_IcE",
      "f(Foo<int>, Foo<char>)");
    ("_Z1f3FooIiES_IcES1_",
      "f(Foo<int>, Foo<char>, Foo<char>)");
    ("_ZNVK3FoocviEv",
      "Foo::operator int() volatile const");
    ("_Z3FunKi",
      "Fun(int const)");
    ("_ZN1A1BC1IiEERKT_",
      "A::B::B<int>(int const&)");
    ("_ZN1A1BC1IiEERKS0_",
      "A::B::B<int>(A::B const&)");
    ("_ZNK4MetaI1TE3getEv",
      "Meta<T>::get() const");
    ("_Z3funIiEiT_",
      "int fun<int>(int)");
    ("_Z3funIiPcEiT0_",
      "int fun<int, char*>(char*)");
    ("_Z1FPKvS_",
      "F(void const*, void const)");
    ("_Z1FPKvS0_",
      "F(void const*, void const*)");
    ("_ZN1FI3FooS_IiEE1fEv",
      "F<Foo, F<int> >::f()");
    ("_ZN1FI3FooS0_IiEE1fEv",
      "F<Foo, Foo<int> >::f()");
    ("_ZN1FI3FooS_IiEE1fES_IcE",
      "F<Foo, F<int> >::f(F<char>)");
    ("_Z1fIiiEvT0_",
      "void f<int, int>(int)");
    ("_Z1fIiiEvT0_",
      "void f<int, int>(int)");
    ("_Z3foo5Hello5WorldS0_S_",
      "foo(Hello, World, World, Hello)");
    ("_Z3funI3FooE3BarIT_EPS2_",
      "Bar<Foo> fun<Foo>(Foo*)");
    ("_Z1FIiLl2EE",
      "F<int, (long)2>");
    ("_Z1FI1TIiELl2EE",
      "F<T<int>, (long)2>");
    ("_Z1FILl2E1FIiES1_E",
      "F<(long)2, F<int>, F<int> >");
    ("_Z1FILl2E1FIiES0_E",
      "F<(long)2, F<int>, F>");
    ("_Z1FILl2E1FIiES1_E",
      "F<(long)2, F<int>, F<int> >");
    ("_Z1FILl2ES_IiES0_E",
      "F<(long)2, F<int>, F<int> >");
    ("_Z1FILl2EN1F1fIiEES2_E",
      "F<(long)2, F::f<int>, F::f<int> >");
    ("_Z1FILl2EN1F1fIiEES1_E",
      "F<(long)2, F::f<int>, F::f>");
    ("_ZN1FILl2ES_IiES0_E1FET1_S2_v",
      "F<(long)2, F<int>, F<int> >::F(F<int>, F<int>)");
    ("_ZN1FILl2E1FIiES1_E1FET1_S1_v",
      "F<(long)2, F<int>, F<int> >::F(F<int>, F<int>)");
    ("_Z1AIi1BIicELb0EE",
      "A<int, B<int, char>, (bool)0>");
    ("_Z1AIi1BI1CIiPcEELb0EE",
      "A<int, B<C<int, char*> >, (bool)0>");
    ("_Z3fooIxE",
      "foo<long long>");
    ("_Z3fooILf1.2EE",
      "foo<(float)[1.2]>");
    ("_Z3fooILd1.2EE",
      "foo<(double)[1.2]>");
    ("_Z3fooILg1.2EE",
      "foo<(__float128)[1.2]>");
    ("_Z1fA20_iv",
      "f(int[20])");
    ("_Z1fA_iv",
      "f(int[])");
    ("_Z14interface_castI7IntType8DataType7RefBaseIS1_EE6RefPtrIT_S2_IS5_EES4_IT0_T1_E",
      "RefPtr<IntType, RefBase<IntType> > interface_cast<IntType, DataType, RefBase<DataType> >(RefPtr<DataType, RefBase<DataType> >)");
    ("_Z1FILZ1aEE",
      "F<a>");
    ("_Z1FILZ1fvEE",
      "F<f()>");
    ("_Z1FILZ1fIiEvvEE",
      "F<void f<int>()>");
    ("_Z1FILZ1fIiEvvES_E",
      "F<void f<int>(), F>");
    ("_ZdlPvS_",
      "operator delete(void*, void*)");
    ("_ZGVZ10bool_falsevE5False",
      "guard variable for bool_false()::False");
    ("_ZZ1FKP1AvES_",
      "F(A* const)::A");
    ("_Z1FIiZ1AE2fuE3fooiS0_",
      "foo F<int, A::fu>(int, A::fu)");
    ("_ZNK5FubarILi2EE3funEv",
      "Fubar<(int)2>::fun() const");
    ("_ZltI7OStringIcSt11char_traitsIcESt23__malloc_alloc_templateILi0EEEEbRK9SubstringIT_NS7_10value_typeES1_IS8_EESC_",
      "bool operator< <OString<char, std::char_traits<char>, std::__malloc_alloc_template<(int)0> > >(Substring<OString<char, std::char_traits<char>, std::__malloc_alloc_template<(int)0> >, OString<char, std::char_traits<char>, std::__malloc_alloc_template<(int)0> >::value_type, std::char_traits<OString<char, std::char_traits<char>, std::__malloc_alloc_template<(int)0> >::value_type> > const&, Substring<OString<char, std::char_traits<char>, std::__malloc_alloc_template<(int)0> >, OString<char, std::char_traits<char>, std::__malloc_alloc_template<(int)0> >::value_type, std::char_traits<OString<char, std::char_traits<char>, std::__malloc_alloc_template<(int)0> >::value_type> > const&)");
    ("_ZNSaISsEC1Ev",
      "std::allocator<std::string>::allocator()");
    ("_ZSt21_Rb_tree_rotate_rightPSt18_Rb_tree_node_baseRS0_",
      "std::_Rb_tree_rotate_right(std::_Rb_tree_node_base*, std::_Rb_tree_node_base*&)");
    ("_ZTI10BaseMiddle",
      "typeinfo for BaseMiddle");
    ("_ZTS10BaseMiddle",
      "typeinfo name for BaseMiddle");
    ("_ZTT10BaseMiddle",
      "VTT for BaseMiddle");
    ("_ZTV7BaseOne",
      "vtable for BaseOne");
    ("_ZTv0_n12_N7DerivedD0Ev",
      "virtual thunk [v:0,-12] to Derived::~Derived()");
    ("_ZThn12_N7DerivedD1Ev",
      "non-virtual thunk [nv:-12] to Derived::~Derived()");
    ("_ZTcv0_n12_hn12_N7Derived1fEvv",
      "covariant return thunk [v:0,-12] [nv:-12] to Derived::f()");
    ("_ZTchn10_v4_n12_N7Derived1fEvv",
      "covariant return thunk [nv:-10] [v:4,-12] to Derived::f()");
    ("_Z1BIXdvplL1JELi1ELi2EEE",
      "B<(((J))+((int)1))/((int)2)>");
    ("_Z1BIXngL1JEEE",
      "B<-((J))>");
    ("_Z1BIXcoL1i1EEE",
      "B<~((i)1)>");
    ("_Z1BIXstlEE",
      "B<sizeof(long)>");
    ("_Z1BIXsr3Foo3BarEE",
      "B<Foo::Bar>");
    ("_Z1BIXsr3Foo3BarIiEEE",
      "B<Foo::Bar<int> >");
    ("_Z1BIXqust3FooLi0ELi1EEE",
      "B<sizeof(Foo)?((int)0):((int)1)>");
    ("_Z1FIXpLL1AELi1EEE",
      "F<((A))+=((int)1)>");
    ("_Z1FIXszLlEEE",
      "F<sizeof((long))>");
    ("_Z1FM1Fiv",
      "F(int F::*)");
    ("_Z1FMK1Fiv",
      "F(int F const::*)");
    ("_Z1FKM1Fiv",
      "F(int F::* const)");
    ("_Z1FM1AFvvEv",
      "F(void (A::*)())");
    ("_Z1F1A1AS_S0_v",
      "F(A, A, A, A)");
    ("_ZN7DecoderIcE6OutputC1Ev",
      "Decoder<char>::Output::Output()");
    ("_ZN7DecoderIcE6Output6appendISsEEvRKT_",
      "void Decoder<char>::Output::append<std::string>(std::string const&)");
    ("_ZNSt11_Deque_baseI1ASaI1AEE15_M_create_nodesEPP1AS3_",
      "std::_Deque_base<A, std::allocator<A> >::_M_create_nodes(A**, std::_Deque_base<A, std::allocator<A> >)");
    ("_ZNSaI9SubstringI7OStringIcSt11char_traitsIcESt23__malloc_alloc_templateILi0EEEcS2_EED1Ev",
      "std::allocator<Substring<OString<char, std::char_traits<char>, std::__malloc_alloc_template<(int)0> >, char, std::char_traits<char> > >::~allocator()");
    ("_ZSt4swapIjEvRT_S1_",
      "void std::swap<unsigned int>(unsigned int&, unsigned int&)");
    ("_ZStmiI1AR1AP1AS0_S1_ENSt15_Deque_iteratorIT_T0_T1_E15difference_typeERKS6_RKS2_IS3_T2_T3_E",
      "std::_Deque_iterator<A, A&, A*>::difference_type std::operator-<A, A&, A*, A, A>(A const&, A&<A, A, A> const&)");
    ("_ZStmiISsRSsPSsS0_S1_ENSt15_Deque_iteratorIT_T0_T1_E15difference_typeERKS6_RKS2_IS3_T2_T3_E",
      "std::_Deque_iterator<std::string, std::string&, std::string*>::difference_type std::operator-<std::string, std::string&, std::string*, std::string&, std::string*>(std::_Deque_iterator<std::string, std::string&, std::string*> const&, std::_Deque_iterator<std::string, std::string&, std::string*> const&)");
    ("_ZNK5FubarI3BarI3FooIiESaIS2_EESaIS4_EE4funcEv",
      "Fubar<Bar<Foo<int>, std::allocator<Foo<int> > >, std::allocator<Bar<Foo<int>, std::allocator<Foo<int> > > > >::func() const");
    ("_ZNK3FooISt6vectorSaIS0_IcSaIcEEEE4funcEv",
      "Foo<std::vector, std::allocator<std::vector<char, std::allocator<char> > > >::func() const");
    ("_ZN10DynamicLib6importIFP6PluginPK4UUIDEEEbPKcR9ImportPtrIT_E",
      "bool DynamicLib::import<Plugin* ()(UUID const*)>(char const*, ImportPtr<Plugin* ()(UUID const*)>&)");
    ("_ZN11auto_handleIP12Disassembler15ImportPtrTraitsIS1_E23ref_counted_base_handleIS1_S3_N10DynamicLib7CounterEEEC2IPS5_EES1_T_",
      "auto_handle<Disassembler*, ImportPtrTraits<Disassembler*>, ref_counted_base_handle<Disassembler*, ImportPtrTraits<Disassembler*>, DynamicLib::Counter> >::auto_handle<DynamicLib*>(Disassembler*, DynamicLib*)");
    ("_ZN11auto_handleIPFP6PluginPK4UUIDE15ImportPtrTraitsIS6_E23ref_counted_base_handleIS6_S8_N10DynamicLib7CounterEEE4swapERSD_",
      "auto_handle<Plugin* (*)(UUID const*), ImportPtrTraits<Plugin* (*)(UUID const*)>, ref_counted_base_handle<Plugin* (*)(UUID const*), ImportPtrTraits<Plugin* (*)(UUID const*)>, DynamicLib::Counter> >::swap(auto_handle<Plugin* (*)(UUID const*), ImportPtrTraits<Plugin* (*)(UUID const*)>, ref_counted_base_handle<Plugin* (*)(UUID const*), ImportPtrTraits<Plugin* (*)(UUID const*)>, DynamicLib::Counter> >&)");
    ("_ZN1TI3FooEcv1UEv",
      "T<Foo>::operator U()");
    ("_ZN12DebuggerBase18register_interfaceEPK4UUIDPFP7ZObjectvE",
      "DebuggerBase::register_interface(UUID const*, ZObject* (*)())");
    ("_ZNK5boost10shared_ptrI10DynamicLibEcvMS2_PS1_Ev",
      "boost::shared_ptr<DynamicLib>::operator DynamicLib* boost::shared_ptr<DynamicLib>::*() const");
    ("_ZN15TypeFactoryImpl12get_int_typeIcEE6RefPtrI8DataType7RefBaseIS2_EEPT_PKc",
      "RefPtr<DataType, RefBase<DataType> > TypeFactoryImpl::get_int_type<char>(char*, char const*)");
    ("_ZN5boost6detail26sp_enable_shared_from_thisEPVKvS2_RKNS0_12shared_countE",
      "boost::detail::sp_enable_shared_from_this(void volatile const*, void volatile const*, boost::detail::shared_count const&)");
    ("_ZSteqIcSt11char_traitsIcESaIcEEbRKSbIT_T0_T1_ES8_",
      "bool std::operator==<char, std::char_traits<char>, std::allocator<char> >(std::basic_string<char, std::char_traits<char>, std::allocator<char> > const&, std::basic_string<char, std::char_traits<char>, std::allocator<char> > const&)");
    ("_ZSt4swapISt14_Rb_tree_colorEvRT_S2_",
      "void std::swap<std::_Rb_tree_color>(std::_Rb_tree_color&, std::_Rb_tree_color&)");
    ("_ZSt9transformISt17_Rb_tree_iteratorISt4pairIKi6RefPtrI6Thread7RefBaseIS4_EEERKS8_PS9_EN9__gnu_cxx17__normal_iteratorIPS7_St6vectorIS7_SaIS7_EEEENSD_9select2ndIS8_EEET0_T_SN_SM_T1_",
      "__gnu_cxx::__normal_iterator<RefPtr<Thread, RefBase<Thread> >*, std::vector<RefPtr<Thread, RefBase<Thread> >, std::allocator<RefPtr<Thread, RefBase<Thread> > > > > std::transform<std::_Rb_tree_iterator<std::pair<int const, RefPtr<Thread, RefBase<Thread> > >, std::pair<int const, RefPtr<Thread, RefBase<Thread> > > const&, std::pair<int const, RefPtr<Thread, RefBase<Thread> > > const*>, __gnu_cxx::__normal_iterator<RefPtr<Thread, RefBase<Thread> >*, std::vector<RefPtr<Thread, RefBase<Thread> >, std::allocator<RefPtr<Thread, RefBase<Thread> > > > >, __gnu_cxx::select2nd<std::pair<int const, RefPtr<Thread, RefBase<Thread> > > > >(std::_Rb_tree_iterator<std::pair<int const, RefPtr<Thread, RefBase<Thread> > >, std::pair<int const, RefPtr<Thread, RefBase<Thread> > > const&, std::pair<int const, RefPtr<Thread, RefBase<Thread> > > const*>, std::_Rb_tree_iterator<std::pair<int const, RefPtr<Thread, RefBase<Thread> > >, std::pair<int const, RefPtr<Thread, RefBase<Thread> > > const&, std::pair<int const, RefPtr<Thread, RefBase<Thread> > > const*>, __gnu_cxx::__normal_iterator<RefPtr<Thread, RefBase<Thread> >*, std::vector<RefPtr<Thread, RefBase<Thread> >, std::allocator<RefPtr<Thread, RefBase<Thread> > > > >, __gnu_cxx::select2nd<std::pair<int const, RefPtr<Thread, RefBase<Thread> > > >)");
    ("_ZN3Gtk16EmitProxySignal2IviiNS_8EditableE12_GtkEditableLi3EXadL24gtk_editable_delete_textEEEclEii",
      "Gtk::EmitProxySignal2<void, int, int, Gtk::Editable, _GtkEditable, (int)3, &((gtk_editable_delete_text))>::operator()(int, int)");
    ("_ZN3Gtk16EmitProxySignal0IvNS_6ObjectE10_GtkObjectLi0EXadL_Z20gtkmm_object_destroyPS2_EEE4emitEv",
      "Gtk::EmitProxySignal0<void, Gtk::Object, _GtkObject, (int)0, &(gtkmm_object_destroy(_GtkObject*))>::emit()");
    ("_ZN14DebuggerEngine15for_each_pluginIRN34_GLOBAL__N_symbol_events.cppIf7Omb13OnSymbolTableEEET_S4_",
      "(anonymous namespace)::OnSymbolTable& DebuggerEngine::for_each_plugin<(anonymous namespace)::OnSymbolTable&>((anonymous namespace)::OnSymbolTable&)");
    ("_GLOBAL__I__ZlsRSoRK4UUID",
      "global constructors keyed to operator<<(std::ostream&, UUID const&)");
    ("_ZN6RefPtrIN36_GLOBAL__N_cpu_state_saver.cpp2YrWmb4REGSE7RefBaseIS1_EED1Ev",
      "RefPtr<(anonymous namespace)::REGS, RefBase<(anonymous namespace)::REGS> >::~RefPtr()");
    ("_Z10back_traceRKSt6vectorIlSaIlEEjjljRSt5dequeI9FrameInfoSaIS5_EE",
      "back_trace(std::vector<long, std::allocator<long> > const&, unsigned int, unsigned int, long, unsigned int, std::deque<FrameInfo, std::allocator<FrameInfo> >&)");
    ("_ZN9__gnu_cxx13unary_composeISt9binder1stISt10mem_fun1_tIv12EnumCallbackIP6PluginvES5_EESt19const_mem_fun_ref_tIP14DebuggerPlugin9ImportPtrISA_EEEC1ERKS8_RKSE_",
      "__gnu_cxx::unary_compose<std::binder1st<std::mem_fun1_t<void, EnumCallback<Plugin*, void>, Plugin*> >, std::const_mem_fun_ref_t<DebuggerPlugin*, ImportPtr<DebuggerPlugin> > >::unary_compose(std::binder1st<std::mem_fun1_t<void, EnumCallback<Plugin*, void>, Plugin*> > const&, std::const_mem_fun_ref_t<DebuggerPlugin*, ImportPtr<DebuggerPlugin> > const&)");
    ("_ZN9__gnu_cxx13unary_composeISt9binder1stISt10mem_fun1_tIv12EnumCallbackIP6PluginvES5_EESt19const_mem_fun_ref_tIP14DebuggerPlugin9ImportPtrISA_EEEC1ERKS8_RKSE_",
      "__gnu_cxx::unary_compose<std::binder1st<std::mem_fun1_t<void, EnumCallback<Plugin*, void>, Plugin*> >, std::const_mem_fun_ref_t<DebuggerPlugin*, ImportPtr<DebuggerPlugin> > >::unary_compose(std::binder1st<std::mem_fun1_t<void, EnumCallback<Plugin*, void>, Plugin*> > const&, std::const_mem_fun_ref_t<DebuggerPlugin*, ImportPtr<DebuggerPlugin> > const&)");
    ("_ZN5boostneINS_14token_iteratorINS_14char_separatorIcSt11char_traitsIcEEEN9__gnu_cxx17__normal_iteratorIPKcSsEESsEESsNS_21forward_traversal_tagERKSsiSB_SsSC_SE_iEENS_3mpl6apply2INS_6detail12always_bool2ET_T4_E4typeERKNS_15iterator_facadeISJ_T0_T1_T2_T3_EERKNSN_ISK_T5_T6_T7_T8_EE",
      "boost::mpl::apply2<boost::detail::always_bool2, boost::token_iterator<boost::char_separator<char, std::char_traits<char> >, __gnu_cxx::__normal_iterator<char const*, std::string>, std::string>, boost::token_iterator<boost::char_separator<char, std::char_traits<char> >, __gnu_cxx::__normal_iterator<char const*, std::string>, std::string> >::type boost::operator!=<boost::token_iterator<boost::char_separator<char, std::char_traits<char> >, __gnu_cxx::__normal_iterator<char const*, std::string>, std::string>, std::string, boost::forward_traversal_tag, std::string const&, int, boost::token_iterator<boost::char_separator<char, std::char_traits<char> >, __gnu_cxx::__normal_iterator<char const*, std::string>, std::string>, std::string, boost::forward_traversal_tag, std::string const&, int>(boost::iterator_facade<boost::token_iterator<boost::char_separator<char, std::char_traits<char> >, __gnu_cxx::__normal_iterator<char const*, std::string>, std::string>, std::string, boost::forward_traversal_tag, std::string const&, int> const&, boost::iterator_facade<boost::token_iterator<boost::char_separator<char, std::char_traits<char> >, __gnu_cxx::__normal_iterator<char const*, std::string>, std::string>, std::string, boost::forward_traversal_tag, std::string const&, int> const&)");
    ("_ZN3funIiEE3bazIcEi",
      "baz<char> fun<int>(int)");
    ("_ZN3funIiEE3bazI3fooIcEEi",
      "baz<foo<char> > fun<int>(int)");
    ("_ZN3funI3fooIcEEE3bazI3fooIcEES1_",
      "baz<foo<char> > fun<foo<char> >(foo<char>)");
    ("_ZN3funI3fooIcEEE3bazI3fooIcEES5_",
      "baz<foo<char> > fun<foo<char> >(baz<foo<char> >)");
    ("_ZN3Gtk57_GLOBAL__N__ZN3Gtk5CTreeC2ERKNS_14SArray_Helpers6SArrayEi28tree_select_row_convert_funcEPN4SigC9Callback3IvNS_13CTree_Helpers3RowEiP9_GtkCTreeEEP13_GtkCTreeNodeiS6_",
      "Gtk::(anonymous namespace)::tree_select_row_convert_func(SigC::Callback3<void, Gtk::CTree_Helpers::Row, int, _GtkCTree*>*, _GtkCTreeNode*, int, _GtkCTree*)");
    ("_ZN1X5Fubar3setEi",
      "X::Fubar::set(int)");
    ("_Z3funRA3_K1T",
      "fun(T const (&) [3])");
    ("_ZN3Gtk11TreeElementC1ILj3EEERAT__PKc",
      "Gtk::TreeElement::TreeElement<(unsigned int)3>(char const* (&) [(unsigned int)3])");
    ("_ZN5boost6detail8function15trivial_managerIPFvvEE3getENS1_11any_pointerENS1_30functor_manager_operation_typeE",
      "boost::detail::function::trivial_manager<void (*)()>::get(boost::detail::function::any_pointer, boost::detail::function::functor_manager_operation_type)");
    ("_ZL16test_addr_lookupPKc",
      "test_addr_lookup(char const*)");
    ("_ZN5boost6detail8function15trivial_managerINS_6python7objects119_GLOBAL__N__usr_src_build_710630_i386_BUILD_boost_1_33_1_libs_python_build_.._src_object_function.cpp_00000000_E803402111bind_returnEE3getENS1_11any_pointerENS1_30functor_manager_operation_typeE",
      "boost::detail::function::trivial_manager<boost::python::objects::(anonymous namespace)::bind_return>::get(boost::detail::function::any_pointer, boost::detail::function::functor_manager_operation_type)") ].

(** The project's own tests. The decoder produces the expected text for each of the
    test program's names: templates, substitutions, function pointers, pointers to members,
    operators, expressions, local names, thunks and tables. *)
Theorem decoder_passes_tests :
  forallb (fun t => test (B (fst t)) (B (snd t))) test_names = true.
Proof. vm_compute. reflexivity. Qed.
