(* ===== verification/DecoderRound.v ===== *)
(** * The Itanium decoder inverts the mangling of nested functions

    A fragment of the grammar with its mangled form and its text: functions, constructors and
    destructors in nested scopes, with parameters of builtin types. The proof runs the
    decoder on the mangled name of an arbitrary declaration. *)
From S2P Require Import Prelude CLib DString DReal LongFloat Nuts Output OutputCorrect.
From S2P Require Import DecoderState Decoder DecoderTotal DecoderFrame DecoderCorrect.
Local Open Scope Z_scope.

(** ** Declarations *)

Definition ident_char (c : ascii) : bool :=
  isdigit c || isupper c || (97 <=? code c) && (code c <=? 122) || (c =c "_").

(** An identifier that is not the mark of an anonymous namespace. *)
Definition wf_ident (id : bytes) : bool :=
  match id with
  | [] => false
  | c :: _ => forallb ident_char id && negb (isdigit c)
  end && negb (if list_eq_dec ascii_dec (firstn 8 id) (B "_GLOBAL_") then true else false)
  && (Z.of_nat (length id) <? 10 ^ 18).

(** What ends a nested name: nothing, a constructor or a destructor of a kind. *)
Inductive special : Type := NoSpecial | Ctor (kind : ascii) | Dtor (kind : ascii).

Record function : Type := mk_function {
  scopes : list bytes;          (* the scopes and, unless special, the name *)
  kind : special;
  params : bytes                (* the letters of builtin types *)
}.

Definition wf_special (k : special) : bool :=
  match k with
  | NoSpecial => true
  | Ctor c => existsb (Ascii.eqb c) (B "1239")
  | Dtor c => existsb (Ascii.eqb c) (B "0129")
  end.

Definition wf_param (c : ascii) : bool :=
  match builtin_table c with Some _ => negb (c =c "v") | None => false end.

Definition wf_function (f : function) : bool :=
  negb (length (scopes f) =? 0)%nat && forallb wf_ident (scopes f) && wf_special (kind f)
  && forallb wf_param (params f).

Definition mangle_ident (id : bytes) : bytes := dec (Z.of_nat (length id)) ++ id.

Definition mangle_special (k : special) : bytes :=
  match k with NoSpecial => [] | Ctor c => ["C"%char; c] | Dtor c => ["D"%char; c] end.

Definition mangle_params (ps : bytes) : bytes := match ps with [] => B "v" | _ => ps end.

Definition mangle_function (f : function) : bytes :=
  B "_ZN" ++ flat_map mangle_ident (scopes f) ++ mangle_special (kind f) ++ B "E"
  ++ mangle_params (params f).

Fixpoint join_text (sep : bytes) (l : list bytes) : bytes :=
  match l with
  | [] => []
  | [a] => a
  | a :: l => a ++ sep ++ join_text sep l
  end.

Definition param_name (c : ascii) : bytes :=
  match builtin_table c with Some t => t | None => [] end.

Definition show_special (ids : list bytes) (k : special) : bytes :=
  match k with
  | NoSpecial => []
  | Ctor _ => B "::" ++ last ids []
  | Dtor _ => B "::~" ++ last ids []
  end.

Definition show_function (f : function) : bytes :=
  join_text (B "::") (scopes f) ++ show_special (scopes f) (kind f)
  ++ B "(" ++ join_text (B ", ") (map param_name (params f)) ++ B ")".

(** [Foo::Bar::~Bar(int, char)] *)
Definition sample_function : function := mk_function [B "Foo"; B "Bar"] (Dtor "1") (B "ic").

Example sample_function_decoded :
  parse (mangle_function sample_function) 0 = Ok (Some (show_function sample_function), SUCCESS)
  /\ mangle_function sample_function = B "_ZN3Foo3BarD1Eic"
  /\ show_function sample_function = B "Foo::Bar::~Bar(int, char)".
Proof. repeat split; vm_compute; reflexivity. Qed.

(** ** Reading numbers *)

Lemma set_pos_same s p : pos s = p -> set_pos s p = s.
Proof. intros <-. now destruct s. Qed.

Lemma unsigned_loop_value ds pre e r fuel v s :
  forallb isdigit ds = true -> isdigit e = false -> (length ds < fuel)%nat -> 0 <= v ->
  fold_left (fun v c => v * 10 + (code c - 48)) ds v < 2 ^ 64 ->
  pos s = Z.of_nat (length pre) ->
  unsigned_loop (pre ++ ds ++ e :: r) fuel v s
  = Ok (fold_left (fun v c => v * 10 + (code c - 48)) ds v, set_pos s (pos s + Z.of_nat (length ds))).
Proof.
  revert pre fuel v s. induction ds as [|c ds IH]; intros pre fuel v s Hd He Hf Hv Hlt Hp;
    (destruct fuel as [|fuel]; [lia|]); cbn [unsigned_loop app].
  - erewrite mbind_ok by now apply peek_app. rewrite He. cbn. rewrite Z.add_0_r.
    now rewrite set_pos_same.
  - erewrite mbind_ok by now apply peek_app. cbn [forallb] in Hd.
    apply andb_true_iff in Hd as [Hc Hd]. rewrite Hc. erewrite mbind_ok by reflexivity.
    cbn [fold_left] in *. unfold isdigit in Hc.
    pose proof (dec_val_prefix ds (v * 10 + (code c - 48)) Hd ltac:(lia)).
    rewrite u64_id by lia. change (c :: ds ++ e :: r) with ([c] ++ ds ++ e :: r).
    rewrite app_assoc, (IH (pre ++ [c])); cbn [length pos set_pos] in *; try assumption; try lia.
    + do 2 f_equal. unfold set_pos. cbn. f_equal. lia.
    + rewrite length_app. cbn [length]. lia.
Qed.

(** [parse_unsigned] on a numeral reads its value. *)
Lemma parse_unsigned_dec n pre e r s :
  0 <= n < 2 ^ 63 -> isdigit e = false -> pos s = Z.of_nat (length pre) ->
  parse_unsigned (pre ++ dec n ++ e :: r) None s = Ok (n, set_pos s (pos s + Z.of_nat (length (dec n)))).
Proof.
  intros Hn He Hp. destruct (dec_cons n ltac:(lia)) as (c & ds & Ed & Hc & _).
  pose proof (dec_digits n ltac:(lia)) as Hd. pose proof (dec_val_dec n ltac:(lia)) as Hv.
  unfold parse_unsigned. rewrite Ed in *. cbn [app].
  erewrite mbind_ok by now apply peek_app. rewrite Hc. cbn [negb].
  change (c :: ds ++ e :: r) with ((c :: ds) ++ e :: r). unfold dec_val in Hv.
  erewrite mbind_ok.
  2:{ apply unsigned_loop_value; try assumption; try lia. rewrite !length_app. cbn [length]. lia. }
  erewrite mbind_ok by reflexivity. replace (_ <=? _) with true.
  2:{ unfold size_. cbn [pos set_pos]. rewrite !length_app. cbn [length]. lia. }
  erewrite mbind_ok by reflexivity. erewrite mbind_ok by reflexivity.
  rewrite Hv. reflexivity.
Qed.

(** ** Outputs, exactly *)

Definition text_of (b : option bytes) : bytes := match b with Some t => t | None => [] end.

Lemma oappend_delim b d sp i ps s len : 0 < len <= Z.of_nat (length s) -> len <> NPOS ->
  oappend (mk_output b (Some d) sp i ps) s len
  = Ok (mk_output (Some (text_of b ++ d ++ firstn (Z.to_nat len) s)) None false NPOS
          (map (fun p => if p =? Z.of_nat (length (text_of b)) then p + 2 else p) ps)).
Proof.
  intros Hl Hn. unfold oappend, finish, buf_append, t_append, NUTS_ASSERT, prepare.
  cbn [delim set_spaceOnce set_delim set_buf update_pos set_positions buf substIndex positions content].
  destruct (Z.eqb_spec len NPOS); [contradiction|]. destruct (Z.eqb_spec len 0); [lia|].
  replace (len <=? _) with true by lia. cbn [bind]. rewrite <- app_assoc. reflexivity.
Qed.

Definition no_angle (c : ascii) : bool := negb (c =c "<") && negb (c =c ">").

Lemma oappend_plain b sp i ps s len : 0 < len <= Z.of_nat (length s) -> len <> NPOS ->
  no_angle (hd NUL s) = true ->
  oappend (mk_output b None sp i ps) s len
  = Ok (mk_output (Some (text_of b ++ firstn (Z.to_nat len) s)) None false NPOS ps).
Proof.
  intros Hl Hn Hc. unfold no_angle in Hc. apply andb_true_iff in Hc as [Hlt Hgt].
  unfold oappend, finish, buf_append, t_append, NUTS_ASSERT, prepare. cbn [delim].
  apply negb_true_iff in Hlt, Hgt. rewrite Hlt, Hgt. cbn [andb].
  destruct (Z.eqb_spec len NPOS); [contradiction|]. destruct (Z.eqb_spec len 0); [lia|].
  replace (len <=? _) with true by lia. cbn [bind set_spaceOnce buf delim substIndex positions].
  destruct b as [t|]; [reflexivity|]. cbn.
  destruct (firstn (Z.to_nat len) s) as [|c r] eqn:E; [|reflexivity].
  apply (f_equal (@length ascii)) in E. rewrite length_firstn in E. cbn [length] in E. lia.
Qed.

(** The text of the output that starts at [p]: a copy of it is appended. *)
Lemma oappend_own_delim t d sp i ps p n : 0 <= p -> 0 < n -> p + n = Z.of_nat (length t) -> n <> NPOS ->
  oappend_own (mk_output (Some t) (Some d) sp i ps) p n
  = Ok (mk_output (Some (t ++ d ++ skipn (Z.to_nat p) t)) None false NPOS
          (map (fun q => if q =? Z.of_nat (length t) then q + 2 else q) ps)).
Proof.
  intros Hp Hn Hl Hnp. unfold oappend_own. cbn [buf]. replace (p <? _) with true by lia.
  cbv zeta. unfold prepare. cbn [delim]. unfold finish, buf_append, t_append, NUTS_ASSERT.
  cbn [set_spaceOnce set_delim set_buf update_pos set_positions buf delim substIndex positions content osize].
  destruct (Z.eqb_spec n NPOS); [contradiction|]. destruct (Z.eqb_spec n 0); [lia|].
  rewrite skipn_app. replace (Z.to_nat p - length t)%nat with O by lia. cbn [skipn].
  rewrite length_app, length_skipn. replace (n <=? _) with true by lia. cbn [bind].
  rewrite firstn_app, length_skipn. replace (_ - _)%nat with O by lia. cbn [firstn].
  rewrite app_nil_r, firstn_all2 by (rewrite length_skipn; lia).
  rewrite <- app_assoc. reflexivity.
Qed.

Lemma oappend_own_plain t sp i ps p n : 0 <= p -> 0 < n -> p + n <= Z.of_nat (length t) -> n <> NPOS ->
  no_angle (hd NUL (skipn (Z.to_nat p) t)) = true ->
  oappend_own (mk_output (Some t) None sp i ps) p n
  = Ok (mk_output (Some (t ++ firstn (Z.to_nat n) (skipn (Z.to_nat p) t))) None false NPOS ps).
Proof.
  intros Hp Hn Hl Hnp Hc. unfold oappend_own. cbn [buf]. replace (p <? _) with true by lia.
  cbv zeta. unfold no_angle in Hc. apply andb_true_iff in Hc as [Hlt Hgt].
  apply negb_true_iff in Hlt, Hgt. unfold prepare. cbn [delim]. rewrite Hlt, Hgt. cbn [andb].
  unfold finish, buf_append, t_append, NUTS_ASSERT.
  cbn [set_spaceOnce buf delim substIndex positions content].
  destruct (Z.eqb_spec n NPOS); [contradiction|]. destruct (Z.eqb_spec n 0); [lia|].
  rewrite length_skipn. replace (n <=? _) with true by lia. reflexivity.
Qed.

(** Identifier characters are none of the characters that the outputs treat specially. *)
Lemma ident_char_facts c : ident_char c = true ->
  no_angle c = true /\ (c =c ",") = false /\ (c =c ":") = false.
Proof. destruct c as [[|] [|] [|] [|] [|] [|] [|] [|]]; vm_compute; intuition congruence. Qed.

Lemma wf_ident_facts id : wf_ident id = true ->
  exists c r, id = c :: r /\ ident_char c = true /\ isdigit c = false
  /\ firstn 8 id <> B "_GLOBAL_" /\ Z.of_nat (length id) < 10 ^ 18.
Proof.
  unfold wf_ident. destruct id as [|c r]; [discriminate|]. intros H.
  apply andb_true_iff in H as [H Hl]. apply andb_true_iff in H as [H Hg].
  apply andb_true_iff in H as [H Hd]. cbn [forallb] in H. apply andb_true_iff in H as [Hc _].
  apply negb_true_iff in Hd, Hg. destruct (list_eq_dec _ _ _); [discriminate|].
  exists c, r. repeat split; try assumption. lia.
Qed.

(** ** Names *)

Lemma rest_app pre r s : pos s = Z.of_nat (length pre) -> rest (pre ++ r) s = Ok (r, s).
Proof.
  intros H. unfold rest. erewrite mbind_ok by reflexivity. rewrite H. unfold size_.
  rewrite length_app. replace (_ <=? _) with true by lia.
  rewrite Nat2Z.id, skipn_app, skipn_all, Nat.sub_diag. reflexivity.
Qed.

Lemma is_anonymous_no pre id post s : pos s = Z.of_nat (length pre) -> firstn 8 id <> B "_GLOBAL_" ->
  is_anonymous (pre ++ id ++ post) (Z.of_nat (length id)) s = Ok (false, s).
Proof.
  intros Hp Hg. unfold is_anonymous. destruct (Z.ltb_spec (Z.of_nat (length id)) 8); [reflexivity|].
  erewrite mbind_ok by now apply rest_app. rewrite length_app.
  destruct (Nat.ltb_spec (length id + length post) 8); [lia|].
  destruct (list_eq_dec ascii_dec (firstn 8 (id ++ post)) _) as [E|]; [|reflexivity].
  rewrite firstn_app in E. replace (8 - length id)%nat with O in E by lia.
  cbn [firstn] in E. rewrite app_nil_r in E. contradiction.
Qed.

Lemma source_name_ident id pre post fuel out s o :
  wf_ident id = true -> pos s = Z.of_nat (length pre) ->
  size_ (pre ++ mangle_ident id ++ post) < 2 ^ 63 ->
  oappend (out_at out s) (id ++ post) (Z.of_nat (length id)) = Ok o ->
  source_name (pre ++ mangle_ident id ++ post) (S fuel) out s
  = Ok (tt, set_pos (updated out o s) (pos s + Z.of_nat (length (mangle_ident id)))).
Proof.
  intros Hw Hp Hs Ho. destruct (wf_ident_facts id Hw) as (c & r & Eid & Hc & Hd & Hg & Hl).
  set (n := Z.of_nat (length id)) in *.
  assert (0 <= n < 2 ^ 63) as Hn by lia.
  destruct (dec_cons n ltac:(lia)) as (d & ds & Ed & _).
  unfold mangle_ident, size_ in *. fold n in Hs |- *. rewrite !length_app in Hs.
  cbn [source_name]. rewrite <- app_assoc. erewrite mbind_ok.
  2:{ rewrite Ed. cbn [app]. now apply in_range_app. }
  erewrite mbind_ok by reflexivity. erewrite mbind_ok.
  2:{ replace (id ++ post) with (c :: r ++ post) by (now rewrite Eid).
      apply parse_unsigned_dec; assumption. }
  erewrite mbind_ok by reflexivity. set (s1 := set_pos s _).
  assert (pos s1 = Z.of_nat (length (pre ++ dec n))) as Hp1 by (unfold s1; cbn [pos set_pos]; rewrite length_app; lia).
  rewrite u64_id by (rewrite Hp1, length_app; lia).
  replace (_ <=? _) with true.
  2:{ unfold size_. rewrite Hp1, !length_app. lia. }
  rewrite (app_assoc pre). erewrite mbind_ok by now apply is_anonymous_no.
  cbv iota. erewrite mbind_ok by now apply rest_app.
  erewrite mbind_ok by (apply on_out_ok; exact Ho).
  unfold skip_len, modify. change (pos (updated out o s1)) with (pos s1).
  rewrite u64_id by (rewrite Hp1, length_app; lia).
  replace (pos s1 + n) with (pos s + Z.of_nat (length (dec n ++ id)))
    by (rewrite Hp1, !length_app; lia).
  reflexivity.
Qed.

(** Scopes that restore what they changed. *)
Lemma temporarily_ok {A T} (read : state -> T) write v (m : M A) s a s' :
  m (write s v) = Ok (a, s') -> temporarily read write v m s = Ok (a, write s' (read s)).
Proof. intros H. unfold temporarily, gets, mbind, get, modify, ret. cbn. now rewrite H. Qed.

Lemma with_position_ok {A} out (m : M A) s a s' o :
  m (updated out (push_position (out_at out s)) s) = Ok (a, s') ->
  pop_position (out_at out s') = Ok o ->
  with_position out m s = Ok (a, updated out o s').
Proof.
  intros H Ho. unfold with_position. erewrite mbind_ok by (apply on_out_ok; reflexivity).
  erewrite mbind_ok by exact H. erewrite mbind_ok by (apply on_out_ok; exact Ho). reflexivity.
Qed.

Lemma with_delim_ok {A} out d (m : M A) s a s' :
  m (updated out (set_delim (out_at out s) d) s) = Ok (a, s') ->
  with_delim out d m s = Ok (a, updated out (set_delim (out_at out s') (delim (out_at out s))) s').
Proof.
  intros H. unfold with_delim. erewrite mbind_ok by reflexivity.
  erewrite mbind_ok by (apply on_out_ok; reflexivity). erewrite mbind_ok by exact H.
  erewrite mbind_ok by (apply on_out_ok; reflexivity). reflexivity.
Qed.

(** The decoder inside a nested name: the text goes to the temporary output 1, no qualifiers,
    no template arguments. *)
Definition pst (p snp : Z) (dict : list substring) (pre : bool) (o : Output) : state :=
  mk_state p snp 0 (Some 0%nat) dict [] 0 0 pre false SUCCESS [new_output; o] [[]].

(** The temporary output: the prefix starts at its beginning. *)
Definition tout (t : bytes) (d : option bytes) : Output := mk_output (Some t) d false NPOS [0; 0].
Definition tout0 : Output := mk_output None None false NPOS [0; 0].

Definition source_flags : NameFlags := set_isSource no_flags true.

Lemma digit_letters c : isdigit c = true ->
  (c =c "C") = false /\ (c =c "D") = false /\ (c =c "E") = false /\ (c =c "L") = false
  /\ (c =c "S") = false /\ (c =c "T") = false /\ (c =c "I") = false.
Proof. destruct c as [[|] [|] [|] [|] [|] [|] [|] [|]]; vm_compute; intuition congruence. Qed.

Section Names.
  Variables (self : calls).

(** The name of a scope, at the start of a numeral. *)
Lemma unqualified_ident id pre post p snp dict o o' f :
  wf_ident id = true -> p = Z.of_nat (length pre) ->
  size_ (pre ++ mangle_ident id ++ post) < 2 ^ 63 ->
  oappend o (id ++ post) (Z.of_nat (length id)) = Ok o' ->
  parse_unqualified_name (pre ++ mangle_ident id ++ post) self 1 f (pst p snp dict true o)
  = Ok ((true, set_isSource f true),
        pst (p + Z.of_nat (length (mangle_ident id)))
            (osize o + match delim o with Some _ => 2 | None => 0 end) dict true o').
Proof.
  intros Hw Hp Hs Ho. destruct (dec_cons (Z.of_nat (length id)) ltac:(lia)) as (d & ds & Ed & Hd & _).
  destruct (digit_letters d Hd) as (HC & HD & HE & HL & _).
  set (name := pre ++ mangle_ident id ++ post).
  assert (name = pre ++ d :: (ds ++ id ++ post)) as Hname.
  { unfold name, mangle_ident. now rewrite Ed, <- app_assoc. }
  unfold parse_unqualified_name. rewrite Hname at 1. erewrite mbind_ok by now apply in_range_app.
  erewrite mbind_ok by reflexivity. rewrite Hname at 1. erewrite mbind_ok by now apply peek_app.
  rewrite HC, HD, HE, HL. erewrite mbind_ok by reflexivity. rewrite Hd.
  erewrite mbind_ok by reflexivity. cbn [templateDepth pst]. change (0 =? 0) with true. cbv iota.
  erewrite mbind_ok by (erewrite mbind_ok by reflexivity; reflexivity).
  erewrite mbind_ok.
  2:{ unfold parse_source_name, loop_fuel, name. apply source_name_ident; try assumption. exact Ho. }
  reflexivity.
Qed.

(** The first scope of a nested name. *)
Lemma prefix_first id pre post p :
  wf_ident id = true -> p = Z.of_nat (length pre) ->
  size_ (pre ++ mangle_ident id ++ post) < 2 ^ 63 ->
  prefix_name (pre ++ mangle_ident id ++ post) self 1 (mk_prefix true false false false no_flags)
    (pst p NPOS [] false tout0)
  = Ok ((mk_prefix false true true true source_flags, true),
        pst (p + Z.of_nat (length (mangle_ident id))) 0 [] false (tout id None)).
Proof.
  intros Hw Hp Hs. destruct (wf_ident_facts id Hw) as (c & r & Eid & Hc & _ & _ & Hl).
  destruct (ident_char_facts c Hc) as (Hna & _).
  unfold prefix_name.
  erewrite temporarily_ok.
  2:{ cbn [v_flags v_havePrefix v_canSubstitute v_initial v_maybeTemplatePrefix].
      erewrite mbind_ok by reflexivity. erewrite mbind_ok by reflexivity.
      erewrite mbind_ok by reflexivity.
      change (set_inPrefix (pst p NPOS [] false tout0) true) with (pst p NPOS [] true tout0).
      erewrite mbind_ok.
      2:{ apply unqualified_ident; try assumption. apply oappend_plain.
          - rewrite length_app, Eid. cbn [length]. lia.
          - unfold NPOS. lia.
          - rewrite Eid. exact Hna. }
      cbv beta iota delta [negb].
      erewrite mbind_ok by reflexivity. erewrite mbind_ok by reflexivity.
      erewrite mbind_ok by reflexivity. erewrite mbind_ok by reflexivity. reflexivity. }
  rewrite Nat2Z.id, firstn_app, firstn_all, Nat.sub_diag. cbn [firstn]. rewrite app_nil_r.
  reflexivity.
Qed.

(** Inserting a prefix of the temporary output in the dictionary. *)
Lemma insert_prefix name t d p snp dict pre b :
  ident_char (hd NUL t) = true -> 0 < b <= Z.of_nat (length t) -> b <> NPOS ->
  Z.of_nat (length dict) < dict_capacity name ->
  (u <- substr 1 0 b ;; subst_insert name u true) (pst p snp dict pre (tout t d))
  = Ok (tt, pst p snp (dict ++ [mk_sub 1 0 b]) pre (tout t d)).
Proof.
  intros Hc Hb Hnp Hcap. destruct (ident_char_facts _ Hc) as (_ & Hcomma & Hcolon).
  unfold substr, osubstr. erewrite mbind_ok.
  2:{ erewrite mbind_ok by reflexivity. unfold lift, substring_new, NUTS_ASSERT, osize.
      cbn [out_at pst outputs nth content tout buf].
      destruct (Z.eqb_spec b NPOS); [contradiction|].
      replace (_ || _) with true by lia. reflexivity. }
  unfold subst_insert. cbn [sub_len]. destruct (Z.eqb_spec b 0); [lia|].
  erewrite mbind_ok by reflexivity. erewrite mbind_ok by reflexivity. cbv iota.
  erewrite mbind_ok.
  2:{ unfold lift, sub_text. cbn [outputs pst sub_str sub_pos sub_len nth content tout buf].
      replace (0 + b <=? _) with true by lia. cbn [bind]. reflexivity. }
  assert (hd NUL (firstn (Z.to_nat b) (skipn (Z.to_nat 0) t)) = hd NUL t) as ->.
  { destruct t; [cbn [length] in Hb; lia|]. destruct (Z.to_nat b) eqn:E; [lia | reflexivity]. }
  rewrite Hcomma, Hcolon. erewrite mbind_ok by reflexivity. cbv iota.
  erewrite mbind_ok.
  2:{ unfold lift, sv_push_back, NUTS_ASSERT. cbn [subst pst].
      replace (_ <? _) with true by lia. reflexivity. }
  reflexivity.
Qed.

Definition inner_vars (f : NameFlags) : prefix_vars := mk_prefix false true true true f.

(** What a later component of a nested name does, given what its unqualified name does. *)
Lemma prefix_more name t t' p p' snp snp' dict f f' :
  isTemplate f = false -> ident_char (hd NUL t) = true -> (0 < length t)%nat ->
  (length t <= length t')%nat -> hd NUL t' = hd NUL t ->
  Z.of_nat (length t) < 2 ^ 63 -> Z.of_nat (length dict) < dict_capacity name ->
  parse_unqualified_name name self 1 f (pst p snp dict true (tout t (Some (B "::"))))
  = Ok ((true, f'), pst p' snp' dict true (tout t' None)) ->
  prefix_name name self 1 (inner_vars f) (pst p snp dict false (tout t None))
  = Ok ((mk_prefix false true true (may_substitute f' NUL) f', true),
        pst p' snp' (dict ++ [mk_sub 1 0 (Z.of_nat (length t))]) false (tout t' None)).
Proof.
  intros Hf Hc Ht Hle Hhd Hlen Hcap Hname. unfold prefix_name.
  erewrite temporarily_ok.
  2:{ cbn [v_flags v_havePrefix v_canSubstitute v_initial v_maybeTemplatePrefix inner_vars].
      erewrite mbind_ok by reflexivity. erewrite mbind_ok by reflexivity.
      cbn [out_at pst set_inPrefix outputs nth].
      erewrite mbind_ok by (erewrite mbind_ok by (apply on_out_ok; reflexivity); reflexivity).
      change (updated 1 _ _) with (pst p snp dict true (tout t (Some (B "::")))).
      replace (set_isTemplate f false) with f by (destruct f; cbn in Hf; now subst).
      erewrite mbind_ok by exact Hname. cbv beta iota delta [negb].
      erewrite mbind_ok by reflexivity. erewrite mbind_ok.
      2:{ unfold osize. cbn [content tout buf]. rewrite Z.sub_0_r, u64_id by lia.
          apply insert_prefix; rewrite ?Hhd; try assumption; unfold NPOS; lia. }
      erewrite mbind_ok by reflexivity. erewrite mbind_ok by reflexivity. reflexivity. }
  reflexivity.
Qed.

Lemma hd_app (t u : bytes) : (0 < length t)%nat -> hd NUL (t ++ u) = hd NUL t.
Proof. destruct t; [cbn; lia | reflexivity]. Qed.

(** A further scope. *)
Lemma prefix_scope id pre post t p snp dict :
  wf_ident id = true -> p = Z.of_nat (length pre) ->
  size_ (pre ++ mangle_ident id ++ post) < 2 ^ 63 ->
  ident_char (hd NUL t) = true -> (0 < length t)%nat -> Z.of_nat (length t) < 2 ^ 63 ->
  Z.of_nat (length dict) < dict_capacity (pre ++ mangle_ident id ++ post) ->
  prefix_name (pre ++ mangle_ident id ++ post) self 1 (inner_vars source_flags)
    (pst p snp dict false (tout t None))
  = Ok ((inner_vars source_flags, true),
        pst (p + Z.of_nat (length (mangle_ident id))) (Z.of_nat (length t) + 2)
            (dict ++ [mk_sub 1 0 (Z.of_nat (length t))]) false (tout (t ++ B "::" ++ id) None)).
Proof.
  intros Hw Hp Hs Hc Ht Hlen Hcap.
  destruct (wf_ident_facts id Hw) as (c & r & Eid & _ & _ & _ & Hl).
  change (inner_vars source_flags, true)
    with (mk_prefix false true true (may_substitute source_flags NUL) source_flags, true).
  apply (prefix_more _ t (t ++ B "::" ++ id) p _ snp _ dict source_flags source_flags);
    try assumption; try reflexivity.
  - rewrite !length_app. lia.
  - now apply hd_app.
  - rewrite (unqualified_ident id pre post p snp dict (tout t (Some (B "::")))
      (tout (t ++ B "::" ++ id) None)); try assumption; [reflexivity|].
    unfold tout. rewrite oappend_delim.
    + cbn [text_of map]. replace (0 =? _) with false by lia.
      rewrite Nat2Z.id, firstn_app, firstn_all, Nat.sub_diag. cbn [firstn]. now rewrite app_nil_r.
    + rewrite length_app, Eid. cbn [length]. lia.
    + unfold NPOS. lia.
Qed.

Definition special_letter (k : special) : ascii :=
  match k with Dtor _ => "D"%char | _ => "C"%char end.
Definition special_kind (k : special) : ascii :=
  match k with Ctor c | Dtor c => c | NoSpecial => NUL end.
Definition special_text (k : special) : bytes := match k with Dtor _ => B "::~" | _ => B "::" end.
Definition special_flags (k : special) (f : NameFlags) : NameFlags :=
  match k with Dtor _ => set_isDtor f true | _ => set_isCtor f true end.

(** The output side: the text from the last scope on is appended. *)
Lemma append_last_scope k t0 id :
  wf_ident id = true -> Z.of_nat (length (t0 ++ id)) < 2 ^ 63 ->
  exists o, (match k with
             | Dtor _ => oappend (tout (t0 ++ id) (Some (B "::"))) (B "~") 1
             | _ => Ok (tout (t0 ++ id) (Some (B "::")))
             end) = Ok o
  /\ oappend_own o (Z.of_nat (length t0)) (Z.of_nat (length id))
     = Ok (tout ((t0 ++ id) ++ special_text k ++ id) None).
Proof.
  intros Hw Hlen. destruct (wf_ident_facts id Hw) as (c & r & Eid & Hc & _ & _ & Hl).
  destruct (ident_char_facts c Hc) as (Hna & _).
  assert (0 < length id)%nat as Hid by (rewrite Eid; cbn; lia).
  rewrite length_app in Hlen.
  assert (forall u, skipn (Z.to_nat (Z.of_nat (length t0))) ((t0 ++ id) ++ u) = id ++ u) as Hskip.
  { intros u. rewrite Nat2Z.id, <- app_assoc, skipn_app, skipn_all, Nat.sub_diag. reflexivity. }
  assert (Z.of_nat (length id) <> NPOS) by (unfold NPOS; lia).
  assert (forall n, map (fun p => if p =? Z.of_nat (length t0 + n) then p + 2 else p) [0; 0] = [0; 0]
    \/ (length t0 + n = 0)%nat) as Hpos.
  { intros n. destruct (Nat.eq_dec (length t0 + n) 0); [now right | left].
    cbn [map]. now replace (0 =? _) with false by lia. }
  destruct k; [eexists; split; [reflexivity|]..|].
  1,2: unfold tout; rewrite oappend_own_delim by (rewrite ?length_app; lia);
    specialize (Hskip []); rewrite !app_nil_r in Hskip; rewrite Hskip, length_app;
    (destruct (Hpos (length id)) as [->|]; [reflexivity | lia]).
  unfold tout. rewrite oappend_delim by (cbn; lia || discriminate). cbn [text_of].
  rewrite length_app. destruct (Hpos (length id)) as [->|]; [|lia].
  eexists. split; [reflexivity|]. change (firstn (Z.to_nat 1) (B "~")) with (B "~").
  rewrite oappend_own_plain; rewrite ?length_app; try lia.
  - rewrite Hskip, Nat2Z.id, firstn_app, firstn_all, Nat.sub_diag. cbn [firstn special_text].
    rewrite app_nil_r, <- !app_assoc. reflexivity.
  - rewrite Hskip, Eid. exact Hna.
Qed.

Lemma special_kind_known k : k <> NoSpecial -> wf_special k = true ->
  existsb (Ascii.eqb (special_kind k))
    (NUL :: if special_letter k =c "C" then B "1239" else B "0129") = true.
Proof.
  destruct k; [congruence|..]; cbn [wf_special special_kind special_letter]; intros _ H;
    cbn [existsb]; apply orb_true_iff; right; exact H.
Qed.

Lemma ctor_dtor_name_repeats k t0 id pre post p dict :
  k <> NoSpecial -> wf_special k = true -> wf_ident id = true ->
  p = Z.of_nat (length pre) -> Z.of_nat (length (t0 ++ id)) < 2 ^ 63 ->
  parse_ctor_dtor_name (pre ++ [special_letter k; special_kind k] ++ B "E" ++ post) 1
    (pst p (Z.of_nat (length t0)) dict true (tout (t0 ++ id) (Some (B "::"))))
  = Ok (tt, pst (p + 2) NPOS dict true (tout ((t0 ++ id) ++ special_text k ++ id) None)).
Proof.
  intros Hk Hks Hw Hp Hlen. pose proof (special_kind_known k Hk Hks) as Hknown.
  destruct (append_last_scope k t0 id Hw Hlen) as (o & Ho & Hown). rewrite length_app in Hlen.
  unfold parse_ctor_dtor_name. cbn [app].
  erewrite mbind_ok by now apply in_range_app. erewrite mbind_ok by reflexivity.
  erewrite mbind_ok by now apply peek_app.
  erewrite mbind_ok by (destruct k; reflexivity || congruence).
  erewrite mbind_ok by reflexivity. erewrite mbind_ok by reflexivity.
  cbn [pos set_pos pst]. replace (_ =? _) with false
    by (unfold size_; rewrite length_app; cbn [length]; lia).
  change (special_letter k :: special_kind k :: B "E" ++ post)
    with ([special_letter k] ++ special_kind k :: B "E" ++ post). rewrite app_assoc.
  erewrite mbind_ok by (apply peek_app; cbn [pos set_pos]; rewrite length_app; cbn [length]; lia).
  rewrite Hknown. cbn [negb]. erewrite mbind_ok by reflexivity. cbn [sourceNamePos set_pos pst].
  replace (_ =? NPOS) with false by (unfold NPOS; lia).
  erewrite mbind_ok by reflexivity. erewrite mbind_ok by reflexivity.
  erewrite mbind_ok by reflexivity. erewrite mbind_ok by reflexivity.
  cbn [sourceNameSize set_pos pst out_at outputs nth pos]. change (0 =? 0) with true. cbv iota.
  replace (u64 _) with (Z.of_nat (length id)).
  2:{ unfold osize. cbn [content tout buf]. rewrite length_app, u64_id; lia. }
  change (set_pos _ _) with (pst (p + 1 + 1) (Z.of_nat (length t0)) dict true
    (tout (t0 ++ id) (Some (B "::")))). replace (p + 1 + 1) with (p + 2) by lia.
  erewrite mbind_ok with (a := tt) (s' := pst (p + 2) (Z.of_nat (length t0)) dict true o).
  2:{ destruct k; [congruence | inv Ho; reflexivity|].
      etransitivity; [apply (on_out_ok 1); exact Ho | reflexivity]. }
  erewrite mbind_ok by (apply on_out_ok; exact Hown). reflexivity.
Qed.

(** A constructor or destructor repeats the last scope. *)
Lemma unqualified_special k t0 id pre post p dict f :
  k <> NoSpecial -> wf_special k = true -> wf_ident id = true ->
  p = Z.of_nat (length pre) -> Z.of_nat (length (t0 ++ id)) < 2 ^ 63 ->
  parse_unqualified_name (pre ++ [special_letter k; special_kind k] ++ B "E" ++ post) self 1 f
    (pst p (Z.of_nat (length t0)) dict true (tout (t0 ++ id) (Some (B "::"))))
  = Ok ((true, special_flags k f),
        pst (p + 2) NPOS dict true (tout ((t0 ++ id) ++ special_text k ++ id) None)).
Proof.
  intros Hk Hks Hw Hp Hlen.
  pose proof (ctor_dtor_name_repeats k t0 id pre post p dict Hk Hks Hw Hp Hlen) as Hcd.
  unfold parse_unqualified_name. cbn [app] in *.
  erewrite mbind_ok by now apply in_range_app. erewrite mbind_ok by reflexivity.
  erewrite mbind_ok by now apply peek_app.
  destruct k; [congruence|..]; cbn [special_letter] in *;
    change ("D" =c "C") with false; change ("D" =c "D") with true;
    change ("C" =c "C") with true; cbv iota; erewrite mbind_ok by exact Hcd; reflexivity.
Qed.

(** The end of the prefix: the delimiter stays pending, nothing else changes. *)
Lemma prefix_end pre post p snp dict t v :
  p = Z.of_nat (length pre) -> v_havePrefix v = true -> isTemplate (v_flags v) = false ->
  exists v', prefix_name (pre ++ "E"%char :: post) self 1 v (pst p snp dict false (tout t None))
             = Ok ((v', false), pst p snp dict false (tout t (Some (B "::"))))
  /\ v_flags v' = v_flags v.
Proof.
  intros Hp Hv Hf. unfold prefix_name. eexists. split.
  - erewrite temporarily_ok.
    2:{ erewrite mbind_ok by reflexivity. erewrite mbind_ok by reflexivity. rewrite Hv.
        erewrite mbind_ok by (erewrite mbind_ok by (apply on_out_ok; reflexivity); reflexivity).
        erewrite mbind_ok.
        2:{ unfold parse_unqualified_name. erewrite mbind_ok by now apply in_range_app.
            erewrite mbind_ok by reflexivity. erewrite mbind_ok by now apply peek_app. reflexivity. }
        cbv beta iota delta [negb]. reflexivity. }
    reflexivity.
  - cbn. destruct (v_flags v). cbn in *. now subst.
Qed.

(** ** The loop over the components *)

(** One round of the loop on what is neither a substitution nor a template. *)
Lemma prefix_round fuel c pre post v v' more s s' :
  pos s = Z.of_nat (length pre) -> (c =c "S") = false -> (c =c "T") = false -> (c =c "I") = false ->
  prefix_name (pre ++ c :: post) self 1 v s = Ok ((v', more), s') ->
  prefix_loop (pre ++ c :: post) self (S fuel) 1 v s
  = (if more : bool then prefix_loop (pre ++ c :: post) self fuel 1 v' else ret (v_flags v')) s'.
Proof.
  intros Hp HS HT HI H. cbn [prefix_loop]. erewrite mbind_ok by now apply in_range_app.
  cbn [negb]. erewrite mbind_ok by now apply peek_app. rewrite HS, HT, HI.
  erewrite mbind_ok by exact H. reflexivity.
Qed.

Definition scoped (ids : list bytes) : bytes := flat_map (fun id => B "::" ++ id) ids.

Lemma join_scoped id ids : join_text (B "::") (id :: ids) = id ++ scoped ids.
Proof.
  revert id. induction ids as [|b ids IH]; intros id; [now rewrite app_nil_r|].
  change (join_text (B "::") (id :: b :: ids)) with (id ++ B "::" ++ join_text (B "::") (b :: ids)).
  now rewrite IH.
Qed.

Lemma mangle_ident_head id : exists d r, mangle_ident id = d :: r /\ isdigit d = true.
Proof.
  destruct (dec_cons (Z.of_nat (length id)) ltac:(lia)) as (d & ds & Ed & Hd & _).
  exists d, (ds ++ id). unfold mangle_ident. now rewrite Ed.
Qed.

Lemma mangle_ident_length id : wf_ident id = true ->
  (2 <= length (mangle_ident id))%nat /\ (length id < length (mangle_ident id))%nat.
Proof.
  intros Hw. destruct (wf_ident_facts id Hw) as (c & r & -> & _).
  destruct (dec_cons (Z.of_nat (length (c :: r))) ltac:(lia)) as (d & ds & Ed & _ & _).
  unfold mangle_ident. rewrite Ed, length_app. cbn [length]. lia.
Qed.

(** The dictionary has room for every scope: each takes two bytes of the name or more. *)
Lemma room name k : (2 * k < length name)%nat -> Z.of_nat k < dict_capacity name.
Proof.
  intros H. unfold dict_capacity, size_. apply Z.lt_le_trans with (Z.of_nat k + 1); [lia|].
  apply Z.div_le_lower_bound; lia.
Qed.

Lemma last_default {A} (l : list A) : forall x d d', last (x :: l) d = last (x :: l) d'.
Proof. induction l as [|y l IH]; intros x d d'; [reflexivity|]. exact (IH y d d'). Qed.

Lemma scopes_loop ids : forall pre post fuel t0 id dict,
  forallb wf_ident ids = true -> wf_ident id = true -> ident_char (hd NUL (t0 ++ id)) = true ->
  size_ (pre ++ flat_map mangle_ident ids ++ post) < 2 ^ 62 ->
  (length (t0 ++ id) <= 2 * length pre)%nat -> (2 * length dict < length pre)%nat ->
  exists t0' id' dict' ,
    prefix_loop (pre ++ flat_map mangle_ident ids ++ post) self (length ids + fuel) 1
      (inner_vars source_flags)
      (pst (Z.of_nat (length pre)) (Z.of_nat (length t0)) dict false (tout (t0 ++ id) None))
    = prefix_loop (pre ++ flat_map mangle_ident ids ++ post) self fuel 1 (inner_vars source_flags)
        (pst (Z.of_nat (length (pre ++ flat_map mangle_ident ids))) (Z.of_nat (length t0')) dict' false
             (tout (t0' ++ id') None))
    /\ t0' ++ id' = (t0 ++ id) ++ scoped ids /\ id' = last ids id /\ wf_ident id' = true
    /\ (2 * length dict' < length (pre ++ flat_map mangle_ident ids))%nat
    /\ (length (t0' ++ id') <= 2 * length (pre ++ flat_map mangle_ident ids))%nat.
Proof.
  induction ids as [|b ids IH]; intros pre post fuel t0 id dict Hws Hw Hhd Hs Ht Hd.
  - exists t0, id, dict. cbn [flat_map scoped app length Nat.add]. rewrite !app_nil_r. auto 10.
  - cbn [forallb] in Hws. apply andb_true_iff in Hws as [Hwb Hws].
    cbn [flat_map] in *. rewrite <- app_assoc in *.
    destruct (mangle_ident_head b) as (d & r & Eb & Hdg).
    destruct (digit_letters d Hdg) as (_ & _ & _ & _ & HS & HT & HI).
    destruct (mangle_ident_length b Hwb) as [H2 Hlb].
    set (rest := flat_map mangle_ident ids ++ post) in *.
    unfold size_ in Hs. rewrite !length_app in Hs. rewrite length_app in Ht.
    assert (0 < length (t0 ++ id))%nat as Hpos.
    { destruct (wf_ident_facts id Hw) as (c & r' & -> & _). rewrite length_app. cbn. lia. }
    destruct (IH (pre ++ mangle_ident b) post fuel ((t0 ++ id) ++ B "::") b
      (dict ++ [mk_sub 1 0 (Z.of_nat (length (t0 ++ id)))])) as (t0' & id' & dict' & E & Et & El & Hwl & Hd' & Ht');
      try assumption.
    + rewrite <- app_assoc, hd_app; assumption.
    + unfold size_. rewrite <- app_assoc. fold rest. rewrite !length_app. lia.
    + rewrite !length_app. cbn [length list_ascii_of_string]. lia.
    + rewrite !length_app. cbn [length]. lia.
    + exists t0', id', dict'. rewrite <- (app_assoc pre (mangle_ident b) (_ ++ post)) in E. fold rest in E.
      rewrite (app_assoc pre (mangle_ident b) (flat_map mangle_ident ids)).
      split; [|split; [|split; [|split; [|split]]]]; try assumption.
      * rewrite <- E. cbn [length Nat.add].
        replace (pre ++ mangle_ident b ++ rest) with (pre ++ d :: r ++ rest) at 1
          by (now rewrite Eb).
        erewrite prefix_round; [|reflexivity|assumption..|].
        2:{ change (d :: r ++ rest) with ((d :: r) ++ rest). rewrite <- Eb.
            apply prefix_scope; try assumption; try reflexivity.
            - unfold size_. rewrite !length_app. lia.
            - rewrite length_app. lia.
            - apply room. rewrite !length_app. lia. }
        cbv iota. change (d :: r ++ rest) with ((d :: r) ++ rest). rewrite <- Eb.
        rewrite <- (app_assoc (t0 ++ id)). rewrite <- Nat2Z.inj_add, <- length_app.
        do 3 f_equal. rewrite !length_app. cbn [length list_ascii_of_string]. lia.
      * rewrite Et, <- !app_assoc. reflexivity.
      * rewrite El. destruct ids as [|l ids]; [reflexivity|]. exact (last_default ids l b id).
Qed.

(** What the special name adds to the text. *)
Definition special_suffix (k : special) (id : bytes) : bytes :=
  match k with NoSpecial => [] | _ => special_text k ++ id end.

(** The loop from the special name, if any, to the end of the nested name. *)
Lemma special_loop k pre post fuel t0 id dict :
  wf_special k = true -> wf_ident id = true -> ident_char (hd NUL (t0 ++ id)) = true ->
  Z.of_nat (length (t0 ++ id)) < 2 ^ 63 -> (2 * length dict < length pre)%nat ->
  exists f snp dict',
    prefix_loop (pre ++ mangle_special k ++ "E"%char :: post) self (S (S fuel)) 1
      (inner_vars source_flags)
      (pst (Z.of_nat (length pre)) (Z.of_nat (length t0)) dict false (tout (t0 ++ id) None))
    = Ok (f, pst (Z.of_nat (length (pre ++ mangle_special k))) snp dict' false
               (tout ((t0 ++ id) ++ special_suffix k id) (Some (B "::"))))
    /\ isTemplate f = false.
Proof.
  intros Hks Hw Hhd Hlen Hd.
  assert (0 < length (t0 ++ id))%nat as Hpos.
  { destruct (wf_ident_facts id Hw) as (c & r' & -> & _). rewrite length_app. cbn. lia. }
  destruct (Nat.eq_dec 0 (length (mangle_special k))) as [E|E].
  - destruct k; try discriminate. cbn [mangle_special app special_suffix]. rewrite !app_nil_r.
    destruct (prefix_end pre post (Z.of_nat (length pre)) (Z.of_nat (length t0)) dict (t0 ++ id)
      (inner_vars source_flags) eq_refl eq_refl eq_refl) as (v' & Ev & Hf).
    exists (v_flags v'), (Z.of_nat (length t0)), dict. split; [|rewrite Hf; reflexivity].
    erewrite prefix_round; [|reflexivity..|exact Ev]. reflexivity.
  - assert (k <> NoSpecial) as Hk by (intros ->; now apply E).
    assert (mangle_special k = [special_letter k; special_kind k]) as Em
      by (destruct k; [contradiction | reflexivity..]).
    assert (special_suffix k id = special_text k ++ id) as -> by (destruct k; congruence || reflexivity).
    rewrite Em. set (name := pre ++ [special_letter k; special_kind k] ++ "E"%char :: post).
    assert (isTemplate (special_flags k source_flags) = false) as Hf by (destruct k; reflexivity).
    assert (prefix_name name self 1 (inner_vars source_flags)
      (pst (Z.of_nat (length pre)) (Z.of_nat (length t0)) dict false (tout (t0 ++ id) None))
      = Ok ((mk_prefix false true true (may_substitute (special_flags k source_flags) NUL)
               (special_flags k source_flags), true),
            pst (Z.of_nat (length pre) + 2) NPOS (dict ++ [mk_sub 1 0 (Z.of_nat (length (t0 ++ id)))]) false
              (tout ((t0 ++ id) ++ special_text k ++ id) None))) as Hname.
    { eapply prefix_more; try assumption; try reflexivity.
      - rewrite (length_app (t0 ++ id)). lia.
      - now apply hd_app.
      - apply room. unfold name. rewrite !length_app. cbn [length]. lia.
      - now apply unqualified_special. }
    set (v1 := mk_prefix _ _ _ _ _) in Hname.
    destruct (prefix_end (pre ++ [special_letter k; special_kind k]) post
      (Z.of_nat (length pre) + 2) NPOS (dict ++ [mk_sub 1 0 (Z.of_nat (length (t0 ++ id)))])
      ((t0 ++ id) ++ special_text k ++ id) v1) as (v' & Ev & Hv').
    { rewrite length_app. cbn [length]. lia. }
    { reflexivity. } { exact Hf. }
    rewrite <- app_assoc in Ev. fold name in Ev.
    exists (v_flags v'), NPOS, (dict ++ [mk_sub 1 0 (Z.of_nat (length (t0 ++ id)))]). split.
    + unfold name in *. cbn [app] in *.
      erewrite prefix_round; [|reflexivity|destruct k; reflexivity..|exact Hname]. cbv iota.
      change (special_letter k :: special_kind k :: "E"%char :: post)
        with ([special_letter k; special_kind k] ++ "E"%char :: post) in *. rewrite app_assoc in *.
      erewrite prefix_round; [|cbn [pos pst]; rewrite length_app; cbn [length]; lia|reflexivity..|exact Ev].
      cbv iota. unfold ret. do 3 f_equal. rewrite length_app. cbn [length]. lia.
    + rewrite Hv'. exact Hf.
Qed.

(** The scopes of a function and how its nested name ends. *)
Lemma nested_prefix_loop ids id k post fuel :
  forallb wf_ident (id :: ids) = true -> wf_special k = true ->
  let name := B "_ZN" ++ flat_map mangle_ident (id :: ids) ++ mangle_special k ++ "E"%char :: post in
  size_ name < 2 ^ 60 ->
  exists f snp dict,
    prefix_loop name self (S (length ids + S (S fuel))) 1 (mk_prefix true false false false no_flags)
      (pst 3 NPOS [] false tout0)
    = Ok (f, pst (3 + Z.of_nat (length (flat_map mangle_ident (id :: ids) ++ mangle_special k))) snp dict false
               (tout (join_text (B "::") (id :: ids) ++ show_special (id :: ids) k) (Some (B "::"))))
    /\ isTemplate f = false.
Proof.
  intros Hws Hks name Hs. cbn [forallb] in Hws. apply andb_true_iff in Hws as [Hw Hws].
  destruct (wf_ident_facts id Hw) as (c & r & Eid & Hc & _).
  destruct (mangle_ident_head id) as (d & dr & Ed & Hdg).
  destruct (digit_letters d Hdg) as (_ & _ & _ & _ & HS & HT & HI).
  destruct (mangle_ident_length id Hw) as [H2 Hlid].
  set (tail := mangle_special k ++ "E"%char :: post) in *.
  assert (name = B "_ZN" ++ mangle_ident id ++ flat_map mangle_ident ids ++ tail) as Hname.
  { unfold name. cbn [flat_map]. now rewrite <- app_assoc. }
  assert (name = (B "_ZN" ++ mangle_ident id) ++ flat_map mangle_ident ids ++ tail) as Hname2.
  { rewrite Hname. now rewrite app_assoc. }
  assert (name = ((B "_ZN" ++ mangle_ident id) ++ flat_map mangle_ident ids) ++ tail) as Hname3.
  { rewrite Hname2. now rewrite (app_assoc (B "_ZN" ++ _)). }
  assert (length (B "_ZN") = 3%nat) as H3 by reflexivity.
  assert (hd NUL id = c) as Hhd by now rewrite Eid.
  destruct (scopes_loop ids (B "_ZN" ++ mangle_ident id) tail (S (S fuel)) [] id [])
    as (t0 & id' & dict & E & Et & El & Hwl & Hd' & Ht'); try assumption.
  { cbn [app]. now rewrite Hhd. } { rewrite <- Hname2. lia. }
  { cbn [app]. rewrite length_app. lia. } { cbn [length]. rewrite length_app. lia. }
  assert (t0 ++ id' = id ++ scoped ids) as Et2 by exact Et.
  destruct (special_loop k ((B "_ZN" ++ mangle_ident id) ++ flat_map mangle_ident ids) post fuel t0 id' dict)
    as (f & snp & dict' & Ef & Hf); try assumption.
  { rewrite Et2, hd_app, Hhd by (rewrite Eid; cbn; lia). assumption. }
  { rewrite Hname3 in Hs. unfold size_ in Hs. rewrite length_app in Hs. lia. }
  exists f, snp, dict'. split; [|assumption].
  replace name with (B "_ZN" ++ d :: dr ++ flat_map mangle_ident ids ++ tail)
    by (rewrite Hname, Ed; reflexivity).
  erewrite prefix_round; [|reflexivity|assumption..|].
  2:{ change (d :: dr ++ flat_map mangle_ident ids ++ tail)
        with ((d :: dr) ++ flat_map mangle_ident ids ++ tail). rewrite <- Ed.
      apply prefix_first; try assumption; [reflexivity|]. rewrite <- Hname. lia. }
  cbv iota. change (d :: dr ++ flat_map mangle_ident ids ++ tail)
        with ((d :: dr) ++ flat_map mangle_ident ids ++ tail). rewrite <- Ed, app_assoc.
  change (mk_prefix false true true true source_flags) with (inner_vars source_flags).
  replace (3 + Z.of_nat (length (mangle_ident id)))
    with (Z.of_nat (length (B "_ZN" ++ mangle_ident id))) by (rewrite length_app; lia).
  etransitivity; [exact E|]. rewrite (app_assoc (B "_ZN" ++ _)). etransitivity; [exact Ef|].
  do 3 f_equal.
  - cbn [flat_map]. rewrite !length_app. lia.
  - f_equal. rewrite join_scoped, Et2. f_equal. cbn [last]. destruct k; [reflexivity|..];
    cbn [special_suffix special_text show_special]; do 2 f_equal; rewrite El;
    destruct ids as [|b ids]; reflexivity || exact (last_default ids b id []).
Qed.

Lemma cv_qualifiers_none pre c post q s :
  pos s = Z.of_nat (length pre) -> existsb (Ascii.eqb c) (B "rVK") = false ->
  parse_cv_qualifiers (pre ++ c :: post) q s = Ok (false, s).
Proof.
  intros Hp Hc. cbn in Hc. rewrite !orb_false_iff in Hc. destruct Hc as (H1 & H2 & H3 & _).
  unfold parse_cv_qualifiers. erewrite mbind_ok by now apply in_range_app.
  erewrite mbind_ok by reflexivity. erewrite mbind_ok by reflexivity.
  erewrite mbind_ok.
  2:{ unfold loop_fuel. cbn [skip_qualifiers]. erewrite mbind_ok by now apply peek_app.
      rewrite H1, H2, H3. reflexivity. }
  erewrite mbind_ok by reflexivity. rewrite Z.sub_diag.
  erewrite mbind_ok by reflexivity. rewrite Z.ltb_irrefl. reflexivity.
Qed.

Lemma expect_E_ok pre post s : pos s = Z.of_nat (length pre) ->
  expect_E (pre ++ "E"%char :: post) s = Ok (tt, set_pos s (pos s + 1)).
Proof.
  intros Hp. unfold expect_E. erewrite mbind_ok by now apply in_range_app.
  erewrite mbind_ok by now apply peek_app. erewrite mbind_ok by reflexivity. reflexivity.
Qed.

Lemma scopes_fuel ids : forallb wf_ident ids = true ->
  (2 * length ids <= length (flat_map mangle_ident ids))%nat.
Proof.
  induction ids as [|id ids IH]; intros H; [cbn; lia|]. cbn [forallb] in H.
  apply andb_true_iff in H as [Hw H]. specialize (IH H). cbn [flat_map].
  rewrite length_app. destruct (mangle_ident_length id Hw). cbn [length]. lia.
Qed.

(** The temporary output after [t] was written, with the positions [ps] pushed. *)
Definition written (t : bytes) (ps : list Z) : Output :=
  mk_output (Some t) (Some (B "::")) false NPOS ps.

(** A prefix, then a nested name, written to the temporary output, from what the loop does. *)
Lemma prefix_of_loop name d r f st text :
  name = B "_ZN" ++ d :: r ->
  prefix_loop name self (loop_fuel name) 1 (mk_prefix true false false false no_flags)
    (pst 3 NPOS [] false tout0) = Ok (f, st (written text [0; 0])) ->
  (forall o, out_at 1 (st o) = o) -> (forall o o', updated 1 o' (st o) = st o') ->
  parse_prefix name self 1 no_flags (pst 3 NPOS [] false (mk_output None None false NPOS [0]))
  = Ok (f, st (written text [0])).
Proof.
  intros Hr E Ho Hu. unfold parse_prefix. erewrite mbind_ok by reflexivity. cbn [pos pst].
  erewrite mbind_ok.
  2:{ replace (size_ name) with (4 + Z.of_nat (length r)).
      2:{ rewrite Hr. unfold size_. rewrite length_app. cbn [length list_ascii_of_string]. lia. }
      replace (3 =? _) with false by lia. replace (3 <? _) with true by lia. reflexivity. }
  erewrite mbind_ok by reflexivity. erewrite with_position_ok.
  - rewrite Hu. reflexivity.
  - exact E.
  - rewrite Ho. reflexivity.
Qed.

Lemma nested_of_prefix name body d r post f snp dict text :
  name = B "_ZN" ++ body ++ "E"%char :: post ->
  name = B "_ZN" ++ d :: r -> isdigit d = true ->
  parse_prefix name self 1 no_flags (pst 3 NPOS [] false (mk_output None None false NPOS [0]))
  = Ok (f, pst (3 + Z.of_nat (length body)) snp dict false (written text [0])) ->
  parse_nested_name name self 1 no_flags (pst 2 NPOS [] false (mk_output None None false NPOS [0]))
  = Ok (f, pst (4 + Z.of_nat (length body)) snp dict false (written text [0])).
Proof.
  intros Hn Hr Hdg E.
  assert (existsb (Ascii.eqb d) (B "rVK") = false) as Hcv.
  { clear -Hdg. destruct d as [[|] [|] [|] [|] [|] [|] [|] [|]]; vm_compute in *; congruence. }
  change (B "_ZN" ++ ?x) with (B "_Z" ++ "N"%char :: x) in Hn.
  unfold parse_nested_name. rewrite Hn at 1.
  erewrite mbind_ok by now apply in_range_app. erewrite mbind_ok by reflexivity. rewrite Hn at 1.
  erewrite mbind_ok by now apply peek_app. erewrite mbind_ok by reflexivity.
  erewrite mbind_ok by reflexivity. erewrite mbind_ok by reflexivity.
  change (set_pos (pst 2 NPOS [] false ?o) _) with (pst 3 NPOS [] false o).
  cbn [cvQualifiers pst]. rewrite Hr at 1.
  erewrite mbind_ok by (erewrite mbind_ok by (apply cv_qualifiers_none; [reflexivity | exact Hcv]); reflexivity).
  erewrite mbind_ok by reflexivity. cbn [success status pst]. cbv iota.
  rewrite Hr at 1. erewrite mbind_ok by now apply in_range_app. erewrite mbind_ok by reflexivity.
  erewrite mbind_ok by exact E. rewrite Hn.
  change (B "_Z" ++ "N"%char :: ?x ++ ?y) with (B "_ZN" ++ x ++ y). rewrite app_assoc.
  erewrite mbind_ok.
  2:{ apply expect_E_ok. cbn [pos pst]. rewrite length_app. cbn [length list_ascii_of_string]. lia. }
  unfold ret. cbn [pos pst].
  replace (3 + Z.of_nat (length body) + 1) with (4 + Z.of_nat (length body)) by lia. reflexivity.
Qed.

Lemma name_of_nested name r f p snp dict text :
  name = B "_ZN" ++ r ->
  parse_nested_name name self 1 no_flags (pst 2 NPOS [] false (mk_output None None false NPOS [0]))
  = Ok (f, pst p snp dict false (written text [0])) ->
  parse_name name self 1 no_flags (pst 2 NPOS [] false new_output)
  = Ok ((true, f), pst p snp dict false (written text [])).
Proof.
  intros Hn E. change (B "_ZN" ++ ?x) with (B "_Z" ++ "N"%char :: x) in Hn.
  unfold parse_name. rewrite Hn at 1. erewrite mbind_ok by now apply in_range_app. cbn [negb].
  etransitivity; [apply (with_position_ok 1 _ _ (true, f) (pst p snp dict false (written text [0]))
    (written text [])); [|reflexivity] | reflexivity].
  change (set_isSource no_flags false) with no_flags. rewrite Hn at 1.
  erewrite mbind_ok by now apply peek_app. change ("N" =c "N") with true. cbv iota.
  erewrite mbind_ok by exact E. reflexivity.
Qed.

(** The nested name of a function, written to the temporary output. *)
Lemma nested_name ids id k post :
  forallb wf_ident (id :: ids) = true -> wf_special k = true ->
  let body := flat_map mangle_ident (id :: ids) ++ mangle_special k in
  let name := B "_ZN" ++ body ++ "E"%char :: post in
  size_ name < 2 ^ 60 ->
  exists f snp dict,
    parse_name name self 1 no_flags (pst 2 NPOS [] false new_output)
    = Ok ((true, f), pst (4 + Z.of_nat (length body)) snp dict false
        (written (join_text (B "::") (id :: ids) ++ show_special (id :: ids) k) []))
    /\ isTemplate f = false.
Proof.
  intros Hws Hks body name Hs.
  assert (name = B "_ZN" ++ flat_map mangle_ident (id :: ids) ++ mangle_special k ++ "E"%char :: post) as Hname.
  { unfold name, body. now rewrite <- app_assoc. }
  assert (length ids + 3 <= loop_fuel name)%nat as Hfuel.
  { pose proof (scopes_fuel _ Hws). unfold loop_fuel. rewrite Hname, !length_app. cbn [length] in *. lia. }
  destruct (nested_prefix_loop ids id k post (loop_fuel name - (length ids + 3)) Hws Hks)
    as (f & snp & dict & E & Hf); [rewrite <- Hname; assumption|].
  rewrite <- Hname in E. replace (S _) with (loop_fuel name) in E by lia. fold body in E.
  destruct (mangle_ident_head id) as (d & dr & Ed & Hdg).
  assert (exists r, name = B "_ZN" ++ d :: r) as (r & Hr).
  { eexists. rewrite Hname. cbn [flat_map]. rewrite Ed. cbn [app]. reflexivity. }
  exists f, snp, dict. split; [|assumption].
  eapply name_of_nested; [reflexivity|]. eapply nested_of_prefix; [reflexivity | exact Hr | exact Hdg |].
  eapply (prefix_of_loop name d r f (fun o => pst _ snp dict false o)); [exact Hr | exact E | reflexivity..].
Qed.

End Names.

(** ** Parameters *)

Section Params.
  Variables (name : bytes) (flags : Z) (self : calls).

(** The decoder inside the parameters: the text goes to the output 0, [n] local strings. *)
Definition qst (p snp : Z) (dict : list substring) (n : nat) (t : bytes) (d : option bytes)
  (ps : list Z) (o1 : Output) : state :=
  mk_state p snp 0 (Some 0%nat) dict [] 0 1 false false SUCCESS
    [mk_output (Some t) d false NPOS ps; o1] (repeat [] n).

Lemma wf_param_facts c : wf_param c = true ->
  builtin_table c = Some (param_name c) /\ no_angle (hd NUL (param_name c)) = true
  /\ (0 < length (param_name c) <= 20)%nat
  /\ existsb (Ascii.eqb c) (B "ACGUFMPRSTrVKuv") = false.
Proof. destruct c as [[|] [|] [|] [|] [|] [|] [|] [|]]; vm_compute; intuition (congruence || lia). Qed.

Definition separator_of (i : Z) : bytes := if i =? 0 then [] else B ", ".

(** One builtin type, with the separator in front unless it is the first. *)
Lemma append_param t i c : wf_param c = true ->
  oappend (mk_output (Some t) (if i =? 0 then None else Some (B ", ")) false NPOS [Z.of_nat (length t)])
    (param_name c) (Z.of_nat (length (param_name c)))
  = Ok (mk_output (Some (t ++ separator_of i ++ param_name c)) None false NPOS
          [Z.of_nat (length (t ++ separator_of i))]).
Proof.
  intros Hw. destruct (wf_param_facts c Hw) as (_ & Ha & Hl & _). unfold separator_of.
  destruct (i =? 0); [rewrite oappend_plain | rewrite oappend_delim]; try assumption;
    rewrite ?Nat2Z.id, ?firstn_all; try (unfold NPOS; lia).
  - now rewrite app_nil_r.
  - cbn [map text_of]. rewrite Z.eqb_refl, length_app. repeat f_equal. cbn [length list_ascii_of_string]. lia.
Qed.

Lemma nth_repeat_nil n q : nth q (repeat ([] : bytes) n) [] = [].
Proof. revert q. induction n; intros [|q]; cbn; auto. Qed.

Lemma builtin_param pre c post snp dict n t i o1 q :
  name = pre ++ c :: post -> wf_param c = true ->
  builtin_or_name name self 0 false q
    (qst (Z.of_nat (length pre)) snp dict n t (if i =? 0 then None else Some (B ", "))
       [Z.of_nat (length t)] o1)
  = Ok (true, qst (Z.of_nat (length pre) + 1) snp dict n (t ++ separator_of i ++ param_name c) None
      [Z.of_nat (length (t ++ separator_of i))] o1).
Proof.
  intros Hn Hw. destruct (wf_param_facts c Hw) as (Hb & _ & _ & Hx). cbn in Hx.
  rewrite !orb_false_iff in Hx. destruct Hx as (_ & _ & _ & _ & _ & _ & _ & _ & _ & _ & _ & _ & _ & Hu & Hv & _).
  unfold builtin_or_name. erewrite mbind_ok by reflexivity. cbn [strings qst]. rewrite nth_repeat_nil.
  erewrite mbind_ok.
  2:{ unfold parse_builtin_type. rewrite Hn at 1. erewrite mbind_ok by now apply in_range_app.
      rewrite Hn at 1. erewrite mbind_ok by now apply peek_app. erewrite mbind_ok by reflexivity.
      rewrite Hu, Hv, Hb. cbn [andb]. unfold emit.
      erewrite mbind_ok by (apply on_out_ok; apply append_param; exact Hw).
      erewrite mbind_ok by reflexivity. reflexivity. }
  cbv beta iota delta [is_none negb]. erewrite mbind_ok by reflexivity. cbv iota.
  erewrite mbind_ok by reflexivity. erewrite mbind_ok by reflexivity.
  erewrite mbind_ok by reflexivity. erewrite mbind_ok.
  2:{ unfold apply_qualifiers. erewrite mbind_ok by reflexivity. cbn [strings qst updated set_pos set_outputs].
      rewrite nth_repeat_nil. reflexivity. }
  reflexivity.
Qed.

(** [void] in a prototype writes nothing. *)
Lemma builtin_void pre post snp dict n t o1 q :
  name = pre ++ "v"%char :: post ->
  builtin_or_name name self 0 false q
    (qst (Z.of_nat (length pre)) snp dict n t None [Z.of_nat (length t)] o1)
  = Ok (true, qst (Z.of_nat (length pre) + 1) snp dict n t None [Z.of_nat (length t)] o1).
Proof.
  intros Hn. unfold builtin_or_name. erewrite mbind_ok by reflexivity. cbn [strings qst].
  rewrite nth_repeat_nil. erewrite mbind_ok.
  2:{ unfold parse_builtin_type. rewrite Hn at 1. erewrite mbind_ok by now apply in_range_app.
      rewrite Hn at 1. erewrite mbind_ok by now apply peek_app. erewrite mbind_ok by reflexivity.
      change ("v" =c "u") with false. cbv iota. reflexivity. }
  cbv beta iota delta [is_none negb]. erewrite mbind_ok by reflexivity. cbv iota.
  erewrite mbind_ok by reflexivity. erewrite mbind_ok by reflexivity.
  erewrite mbind_ok by reflexivity. erewrite mbind_ok; [reflexivity|].
  unfold apply_qualifiers. erewrite mbind_ok by reflexivity. cbn [strings qst set_pos].
  rewrite nth_repeat_nil. reflexivity.
Qed.

(** A type that starts with neither a qualifier nor a compound type, from its builtin type. *)
Lemma type_of_builtin pre c post i p' snp dict n t t' pos' o1 q :
  name = pre ++ c :: post -> existsb (Ascii.eqb c) (B "ACGUFMPRSTrVK") = false ->
  builtin_or_name name self 0 false q
    (qst (Z.of_nat (length pre)) snp dict n t (if i =? 0 then None else Some (B ", "))
       [Z.of_nat (length t)] o1)
  = Ok (true, qst p' snp dict n t' None [pos'] o1) ->
  parse_type name flags self 0 false i q (qst (Z.of_nat (length pre)) snp dict n t None [] o1)
  = Ok (true, qst p' snp dict n t' None [] o1).
Proof.
  intros Hn Hx E. cbn in Hx. rewrite !orb_false_iff in Hx.
  destruct Hx as (HA & HC & HG & HU & HF & HM & HP & HR & HS & HT & Hr & HV & HK & _).
  assert (existsb (Ascii.eqb c) (B "rVK") = false) as Hcv by (cbn; now rewrite Hr, HV, HK).
  unfold parse_type. rewrite Hn at 1. erewrite mbind_ok by now apply in_range_app.
  change (negb true) with false. cbv iota.
  etransitivity; [apply (with_position_ok 0 _ _ true (qst p' snp dict n t' None [pos'] o1)
    (mk_output (Some t') None false NPOS [])); [|reflexivity] | reflexivity].
  erewrite mbind_ok by reflexivity.
  etransitivity; [apply (with_delim_ok 0 _ _ _ true (qst p' snp dict n t' None [pos'] o1)) | reflexivity].
  replace (if negb (i =? 0) && negb false then _ else _) with (if i =? 0 then None else Some (B ", "))
    by (destruct (i =? 0); reflexivity).
  change (updated 0 _ _) with (qst (Z.of_nat (length pre)) snp dict n t
    (if i =? 0 then None else Some (B ", ")) [Z.of_nat (length t)] o1).
  erewrite mbind_ok with (a := TReturn true); [reflexivity|].
  unfold type_cases. rewrite Hn at 1. erewrite mbind_ok by now apply peek_app.
  rewrite HA, HC, HG, HU, HF, HM, HP, HR, HS, HT. cbn [orb]. rewrite Hn at 1.
  erewrite mbind_ok by (apply cv_qualifiers_none; [reflexivity | exact Hcv]).
  cbv iota. erewrite mbind_ok by exact E. reflexivity.
Qed.

(** The parameter list. *)
Fixpoint params_text (i : Z) (ps : bytes) : bytes :=
  match ps with
  | [] => []
  | c :: ps => separator_of i ++ param_name c ++ params_text (i + 1) ps
  end.

Lemma params_text_join ps : params_text 0 ps = join_text (B ", ") (map param_name ps).
Proof.
  assert (forall ps i, 0 < i -> params_text i ps = flat_map (fun c => B ", " ++ param_name c) ps) as H.
  { clear ps. induction ps as [|c ps IH]; intros i Hi; [reflexivity|]. cbn [params_text flat_map].
    rewrite IH by lia. unfold separator_of. replace (i =? 0) with false by lia. now rewrite app_assoc. }
  destruct ps as [|c ps]; [reflexivity|]. cbn [params_text]. rewrite H by lia. change (separator_of 0) with (@nil ascii).
  cbn [app map]. revert c. induction ps as [|d ps IH]; intros c; [apply app_nil_r|].
  cbn [map flat_map]. change (join_text _ (?a :: ?b :: ?l)) with (a ++ B ", " ++ join_text (B ", ") (b :: l)).
  rewrite <- IH. now rewrite <- app_assoc.
Qed.

End Params.

(** The loop over the types of a parameter list that ends the name. *)
Section ParamsLoop.
  Variables (name : bytes) (flags : Z) (self self' : calls).
  Hypothesis c_type_self : forall out r i q, c_type self out r i q = parse_type name flags self' out r i q.

Lemma new_string_qst p snp dict n t d ps o1 :
  new_string (qst p snp dict n t d ps o1) = Ok (n, qst p snp dict (S n) t d ps o1).
Proof.
  unfold new_string, qst. erewrite mbind_ok by reflexivity. cbn [strings].
  erewrite mbind_ok by reflexivity. rewrite repeat_length. unfold ret, set_strings. cbn.
  do 2 f_equal. f_equal. clear. induction n; cbn; congruence.
Qed.

Lemma params_loop_end i fuel snp dict n t o1 :
  params_loop self (S fuel) 0 i (qst (Z.of_nat (length name)) snp dict n t None [] o1)
  = Ok (i, qst (Z.of_nat (length name)) snp dict (S n) t None [] o1).
Proof.
  cbn [params_loop]. erewrite mbind_ok.
  2:{ unfold parse_type_new. erewrite mbind_ok by apply new_string_qst. rewrite c_type_self.
      unfold parse_type. erewrite mbind_ok with (a := false); [reflexivity|].
      unfold in_range. erewrite mbind_ok by reflexivity. cbn [pos qst]. unfold size_.
      now rewrite Z.ltb_irrefl. }
  reflexivity.
Qed.

Lemma params_loop_all ps : forall pre i fuel snp dict n t o1,
  name = pre ++ ps -> forallb wf_param ps = true -> (length ps < fuel)%nat -> 0 <= i ->
  exists n', params_loop self fuel 0 i (qst (Z.of_nat (length pre)) snp dict n t None [] o1)
  = Ok (i + Z.of_nat (length ps),
        qst (Z.of_nat (length name)) snp dict n' (t ++ params_text i ps) None [] o1).
Proof.
  induction ps as [|c ps IH]; intros pre i fuel snp dict n t o1 Hn Hw Hf Hi.
  - destruct fuel as [|fuel]; [lia|]. exists (S n). rewrite app_nil_r in Hn. subst pre.
    rewrite params_loop_end. cbn [length params_text]. now rewrite Z.add_0_r, app_nil_r.
  - destruct fuel as [|fuel]; [cbn in Hf; lia|]. cbn [forallb] in Hw. apply andb_true_iff in Hw as [Hc Hw].
    destruct (IH (pre ++ [c]) (i + 1) fuel snp dict (S n) (t ++ separator_of i ++ param_name c) o1)
      as (n' & E); try (cbn [length] in *; lia); try assumption.
    { now rewrite <- app_assoc. }
    exists n'. cbn [params_loop]. destruct (wf_param_facts c Hc) as (_ & _ & _ & Hx).
    erewrite mbind_ok.
    2:{ unfold parse_type_new. erewrite mbind_ok by apply new_string_qst. rewrite c_type_self.
        eapply type_of_builtin; [exact Hn | | exact (builtin_param name self' pre c ps snp dict (S n) t i o1 n Hn Hc)].
        cbn in Hx |- *. rewrite !orb_false_iff in *. intuition. }
    cbv iota. replace (Z.of_nat (length pre) + 1) with (Z.of_nat (length (pre ++ [c])))
      by (rewrite length_app; cbn [length]; lia).
    etransitivity; [exact E|]. cbn [params_text length]. rewrite <- !app_assoc.
    do 2 f_equal. lia.
Qed.

Lemma params_loop_void pre fuel snp dict n t o1 :
  name = pre ++ B "v" -> (1 < fuel)%nat ->
  exists n', params_loop self fuel 0 0 (qst (Z.of_nat (length pre)) snp dict n t None [] o1)
  = Ok (1, qst (Z.of_nat (length name)) snp dict n' t None [] o1).
Proof.
  intros Hn Hf. destruct fuel as [|[|fuel]]; [lia..|]. exists (S (S n)).
  change (B "v") with ["v"%char] in Hn.
  remember (S fuel) as f1. cbn [params_loop]. erewrite mbind_ok.
  2:{ unfold parse_type_new. erewrite mbind_ok by apply new_string_qst. rewrite c_type_self.
      eapply type_of_builtin; [exact Hn | reflexivity | exact (builtin_void name self' pre [] snp dict (S n) t o1 n Hn)]. }
  cbv iota. replace (Z.of_nat (length pre) + 1) with (Z.of_nat (length name))
    by (rewrite Hn, length_app; cbn [length]; lia).
  subst f1. apply params_loop_end.
Qed.

End ParamsLoop.

(** ** The whole name *)

Lemma emit_plain lit p snp dict n t o1 :
  lit <> [] -> Z.of_nat (length lit) < 2 ^ 62 -> no_angle (hd NUL lit) = true ->
  emit 0 lit (qst p snp dict n t None [] o1) = Ok (tt, qst p snp dict n (t ++ lit) None [] o1).
Proof.
  intros Hne Hl Ha. unfold emit. etransitivity; [apply on_out_ok; apply oappend_plain|].
  - destruct lit; [contradiction|]. cbn [length]. lia.
  - unfold NPOS. lia.
  - exact Ha.
  - rewrite Nat2Z.id, firstn_all. reflexivity.
Qed.

(** What the loop over the parameters of a function does. *)
Lemma params_loop_mangled name self self' pre ps fuel snp dict n t o1 :
  (forall out r i q, c_type self out r i q = parse_type name 0 self' out r i q) ->
  name = pre ++ mangle_params ps -> forallb wf_param ps = true -> (length ps + 1 < fuel)%nat ->
  exists i n', params_loop self fuel 0 0 (qst (Z.of_nat (length pre)) snp dict n t None [] o1)
    = Ok (i, qst (Z.of_nat (length name)) snp dict n'
               (t ++ join_text (B ", ") (map param_name ps)) None [] o1)
  /\ i <> 0.
Proof.
  intros Hself Hn Hw Hf. destruct ps as [|c ps].
  - destruct (params_loop_void name 0 self self' Hself pre fuel snp dict n t o1 Hn ltac:(cbn in *; lia))
      as (n' & E).
    exists 1, n'. cbn [map join_text]. rewrite app_nil_r. split; [exact E | lia].
  - destruct (params_loop_all name 0 self self' Hself (c :: ps) pre 0 fuel snp dict n t o1 Hn Hw
      ltac:(lia) ltac:(lia)) as (n' & E).
    rewrite params_text_join in E. do 2 eexists. split; [exact E | cbn [length]; lia].
Qed.

Lemma function_params name self self' pre ps p snp dict t o1 :
  (forall out r i q, c_type self out r i q = parse_type name 0 self' out r i q) ->
  name = pre ++ mangle_params ps -> forallb wf_param ps = true -> p = Z.of_nat (length pre) ->
  exists n', emit_function_params name 0 self 0
      (set_inPrototype (qst p snp dict 1 t None [] o1) 0)
    = Ok (true, set_inPrototype (qst (Z.of_nat (length name)) snp dict n'
        (t ++ B "(" ++ join_text (B ", ") (map param_name ps) ++ B ")") None [] o1) 0).
Proof.
  intros Hself Hn Hw Hp. subst p.
  destruct (params_loop_mangled name self self' pre ps (loop_fuel name) snp dict 1 (t ++ B "(") o1
    Hself Hn Hw) as (i & n' & E & Hi).
  { unfold loop_fuel. rewrite Hn, length_app. destruct ps; cbn [mangle_params length]; lia. }
  exists n'. unfold emit_function_params. erewrite mbind_ok by reflexivity.
  change (Z.land 0 _ =? 0) with true. rewrite andb_false_r. erewrite mbind_ok by reflexivity.
  erewrite mbind_ok by reflexivity. etransitivity; [apply temporarily_ok with (a := true)|reflexivity].
  change (set_inPrototype (set_inPrototype ?s _) _) with s.
  erewrite mbind_ok by (apply emit_plain; [discriminate | cbn; lia | reflexivity]).
  erewrite mbind_ok by exact E.
  erewrite mbind_ok by (apply emit_plain; [discriminate | cbn; lia | reflexivity]).
  replace (i =? 0) with false by lia. erewrite mbind_ok by reflexivity.
  rewrite <- !app_assoc. reflexivity.
Qed.

Lemma show_function_head f : wf_function f = true ->
  exists id ids c r, scopes f = id :: ids /\ forallb wf_ident (id :: ids) = true
  /\ wf_special (kind f) = true /\ forallb wf_param (params f) = true
  /\ join_text (B "::") (id :: ids) ++ show_special (id :: ids) (kind f) = c :: r
  /\ no_angle c = true.
Proof.
  unfold wf_function. rewrite !andb_true_iff. intros [[[Hn Hw] Hk] Hp].
  destruct (scopes f) as [|id ids]; [discriminate|]. exists id, ids.
  assert (wf_ident id = true) as Hid by (cbn [forallb] in Hw; now apply andb_true_iff in Hw).
  destruct (wf_ident_facts id Hid) as (c & r & Eid & Hc & _).
  exists c. rewrite join_scoped, Eid. eexists. repeat split; try assumption; try reflexivity.
  - now rewrite <- Eid.
  - now apply ident_char_facts.
Qed.

Lemma emit_temporary c r p snp dict ds ps :
  no_angle c = true -> Z.of_nat (length (c :: r)) < 2 ^ 62 ->
  emit_output 0 1 (pst p snp dict false (mk_output (Some (c :: r)) ds false NPOS ps))
  = Ok (tt, set_inPrototype (qst p snp dict 1 (c :: r) None []
              (mk_output (Some (c :: r)) ds false NPOS ps)) 0).
Proof.
  intros Hc Hl. unfold emit_output. erewrite mbind_ok by reflexivity.
  cbn [content out_at outputs pst nth buf oappend_text].
  etransitivity; [apply on_out_ok; apply oappend_plain|].
  - cbn [length]. lia.
  - unfold NPOS. lia.
  - exact Hc.
  - rewrite Nat2Z.id, firstn_all. reflexivity.
Qed.

(** The text of a nested name is not much longer than the name. *)
Lemma shown_length ids id k : forallb wf_ident (id :: ids) = true ->
  (length (join_text (B "::") (id :: ids) ++ show_special (id :: ids) k)
   <= 3 * length (flat_map mangle_ident (id :: ids)) + 3)%nat.
Proof.
  intros Hw. rewrite join_scoped, !length_app.
  assert (forall l, forallb wf_ident l = true ->
    (length (scoped l) <= 2 * length (flat_map mangle_ident l))%nat
    /\ (length (last l []) <= length (flat_map mangle_ident l))%nat) as H.
  { clear. induction l as [|b l IH]; intros Hl; [cbn; lia|]. cbn [forallb] in Hl.
    apply andb_true_iff in Hl as [Hb Hl]. destruct (IH Hl), (mangle_ident_length b Hb).
    unfold scoped in *. cbn [flat_map]. rewrite !length_app. change (length (B "::")) with 2%nat.
    split; [lia|]. destruct l; [cbn [last flat_map length]; lia|]. cbn [last] in *. lia. }
  destruct (H _ Hw) as [_ Hl]. cbn [forallb] in Hw. apply andb_true_iff in Hw as [Hid Hids].
  destruct (H _ Hids) as [Hsc _]. destruct (mangle_ident_length id Hid).
  assert (length (show_special (id :: ids) k) <= 3 + length (last (id :: ids) []))%nat.
  { destruct k; cbn [show_special]; rewrite ?length_app; cbn [length list_ascii_of_string]; lia. }
  cbn [flat_map] in *. rewrite length_app in *. lia.
Qed.

Lemma mangle_params_head ps : forallb wf_param ps = true ->
  exists c r, mangle_params ps = c :: r /\ (c =c "E") = false.
Proof.
  intros H. destruct ps as [|c r]; [now exists "v"%char, []|]. exists c, r. split; [reflexivity|].
  cbn [forallb] in H. apply andb_true_iff in H as [H _]. clear -H.
  destruct c as [[|] [|] [|] [|] [|] [|] [|] [|]]; vm_compute in *; congruence.
Qed.

(** Function names: the temporary name is appended to the output, then the parameters. *)
Lemma function_name f name n :
  wf_function f = true -> name = mangle_function f -> size_ name < 2 ^ 60 ->
  exists snp dict n' o1, parse_data_or_func_name name 0 (decoder name 0 (S n)) 0 (set_pos init_state 2)
    = Ok (tt, set_cvQualifiers (set_inPrototype
        (qst (Z.of_nat (length name)) snp dict n' (show_function f) None [] o1) 0) None).
Proof.
  intros Hw Hname Hs. destruct (show_function_head f Hw) as (id & ids & c & r & Esc & Hids & Hk & Hps & Etext & Hc).
  set (body := flat_map mangle_ident (id :: ids) ++ mangle_special (kind f)).
  assert (name = B "_ZN" ++ body ++ "E"%char :: mangle_params (params f)) as Hn.
  { unfold body. rewrite Hname, <- app_assoc. unfold mangle_function. now rewrite Esc. }
  destruct (nested_name (decoder name 0 (S n)) ids id (kind f) (mangle_params (params f)) Hids Hk)
    as (fl & snp & dict & E & Hfl); [fold body; now rewrite <- Hn|].
  fold body in E. rewrite <- Hn in E.
  set (pre := B "_ZN" ++ body ++ B "E").
  assert (name = pre ++ mangle_params (params f)) as Hpre.
  { rewrite Hn. unfold pre. rewrite <- !app_assoc. reflexivity. }
  assert (4 + Z.of_nat (length body) = Z.of_nat (length pre)) as Hp4.
  { unfold pre. rewrite !length_app. cbn [length list_ascii_of_string]. lia. }
  destruct (function_params name (decoder name 0 (S n)) (decoder name 0 n) pre (params f)
    (4 + Z.of_nat (length body)) snp dict (c :: r) (written (c :: r) [])) as (n' & Ep); try assumption.
  { reflexivity. }
  destruct (mangle_params_head _ Hps) as (pc & pr & Epar & HpcE).
  pose proof (shown_length ids id (kind f) Hids) as Hlen. rewrite Etext in *.
  assert (Z.of_nat (length (c :: r)) < 2 ^ 62) as Hbound.
  { rewrite Hn in Hs. unfold size_, body in Hs. rewrite !length_app in Hs. lia. }
  exists snp, dict, n', (written (c :: r) []).
  unfold parse_data_or_func_name. rewrite Hn at 1. change (B "_ZN" ++ ?x) with (B "_Z" ++ "N"%char :: x).
  erewrite mbind_ok by now apply in_range_app. change (negb true) with false. cbv iota.
  erewrite mbind_ok by reflexivity.
  etransitivity; [apply temporarily_ok with (a := tt)|reflexivity].
  erewrite mbind_ok by reflexivity. erewrite mbind_ok by exact E. cbv beta iota delta [negb].
  unfold may_have_return_type. rewrite Hfl. cbn [andb]. cbv iota. erewrite mbind_ok by reflexivity.
  erewrite mbind_ok by (apply emit_temporary; assumption).
  rewrite Epar in Hpre. rewrite Hpre at 1.
  erewrite mbind_ok by (apply in_range_app; exact Hp4). rewrite Hpre at 1.
  erewrite mbind_ok by (apply peek_app; exact Hp4). rewrite HpcE. cbn [orb negb]. cbv iota.
  erewrite mbind_ok by exact Ep. cbv iota. erewrite mbind_ok by reflexivity.
  change (Z.land 0 _ =? 0) with true. cbn [when].
  etransitivity; [apply on_out_ok with (o := mk_output (Some (show_function f)) None false NPOS [])|reflexivity].
  unfold show_function. rewrite Esc, (app_assoc (join_text _ _)), Etext. destruct n'; reflexivity.
Qed.

Lemma no_special_name pre c d t s :
  pos s = Z.of_nat (length pre) -> (c =c "G") = false -> (c =c "T") = false ->
  forall self, parse_special_name (pre ++ c :: d :: t) self 0 s = Ok (false, s).
Proof.
  intros Hp HG HT self. unfold parse_special_name. erewrite mbind_ok by reflexivity.
  rewrite Hp. unfold size_. rewrite length_app. cbn [length].
  replace (_ <? _) with true by lia. replace (_ <? _) with true by lia.
  cbn [negb]. erewrite mbind_ok by now apply peek_app. erewrite mbind_ok by now apply peek_next_app.
  rewrite HG, HT. reflexivity.
Qed.

Lemma function_encoding f name n :
  wf_function f = true -> name = mangle_function f -> size_ name < 2 ^ 60 ->
  exists s, parse_encoding name 0 (decoder name 0 (S n)) 0 (set_pos init_state 2) = Ok (tt, s)
  /\ status s = SUCCESS /\ content (out_at 0 s) = show_function f.
Proof.
  intros Hw Hname Hs. destruct (function_name f name n Hw Hname Hs) as (snp & dict & n' & o1 & E).
  assert (exists d t, name = B "_Z" ++ "N"%char :: d :: t) as (d & t & Ht).
  { destruct (show_function_head f Hw) as (id & ids & _ & _ & Esc & _).
    destruct (mangle_ident_head id) as (d & dr & Ed & _). rewrite Hname. unfold mangle_function.
    rewrite Esc. cbn [flat_map]. rewrite Ed. do 2 eexists. reflexivity. }
  eexists. split; [|split].
  - unfold parse_encoding. rewrite Ht at 1. erewrite mbind_ok by now apply in_range_app.
    change (negb true) with false. cbv iota. rewrite Ht at 1.
    erewrite mbind_ok by now apply no_special_name.
    cbv iota. erewrite mbind_ok by exact E. erewrite mbind_ok with (a := false).
    2:{ unfold in_range. erewrite mbind_ok by reflexivity. cbn [pos set_cvQualifiers set_inPrototype qst].
        unfold size_. now rewrite Z.ltb_irrefl. }
    erewrite mbind_ok by reflexivity. reflexivity.
  - reflexivity.
  - reflexivity.
Qed.

Lemma function_decoded f :
  wf_function f = true -> size_ (mangle_function f) < 2 ^ 60 ->
  parse (mangle_function f) 0 = Ok (Some (show_function f), SUCCESS).
Proof.
  intros Hw Hs. remember (mangle_function f) as name eqn:Hname.
  destruct (function_encoding f name (S (length name)) Hw Hname Hs) as (s & E & Hok & Htext).
  assert (exists t, name = "_"%char :: "Z"%char :: t) as (t & Ht) by (rewrite Hname; eexists; reflexivity).
  unfold parse. rewrite Ht at 1. change (("_" =c "_") && ("Z" =c "Z")) with true. cbv iota.
  unfold run. erewrite mbind_ok by reflexivity. change (depth_fuel name) with (S (S (length name))).
  rewrite E. cbn [bind]. rewrite Hok. cbn [success]. unfold odetach. rewrite Htext.
  destruct (show_function_head f Hw) as (id & ids & c & r & Esc & _ & _ & _ & Etext & _).
  unfold show_function. now rewrite Esc, (app_assoc (join_text _ _)), Etext.
Qed.

(** C23: the decoder inverts the mangling of functions, constructors and destructors in
    nested scopes with parameters of builtin types: on the mangled name of a well-formed
    declaration it succeeds with the text of the declaration (as long as the name is shorter
    than 2^60 bytes, so that positions do not wrap around). *)
Theorem nested_functions_decoded f :
  wf_function f = true -> size_ (mangle_function f) < 2 ^ 60 ->
  parse (mangle_function f) 0 = Ok (Some (show_function f), SUCCESS).
Proof. apply function_decoded. Qed.

(** [Foo::Bar::~Bar(int, char)] *)
Lemma nested_functions_decoded_witness :
  parse (B "_ZN3Foo3BarD1Eic") 0 = Ok (Some (B "Foo::Bar::~Bar(int, char)"), SUCCESS).
Proof. apply (nested_functions_decoded sample_function); vm_compute; reflexivity. Defined.
