(* ===== verification/LegacyState.v ===== *)
(** * State of the decoder for g++ 2.95 ([unmangle/legacy.h])

    The members of [legacy::Decoder<char>] as a record, a monad that threads it, the
    dictionaries and the numbers. Outputs live in a store, as they do for the Itanium decoder;
    the qualifier strings are passed as values, since each one has a single user at a time.
    Assertions of [assert.h] are not looked at: the library is built without them. *)
From S2P Require Import Prelude CLib DString Nuts Output DecoderState.
Local Open Scope Z_scope.

Record lstate : Type := mk_lstate {
  l_pos : Z;
  l_isCtor : bool;
  l_gotKlassName : bool;
  l_flags : Z;
  l_status : dstatus;
  l_templateArgs : list substring;
  l_types : list substring;
  l_squangle : list substring;          (* the elements of the dictionary *)
  l_set : list substring;               (* the set of its policy *)
  l_klass : substring;
  l_outputs : list Output               (* the output of [parse], then the temporaries *)
}.

(** The constructor of [legacy::Decoder]. *)
Definition init_lstate (flags : Z) : lstate :=
  mk_lstate 0 false false flags SUCCESS [] [] [] [] (mk_sub 0 0 0) [new_output].

Definition set_lpos (s : lstate) x := mk_lstate x (l_isCtor s) (l_gotKlassName s) (l_flags s)
  (l_status s) (l_templateArgs s) (l_types s) (l_squangle s) (l_set s) (l_klass s) (l_outputs s).
Definition set_lisCtor (s : lstate) x := mk_lstate (l_pos s) x (l_gotKlassName s) (l_flags s)
  (l_status s) (l_templateArgs s) (l_types s) (l_squangle s) (l_set s) (l_klass s) (l_outputs s).
Definition set_lgotKlassName (s : lstate) x := mk_lstate (l_pos s) (l_isCtor s) x (l_flags s)
  (l_status s) (l_templateArgs s) (l_types s) (l_squangle s) (l_set s) (l_klass s) (l_outputs s).
Definition set_lflags (s : lstate) x := mk_lstate (l_pos s) (l_isCtor s) (l_gotKlassName s) x
  (l_status s) (l_templateArgs s) (l_types s) (l_squangle s) (l_set s) (l_klass s) (l_outputs s).
Definition set_lstatus (s : lstate) x := mk_lstate (l_pos s) (l_isCtor s) (l_gotKlassName s)
  (l_flags s) x (l_templateArgs s) (l_types s) (l_squangle s) (l_set s) (l_klass s) (l_outputs s).
Definition set_ltemplateArgs (s : lstate) x := mk_lstate (l_pos s) (l_isCtor s) (l_gotKlassName s)
  (l_flags s) (l_status s) x (l_types s) (l_squangle s) (l_set s) (l_klass s) (l_outputs s).
Definition set_ltypes (s : lstate) x := mk_lstate (l_pos s) (l_isCtor s) (l_gotKlassName s)
  (l_flags s) (l_status s) (l_templateArgs s) x (l_squangle s) (l_set s) (l_klass s) (l_outputs s).
Definition set_lsquangle (s : lstate) x y := mk_lstate (l_pos s) (l_isCtor s) (l_gotKlassName s)
  (l_flags s) (l_status s) (l_templateArgs s) (l_types s) x y (l_klass s) (l_outputs s).
Definition set_lklass (s : lstate) x := mk_lstate (l_pos s) (l_isCtor s) (l_gotKlassName s)
  (l_flags s) (l_status s) (l_templateArgs s) (l_types s) (l_squangle s) (l_set s) x (l_outputs s).
Definition set_loutputs (s : lstate) x := mk_lstate (l_pos s) (l_isCtor s) (l_gotKlassName s)
  (l_flags s) (l_status s) (l_templateArgs s) (l_types s) (l_squangle s) (l_set s) (l_klass s) x.

(** ** The monad *)

Definition L (A : Type) : Type := lstate -> res (A * lstate).

Definition lret {A} (a : A) : L A := fun s => Ok (a, s).
Definition lbind {A C} (m : L A) (k : A -> L C) : L C :=
  fun s => let* (a, s) := m s in k a s.
Definition lfail {A} (f : fault) : L A := fun _ => Fail f.
Definition lget : L lstate := fun s => Ok (s, s).
Definition lmodify (f : lstate -> lstate) : L unit := fun s => Ok (tt, f s).
Definition llift {A} (m : res A) : L A := fun s => let* a := m in Ok (a, s).

Declare Scope legacy_scope.
Delimit Scope legacy_scope with leg.
Notation "x <- m ;; k" := (lbind m (fun x => k))
  (at level 61, m at next level, right associativity) : legacy_scope.
Notation "' p <- m ;; k" := (lbind m (fun x => let 'p := x in k))
  (at level 61, p pattern, m at next level, right associativity) : legacy_scope.
Notation "m ;;; k" := (lbind m (fun _ => k))
  (at level 61, right associativity) : legacy_scope.
#[local] Close Scope decoder_scope.
#[local] Open Scope legacy_scope.

Definition lgets {A} (f : lstate -> A) : L A := s <- lget ;; lret (f s).
Definition lwhen (b : bool) (m : L unit) : L unit := if b then m else lret tt.
Definition lassert (b : bool) : L unit := llift (NUTS_ASSERT b).

(** [DECODER_ERROR__(INVALID_NAME)], and [TODO]. *)
Definition lerror : L unit := lmodify (fun s => set_lstatus s INVALID_NAME).
Definition lok : L bool := lgets (fun s => success (l_status s)).

(** [Temporary<T> __(member)] around the rest of its scope. *)
Definition ltemporarily {A T} (read : lstate -> T) (write : lstate -> T -> lstate) (m : L A) : L A :=
  old <- lgets read ;; a <- m ;; lmodify (fun s => write s old) ;;; lret a.

(** ** Outputs *)

Definition lout_at (out : nat) (s : lstate) : Output := nth out (l_outputs s) new_output.
Definition lget_out (out : nat) : L Output := lgets (lout_at out).
Definition lon_out (out : nat) (f : Output -> res Output) : L unit :=
  o <- lget_out out ;; o <- llift (f o) ;;
  lmodify (fun s => set_loutputs s (list_set (l_outputs s) out o)).

(** [out.append("lit", n)] *)
Definition lemit (out : nat) (lit : bytes) : L unit :=
  lon_out out (fun o => oappend o lit (Z.of_nat (length lit))).
(** [out.append(&c, 1)] of a local [char]. *)
Definition lemit_char (out : nat) (c : ascii) : L unit :=
  lon_out out (fun o => oappend o (if c =c NUL then [] else [c]) 1).
Definition lemit_opt (out : option nat) (m : nat -> L unit) : L unit :=
  match out with Some o => m o | None => lret tt end.
(** [out.append(text)] of a string, and of another output. *)
Definition lemit_text (out : nat) (t : bytes) : L unit := lon_out out (fun o => oappend_text o t).
Definition lemit_output (out temp : nat) : L unit :=
  o <- lget_out temp ;; lemit_text out (content o).
(** [out.append(range)]: the range may be one of the output itself. *)
Definition lemit_range (out : nat) (v : substring) : L unit :=
  if (sub_str v =? out)%nat then lon_out out (fun o => oappend_own o (sub_pos v) (sub_len v))
  else
    o <- lget_out (sub_str v) ;;
    lon_out out (fun p => oappend p (skipn (Z.to_nat (sub_pos v)) (content o)) (sub_len v)).
Definition lemit_sub (out : nat) (v : substring) : L unit :=
  lwhen (negb (sub_len v =? 0)) (lemit_range out v).

Definition lout_size (out : nat) : L Z := o <- lget_out out ;; lret (osize o).
(** [out.substr(p)] *)
Definition lsubstr (out : nat) (p : Z) : L substring :=
  o <- lget_out out ;; llift (osubstr out o p NPOS).

(** [temp_output]: when [MAX_TEMP] temporaries exist, the last one is returned again. *)
Definition ltemp_output : L nat :=
  outs <- lgets l_outputs ;;
  if (length outs <=? MAX_TEMP)%nat
  then lmodify (fun s => set_loutputs s (l_outputs s ++ [new_output])) ;;; lret (length outs)
  else lret (Nat.pred (length outs)).

(** ** Integers *)

Definition s64 (n : Z) : Z := (n + 2 ^ 63) mod 2 ^ 64 - 2 ^ 63.
Definition s32 (n : Z) : Z := (n + 2 ^ 31) mod 2 ^ 32 - 2 ^ 31.

Section Decoder.
(** The mangled name, and the size of the name that the constructor was given. *)
Variables (name_ : bytes) (ctor_size : Z).

Definition lsize : Z := Z.of_nat (length name_).

Definition lname_at (i : Z) : L ascii :=
  if (0 <=? i) && (i <=? lsize) then lret (nth (Z.to_nat i) name_ NUL) else lfail OutOfBounds.
Definition lpeek : L ascii := p <- lgets l_pos ;; lname_at p.
Definition ladvance (n : Z) : L unit := lmodify (fun s => set_lpos s (l_pos s + n)).
(** [name_[pos_++]] *)
Definition lnext : L ascii := c <- lpeek ;; ladvance 1 ;;; lret c.
Definition lin_range : L bool := p <- lgets l_pos ;; lret (p <? lsize).
(** The text from an index to the terminator. *)
Definition lrest_at (p : Z) : L bytes :=
  if (0 <=? p) && (p <=? lsize) then lret (skipn (Z.to_nat p) name_) else lfail OutOfBounds.

(** [begins_with]; the whole size is compared, not the rest. *)
Definition begins_with (lit : bytes) : L bool :=
  p <- lgets l_pos ;;
  s <- lrest_at p ;;
  if (Z.of_nat (length lit) <? lsize) && strncmp_at s lit (length lit)
  then ladvance (Z.of_nat (length lit)) ;;; lret true else lret false.

(** ** Dictionaries *)

Definition ltypes_insert (v : substring) : L unit :=
  if sub_len v =? 0 then lret tt
  else
    l <- lgets l_types ;;
    l <- llift (sv_push_back ((ctor_size + 1) / 2) v l) ;; lmodify (fun s => set_ltypes s l).

Definition ltemplateArgs_insert (v : substring) : L unit :=
  if sub_len v =? 0 then lret tt
  else
    l <- lgets l_templateArgs ;;
    l <- llift (sv_push_back ((ctor_size + 2) / 3) v l) ;; lmodify (fun s => set_ltemplateArgs s l).

(** [std::set<substring>]: neither of two equivalent ranges is less than the other. *)
Fixpoint in_set (outs : list Output) (v : substring) (set : list substring) : res bool :=
  match set with
  | [] => Ok false
  | x :: set =>
      let* tx := sub_text outs x in
      let* tv := sub_text outs v in
      if negb (substring_less x v tx tv) && negb (substring_less v x tv tx) then Ok true
      else in_set outs v set
  end.

(** [SquanglePolicy::insert] through [Dictionary::insert]. *)
Definition squangle_insert (v : substring) : L unit :=
  if sub_len v =? 0 then lret tt
  else
    s <- lget ;;
    known <- llift (in_set (l_outputs s) v (l_set s)) ;;
    if known : bool then lret tt
    else
      l <- llift (sv_push_back ((ctor_size + 1) / 2) v (l_squangle s)) ;;
      lmodify (fun s => set_lsquangle s l (v :: l_set s)) ;;;
      t <- llift (sub_text (l_outputs s) v) ;;
      lassert (negb (hd NUL t =c ",")) ;;; lassert (negb (hd NUL t =c ":")).

(** [output_elem] *)
Definition loutput_elem (dict : list substring) (out : nat) (i : Z) : L bool :=
  if i <? Z.of_nat (length dict)
  then v <- llift (sv_at dict i) ;; lemit_range out v ;;; lret true
  else lret false.

(** ** Numbers *)

Fixpoint lunsigned_loop (fuel : nat) (out : option nat) (n : Z) : L Z :=
  match fuel with
  | O => lfail OutOfFuel
  | S fuel =>
      c <- lpeek ;;
      if isdigit c then
        lemit_opt out (fun o => lemit_char o c) ;;;
        ladvance 1 ;;; lunsigned_loop fuel out (u64 (n * 10 + (code c - 48)))
      else lret n
  end.

(** [parse_unsigned] *)
Definition lparse_unsigned (out : option nat) : L Z :=
  b <- lin_range ;;
  c <- (if b : bool then lpeek else lret NUL) ;;
  if negb (isdigit c) then lerror ;;; lret 0
  else lunsigned_loop (S (length name_)) out 0.

(** [parse_signed]: the product is unsigned, the result is not. *)
Definition lparse_signed (out : option nat) : L Z :=
  c <- lpeek ;;
  if c =c "m" then
    ladvance 1 ;;; lemit_opt out (fun o => lemit o (B "-")) ;;;
    n <- lparse_unsigned out ;; lret (s64 (- n))
  else n <- lparse_unsigned out ;; lret (s64 n).

(** [parse_integer]: a number between underscores, or a single character. *)
Definition parse_integer (out : option nat) : L Z :=
  c <- lnext ;;
  if c =c "_" then
    n <- lparse_signed out ;;
    c <- lnext ;;
    lwhen (negb (c =c "_")) lerror ;;; lret n
  else
    ' (sign, c) <-
      (if c =c "m" then lemit_opt out (fun o => lemit o (B "-")) ;;; c <- lnext ;; lret (-1, c)
       else lret (1, c)) ;;
    lemit_opt out (fun o => lemit_char o c) ;;;
    lret (sign * (schar c - 48)).

(** [parse_fun_qualifiers]: appends to the string. *)
Fixpoint fun_qualifiers_loop (fuel : nat) (qual : bytes) : L bytes :=
  match fuel with
  | O => lfail OutOfFuel
  | S fuel =>
      c <- lpeek ;;
      if c =c "C" then ladvance 1 ;;; fun_qualifiers_loop fuel (qual ++ B " const")
      else if c =c "V" then ladvance 1 ;;; fun_qualifiers_loop fuel (qual ++ B " volatile")
      else if c =c "S" then ladvance 1 ;;; fun_qualifiers_loop fuel (qual ++ B " static")
      else lret qual
  end.
Definition parse_fun_qualifiers (qual : bytes) : L bytes := fun_qualifiers_loop (S (length name_)) qual.

(** [parse_type_qualifiers]: prepends to the string; whether there was one. *)
Fixpoint type_qualifiers_loop (fuel : nat) (qual : bytes) (result : bool) : L (bool * bytes) :=
  match fuel with
  | O => lfail OutOfFuel
  | S fuel =>
      b <- lin_range ;;
      if negb b then lret (result, qual)
      else
        c <- lpeek ;;
        if c =c "u" then ladvance 1 ;;; type_qualifiers_loop fuel (t_prepend qual (B " __restrict ")) true
        else if c =c "C" then ladvance 1 ;;; type_qualifiers_loop fuel (t_prepend qual (B " const")) true
        else if c =c "V" then ladvance 1 ;;; type_qualifiers_loop fuel (t_prepend qual (B " volatile")) true
        else if c =c "G" then ladvance 1 ;;; type_qualifiers_loop fuel qual true
        else lret (result, qual)
  end.
Definition parse_type_qualifiers (qual : bytes) : L (bool * bytes) :=
  type_qualifiers_loop (S (length name_)) qual false.
End Decoder.
