(* ===== verification/Legacy.v ===== *)
(** * The decoder for g++ 2.95 ([unmangle/legacy.h])

    One definition per member function of [legacy::Decoder<char>]. The calls that recur
    ([parse_type], [parse_unqualified_name], [parse_template_param] and [parse]) go through
    the record [lcalls], whose knot is tied by [legacy] with a bound on the depth. A loop that
    the code repeats a given number of times is a recursion on that number. *)
From S2P Require Import Prelude CLib DString Nuts Output DecoderState Decoder LegacyState.
Local Open Scope Z_scope.
#[local] Close Scope decoder_scope.
#[local] Open Scope legacy_scope.

(** ** Tables *)

(** [optable] *)
Definition optable : list (bytes * bytes) :=
  [ (B "nw", B " new"); (B "dl", B " delete"); (B "new", B " new"); (B "delete", B " delete");
    (B "ne", B "!="); (B "eq", B "=="); (B "ge", B ">="); (B "gt", B ">"); (B "le", B "<=");
    (B "lt", B "<"); (B "plus", B "+"); (B "pl", B "+"); (B "apl", B "+="); (B "minus", B "-");
    (B "mi", B "-"); (B "ami", B "-="); (B "mult", B "*"); (B "ml", B "*"); (B "aml", B "*=");
    (B "convert", B "+"); (B "negate", B "-"); (B "trunc_mod", B "%"); (B "md", B "%");
    (B "amd", B "%="); (B "trunc_div", B "/"); (B "dv", B "/"); (B "adv", B "/=");
    (B "truth_andif", B "&&"); (B "aa", B "&&"); (B "truth_orif", B "||"); (B "oo", B "||");
    (B "truth_not", B "!"); (B "nt", B "!"); (B "postincrement", B "++"); (B "pp", B "++");
    (B "postdecrement", B "--"); (B "mm", B "--"); (B "bit_ior", B "|"); (B "or", B "|");
    (B "aor", B "|="); (B "bit_xor", B "^"); (B "er", B "^"); (B "aer", B "^=");
    (B "bit_and", B "&"); (B "ad", B "&"); (B "aad", B "&="); (B "bit_not", B "~");
    (B "co", B "~"); (B "call", B "()"); (B "cl", B "()"); (B "cond", B "?:");
    (B "alshift", B "<<"); (B "ls", B "<<"); (B "als", B "<<="); (B "arshift", B ">>");
    (B "rs", B ">>"); (B "ars", B ">>="); (B "component", B "->"); (B "rf", B "->");
    (B "indirect", B "*"); (B "method_call", B "->()"); (B "addr", B "&"); (B "array", B "[]");
    (B "vc", B "[]"); (B "compound", B ","); (B "cm", B ","); (B "nop", B ""); (B "as", B "=");
    (B "cond", B "?:"); (B "cn", B "?:"); (B "max", B ">?"); (B "mx", B ">?"); (B "min", B "<?");
    (B "mn", B "<?") ].

(** The first row whose letters are the text from a position up to [len]. *)
Definition find_operator (s : bytes) (len : Z) : option bytes :=
  match find (fun row => (len =? Z.of_nat (length (fst row)))
                         && strncmp_at s (fst row) (length (fst row))) optable with
  | Some row => Some (snd row)
  | None => None
  end.

(** The letters of [parse_type] that stand for a type. *)
Definition simple_type (c : ascii) : option bytes :=
  match c with
  | "d"%char => Some (B "double")
  | "f"%char => Some (B "float")
  | "J"%char => Some (B "__complex")
  | "v"%char => Some (B "void")
  | "r"%char => Some (B "long double")
  | "e"%char => Some (B "...")
  | "i"%char => Some (B "int")
  | "l"%char => Some (B "long")
  | "s"%char => Some (B "short")
  | "c"%char => Some (B "char")
  | "x"%char => Some (B "long long")
  | "b"%char => Some (B "bool")
  | "w"%char => Some (B "wchar_t")
  | _ => None
  end.

Definition maybe_name (c : ascii) : bool := (c =c "Q") || isdigit c.

(** The recursive calls. *)
Record lcalls : Type := mk_lcalls {
  lc_type : nat -> bytes -> Z -> L unit;
  lc_unqualified : nat -> L unit;
  lc_param : nat -> L unit;
  lc_parse : nat -> L bool
}.

Section Parse.
Variables (name_ : bytes) (ctor_size : Z).

#[local] Abbreviation lpeek := (lpeek name_).
#[local] Abbreviation lin_range := (lin_range name_).
#[local] Abbreviation lname_at := (lname_at name_).
#[local] Abbreviation lsize := (lsize name_).
#[local] Abbreviation lrest_at := (lrest_at name_).
#[local] Abbreviation begins_with := (begins_with name_).
#[local] Abbreviation lparse_unsigned := (lparse_unsigned name_).
#[local] Abbreviation lparse_signed := (lparse_signed name_).
#[local] Abbreviation parse_integer := (parse_integer name_).
#[local] Abbreviation parse_fun_qualifiers := (parse_fun_qualifiers name_).
#[local] Abbreviation parse_type_qualifiers := (parse_type_qualifiers name_).
#[local] Abbreviation ltypes_insert := (ltypes_insert ctor_size).
#[local] Abbreviation ltemplateArgs_insert := (ltemplateArgs_insert ctor_size).
#[local] Abbreviation squangle_insert := (squangle_insert ctor_size).

(** [apply_qualifiers] clears the string, which is the [[]] that its callers go on with. *)
Definition apply_qualifiers (out : nat) (qual : bytes) : L unit := lemit_text out qual.

(** [out.append(name_ + pos, len)] *)
Definition emit_name (out : nat) (p len : Z) : L unit :=
  s <- lrest_at p ;; lon_out out (fun o => oappend o s len).

Section Recursive.
Variable self : lcalls.

(** [parse_type(out)] *)
Definition parse_type_new (out : nat) : L unit := lc_type self out [] 0.

(** ** Names *)

(** The loop of [parse_qualified_name]. *)
Fixpoint qualified_loop (n : nat) (out : nat) (first : bool) : L unit :=
  match n with
  | O => lret tt
  | S n =>
      b <- lok ;;
      if negb b then lret tt
      else
        lwhen (negb first) (lemit out (B "::")) ;;;
        ltemporarily l_gotKlassName set_lgotKlassName (parse_type_new out) ;;;
        qualified_loop n out false
  end.

Definition parse_qualified_name (out : nat) : L unit :=
  n <- parse_integer None ;; qualified_loop (Z.to_nat (u64 n)) out true.

Definition parse_name (out : nat) : L unit :=
  p <- lout_size out ;;
  b <- lin_range ;;
  (if negb b then lerror
   else
     c <- lpeek ;;
     if c =c "Q" then ladvance 1 ;;; parse_qualified_name out else lc_unqualified self out) ;;;
  k <- lgets l_klass ;;
  lwhen (sub_len k =? 0) (v <- lsubstr out p ;; lmodify (fun s => set_lklass s v)) ;;;
  lmodify (fun s => set_lgotKlassName s true).

(** The loop of [parse_template_param_list]. *)
Fixpoint param_list_loop (n : nat) (out : nat) (first : bool) : L unit :=
  match n with
  | O => lret tt
  | S n =>
      b <- lok ;;
      if negb b then lret tt
      else
        lwhen (negb first) (lemit out (B ", ")) ;;; lc_param self out ;;; param_list_loop n out false
  end.

Definition parse_template_param_list (out : nat) : L unit :=
  b <- lin_range ;;
  if negb b then lerror
  else
    lemit out (B "<") ;;;
    n <- lparse_unsigned None ;;
    param_list_loop (Z.to_nat n) out true ;;;
    lemit out (B ">").

Definition parse_template_instance (out : nat) : L unit :=
  parse_name out ;;; parse_template_param_list out.

(** Is the name at [pos_] that of an anonymous namespace? *)
Definition is_global_name (len : Z) : L bool :=
  p <- lgets l_pos ;;
  s <- lrest_at p ;;
  if (8 <=? len) && strncmp_at s (B "_GLOBAL_") 8 then
    c <- lname_at (p + 8) ;;
    if (c =c ".") || (c =c "_") || (c =c "$") then d <- lname_at (p + 9) ;; lret (d =c "N")
    else lret false
  else lret false.

Definition parse_unqualified_name (out : nat) : L unit :=
  p <- lout_size out ;;
  c <- lpeek ;;
  (if c =c "t" then ladvance 1 ;;; parse_template_instance out
   else
     len <- lparse_unsigned None ;;
     if len =? 0 then lret tt
     else
       pos <- lgets l_pos ;;
       if lsize <? u64 (pos + len) then lerror
       else
         anonymous <- is_global_name len ;;
         (if anonymous : bool then lemit out ANONYMOUS_NS_PREFIX else emit_name out pos len) ;;;
         lmodify (fun s => set_lpos s (u64 (l_pos s + len)))) ;;;
  got <- lgets l_gotKlassName ;;
  lwhen (negb got) (v <- lsubstr out p ;; lmodify (fun s => set_lklass s v)).

(** ** Templates *)

(** The loop of [parse_template_template_param]: the status is not looked at. *)
Fixpoint template_template_loop (n : nat) (out : nat) (first : bool) : L unit :=
  match n with
  | O => lret tt
  | S n =>
      lwhen (negb first) (lemit out (B ", ")) ;;; parse_type_new out ;;;
      template_template_loop n out false
  end.

Definition parse_template_template_param (out : nat) : L unit :=
  n <- parse_integer None ;;
  lemit out (B "template <") ;;;
  template_template_loop (Z.to_nat (u64 n)) out true ;;;
  lemit out (B "> class") ;;;
  b <- lin_range ;;
  c <- (if b : bool then lpeek else lret "_"%char) ;;
  lwhen (negb (c =c "_")) (lemit out (B " ") ;;; parse_unqualified_name out).

Definition parse_template_param (out : nat) : L unit :=
  b <- lin_range ;;
  if negb b then lerror
  else
    c <- lpeek ;;
    if c =c "Z" then ladvance 1 ;;; parse_type_new out
    else if c =c "z" then ladvance 1 ;;; parse_template_template_param out
    else if (c =c "i") || (c =c "l") || (c =c "s") || (c =c "x") then
      ladvance 1 ;;; parse_integer (Some out) ;;; lret tt
    else if c =c "b" then
      ladvance 1 ;;;
      d <- lpeek ;;
      (if d =c "0" then lemit out (B "false")
       else if d =c "1" then lemit out (B "true") else lerror) ;;;
      ladvance 1
    else if c =c "c" then
      ladvance 1 ;;; lemit out (B "(char)") ;;; parse_integer (Some out) ;;; lret tt
    else if c =c "U" then ladvance 1 ;;; lc_param self out
    else lerror.

(** ** Types *)

Definition parse_array_type (out : nat) : L unit :=
  c <- lpeek ;;
  size <-
    (if c =c "_" then lret NPOS
     else
       n <- lparse_unsigned None ;;
       c <- lpeek ;; lwhen (negb (c =c "_")) lerror ;;; lret n) ;;
  ladvance 1 ;;;
  parse_type_new out ;;;
  lemit out (B " [") ;;;
  lwhen (negb (size =? NPOS)) (lon_out out (fun o => Ok (oappend_size o size))) ;;;
  lemit out (B "]").

(** [while (repeat--)] over an element of [types_], and over the last type. *)
Fixpoint repeat_type (repeat : nat) (out : nat) (n : Z) : L unit :=
  match repeat with
  | O => lret tt
  | S r =>
      dict <- lgets l_types ;;
      b <- loutput_elem dict out n ;;
      if negb b then lerror
      else lwhen (negb (r =? 0)%nat) (lemit out (B ", ")) ;;; repeat_type r out n
  end.

Fixpoint repeat_last (repeat : nat) (out : nat) (last : substring) : L unit :=
  match repeat with
  | O => lret tt
  | S r =>
      if sub_len last =? 0 then lerror
      else lemit_range out last ;;; lwhen (negb (r =? 0)%nat) (lemit out (B ", ")) ;;; repeat_last r out last
  end.

(** One parameter; the last type that was seen. *)
Definition fun_param (out : nat) (last : substring) : L substring :=
  c <- lpeek ;;
  if c =c "T" then
    ladvance 1 ;;;
    n <- lparse_unsigned None ;;
    dict <- lgets l_types ;;
    b <- loutput_elem dict out n ;; lwhen (negb b) lerror ;;; lret last
  else if c =c "N" then
    ladvance 1 ;;;
    r <- parse_integer None ;; n <- parse_integer None ;;
    repeat_type (Z.to_nat (u64 r)) out (u64 n) ;;; lret last
  else if c =c "n" then
    ladvance 1 ;;;
    r <- parse_integer None ;; repeat_last (Z.to_nat (u64 r)) out last ;;; lret last
  else
    p <- lout_size out ;;
    parse_type_new out ;;;
    v <- lsubstr out p ;; ltypes_insert v ;;; lret v.

(** The loop over the parameters. *)
Fixpoint fun_params_loop (fuel : nat) (out : nat) (first : bool) (last : substring) : L unit :=
  match fuel with
  | O => lfail OutOfFuel
  | S fuel =>
      b <- lin_range ;;
      s <- lok ;;
      if negb (b && s) then lret tt
      else
        c <- lpeek ;;
        if c =c "_" then lret tt
        else
          lwhen (negb first) (lemit out (B ", ")) ;;;
          last <- fun_param out last ;; fun_params_loop fuel out false last
  end.

(** [parse_fun_param] when the parameters are shown. *)
Definition show_fun_param (out : nat) : L unit :=
  lemit out (B "(") ;;;
  p <- lgets l_pos ;;
  (if p =? lsize then lemit out (B "void")
   else fun_params_loop (S (length name_)) out true (mk_sub 0 0 0)) ;;;
  lemit out (B ")").

Definition parse_fun_param (out : nat) : L unit :=
  flags <- lgets l_flags ;;
  if negb (Z.land flags UNMANGLE_NOFUNARGS =? 0) then
    discard <- ltemp_output ;;
    ltemporarily l_flags set_lflags
      (lmodify (fun s => set_lflags s (Z.ldiff (l_flags s) UNMANGLE_NOFUNARGS)) ;;; show_fun_param discard)
  else show_fun_param out.

Definition parse_fun_type (out : nat) (qual : bytes) : L unit :=
  temp <- ltemp_output ;;
  lemit temp (B " (") ;;;
  apply_qualifiers temp qual ;;;
  lemit temp (B ")") ;;;
  ltemporarily l_flags set_lflags
    (lmodify (fun s => set_lflags s (Z.ldiff (l_flags s) UNMANGLE_NOFUNARGS)) ;;;
     parse_fun_param temp ;;;
     c <- lpeek ;;
     lwhen (c =c "_") (ladvance 1 ;;; parse_type_new out) ;;;
     lemit_output out temp).

(** How the [switch] of [parse_type] ends: a type was written and some qualifiers are left,
    more qualifiers precede the type, or an early return. *)
Inductive type_end : Type := TDone (qual : bytes) | TMore (qual : bytes) (depth : Z) | TReturn.

Definition type_switch (out : nat) (qual : bytes) (depth : Z) (c : ascii) : L type_end :=
  match simple_type c with
  | Some t => lemit out t ;;; ladvance 1 ;;; lret (TDone qual)
  | None =>
      if (c =c "I") || (c =c "Z") then lerror ;;; lret (TDone qual)
      else if c =c "A" then ladvance 1 ;;; parse_array_type out ;;; lret (TDone qual)
      else if c =c "B" then
        ladvance 1 ;;;
        n <- parse_integer None ;;
        dict <- lgets l_squangle ;;
        b <- loutput_elem dict out (u64 (s32 n)) ;; lwhen (negb b) lerror ;;; lret (TDone qual)
      else if c =c "F" then ladvance 1 ;;; parse_fun_type out qual ;;; lret (TDone [])
      else if c =c "P" then ladvance 1 ;;; lret (TMore (t_prepend qual (B "*")) (depth + 1))
      else if c =c "R" then ladvance 1 ;;; lret (TMore (t_prepend qual (B "&")) (depth + 1))
      else if c =c "Q" then ladvance 1 ;;; parse_qualified_name out ;;; lret (TDone qual)
      else if c =c "t" then
        (* the next character is compared with z and with X at once *)
        ladvance 1 ;;;
        d <- lpeek ;;
        (if (d =c "z") && (d =c "X") then parse_template_template_param out
         else parse_template_instance out) ;;; lret (TDone qual)
      else if (c =c "X") || (c =c "Y") then
        ladvance 1 ;;;
        i <- parse_integer None ;; parse_integer None ;;;
        dict <- lgets l_templateArgs ;;
        b <- loutput_elem dict out (u64 i) ;;
        if b : bool then lret (TDone qual) else lerror ;;; lret TReturn
      else if c =c "U" then ladvance 1 ;;; lemit out (B "unsigned ") ;;; parse_type_new out ;;; lret (TDone qual)
      else if c =c "S" then ladvance 1 ;;; lemit out (B "signed ") ;;; parse_type_new out ;;; lret (TDone qual)
      else
        ' (have, qual) <- parse_type_qualifiers qual ;;
        if have : bool then lret (TMore qual depth) else lerror ;;; lret TReturn
  end.

(** [parse_type(out, qual, ptrDepth)]; past the end of the name the character is -1. *)
Definition parse_type (out : nat) (qual : bytes) (depth : Z) : L unit :=
  p <- lout_size out ;;
  b <- lin_range ;;
  c <- (if b : bool then lpeek else lret (char_of_int (-1))) ;;
  e <- (if isdigit c then parse_unqualified_name out ;;; lret (TDone qual)
        else type_switch out qual depth c) ;;
  match e with
  | TReturn => lret tt
  | TMore qual depth => lc_type self out qual depth
  | TDone qual =>
      apply_qualifiers out qual ;;;
      lwhen (1 <? depth) (t <- lsubstr out p ;; ltypes_insert t ;;; squangle_insert t)
  end.

(** ** Functions *)

(** [parse_operator]: whether an operator was recognized between the two indices. *)
Definition parse_operator (out : nat) (p end_ : Z) : L bool :=
  a <- lname_at p ;;
  if negb (a =c "_") then lret false
  else
    b <- lname_at (p + 1) ;;
    if negb (b =c "_") then lret false
    else
      o <- lname_at (p + 2) ;;
      o' <- (if o =c "o" then lname_at (p + 3) else lret NUL) ;;
      if o' =c "p" then
        lemit out (B "operator ") ;;;
        ltemporarily l_pos set_lpos (lmodify (fun s => set_lpos s (p + 4)) ;;; parse_type_new out) ;;;
        lret true
      else
        s <- lrest_at (p + 2) ;;
        match find_operator s (u64 (end_ - (p + 2))) with
        | Some text => lemit out (B "operator") ;;; lemit out text ;;; lret true
        | None => lret false
        end.

(** The loop over the template parameters of a function. *)
Fixpoint template_params_loop (n : nat) (temp : nat) (first : bool) : L unit :=
  match n with
  | O => lret tt
  | S n =>
      b <- lok ;;
      if negb b then lret tt
      else
        lwhen (negb first) (lemit temp (B ", ")) ;;;
        c <- lpeek ;;
        (if c =c "Z" then
           p <- lout_size temp ;;
           parse_template_param temp ;;;
           v <- lsubstr temp p ;; ltemplateArgs_insert v
         else if c =c "z" then ladvance 1 ;;; parse_template_template_param temp
         else lerror) ;;;
        template_params_loop n temp false
  end.

(** The underscore after the template parameters, the qualifiers and the class of a function
    template; [None] when the underscore is missing. *)
Definition template_fun_class (fname : nat) : L (option bytes) :=
  b <- lin_range ;;
  if negb b then lret (Some [])
  else
    c <- lpeek ;;
    if negb (c =c "_") then lerror ;;; lret None
    else
      ladvance 1 ;;;
      qual <- parse_fun_qualifiers [] ;;
      c <- lpeek ;;
      lwhen (maybe_name c || (c =c "t"))
        (parse_name fname ;;; t <- lsubstr fname 0 ;; ltypes_insert t ;;; squangle_insert t ;;;
         lemit fname (B "::")) ;;;
      lret (Some qual).

Definition parse_template_fun_instance (out : nat) (p len : Z) : L unit :=
  lmodify (fun s => set_ltemplateArgs s []) ;;;
  b <- lin_range ;;
  if negb b then lerror
  else
    temp <- ltemp_output ;;
    lemit temp (B "<") ;;;
    n <- lparse_unsigned None ;;
    template_params_loop (Z.to_nat n) temp true ;;;
    lemit temp (B ">") ;;;
    fname <- ltemp_output ;;
    r <- template_fun_class fname ;;
    match r with
    | None => lret tt
    | Some qual =>
        ctor <- lgets l_isCtor ;;
        (if ctor : bool then
           lassert (len =? 0) ;;; k <- lgets l_klass ;; lemit_sub fname k
         else
           op <- parse_operator fname p (p + len) ;;
           lwhen (negb op) (emit_name fname p len) ;;; lemit_output fname temp) ;;;
        parse_fun_param fname ;;;
        b <- lin_range ;;
        flags <- lgets l_flags ;;
        let hidden := negb (Z.land flags UNMANGLE_NOFUNARGS =? 0) in
        lwhen (b && negb hidden)
          (c <- lpeek ;;
           if negb (c =c "_") then lerror
           else ladvance 1 ;;; parse_type_new out ;;; lemit out (B " ")) ;;;
        lemit_output out fname ;;;
        lwhen (negb hidden) (lemit_text out qual)
    end.

(** The member function at [__]: its class, then the name between the two indices; whether
    the class could be parsed. *)
Definition member_function (out : nat) (p i : Z) (qual : bytes) : L bool :=
  at_ <- lout_size out ;;
  parse_name out ;;;
  b <- lok ;;
  if negb b then
    lmodify (fun s => set_lklass (set_lstatus (set_lgotKlassName (set_lisCtor s false) false) SUCCESS)
                        (mk_sub (sub_str (l_klass s)) 0 0)) ;;; lret false
  else
    t <- lsubstr out at_ ;; ltypes_insert t ;;; squangle_insert t ;;;
    lemit out (B "::") ;;;
    ctor <- lgets l_isCtor ;;
    (if ctor : bool then lassert (i =? p) ;;; k <- lgets l_klass ;; lemit_sub out k
     else op <- parse_operator out p i ;; lwhen (negb op) (emit_name out p (i - p))) ;;;
    parse_fun_param out ;;;
    flags <- lgets l_flags ;;
    lwhen (Z.land flags UNMANGLE_NOFUNARGS =? 0) (lemit_text out qual) ;;; lret true.

(** [parse(out, pos)]: the loop that looks for [__]; [result] is whether one was found, and
    [qual] the string that all functions of the name share. *)
Fixpoint functions_loop (fuel : nat) (out : nat) (p i : Z) (qual : bytes) (result : bool) : L bool :=
  match fuel with
  | O => lfail OutOfFuel
  | S fuel =>
      s <- lok ;;
      if negb ((i <? Z.max 0 (lsize - 1)) && s) then lret (result && s)
      else
        a <- lname_at i ;;
        b <- lname_at (i + 1) ;;
        if negb ((a =c "_") && (b =c "_")) then functions_loop fuel out p (i + 1) qual result
        else
          lmodify (fun s => set_lpos s (i + 2)) ;;;
          qual <- parse_fun_qualifiers qual ;;
          c <- lpeek ;;
          if c =c "F" then
            if i =? p then lret false
            else
              op <- parse_operator out p i ;;
              lwhen (negb op) (emit_name out p (i - p)) ;;;
              ladvance 1 ;;;
              parse_fun_param out ;;;
              j <- lgets l_pos ;; functions_loop fuel out p j qual true
          else if c =c "H" then
            ladvance 1 ;;;
            parse_template_fun_instance out p (i - p) ;;;
            s <- lok ;;
            if negb s then lret false else j <- lgets l_pos ;; functions_loop fuel out p j qual true
          else
            found <- member_function out p i qual ;;
            if negb found then functions_loop fuel out p (i + 1) qual true
            else j <- lgets l_pos ;; functions_loop fuel out p j qual true
  end.

Definition parse_functions (out : nat) (p : Z) : L bool :=
  functions_loop (S (S (length name_))) out p p [] false.

(** ** Special names *)

Definition parse_static_name (out : nat) : L unit :=
  ladvance 1 ;;; parse_name out ;;;
  c <- lpeek ;;
  if negb (c =c ".") && negb (c =c "$") then lerror
  else
    ladvance 1 ;;; lemit out (B "::") ;;;
    p <- lgets l_pos ;; emit_name out p NPOS.

Definition parse_dtor (out : nat) : L unit :=
  parse_name out ;;;
  lemit out (B "::~") ;;;
  k <- lgets l_klass ;;
  if sub_len k =? 0 then lerror else lemit_sub out k ;;; parse_fun_param out.

(** The loop over the classes of a virtual table. *)
Fixpoint vtable_loop (fuel : nat) (out : nat) : L unit :=
  match fuel with
  | O => lfail OutOfFuel
  | S fuel =>
      b <- lin_range ;;
      s <- lok ;;
      if negb (b && s) then lret tt
      else
        c <- lpeek ;;
        lwhen (c =c ".") (lemit out (B "::") ;;; ladvance 1) ;;;
        parse_name out ;;; vtable_loop fuel out
  end.

Definition parse_thunk (out : nat) : L bool :=
  lemit out (B "virtual function thunk (delta:-") ;;;
  lparse_signed (Some out) ;;;
  lemit out (B ") for ") ;;;
  c <- lpeek ;;
  if c =c "_" then ladvance 1 ;;; lc_parse self out ;;; lret true
  else lerror ;;; lret false.

(** [parse_special_cases]: whether one was recognized and parsed. *)
Definition parse_special_cases (out : nat) : L bool :=
  c <- lpeek ;;
  if negb (c =c "_") then lret false
  else
    p <- lgets l_pos ;;
    d <- lname_at (p + 1) ;;
    if maybe_name d then parse_static_name out ;;; lok
    else
      dtor <- begins_with (B "_._") ;;
      if dtor : bool then parse_dtor out ;;; lok
      else
        vt <- begins_with (B "__vt_") ;;
        if vt : bool then
          vtable_loop (S (S (length name_))) out ;;; lemit out (B " virtual table") ;;; lok
        else
          thunk <- begins_with (B "__thunk_") ;;
          if thunk : bool then b <- parse_thunk out ;; s <- lok ;; lret (b && s)
          else
            ti <- begins_with (B "__ti") ;;
            if ti : bool then parse_type_new out ;;; lemit out (B " type_info node") ;;; lok
            else
              tf <- begins_with (B "__tf") ;;
              if tf : bool then parse_type_new out ;;; lemit out (B " type_info function") ;;; lok
              else if d =c "_" then
                lmodify (fun s => set_lisCtor s true) ;;;
                p <- lgets l_pos ;; parse_functions out p ;;; lok
              else lret false.

(** [parse(out)]: what is left is copied when nothing was recognized. *)
Definition parse_out (out : nat) : L bool :=
  special <- parse_special_cases out ;;
  if special : bool then lret true
  else
    b <- parse_functions out 0 ;;
    if b : bool then lret true
    else
      p <- lgets l_pos ;;
      lwhen (p <? lsize) (emit_name out p (lsize - p)) ;;; lret false.

End Recursive.

(** ** The knot and the entry points *)

Definition lout_of_fuel : lcalls :=
  mk_lcalls (fun _ _ _ => lfail OutOfFuel) (fun _ => lfail OutOfFuel)
            (fun _ => lfail OutOfFuel) (fun _ => lfail OutOfFuel).

Fixpoint legacy (fuel : nat) : lcalls :=
  match fuel with
  | O => lout_of_fuel
  | S fuel =>
      let self := legacy fuel in
      mk_lcalls (parse_type self) (parse_unqualified_name self) (parse_template_param self) (parse_out self)
  end.

Definition legacy_fuel : nat := S (S (length name_)).
Definition ltop : lcalls := legacy legacy_fuel.
End Parse.

(** [parse(status, outlen)]: the text or null, and what is stored in [status]; a success is
    not stored. *)
Definition parse (name_ : bytes) (flags : Z) : res (option bytes * option dstatus) :=
  let size := Z.of_nat (length name_) in
  let* (b, s) := parse_out name_ size (ltop name_ size) 0 (init_lstate flags) in
  match b, buf (lout_at 0 s) with
  | true, Some _ =>
      let* _ := NUTS_ASSERT (success (l_status s)) in
      if l_pos s =? 0 then Ok (None, Some INVALID_NAME) else Ok (odetach (lout_at 0 s), None)
  | _, _ => Ok (None, Some (l_status s))
  end.

(** [parse_global_ctor_dtor(status, len)]; the dictionaries keep their size. *)
Definition parse_global_ctor_dtor (name_ : bytes) (flags : Z) : res (option bytes * option dstatus) :=
  let size := Z.of_nat (length name_) in
  let prefix := if nth 9 name_ NUL =c "I" then B "global constructors keyed to "
                else B "global destructors keyed to " in
  let* _ := NUTS_ASSERT (11 <=? size) in
  let name_ := skipn 11 name_ in
  let* (_, s) := (lemit 0 prefix ;;; parse_out name_ size (ltop name_ size) 0) (init_lstate flags) in
  Ok (if success (l_status s) then odetach (lout_at 0 s) else None, Some (l_status s)).
