(* ===== verification/LegacyTests.v ===== *)
(** * The decoder for g++ 2.95 on the names of its own test program ([unmangle/test_legacy.cpp])

    The names with the expected texts, for the configuration in which the library is built:
    an anonymous namespace is shown as for other compilers. *)
From S2P Require Import Prelude CLib DString Nuts Output DecoderState Decoder LegacyState Legacy.

(** The function [test] of the program. *)
Definition ltest (name : bytes) (expect : option bytes) (tor : bool) (flags : Z) : bool :=
  match (if tor then Legacy.parse_global_ctor_dtor else Legacy.parse) name flags, expect with
  | Ok (Some t, _), Some e => if list_eq_dec ascii_dec t e then true else false
  | Ok (None, _), None => true
  | _, _ => false
  end.

Local Open Scope string_scope.

Definition legacy_names : list (string * string) :=
  [ ("__vt_10bad_typeid",
      "bad_typeid virtual table");
    ("always_noconv__CQ24_STLt7codecvt3ZcZcZ11__mbstate_t",
      "_STL::codecvt<char, char, __mbstate_t>::always_noconv(void) const");
    ("widen__CQ24_STLt9basic_ios2ZwZQ24_STLt11char_traits1Zwc",
      "_STL::basic_ios<wchar_t, _STL::char_traits<wchar_t> >::widen(char) const");
    ("assign__Q24_STLt11char_traits1ZcRcRCc",
      "_STL::char_traits<char>::assign(char&, char const&)");
    ("allocate__Q24_STLt13__debug_alloc1ZQ24_STLt12__node_alloc2b0i0Ui",
      "_STL::__debug_alloc<_STL::__node_alloc<false, 0> >::allocate(unsigned int)");
    ("distance__H1ZPCc_4_STLRCX01T1_Q34_STLt15iterator_traits1ZX0115difference_type",
      "_STL::iterator_traits<char const*>::difference_type _STL::distance<char const*>(char const* const&, char const* const&)");
    ("distance__H1ZPCc_RCX01T0_Q34_STLt15iterator_traits1ZX0115difference_type",
      "_STL::iterator_traits<char const*>::difference_type distance<char const*>(char const* const&, char const* const&)");
    ("foo__FUiPv",
      "foo(unsigned int, void*)");
    ("__10bad_typeid",
      "bad_typeid::bad_typeid(void)");
    ("_._10bad_typeid",
      "bad_typeid::~bad_typeid(void)");
    ("_4_STL.cerr",
      "_STL::cerr");
    ("_Assert__Q24_STLt18__stl_debug_engine1ZbPCcT1i",
      "_STL::__stl_debug_engine<bool>::_Assert(char const*, char const*, int)");
    ("foo__3FooA_i",
      "Foo::foo(int [])");
    ("foo__3BarA10_i",
      "Bar::foo(int [10])");
    ("foo__H1Zi_",
      "foo<int>(void)");
    ("foo__H1Zi",
      "foo<int>(void)");
    ("compare__CQ24_STLt7collate1ZcPCcN31",
      "_STL::collate<char>::compare(char const*, char const*, char const*, char const*) const");
    ("__H1Zb_t9Temporary1ZbRbX00",
      "Temporary<bool>::Temporary(bool&, bool)");
    ("sp_enable_shared_from_this__Q25boost6detailPCVvT1RCQ35boost6detail12shared_count",
      "boost::detail::sp_enable_shared_from_this(void volatile const*, void volatile const*, boost::detail::shared_count const&)");
    ("__tf10bad_typeid",
      "bad_typeid type_info function");
    ("__ti10bad_typeid",
      "bad_typeid type_info node");
    ("__tfc",
      "char type_info function");
    ("__tiUs",
      "unsigned short type_info node");
    ("__thunk_12__._Q24_STLt14basic_iostream2ZcZQ24_STLt11char_traits1Zc",
      "virtual function thunk (delta:-12) for _STL::basic_iostream<char, _STL::char_traits<char> >::~basic_iostream(void)");
    ("__adjust_float_buffer__4_STLPcT1c",
      "_STL::__adjust_float_buffer(char*, char*, char)");
    ("append__Q2t7Decoder3ZcUi_32_Ui_512_6OutputUi",
      "Decoder<char, 32, 512>::Output::append(unsigned int)");
    ("__apl__Q24_STLt12basic_string3ZcZQ24_STLt11char_traits1ZcZQ24_STLt9allocator1Zcc",
      "_STL::basic_string<char, _STL::char_traits<char>, _STL::allocator<char> >::operator+=(char)");
    ("_Q24_STLt9money_get2ZcZPCc.id",
      "_STL::money_get<char, char const*>::id");
    ("_Q24_STLt15_Integer_limits5Zcc_m128_c_127_im1b1.digits",
      "_STL::_Integer_limits<char, (char)-128, (char)127, -1, true>::digits");
    ("_Q24_STLt15_Integer_limits5Zss_m32768_s_32767_im1b1.digits",
      "_STL::_Integer_limits<short, -32768, 32767, -1, true>::digits");
    ("builtin_table__t7Decoder3ZcUi_32_Ui_512_",
      "Decoder<char, 32, 512>::builtin_table(void)");
    ("append__H1ZQ2t7Decoder3ZcUi_32_Ui_512_6Output_Q2t7Decoder3ZcUi_32_Ui_512_6OutputRCX00_v",
      "void Decoder<char, 32, 512>::Output::append<Decoder<char, 32, 512>::Output>(Decoder<char, 32, 512>::Output const&)");
    ("do_in__CQ24_STLt7codecvt3ZcZcZ11__mbstate_tR11__mbstate_tPCcT2RPCcPcT5RPc",
      "_STL::codecvt<char, char, __mbstate_t>::do_in(__mbstate_t&, char const*, char const*, char const*&, char*, char*, char*&) const");
    ("__ls__Q24_STLt13basic_ostream2ZwZQ24_STLt11char_traits1ZwPFRQ24_STL8ios_base_RQ24_STL8ios_base",
      "_STL::basic_ostream<wchar_t, _STL::char_traits<wchar_t> >::operator<<(_STL::ios_base& (*)(_STL::ios_base&))");
    ("__eq__H1ZQ24nutst6string4ZcZQ24_STLt11char_traits1ZcZQ24nuts13default_allocUi_1024__4nutsRCQ24nutst9substring3ZX01ZQ2X0110value_typeZQ24_STLt11char_traits1ZQ2X0110value_typeT1_b",
      "bool nuts::operator==<nuts::string<char, _STL::char_traits<char>, nuts::default_alloc, 1024> >(nuts::substring<nuts::string<char, _STL::char_traits<char>, nuts::default_alloc, 1024>, nuts::string<char, _STL::char_traits<char>, nuts::default_alloc, 1024>::value_type, _STL::char_traits<nuts::string<char, _STL::char_traits<char>, nuts::default_alloc, 1024>::value_type> > const&, nuts::substring<nuts::string<char, _STL::char_traits<char>, nuts::default_alloc, 1024>, nuts::string<char, _STL::char_traits<char>, nuts::default_alloc, 1024>::value_type, _STL::char_traits<nuts::string<char, _STL::char_traits<char>, nuts::default_alloc, 1024>::value_type> > const&)");
    ("__18BreakPointBaseImplRCV18BreakPointBaseImplR6Thread",
      "BreakPointBaseImpl::BreakPointBaseImpl(BreakPointBaseImpl volatile const&, Thread&)");
    ("__nw__FUiPv",
      "operator new(unsigned int, void*)");
    ("__H1Z11ProfileInfo_Q25boostt10shared_ptr1Z11ProfileInfoPX00",
      "boost::shared_ptr<ProfileInfo>::shared_ptr(ProfileInfo*)");
    ("__opPCc__t9Temporary1ZPCc",
      "Temporary<char const*>::operator char const*(void)");
    ("__Q2t7Decoder3ZcUi_32_Ui_512_6Output",
      "Decoder<char, 32, 512>::Output::Output(void)");
    ("_._Q2t7Decoder3ZcUi_32_Ui_512_6Output",
      "Decoder<char, 32, 512>::Output::~Output(void)");
    ("__vt_Q24_STLt13basic_fstream2ZcZQ24_STLt11char_traits1Zc.Q24_STLt9basic_ios2ZcZQ24_STLt11char_traits1Zc",
      "_STL::basic_fstream<char, _STL::char_traits<char> >::_STL::basic_ios<char, _STL::char_traits<char> > virtual table");
    ("equal__H1Z3foo_3bar",
      "bar::equal<foo>(void)");
    ("equal__H1Z3foo_C3bar",
      "bar::equal<foo>(void) const");
    ("equal__H1Z3foo_C3bar_b",
      "bool bar::equal<foo>() const");
    ("foo__H1z13Foo_3Bar",
      "Bar::foo<template <Foo> class>(void)");
    ("foo__H1z23Fooi3Bar_3Fun",
      "Fun::foo<template <Foo, int> class Bar>(void)");
    ("__cl__H3ZvZQ35boost4_mfit3mf35ZvZ10MainWindowZQ24_STLt12basic_string3ZcZQ24_STLt11char_traits1ZcZQ24_STLt9allocator1ZcZUiZPQ24_STLt6vector2Zt6RefPtr2Z11DebugSymbolZt7RefBase1Z11DebugSymbolZQ24_STLt9allocator1Zt6RefPtr2Z11DebugSymbolZt7RefBase1Z11DebugSymbolZQ35boost3_bi5list0_Q35boost3_bit5list44ZQ35boost3_bit5value1ZP10MainWindowZQ35boost3_bit5value1ZQ24_STLt12basic_string3ZcZQ24_STLt11char_traits1ZcZQ24_STLt9allocator1ZcZQ35boost3_bit5value1ZUiZQ35boost3_bit5value1ZPQ24_STLt6vector2Zt6RefPtr2Z11DebugSymbolZt7RefBase1Z11DebugSymbolZQ24_STLt9allocator1Zt6RefPtr2Z11DebugSymbolZt7RefBase1Z11DebugSymbolGQ35boost3_bit4type1ZX00X10RX20_X00",
      "void boost::_bi::list4<boost::_bi::value<MainWindow*>, boost::_bi::value<_STL::basic_string<char, _STL::char_traits<char>, _STL::allocator<char> > >, boost::_bi::value<unsigned int>, boost::_bi::value<_STL::vector<RefPtr<DebugSymbol, RefBase<DebugSymbol> >, _STL::allocator<RefPtr<DebugSymbol, RefBase<DebugSymbol> > > >*> >::operator()<void, boost::_mfi::mf3<void, MainWindow, _STL::basic_string<char, _STL::char_traits<char>, _STL::allocator<char> >, unsigned int, _STL::vector<RefPtr<DebugSymbol, RefBase<DebugSymbol> >, _STL::allocator<RefPtr<DebugSymbol, RefBase<DebugSymbol> > > >*>, boost::_bi::list0>(boost::_bi::type<void>, boost::_mfi::mf3<void, MainWindow, _STL::basic_string<char, _STL::char_traits<char>, _STL::allocator<char> >, unsigned int, _STL::vector<RefPtr<DebugSymbol, RefBase<DebugSymbol> >, _STL::allocator<RefPtr<DebugSymbol, RefBase<DebugSymbol> > > >*>, boost::_bi::list0&)");
    ("equal__H1ZQ24nutst6string4ZcZQ24_STLt11char_traits1ZcZQ24nuts13default_allocUi_1024__CQ24nutst9substring3ZQ24nutst6string4ZcZQ24_STLt11char_traits1ZcZQ24nuts13default_allocUi_1024_ZcZQ24_STLt11char_traits1ZcRCQ24nutst9substring3ZX00ZcZQ24_STLt11char_traits1Zc_b",
      "bool nuts::substring<nuts::string<char, _STL::char_traits<char>, nuts::default_alloc, 1024>, char, _STL::char_traits<char> >::equal<nuts::string<char, _STL::char_traits<char>, nuts::default_alloc, 1024> >(nuts::substring<nuts::string<char, _STL::char_traits<char>, nuts::default_alloc, 1024>, char, _STL::char_traits<char> > const&) const");
    ("for_each_plugin__H1ZQ24_STLt13unary_compose2ZQ24_STLt9binder1st1ZQ24_STLt10mem_fun1_t3ZvZt12EnumCallback2ZP6PluginZvZP6PluginZQ24_STLt19const_mem_fun_ref_t2ZP14DebuggerPluginZt9ImportPtr1Z14DebuggerPlugin_14DebuggerEngineX01_X01",
      "_STL::unary_compose<_STL::binder1st<_STL::mem_fun1_t<void, EnumCallback<Plugin*, void>, Plugin*> >, _STL::const_mem_fun_ref_t<DebuggerPlugin*, ImportPtr<DebuggerPlugin> > > DebuggerEngine::for_each_plugin<_STL::unary_compose<_STL::binder1st<_STL::mem_fun1_t<void, EnumCallback<Plugin*, void>, Plugin*> >, _STL::const_mem_fun_ref_t<DebuggerPlugin*, ImportPtr<DebuggerPlugin> > > >(_STL::unary_compose<_STL::binder1st<_STL::mem_fun1_t<void, EnumCallback<Plugin*, void>, Plugin*> >, _STL::const_mem_fun_ref_t<DebuggerPlugin*, ImportPtr<DebuggerPlugin> > >)");
    ("_throw_failure__C3ios",
      "ios::_throw_failure(void) const");
    ("__rs__7istreamPFR3ios_R3ios",
      "istream::operator>>(ios& (*)(ios&))");
    ("__9bad_allocRCB0",
      "bad_alloc::bad_alloc(bad_alloc const&)");
    ("compare__Q24_STLt11char_traits1ZcPCcn1Ui",
      "_STL::char_traits<char>::compare(char const*, char const*, unsigned int)");
    ("__t6RefPtr2ZQ226_GLOBAL_.N.__4ExprP6Interp11MacroEventsZt7RefBase1ZQ226_GLOBAL_.N.__4ExprP6Interp11MacroEventsPQ226_GLOBAL_.N.__4ExprP6Interp11MacroEvents",
      "RefPtr<(anonymous namespace)::MacroEvents, RefBase<(anonymous namespace)::MacroEvents> >::RefPtr((anonymous namespace)::MacroEvents*)") ].

Definition legacy_tors : list (string * string) :=
  [ ("_GLOBAL_.D.unmangle",
      "global destructors keyed to unmangle");
    ("_GLOBAL_.D.do_decimal_point__CQ24_STLt8numpunct1Zc",
      "global destructors keyed to _STL::numpunct<char>::do_decimal_point(void) const");
    ("_GLOBAL_.D.__Q24_STL12_Locale_implPCc",
      "global destructors keyed to _STL::_Locale_impl::_Locale_impl(char const*)") ].

Definition legacy_hidden : list (string * string) :=
  [ ("__t6RefPtr2ZQ226_GLOBAL_.N.__4ExprP6Interp11MacroEventsZt7RefBase1ZQ226_GLOBAL_.N.__4ExprP6Interp11MacroEventsPQ226_GLOBAL_.N.__4ExprP6Interp11MacroEvents",
      "RefPtr<(anonymous namespace)::MacroEvents, RefBase<(anonymous namespace)::MacroEvents> >::RefPtr") ].

Definition legacy_refused : list string := [ "_Dmain"; "" ].

(** The project's own tests. The decoder for g++ 2.95 produces the expected text for each
    of the names of the test program, with and without parameters, and nothing for the names
    that are not mangled. *)
Theorem legacy_passes_tests :
  forallb (fun t => ltest (B (fst t)) (Some (B (snd t))) false 0) legacy_names
  && forallb (fun t => ltest (B (fst t)) (Some (B (snd t))) true 0) legacy_tors
  && forallb (fun t => ltest (B (fst t)) (Some (B (snd t))) false UNMANGLE_NOFUNARGS) legacy_hidden
  && forallb (fun n => ltest (B n) None false 0) legacy_refused = true.
Proof. vm_compute. reflexivity. Qed.
