(* ===== verification/LegacyCorrect.v ===== *)
(** * What the decoder for g++ 2.95 computes

    The functions whose parameters have simple types: letters and classes behind qualifiers,
    pointers and references. *)
From S2P Require Import Prelude CLib DString Nuts Output OutputCorrect DecoderState Decoder LegacyState Legacy.
Local Open Scope Z_scope.
#[local] Close Scope decoder_scope.
#[local] Open Scope legacy_scope.

(** ** Mangled functions *)

Inductive lqual : Type := LConst | LVolatile | LPointer | LReference.

Definition lqual_code (q : lqual) : ascii :=
  match q with LConst => "C" | LVolatile => "V" | LPointer => "P" | LReference => "R" end%char.
Definition lqual_text (q : lqual) : bytes :=
  match q with LConst => B " const" | LVolatile => B " volatile" | LPointer => B "*" | LReference => B "&" end.
Definition is_ref (q : lqual) : bool :=
  match q with LPointer | LReference => true | _ => false end.

Inductive lbase : Type := LSimple (c : ascii) | LClass (n : bytes).

Record larg : Type := mk_larg { arg_quals : list lqual; arg_base : lbase }.

Definition base_code (b : lbase) : bytes :=
  match b with LSimple c => [c] | LClass n => dec (Z.of_nat (length n)) ++ n end.
Definition base_text (b : lbase) : bytes :=
  match b with LSimple c => match simple_type c with Some t => t | None => [] end | LClass n => n end.

Definition arg_code (a : larg) : bytes := map lqual_code (arg_quals a) ++ base_code (arg_base a).
(** The qualifiers follow the type, the last one first. *)
Definition arg_text (a : larg) : bytes :=
  base_text (arg_base a) ++ concat (rev (map lqual_text (arg_quals a))).

Definition arg_depth (a : larg) : Z := Z.of_nat (length (filter is_ref (arg_quals a))).
(** The entries of the dictionary that a parameter takes: one more for pointers to pointers. *)
Definition arg_entries (a : larg) : Z := if 1 <? arg_depth a then 2 else 1.

(** A letter or an underscore. *)
Definition ident_start (c : ascii) : bool :=
  (65 <=? code c) && (code c <=? 90) || (97 <=? code c) && (code c <=? 122) || (c =c "_").

(** A class is named by an identifier that is not the one of an anonymous namespace. *)
Definition base_ok (b : lbase) : bool :=
  match b with
  | LSimple c => match simple_type c with Some _ => true | None => false end
  | LClass n =>
      match n with
      | [] => false
      | c :: _ => ident_start c && negb (strncmp_at n (B "_GLOBAL_") 8)
      end
  end.
Definition arg_ok (a : larg) : bool := base_ok (arg_base a).

Fixpoint no_double_underscore (s : bytes) : bool :=
  match s with
  | a :: ((b :: _) as r) => negb ((a =c "_") && (b =c "_")) && no_double_underscore r
  | _ => true
  end.

(** The name of a function: it starts with a letter, and has no two underscores in a row. *)
Definition plain_name (f : bytes) : bool :=
  match f with
  | [] => false
  | c :: _ => ident_start c && negb (c =c "_") && no_double_underscore (f ++ B "_")
  end.

Definition args_code (args : list larg) : bytes := concat (map arg_code args).

Fixpoint join_args (args : list larg) : bytes :=
  match args with
  | [] => []
  | [a] => arg_text a
  | a :: args => arg_text a ++ B ", " ++ join_args args
  end.
Definition args_text (args : list larg) : bytes :=
  B "(" ++ match args with [] => B "void" | _ => join_args args end ++ B ")".

Definition total_entries (args : list larg) : Z :=
  fold_right (fun a n => arg_entries a + n) 0 args.

Definition function_code (f : bytes) (args : list larg) : bytes := f ++ B "__F" ++ args_code args.

(** ** Running the decoder *)

Lemma lbind_ok {A C} (m : L A) (k : A -> L C) s a s' : m s = Ok (a, s') -> lbind m k s = k a s'.
Proof. intros E. unfold lbind. now rewrite E. Qed.
Lemma lbind_fail {A C} (m : L A) (k : A -> L C) s f : m s = Fail f -> lbind m k s = Fail f.
Proof. intros E. unfold lbind. now rewrite E. Qed.
Lemma lbind_assoc {A C D} (m : L A) (k : A -> L C) (h : C -> L D) s :
  lbind (lbind m k) h s = lbind m (fun a => lbind (k a) h) s.
Proof. unfold lbind. destruct (m s) as [[a s']|f]; reflexivity. Qed.

(** An output without a pending delimiter. *)
Definition o_is (o : Output) (t : bytes) : Prop :=
  content o = t /\ delim o = None /\ spaceOnce o = false.

Lemma oappend_is o t c s n : o_is o t -> (c =c ">") = false -> 0 < n <= Z.of_nat (length (c :: s)) ->
  n <> NPOS -> exists o', oappend o (c :: s) n = Ok o' /\ o_is o' (t ++ firstn (Z.to_nat n) (c :: s)).
Proof.
  intros (Ht & Hd & Hs) Hc Hn Hp. unfold oappend, prepare. cbn [hd]. rewrite Hd, Hc, Hs, andb_false_r.
  unfold finish, buf_append, t_append.
  replace (n =? NPOS) with false by lia. replace (n =? 0) with false by lia.
  unfold NUTS_ASSERT. replace (n <=? Z.of_nat (length (c :: s))) with true by lia. cbn [bind].
  change (content (set_spaceOnce o false)) with (content o). rewrite Ht.
  replace (n =? 0) with false by lia.
  destruct (t ++ firstn (Z.to_nat n) (c :: s)) as [|x y] eqn:E.
  { destruct (Z.to_nat n) eqn:En; [lia|]. now destruct t. }
  destruct (buf (set_spaceOnce o false)); (eexists; split; [reflexivity|]); repeat split; assumption.
Qed.

Lemma list_set_length {A} (l : list A) i a : length (list_set l i a) = length l.
Proof. revert i. induction l as [|x l IH]; intros [|i]; cbn; auto. Qed.
Lemma nth_list_set {A} (l : list A) i j a d : (i < length l)%nat ->
  nth j (list_set l i a) d = if (j =? i)%nat then a else nth j l d.
Proof.
  revert i j. induction l as [|x l IH]; intros [|i] [|j] Hi; cbn in *; try lia; auto.
  rewrite IH by lia. reflexivity.
Qed.

Lemma lon_out_frame out f s s' : lon_out out f s = Ok (tt, s') ->
  length (l_outputs s') = length (l_outputs s) /\ l_set s' = l_set s.
Proof.
  unfold lon_out, lget_out, lgets, lbind, llift, lget, lret, lmodify. cbn.
  destruct (f (lout_at out s)); cbn; [|discriminate]. intros [= <-]. cbn. now rewrite list_set_length.
Qed.

Section Run.
Variables (name_ : bytes) (ctor_size : Z).

(** The rest of the name at the position. *)
Definition cursor (s : lstate) (r : bytes) : Prop :=
  exists pre, name_ = pre ++ r /\ l_pos s = Z.of_nat (length pre).

Lemma cursor_range s r : cursor s r -> 0 <= l_pos s /\ l_pos s + Z.of_nat (length r) = lsize name_.
Proof. intros (pre & -> & ->). unfold lsize. rewrite length_app. lia. Qed.

Lemma cursor_skipn s r : cursor s r -> skipn (Z.to_nat (l_pos s)) name_ = r.
Proof. intros (pre & -> & ->). rewrite Nat2Z.id, skipn_app, skipn_all, Nat.sub_diag. reflexivity. Qed.

Lemma cursor_at s r k d : cursor s r -> 0 <= k <= Z.of_nat (length r) ->
  lname_at name_ (l_pos s + k) d = Ok (nth (Z.to_nat k) r NUL, d).
Proof.
  intros Hc Hk. pose proof (cursor_range s r Hc) as Hr. unfold lname_at.
  replace ((0 <=? l_pos s + k) && (l_pos s + k <=? lsize name_)) with true by lia.
  unfold lret. do 2 f_equal. destruct Hc as (pre & -> & ->).
  rewrite app_nth2 by lia. f_equal. lia.
Qed.

Lemma cursor_peek s r : cursor s r -> lpeek name_ s = Ok (hd NUL r, s).
Proof.
  intros Hc. unfold lpeek, lgets. erewrite lbind_ok; [|erewrite lbind_ok by reflexivity; reflexivity].
  pose proof (cursor_at s r 0 s Hc ltac:(lia)) as E. rewrite Z.add_0_r in E. rewrite E. now destruct r.
Qed.

Lemma cursor_in s r : cursor s r ->
  lin_range name_ s = Ok (match r with [] => false | _ => true end, s).
Proof.
  intros Hc. unfold lin_range, lgets. erewrite lbind_ok; [|erewrite lbind_ok by reflexivity; reflexivity].
  pose proof (cursor_range s r Hc) as Hr. unfold lret. do 2 f_equal.
  destruct r; cbn [length] in Hr; lia.
Qed.

Lemma cursor_move s s' a r : cursor s (a ++ r) -> l_pos s' = l_pos s + Z.of_nat (length a) -> cursor s' r.
Proof.
  intros (pre & E & Hp) Hs. exists (pre ++ a). rewrite <- app_assoc. split; [exact E|].
  rewrite Hs, Hp, length_app. lia.
Qed.

Lemma cursor_rest s r d : cursor s r -> lrest_at name_ (l_pos s) d = Ok (r, d).
Proof.
  intros Hc. pose proof (cursor_range s r Hc) as Hr. unfold lrest_at.
  replace ((0 <=? l_pos s) && (l_pos s <=? lsize name_)) with true by lia.
  unfold lret. now rewrite (cursor_skipn s r Hc).
Qed.

(** *** The state between two steps

    [r] is left of the name, [t] is in the output [out], [n] types are in the dictionary. *)
Variables (out : nat) (fl : Z) (others : nat -> Output).

Definition in_text (t : bytes) (v : substring) : Prop :=
  sub_str v = out /\ 0 <= sub_pos v /\ 0 <= sub_len v /\ sub_pos v + sub_len v <= Z.of_nat (length t).

Record good (s : lstate) (r t : bytes) (n : Z) : Prop := mk_good {
  g_cursor : cursor s r;
  g_status : l_status s = SUCCESS;
  g_flags : l_flags s = fl;
  g_out : (out < length (l_outputs s))%nat;
  g_text : o_is (lout_at out s) t;
  g_others : forall j, j <> out -> lout_at j s = others j;
  g_types : Z.of_nat (length (l_types s)) = n;
  g_squangle : Z.of_nat (length (l_squangle s)) <= n;
  g_set : Forall (in_text t) (l_set s)
}.

Lemma in_text_app t u v : in_text t v -> in_text (t ++ u) v.
Proof. unfold in_text. rewrite length_app. lia. Qed.

Lemma good_ok s r t n : good s r t n -> lok s = Ok (true, s).
Proof. intros G. unfold lok, lgets. erewrite lbind_ok by reflexivity. now rewrite (g_status _ _ _ _ G). Qed.

(** The output is written. *)
Lemma good_write s r t n f u : good s r t n ->
  (forall o, o_is o t -> exists o', f o = Ok o' /\ o_is o' (t ++ u)) ->
  exists s', lon_out out f s = Ok (tt, s') /\ good s' r (t ++ u) n.
Proof.
  intros [H1 H2 H3 H4 H5 H6 H7 H8 H9] Hf. destruct (Hf _ H5) as (o' & E & Ho).
  eexists. split.
  - unfold lon_out, lget_out, lgets. erewrite lbind_ok; [|erewrite lbind_ok by reflexivity; reflexivity].
    erewrite lbind_ok; [|unfold llift; rewrite E; reflexivity]. reflexivity.
  - constructor; cbn; auto.
    + now rewrite list_set_length.
    + unfold lout_at. cbn. now rewrite nth_list_set, Nat.eqb_refl.
    + intros j Hj. unfold lout_at. cbn. rewrite nth_list_set by auto.
      apply Nat.eqb_neq in Hj. rewrite Hj. apply H6. now apply Nat.eqb_neq.
    + eapply Forall_impl; [|exact H9]. intros v. apply in_text_app.
Qed.

Lemma small_length (t : bytes) : Z.of_nat (length t) < 2 ^ 63 -> Z.of_nat (length t) <> NPOS.
Proof. unfold NPOS. lia. Qed.

Lemma good_emit s r t n c lit : good s r t n -> (c =c ">") = false -> Z.of_nat (length (c :: lit)) < 2 ^ 63 ->
  exists s', lemit out (c :: lit) s = Ok (tt, s') /\ good s' r (t ++ c :: lit) n.
Proof.
  intros G Hc Hl. apply (good_write _ _ _ _ _ (c :: lit) G). intros o Ho.
  destruct (oappend_is o t c lit (Z.of_nat (length (c :: lit))) Ho Hc) as (o' & E & Ho');
    [cbn [length]; lia | now apply small_length |].
  exists o'. rewrite Nat2Z.id, firstn_all in Ho'. auto.
Qed.

Lemma good_emit_text s r t n u : good s r t n ->
  match u with [] => True | c :: _ => (c =c ">") = false end -> Z.of_nat (length u) < 2 ^ 63 ->
  exists s', lemit_text out u s = Ok (tt, s') /\ good s' r (t ++ u) n.
Proof.
  intros G Hu Hl. unfold lemit_text. apply good_write with (n := n); [exact G|]. intros o Ho.
  destruct u as [|c u]; [exists o; rewrite app_nil_r; auto|]. unfold oappend_text.
  destruct (oappend_is o t c u (Z.of_nat (length (c :: u))) Ho Hu) as (o' & E & Ho');
    [cbn [length]; lia | now apply small_length |].
  exists o'. rewrite Nat2Z.id, firstn_all in Ho'. auto.
Qed.

(** The position moves on. *)
Lemma good_move s a r t n : good s (a ++ r) t n -> good (set_lpos s (l_pos s + Z.of_nat (length a))) r t n.
Proof.
  intros [H1 H2 H3 H4 H5 H6 H7 H8 H9]. constructor; auto. now apply (cursor_move s _ a).
Qed.
Lemma good_advance s c r t n : good s (c :: r) t n -> good (set_lpos s (l_pos s + 1)) r t n.
Proof. apply (good_move s [c]). Qed.

Lemma good_klass s r t n v : good s r t n -> good (set_lklass s v) r t n.
Proof. intros []. now constructor. Qed.

Lemma good_size s r t n : good s r t n -> lout_size out s = Ok (Z.of_nat (length t), s).
Proof.
  intros G. unfold lout_size, lget_out, lgets. erewrite lbind_ok; [|erewrite lbind_ok by reflexivity; reflexivity].
  unfold osize. now rewrite (proj1 (g_text _ _ _ _ G)).
Qed.

(** The range of what was written since a position. *)
Lemma good_substr s r t u n : good s r (t ++ u) n ->
  lsubstr out (Z.of_nat (length t)) s = Ok (mk_sub out (Z.of_nat (length t)) (Z.of_nat (length u)), s).
Proof.
  intros G. unfold lsubstr, lget_out, lgets. erewrite lbind_ok; [|erewrite lbind_ok by reflexivity; reflexivity].
  unfold llift, osubstr. rewrite Z.eqb_refl. unfold osize. rewrite (proj1 (g_text _ _ _ _ G)), length_app.
  replace (Z.of_nat (length t) <=? Z.of_nat (length t + length u)) with true by lia.
  unfold substring_new, NUTS_ASSERT.
  replace ((_ =? 0) || _) with true by lia. cbn. do 3 f_equal. lia.
Qed.

(** [m] takes [k] entries of the dictionary of types, and throws when they do not fit. *)
Definition capacity : Z := (ctor_size + 1) / 2.
Definition takes {A} (m : L A) (s : lstate) (n k : Z) (r t : bytes) : Prop :=
  if n + k <=? capacity then exists a s', m s = Ok (a, s') /\ good s' r t (n + k)
  else m s = Fail Thrown.

Lemma takes_ret {A} (m : L A) s n r t a s' : m s = Ok (a, s') -> good s' r t n -> n <= capacity ->
  takes m s n 0 r t.
Proof.
  intros E G Hn. unfold takes. rewrite Z.add_0_r. replace (n <=? capacity) with true by lia. eauto.
Qed.

Lemma takes_bind {A C} (m : L A) (k : A -> L C) s n i j r t r' t' : 0 <= j ->
  takes m s n i r t -> (forall a s', good s' r t (n + i) -> n + i <= capacity -> takes (k a) s' (n + i) j r' t') ->
  takes (lbind m k) s n (i + j) r' t'.
Proof.
  intros Hj Hm Hk. unfold takes in Hm. destruct (Z.leb_spec (n + i) capacity) as [Hc|Hc].
  - destruct Hm as (a & s' & E & G). specialize (Hk a s' G Hc). unfold takes in *.
    rewrite Z.add_assoc, (lbind_ok _ _ _ _ _ E). exact Hk.
  - unfold takes. replace (n + (i + j) <=? capacity) with false by lia. now apply lbind_fail.
Qed.

(** A step that takes nothing. *)
Lemma takes_step {A C} (m : L A) (k : A -> L C) s s1 a n j r' t' :
  m s = Ok (a, s1) -> takes (k a) s1 n j r' t' -> takes (lbind m k) s n j r' t'.
Proof. intros E Hk. unfold takes in *. now rewrite (lbind_ok _ _ _ _ _ E). Qed.

Lemma types_insert_run s r t n v : good s r t n -> 0 < sub_len v ->
  ltypes_insert ctor_size v s
  = if n + 1 <=? capacity then Ok (tt, set_ltypes s (l_types s ++ [v])) else Fail Thrown.
Proof.
  intros G Hv. unfold ltypes_insert. replace (sub_len v =? 0) with false by lia.
  erewrite lbind_ok; [|unfold lgets; erewrite lbind_ok by reflexivity; reflexivity].
  unfold lbind, llift, sv_push_back, NUTS_ASSERT. fold capacity. rewrite (g_types _ _ _ _ G).
  destruct (Z.leb_spec (n + 1) capacity); [now replace (n <? capacity) with true by lia|].
  now replace (n <? capacity) with false by lia.
Qed.

Lemma good_types s r t n v : good s r t n -> good (set_ltypes s (l_types s ++ [v])) r t (n + 1).
Proof. intros []. constructor; auto; cbn; rewrite ?length_app; cbn [length]; lia. Qed.

Lemma takes_types s r t u n : good s r (t ++ u) n -> 0 < Z.of_nat (length u) ->
  takes (ltypes_insert ctor_size (mk_sub out (Z.of_nat (length t)) (Z.of_nat (length u)))) s n 1 r (t ++ u).
Proof.
  intros G Hu. unfold takes. rewrite (types_insert_run s r (t ++ u) n _ G) by exact Hu.
  destruct (n + 1 <=? capacity); [|reflexivity]. do 2 eexists. split; [reflexivity|]. now apply good_types.
Qed.

Lemma in_text_ok s r t n v : good s r t n -> in_text t v ->
  sub_text (l_outputs s) v = Ok (firstn (Z.to_nat (sub_len v)) (skipn (Z.to_nat (sub_pos v)) t)).
Proof.
  intros G (E & H1 & H2 & H3). unfold sub_text. rewrite E. fold (lout_at out s).
  rewrite (proj1 (g_text _ _ _ _ G)). now replace (_ <=? _) with true by lia.
Qed.

Lemma in_set_ok s r t n v l : good s r t n -> in_text t v -> Forall (in_text t) l ->
  exists b, in_set (l_outputs s) v l = Ok b.
Proof.
  intros G Hv. induction 1 as [|x l Hx _ IH]; cbn [in_set]; [eauto|].
  rewrite (in_text_ok _ _ _ _ _ G Hx), (in_text_ok _ _ _ _ _ G Hv). cbn [bind].
  destruct (_ && _); eauto.
Qed.

(** The other dictionary has room whenever the one of types had. *)
Lemma good_squangle s r t u n c w : good s r (t ++ u) n -> u = c :: w -> (c =c ",") = false -> (c =c ":") = false ->
  Z.of_nat (length (l_squangle s)) < capacity -> Z.of_nat (length (l_squangle s)) < n ->
  exists s', squangle_insert ctor_size (mk_sub out (Z.of_nat (length t)) (Z.of_nat (length u))) s = Ok (tt, s')
  /\ good s' r (t ++ u) n.
Proof.
  intros G Eu H1 H2 Hcap Hn. set (v := mk_sub out (Z.of_nat (length t)) (Z.of_nat (length u))).
  assert (in_text (t ++ u) v) as Hv by (unfold in_text, v; cbn; rewrite length_app; lia).
  unfold squangle_insert. subst v. cbn [sub_len]. replace (Z.of_nat (length u) =? 0) with false by (subst u; cbn; lia).
  set (v := mk_sub _ _ _) in *. erewrite lbind_ok by reflexivity.
  destruct (in_set_ok _ _ _ _ v (l_set s) G Hv (g_set _ _ _ _ G)) as (b & E).
  erewrite lbind_ok; [|unfold llift; rewrite E; reflexivity].
  destruct b; [exists s; auto|].
  erewrite lbind_ok.
  2:{ unfold llift, sv_push_back, NUTS_ASSERT. fold capacity. replace (_ <? capacity) with true by lia. reflexivity. }
  erewrite lbind_ok by reflexivity. unfold llift at 1.
  erewrite lbind_ok; [|rewrite (in_text_ok _ _ _ _ _ G Hv); reflexivity].
  assert (hd NUL (firstn (Z.to_nat (sub_len v)) (skipn (Z.to_nat (sub_pos v)) (t ++ u))) = c) as ->.
  { unfold v. cbn [sub_len sub_pos]. rewrite !Nat2Z.id, skipn_app, skipn_all, Nat.sub_diag. subst u. reflexivity. }
  unfold lassert, NUTS_ASSERT, llift. rewrite H1, H2. cbn. eexists. split; [reflexivity|].
  destruct G. constructor; auto; cbn; [rewrite length_app; cbn [length]; lia | auto].
Qed.

(** *** Qualifiers *)

Definition codes (quals : list lqual) : bytes := map lqual_code quals.
Definition texts (quals : list lqual) : bytes := concat (rev (map lqual_text quals)).

Lemma texts_cons q quals : texts (q :: quals) = texts quals ++ lqual_text q.
Proof. unfold texts. cbn [map rev]. rewrite concat_app. cbn [concat]. now rewrite app_nil_r. Qed.
Lemma texts_app a b : texts (a ++ b) = texts b ++ texts a.
Proof. unfold texts. now rewrite map_app, rev_app_distr, concat_app. Qed.

(** No qualifier follows. *)
Definition no_qual (r : bytes) : Prop :=
  match r with
  | [] => True
  | c :: _ => (c =c "u") = false /\ (c =c "C") = false /\ (c =c "V") = false /\ (c =c "G") = false
  end.

(** The loop takes the qualifiers up to the first pointer or reference. *)
Lemma qualifiers_loop run : forall fuel s rest t n qual have,
  forallb (fun q => negb (is_ref q)) run = true -> good s (codes run ++ rest) t n -> no_qual rest ->
  (length run < fuel)%nat ->
  exists s', type_qualifiers_loop name_ fuel qual have s
      = Ok ((have || negb (length run =? 0)%nat, texts run ++ qual), s') /\ good s' rest t n.
Proof.
  induction run as [|q run IH]; intros fuel s rest t n qual have Hrun G Hrest Hf;
    (destruct fuel as [|fuel]; [cbn in Hf; lia|]); cbn [type_qualifiers_loop].
  - exists s. cbn [codes map app] in G. rewrite orb_false_r. split; [|exact G].
    erewrite lbind_ok by (eapply cursor_in, G). destruct rest as [|c rest]; [reflexivity|]. cbn [negb].
    erewrite lbind_ok by (eapply cursor_peek, G). cbn [hd]. destruct Hrest as (-> & -> & -> & ->). reflexivity.
  - cbn [codes map app] in G. cbn [forallb] in Hrun. apply andb_true_iff in Hrun as [Hq Hrun].
    erewrite lbind_ok by (eapply cursor_in, G). cbn [negb].
    erewrite lbind_ok by (eapply cursor_peek, G). cbn [hd].
    apply good_advance in G.
    destruct (IH fuel _ rest t n (lqual_text q ++ qual) true Hrun G Hrest) as (s' & E & G');
      [cbn in Hf; lia|].
    exists s'. split; [|exact G']. rewrite texts_cons, <- app_assoc.
    replace (have || negb (length (q :: run) =? 0)%nat) with true by (destruct have; reflexivity).
    destruct q; try discriminate Hq; cbn [lqual_code] in *; exact E.
Qed.

Hypothesis name_size : Z.of_nat (length name_) < 2 ^ 59.

(** *** Numbers and classes *)

Lemma digits_loop ds : forall fuel s r t n v,
  forallb isdigit ds = true -> good s (ds ++ r) t n -> isdigit (hd NUL r) = false -> (length ds < fuel)%nat ->
  exists s', lunsigned_loop name_ fuel None v s
      = Ok (fold_left (fun v c => u64 (v * 10 + (code c - 48))) ds v, s') /\ good s' r t n
      /\ l_gotKlassName s' = l_gotKlassName s.
Proof.
  induction ds as [|d ds IH]; intros fuel s r t n v Hd G Hr Hf;
    (destruct fuel as [|fuel]; [cbn in Hf; lia|]); cbn [lunsigned_loop];
    erewrite lbind_ok by (eapply cursor_peek, G).
  - cbn [app]. rewrite Hr. exists s. auto.
  - cbn [app hd]. cbn [forallb] in Hd. apply andb_true_iff in Hd as [-> Hd].
    erewrite lbind_ok by reflexivity. erewrite lbind_ok by reflexivity. cbn [app] in G. apply good_advance in G.
    apply (IH fuel _ r t n _ Hd G Hr). cbn in Hf. lia.
Qed.

Lemma u64_digits ds : forall v, forallb isdigit ds = true -> 0 <= v ->
  fold_left (fun v c => v * 10 + (code c - 48)) ds v < 2 ^ 64 ->
  fold_left (fun v c => u64 (v * 10 + (code c - 48))) ds v = fold_left (fun v c => v * 10 + (code c - 48)) ds v.
Proof.
  induction ds as [|d ds IH]; intros v Hd Hv Hb; [reflexivity|]. cbn [fold_left forallb] in *.
  apply andb_true_iff in Hd as [Hd Hds]. unfold isdigit in Hd.
  pose proof (dec_val_prefix ds (v * 10 + (code d - 48)) Hds ltac:(lia)).
  rewrite u64_id by lia. apply IH; auto. lia.
Qed.

Lemma unsigned_dec m s r t n : 0 <= m < 2 ^ 63 -> good s (dec m ++ r) t n -> isdigit (hd NUL r) = false ->
  exists s', lparse_unsigned name_ None s = Ok (m, s') /\ good s' r t n.
Proof.
  intros Hm G Hr. destruct (dec_cons m ltac:(lia)) as (c & ds & Ed & Hc & _).
  pose proof (cursor_range _ _ (g_cursor _ _ _ _ G)) as Hlen. rewrite length_app in Hlen. unfold lsize in Hlen.
  destruct (digits_loop (dec m) (S (length name_)) s r t n 0 (dec_digits m ltac:(lia)) G Hr) as (s' & E & G' & _);
    [lia|].
  exists s'. split; [|exact G']. unfold lparse_unsigned. rewrite Ed in G. cbn [app] in G.
  erewrite lbind_ok by (eapply cursor_in, G). erewrite lbind_ok by (eapply cursor_peek, G). cbn [hd].
  rewrite Hc. cbn [negb]. rewrite E.
  pose proof (dec_val_dec m ltac:(lia)) as Hv. unfold dec_val in Hv.
  rewrite u64_digits; [now rewrite Hv | apply dec_digits; lia | lia | rewrite Hv; lia].
Qed.

Lemma strncmp_at_app a b lit k : (k <= length a)%nat -> strncmp_at (a ++ b) lit k = strncmp_at a lit k.
Proof.
  revert a lit. induction k as [|k IH]; intros a lit Hk; [now destruct a, b|].
  destruct a as [|x a]; cbn in Hk; [lia|]. cbn. destruct lit as [|y lit]; [reflexivity|].
  rewrite IH by lia. reflexivity.
Qed.

Lemma ident_start_other c : ident_start c = true ->
  isdigit c = false /\ (c =c ">") = false /\ (c =c ",") = false /\ (c =c ":") = false.
Proof. destruct c as [[] [] [] [] [] [] [] []]; cbn; intros E; try discriminate E; auto. Qed.

(** The name of a class. *)
Lemma class_ok self c cls s r t n : base_ok (LClass (c :: cls)) = true ->
  good s (base_code (LClass (c :: cls)) ++ r) t n ->
  exists s', parse_unqualified_name name_ self out s = Ok (tt, s') /\ good s' r (t ++ c :: cls) n.
Proof.
  cbn [base_ok base_code]. intros Hok G. rewrite <- app_assoc in G. set (cl := c :: cls) in *.
  apply andb_true_iff in Hok as [Hok Hg]. apply negb_true_iff in Hg.
  apply ident_start_other in Hok as (Hok & Hg0 & _).
  pose proof (cursor_range _ _ (g_cursor _ _ _ _ G)) as Hlen. rewrite !length_app in Hlen. unfold lsize in Hlen.
  assert (0 < Z.of_nat (length cl)) as Hcl by (subst cl; cbn; lia).
  destruct (unsigned_dec (Z.of_nat (length cl)) s (cl ++ r) t n) as (s1 & E1 & G1); [lia | exact G | exact Hok |].
  unfold parse_unqualified_name. erewrite lbind_ok by (eapply good_size, G).
  destruct (dec_cons (Z.of_nat (length cl)) ltac:(lia)) as (d & ds & Ed & Hd & _).
  erewrite lbind_ok by (eapply cursor_peek, G). rewrite Ed. cbn [app hd].
  replace (d =c "t") with false
    by (symmetry; apply Ascii.eqb_neq; intros ->; discriminate Hd).
  pose proof (cursor_range _ _ (g_cursor _ _ _ _ G1)) as Hlen1. rewrite !length_app in Hlen1. unfold lsize in Hlen1.
  destruct (good_write s1 (cl ++ r) t n (fun o => oappend o (cl ++ r) (Z.of_nat (length cl))) cl G1)
    as (s2 & E2 & G2).
  { intros o Ho. destruct (oappend_is o t c (cls ++ r) (Z.of_nat (length cl)) Ho Hg0) as (o' & E & Ho').
    - cbn [length]. rewrite length_app. subst cl. cbn [length] in *. lia.
    - unfold NPOS. lia.
    - exists o'. split; [exact E|]. rewrite Nat2Z.id in Ho'. change (c :: cls ++ r) with (cl ++ r) in Ho'.
      rewrite firstn_app, firstn_all, Nat.sub_diag, app_nil_r in Ho'. exact Ho'. }
  pose proof (good_move _ _ _ _ _ G2) as G3. set (s3 := set_lpos _ _) in G3.
  assert (u64 (l_pos s2 + Z.of_nat (length cl)) = l_pos s2 + Z.of_nat (length cl)) as Hu.
  { pose proof (cursor_range _ _ (g_cursor _ _ _ _ G2)) as H2. rewrite !length_app in H2. unfold lsize in H2.
    apply u64_id. lia. }
  erewrite lbind_ok with (a := tt) (s' := s3).
  2:{ erewrite lbind_ok by exact E1. replace (_ =? 0) with false by lia.
      erewrite lbind_ok; [|unfold lgets; erewrite lbind_ok by reflexivity; reflexivity].
      replace (lsize name_ <? _) with false by (unfold lsize; rewrite u64_id by lia; lia).
      erewrite lbind_ok with (a := false) (s' := s1).
      2:{ unfold is_global_name, lgets. erewrite lbind_ok; [|erewrite lbind_ok by reflexivity; reflexivity].
          erewrite lbind_ok by (eapply cursor_rest, G1).
          destruct (Z.leb_spec 8 (Z.of_nat (length cl))); [|reflexivity].
          rewrite strncmp_at_app by lia. rewrite Hg. reflexivity. }
      erewrite lbind_ok with (a := tt) (s' := s2).
      2:{ unfold emit_name. erewrite lbind_ok by (eapply cursor_rest, G1). exact E2. }
      unfold lmodify. rewrite Hu. reflexivity. }
  erewrite lbind_ok; [|unfold lgets; erewrite lbind_ok by reflexivity; reflexivity].
  unfold lwhen. destruct (negb _); [|now exists s3].
  erewrite lbind_ok by (eapply good_substr, G3). eexists. split; [reflexivity|]. now apply good_klass.
Qed.

(** *** Types *)

Definition refs (quals : list lqual) : Z := Z.of_nat (length (filter is_ref quals)).

(** What [parse_type] does once the type itself is written, at the depth [d]. *)
Definition entries_at (d : Z) : Z := if 1 <? d then 1 else 0.

Lemma simple_letter c u : simple_type c = Some u ->
  isdigit c = false /\ (c =c "_") = false /\ (c =c "T") = false /\ (c =c "N") = false /\ (c =c "n") = false
  /\ no_qual [c] /\ exists x w, u = x :: w /\ (x =c ">") = false /\ (x =c ",") = false /\ (x =c ":") = false
  /\ (length u < 20)%nat.
Proof.
  destruct c as [[] [] [] [] [] [] [] []]; cbn; intros E; try discriminate E; injection E as <-;
    repeat split; do 2 eexists; (split; [reflexivity|]); repeat split; cbn; lia.
Qed.

(** The end of [parse_type]: the qualifiers, and the entries of a pointer to a pointer. *)
Definition type_tail (p : Z) (qual : bytes) (d : Z) : L unit :=
  apply_qualifiers out qual ;;;
  lwhen (1 <? d) (v <- lsubstr out p ;; ltypes_insert ctor_size v ;;; squangle_insert ctor_size v).

Definition starts_ok (u : bytes) : Prop :=
  exists x w, u = x :: w /\ (x =c ">") = false /\ (x =c ",") = false /\ (x =c ":") = false.

Lemma type_tail_ok s r t u n qual d : good s r (t ++ u) n -> starts_ok u -> n <= capacity ->
  match qual with [] => True | c :: _ => (c =c ">") = false end -> Z.of_nat (length qual) < 2 ^ 63 ->
  takes (type_tail (Z.of_nat (length t)) qual d) s n (entries_at d) r (t ++ u ++ qual).
Proof.
  intros G (x & w & Eu & H1 & H2 & H3) Hn Hq Hl. unfold type_tail, apply_qualifiers.
  destruct (good_emit_text s r (t ++ u) n qual G Hq Hl) as (s1 & E1 & G1). rewrite <- app_assoc in G1.
  eapply takes_step; [exact E1|]. unfold entries_at, lwhen.
  destruct (Z.ltb_spec 1 d); [|now eapply takes_ret].
  eapply takes_step; [eapply good_substr, G1|].
  assert (0 < Z.of_nat (length (u ++ qual))) as Hu by (subst u; cbn [app length]; lia).
  set (v := mk_sub _ _ _). unfold takes. pose proof (types_insert_run _ _ _ _ v G1 Hu) as Ei.
  destruct (Z.leb_spec (n + 1) capacity) as [Hc|Hc]; [|now apply lbind_fail].
  rewrite (lbind_ok _ _ _ _ _ Ei).
  pose proof (g_squangle _ _ _ _ G1) as Hsq.
  destruct (good_squangle _ r t (u ++ qual) (n + 1) x (w ++ qual) (good_types _ _ _ _ v G1)) as (s3 & E3 & G3);
    [now subst u | exact H2 | exact H3 | cbn; lia | cbn; lia |].
  exists tt, s3. split; [exact E3 | exact G3].
Qed.

Lemma base_starts b : base_ok b = true -> starts_ok (base_text b).
Proof.
  destruct b as [c|[|c cls]]; cbn; [|discriminate|].
  - destruct (simple_type c) as [u|] eqn:E; [|discriminate]. intros _.
    destruct (simple_letter c u E) as (_ & _ & _ & _ & _ & _ & x & w & H). exists x, w. tauto.
  - intros [H _]%andb_true_iff. apply ident_start_other in H. exists c, cls. tauto.
Qed.

(** The base of a type, without qualifiers. *)
Lemma base_parsed self b s r t n qual d : base_ok b = true -> good s (base_code b ++ r) t n -> n <= capacity ->
  match qual with [] => True | c :: _ => (c =c ">") = false end -> Z.of_nat (length qual) < 2 ^ 63 ->
  takes (parse_type name_ ctor_size self out qual d) s n (entries_at d) r (t ++ base_text b ++ qual).
Proof.
  intros Hb G Hn Hq Hl. unfold parse_type.
  eapply takes_step; [eapply good_size, G|]. eapply takes_step; [eapply cursor_in, G|].
  pose proof (base_starts b Hb) as Hst.
  destruct b as [c|[|c cls]]; [|discriminate Hb|].
  - cbn [base_code app base_ok base_text] in *. destruct (simple_type c) as [u|] eqn:E; [|discriminate Hb].
    destruct (simple_letter c u E) as (Hd & _ & _ & _ & _ & _ & x & w & -> & Hx & _ & _ & Hlen).
    eapply takes_step; [eapply cursor_peek, G|]. cbn [hd]. rewrite Hd.
    destruct (good_emit s (c :: r) t n x w G Hx ltac:(lia)) as (s1 & E1 & G1).
    pose proof (good_advance _ _ _ _ _ G1) as G2.
    eapply takes_step with (a := TDone qual).
    { unfold type_switch. rewrite E. erewrite lbind_ok by exact E1. erewrite lbind_ok by reflexivity. reflexivity. }
    exact (type_tail_ok _ r t (x :: w) n qual d G2 Hst Hn Hq Hl).
  - destruct (class_ok self c cls s r t n Hb G) as (s1 & E1 & G1).
    destruct (dec_cons (Z.of_nat (length (c :: cls))) ltac:(lia)) as (e & ds & Ed & Hd & _).
    pose proof G as G0. cbn [base_code] in G0. rewrite Ed in G0. cbn [app] in G0.
    replace (match base_code (LClass (c :: cls)) ++ r with [] => false | _ :: _ => true end) with true
      by (cbn [base_code]; now rewrite Ed).
    eapply takes_step; [eapply cursor_peek, G0|]. cbn [hd]. rewrite Hd.
    eapply takes_step with (a := TDone qual); [erewrite lbind_ok by exact E1; reflexivity|].
    exact (type_tail_ok _ r t (c :: cls) n qual d G1 Hst Hn Hq Hl).
Qed.

Lemma base_no_qual b r : base_ok b = true -> no_qual (base_code b ++ r).
Proof.
  destruct b as [c|[|c cls]]; cbn [base_ok]; [|discriminate|]; intros H.
  - destruct (simple_type c) as [u|] eqn:E; [|discriminate]. now apply (simple_letter c u).
  - cbn [base_code]. destruct (dec_cons (Z.of_nat (length (c :: cls))) ltac:(lia)) as (e & ds & -> & Hd & _).
    cbn. repeat split; apply Ascii.eqb_neq; intros ->; discriminate Hd.
Qed.

(** The qualifiers up to the first pointer or reference. *)
Lemma split_quals quals : exists run rest, quals = run ++ rest
  /\ forallb (fun q => negb (is_ref q)) run = true
  /\ match rest with [] => True | q :: _ => is_ref q = true end.
Proof.
  induction quals as [|q quals (run & rest & -> & H1 & H2)]; [now exists [], []|].
  destruct (is_ref q) eqn:E; [now exists [], (q :: run ++ rest)|].
  exists (q :: run), rest. cbn. now rewrite E.
Qed.

Lemma refs_none run : forallb (fun q => negb (is_ref q)) run = true -> refs run = 0.
Proof.
  unfold refs. induction run as [|q run IH]; [reflexivity|]. cbn.
  destruct (is_ref q); [discriminate|]. exact IH.
Qed.
Lemma refs_app a b : refs (a ++ b) = refs a + refs b.
Proof. unfold refs. rewrite filter_app, length_app. lia. Qed.

Lemma texts_length quals : Z.of_nat (length (texts quals)) <= 9 * Z.of_nat (length quals).
Proof.
  induction quals as [|q quals IH]; [now cbn|]. rewrite texts_cons, length_app. destruct q; cbn [lqual_text length] in *;
    cbn; lia.
Qed.
Lemma texts_start run qual : match qual with [] => True | c :: _ => (c =c ">") = false end ->
  match texts run ++ qual with [] => True | c :: _ => (c =c ">") = false end.
Proof.
  intros Hq. induction run as [|q run IH] using rev_ind; [exact Hq|].
  rewrite texts_app, <- app_assoc. now destruct q.
Qed.

(** A type with its qualifiers. *)
Lemma type_parsed : forall fuel quals b s r t n qual d, (length quals < fuel)%nat -> base_ok b = true ->
  good s (codes quals ++ base_code b ++ r) t n -> n <= capacity ->
  match qual with [] => True | c :: _ => (c =c ">") = false end ->
  Z.of_nat (length qual) + 9 * Z.of_nat (length quals) < 2 ^ 63 ->
  takes (lc_type (legacy name_ ctor_size fuel) out qual d) s n (entries_at (d + refs quals)) r
    (t ++ base_text b ++ texts quals ++ qual).
Proof.
  induction fuel as [|fuel IH]; intros quals b s r t n qual d Hf Hb G Hn Hq Hl; [lia|]. cbn [legacy lc_type].
  destruct quals as [|q quals].
  { unfold refs. cbn. rewrite Z.add_0_r. apply base_parsed; auto. cbn in Hl. lia. }
  unfold parse_type. eapply takes_step; [eapply good_size, G|]. eapply takes_step; [eapply cursor_in, G|].
  cbn [codes map app]. eapply takes_step; [eapply cursor_peek, G|]. cbn [codes map app hd] in *.
  destruct (is_ref q) eqn:Er.
  - pose proof (good_advance _ _ _ _ _ G) as G1.
    assert (entries_at (d + refs (q :: quals)) = entries_at (d + 1 + refs quals)) as ->.
    { f_equal. unfold refs. cbn. rewrite Er. cbn [length]. lia. }
    rewrite texts_cons, <- app_assoc.
    destruct q; try discriminate Er; (eapply takes_step; [reflexivity|]); cbv beta iota;
      (apply IH; auto; [cbn in Hf |- *; lia | reflexivity | rewrite length_app; cbn [length lqual_text list_ascii_of_string] in *; lia]).
  - destruct (split_quals (q :: quals)) as (run & rest & E & Hrun & Hrest).
    assert (run <> []) as Hne.
    { intros ->. cbn in E. subst rest. cbn in Hrest. congruence. }
    assert (length rest < length (q :: quals))%nat as Hlt.
    { rewrite E, length_app. destruct run; [contradiction | cbn; lia]. }
    assert (length run <= length (q :: quals))%nat as Hle by (rewrite E, length_app; lia).
    assert (codes (q :: quals) ++ base_code b ++ r = codes run ++ codes rest ++ base_code b ++ r) as Ec.
    { rewrite E. unfold codes. now rewrite map_app, <- app_assoc. }
    unfold codes in Ec at 1. cbn [map app] in Ec. rewrite Ec in G.
    pose proof (cursor_range _ _ (g_cursor _ _ _ _ G)) as Hlen. rewrite !length_app in Hlen. unfold lsize in Hlen.
    destruct (qualifiers_loop run (S (length name_)) s (codes rest ++ base_code b ++ r) t n qual false Hrun G)
      as (s1 & E1 & G1).
    { destruct rest as [|q' rest]; [now apply base_no_qual|]. now destruct q'. }
    { unfold codes in Hlen. rewrite length_map in Hlen. lia. }
    eapply takes_step with (s1 := s1) (a := TMore (texts run ++ qual) d).
    { assert (type_switch name_ ctor_size (legacy name_ ctor_size fuel) out qual d (lqual_code q) s
        = lbind (parse_type_qualifiers name_ qual) (fun x => let '(have, qual) := x in
            if have : bool then lret (TMore qual d) else lerror ;;; lret TReturn) s) as Es
        by (destruct q; try discriminate Er; reflexivity).
      replace (isdigit (lqual_code q)) with false by (now destruct q).
      rewrite Es. erewrite lbind_ok by exact E1. destruct run; [contradiction|]. reflexivity. }
    cbv beta iota. rewrite E, refs_app, (refs_none run Hrun), texts_app, <- (app_assoc (texts rest)).
    apply IH; auto; [lia | now apply texts_start |].
    pose proof (texts_length run). rewrite length_app. rewrite E, length_app in Hl. lia.
Qed.

(** *** Parameters *)

Definition arg_start (r : bytes) : Prop :=
  match r with
  | [] => False
  | c :: _ => (c =c "_") = false /\ (c =c "T") = false /\ (c =c "N") = false /\ (c =c "n") = false
  end.

Lemma arg_starts a r : arg_ok a = true -> arg_start (arg_code a ++ r).
Proof.
  unfold arg_ok, arg_code. destruct a as [[|q quals] b]; cbn [arg_quals arg_base map app].
  - destruct b as [c|[|c cls]]; cbn [base_ok]; [|discriminate|]; intros H.
    + destruct (simple_type c) as [u|] eqn:E; [|discriminate]. destruct (simple_letter c u E). cbn. tauto.
    + cbn [base_code]. destruct (dec_cons (Z.of_nat (length (c :: cls))) ltac:(lia)) as (e & ds & -> & Hd & _).
      cbn. repeat split; apply Ascii.eqb_neq; intros ->; discriminate Hd.
  - intros _. now destruct q.
Qed.

Lemma arg_text_length a : arg_ok a = true -> 0 < Z.of_nat (length (arg_text a)).
Proof.
  intros H. destruct (base_starts _ H) as (x & w & E & _). unfold arg_text. rewrite E. cbn. lia.
Qed.

Lemma param_parsed fuel a s r t n last : (length name_ < fuel)%nat -> arg_ok a = true ->
  good s (arg_code a ++ r) t n -> n <= capacity ->
  takes (fun_param name_ ctor_size (legacy name_ ctor_size fuel) out last) s n (arg_entries a) r (t ++ arg_text a).
Proof.
  intros Hf Ha G Hn. pose proof (arg_starts a r Ha) as Hs. unfold fun_param.
  eapply takes_step; [eapply cursor_peek, G|].
  destruct (arg_code a ++ r) as [|c w] eqn:Ec; [contradiction|]. cbn [hd]. destruct Hs as (_ & -> & -> & ->).
  rewrite <- Ec in G. clear c w Ec.
  eapply takes_step; [eapply good_size, G|].
  assert (arg_entries a = entries_at (0 + refs (arg_quals a)) + (1 + 0)) as ->.
  { unfold arg_entries, entries_at, arg_depth, refs. rewrite Z.add_0_l. destruct (1 <? _); reflexivity. }
  unfold arg_code in G. rewrite <- app_assoc in G. fold (codes (arg_quals a)) in G.
  pose proof (cursor_range _ _ (g_cursor _ _ _ _ G)) as Hlen. rewrite !length_app in Hlen.
  unfold lsize, codes in Hlen. rewrite length_map in Hlen.
  eapply takes_bind with (r := r) (t := t ++ arg_text a); [lia | |].
  { pose proof (type_parsed fuel (arg_quals a) (arg_base a) s r t n [] 0) as Hty. rewrite app_nil_r in Hty.
    apply Hty; auto; cbn [length]; lia. }
  intros _ s1 G1 Hc. eapply takes_step; [eapply good_substr, G1|].
  eapply takes_bind; [lia | apply takes_types; [exact G1 | now apply arg_text_length] |].
  intros _ s2 G2 Hc2. now eapply takes_ret.
Qed.

Definition sep_args (args : list larg) : bytes := concat (map (fun a => B ", " ++ arg_text a) args).

Lemma join_sep a args : join_args (a :: args) = arg_text a ++ sep_args args.
Proof.
  revert a. induction args as [|b args IH]; intros a; [cbn; now rewrite app_nil_r|].
  change (join_args (a :: b :: args)) with (arg_text a ++ B ", " ++ join_args (b :: args)).
  rewrite IH. unfold sep_args. cbn [map concat]. now rewrite <- app_assoc.
Qed.

Lemma entries_pos a : 0 < arg_entries a.
Proof. unfold arg_entries. destruct (_ <? _); lia. Qed.
Lemma total_nonneg args : 0 <= total_entries args.
Proof.
  induction args as [|a args IH]; [reflexivity|].
  change (total_entries (a :: args)) with (arg_entries a + total_entries args). pose proof (entries_pos a). lia.
Qed.

Lemma args_code_length args : forallb arg_ok args = true -> (length args <= length (args_code args))%nat.
Proof.
  induction args as [|a args IH]; [reflexivity|]. cbn [forallb]. intros [Ha H]%andb_true_iff.
  unfold args_code. cbn [map concat]. fold (args_code args). rewrite length_app.
  pose proof (arg_starts a [] Ha) as Hs. rewrite app_nil_r in Hs.
  destruct (arg_code a); [contradiction|]. cbn [length]. specialize (IH H). lia.
Qed.

(** The loop over the parameters that are not the first one. *)
Lemma params_parsed depth args : (length name_ < depth)%nat -> forallb arg_ok args = true ->
  forall fuel s t n last, (length args < fuel)%nat -> good s (args_code args) t n -> n <= capacity ->
  takes (fun_params_loop name_ ctor_size (legacy name_ ctor_size depth) fuel out false last) s n
    (total_entries args) [] (t ++ sep_args args).
Proof.
  intros Hd. induction args as [|a args IH]; intros Hok fuel s t n last Hf G Hn;
    (destruct fuel as [|fuel]; [cbn in Hf; lia|]); cbn [fun_params_loop].
  - cbn in G. eapply takes_step; [eapply cursor_in, G|]. eapply takes_step; [eapply good_ok, G|].
    unfold sep_args. cbn. rewrite app_nil_r. now eapply takes_ret.
  - cbn [forallb] in Hok. apply andb_true_iff in Hok as [Ha Hok].
    unfold args_code in G. cbn [map concat] in G. fold (args_code args) in G.
    pose proof (arg_starts a (args_code args) Ha) as Hs.
    eapply takes_step; [eapply cursor_in, G|]. eapply takes_step; [eapply good_ok, G|].
    destruct (arg_code a ++ args_code args) as [|c w] eqn:Ec; [contradiction|]. cbn [andb negb].
    eapply takes_step; [eapply cursor_peek, G|]. cbn [hd]. destruct Hs as (-> & _). cbn [negb lwhen].
    destruct (good_emit s (c :: w) t n "," (B " ") G eq_refl ltac:(reflexivity)) as (s1 & E1 & G1).
    eapply takes_step; [exact E1|]. rewrite <- Ec in G1.
    cbn [total_entries fold_right]. fold (total_entries args).
    eapply takes_bind; [apply total_nonneg | eapply param_parsed; eauto |].
    intros last' s2 G2 Hc. unfold sep_args. cbn [map concat]. fold (sep_args args).
    replace (t ++ (B ", " ++ arg_text a) ++ sep_args args) with (((t ++ B ", ") ++ arg_text a) ++ sep_args args)
      by now rewrite <- !app_assoc.
    apply IH; auto. cbn in Hf. lia.
Qed.

(** [parse_fun_param] at the end of a name. *)
Lemma show_params depth args s t n : (length name_ < depth)%nat -> forallb arg_ok args = true ->
  good s (args_code args) t n -> n <= capacity ->
  takes (show_fun_param name_ ctor_size (legacy name_ ctor_size depth) out) s n (total_entries args) []
    (t ++ args_text args).
Proof.
  intros Hd Hok G Hn. unfold show_fun_param, args_text.
  destruct (good_emit s _ t n "(" [] G eq_refl ltac:(reflexivity)) as (s1 & E1 & G1).
  eapply takes_step; [exact E1|].
  eapply takes_step; [unfold lgets; erewrite lbind_ok by reflexivity; reflexivity|].
  pose proof (cursor_range _ _ (g_cursor _ _ _ _ G1)) as Hp.
  replace (total_entries args) with (total_entries args + 0) by lia.
  assert (forall (m : L unit) t1 k, takes m s1 n k [] t1 -> 0 <= k ->
    takes (lbind m (fun _ => lemit out (B ")"))) s1 n (k + 0) [] (t1 ++ B ")")) as Hclose.
  { intros m t1 k Hm Hk. eapply takes_bind; [lia | exact Hm |]. intros _ s2 G2 Hc.
    destruct (good_emit s2 _ t1 (n + k) ")" [] G2 eq_refl ltac:(reflexivity)) as (s3 & E3 & G3).
    exact (takes_ret _ _ _ _ _ _ _ E3 G3 Hc). }
  destruct args as [|a args].
  - cbn in Hp. replace (l_pos s1 =? lsize name_) with true by lia.
    replace (t ++ B "(" ++ B "void" ++ B ")") with (((t ++ B "(") ++ B "void") ++ B ")") by now rewrite <- !app_assoc.
    apply Hclose; [|apply total_nonneg].
    destruct (good_emit s1 _ _ n "v" (B "oid") G1 eq_refl ltac:(reflexivity)) as (s2 & E2 & G2).
    exact (takes_ret _ _ _ _ _ _ _ E2 G2 Hn).
  - cbn [forallb] in Hok. apply andb_true_iff in Hok as [Ha Hok].
    unfold args_code in G1, Hp. cbn [map concat] in G1, Hp. fold (args_code args) in G1, Hp.
    pose proof (arg_starts a (args_code args) Ha) as Hs.
    destruct (arg_code a ++ args_code args) as [|c w] eqn:Ec; [contradiction|].
    cbn [length] in Hp. replace (l_pos s1 =? lsize name_) with false by lia.
    rewrite join_sep.
    replace (t ++ B "(" ++ (arg_text a ++ sep_args args) ++ B ")")
      with ((((t ++ B "(") ++ arg_text a) ++ sep_args args) ++ B ")") by now rewrite <- !app_assoc.
    apply Hclose; [|apply total_nonneg].
    cbn [fun_params_loop]. eapply takes_step; [eapply cursor_in, G1|]. eapply takes_step; [eapply good_ok, G1|].
    cbn [andb negb]. eapply takes_step; [eapply cursor_peek, G1|]. cbn [hd]. destruct Hs as (-> & _).
    cbn [negb lwhen]. eapply takes_step; [reflexivity|]. rewrite <- Ec in G1.
    cbn [total_entries fold_right]. fold (total_entries args).
    eapply takes_bind; [apply total_nonneg | eapply param_parsed; eauto |].
    intros last' s2 G2 Hc. apply params_parsed; auto.
    pose proof (args_code_length args Hok) as Hl. pose proof (cursor_range _ _ (g_cursor _ _ _ _ G)) as Hg.
    unfold args_code in Hg. cbn [map concat] in Hg. fold (args_code args) in Hg.
    rewrite Ec in Hg. apply (f_equal (@length ascii)) in Ec. rewrite length_app in Ec.
    pose proof (arg_starts a [] Ha) as Hs1. rewrite app_nil_r in Hs1.
    destruct (arg_code a); [contradiction|]. unfold lsize in Hg. cbn [length] in *. lia.
Qed.
End Run.

(** ** Looking for the end of the name *)

Section Scan.
Variables (name_ : bytes) (ctor_size : Z) (self : lcalls) (out : nat) (p : Z) (qual : bytes) (res : bool).

#[local] Abbreviation loop fuel i := (functions_loop name_ ctor_size self fuel out p i qual res).

Lemma scan_step fuel pre a b r s : name_ = pre ++ a :: b :: r -> l_status s = SUCCESS ->
  (a =c "_") && (b =c "_") = false ->
  loop (S fuel) (Z.of_nat (length pre)) s = loop fuel (Z.of_nat (length (pre ++ [a]))) s.
Proof.
  intros E Hs Hab. cbn [functions_loop].
  erewrite lbind_ok; [|unfold lok, lgets; erewrite lbind_ok by reflexivity; rewrite Hs; reflexivity].
  assert (Z.of_nat (length pre) + 2 <= lsize name_) as Hl
    by (rewrite E; unfold lsize; rewrite length_app; cbn [length]; lia).
  replace (Z.of_nat (length pre) <? Z.max 0 (lsize name_ - 1)) with true by lia. cbn [success andb negb].
  assert (forall k c, nth_error (a :: b :: r) k = Some c -> (k < 2)%nat ->
    lname_at name_ (Z.of_nat (length pre) + Z.of_nat k) s = Ok (c, s)) as Hat.
  { intros k c Hk Hk2. unfold lname_at. replace (_ && _) with true by lia. unfold lret. do 2 f_equal.
    rewrite E. rewrite app_nth2 by lia.
    replace (Z.to_nat (Z.of_nat (length pre) + Z.of_nat k) - length pre)%nat with k by lia.
    now apply nth_error_nth. }
  erewrite lbind_ok; [|rewrite <- (Z.add_0_r (Z.of_nat (length pre))); apply (Hat 0%nat); [reflexivity | lia]].
  erewrite lbind_ok; [|apply (Hat 1%nat); [reflexivity | lia]].
  rewrite Hab. cbn [negb]. f_equal. rewrite length_app. cbn [length]. lia.
Qed.

Lemma scan suf : forall fuel pre c r s, name_ = pre ++ suf ++ c :: r -> l_status s = SUCCESS ->
  no_double_underscore (suf ++ [c]) = true ->
  loop (length suf + fuel) (Z.of_nat (length pre)) s = loop fuel (Z.of_nat (length (pre ++ suf))) s.
Proof.
  induction suf as [|a suf IH]; intros fuel pre c r s E Hs Hd; [now rewrite app_nil_r|].
  assert (exists b w, suf ++ c :: r = b :: w /\ (a =c "_") && (b =c "_") = false) as (b & w & Eb & Hab).
  { destruct suf as [|b suf]; cbn [app no_double_underscore] in *;
      apply andb_true_iff in Hd as [Hd%negb_true_iff _]; eauto. }
  cbn [app length Nat.add] in *. rewrite Eb in E. erewrite scan_step by eauto.
  assert (name_ = (pre ++ [a]) ++ suf ++ c :: r) as E' by (rewrite Eb, <- app_assoc; exact E).
  rewrite (IH fuel (pre ++ [a]) c r s E' Hs).
  - now rewrite <- app_assoc.
  - cbn [no_double_underscore] in Hd. destruct (suf ++ [c]) eqn:F; [reflexivity|].
    now apply andb_true_iff in Hd.
Qed.

(** At the end of the name the loop answers whether it has found a function. *)
Lemma scan_end fuel i s : lsize name_ - 1 <= i -> 0 <= i -> l_status s = SUCCESS ->
  loop (S fuel) i s = Ok (res, s).
Proof.
  intros Hi H0 Hs. cbn [functions_loop].
  erewrite lbind_ok; [|unfold lok, lgets; erewrite lbind_ok by reflexivity; rewrite Hs; reflexivity].
  replace (i <? _) with false by lia. cbn [success andb negb]. now rewrite andb_true_r.
Qed.
End Scan.

(** ** Functions *)

Definition hides (flags : Z) : bool := negb (Z.land flags UNMANGLE_NOFUNARGS =? 0).

Definition function_text (flags : Z) (f : bytes) (args : list larg) : bytes :=
  if hides flags then f else f ++ args_text args.

Section Function.
Variables (name_ : bytes) (flags : Z) (f : bytes) (args : list larg) (others : nat -> Output).
Hypothesis name_size : Z.of_nat (length name_) < 2 ^ 59.
Hypothesis args_good : forallb arg_ok args = true.
#[local] Abbreviation size := (Z.of_nat (length name_)).

Lemma cursor_end fl out others' s t n : good name_ out fl others' s [] t n -> l_pos s = size.
Proof. intros [(pre & E & Hp)]. rewrite Hp, E, app_nil_r. reflexivity. Qed.

(** The parameters, shown or hidden, behind the name of the function. *)
Lemma fun_param_parsed depth s : (length name_ < depth)%nat ->
  good name_ 0 flags others s (args_code args) f 0 -> length (l_outputs s) = 1%nat -> l_set s = [] ->
  if total_entries args <=? capacity size
  then exists s', parse_fun_param name_ size (legacy name_ size depth) 0 s = Ok (tt, s')
    /\ l_status s' = SUCCESS /\ l_pos s' = size /\ o_is (lout_at 0 s') (function_text flags f args)
  else parse_fun_param name_ size (legacy name_ size depth) 0 s = Fail Thrown.
Proof.
  intros Hd G Ho Hset. pose proof (g_flags _ _ _ _ _ _ _ _ G) as Hfl. assert (0 <= capacity size) as Hcap by (unfold capacity; apply Z.div_pos; lia).
  unfold parse_fun_param, function_text, hides.
  erewrite lbind_ok; [|unfold lgets; erewrite lbind_ok by reflexivity; reflexivity].
  rewrite Hfl. destruct (Z.land flags UNMANGLE_NOFUNARGS =? 0); cbn [negb].
  - pose proof (show_params name_ size 0 flags others name_size depth args s f 0 Hd args_good G Hcap) as Hsh.
    unfold takes in Hsh. rewrite Z.add_0_l in Hsh. destruct (_ <=? _); [|exact Hsh].
    destruct Hsh as ([] & s' & E & G'). exists s'. split; [exact E|].
    split; [apply G'|]. split; [exact (cursor_end _ _ _ _ _ _ G') | apply G'].
  - set (s1 := set_loutputs s (l_outputs s ++ [new_output])).
    erewrite lbind_ok with (a := 1%nat) (s' := s1).
    2:{ unfold ltemp_output. erewrite lbind_ok; [|unfold lgets; erewrite lbind_ok by reflexivity; reflexivity].
        rewrite Ho. reflexivity. }
    set (s2 := set_lflags s1 (Z.ldiff flags UNMANGLE_NOFUNARGS)).
    assert (good name_ 1 (Z.ldiff flags UNMANGLE_NOFUNARGS) (fun j => lout_at j s2) s2 (args_code args) [] 0) as G2.
    { destruct G. constructor; auto.
      - unfold s2, s1. cbn. rewrite length_app. cbn. lia.
      - unfold lout_at, s2, s1. cbn. destruct (l_outputs s) as [|o [|]]; try discriminate Ho. now repeat split.
      - unfold s2, s1. cbn. rewrite Hset. constructor. }
    pose proof (show_params name_ size 1 _ _ name_size depth args s2 [] 0 Hd args_good G2 Hcap) as Hsh.
    unfold takes in Hsh. rewrite Z.add_0_l in Hsh.
    unfold ltemporarily. erewrite lbind_ok; [|unfold lgets; erewrite lbind_ok by reflexivity; reflexivity].
    destruct (_ <=? _).
    + destruct Hsh as ([] & s' & E & G'). exists (set_lflags s' (l_flags s1)). split.
      { erewrite lbind_ok; [|erewrite lbind_ok; [exact E|]]; [reflexivity|]. unfold s2. now rewrite <- Hfl. }
      split; [apply G'|]. split; [exact (cursor_end _ _ _ _ _ _ G')|].
      change (lout_at 0 (set_lflags s' (l_flags s1))) with (lout_at 0 s').
      rewrite (g_others _ _ _ _ _ _ _ _ G' 0%nat) by lia. unfold lout_at, s2, s1. cbn.
      pose proof (g_text _ _ _ _ _ _ _ _ G) as Ht. unfold lout_at in Ht.
      now destruct (l_outputs s) as [|o [|]].
    + apply lbind_fail. erewrite lbind_ok; [exact Hsh|]. unfold s2. now rewrite <- Hfl.
Qed.
End Function.

Lemma start_good name_ flags :
  good name_ 0 flags (fun _ => new_output) (init_lstate flags) name_ [] 0.
Proof.
  constructor; cbn; auto; try lia.
  - exists []. auto.
  - now repeat split.
  - intros [|[|j]] Hj; [lia | reflexivity..].
Qed.

(** [parse_special_cases] has nothing to do with a name that does not start with [_]. *)
Lemma no_special name_ cs self flags c r : name_ = c :: r -> (c =c "_") = false ->
  parse_special_cases name_ cs self 0 (init_lstate flags) = Ok (false, init_lstate flags).
Proof.
  intros E Hc. unfold parse_special_cases.
  erewrite lbind_ok by (eapply cursor_peek, start_good). rewrite E. cbn [hd]. now rewrite Hc.
Qed.

(** The name at the underscores: it is copied to the output. *)
Lemma function_found name_ flags f r : name_ = f ++ B "__F" ++ r -> plain_name f = true ->
  Z.of_nat (length name_) < 2 ^ 59 -> forall fuel self, (0 < fuel)%nat ->
  exists s, good name_ 0 flags (fun _ => new_output) s r f 0
  /\ length (l_outputs s) = 1%nat /\ l_set s = []
  /\ functions_loop name_ (Z.of_nat (length name_)) self (S fuel) 0 0 (Z.of_nat (length f)) [] false (init_lstate flags)
     = (parse_fun_param name_ (Z.of_nat (length name_)) self 0 ;;;
        j <- lgets l_pos ;;
        functions_loop name_ (Z.of_nat (length name_)) self fuel 0 0 j [] true) s.
Proof.
  intros E Hf Hsz fuel self Hfuel. set (size := Z.of_nat (length name_)) in *.
  destruct f as [|c w] eqn:Ef; [discriminate Hf|]. rewrite <- Ef in E |- *.
  cbn [plain_name] in Hf. apply andb_true_iff in Hf as [[Hc Hu%negb_true_iff]%andb_true_iff _].
  apply ident_start_other in Hc as (_ & Hc & _).
  pose proof (start_good name_ flags) as G0. set (s0 := init_lstate flags) in *.
  assert (size = Z.of_nat (length f) + 3 + Z.of_nat (length r)) as Hs.
  { unfold size. rewrite E. rewrite !length_app. cbn [length list_ascii_of_string]. lia. }
  assert (0 < Z.of_nat (length f)) as Hf0 by (rewrite Ef; cbn; lia).
  set (s1 := set_lpos s0 (Z.of_nat (length f) + 2)).
  assert (good name_ 0 flags (fun _ => new_output) s1 ("F"%char :: r) [] 0) as G1.
  { destruct G0. constructor; auto. exists (f ++ B "__"). rewrite E. unfold s1. cbn [l_pos set_lpos].
    rewrite <- app_assoc, length_app. cbn [length list_ascii_of_string app]. split; [reflexivity | lia]. }
  destruct (good_write name_ 0 flags (fun _ => new_output) s1 _ [] 0
    (fun o => oappend o name_ (Z.of_nat (length f))) f G1) as (s2 & E2 & G2).
  { assert (name_ = c :: w ++ B "__F" ++ r) as En by (rewrite E, Ef; reflexivity).
    intros o Ho.
    destruct (oappend_is o [] c (w ++ B "__F" ++ r) (Z.of_nat (length f)) Ho Hc) as (o' & Eo & Ho').
    - rewrite Ef. cbn [length]. rewrite length_app. lia.
    - unfold NPOS. lia.
    - exists o'. split; [rewrite En; exact Eo|]. change (c :: w ++ B "__F" ++ r)
        with ((c :: w) ++ B "__F" ++ r) in Ho'. rewrite <- Ef in Ho'.
      rewrite Nat2Z.id, firstn_app, firstn_all, Nat.sub_diag in Ho'. cbn [firstn app] in Ho'.
      now rewrite app_nil_r in Ho'. }
  exists (set_lpos s2 (l_pos s2 + 1)). split; [now apply good_advance in G2|].
  destruct (lon_out_frame _ _ _ _ E2) as [Ho Hset].
  split; [exact Ho|]. split; [exact Hset|].
  assert (forall k x, nth_error (B "__F") k = Some x -> (k < 2)%nat ->
    lname_at name_ (Z.of_nat (length f) + Z.of_nat k) s0 = Ok (x, s0)) as Hat.
  { intros k x Hk Hk2. unfold lname_at. replace (_ && _) with true by (unfold lsize; lia). unfold lret.
    do 2 f_equal. rewrite E. rewrite app_nth2, app_nth1 by (cbn; lia).
    replace (Z.to_nat (Z.of_nat (length f) + Z.of_nat k) - length f)%nat with k by lia. now apply nth_error_nth. }
  cbn [functions_loop]. erewrite lbind_ok by (eapply good_ok, G0).
  replace (_ <? Z.max 0 (lsize name_ - 1)) with true by (unfold lsize; lia). cbn [andb negb].
  erewrite lbind_ok; [|rewrite <- (Z.add_0_r (Z.of_nat (length f))); apply (Hat 0%nat); [reflexivity | lia]].
  erewrite lbind_ok; [|apply (Hat 1%nat); [reflexivity | lia]].
  cbn [Ascii.eqb Bool.eqb andb negb].
  erewrite lbind_ok with (a := tt) (s' := s1) by reflexivity.
  erewrite lbind_ok with (a := []) (s' := s1).
  2:{ unfold parse_fun_qualifiers. cbn [fun_qualifiers_loop].
      erewrite lbind_ok by (eapply cursor_peek, G1). reflexivity. }
  erewrite lbind_ok by (eapply cursor_peek, G1). cbn [hd Ascii.eqb Bool.eqb].
  replace (Z.of_nat (length f) =? 0) with false by lia.
  erewrite lbind_ok with (a := false) (s' := s1).
  2:{ unfold parse_operator. erewrite lbind_ok with (a := c) (s' := s1).
      - rewrite Hu. reflexivity.
      - unfold lname_at. replace (_ && _) with true by (unfold lsize; lia). rewrite E, Ef. reflexivity. }
  cbn [negb lwhen]. erewrite lbind_ok with (a := tt) (s' := s2).
  2:{ unfold emit_name. rewrite Z.sub_0_r. erewrite lbind_ok with (a := name_) (s' := s1); [exact E2|].
      unfold lrest_at. now replace (_ && _) with true by (unfold lsize; lia). }
  erewrite lbind_ok by reflexivity. reflexivity.
Qed.

(** The whole search for functions in such a name. *)
Lemma function_parsed flags f args : plain_name f = true -> forallb arg_ok args = true ->
  Z.of_nat (length (function_code f args)) < 2 ^ 59 ->
  let name_ := function_code f args in
  let size := Z.of_nat (length name_) in
  if total_entries args <=? capacity size
  then exists s, parse_functions name_ size (ltop name_ size) 0 0 (init_lstate flags) = Ok (true, s)
    /\ l_status s = SUCCESS /\ l_pos s = size /\ o_is (lout_at 0 s) (function_text flags f args)
  else parse_functions name_ size (ltop name_ size) 0 0 (init_lstate flags) = Fail Thrown.
Proof.
  intros Hf Ha Hsz name_ size.
  assert (length name_ = length f + (3 + length (args_code args)))%nat as Hlen
    by (unfold name_, function_code; rewrite !length_app; reflexivity).
  assert (no_double_underscore (f ++ B "_") = true) as Hd.
  { destruct f as [|c w]; [discriminate Hf|]. cbn [plain_name] in Hf.
    apply andb_true_iff in Hf as [_ Hd]. exact Hd. }
  unfold parse_functions.
  replace (S (S (length name_))) with (length f + S (S (3 + length (args_code args))))%nat by lia.
  pose proof (scan name_ size (ltop name_ size) 0 0 [] false f (S (S (3 + length (args_code args)))) []
    "_" (B "_F" ++ args_code args) (init_lstate flags) eq_refl eq_refl Hd) as Es.
  cbn [length app] in Es. change (Z.of_nat 0) with 0 in Es. rewrite Es.
  destruct (function_found name_ flags f (args_code args) eq_refl Hf Hsz (S (3 + length (args_code args))) (ltop name_ size)
    ltac:(lia)) as (s & G & Ho & Hset & E). fold size in E. rewrite E.
  pose proof (fun_param_parsed name_ flags f args _ Hsz Ha (legacy_fuel name_) s
    ltac:(unfold legacy_fuel; lia) G Ho Hset) as Hp. fold size in Hp. unfold ltop.
  destruct (_ <=? _); [|apply lbind_fail; exact Hp].
  destruct Hp as (s' & Ep & Hst & Hpos & Ht). exists s'. split; [|auto].
  erewrite lbind_ok by exact Ep.
  erewrite lbind_ok; [|unfold lgets; erewrite lbind_ok by reflexivity; reflexivity].
  apply scan_end; [unfold lsize; fold size; lia | lia | exact Hst].
Qed.

Lemma legacy_function flags f args : plain_name f = true -> forallb arg_ok args = true ->
  Z.of_nat (length (function_code f args)) < 2 ^ 59 ->
  Legacy.parse (function_code f args) flags
  = if total_entries args <=? (Z.of_nat (length (function_code f args)) + 1) / 2
    then Ok (Some (function_text flags f args), None) else Fail Thrown.
Proof.
  intros Hf Ha Hsz. pose proof (function_parsed flags f args Hf Ha Hsz) as Hp.
  assert (exists c r, function_code f args = c :: r /\ (c =c "_") = false /\ f <> []) as (c & r & En & Hu & Hne).
  { destruct f as [|c w]; [discriminate Hf|]. cbn [plain_name] in Hf.
    apply andb_true_iff in Hf as [[_ Hu%negb_true_iff]%andb_true_iff _]. unfold function_code.
    do 2 eexists. split; [reflexivity|]. split; [exact Hu | discriminate]. }
  set (name_ := function_code f args) in *. cbv zeta in Hp. unfold Legacy.parse.
  set (size := Z.of_nat (length name_)) in *. unfold parse_out.
  erewrite lbind_ok by (eapply no_special; eassumption). fold (capacity size).
  destruct (_ <=? _); [|erewrite lbind_fail by exact Hp; reflexivity].
  destruct Hp as (s & E & Hst & Hpos & Ht & _). erewrite lbind_ok by exact E. cbn.
  unfold odetach. unfold content in *. destruct (buf (lout_at 0 s)) as [b|].
  - rewrite Hst. cbn. replace (l_pos s =? 0) with false by (rewrite Hpos; unfold size; rewrite En; cbn; lia).
    rewrite Ht. unfold function_text. destruct f; [contradiction|]. now destruct (hides flags).
  - exfalso. unfold function_text in Ht. destruct f; [contradiction|]. now destruct (hides flags).
Qed.

(** The count of a repeated type is missing: two numbers are read behind the name. *)
Lemma truncated_param name_ flags others depth s t n : good name_ 0 flags others s (B "N") t n ->
  show_fun_param name_ (Z.of_nat (length name_)) (legacy name_ (Z.of_nat (length name_)) depth) 0 s = Fail OutOfBounds.
Proof.
  intros G. unfold show_fun_param.
  destruct (good_emit _ _ _ _ s _ t n "(" [] G eq_refl ltac:(reflexivity)) as (s1 & E1 & G1).
  erewrite lbind_ok by exact E1.
  erewrite lbind_ok; [|unfold lgets; erewrite lbind_ok by reflexivity; reflexivity].
  pose proof (cursor_range _ _ _ (g_cursor _ _ _ _ _ _ _ _ G1)) as Hp. cbn [length list_ascii_of_string] in Hp.
  replace (l_pos s1 =? lsize name_) with false by lia.
  apply lbind_fail. cbn [fun_params_loop].
  erewrite lbind_ok by (eapply cursor_in, G1). erewrite lbind_ok by (eapply good_ok, G1). cbn [list_ascii_of_string andb negb].
  erewrite lbind_ok by (eapply cursor_peek, G1). cbn [hd list_ascii_of_string]. change ("N" =c "_") with false. cbv iota.
  cbn [negb lwhen]. erewrite lbind_ok by reflexivity. apply lbind_fail. unfold fun_param.
  erewrite lbind_ok by (eapply cursor_peek, G1). cbn [hd list_ascii_of_string].
  change ("N" =c "T") with false. change ("N" =c "N") with true. cbv iota.
  apply good_advance in G1. erewrite lbind_ok by reflexivity. set (s2 := set_lpos s1 (l_pos s1 + 1)) in *.
  erewrite lbind_ok with (a := -48) (s' := set_lpos s2 (l_pos s2 + 1)).
  2:{ unfold parse_integer. erewrite lbind_ok with (a := NUL); [reflexivity|].
      unfold lnext. erewrite lbind_ok by (eapply cursor_peek, G1). reflexivity. }
  apply lbind_fail. unfold parse_integer, lnext. do 2 apply lbind_fail.
  unfold lpeek. erewrite lbind_ok; [|unfold lgets; erewrite lbind_ok by reflexivity; reflexivity].
  unfold lname_at. cbn [l_pos set_lpos s2].
  replace (l_pos s1 + 1 + 1 <=? lsize name_) with false by lia. now rewrite andb_false_r.
Qed.

(** A truncated name is read past its end. On a function whose parameters end in the
    letter of a repeated type, without the count and the index, the decoder for g++ 2.95
    reads behind the terminator of the name. *)
Theorem legacy_truncated_overruns flags f : plain_name f = true -> hides flags = false ->
  Z.of_nat (length (f ++ B "__FN")) < 2 ^ 59 -> Legacy.parse (f ++ B "__FN") flags = Fail OutOfBounds.
Proof.
  intros Hf Hh Hsz. set (name_ := f ++ B "__FN") in *. unfold Legacy.parse. set (size := Z.of_nat (length name_)) in *.
  assert (exists c r, name_ = c :: r /\ (c =c "_") = false
    /\ no_double_underscore (f ++ B "_") = true) as (c & r & En & Hu & Hd).
  { destruct f as [|c w]; [discriminate Hf|]. cbn [plain_name] in Hf.
    apply andb_true_iff in Hf as [[_ Hu%negb_true_iff]%andb_true_iff Hd].
    do 2 eexists. split; [reflexivity|]. split; [exact Hu | exact Hd]. }
  unfold parse_out. erewrite lbind_ok by (eapply no_special; eassumption).
  cbv iota. erewrite lbind_fail; [reflexivity|]. unfold parse_functions.
  assert (length name_ = length f + 4)%nat as Hlen by (unfold name_; rewrite length_app; reflexivity).
  replace (S (S (length name_))) with (length f + 6)%nat by lia.
  pose proof (scan name_ size (ltop name_ size) 0 0 [] false f 6 [] "_" (B "_FN") (init_lstate flags)
    eq_refl eq_refl Hd) as Es.
  cbn [length app] in Es. change (Z.of_nat 0) with 0 in Es. rewrite Es.
  destruct (function_found name_ flags f (B "N") eq_refl Hf Hsz 5 (ltop name_ size) ltac:(lia))
    as (s & G & _ & _ & E). fold size in E. rewrite E. apply lbind_fail.
  unfold parse_fun_param. erewrite lbind_ok; [|unfold lgets; erewrite lbind_ok by reflexivity; reflexivity].
  rewrite (g_flags _ _ _ _ _ _ _ _ G). fold (hides flags). rewrite Hh.
  eapply truncated_param, G.
Qed.

(** C10: functions are demangled, while they have few parameters. On a function whose name
    starts with a letter, and whose parameters are letters or classes behind qualifiers,
    pointers and references, the decoder for g++ 2.95 produces the name, and the parameters
    unless they are hidden. The dictionary of types has an entry for every two characters of
    the mangled name: when the parameters need more, one each and two for a pointer to a
    pointer, an exception ends the decoder. *)
Theorem legacy_functions_decoded flags f args : plain_name f = true -> forallb arg_ok args = true ->
  Z.of_nat (length (function_code f args)) < 2 ^ 59 ->
  Legacy.parse (function_code f args) flags
  = if total_entries args <=? (Z.of_nat (length (function_code f args)) + 1) / 2
    then Ok (Some (function_text flags f args), None) else Fail Thrown.
Proof. apply legacy_function. Qed.

(** [char**], a class and a reference to it; then one parameter more than there is room for. *)
Definition sample_args : list larg :=
  [mk_larg [LPointer; LPointer] (LSimple "c"); mk_larg [] (LClass (B "Foo"));
   mk_larg [LReference; LConst] (LClass (B "Foo"))].
Definition int_args (n : nat) : list larg := repeat (mk_larg [] (LSimple "i")) n.

Lemma legacy_functions_decoded_witness :
  Legacy.parse (B "run__FPPc3FooRC3Foo") 0 = Ok (Some (B "run(char**, Foo, Foo const&)"), None)
  /\ Legacy.parse (B "f__Fiiiii") 0 = Ok (Some (B "f(int, int, int, int, int)"), None)
  /\ Legacy.parse (B "f__Fiiiiii") 0 = Fail Thrown.
Proof.
  split; [|split].
  - apply (legacy_functions_decoded 0 (B "run") sample_args); vm_compute; reflexivity.
  - apply (legacy_functions_decoded 0 (B "f") (int_args 5)); vm_compute; reflexivity.
  - apply (legacy_functions_decoded 0 (B "f") (int_args 6)); vm_compute; reflexivity.
Defined.

Lemma legacy_truncated_overruns_witness : Legacy.parse (B "main__FN") 0 = Fail OutOfBounds.
Proof. apply (legacy_truncated_overruns 0 (B "main")); vm_compute; reflexivity. Defined.
