(* ===== verification/Unmangle.v ===== *)
(** * The driver of the demanglers ([unmangle/unmangle.cpp], [unmangle/unmangle.h])

    A name is handed to the decoder of its mangling scheme. Exceptions of the decoders are
    caught here; [__cxa_demangle] of the C++ runtime is a parameter. The D demangler is the
    one of [demangle_d/], which is loaded at run time when the environment asks for it. *)
From S2P Require Import Prelude CLib DString DParser Nuts Output DecoderState Decoder LegacyState Legacy.
Local Open Scope Z_scope.

(** [UnmangleStatus] *)
Inductive UnmangleStatus : Type :=
| STATUS_SUCCESS | STATUS_BAD_ALLOC | STATUS_INVALID_NAME | STATUS_INVALID_ARGS
| STATUS_EXCEPTION | STATUS_UNKNOWN_EXCEPTION.

Definition status_of (s : dstatus) : UnmangleStatus :=
  match s with SUCCESS => STATUS_SUCCESS | INVALID_NAME => STATUS_INVALID_NAME end.

(** What a call leaves behind: the result, as many bytes of it as [*buflen] says, and
    [*status] if it is written. *)
Record reply : Type := mk_reply { r_text : option bytes; r_status : option UnmangleStatus }.

(** ** Support for D *)

(** [ZERO_D_SUPPORT], and the function that [dlopen] and [dlsym] find. *)
Record environment : Type := mk_env {
  zero_d_support : option bytes;
  libdemangle_d : option (bytes -> res (option bytes))
}.

(** The static variables. *)
Record dlang : Type := mk_dlang { once : bool; demangle_dlang : option (bytes -> res (option bytes)) }.

Definition initial_dlang : dlang := mk_dlang true None.

(** [support_dlang(force)] *)
Definition support_dlang (env : environment) (force : bool) (d : dlang) : dlang :=
  if once d || force then
    mk_dlang false
      match zero_d_support env with
      | Some var =>
          if (if list_eq_dec ascii_dec var (B "1") then true else false)
             || (if list_eq_dec ascii_dec var (B "true") then true else false)
          then libdemangle_d env else demangle_dlang d
      | None => demangle_dlang d
      end
  else d.

(** [cplus_unmangle_d] *)
Definition cplus_unmangle_d (env : environment) (d : dlang) : dlang := support_dlang env true d.

Section Driver.
(** [__cxa_demangle(mangled, NULL, buflen, status)]: the buffer, of the size that is stored in
    [*buflen], and the status. *)
Variable cxa_demangle : bytes -> option bytes * UnmangleStatus.
Variable env : environment.

(** The handlers of [bad_alloc] and of [exception]; an access outside of an object is not
    caught. *)
Definition caught (f : fault) : option UnmangleStatus :=
  match f with
  | OutOfMemory => Some STATUS_BAD_ALLOC
  | Thrown => Some STATUS_EXCEPTION
  | _ => None
  end.

(** A decoder of the C++ ABI: an exception makes the driver ask the runtime. *)
Definition with_cxa (mangled : bytes) (m : res (option bytes * dstatus)) : res reply :=
  match m with
  | Ok (t, s) => Ok (mk_reply t (Some (status_of s)))
  | Fail f =>
      match caught f with
      | Some _ => let '(t, s) := cxa_demangle mangled in Ok (mk_reply t (Some s))
      | None => Fail f
      end
  end.

(** The decoder for g++ 2.95 and the one of D: an exception yields null. *)
Definition catching (m : res reply) : res reply :=
  match m with
  | Ok r => Ok r
  | Fail f => match caught f with Some s => Ok (mk_reply None (Some s)) | None => Fail f end
  end.

Definition legacy_reply (r : option bytes * option dstatus) : reply :=
  mk_reply (fst r) (match snd r with Some s => Some (status_of s) | None => None end).

(** [_GLOBAL_] with a separator, then the kind of the symbol. *)
Definition is_global (mangled : bytes) : bool :=
  let at_ i := nth i mangled NUL in
  strncmp_at (B "_GLOBAL_") mangled 8
  && ((at_ 8%nat =c ".") || (at_ 8%nat =c "_") || (at_ 8%nat =c "$"))
  && ((at_ 9%nat =c "D") || (at_ 9%nat =c "I") || (at_ 9%nat =c "N")).

(** The text [<>] is not a result. *)
Definition is_empty_brackets (t : bytes) : bool :=
  (nth 0 t NUL =c "<") && (nth 1 t NUL =c ">").

(** The last case of the driver: g++ 2.95, then D. *)
Definition unmangle_legacy (mangled : bytes) (flags : Z) (d : dlang) : res reply * dlang :=
  match Legacy.parse mangled flags with
  | Fail f => (catching (Fail f), d)
  | Ok (Some t, s) =>
      (Ok (if is_empty_brackets t then mk_reply None (r_status (legacy_reply (Some t, s)))
           else legacy_reply (Some t, s)), d)
  | Ok (None, s) =>
      let d := support_dlang env false d in
      (match demangle_dlang d with
       | Some f =>
           catching (let* t := f mangled in
                     Ok (mk_reply t (r_status (legacy_reply (None, s)))))
       | None => Ok (legacy_reply (None, s))
       end, d)
  end.

(** [unmangle]; the name has no terminator inside, so that the size that is passed and the one
    that the decoders count are the same. *)
Definition unmangle (mangled : bytes) (flags : Z) (d : dlang) : res reply * dlang :=
  let at_ i := nth i mangled NUL in
  if (at_ 0%nat =c "_") && (at_ 1%nat =c "Z") then
    (with_cxa mangled (Decoder.parse mangled flags), d)
  else if is_global mangled then
    (if at_ 10%nat =c "_" then with_cxa mangled (Decoder.parse_global_ctor_dtor mangled flags)
     else if at_ 10%nat =c "." then
       catching (let* r := Legacy.parse_global_ctor_dtor mangled flags in Ok (legacy_reply r))
     else Ok (mk_reply None None), d)
  else unmangle_legacy mangled flags d.

(** [cplus_unmangle]: the name itself when there is no result. *)
Definition cplus_unmangle (mangled : bytes) (opts : Z) (d : dlang) : res bytes * dlang :=
  let '(r, d) := unmangle mangled opts d in
  (let* r := r in Ok (match r_text r with Some t => t | None => mangled end), d).
End Driver.
