(* ===== verification/UnmangleCorrect.v ===== *)
(** * The demanglers behind their driver

    Each mangling scheme reaches its own decoder, and what is not mangled comes back. *)
From S2P Require Import Prelude CLib DString DParser DSpec DSymbol DCorrect.
From S2P Require Import Nuts Output DecoderState Decoder DecoderRound LegacyState Legacy LegacyCorrect Unmangle.
Local Open Scope Z_scope.
#[local] Close Scope decoder_scope.
#[local] Open Scope legacy_scope.

(** ** Names that the decoder for g++ 2.95 leaves alone *)

Lemma begins_with_no name_ s r lit : cursor name_ s r -> strncmp_at r lit (length lit) = false ->
  begins_with name_ lit s = Ok (false, s).
Proof.
  intros Hc Hl. unfold begins_with.
  erewrite lbind_ok; [|unfold lgets; erewrite lbind_ok by reflexivity; reflexivity].
  erewrite lbind_ok by (eapply cursor_rest, Hc). now rewrite Hl, andb_false_r.
Qed.

(** A name that starts with a letter, or with an underscore and [D]. *)
Definition not_special (name_ : bytes) : bool :=
  match name_ with
  | c :: r => ident_start c && (negb (c =c "_") || match r with d :: _ => d =c "D" | [] => false end)
  | [] => false
  end.

Lemma special_cases_no name_ cs self flags : not_special name_ = true ->
  parse_special_cases name_ cs self 0 (init_lstate flags) = Ok (false, init_lstate flags).
Proof.
  intros Hn. destruct name_ as [|c r] eqn:E; [discriminate|]. rewrite <- E in *.
  pose proof (start_good name_ flags) as G. cbn [not_special] in Hn. rewrite E in Hn.
  apply andb_true_iff in Hn as [_ Hn]. destruct (c =c "_") eqn:Hc; [|eapply no_special; eassumption].
  destruct r as [|d r]; [discriminate|]. apply Ascii.eqb_eq in Hc as ->. apply Ascii.eqb_eq in Hn as ->.
  unfold parse_special_cases. erewrite lbind_ok by (eapply cursor_peek, G).
  replace (hd NUL name_) with "_"%char by now rewrite E. change (negb ("_" =c "_")) with false. cbv iota.
  erewrite lbind_ok; [|unfold lgets; erewrite lbind_ok by reflexivity; reflexivity].
  erewrite lbind_ok; [|apply (cursor_at _ _ name_ 1); [apply G | rewrite E; cbn; lia]].
  replace (nth (Z.to_nat 1) name_ NUL) with "D"%char by now rewrite E. change (maybe_name "D") with false. cbv iota.
  repeat (erewrite lbind_ok by (eapply begins_with_no; [apply G | rewrite E; reflexivity]); cbv iota).
  reflexivity.
Qed.

Lemma legacy_rejects name_ flags : not_special name_ = true -> no_double_underscore name_ = true ->
  Z.of_nat (length name_) < 2 ^ 59 -> Legacy.parse name_ flags = Ok (None, Some SUCCESS).
Proof.
  intros Hn Hd Hsz. unfold Legacy.parse. set (size := Z.of_nat (length name_)) in *.
  unfold parse_out. erewrite lbind_ok by (now apply special_cases_no).
  destruct (exists_last (l := name_)) as (w & c & E); [intros ->; discriminate Hn|].
  assert (length name_ = S (length w)) as Hl by (rewrite E, length_app; cbn; lia).
  erewrite lbind_ok with (a := false) (s' := init_lstate flags).
  2:{ unfold parse_functions. replace (S (S (length name_))) with (length w + 3)%nat by lia.
      pose proof (scan name_ size (ltop name_ size) 0 0 [] false w 3 [] c [] (init_lstate flags) E eq_refl) as Es.
      rewrite <- E in Es. specialize (Es Hd). cbn [length app] in Es. change (Z.of_nat 0) with 0 in Es. rewrite Es.
      apply scan_end; [unfold lsize; lia | lia | reflexivity]. }
  cbv iota. erewrite lbind_ok; [|unfold lgets; erewrite lbind_ok by reflexivity; reflexivity].
  cbn [l_pos init_lstate]. replace (0 <? lsize name_) with true by (unfold lsize; lia). cbn [lwhen].
  destruct name_ as [|x r] eqn:En; [discriminate Hn|]. rewrite <- En in *.
  assert ((x =c ">") = false) as Hx.
  { cbn [not_special] in Hn. rewrite En in Hn. apply andb_true_iff in Hn as [Hi _]. now apply ident_start_other. }
  destruct (good_write name_ 0 flags (fun _ => new_output) (init_lstate flags) name_ [] 0
    (fun o => oappend o name_ (lsize name_ - 0)) name_ (start_good name_ flags)) as (s1 & E1 & G1).
  { intros o Ho. destruct (oappend_is o [] x r (lsize name_ - 0) Ho Hx) as (o' & Eo & Ho').
    - unfold lsize. rewrite En. cbn [length]. lia.
    - unfold lsize, NPOS. subst size. rewrite <- En in Hsz. lia.
    - exists o'. rewrite <- En in Eo, Ho'. split; [exact Eo|].
      rewrite Z.sub_0_r in Ho'. unfold lsize in Ho'. now rewrite Nat2Z.id, firstn_all in Ho'. }
  erewrite lbind_ok with (a := tt) (s' := s1).
  - cbn. now rewrite (g_status _ _ _ _ _ _ _ _ G1).
  - unfold emit_name. erewrite lbind_ok; [exact E1|]. unfold lrest_at.
    now replace (_ && _) with true by (unfold lsize; lia).
Qed.

(** ** The driver *)

(** A name that is neither of the C++ ABI nor of a global constructor. *)
Lemma unmangle_other cxa env name_ flags d : not_special name_ = true ->
  unmangle cxa env name_ flags d = unmangle_legacy env name_ flags d.
Proof.
  intros Hn. unfold unmangle. destruct name_ as [|c r]; [discriminate|]. cbn [not_special] in Hn.
  apply andb_true_iff in Hn as [_ Hn]. cbn [nth].
  destruct (c =c "_") eqn:Hc; cbn [andb negb orb] in *.
  - apply Ascii.eqb_eq in Hc as ->. destruct r as [|e r]; [discriminate|]. apply Ascii.eqb_eq in Hn as ->. reflexivity.
  - replace (is_global (c :: r)) with false; [reflexivity|]. unfold is_global. symmetry.
    apply andb_false_iff. left. apply andb_false_iff. left.
    cbn [strncmp_at list_ascii_of_string]. rewrite Ascii.eqb_sym, Hc. reflexivity.
Qed.

Lemma plain_not_special f r : plain_name f = true -> not_special (f ++ r) = true.
Proof.
  destruct f as [|c w]; [discriminate|]. cbn. intros [[-> ->]%andb_true_iff _]%andb_true_iff. reflexivity.
Qed.

Section Driver.
Variables (cxa : bytes -> option bytes * UnmangleStatus) (env : environment) (d : dlang).

(** The D demangler, if the driver has one, is that of [demangle_d/]. *)
Definition dlang_ok : Prop :=
  demangle_dlang (support_dlang env false d) = None
  \/ demangle_dlang (support_dlang env false d) = Some (demangle_d (T:=bytes)).

(** C18: the driver inverts the three mangling schemes. For functions, constructors and
    destructors in nested scopes with parameters of builtin types (C++ ABI), for functions
    with parameters of simple, class, pointer and reference types whose dictionary entries fit
    (g++ 2.95), and, if the D demangler is loaded, for chains of D symbols whose mangled name
    has no two underscores in a row, [cplus_unmangle] gives the text of the declaration.
    Other D names may be taken for names of g++ 2.95 ([double_underscore_taken]). *)
Theorem driver_inverts_manglings :
  (forall f, wf_function f = true -> size_ (mangle_function f) < 2 ^ 60 ->
     fst (cplus_unmangle cxa env (mangle_function f) 0 d) = Ok (show_function f))
  /\ (forall flags f args, plain_name f = true -> forallb arg_ok args = true ->
     Z.of_nat (length (function_code f args)) < 2 ^ 59 ->
     total_entries args <= (Z.of_nat (length (function_code f args)) + 1) / 2 ->
     fst (cplus_unmangle cxa env (function_code f args) flags d) = Ok (function_text flags f args))
  /\ (forall flags outer s, wf_name outer s = true -> no_double_underscore (mangle_name outer s) = true ->
     Z.of_nat (length (mangle_name outer s)) < 2 ^ 59 ->
     demangle_dlang (support_dlang env false d) = Some (demangle_d (T:=bytes)) ->
     fst (cplus_unmangle cxa env (mangle_name outer s) flags d) = Ok (show_name outer s)).
Proof.
  split; [|split].
  - intros f Hw Hs. unfold cplus_unmangle, unmangle.
    assert (exists r, mangle_function f = "_"%char :: "Z"%char :: r) as (r & E) by (eexists; reflexivity).
    rewrite E at 1 2. cbn [nth]. change (("_" =c "_") && ("Z" =c "Z")) with true. cbv iota.
    now rewrite (function_decoded f Hw Hs).
  - intros flags f args Hf Ha Hs Hc. unfold cplus_unmangle.
    rewrite unmangle_other by (now apply plain_not_special). unfold unmangle_legacy.
    rewrite legacy_function by assumption.
    replace (_ <=? _) with true by lia. cbn [fst bind].
    assert (is_empty_brackets (function_text flags f args) = false) as ->; [|reflexivity].
    destruct f as [|c w]; [discriminate|]. cbn in Hf. apply andb_true_iff in Hf as [[Hi _]%andb_true_iff _].
    assert (is_empty_brackets (c :: w ++ args_text args) = false /\ is_empty_brackets (c :: w) = false) as [H1 H2].
    { unfold is_empty_brackets. cbn [nth].
      destruct c as [[] [] [] [] [] [] [] []]; cbn in Hi; try discriminate Hi; auto. }
    unfold function_text. now destruct (hides flags).
  - intros flags outer s Hw Hd Hs Hlib. unfold cplus_unmangle.
    rewrite unmangle_other by reflexivity. unfold unmangle_legacy.
    rewrite legacy_rejects by (reflexivity || assumption). cbn [fst]. rewrite Hlib.
    rewrite (demangle_mangled outer s Hw). reflexivity.
Qed.

(** What is not mangled comes back. A name that starts with a letter and has no two
    underscores in a row is returned by [cplus_unmangle] as it is, though [unmangle] reports
    success with its null result; and so is the name of a function with more parameters than
    the dictionary has room for, whose exception is reported. *)
Theorem driver_returns_others :
  dlang_ok ->
  (forall flags name_, not_special name_ = true -> hd NUL name_ <> "_"%char ->
     no_double_underscore name_ = true -> Z.of_nat (length name_) < 2 ^ 59 ->
     fst (unmangle cxa env name_ flags d) = Ok (mk_reply None (Some STATUS_SUCCESS))
     /\ fst (cplus_unmangle cxa env name_ flags d) = Ok name_)
  /\ (forall flags f args, plain_name f = true -> forallb arg_ok args = true ->
     Z.of_nat (length (function_code f args)) < 2 ^ 59 ->
     (Z.of_nat (length (function_code f args)) + 1) / 2 < total_entries args ->
     fst (unmangle cxa env (function_code f args) flags d) = Ok (mk_reply None (Some STATUS_EXCEPTION))
     /\ fst (cplus_unmangle cxa env (function_code f args) flags d) = Ok (function_code f args)).
Proof.
  intros Hlib. split.
  - intros flags name_ Hn Hu Hd Hs.
    assert (fst (unmangle cxa env name_ flags d) = Ok (mk_reply None (Some STATUS_SUCCESS))) as E.
    { rewrite unmangle_other by assumption. unfold unmangle_legacy. rewrite legacy_rejects by assumption. cbn [fst].
      destruct Hlib as [-> | ->]; [reflexivity|].
      assert (demangle_d (T:=bytes) name_ = Ok None) as ->; [|reflexivity].
      unfold demangle_d. rewrite starts_symbol_prefix.
      assert (d_prefix name_ = false) as ->; [|reflexivity].
      destruct name_ as [|a [|b [|c r]]]; try reflexivity. cbn in Hu |- *.
      apply Ascii.eqb_neq in Hu. now rewrite Hu. }
    split; [exact E|]. unfold cplus_unmangle. destruct (unmangle cxa env name_ flags d). cbn in E |- *. now rewrite E.
  - intros flags f args Hf Ha Hs Hc.
    assert (fst (unmangle cxa env (function_code f args) flags d) = Ok (mk_reply None (Some STATUS_EXCEPTION))) as E.
    { rewrite unmangle_other by (now apply plain_not_special). unfold unmangle_legacy.
      rewrite legacy_function by assumption. now replace (_ <=? _) with false by lia. }
    split; [exact E|]. unfold cplus_unmangle. destruct (unmangle _ _ _ _ _). cbn in E |- *. now rewrite E.
Qed.
End Driver.

(** A runtime that demangles nothing, and an environment that asks for D. *)
Definition no_cxa (s : bytes) : option bytes * UnmangleStatus := (None, STATUS_INVALID_NAME).
Definition d_env : environment := mk_env (Some (B "1")) (Some (demangle_d (T:=bytes))).

Lemma driver_inverts_manglings_witness :
  (mangle_function sample_function = B "_ZN3Foo3BarD1Eic"
   /\ fst (cplus_unmangle no_cxa d_env (mangle_function sample_function) 0 initial_dlang)
      = Ok (B "Foo::Bar::~Bar(int, char)"))
  /\ (function_code (B "run") sample_args = B "run__FPPc3FooRC3Foo"
      /\ fst (cplus_unmangle no_cxa d_env (function_code (B "run") sample_args) 0 initial_dlang)
         = Ok (B "run(char**, Foo, Foo const&)"))
  /\ (mangle_name [] toUTF8 = B "_D3std3utf6toUTF8FG4awZAa"
      /\ fst (cplus_unmangle no_cxa d_env (mangle_name [] toUTF8) 0 initial_dlang)
         = Ok (B "char[] std.utf.toUTF8(char[4], dchar)")).
Proof.
  destruct (driver_inverts_manglings no_cxa d_env initial_dlang) as (H1 & H2 & H3).
  split; [|split]; (split; [vm_compute; reflexivity|]).
  - rewrite H1; [vm_compute; reflexivity | vm_compute; reflexivity | vm_compute; reflexivity].
  - rewrite H2; [vm_compute; reflexivity | vm_compute; reflexivity | vm_compute; reflexivity
      | vm_compute; reflexivity | vm_compute; discriminate].
  - rewrite H3; [vm_compute; reflexivity | vm_compute; reflexivity | vm_compute; reflexivity
      | vm_compute; reflexivity | reflexivity].
Defined.

(** The variable __bi in the module a of a D program is decoded as a name of g++ 2.95. *)
Example double_underscore_taken :
  fst (cplus_unmangle no_cxa d_env (B "_D5a__1bi") 0 initial_dlang) = Ok (B "b::_D5a(int)").
Proof. vm_compute. reflexivity. Qed.

Lemma driver_returns_others_witness :
  fst (cplus_unmangle no_cxa d_env (B "main") 0 initial_dlang) = Ok (B "main")
  /\ function_code (B "f") (int_args 6) = B "f__Fiiiiii"
  /\ fst (unmangle no_cxa d_env (function_code (B "f") (int_args 6)) 0 initial_dlang)
     = Ok (mk_reply None (Some STATUS_EXCEPTION)).
Proof.
  destruct (driver_returns_others no_cxa d_env initial_dlang) as (H1 & H2); [right; reflexivity|].
  split; [|split].
  - apply (H1 0 (B "main")); [reflexivity | discriminate | reflexivity | reflexivity].
  - vm_compute; reflexivity.
  - apply (H2 0 (B "f") (int_args 6)); vm_compute; reflexivity.
Defined.
