(* ===== verification/Encoder.v ===== *)
(** * The partial encoder

    [unmangle/encoder.cpp]: a qualified C++ name is broken into components and partially
    mangled, to be used as a key in a sorted collection of mangled names. Components are
    owned by the vector [components_]; a pointer to one is its index there. As in the build
    of the library, [AGGRESSIVE_MANGLE] is not defined. *)
From S2P Require Import Prelude CLib.
Local Open Scope Z_scope.

Inductive Scheme : Type := kV3Abi | kOldGcc.

Inductive ComponentType : Type := kNormal | kCtor | kDtor | kTemplateArg.

Record Component : Type := mk_component {
  c_name : bytes;
  c_children : list nat;
  c_parent : option nat;
  c_type : ComponentType;
  c_isTemplate : bool
}.

Record PartialEncoder : Type := mk_encoder {
  scheme_ : Scheme;
  components_ : list Component;
  hasTemplate_ : bool;
  depth_ : Z
}.

Definition new_component (name : bytes) (type : ComponentType) : Component :=
  mk_component name [] None type false.

(** [clear] *)
Definition clear_encoder (scheme : Scheme) : PartialEncoder := mk_encoder scheme [] false 0.

Definition is_template_arg (t : ComponentType) : bool :=
  match t with kTemplateArg => true | _ => false end.
Definition is_special (t : ComponentType) : bool :=
  match t with kCtor | kDtor => true | _ => false end.
Definition is_old_gcc (s : Scheme) : bool := match s with kOldGcc => true | kV3Abi => false end.

Definition no_component : Component := new_component [] kNormal.
Definition component (e : PartialEncoder) (i : nat) : Component := nth i (components_ e) no_component.

Fixpoint update_at {A} (l : list A) (i : nat) (f : A -> A) : list A :=
  match l, i with
  | [], _ => []
  | a :: l, O => f a :: l
  | a :: l, S i => a :: update_at l i f
  end.

Definition on_component (i : nat) (f : Component -> Component) (e : PartialEncoder) : PartialEncoder :=
  mk_encoder (scheme_ e) (update_at (components_ e) i f) (hasTemplate_ e) (depth_ e).

Definition set_template (c : Component) : Component :=
  mk_component (c_name c) (c_children c) (c_parent c) (c_type c) true.

(** The part of [add_child] that changes the parent. *)
Definition with_child (i : nat) (c : Component) : Component :=
  mk_component (c_name c) (c_children c ++ [i]) (c_parent c) (c_type c) (c_isTemplate c).

(** [parent->add_child(comp)] and [components_.push_back(comp)]; the index of the component. *)
Definition push_component (c : Component) (parent : option nat) (e : PartialEncoder)
  : nat * PartialEncoder :=
  let i := length (components_ e) in
  let c := mk_component (c_name c) (c_children c) parent (c_type c) (c_isTemplate c) in
  let e := match parent with Some p => on_component p (with_child i) e | None => e end in
  (i, mk_encoder (scheme_ e) (components_ e ++ [c]) (hasTemplate_ e) (depth_ e)).

(** ** Breaking the name down *)

Section Symbol.
Variable symbol : bytes.

Definition char_at (i : nat) : ascii := nth i symbol NUL.

(** [string(first, last)] *)
Definition range (first last : nat) : bytes := firstn (last - first) (skipn first symbol).

(** The ancestor that has no parent; a parent comes before its children in the vector. *)
Fixpoint top_ancestor (fuel : nat) (e : PartialEncoder) (i : nat) : nat :=
  match fuel, c_parent (component e i) with
  | S fuel, Some p => top_ancestor fuel e p
  | _, _ => i
  end.

(** Is the name that of the last top-level component? *)
Definition is_ctor_name (e : PartialEncoder) (parent : option nat) (name : bytes) : bool :=
  match components_ e with
  | [] => false
  | _ =>
      match parent with Some p => negb (is_template_arg (c_type (component e p))) | None => true end
      && (let prev := top_ancestor (length (components_ e)) e (pred (length (components_ e))) in
          if list_eq_dec ascii_dec (c_name (component e prev)) name then true else false)
  end.

Definition add_component (first last : nat) (parent : option nat) (e : PartialEncoder)
  : option nat * PartialEncoder :=
  if (last <=? first)%nat then (None, e)
  else
    let first := if (char_at first =c ":") || (char_at first =c " ") then S first else first in
    let '(name, type) :=
      if char_at first =c "~" then
        (if is_old_gcc (scheme_ e) then range first last else B "D1", kDtor)
      else
        let name := range first last in
        if is_ctor_name e parent name then
          (if is_old_gcc (scheme_ e) then [] else B "C1", kCtor)
        else (name, kNormal) in
    let e := match parent with
             | Some _ => e
             | None => mk_encoder (scheme_ e) (components_ e) (hasTemplate_ e) (depth_ e + 1)
             end in
    let '(i, e) := push_component (new_component name type) parent e in
    (Some i, e).

(** [add_template_arg]: the new node is also pushed on the stack. *)
Definition add_template_arg (templateStack : list nat) (parent : nat) (e : PartialEncoder)
  : nat * list nat * PartialEncoder :=
  let '(i, e) := push_component (new_component [] kTemplateArg) (Some parent) e in
  (i, i :: templateStack, e).

(** [templateStack.pop()]; an empty stack has nothing to remove. *)
Definition pop (templateStack : list nat) : res (list nat) :=
  match templateStack with [] => Fail OutOfBounds | _ :: s => Ok s end.

(** The variables of the loop. *)
Record scan : Type := mk_scan {
  enc : PartialEncoder;
  templateStack : list nat;
  parent_ : option nat;
  name_ : nat
}.

(** The loop that skips [>] and blanks at [name]. *)
Fixpoint skip_closing (s : bytes) (name : nat) : nat :=
  match s with
  | c :: s => if (c =c ">") || (c =c " ") then skip_closing s (S name) else name
  | [] => name
  end.

(** One character; [None] when [tokenize] returns. *)
Definition token_step (p : nat) (v : scan) : res (scan + PartialEncoder) :=
  let add first last v :=
    mk_scan (snd (add_component first last (parent_ v) (enc v))) (templateStack v) (parent_ v) (name_ v) in
  let from name v := mk_scan (enc v) (templateStack v) (parent_ v) name in
  let c := char_at p in
  let name := name_ v in
  if c =c ":" then
    let v := if (name <? p)%nat then add name p v else v in
    Ok (inl (from (if char_at (S p) =c ":" then S p else p) v))
  else if (c =c "*") || (c =c "&") then
    Ok (inl (from (S p) (add p (S p) (add name p v))))
  else if c =c "<" then
    match add_component name p (parent_ v) (enc v) with
    | (Some comp, e) =>
        let e := on_component comp set_template e in
        let '(arg, stack, e) := add_template_arg (comp :: templateStack v) comp e in
        let e := mk_encoder (scheme_ e) (components_ e) true (depth_ e) in
        Ok (inl (mk_scan e stack (Some arg) (S p)))
    | (None, e) => Ok (inl (mk_scan e (templateStack v) (parent_ v) name))
    end
  else if c =c ">" then
    let name := skip_closing (skipn name symbol) name in
    let v := if (name <? p)%nat then add name p v else v in
    let* stack := pop (templateStack v) in
    let* stack := pop stack in
    Ok (inl (mk_scan (enc v) stack (hd_error stack) (S p)))
  else if c =c "," then
    let v := from (S p) (add name p v) in
    if hasTemplate_ (enc v) then
      let* stack := pop (templateStack v) in
      match stack with
      | [] => Fail OutOfBounds
      | top :: _ =>
          let '(arg, stack, e) := add_template_arg stack top (enc v) in
          Ok (inl (mk_scan e stack (Some arg) (name_ v)))
      end
    else Ok (inl v)
  else if c =c " " then
    let d := char_at name in
    let v := if negb ((d =c " ") || (d =c ",") || (d =c ">")) then add name p v else v in
    Ok (inl (from (S p) v))
  else if c =c "(" then
    Ok (inr (enc (if (name <? p)%nat then add name p v else v)))
  else Ok (inl v).

(** The loop over the characters from [p] to the terminator. *)
Fixpoint tokenize_loop (n : nat) (p : nat) (v : scan) : res PartialEncoder :=
  match n with
  | O =>
      Ok (if char_at (name_ v) =c NUL then enc v
          else snd (add_component (name_ v) p (parent_ v) (enc v)))
  | S n =>
      let* r := token_step p v in
      match r with inl v => tokenize_loop n (S p) v | inr e => Ok e end
  end.

Definition tokenize (e : PartialEncoder) : res PartialEncoder :=
  tokenize_loop (length symbol) 0 (mk_scan e [] None 0).
End Symbol.

(** ** Encoding the components *)

Definition builtin_subst : list (bytes * bytes) :=
  [ (B "__float128", B "g"); (B "char", B "c"); (B "double", B "d"); (B "float", B "f");
    (B "int", B "i"); (B "std", B "St"); (B "allocator", B "Sa"); (B "basic_string", B "Sb");
    (B "basic_string<char, char_traits<char>, allocator<char> >", B "Ss");
    (B "basic_istream<char, char_traits<char> >", B "Si");
    (B "basic_ostream<char, char_traits<char> >", B "So");
    (B "basic_iostream<char, char_traits<char> >", B "Sd") ].

Definition bytes_eqb (a b : bytes) : bool := if list_eq_dec ascii_dec a b then true else false.

Definition find_subst (name : bytes) : option bytes :=
  option_map snd (find (fun kv => bytes_eqb (fst kv) name) builtin_subst).

(** What [strtol(name, &p, 0)] leaves at [p]. *)
Definition strtol_0_end (s : bytes) : bytes := snd (strtol_0 s).

Definition encode_name (name : bytes) : bytes :=
  if isdigit (hd NUL name) then
    if hd NUL (strtol_0_end name) =c "." then B "Ld" ++ name ++ B "E" else B "Li" ++ name ++ B "E"
  else if bytes_eqb name (B "true") then B "Lb1E"
  else if bytes_eqb name (B "false") then B "Lb0E"
  else match find_subst name with
       | Some t => t
       | None => dec (Z.of_nat (length name)) ++ name
       end.

(** The variables of the loop over the children: what was written, [prevEnc] and [cvQual]. *)
Record encoding : Type := mk_encoding { outs : bytes; prevEnc : bytes; cvQual : bool }.

(** [encode]: whether all was written, and what was. A child comes behind its parent in the
    vector, so that the number of components bounds the depth. *)
Fixpoint encode (fuel : nat) (e : PartialEncoder) (i : nat) : bool * bytes :=
  match fuel with
  | O => (true, [])
  | S fuel =>
      let comp := component e i in
      let arg := is_template_arg (c_type comp) in
      let out := if is_special (c_type comp) then c_name comp
                 else if arg then [] else encode_name (c_name comp) in
      match c_children comp with
      | [] => (true, out)
      | children =>
          if negb arg then (false, out ++ B "I")
          else
            let child (acc : bool * encoding) (j : nat) :=
              let '(ok, v) := acc in
              if negb ok then acc
              else
                let name := c_name (component e j) in
                if bytes_eqb name (B "const") then
                  (true, mk_encoding (outs v)
                           ((if is_old_gcc (scheme_ e) then B "C" else B "K") ++ prevEnc v) true)
                else if bytes_eqb name (B "volatile") then
                  (true, mk_encoding (outs v) (B "V" ++ prevEnc v) true)
                else if bytes_eqb name (B "*") then (true, mk_encoding (outs v) (B "P" ++ prevEnc v) false)
                else if bytes_eqb name (B "&") then (true, mk_encoding (outs v) (B "R" ++ prevEnc v) false)
                else
                  let v := if cvQual v then v else mk_encoding (outs v ++ prevEnc v) [] false in
                  let '(ok, t) := encode fuel e j in
                  if ok then (true, mk_encoding (outs v) (prevEnc v ++ t) (cvQual v)) else (false, v) in
            let '(ok, v) := fold_left child children (true, mk_encoding out [] false) in
            if ok then (true, outs v ++ prevEnc v) else (false, outs v)
      end
  end.

(** ** The key *)

Definition is_operator (name : bytes) : bool := strncmp_at name (B "operator") 8.

(** The loop over the top-level components: what is written, whether [run] returns at once,
    and the final depth. *)
Fixpoint v3_loop (e : PartialEncoder) (n i : nat) (mangled : bytes) (depth : Z) : bytes * bool * Z :=
  match n with
  | O => (mangled, false, depth)
  | S n =>
      let comp := component e i in
      match c_parent comp with
      | Some _ => v3_loop e n (S i) mangled depth
      | None =>
          if is_operator (c_name comp) then (mangled, false, 1)
          else
            let mangled := mangled ++ snd (encode (length (components_ e)) e i) in
            if c_isTemplate comp then (mangled, true, depth)
            else v3_loop e n (S i) mangled depth
      end
  end.

Definition run_v3 (e : PartialEncoder) : bytes * Z :=
  let mangled := B "_Z" ++ (if 1 <? depth_ e then B "N" else []) in
  let '(mangled, stop, depth) := v3_loop e (length (components_ e)) 0 mangled (depth_ e) in
  (if negb stop && (1 <? depth) then mangled ++ B "E" else mangled, depth).

(** The last top-level component, counted from one; the first component is one. *)
Fixpoint last_top (e : PartialEncoder) (n : nat) : nat :=
  match n with
  | O => O
  | S m => match c_parent (component e m) with None => n | Some _ => last_top e m end
  end.

Definition run_old (qual : bytes) (e : PartialEncoder) : bytes :=
  match last_top e (length (components_ e)) with
  | O => []
  | S m =>
      c_name (component e m) ++
      if (0 <? m)%nat then
        let klass := component e 0 in
        B "__" ++ qual
        ++ (if 2 <? depth_ e then
              B "Q" ++ (if 10 <? depth_ e then B "_" else []) ++ dec (depth_ e - 1)
            else [])
        ++ (if c_isTemplate klass then B "t" else [])
        ++ dec (Z.of_nat (length (c_name klass))) ++ c_name klass
        ++ (if c_isTemplate klass then dec (Z.of_nat (length (c_children klass))) else [])
      else []
  end.

(** [run]: the key, [has_template()] and [depth()]. *)
Definition run (scheme : Scheme) (symbol qual : bytes) : res (bytes * bool * Z) :=
  let* e := tokenize symbol (clear_encoder scheme) in
  match scheme with
  | kV3Abi => let '(key, depth) := run_v3 e in Ok (key, hasTemplate_ e, depth)
  | kOldGcc => Ok (run_old qual e, hasTemplate_ e, depth_ e)
  end.
