(* ===== verification/EncoderCorrect.v ===== *)
(** * The keys of the partial encoder

    [encoder.h] promises that the key of a name is a prefix of the mangled names that belong
    to it, so that a range of a sorted collection holds them all. *)
From S2P Require Import Prelude CLib DString Nuts Output DecoderState LegacyState Legacy.
From S2P Require Import Decoder DecoderRound Encoder.
Local Open Scope Z_scope.

(** ** Encoders that hold top-level components only *)

Definition top (nt : bytes * ComponentType) : Component := new_component (fst nt) (snd nt).

Definition tops (s : Scheme) (l : list (bytes * ComponentType)) : PartialEncoder :=
  mk_encoder s (map top l) false (Z.of_nat (length l)).

(** The component that a piece of the name becomes behind [l]. *)
Definition classify (s : Scheme) (l : list (bytes * ComponentType)) (y : bytes)
  : bytes * ComponentType :=
  if hd NUL y =c "~" then (if is_old_gcc s then y else B "D1", kDtor)
  else
    match l with
    | [] => (y, kNormal)
    | _ => if bytes_eqb (fst (last l ([], kNormal))) y then (if is_old_gcc s then [] else B "C1", kCtor)
           else (y, kNormal)
    end.

Fixpoint classify_all (s : Scheme) (l : list (bytes * ComponentType)) (ys : list bytes)
  : list (bytes * ComponentType) :=
  match ys with
  | [] => l
  | y :: ys => classify_all s (l ++ [classify s l y]) ys
  end.

Lemma component_tops s l i :
  component (tops s l) i = if (i <? length l)%nat then top (nth i l ([], kNormal)) else no_component.
Proof.
  unfold component, tops. cbn [components_]. destruct (i <? length l)%nat eqn:E.
  - rewrite nth_indep with (d' := top ([], kNormal)) by (rewrite length_map; lia). apply map_nth.
  - apply nth_overflow. rewrite length_map. lia.
Qed.

Lemma top_ancestor_tops fuel s l i : top_ancestor fuel (tops s l) i = i.
Proof.
  destruct fuel; cbn [top_ancestor]; [reflexivity|]. rewrite component_tops.
  now destruct (i <? length l)%nat.
Qed.

Lemma last_nth {A} (l : list A) d : last l d = nth (pred (length l)) l d.
Proof. induction l as [|a [|b l] IH]; [reflexivity..|]. exact IH. Qed.

Lemma is_ctor_name_tops s l y : is_ctor_name (tops s l) None y
  = match l with [] => false | _ => bytes_eqb (fst (last l ([], kNormal))) y end.
Proof.
  unfold is_ctor_name. rewrite top_ancestor_tops. cbn [andb]. rewrite component_tops.
  cbn [components_ tops]. rewrite length_map. unfold bytes_eqb. rewrite last_nth.
  destruct l as [|a l]; [reflexivity|]. cbn [map].
  replace (_ <? _)%nat with true by (cbn; lia). reflexivity.
Qed.

(** ** Positions in a text *)

Lemma char_at_app pre c post : char_at (pre ++ c :: post) (length pre) = c.
Proof. apply nth_middle. Qed.

Lemma range_app pre y post : range (pre ++ y ++ post) (length pre) (length pre + length y) = y.
Proof.
  unfold range. rewrite skipn_app, skipn_all, Nat.sub_diag. cbn [app skipn].
  replace (length pre + length y - length pre)%nat with (length y + 0)%nat by lia.
  rewrite firstn_app_2, firstn_O, app_nil_r. reflexivity.
Qed.

(** A piece of a qualified name: an identifier, or a destructor's name. *)
Definition wf_piece (y : bytes) : bool :=
  negb (length y =? 0)%nat && forallb (fun c => ident_char c || (c =c "~")) y.

Lemma piece_char c : ident_char c || (c =c "~") = true ->
  (c =c ":") = false /\ (c =c " ") = false /\ (c =c "*") = false /\ (c =c "&") = false
  /\ (c =c "<") = false /\ (c =c ">") = false /\ (c =c ",") = false /\ (c =c "(") = false
  /\ (c =c NUL) = false.
Proof. destruct c as [[] [] [] [] [] [] [] []]; vm_compute; intuition discriminate. Qed.

(** [name] points at the piece, or at the colon in front of it. *)
Definition starts (symbol pre : bytes) (name : nat) : Prop :=
  name = length pre \/ S name = length pre /\ char_at symbol name = ":"%char.

Lemma add_piece s l symbol pre y post name :
  symbol = pre ++ y ++ post -> wf_piece y = true -> starts symbol pre name ->
  add_component symbol name (length pre + length y) None (tops s l)
  = (Some (length l), tops s (l ++ [classify s l y])).
Proof.
  intros E Hy Hn. unfold wf_piece in Hy. destruct y as [|c y]; [discriminate|]. cbn in Hy.
  apply andb_true_iff in Hy as [Hc Hy]. destruct (piece_char c Hc) as (Hcol & Hsp & _).
  assert (char_at symbol (length pre) = c) as Hat by (rewrite E; apply char_at_app).
  unfold add_component.
  replace (_ <=? _)%nat with false by (destruct Hn as [|[]]; cbn; lia).
  assert ((if (char_at symbol name =c ":") || (char_at symbol name =c " ") then S name else name) = length pre) as ->.
  { destruct Hn as [-> | [<- ->]]; [|reflexivity]. now rewrite Hat, Hcol, Hsp. }
  assert (range symbol (length pre) (length pre + length (c :: y)) = c :: y) as ->
    by (rewrite E; apply range_app).
  rewrite Hat, is_ctor_name_tops. cbn [scheme_ tops components_ hasTemplate_ depth_].
  unfold classify. cbn [hd]. unfold push_component, tops. cbn.
  rewrite length_map, length_app, map_app.
  destruct (c =c "~"); [|destruct l as [|a l]; [|destruct (bytes_eqb _ _)]];
    cbn; do 2 f_equal; cbn; f_equal; lia.
Qed.

(** ** Breaking down a qualified name *)

Lemma token_step_piece symbol p v : ident_char (char_at symbol p) || (char_at symbol p =c "~") = true ->
  token_step symbol p v = Ok (inl v).
Proof.
  intros H. destruct (piece_char _ H) as (H1 & H2 & H3 & H4 & H5 & H6 & H7 & H8 & _).
  unfold token_step. now rewrite H1, H2, H3, H4, H5, H6, H7, H8.
Qed.

Lemma tokenize_piece symbol y pre post n v : symbol = pre ++ y ++ post ->
  forallb (fun c => ident_char c || (c =c "~")) y = true ->
  tokenize_loop symbol (length y + n) (length pre) v = tokenize_loop symbol n (length pre + length y) v.
Proof.
  revert pre. induction y as [|c y IH]; intros pre E Hy; cbn [length]; [now rewrite Nat.add_0_r|].
  cbn [forallb] in Hy. apply andb_true_iff in Hy as [Hc Hy]. cbn [Nat.add tokenize_loop app] in *.
  rewrite token_step_piece by (rewrite E, char_at_app; exact Hc). cbn [bind].
  replace (S (length pre)) with (length (pre ++ [c])) by (rewrite length_app; cbn; lia).
  rewrite (IH (pre ++ [c])); [|now rewrite <- app_assoc|exact Hy].
  f_equal. rewrite length_app. cbn. lia.
Qed.

Definition sep (y : bytes) : bytes := B "::" ++ y.

(** What follows the qualified name: nothing, or the parameters. *)
Definition tail_ok (tail : bytes) : Prop := tail = [] \/ exists r, tail = "("%char :: r.

(** A colon ends the piece in front of it, if there is one. *)
Lemma token_step_colon symbol p e stack parent name : char_at symbol p = ":"%char ->
  token_step symbol p (mk_scan e stack parent name)
  = Ok (inl (mk_scan (if (name <? p)%nat then snd (add_component symbol name p parent e) else e)
               stack parent (if char_at symbol (S p) =c ":" then S p else p))).
Proof. intros H. unfold token_step. rewrite H. cbn [name_]. now destruct (name <? p)%nat. Qed.

Lemma tokenize_colons s l symbol pre y post n name :
  symbol = pre ++ y ++ B "::" ++ post -> wf_piece y = true -> wf_piece (firstn 1 post) = true ->
  starts symbol pre name ->
  tokenize_loop symbol (S (S n)) (length pre + length y) (mk_scan (tops s l) [] None name)
  = tokenize_loop symbol n (length pre + length y + 2)
      (mk_scan (tops s (l ++ [classify s l y])) [] None (length pre + length y + 1)).
Proof.
  intros E Hy Hz Hn. cbn [tokenize_loop].
  assert (char_at symbol (length pre + length y) = ":"%char) as H0.
  { rewrite E, app_assoc, <- length_app. apply char_at_app. }
  assert (char_at symbol (S (length pre + length y)) = ":"%char) as H1.
  { rewrite E, (app_assoc pre). change (B "::" ++ post) with ([":"%char] ++ ":"%char :: post).
    rewrite app_assoc, <- length_app, <- Nat.add_1_r.
    change 1%nat with (length [":"%char]) at 1. rewrite <- length_app. apply char_at_app. }
  destruct post as [|z post]; [discriminate|].
  assert (char_at symbol (S (S (length pre + length y))) = z) as H2.
  { rewrite E, (app_assoc pre). change (B "::" ++ z :: post) with (B "::" ++ [z] ++ post).
    rewrite (app_assoc _ (B "::")). rewrite <- length_app.
    replace (S (S _)) with (length ((pre ++ y) ++ B "::")) by (rewrite length_app; cbn; lia).
    apply char_at_app. }
  assert ((z =c ":") = false) as Hz'.
  { unfold wf_piece in Hz. cbn in Hz. rewrite andb_true_r in Hz. now apply piece_char in Hz. }
  assert (name < length pre + length y)%nat as Hlt.
  { unfold wf_piece in Hy. destruct y; [discriminate|]. destruct Hn as [|[]]; cbn; lia. }
  rewrite token_step_colon, H1 by exact H0. cbn [bind].
  replace (name <? _)%nat with true by lia.
  rewrite (add_piece s l symbol pre y (B "::" ++ z :: post)) by assumption. cbn [snd].
  rewrite token_step_colon, H2, Hz' by exact H1. cbn [bind Ascii.eqb Bool.eqb].
  rewrite Nat.ltb_irrefl. f_equal; [lia|f_equal; lia].
Qed.

Lemma tokenize_qualified s symbol tail ys : tail_ok tail -> forall y pre l name,
  symbol = pre ++ y ++ flat_map sep ys ++ tail ->
  forallb wf_piece (y :: ys) = true -> starts symbol pre name ->
  tokenize_loop symbol (length (y ++ flat_map sep ys ++ tail)) (length pre) (mk_scan (tops s l) [] None name)
  = Ok (tops s (classify_all s l (y :: ys))).
Proof.
  intros Ht. induction ys as [|z ys IH]; intros y pre l name E Hw Hn;
    cbn [forallb] in Hw; apply andb_true_iff in Hw as [Hy Hw]; rewrite length_app.
  - assert (forallb (fun c => ident_char c || (c =c "~")) y = true) as Hy'
      by (unfold wf_piece in Hy; now apply andb_true_iff in Hy).
    rewrite (tokenize_piece symbol y pre (flat_map sep [] ++ tail)) by assumption.
    cbn [flat_map app classify_all] in *. destruct Ht as [-> | (r & ->)].
    + cbn [length tokenize_loop name_ enc parent_].
      rewrite (add_piece s l symbol pre y []) by assumption.
      assert ((char_at symbol name =c NUL) = false) as ->; [|reflexivity].
      unfold wf_piece in Hy. destruct y as [|c y]; [discriminate|]. cbn in Hy'.
      apply andb_true_iff in Hy' as [Hc _].
      destruct Hn as [-> | [_ ->]]; [|reflexivity]. rewrite E; cbn [app]; rewrite char_at_app. now apply piece_char in Hc.
    + cbn [length tokenize_loop].
      assert (char_at symbol (length pre + length y) = "("%char) as H0.
      { rewrite E, app_assoc, <- length_app. apply char_at_app. }
      unfold token_step. rewrite H0. cbn [Ascii.eqb Bool.eqb bind name_ orb].
      assert (name < length pre + length y)%nat as Hlt.
      { unfold wf_piece in Hy. destruct y; [discriminate|]. destruct Hn as [|[]]; cbn; lia. }
      replace (name <? _)%nat with true by lia. cbn [parent_ enc].
      rewrite (add_piece s l symbol pre y ("("%char :: r)) by assumption. reflexivity.
  - assert (forallb (fun c => ident_char c || (c =c "~")) y = true) as Hy'
      by (unfold wf_piece in Hy; now apply andb_true_iff in Hy).
    rewrite (tokenize_piece symbol y pre (flat_map sep (z :: ys) ++ tail)) by assumption.
    cbn [flat_map] in *. unfold sep in E at 1. unfold sep at 1. rewrite <- !app_assoc in *.
    assert (wf_piece z = true) as Hz by (cbn in Hw; now apply andb_true_iff in Hw).
    rewrite length_app. cbn [length Nat.add list_ascii_of_string].
    rewrite (tokenize_colons s l symbol pre y (z ++ flat_map sep ys ++ tail)); try assumption.
    2:{ unfold wf_piece in *. destruct z as [|c z]; [discriminate|]. cbn in *.
        apply andb_true_iff in Hz as [-> _]. reflexivity. }
    replace (length pre + length y + 2)%nat with (length (pre ++ y ++ B "::"))
      by (rewrite !length_app; cbn; lia).
    cbn [classify_all]. apply IH.
    + now rewrite E, <- !app_assoc.
    + exact Hw.
    + right. split; [rewrite !length_app; cbn; lia|].
      rewrite E, (app_assoc pre). change (B "::" ++ ?q) with ([":"%char] ++ ":"%char :: q).
      rewrite app_assoc, <- length_app. change 1%nat with (length [":"%char]). rewrite <- length_app. apply char_at_app.
Qed.

Lemma starts_first symbol : starts symbol [] 0.
Proof. now left. Qed.

(** A qualified name with or without parameters becomes top-level components. *)
Lemma tokenize_name s y ys tail : tail_ok tail -> forallb wf_piece (y :: ys) = true ->
  tokenize (y ++ flat_map sep ys ++ tail) (clear_encoder s) = Ok (tops s (classify_all s [] (y :: ys))).
Proof.
  intros Ht Hw. unfold tokenize. change (clear_encoder s) with (tops s []).
  rewrite <- (tokenize_qualified s (y ++ flat_map sep ys ++ tail) tail ys Ht y [] [] 0);
    [reflexivity | reflexivity | exact Hw | apply starts_first].
Qed.

(** ** The key of top-level components *)

Definition encode_top (nt : bytes * ComponentType) : bytes :=
  if is_special (snd nt) then fst nt else encode_name (fst nt).

Fixpoint before_operator {A} (name : A -> bytes) (l : list A) : list A :=
  match l with
  | [] => []
  | a :: l => if is_operator (name a) then [] else a :: before_operator name l
  end.

Lemma encode_tops s l i fuel : (i < length l)%nat ->
  is_template_arg (snd (nth i l ([], kNormal))) = false ->
  encode (S fuel) (tops s l) i = (true, encode_top (nth i l ([], kNormal))).
Proof.
  intros Hi Ht. cbn [encode]. rewrite component_tops. replace (_ <? _)%nat with true by lia.
  cbn [top new_component c_type c_children c_name] in *. rewrite Ht. reflexivity.
Qed.

Lemma v3_loop_tops s l2 l1 m d :
  forallb (fun nt => negb (is_template_arg (snd nt))) (l1 ++ l2) = true ->
  v3_loop (tops s (l1 ++ l2)) (length l2) (length l1) m d
  = (m ++ flat_map encode_top (before_operator fst l2), false,
     if existsb (fun nt => is_operator (fst nt)) l2 then 1 else d).
Proof.
  revert l1 m. induction l2 as [|nt l2 IH]; intros l1 m Ht; cbn [length v3_loop before_operator existsb flat_map].
  - now rewrite app_nil_r.
  - assert (nth (length l1) (l1 ++ nt :: l2) ([], kNormal) = nt) as En by apply nth_middle.
    assert (is_template_arg (snd nt) = false) as Hnt.
    { rewrite forallb_app in Ht. cbn in Ht. destruct (is_template_arg (snd nt)); [|reflexivity].
      now rewrite andb_false_r in Ht. }
    rewrite component_tops. replace (_ <? _)%nat with true by (rewrite length_app; cbn [length]; lia). rewrite En.
    cbn [top new_component c_parent c_name c_isTemplate].
    destruct (is_operator (fst nt)) eqn:Ho; [now rewrite app_nil_r|].
    replace (length (components_ (tops s (l1 ++ nt :: l2)))) with (S (length (l1 ++ l2)))
      by (cbn; rewrite length_map, !length_app; cbn; lia).
    rewrite encode_tops by (rewrite ?En; try exact Hnt; rewrite length_app; cbn; lia).
    rewrite En. cbn [snd orb flat_map].
    replace (l1 ++ nt :: l2) with ((l1 ++ [nt]) ++ l2) in * by now rewrite <- app_assoc.
    replace (S (length l1)) with (length (l1 ++ [nt])) by (rewrite length_app; cbn; lia).
    rewrite IH by exact Ht. now rewrite app_assoc.
Qed.

Lemma run_v3_tops l : forallb (fun nt => negb (is_template_arg (snd nt))) l = true -> (1 < length l)%nat ->
  run_v3 (tops kV3Abi l)
  = if existsb (fun nt => is_operator (fst nt)) l
    then (B "_ZN" ++ flat_map encode_top (before_operator fst l), 1)
    else (B "_ZN" ++ flat_map encode_top l ++ B "E", Z.of_nat (length l)).
Proof.
  intros Ht Hl. unfold run_v3. cbn [components_ depth_ tops]. rewrite length_map.
  replace (1 <? Z.of_nat (length l)) with true by lia.
  pose proof (v3_loop_tops kV3Abi l [] (B "_ZN") (Z.of_nat (length l)) Ht) as E. cbn [app length] in E.
  change (B "_Z" ++ B "N") with (B "_ZN"). rewrite E.
  destruct (existsb _ l) eqn:Ho; cbn [negb andb]; [reflexivity|].
  replace (1 <? Z.of_nat (length l)) with true by lia.
  rewrite <- app_assoc. do 3 f_equal. clear -Ho. induction l as [|a l IH]; [reflexivity|].
  cbn in Ho |- *. apply orb_false_iff in Ho as [-> Ho]. cbn. now rewrite IH.
Qed.

(** ** Functions that the encoder has a key for *)

(** A scope whose name is not one that the encoder replaces. *)
Definition plain_scope (id : bytes) : bool :=
  negb (bytes_eqb id (B "true")) && negb (bytes_eqb id (B "false"))
  && match find_subst id with None => true | Some _ => false end.

Fixpoint distinct_neighbours (ids : list bytes) : bool :=
  match ids with
  | a :: ((b :: _) as ids) => negb (bytes_eqb a b) && distinct_neighbours ids
  | _ => true
  end.

Definition encodable (f : function) : bool :=
  forallb plain_scope (scopes f) && distinct_neighbours (scopes f)
  && match kind f with
     | NoSpecial => (1 <? length (scopes f))%nat
     | Ctor c | Dtor c => c =c "1"
     end.

Definition qualified_name (f : function) : bytes :=
  join_text (B "::") (scopes f) ++ show_special (scopes f) (kind f).

(** The key: what the mangled names of all overloads start with. *)
Definition v3_key (f : function) : bytes :=
  if existsb is_operator (scopes f) then B "_ZN" ++ flat_map mangle_ident (before_operator id (scopes f))
  else B "_ZN" ++ flat_map mangle_ident (scopes f) ++ mangle_special (kind f) ++ B "E".

Lemma bytes_eqb_eq a b : bytes_eqb a b = true <-> a = b.
Proof. unfold bytes_eqb. destruct (list_eq_dec ascii_dec a b); split; congruence. Qed.

Lemma wf_ident_piece y : wf_ident y = true -> wf_piece y = true /\ (hd NUL y =c "~") = false.
Proof.
  unfold wf_ident, wf_piece. destruct y as [|c y]; [discriminate|].
  rewrite !andb_true_iff. intros [[[H _] _] _]. split.
  - split; [reflexivity|]. apply forallb_forall. intros x Hx. rewrite forallb_forall in H. now rewrite H.
  - cbn in H |- *. apply andb_true_iff in H as [H _]. now destruct c as [[] [] [] [] [] [] [] []].
Qed.

Definition normal (id : bytes) : bytes * ComponentType := (id, kNormal).

(** Identifiers that differ from the one in front of them stay what they are. *)
Lemma classify_scopes s ids l : forallb wf_ident ids = true -> distinct_neighbours ids = true ->
  match l, ids with _ :: _, y :: _ => fst (last l ([], kNormal)) <> y | _, _ => True end ->
  classify_all s l ids = l ++ map normal ids.
Proof.
  revert l. induction ids as [|y ids IH]; intros l Hw Hd Hl; cbn [classify_all map]; [now rewrite app_nil_r|].
  cbn [forallb] in Hw. apply andb_true_iff in Hw as [Hy Hw]. destruct (wf_ident_piece y Hy) as [_ Hh].
  assert (classify s l y = normal y) as ->.
  { unfold classify. rewrite Hh. destruct l as [|a l]; [reflexivity|].
    destruct (bytes_eqb _ y) eqn:Eb; [|reflexivity]. now apply bytes_eqb_eq in Eb. }
  rewrite IH; [now rewrite <- app_assoc | exact Hw | | ].
  - destruct ids; [reflexivity|]. cbn [distinct_neighbours] in Hd. apply andb_true_iff in Hd as [_ Hd]. exact Hd.
  - rewrite last_last. destruct ids as [|z ids]; [now destruct l|]. cbn [distinct_neighbours] in Hd.
    apply andb_true_iff in Hd as [Hd _]. apply negb_true_iff in Hd.
    destruct l; cbn; intros ->; unfold bytes_eqb in Hd; now destruct (list_eq_dec _ z z).
Qed.

Lemma classify_all_app s l a b : classify_all s l (a ++ b) = classify_all s (classify_all s l a) b.
Proof. revert l. induction a; cbn; auto. Qed.

(** The piece that names a constructor or destructor. *)
Definition special_piece (ids : list bytes) (k : special) : list bytes :=
  match k with
  | NoSpecial => []
  | Ctor _ => [last ids []]
  | Dtor _ => ["~"%char :: last ids []]
  end.

Definition special_top (k : special) : list (bytes * ComponentType) :=
  match k with NoSpecial => [] | Ctor _ => [(B "C1", kCtor)] | Dtor _ => [(B "D1", kDtor)] end.

Lemma last_map_normal ids d : ids <> [] -> fst (last (map normal ids) d) = last ids [].
Proof.
  intros H. destruct (exists_last H) as (l & a & ->). rewrite map_app. cbn [map]. now rewrite !last_last.
Qed.

Lemma classify_function ids k : forallb wf_ident ids = true -> distinct_neighbours ids = true -> ids <> [] ->
  classify_all kV3Abi [] (ids ++ special_piece ids k) = map normal ids ++ special_top k.
Proof.
  intros Hw Hd Hne. rewrite classify_all_app, (classify_scopes kV3Abi ids []) by first [assumption | exact I]. cbn [app].
  destruct k as [|c|c]; cbn [special_piece special_top classify_all]; [now rewrite app_nil_r| |reflexivity].
  unfold classify. rewrite last_map_normal by exact Hne.
  assert (wf_ident (last ids []) = true) as Hl.
  { destruct (exists_last Hne) as (l & a & ->). rewrite last_last. rewrite forallb_app in Hw.
    cbn in Hw. rewrite andb_true_r in Hw. now apply andb_true_iff in Hw. }
  destruct (wf_ident_piece _ Hl) as [_ ->].
  assert (bytes_eqb (last ids []) (last ids []) = true) as -> by now apply bytes_eqb_eq.
  now destruct ids.
Qed.

Lemma join_colons y ys : join_text (B "::") (y :: ys) = y ++ flat_map sep ys.
Proof.
  revert y. induction ys as [|z ys IH]; intros y; [now cbn; rewrite app_nil_r|].
  change (join_text (B "::") (y :: z :: ys)) with (y ++ B "::" ++ join_text (B "::") (z :: ys)).
  rewrite IH. cbn [flat_map]. unfold sep at 2. now rewrite <- app_assoc.
Qed.

Lemma qualified_pieces y ys k : join_text (B "::") (y :: ys) ++ show_special (y :: ys) k
  = y ++ flat_map sep (ys ++ special_piece (y :: ys) k).
Proof.
  rewrite join_colons, flat_map_app, <- app_assoc. f_equal. f_equal.
  destruct k; cbn [special_piece show_special flat_map]; now rewrite ?app_nil_r.
Qed.

Lemma encode_scope id : wf_ident id = true -> plain_scope id = true -> encode_top (normal id) = mangle_ident id.
Proof.
  unfold plain_scope, encode_top, encode_name. rewrite !andb_true_iff, !negb_true_iff.
  intros Hw [[Ht Hf] Hs]. cbn [normal fst snd is_special]. rewrite Ht, Hf.
  destruct (find_subst id); [discriminate|]. destruct (isdigit (hd NUL id)) eqn:Ed; [|reflexivity].
  unfold wf_ident in Hw. destruct id as [|c id]; [discriminate|]. cbn in Ed. rewrite Ed in Hw.
  cbn [negb] in Hw. rewrite andb_false_r in Hw. discriminate.
Qed.

Lemma flat_map_ext_forallb {A C} (P Q : A -> bool) (f g : A -> list C) l :
  (forall a, P a = true -> Q a = true -> f a = g a) -> forallb P l = true -> forallb Q l = true ->
  flat_map f l = flat_map g l.
Proof.
  intros H. induction l as [|a l IH]; cbn; [reflexivity|]. rewrite !andb_true_iff.
  intros [Ha Hl] [Qa Ql]. now rewrite H, IH.
Qed.

Lemma before_operator_map ids k :
  before_operator fst (map normal ids ++ special_top k)
  = map normal (before_operator id ids)
    ++ (if existsb is_operator ids then [] else special_top k).
Proof.
  induction ids as [|y ids IH]; cbn [map app before_operator existsb].
  - destruct k; reflexivity.
  - unfold id at 1. cbn [fst normal]. destruct (is_operator y); [reflexivity|]. cbn [orb map app]. now rewrite IH.
Qed.

Lemma existsb_operator ids k :
  existsb (fun nt => is_operator (fst nt)) (map normal ids ++ special_top k) = existsb is_operator ids.
Proof.
  induction ids as [|y ids IH]; cbn [map app existsb fst normal]; [now destruct k|]. now rewrite IH.
Qed.

Lemma special_pieces_wf ids k : forallb wf_ident ids = true -> ids <> [] ->
  forallb wf_piece (ids ++ special_piece ids k) = true.
Proof.
  intros Hw Hne. rewrite forallb_app. apply andb_true_iff. split.
  - apply forallb_forall. intros y Hy. rewrite forallb_forall in Hw. now apply wf_ident_piece, Hw.
  - assert (wf_piece (last ids []) = true) as Hl.
    { destruct (exists_last Hne) as (l & a & ->). rewrite last_last. rewrite forallb_app in Hw.
      cbn in Hw. rewrite andb_true_r in Hw. apply andb_true_iff in Hw as [_ Hw]. now apply wf_ident_piece. }
    destruct k; cbn [special_piece forallb]; rewrite ?Hl; try reflexivity.
    unfold wf_piece in *. apply andb_true_iff in Hl as [_ Hl]. cbn. now rewrite Hl.
Qed.

Lemma before_operator_forallb (P : bytes -> bool) ids :
  forallb P ids = true -> forallb P (before_operator id ids) = true.
Proof.
  induction ids as [|y ids IH]; cbn [forallb before_operator]; [auto|]. intros [Hy H]%andb_true_iff.
  destruct (is_operator (id y)); cbn [forallb]; [reflexivity|]. now rewrite Hy, IH.
Qed.

(** The key of a qualified name. *)
Lemma run_v3_key f tail : wf_function f = true -> encodable f = true -> tail_ok tail ->
  exists depth, run kV3Abi (qualified_name f ++ tail) [] = Ok (v3_key f, false, depth).
Proof.
  intros Hw He Ht. unfold wf_function in Hw. rewrite !andb_true_iff in Hw. destruct Hw as [[[Hn Hi] Hk] _].
  unfold encodable in He. rewrite !andb_true_iff in He. destruct He as [[Hp Hd] Hc].
  unfold run, qualified_name, v3_key. destruct (scopes f) as [|y ys] eqn:Es; [discriminate|].
  assert (y :: ys <> []) as Hne by discriminate.
  rewrite qualified_pieces, <- app_assoc, tokenize_name; [| exact Ht | exact (special_pieces_wf (y :: ys) _ Hi Hne)].
  cbn [bind]. change (y :: ys ++ ?q) with ((y :: ys) ++ q).
  rewrite (classify_function (y :: ys)) by assumption. rewrite run_v3_tops.
  - rewrite existsb_operator. destruct (existsb is_operator (y :: ys)) eqn:Ho.
    + exists 1. rewrite before_operator_map, Ho, app_nil_r. cbn [hasTemplate_ tops].
      rewrite flat_map_concat_map, map_map, <- flat_map_concat_map.
      rewrite (flat_map_ext_forallb wf_ident plain_scope _ mangle_ident); [reflexivity | exact encode_scope | |];
        now apply before_operator_forallb.
    + eexists. cbn [hasTemplate_ tops]. rewrite flat_map_app, <- app_assoc.
      rewrite (flat_map_concat_map _ (map _ _)), map_map, <- flat_map_concat_map.
      rewrite (flat_map_ext_forallb wf_ident plain_scope _ mangle_ident _ encode_scope Hi Hp).
      assert (flat_map encode_top (special_top (kind f)) = mangle_special (kind f)) as ->; [|reflexivity].
      destruct (kind f); cbn in Hc |- *; try apply Ascii.eqb_eq in Hc as ->; reflexivity.
  - rewrite forallb_app. apply andb_true_iff. split; [|now destruct (kind f)].
    apply forallb_forall. intros x (i & <- & _)%in_map_iff. reflexivity.
  - rewrite length_app, length_map. destruct (kind f); cbn [length special_top] in *; lia.
Qed.

(** ** What the key selects *)

Lemma mangle_ident_inj a b r r' : wf_ident a = true -> wf_ident b = true ->
  mangle_ident a ++ r = mangle_ident b ++ r' -> a = b /\ r = r'.
Proof.
  assert (forall a r, wf_ident a = true ->
            span isdigit (mangle_ident a ++ r) = (dec (Z.of_nat (length a)), a ++ r)) as Hspan.
  { intros x q Hx. unfold mangle_ident. rewrite <- app_assoc. apply span_all; [apply dec_digits; lia|].
    unfold wf_ident in Hx. destruct x as [|c x]; [discriminate|]. cbn [app].
    destruct (isdigit c); [|reflexivity]. cbn [negb] in Hx. now rewrite andb_false_r in Hx. }
  intros Ha Hb E. pose proof (Hspan a r Ha) as E1. rewrite E, (Hspan b r' Hb) in E1.
  injection E1 as Hd Hr. apply (f_equal dec_val) in Hd. rewrite !dec_val_dec in Hd by lia.
  assert (length a = length b) as Hlen by lia. clear -Hr Hlen. revert b Hr Hlen.
  induction a as [|c a IH]; intros [|d b] Hr Hlen; try discriminate; [auto|].
  injection Hr as -> Hr. injection Hlen as Hlen. destruct (IH b Hr Hlen) as [-> ->]. auto.
Qed.

(** What follows the scopes of a mangled name starts with a letter. *)
Lemma mangle_scopes_inj a b x y r r' :
  forallb wf_ident a = true -> forallb wf_ident b = true -> isdigit x = false -> isdigit y = false ->
  flat_map mangle_ident a ++ x :: r = flat_map mangle_ident b ++ y :: r' -> a = b /\ x :: r = y :: r'.
Proof.
  intros Ha Hb Hx Hy. revert b Hb.
  assert (forall i q z, isdigit z = false -> mangle_ident i ++ q <> z :: r /\ mangle_ident i ++ q <> z :: r') as Hne.
  { intros i q z Hz. destruct (mangle_ident_head i) as (d & ds & Ed & Hd). rewrite Ed.
    split; intros [= -> _]; congruence. }
  induction a as [|i a IH]; intros [|j b] Hb E; cbn [flat_map forallb] in *;
    rewrite <- ?app_assoc in E; cbn [app] in E.
  - auto.
  - symmetry in E. now apply Hne in E.
  - now apply Hne in E.
  - apply andb_true_iff in Ha as [Hi Ha], Hb as [Hj Hb].
    destruct (mangle_ident_inj i j _ _ Hi Hj E) as [-> E']. destruct (IH Ha b Hb E') as [-> E'']. auto.
Qed.

(** The key is a prefix of the mangled name, and of no other function's. *)
Lemma v3_key_prefix f : wf_function f = true -> exists r, mangle_function f = v3_key f ++ r.
Proof.
  intros _. unfold v3_key, mangle_function. destruct (existsb is_operator (scopes f)).
  - assert (exists r, scopes f = before_operator id (scopes f) ++ r) as (r & Er).
    { generalize (scopes f). intros l. induction l as [|y l (r & IH)]; [now exists []|]. cbn [before_operator].
      destruct (is_operator (id y)); [now exists (y :: l)|]. exists r. cbn [app]. now f_equal. }
    remember (before_operator id (scopes f)) as b eqn:Eb. rewrite Er, flat_map_app, <- !app_assoc.
    eexists. reflexivity.
  - eexists. rewrite <- !app_assoc. reflexivity.
Qed.

Lemma v3_key_selects f g : wf_function f = true -> wf_function g = true ->
  existsb is_operator (scopes f) = false ->
  (exists r, mangle_function g = v3_key f ++ r) -> scopes g = scopes f /\ kind g = kind f.
Proof.
  unfold wf_function. rewrite !andb_true_iff. intros [[[_ Hf] _] _] [[[_ Hg] _] _] Ho (r & E).
  unfold v3_key, mangle_function in E. rewrite Ho, <- !app_assoc in E. apply app_inv_head in E.
  assert (forall k q, exists z t, mangle_special k ++ B "E" ++ q = z :: t /\ isdigit z = false) as Hk.
  { intros k q. destruct k; eexists _, _; split; reflexivity. }
  destruct (Hk (kind g) (mangle_params (params g))) as (z & t & Ez & Hz).
  destruct (Hk (kind f) r) as (z' & t' & Ez' & Hz').
  rewrite Ez, Ez' in E. destruct (mangle_scopes_inj _ _ _ _ _ _ Hg Hf Hz Hz' E) as [-> E'].
  split; [reflexivity|]. rewrite <- Ez, <- Ez' in E'.
  destruct (kind f) as [|c|c], (kind g) as [|e|e]; cbn in E'; try discriminate E'; injection E'; congruence.
Qed.

(** ** Keys of g++ 2.95 *)

(** The mangled name of a member: its class, then its parameters. *)
Definition old_count (n : Z) : bytes := if n <? 10 then dec n else B "_" ++ dec n ++ B "_".
Definition old_class (ids : list bytes) : bytes :=
  match ids with
  | [i] => mangle_ident i
  | _ => B "Q" ++ old_count (Z.of_nat (length ids)) ++ flat_map mangle_ident ids
  end.

(** A constructor has no name of its own. *)
Definition old_label (ids : list bytes) (name : bytes) : bytes :=
  if bytes_eqb (last ids []) name then [] else name.
Definition old_member (ids : list bytes) (name qual ps : bytes) : bytes :=
  old_label ids name ++ B "__" ++ qual ++ old_class ids ++ ps.

Definition old_key (ids : list bytes) (name qual : bytes) : bytes :=
  old_label ids name ++ B "__" ++ qual
  ++ (if (1 <? length ids)%nat
      then B "Q" ++ (if (9 <? length ids)%nat then B "_" else []) ++ dec (Z.of_nat (length ids)) else [])
  ++ mangle_ident (hd [] ids).

Lemma last_top_tops s l : last_top (tops s l) (length l) = length l.
Proof.
  destruct l as [|a l]; [reflexivity|]. cbn [length last_top]. rewrite component_tops. cbn [length].
  now replace (_ <? _)%nat with true by (cbn; lia).
Qed.

Lemma classify_old ids name : forallb wf_ident ids = true -> distinct_neighbours ids = true -> ids <> [] ->
  wf_ident name = true ->
  exists t, classify_all kOldGcc [] (ids ++ [name]) = map normal ids ++ [(old_label ids name, t)].
Proof.
  intros Hw Hd Hne Hn.
  rewrite classify_all_app, (classify_scopes kOldGcc ids []) by first [assumption | exact I].
  cbn [app classify_all]. unfold classify, old_label. destruct (wf_ident_piece _ Hn) as [_ ->].
  rewrite last_map_normal by exact Hne. destruct ids; [easy|]. cbn [map]. destruct (bytes_eqb _ _); eauto.
Qed.

Lemma run_old_key ids name qual tail : tail_ok tail ->
  forallb wf_ident ids = true -> distinct_neighbours ids = true -> ids <> [] -> wf_ident name = true ->
  run kOldGcc (join_text (B "::") (ids ++ [name]) ++ tail) qual
  = Ok (old_key ids name qual, false, Z.of_nat (length ids) + 1).
Proof.
  intros Ht Hw Hd Hne Hn. destruct (classify_old ids name Hw Hd Hne Hn) as (t & Ec).
  destruct ids as [|y ids]; [easy|]. unfold run. cbn [app]. rewrite join_colons, <- app_assoc, tokenize_name.
  2: exact Ht.
  2:{ apply forallb_forall. intros x Hx. apply wf_ident_piece. change (y :: ids ++ [name]) with ((y :: ids) ++ [name]) in Hx.
      apply in_app_iff in Hx as [Hx | [<- | []]]; [|exact Hn]. rewrite forallb_forall in Hw. auto. }
  cbn [bind]. change (y :: ids ++ [name]) with ((y :: ids) ++ [name]). rewrite Ec. unfold run_old.
  set (l := map normal (y :: ids) ++ [(old_label (y :: ids) name, t)]).
  assert (length l = S (length (y :: ids))) as Hl by (unfold l; rewrite length_app, length_map; cbn; lia).
  replace (length (components_ (tops kOldGcc l))) with (length l) by (cbn; now rewrite length_map).
  rewrite last_top_tops, Hl. rewrite !component_tops, Hl.
  replace (length (y :: ids) <? _)%nat with true by lia. change (0 <? S (length (y :: ids)))%nat with true.
  replace (0 <? length (y :: ids))%nat with true by (cbn; lia).
  assert (nth (length (y :: ids)) l ([], kNormal) = (old_label (y :: ids) name, t)) as ->.
  { unfold l. rewrite <- (length_map normal). apply nth_middle. }
  assert (nth 0 l ([], kNormal) = normal y) as -> by reflexivity.
  unfold old_key. cbn [tops hasTemplate_ depth_ hd normal top new_component c_name c_isTemplate fst].
  rewrite Hl, !app_nil_r. cbn [app].
  replace (2 <? Z.of_nat (S (length (y :: ids)))) with (1 <? length (y :: ids))%nat by lia.
  replace (10 <? Z.of_nat (S (length (y :: ids)))) with (9 <? length (y :: ids))%nat by lia.
  replace (Z.of_nat (S (length (y :: ids))) - 1) with (Z.of_nat (length (y :: ids))) by lia.
  unfold mangle_ident. do 3 f_equal. lia.
Qed.

Lemma old_key_prefix ids name qual ps : ids <> [] ->
  (exists r, old_member ids name qual ps = old_key ids name qual ++ r) <-> (length ids < 10)%nat.
Proof.
  intros Hne. unfold old_member, old_key, old_class, old_count. destruct ids as [|y [|z ids]]; [easy| |].
  - split; [cbn; lia|]. intros _. exists ps. cbn [length Nat.ltb Nat.leb hd app]. now rewrite <- !app_assoc.
  - set (n := length (y :: z :: ids)). replace (1 <? n)%nat with true by (unfold n; cbn; lia).
    destruct (n <? 10)%nat eqn:Hn.
    + replace (Z.of_nat n <? 10) with true by lia. replace (9 <? n)%nat with false by lia.
      split; [lia|]. intros _. eexists. cbn [hd flat_map app]. rewrite <- !app_assoc. reflexivity.
    + replace (Z.of_nat n <? 10) with false by lia. replace (9 <? n)%nat with true by lia.
      split; [|lia]. intros (r & E). rewrite <- !app_assoc in E. cbn [hd] in E.
      destruct (mangle_ident_head y) as (d & ds & Ed & Hd). rewrite Ed in E.
      do 6 apply app_inv_head in E. injection E as <- _. discriminate Hd.
Qed.



(** The decoder of g++ 2.95 reads the names that the keys are made for. *)
Example old_member_decoded :
  Legacy.parse (old_member [B "Blah"; B "Foo"] (B "blah") [] (B "i")) 0
  = Ok (Some (B "Blah::Foo::blah(int)"), None).
Proof. vm_compute. reflexivity. Qed.
