(* ===== verification/FloatArith.v ===== *)
(** * Floating point arithmetic of the C library

    [strtod] and [strtold] in the three binary formats of x86, and the arithmetic of
    [long double], computed exactly over [Z] and rounded to nearest: what the expression
    interpreter uses. Values of all formats are those of [LongFloat]. *)
From S2P Require Import Prelude CLib DString DReal LongFloat.
Local Open Scope Z_scope.

Module FloatArith.
Import LongDouble(Fin, Inf, div_half_even, hex_val).
Import LongFloat(NaN, Num, strip_word, split_point, exponent, nan_tail, ratio).

(** Significant bits, the least unit and the greatest exponent of a format. *)
Record format : Type := mk_format { precision : Z; least : Z; greatest : Z }.
Definition long_double_format : format := mk_format 64 (-16445) 16383.
Definition double_format : format := mk_format 53 (-1074) 1023.
Definition float_format : format := mk_format 24 (-149) 127.

(** [n / d] in a format; both are positive. *)
Definition round_ratio (f : format) (neg : bool) (n d : Z) : LongDouble.t :=
  let guess := Z.log2 n - Z.log2 d in
  let fits := if 0 <=? guess then d * 2 ^ guess <=? n else d <=? n * 2 ^ (- guess) in
  let top := if fits then guess else guess - 1 in
  let unit := Z.max (top - (precision f - 1)) (least f) in
  let m := if 0 <=? unit then div_half_even n (d * 2 ^ unit)
           else div_half_even (n * 2 ^ (- unit)) d in
  if m =? 0 then Fin neg 0 0
  else if greatest f <? Z.log2 m + unit then Inf neg else Fin neg m unit.

(** [m * 2 ^ e] in a format. *)
Definition round_binary (f : format) (neg : bool) (m e : Z) : LongDouble.t :=
  if m =? 0 then Fin neg 0 0 else
  let top := Z.log2 m + e in
  if 20000 <? top then Inf neg
  else if top <? -20000 then Fin neg 0 0
  else let '(n, d) := ratio m e in round_ratio f neg n d.

(** [m * 10 ^ e]; exponents far out of range are decided first. *)
Definition round_decimal (f : format) (neg : bool) (m e : Z) : LongDouble.t :=
  if m =? 0 then Fin neg 0 0 else
  let magnitude := Z.of_nat (length (dec m)) + e in
  if 5000 <? magnitude then Inf neg
  else if magnitude <? -5000 then Fin neg 0 0
  else if 0 <=? e then round_ratio f neg (m * 10 ^ e) 1 else round_ratio f neg m (10 ^ (- e)).

(** ** Reading a numeral *)

Definition hex_number (f : format) (neg : bool) (s : bytes) : option (LongDouble.t * bytes) :=
  let '(ip, fp, r) := split_point isxdigit s in
  match ip ++ fp with
  | [] => None
  | ds =>
      let '(e, r) := exponent "p" r in
      Some (round_binary f neg (hex_val ds) (e - 4 * Z.of_nat (length fp)), r)
  end.

Definition dec_number (f : format) (neg : bool) (s : bytes) : option (LongDouble.t * bytes) :=
  let '(ip, fp, r) := split_point isdigit s in
  match ip ++ fp with
  | [] => None
  | ds =>
      let '(e, r) := exponent "e" r in
      Some (round_decimal f neg (dec_val ds) (e - Z.of_nat (length fp)), r)
  end.

(** [strtod] and [strtold]: the value and the text that is not read. *)
Definition strtod (f : format) (s : bytes) : LongFloat.t * bytes :=
  let s0 := snd (span isspace s) in
  let '(neg, s1) := match s0 with
                    | c :: r => if c =c "-" then (true, r)
                                else if c =c "+" then (false, r) else (false, s0)
                    | [] => (false, s0)
                    end in
  match strip_word (B "infinity") s1, strip_word (B "inf") s1, strip_word (B "nan") s1 with
  | Some r, _, _ | None, Some r, _ => (Num (Inf neg), r)
  | None, None, Some r => (NaN neg, nan_tail r)
  | None, None, None =>
      let hex := match strip_word (B "0x") s1 with Some r => hex_number f neg r | None => None end in
      match hex, dec_number f neg s1 with
      | Some (v, r), _ | None, Some (v, r) => (Num v, r)
      | None, None => (Num (Fin false 0 0), s)
      end
  end.

(** A conversion to a smaller format. *)
Definition convert (f : format) (x : LongFloat.t) : LongFloat.t :=
  match x with Num (Fin neg m e) => Num (round_binary f neg m e) | _ => x end.

(** ** Arithmetic of [long double] *)

Definition of_Z (n : Z) : LongFloat.t := Num (round_binary long_double_format (n <? 0) (Z.abs n) 0).

Definition opp (x : LongFloat.t) : LongFloat.t :=
  match x with
  | NaN neg => NaN (negb neg)
  | Num (Inf neg) => Num (Inf (negb neg))
  | Num (Fin neg m e) => Num (Fin (negb neg) m e)
  end.

Definition signed (neg : bool) (m : Z) : Z := if neg then - m else m.

Definition add (x y : LongFloat.t) : LongFloat.t :=
  match x, y with
  | NaN n, _ | _, NaN n => NaN n
  | Num (Inf a), Num (Inf b) => if Bool.eqb a b then x else NaN true
  | Num (Inf _), _ => x
  | _, Num (Inf _) => y
  | Num (Fin a m e), Num (Fin b n g) =>
      let low := Z.min e g in
      let sum := signed a (m * 2 ^ (e - low)) + signed b (n * 2 ^ (g - low)) in
      if sum =? 0 then Num (Fin (a && b) 0 0)
      else Num (round_binary long_double_format (sum <? 0) (Z.abs sum) low)
  end.

Definition sub (x y : LongFloat.t) : LongFloat.t :=
  match y with NaN n => NaN n | _ => add x (opp y) end.

Definition mul (x y : LongFloat.t) : LongFloat.t :=
  match x, y with
  | NaN n, _ | _, NaN n => NaN n
  | Num (Inf a), Num (Inf b) => Num (Inf (xorb a b))
  | Num (Inf a), Num (Fin b m _) | Num (Fin b m _), Num (Inf a) =>
      if m =? 0 then NaN true else Num (Inf (xorb a b))
  | Num (Fin a m e), Num (Fin b n g) =>
      Num (round_binary long_double_format (xorb a b) (m * n) (e + g))
  end.

Definition div (x y : LongFloat.t) : LongFloat.t :=
  match x, y with
  | NaN n, _ | _, NaN n => NaN n
  | Num (Inf _), Num (Inf _) => NaN true
  | Num (Inf a), Num (Fin b _ _) => Num (Inf (xorb a b))
  | Num (Fin a _ _), Num (Inf b) => Num (Fin (xorb a b) 0 0)
  | Num (Fin a m e), Num (Fin b n g) =>
      if n =? 0 then (if m =? 0 then NaN true else Num (Inf (xorb a b)))
      else if m =? 0 then Num (Fin (xorb a b) 0 0)
      else
        let '(p, q) := ratio m e in
        let '(r, s) := ratio n g in
        Num (round_ratio long_double_format (xorb a b) (p * s) (q * r))
  end.

(** [x < y]; false when one is not a number. *)
Definition lt (x y : LongFloat.t) : bool :=
  match x, y with
  | NaN _, _ | _, NaN _ => false
  | Num (Inf a), Num (Inf b) => a && negb b
  | Num (Inf a), _ => a
  | _, Num (Inf b) => negb b
  | Num (Fin a m e), Num (Fin b n g) =>
      let low := Z.min e g in
      signed a (m * 2 ^ (e - low)) <? signed b (n * 2 ^ (g - low))
  end.

(** [(bool) x] *)
Definition nonzero (x : LongFloat.t) : bool :=
  match x with Num (Fin _ m _) => negb (m =? 0) | _ => true end.

(** [numeric_limits<long double>::epsilon()] *)
Definition epsilon : LongFloat.t := Num (Fin false 1 (-63)).

End FloatArith.

Example float_arithmetic :
  let num s := fst (FloatArith.strtod FloatArith.double_format s) in
  LongFloat.print (FloatArith.div (num (B "1")) (num (B "3"))) = B "0.333333"
  /\ LongFloat.print (FloatArith.add (num (B "3.1419")) (num (B ".01"))) = B "3.1519"
  /\ FloatArith.lt (num (B "0.1")) (FloatArith.of_Z 1) = true
  /\ LongFloat.print (FloatArith.sub (FloatArith.of_Z 1) (num (B "3.1419"))) = B "-2.1419"
  /\ LongFloat.print (FloatArith.convert FloatArith.float_format (num (B "1e39"))) = B "inf".
Proof. repeat split; vm_compute; reflexivity. Qed.
