(* ===== verification/Variant.v ===== *)
(** * Variants and the types that read them

    [zdk/include/zdk/variant.h], [dharma/variant.cpp], [zdk/include/zdk/type_tags.h],
    [typez/private/int_types.h] and the [parse] functions of [typez/types.cpp], on a 64-bit
    host. A variant has a tag and a buffer; values reach it as text, which the data type
    parses. Variants of debug symbols, which read the memory of the debuggee, are not
    modelled: operands are constants and results of operators. *)
From S2P Require Import Prelude CLib DString DReal LongFloat FloatArith.
Local Open Scope Z_scope.

(** ** Outcomes of the interpreter *)

Inductive error : Type :=
| EvalError (msg : bytes)
| LogicError (msg : bytes)
| DomainError (msg : bytes)
| RuntimeError (msg : bytes)
| Overloaded          (* an operator of the debuggee is looked up and called *)
| NullPointer         (* a null reference is used *)
| SIGFPE              (* the division traps *)
| Undefined.          (* bytes are read as what they are not *)

Inductive outcome (A : Type) : Type :=
| Val (a : A)
| Throw (e : error).
Arguments Val {A} a.
Arguments Throw {A} e.

Definition obind {A C} (m : outcome A) (k : A -> outcome C) : outcome C :=
  match m with Val a => k a | Throw e => Throw e end.

Declare Scope outcome_scope.
Delimit Scope outcome_scope with outcome.
Notation "'let!' x ':=' m 'in' k" := (obind m (fun x => k))
  (at level 10, x pattern, m at level 100, k at level 200) : outcome_scope.
#[global] Open Scope outcome_scope.

(** ** Variants *)

Inductive TypeTag : Type :=
| VT_NONE | VT_VOID
| VT_INT8 | VT_UINT8 | VT_INT16 | VT_UINT16 | VT_INT32 | VT_UINT32 | VT_INT64 | VT_UINT64
| VT_FLOAT | VT_DOUBLE | VT_LONG_DOUBLE
| VT_POINTER | VT_ARRAY | VT_OBJECT | VT_BOOL.

Inductive Encoding : Type := VE_BINARY | VE_STRING.

(** What the bytes of the buffer represent. *)
Inductive buffer : Type :=
| Empty
| Int (size bits : Z)            (* an unsigned integer of that many bytes *)
| Real (size : Z) (x : LongFloat.t)
| Text (s : bytes).              (* with its terminator *)

Record Variant : Type := mk_variant { type_tag : TypeTag; encoding : Encoding; buf_ : buffer }.

Definition new_variant : Variant := mk_variant VT_NONE VE_BINARY Empty.

Definition variant_size (v : Variant) : Z :=
  match buf_ v with
  | Empty => 0
  | Int n _ | Real n _ => n
  | Text s => Z.of_nat (length s) + 1
  end.

Definition is_signed_tag (t : TypeTag) : bool :=
  match t with VT_INT8 | VT_INT16 | VT_INT32 | VT_INT64 => true | _ => false end.
Definition is_unsigned_tag (t : TypeTag) : bool :=
  match t with VT_UINT8 | VT_UINT16 | VT_UINT32 | VT_UINT64 => true | _ => false end.
Definition is_float_tag (t : TypeTag) : bool :=
  match t with VT_FLOAT | VT_DOUBLE | VT_LONG_DOUBLE => true | _ => false end.

Definition is_signed_int (v : Variant) : bool := is_signed_tag (type_tag v).
Definition is_integer (v : Variant) : bool := is_signed_tag (type_tag v) || is_unsigned_tag (type_tag v).
Definition is_float (v : Variant) : bool := is_float_tag (type_tag v).
Definition is_tag (t : TypeTag) (v : Variant) : bool :=
  match t, type_tag v with
  | VT_UINT64, VT_UINT64 | VT_POINTER, VT_POINTER | VT_OBJECT, VT_OBJECT
  | VT_ARRAY, VT_ARRAY | VT_NONE, VT_NONE => true
  | _, _ => false
  end.

Definition tag_bytes (t : TypeTag) : Z :=
  match t with
  | VT_INT8 | VT_UINT8 | VT_BOOL => 1
  | VT_INT16 | VT_UINT16 => 2
  | VT_INT32 | VT_UINT32 | VT_FLOAT => 4
  | VT_INT64 | VT_UINT64 | VT_DOUBLE => 8
  | VT_LONG_DOUBLE => 16
  | _ => 0
  end.

(** [n] as a signed integer of [w] bits. *)
Definition to_signed (w n : Z) : Z := (n + 2 ^ (w - 1)) mod 2 ^ w - 2 ^ (w - 1).

(** [*reinterpret_cast<const uintN_t*>(data())] for [n] bytes. *)
Definition read_unsigned (n : Z) (v : Variant) : outcome Z :=
  match buf_ v with Int _ bits => Val (bits mod 2 ^ (8 * n)) | _ => Throw Undefined end.
Definition read_signed (n : Z) (v : Variant) : outcome Z :=
  let! bits := read_unsigned n v in Val (to_signed (8 * n) bits).

Definition incorrect_type {A} : outcome A := Throw (LogicError (B "incorrect type")).

Definition uint64 (v : Variant) : outcome Z :=
  let t := type_tag v in
  if is_signed_tag t then Throw (DomainError (B "converting signed to unsigned"))
  else if is_unsigned_tag t then read_unsigned (tag_bytes t) v
  else if is_float_tag t then Throw (DomainError (B "converting float to integer"))
  else incorrect_type.

Definition int64 (v : Variant) : outcome Z :=
  match type_tag v with
  | VT_UINT64 => Throw (DomainError (B "converting unsigned to signed"))
  | t =>
      if is_signed_tag t then read_signed (tag_bytes t) v
      else if is_unsigned_tag t then read_unsigned (tag_bytes t) v
      else if is_float_tag t then Throw (DomainError (B "converting float to integer"))
      else incorrect_type
  end.

Definition long_double (v : Variant) : outcome LongFloat.t :=
  let t := type_tag v in
  if is_float_tag t then match buf_ v with Real _ x => Val x | _ => Throw Undefined end
  else if is_signed_tag t || (is_unsigned_tag t && negb (is_tag VT_UINT64 v))
  then Throw (DomainError (B "converting integer to float"))
  else incorrect_type.

(** [pointer]; a buffer of four bytes is read as an [int], whose sign is extended. *)
Definition pointer (v : Variant) : outcome Z :=
  if negb (is_tag VT_POINTER v) then incorrect_type
  else
    match encoding v, buf_ v with
    | VE_STRING, Text s =>
        match scan_number s with
        | Some (_, n, _) => if ULONG_MAX <? n then Throw (RuntimeError (B "pointer")) else Val (fst (strtoul_0 s))
        | None => Val 0
        end
    | _, Int 4 _ => let! n := read_signed 4 v in Val (n mod 2 ^ 64)
    | _, Int _ _ => read_unsigned 8 v
    | _, _ => Throw Undefined
    end.

(** The bits as [uint64_t]: the sign of a signed integer is extended. *)
Definition variant_bits (v : Variant) : outcome Z :=
  let t := type_tag v in
  match t with
  | VT_BOOL => let! n := read_unsigned 1 v in Val (if n =? 0 then 0 else 1)
  | _ =>
      if is_signed_tag t then let! n := read_signed (tag_bytes t) v in Val (n mod 2 ^ 64)
      else if is_unsigned_tag t then read_unsigned (tag_bytes t) v
      else if is_float_tag t then Throw (DomainError (B "converting float to bits"))
      else incorrect_type
  end.

(** [put(&variant, val, tag)] for an integer and for a floating point number. *)
Definition put_int (t : TypeTag) (size n : Z) : Variant :=
  mk_variant t VE_BINARY (Int size (n mod 2 ^ (8 * size))).
Definition put_real (t : TypeTag) (x : LongFloat.t) : Variant :=
  mk_variant t VE_BINARY (Real (tag_bytes t) x).

(** ** Data types *)

Inductive DataType : Type :=
| IntType (bit_size : Z) (is_signed : bool)
| FloatType (bit_size : Z)
| PointerType (bit_size : Z) (pointed_size : Z) (is_cstring : bool)
| ArrayType (word_size : Z)
| ClassType (bit_size : Z).

Definition bit_size (t : DataType) : Z :=
  match t with
  | IntType n _ | FloatType n | PointerType n _ _ | ArrayType n | ClassType n => n
  end.

Definition type_size (t : DataType) : Z := (bit_size t + 7) / 8.

(** *** Integers *)

(** [IntHelper<N, S>::from_string] halves [N] as long as the bits fit; below eight bits the
    type stays [int8_t]. *)
Definition int_width (nbits : Z) : Z :=
  if nbits <=? 32 then if nbits <=? 16 then if nbits <=? 8 then 8 else 16 else 32 else 64.

Definition int_tag (w : Z) (signed : bool) : TypeTag :=
  if w =? 8 then if signed then VT_INT8 else VT_UINT8
  else if w =? 16 then if signed then VT_INT16 else VT_UINT16
  else if w =? 32 then if signed then VT_INT32 else VT_UINT32
  else if signed then VT_INT64 else VT_UINT64.

(** [input_traits<int8_t>::from_string]: a character in quotes, or a number. *)
Definition int8_from_string (s : bytes) : Z * bytes :=
  match s with
  | q :: r =>
      if q =c "'" then
        match r with
        | [c; q'] => if q' =c "'" then (code c, []) else (0, s)
        | _ => (0, s)
        end
      else strtol_0 s
  | [] => strtol_0 s
  end.

(** [input_traits<T>::from_string]: the value before it is stored in [w] bits, and the rest. *)
Definition from_string (w : Z) (signed : bool) (s : bytes) : Z * bytes :=
  if w =? 8 then int8_from_string s
  else if negb signed then strtoul_0 s
  else
    let '(x, r) := strtol_0 s in
    if hd NUL s =c "-" then (x, r) else (fst (strtoul_0 s), r).

(** [parse]: how much of the text was read, and the variant. *)
Definition parse_int (nbits : Z) (signed : bool) (s : bytes) : Z * Variant :=
  let w := int_width nbits in
  let '(x, r) := from_string w signed s in
  (Z.of_nat (length s) - Z.of_nat (length r), put_int (int_tag w signed) (w / 8) x).

(** [compare] of two texts: both are masked to the bits of the type, then compared in the
    type of its class. *)
Definition compare_int (nbits : Z) (signed : bool) (lhs rhs : bytes) : Z :=
  let w := int_width nbits in
  let masked s :=
    let x := Z.land (fst (from_string w signed s) mod 2 ^ w) (2 ^ nbits - 1) in
    if signed then to_signed w x else x in
  if masked lhs <? masked rhs then -1 else if masked rhs <? masked lhs then 1 else 0.

(** *** The other types *)

Definition parse_float (nbits : Z) (s : bytes) : Z * Variant :=
  let read f := FloatArith.strtod f s in
  let '(v, r) :=
    if 64 <? nbits then
      let '(x, r) := read FloatArith.long_double_format in (put_real VT_LONG_DOUBLE x, r)
    else if 32 <? nbits then
      let '(x, r) := read FloatArith.double_format in (put_real VT_DOUBLE x, r)
    else
      let '(x, r) := read FloatArith.double_format in
      (put_real VT_FLOAT (FloatArith.convert FloatArith.float_format x), r) in
  (Z.of_nat (length s) - Z.of_nat (length r), v).

Definition bytes_is (a b : bytes) : bool := if list_eq_dec ascii_dec a b then true else false.

(** An address with its tag; [NULL] is the address 0. *)
Definition parse_address (t : TypeTag) (nbits : Z) (s : bytes) : Z * Variant :=
  let '(addr, n) :=
    if bytes_is s (B "NULL") then (0, 4)
    else let '(a, r) := strtoul_0 s in (a, Z.of_nat (length s) - Z.of_nat (length r)) in
  (n, put_int t (if nbits =? 32 then 4 else 8) addr).

Definition parse (type : DataType) (s : bytes) : Z * Variant :=
  match type with
  | IntType nbits signed => parse_int nbits signed s
  | FloatType nbits => parse_float nbits s
  | PointerType nbits _ cstring =>
      if negb (bytes_is s (B "NULL")) && cstring
      then (Z.of_nat (length s) + 1, mk_variant VT_POINTER VE_STRING (Text s))
      else parse_address VT_POINTER nbits s
  | ArrayType nbits => parse_address VT_ARRAY nbits s
  | ClassType _ => (0, mk_variant VT_OBJECT VE_BINARY Empty)
  end.

(** ** Printing and conversion *)

(** [os << n] of a signed integer. *)
Definition print_Z (n : Z) : bytes := if n <? 0 then "-"%char :: dec (- n) else dec n.

Definition hex_char (d : Z) : ascii := char_of_int (if d <? 10 then 48 + d else 87 + d).
Fixpoint hex_digits (fuel : nat) (n : Z) (acc : bytes) : bytes :=
  match fuel with
  | O => acc
  | S fuel =>
      let acc := hex_char (n mod 16) :: acc in
      if n <? 16 then acc else hex_digits fuel (n / 16) acc
  end.

(** [os << hex << showbase << n] of a 64-bit number. *)
Definition print_hex (n : Z) : bytes := if n =? 0 then B "0" else B "0x" ++ hex_digits 16 n [].

(** [variant_print] with the default base. *)
Definition variant_print (v : Variant) : outcome bytes :=
  match type_tag v with
  | VT_BOOL => let! n := variant_bits v in Val (if n =? 0 then B "0" else B "1")
  | VT_INT8 | VT_INT16 | VT_INT32 => let! n := int64 v in Val (print_Z (to_signed 32 n))
  | VT_UINT8 | VT_UINT16 | VT_UINT32 => let! n := int64 v in Val (print_Z (n mod 2 ^ 32))
  | VT_INT64 => let! n := int64 v in Val (print_Z n)
  | VT_UINT64 => let! n := uint64 v in Val (print_Z n)
  | VT_FLOAT | VT_DOUBLE | VT_LONG_DOUBLE => let! x := long_double v in Val (LongFloat.print x)
  | VT_POINTER => let! n := pointer v in Val (print_hex n)
  | VT_ARRAY => Val (B "[array]")
  | VT_OBJECT => Val (B "{object}")
  | VT_NONE => Val (B "<none>")
  | VT_VOID => Val (B "<void>")
  end.

(** [variant_assign(result, type, value)]: the value is printed and the type parses it. *)
Definition assign_Z (type : DataType) (n : Z) : Variant := snd (parse type (print_Z n)).
Definition assign_real (type : DataType) (x : LongFloat.t) : Variant := snd (parse type (LongFloat.print x)).

(** [variant_convert] of a variant that has no debug symbol. *)
Definition variant_convert (v : Variant) (type : DataType) : outcome Variant :=
  let! s := variant_print v in Val (snd (parse type s)).

(** [variant_true] *)
Definition variant_true (v : Variant) : outcome bool :=
  if is_integer v then let! n := variant_bits v in Val (negb (n =? 0))
  else if is_float v then let! x := long_double v in Val (FloatArith.nonzero x)
  else if is_tag VT_POINTER v then let! n := pointer v in Val (negb (n =? 0))
  else Val (is_tag VT_OBJECT v || is_tag VT_ARRAY v).
