(* ===== verification/VariantCorrect.v ===== *)
(** * What is stored in a variant

    The text of an integer that a type parses is stored as the conversion of C would store
    it: modulo the width of the type. *)
From S2P Require Import Prelude CLib DString DReal LongFloat FloatArith Variant.
Local Open Scope Z_scope.

(** ** Numerals in base 0 *)

Lemma digits_value_dec ds : forallb isdigit ds = true -> digits_value 10 ds = dec_val ds.
Proof.
  unfold digits_value, dec_val. generalize 0. induction ds as [|c ds IH]; intros v; cbn [fold_left forallb]; [auto|].
  intros [Hc H]%andb_true_iff. unfold digit_value at 2. rewrite Hc. now apply IH.
Qed.

(** A decimal numeral has no prefix of another base. *)
Lemma scan_digits n : 0 <= n -> let '(base, digit, s) := base_of (dec n) in
  span digit s = (dec n, []) /\ digits_value base (dec n) = n.
Proof.
  intros Hn. destruct (Z.eq_dec n 0) as [->|H0]; [split; reflexivity|].
  destruct (dec_cons n Hn) as (c & s & E & Hc & Hz). specialize (Hz ltac:(lia)).
  assert (base_of (dec n) = (10, isdigit, dec n)) as ->.
  { rewrite E. unfold base_of. destruct s as [|x [|y s]]; rewrite Hz; reflexivity. }
  split.
  - rewrite <- (app_nil_r (dec n)) at 1. apply span_all; [now apply dec_digits | exact I].
  - rewrite digits_value_dec by now apply dec_digits. now apply dec_val_dec.
Qed.

Lemma scan_print n : scan_number (print_Z n) = Some (n <? 0, Z.abs n, []).
Proof.
  unfold print_Z. destruct (Z.ltb_spec n 0).
  - pose proof (scan_digits (- n) ltac:(lia)) as Hs. unfold scan_number.
    change (span isspace ("-"%char :: dec (- n))) with ([] : bytes, "-"%char :: dec (- n)). cbn [snd].
    change ("-" =c "-") with true. cbv iota.
    destruct (base_of (dec (- n))) as [[base digit] s]. destruct Hs as [-> Hv].
    destruct (dec_cons (- n) ltac:(lia)) as (c & r & E & _). rewrite E in *. rewrite Hv. do 3 f_equal. lia.
  - pose proof (scan_digits n ltac:(lia)) as Hs. unfold scan_number.
    destruct (dec_cons n ltac:(lia)) as (c & r & E & Hc & _).
    assert (snd (span isspace (dec n)) = dec n) as ->.
    { rewrite E. cbn [span]. now rewrite (isdigit_not_space c Hc). }
    rewrite E at 1. destruct (isdigit_not_sign c Hc) as [-> ->].
    destruct (base_of (dec n)) as [[base digit] s]. destruct Hs as [-> Hv].
    rewrite E in *. rewrite Hv. do 3 f_equal. lia.
Qed.

Lemma clamp_id n : - 2 ^ 63 <= n < 2 ^ 63 -> clamp_long n = n.
Proof.
  intros H. unfold clamp_long.
  replace (LONG_MAX <? n) with false by (unfold LONG_MAX; lia).
  now replace (n <? LONG_MIN) with false by (unfold LONG_MIN, LONG_MAX; lia).
Qed.

Lemma strtol_print n : strtol_0 (print_Z n) = (clamp_long n, []).
Proof. unfold strtol_0. rewrite scan_print. do 2 f_equal. destruct (Z.ltb_spec n 0); lia. Qed.

Lemma strtoul_print n : - 2 ^ 64 < n < 2 ^ 64 -> strtoul_0 (print_Z n) = (n mod 2 ^ 64, []).
Proof.
  intros Hn. unfold strtoul_0, ULONG_MAX. rewrite scan_print.
  replace (2 ^ 64 - 1 <? Z.abs n) with false by lia. do 3 f_equal. destruct (Z.ltb_spec n 0); lia.
Qed.

Lemma print_head n : (hd NUL (print_Z n) =c "-") = (n <? 0) /\ (hd NUL (print_Z n) =c "'") = false.
Proof.
  unfold print_Z. destruct (Z.ltb_spec n 0); [split; reflexivity|].
  destruct (dec_cons n ltac:(lia)) as (c & s & -> & Hc & _). cbn [hd].
  destruct (isdigit_not_sign c Hc) as [-> _]. split; [reflexivity|].
  now destruct c as [[] [] [] [] [] [] [] []].
Qed.

(** ** The widths *)

Definition width (w : Z) : Prop := w = 8 \/ w = 16 \/ w = 32 \/ w = 64.

Lemma int_width_cases nbits : width (int_width nbits).
Proof. unfold width, int_width. repeat (destruct (_ <=? _); auto). Qed.

Lemma int_width_id w : width w -> int_width w = w.
Proof. intros [-> | [-> | [-> | ->]]]; reflexivity. Qed.

(** The values that a literal or a result of 64 bits has. *)
Definition in_64 (n : Z) : Prop := - 2 ^ 63 <= n < 2 ^ 64.

Lemma mod_mod_le a m k : 0 < m -> 0 < k -> (m | k) -> (a mod k) mod m = a mod m.
Proof.
  intros Hm Hk (q & ->). rewrite Z.mul_comm. destruct (Z.eq_dec q 0) as [->|Hq]; [lia|].
  rewrite Z.rem_mul_r by lia. rewrite Z.mul_comm, Z.mod_add by lia. apply Z.mod_mod. lia.
Qed.

(** What [from_string] reads from a printed integer is congruent to it. *)
Lemma from_string_print w signed n : width w -> in_64 n -> w <> 8 \/ n < 2 ^ 63 ->
  fst (from_string w signed (print_Z n)) mod 2 ^ w = n mod 2 ^ w.
Proof.
  intros Hw Hn H8. unfold in_64 in Hn. destruct (print_head n) as [Hm Hq]. unfold from_string.
  pose proof (clamp_id n) as Hclamp.
  assert ((n mod 2 ^ 64) mod 2 ^ w = n mod 2 ^ w) as Hmod.
  { apply mod_mod_le; try lia. 1:{ destruct Hw as [-> | [-> | [-> | ->]]]; lia. }
    exists (2 ^ (64 - w)). destruct Hw as [-> | [-> | [-> | ->]]]; reflexivity. }
  destruct (Z.eqb_spec w 8) as [->|Hne].
  - destruct H8 as [H8|H8]; [easy|]. unfold int8_from_string.
    destruct (print_Z n) as [|q r] eqn:E; rewrite <- E in *; cbn [hd] in Hq.
    + rewrite strtol_print. cbn [fst]. now rewrite Hclamp by lia.
    + rewrite E in Hq. cbn [hd] in Hq. rewrite Hq, strtol_print. cbn [fst]. now rewrite Hclamp by lia.
  - destruct signed; cbn [negb].
    + rewrite strtol_print, Hm. destruct (Z.ltb_spec n 0); cbn [fst].
      * now rewrite Hclamp by lia.
      * rewrite strtoul_print by lia. exact Hmod.
    + rewrite strtoul_print by lia. exact Hmod.
Qed.

(** An integer of a type as a variant. *)
Definition int_variant (w : Z) (signed : bool) (n : Z) : Variant := put_int (int_tag w signed) (w / 8) n.

(** [variant_assign] of an integer stores it modulo the width. *)
Lemma assign_Z_wraps nbits signed n : in_64 n -> int_width nbits <> 8 \/ n < 2 ^ 63 ->
  assign_Z (IntType nbits signed) n = int_variant (int_width nbits) signed n.
Proof.
  intros Hn H8. unfold assign_Z, parse, parse_int, int_variant, put_int.
  pose proof (from_string_print (int_width nbits) signed n (int_width_cases nbits) Hn H8) as E.
  destruct (from_string _ _ _) as [x r]. cbn [snd fst] in *. do 2 f_equal.
  replace (8 * (int_width nbits / 8)) with (int_width nbits); [exact E|].
  destruct (int_width_cases nbits) as [-> | [-> | [-> | ->]]]; reflexivity.
Qed.

(** ** Reading an integer back *)

(** [n] converted to a type of C. *)
Definition wrap (w : Z) (signed : bool) (n : Z) : Z := if signed then to_signed w n else n mod 2 ^ w.

Lemma to_signed_mod w n : 0 < w -> to_signed w (n mod 2 ^ w) = to_signed w n.
Proof. intros Hw. unfold to_signed. now rewrite Z.add_mod_idemp_l by lia. Qed.

Lemma is_tag_uint64 w signed n : width w ->
  is_tag VT_UINT64 (int_variant w signed n) = (w =? 64) && negb signed.
Proof. intros [-> | [-> | [-> | ->]]]; destruct signed; reflexivity. Qed.

Lemma int_variant_tags w signed n : width w ->
  let v := int_variant w signed n in
  is_integer v = true /\ is_float v = false /\ is_signed_int v = signed /\ is_tag VT_POINTER v = false
  /\ is_tag VT_OBJECT v = false /\ is_tag VT_ARRAY v = false /\ is_tag VT_NONE v = false
  /\ variant_size v = w / 8.
Proof. intros [-> | [-> | [-> | ->]]]; destruct signed; repeat split; reflexivity. Qed.

Lemma int_operand_wrap int_op w signed n : width w ->
  int_op = (fun v => if is_tag VT_UINT64 v then uint64 v else int64 v) ->
  int_op (int_variant w signed n) = Val (wrap w signed n).
Proof.
  intros Hw ->. cbv beta. rewrite is_tag_uint64 by exact Hw.
  destruct Hw as [-> | [-> | [-> | ->]]]; destruct signed; cbn -[Z.pow Z.modulo];
    unfold int64, uint64, read_signed, read_unsigned; cbn -[Z.pow Z.modulo];
    rewrite ?Z.mod_mod by lia; f_equal; unfold wrap; now rewrite ?to_signed_mod by lia.
Qed.

Lemma variant_bits_wrap w signed n : width w ->
  variant_bits (int_variant w signed n) = Val (wrap w signed n mod 2 ^ 64).
Proof.
  intros Hw. destruct Hw as [-> | [-> | [-> | ->]]]; destruct signed; cbn -[Z.pow Z.modulo];
    unfold variant_bits, read_signed, read_unsigned; cbn -[Z.pow Z.modulo];
    rewrite ?Z.mod_mod by lia; f_equal; unfold wrap; rewrite ?to_signed_mod by lia; try reflexivity.
  all: rewrite (Z.mod_small (_ mod _)); [reflexivity|]; split; [apply Z.mod_pos_bound; lia|];
    eapply Z.lt_le_trans; [apply Z.mod_pos_bound; lia | lia].
Qed.

(** A value that the type has. *)
Definition has_type (w : Z) (signed : bool) (n : Z) : Prop :=
  if signed then - 2 ^ (w - 1) <= n < 2 ^ (w - 1) else 0 <= n < 2 ^ w.

Lemma wrap_id w signed n : 0 < w -> has_type w signed n -> wrap w signed n = n.
Proof.
  unfold has_type, wrap. intros Hw H. destruct signed; [|now apply Z.mod_small].
  unfold to_signed. assert (2 ^ w = 2 * 2 ^ (w - 1)) as E by (rewrite <- Z.pow_succ_r by lia; f_equal; lia).
  rewrite Z.mod_small by lia. lia.
Qed.

Lemma wrap_has_type w signed n : 0 < w -> has_type w signed (wrap w signed n).
Proof.
  unfold has_type, wrap, to_signed. intros Hw.
  assert (2 ^ w = 2 * 2 ^ (w - 1)) as E by (rewrite <- Z.pow_succ_r by lia; f_equal; lia).
  destruct signed; [|apply Z.mod_pos_bound; lia].
  pose proof (Z.mod_pos_bound (n + 2 ^ (w - 1)) (2 ^ w)). lia.
Qed.

Lemma wrap_mod w signed n k : 0 < w <= k -> wrap w signed (n mod 2 ^ k) = wrap w signed n.
Proof.
  intros Hw. assert ((n mod 2 ^ k) mod 2 ^ w = n mod 2 ^ w) as E.
  { apply mod_mod_le; try lia. exists (2 ^ (k - w)). rewrite <- Z.pow_add_r by lia. f_equal. lia. }
  unfold wrap. destruct signed; [|exact E]. now rewrite <- to_signed_mod, E, to_signed_mod by lia.
Qed.

(** The texts of two values of a full-width type compare as the values do. *)
Theorem compare_int_values w signed a b : width w -> has_type w signed a -> has_type w signed b ->
  compare_int w signed (print_Z a) (print_Z b) = if a <? b then -1 else if b <? a then 1 else 0.
Proof.
  intros Hw Ha Hb.
  assert (forall n, has_type w signed n ->
    (if signed then to_signed w (Z.land (fst (from_string w signed (print_Z n)) mod 2 ^ w) (2 ^ w - 1))
     else Z.land (fst (from_string w signed (print_Z n)) mod 2 ^ w) (2 ^ w - 1)) = n) as E.
  { intros n Hn. assert (0 < w) as Hp by (destruct Hw as [-> | [-> | [-> | ->]]]; lia).
    rewrite from_string_print; [| exact Hw | |].
    - replace (2 ^ w - 1) with (Z.ones w) by (rewrite Z.ones_equiv; lia).
      rewrite Z.land_ones, Z.mod_mod by lia. rewrite to_signed_mod by lia. exact (wrap_id w signed n Hp Hn).
    - unfold in_64, has_type in *. destruct Hw as [-> | [-> | [-> | ->]]]; destruct signed; cbn -[Z.pow] in *; lia.
    - unfold has_type in Hn. destruct Hw as [-> | [-> | [-> | ->]]]; [right | left; lia..].
      destruct signed; cbn -[Z.pow] in *; lia. }
  unfold compare_int. rewrite int_width_id by exact Hw. now rewrite !E by assumption.
Qed.
