(* ===== verification/Expr.v ===== *)
(** * Operators of the expression interpreter

    [interp/binary_expr.cpp], [additive_expr.cpp], [multiplicative_expr.cpp], [bit_expr.cpp],
    [relational_expr.cpp], [logical_expr.cpp], [unary_expr.cpp], [conditional_expr.cpp] and
    the integer constants of [constant.cpp], on a 64-bit host. An expression gives its type,
    which may stay unset, and a variant. Warnings are not modelled; where an operand is an
    object, the operator of the debuggee that would be called is [Overloaded]. *)
From S2P Require Import Prelude CLib DString DReal LongFloat FloatArith Variant.
Import DString.Impl(u64).
Local Open Scope Z_scope.

Inductive AdditiveOp : Type := PLUS | MINUS.
Inductive MultiplicativeOp : Type := MUL | DIV | MOD.
Inductive BitOp : Type := LEFT_SHIFT | RIGHT_SHIFT | AND | OR | XOR.
Inductive RelationalOp : Type := EQ | NEQ | LT | LTE | GT | GTE.
Inductive LogicalOp : Type := LAND | LOR.
Inductive UnaryOp : Type := UPLUS | UMINUS | BITNEG | NEGATE.

(** An operand that was evaluated: the type of its expression and its value. *)
Definition operand : Type := DataType * Variant.

(** An expression that was evaluated. *)
Definition value : Type := option DataType * Variant.

Definition invalid_types {A} : outcome A := Throw (EvalError (B "invalid operands")).
Definition division_by_zero {A} : outcome A := Throw (EvalError (B "division by zero")).

Definition int_type (signed : bool) : DataType := IntType 32 signed.

(** [int64_t] arithmetic wraps around. *)
Definition s64 (n : Z) : Z := to_signed 64 n.

(** [set_int_type]: the larger type; the unsigned one among types of the same size. *)
Definition set_int_type (l r : operand) : DataType :=
  let '((lt, lv), (rt, rv)) := (l, r) in
  if variant_size rv <? variant_size lv then lt
  else if variant_size lv <? variant_size rv then rt
  else if is_signed_int lv then rt else lt.

(** An integer operand where [uint64_t] and the other types are told apart. *)
Definition int_operand (v : Variant) : outcome Z := if is_tag VT_UINT64 v then uint64 v else int64 v.

(** ** Additive operators *)

Definition add_float_int (op : AdditiveOp) (lv rv : Variant) (negate : bool) (type : DataType) : outcome value :=
  let! x := long_double lv in
  let! n := int_operand rv in
  let y := FloatArith.of_Z n in
  let x := match op with
           | PLUS => FloatArith.add x y
           | MINUS => let d := FloatArith.sub x y in if negate then FloatArith.opp d else d
           end in
  Val (Some type, assign_real type x).

Definition add_uint64_int (op : AdditiveOp) (lv rv : Variant) (negate : bool) (type : DataType) : outcome value :=
  let! x := uint64 lv in
  let! n := int_operand rv in
  let x := match op with
           | PLUS => u64 (x + n)
           | MINUS => let d := u64 (x - n) in if negate then u64 (- d) else d
           end in
  Val (Some type, assign_Z type x).

Definition add_integers (op : AdditiveOp) (l r : operand) : outcome value :=
  let type := set_int_type l r in
  let! x := int64 (snd l) in
  let! y := int64 (snd r) in
  Val (Some type, assign_Z type (s64 match op with PLUS => x + y | MINUS => x - y end)).

Definition add_floats (op : AdditiveOp) (l r : operand) : outcome value :=
  let type := if type_size (fst r) <? type_size (fst l) then fst l else fst r in
  let! x := long_double (snd l) in
  let! y := long_double (snd r) in
  Val (Some type, assign_real type match op with PLUS => FloatArith.add x y | MINUS => FloatArith.sub x y end).

Definition set_encoding (e : Encoding) (v : Variant) : Variant := mk_variant (type_tag v) e (buf_ v).

(** A pointer and an integer, or the difference of two pointers, in units of the type that the
    pointer [type] points to. *)
Definition add_pointer_int (op : AdditiveOp) (lv rv : Variant) (type : DataType) : outcome value :=
  match type with
  | PointerType nbits size _ =>
      if size =? 0 then Throw (RuntimeError (B "pointer of type void * used in arithmetic"))
      else
        let! value := pointer lv in
        let! (type, result) :=
          (if is_tag VT_POINTER rv then
             let! p := pointer rv in
             let type := IntType nbits false in
             Val (type, assign_Z type (u64 (value - p) / size))
           else
             let! n := int_operand rv in
             let factor := match op with PLUS => 1 | MINUS => -1 end in
             Val (type, assign_Z type (u64 (value + factor * n * size)))) in
        Val (Some type, set_encoding (encoding lv) result)
  | _ => Throw (LogicError (B "bad cast"))
  end.

Definition eval_additive (op : AdditiveOp) (l r : operand) : outcome value :=
  let '((lt, lv), (rt, rv)) := (l, r) in
  let nothing := Val (None, new_variant) in
  let is_minus := match op with MINUS => true | PLUS => false end in
  if is_tag VT_POINTER lv then
    if is_tag VT_POINTER rv then
      if negb is_minus then invalid_types else add_pointer_int op lv rv lt
    else if is_integer rv then add_pointer_int op lv rv lt
    else if is_float rv then invalid_types else nothing
  else if is_tag VT_OBJECT lv || is_tag VT_OBJECT rv then Throw Overloaded
  else if is_integer lv then
    if is_tag VT_POINTER rv then
      if is_minus then invalid_types else add_pointer_int op rv lv rt
    else if is_integer rv then
      if is_tag VT_UINT64 lv then add_uint64_int op lv rv false lt
      else if is_tag VT_UINT64 rv then add_uint64_int op rv lv true rt
      else add_integers op l r
    else if is_float rv then add_float_int op rv lv true rt else nothing
  else if is_float lv then
    if is_tag VT_POINTER rv then invalid_types
    else if is_integer rv then add_float_int op lv rv false lt
    else if is_float rv then add_floats op l r else nothing
  else nothing.

(** ** Multiplicative operators *)

(** [v op= d] for an unsigned divisor; [None] when the machine traps. *)
Definition unsigned_op (op : MultiplicativeOp) (v d : Z) : option Z :=
  match op with
  | MUL => Some (u64 (v * d))
  | DIV => if d =? 0 then None else Some (v / d)
  | MOD => if d =? 0 then None else Some (v mod d)
  end.

Definition trapping {A} (o : option A) : outcome A := match o with Some a => Val a | None => Throw SIGFPE end.
Definition checked {A} (o : option A) : outcome A := match o with Some a => Val a | None => division_by_zero end.

Definition eval_int_by_int (op : MultiplicativeOp) (l r : operand) : outcome value :=
  let '((lt, lv), (rt, rv)) := (l, r) in
  if is_tag VT_UINT64 lv then
    let! v := uint64 lv in
    if is_tag VT_UINT64 rv then
      let! d := uint64 rv in
      let! v := checked (unsigned_op op v d) in
      Val (Some lt, assign_Z lt v)
    else
      let! d := int64 rv in
      let d := u64 d in
      let! v :=
        match op with
        | MUL => Val (u64 (v * d))
        | DIV => checked (unsigned_op DIV v d)
        | MOD =>   (* there is no break: the case of the division follows *)
            let! v := checked (unsigned_op MOD v d) in checked (unsigned_op DIV v d)
        end in
      Val (Some lt, assign_Z lt v)
  else
    let! v := int64 lv in
    if is_tag VT_UINT64 rv then
      let! d := uint64 rv in
      let! v := match op with
                | MOD => trapping (unsigned_op MOD (u64 v) d)
                | _ => checked (unsigned_op op (u64 v) d)
                end in
      Val (Some rt, assign_Z rt (s64 v))
    else
      let type := set_int_type l r in
      let! d := int64 rv in
      let! v :=
        match op with
        | MUL => Val (s64 (v * d))
        | MOD => if (d =? 0) || (v =? - 2 ^ 63) && (d =? -1) then Throw SIGFPE else Val (Z.rem v d)
        | DIV => let! q := checked (unsigned_op DIV (u64 v) (u64 d)) in Val (s64 q)
        end in
      Val (Some type, assign_Z type v).

(** An integer by a floating point number: [MOD] was excluded. *)
Definition eval_int_by_float (op : MultiplicativeOp) (l r : operand) : outcome value :=
  let type := fst r in
  let! v := long_double (snd r) in
  let! n := int_operand (snd l) in
  let x := FloatArith.of_Z n in
  let! v :=
    match op with
    | MUL => Val (FloatArith.mul v x)
    | DIV => if FloatArith.lt FloatArith.epsilon v then Val (FloatArith.div x v) else division_by_zero
    | MOD => Val v
    end in
  Val (Some type, assign_real type v).

Definition eval_float_by_int (op : MultiplicativeOp) (l r : operand) : outcome value :=
  let type := fst l in
  let! v := long_double (snd l) in
  let! n := int_operand (snd r) in
  let x := FloatArith.of_Z n in
  let! v :=
    match op with
    | MUL => Val (FloatArith.mul v x)
    | DIV => if n =? 0 then division_by_zero else Val (FloatArith.div v x)
    | MOD => Val v
    end in
  Val (Some type, assign_real type v).

Definition eval_float_by_float (op : MultiplicativeOp) (l r : operand) : outcome value :=
  let! v := long_double (snd l) in
  let! d := long_double (snd r) in
  let! v :=
    match op with
    | MUL => Val (FloatArith.mul v d)
    | DIV => if FloatArith.nonzero d then Val (FloatArith.div v d) else division_by_zero
    | MOD => Val v
    end in
  Val (Some (fst l), assign_real (fst l) v).

Definition eval_multiplicative (op : MultiplicativeOp) (l r : operand) : outcome value :=
  let '((_, lv), (_, rv)) := (l, r) in
  let nothing := Val (None, new_variant) in
  let is_mod := match op with MOD => true | _ => false end in
  if is_tag VT_POINTER lv then invalid_types
  else if is_tag VT_OBJECT lv || is_tag VT_OBJECT rv then Throw Overloaded
  else if is_integer lv then
    if is_tag VT_POINTER rv then invalid_types
    else if is_integer rv then eval_int_by_int op l r
    else if is_float rv then if is_mod then invalid_types else eval_int_by_float op l r
    else nothing
  else if is_float lv then
    if is_mod then invalid_types
    else if is_tag VT_POINTER rv then invalid_types
    else if is_integer rv then eval_float_by_int op l r
    else if is_float rv then eval_float_by_float op l r else nothing
  else nothing.

(** ** Bit operators *)

(** The mask of the operand on the left; of a signed type with an even number of bits the
    sign bit is left out. *)
Definition bit_mask (nbits : Z) (signed : bool) : Z :=
  let n := if signed && (nbits mod 2 =? 0) then nbits - 1 else nbits in
  u64 (Z.lor (Z.shiftl (u64 (Z.shiftl 1 (n - 1)) - 1) 1) 1).

(** The operation on [w] bits; the machine takes the shift count modulo the width. *)
Definition bit_op (op : BitOp) (w l r : Z) : Z :=
  match op with
  | LEFT_SHIFT => Z.shiftl l (r mod w) mod 2 ^ w
  | RIGHT_SHIFT => Z.shiftr l (r mod w)
  | AND => Z.land l r mod 2 ^ w
  | OR => Z.lor l r mod 2 ^ w
  | XOR => Z.lxor l r mod 2 ^ w
  end.

Definition is_shift (op : BitOp) : bool := match op with LEFT_SHIFT | RIGHT_SHIFT => true | _ => false end.

Definition eval_bit (op : BitOp) (l r : operand) : outcome value :=
  let '((lt, lv), (rt, rv)) := (l, r) in
  if is_shift op && (is_tag VT_OBJECT lv || is_tag VT_OBJECT rv) then Throw Overloaded
  else if negb (is_integer lv) || negb (is_integer rv) then invalid_types
  else
    match lt with
    | IntType nbits signed =>
        let mask := bit_mask nbits signed in
        let! rbits := variant_bits rv in
        let! lbits := variant_bits lv in
        let lbits := Z.land lbits mask in
        let unsigned := if negb (is_signed_int rv) then Some rt
                        else if negb (is_signed_int lv) then Some lt else None in
        if 4 <=? variant_size lv then
          let type := match unsigned with
                      | Some t => if is_shift op then lt else t
                      | None => lt
                      end in
          Val (Some type, assign_Z type (bit_op op 64 lbits rbits))
        else
          let type := match unsigned with
                      | Some _ => if is_shift op then int_type (is_signed_int lv) else int_type false
                      | None => int_type (is_signed_int lv)
                      end in
          Val (Some type, assign_Z type (bit_op op 32 (lbits mod 2 ^ 32) rbits))
    | _ => Throw (LogicError (B "bad cast"))
    end.

(** ** Relational operators *)

(** Less is -1, greater 1. *)
Definition order (lt gt : bool) : Z := if lt then -1 else if gt then 1 else 0.

Definition compare_int_to_float (lv rv : Variant) : outcome Z :=
  let! n := int_operand lv in
  let! x := long_double rv in
  let y := FloatArith.of_Z n in
  Val (order (FloatArith.lt y x) (FloatArith.lt x y)).

(** When one side is [uint64_t] the other is converted to it. *)
Definition compare_integers (lv rv : Variant) : outcome Z :=
  let! x := int_operand lv in
  let! y := int_operand rv in
  let '(x, y) := if is_tag VT_UINT64 lv || is_tag VT_UINT64 rv then (u64 x, u64 y) else (x, y) in
  Val (order (x <? y) (y <? x)).

Definition compare_floats (lv rv : Variant) : outcome Z :=
  let! x := long_double lv in
  let! y := long_double rv in
  Val (order (FloatArith.lt x y) (FloatArith.lt y x)).

Definition compare_pointers (lv rv : Variant) : outcome Z :=
  let! x := pointer lv in
  let! y := pointer rv in
  Val (order (x <? y) (y <? x)).

Definition relation_holds (op : RelationalOp) (c : Z) : bool :=
  match op with
  | EQ => c =? 0 | NEQ => negb (c =? 0)
  | LT => c <? 0 | LTE => c <=? 0
  | GT => 0 <? c | GTE => 0 <=? c
  end.

Definition put_flag (b : Z) : Variant := put_int VT_INT32 4 b.

Definition eval_relational (op : RelationalOp) (l r : operand) : outcome value :=
  let '((_, lv), (_, rv)) := (l, r) in
  let! c :=
    (if is_tag VT_POINTER lv then
       if is_tag VT_POINTER rv then compare_pointers lv rv else invalid_types
     else if is_integer lv then
       if is_tag VT_POINTER rv then invalid_types
       else if is_integer rv then compare_integers lv rv
       else if is_float rv then compare_int_to_float lv rv else Val 0
     else if is_float lv then
       if is_tag VT_POINTER rv then invalid_types
       else if is_integer rv then let! c := compare_int_to_float rv lv in Val (- c)
       else if is_float rv then compare_floats lv rv else Val 0
     else Val 0) in
  Val (Some (int_type true), put_flag (if relation_holds op c then 1 else 0)).

(** ** Unary operators *)

Definition eval_minus (a : operand) : outcome value :=
  let '(type, v) := a in
  if is_float v then
    let! x := long_double v in Val (Some type, assign_real type (FloatArith.opp x))
  else if is_integer v then
    if is_tag VT_UINT64 v then let! x := uint64 v in Val (Some type, assign_Z type (u64 (- x)))
    else let! x := int64 v in Val (Some type, assign_Z type (s64 (- x)))
  else Throw (EvalError (B "invalid type argument of unary -")).

Definition eval_bit_complement (a : operand) : outcome value :=
  let '(type, v) := a in
  if negb (is_integer v) then Throw (EvalError (B "invalid type argument to bit-complement"))
  else
    let mask := u64 (Z.lor (Z.shiftl (u64 (Z.shiftl 1 (type_size type * 8 - 1)) - 1) 1) 1) in
    let! bits := variant_bits v in
    Val (Some type, assign_Z type (Z.land (u64 (Z.lnot bits)) mask)).

(** [!]: a floating point number counts as zero when it is below [epsilon]. *)
Definition eval_negate (a : operand) : outcome value :=
  let v := snd a in
  let! b :=
    (if is_integer v then let! n := variant_bits v in Val (n =? 0)
     else if is_float v then let! x := long_double v in Val (FloatArith.lt x FloatArith.epsilon)
     else if is_tag VT_POINTER v then let! n := pointer v in Val (n =? 0)
     else Throw (EvalError (B "invalid type argument to logical negation"))) in
  Val (Some (int_type true), assign_Z (int_type true) (if b then 1 else 0)).

(** [+] leaves the type of the expression unset. *)
Definition eval_unary (op : UnaryOp) (a : operand) : outcome value :=
  if is_tag VT_OBJECT (snd a) then Throw Overloaded
  else
    match op with
    | UPLUS => Val (None, snd a)
    | UMINUS => eval_minus a
    | BITNEG => eval_bit_complement a
    | NEGATE => eval_negate a
    end.

(** ** Expressions *)

Inductive expr : Type :=
| Constant (type : DataType) (v : Variant)
| Additive (op : AdditiveOp) (lhs rhs : expr)
| Multiplicative (op : MultiplicativeOp) (lhs rhs : expr)
| Bit (op : BitOp) (lhs rhs : expr)
| Relational (op : RelationalOp) (lhs rhs : expr)
| Logical (op : LogicalOp) (lhs rhs : expr)
| Unary (op : UnaryOp) (arg : expr)
| Conditional (discr first second : expr).

(** The type that an expression has before it is evaluated. *)
Definition initial_type (e : expr) : option DataType :=
  match e with Constant t _ => Some t | _ => None end.

(** [eval_operand]: the checks behind the evaluation. The message about an array names the
    types of both operands, of which the one on the right may not be set yet. *)
Definition check_operand (v : value) (other : option DataType) : outcome operand :=
  match v with
  | (Some type, var) =>
      if is_tag VT_NONE var then Throw (LogicError (B "unknown hand-side type"))
      else if is_tag VT_ARRAY var then match other with Some _ => invalid_types | None => Throw NullPointer end
      else Val (type, var)
  | (None, _) => Throw (LogicError (B "unknown hand-side type"))
  end.

Section Eval.
Variable eval : expr -> outcome value.

Definition eval_lhs (lhs rhs : expr) : outcome operand :=
  let! v := eval lhs in check_operand v (initial_type rhs).

Definition eval_rhs (l : operand) (rhs : expr) : outcome operand :=
  let! v := eval rhs in check_operand v (Some (fst l)).

Definition eval_operands (lhs rhs : expr) : outcome (operand * operand) :=
  let! l := eval_lhs lhs rhs in
  let! r := eval_rhs l rhs in
  Val (l, r).

(** Operands are converted to [int] through their text; the operand on the right is not
    evaluated when the one on the left decides. *)
Definition eval_logical (op : LogicalOp) (lhs rhs : expr) : outcome value :=
  let type := int_type true in
  let! l := eval_lhs lhs rhs in
  let! lv := variant_convert (snd l) type in
  let! lbits := variant_bits lv in
  let bits := to_signed 32 lbits in
  let decided := match op with LOR => negb (bits =? 0) | LAND => bits =? 0 end in
  if decided then Val (Some type, put_flag bits)
  else
    let! r := eval_rhs l rhs in
    let! rv := variant_convert (snd r) type in
    let! rbits := variant_bits rv in
    let b := match op with
             | LAND => negb (bits =? 0) && negb (rbits =? 0)
             | LOR => negb (bits =? 0) || negb (rbits =? 0)
             end in
    Val (Some type, put_flag (if b then 1 else 0)).

Definition eval_conditional (discr first second : expr) : outcome value :=
  let! (t, v) := eval discr in
  match t with
  | None => Throw (LogicError (B "null type in conditional expression"))
  | Some _ =>
      let! b :=
        (if is_integer v then let! n := variant_bits v in Val (negb (n =? 0))
         else if is_float v then let! x := long_double v in Val (FloatArith.nonzero x)
         else if is_tag VT_POINTER v then let! n := pointer v in Val (negb (n =? 0))
         else Throw (EvalError (B "invalid type in conditional expression"))) in
      eval (if b : bool then first else second)
  end.

Definition eval_unary_expr (op : UnaryOp) (arg : expr) : outcome value :=
  let! (t, v) := eval arg in
  match t with
  | None => Throw (LogicError (B "unary argument has null type"))
  | Some t => eval_unary op (t, v)
  end.
End Eval.

Fixpoint eval (e : expr) : outcome value :=
  match e with
  | Constant t v => Val (Some t, v)
  | Additive op lhs rhs => let! (l, r) := eval_operands eval lhs rhs in eval_additive op l r
  | Multiplicative op lhs rhs => let! (l, r) := eval_operands eval lhs rhs in eval_multiplicative op l r
  | Bit op lhs rhs => let! (l, r) := eval_operands eval lhs rhs in eval_bit op l r
  | Relational op lhs rhs => let! (l, r) := eval_operands eval lhs rhs in eval_relational op l r
  | Logical op lhs rhs => eval_logical eval op lhs rhs
  | Unary op arg => eval_unary_expr eval op arg
  | Conditional discr first second => eval_conditional eval discr first second
  end.

(** ** Integer constants *)

(** [is >> val] in a base: the value, whether the stream is still good, and what is left. *)
Definition read_constant (base : Z) (s : bytes) : Z * bool * bytes :=
  let s := match s with
           | z :: x :: r => if (base =? 16) && (z =c "0") && ((x =c "x") || (x =c "X")) then r else s
           | _ => s
           end in
  let digit := if base =? 16 then isxdigit else if base =? 8 then isoctal else isdigit in
  let '(ds, r) := span digit s in
  match ds with
  | [] => (0, false, r)
  | _ => let v := digits_value base ds in if ULONG_MAX <? v then (ULONG_MAX, false, r) else (v, true, r)
  end.

(** The loop over the suffix: [lcount] and [isUnsigned]. *)
Fixpoint read_suffix (s : bytes) (lcount : Z) (isUnsigned : bool) : outcome (Z * bool) :=
  match s with
  | [] => Val (lcount, isUnsigned)
  | c :: s =>
      if (c =c "L") || (c =c "l") then
        if lcount =? 2 then Throw (RuntimeError (B "too many Ls in integer constant"))
        else read_suffix s (lcount + 1) isUnsigned
      else if (c =c "U") || (c =c "u") then read_suffix s lcount true
      else read_suffix s lcount isUnsigned
  end.

(** [IntegerConstant(interp, yytext, base)]; the token has no blanks. *)
Definition integer_constant (yytext : bytes) (base : Z) (is32Bit : bool) : outcome expr :=
  let '(val, good, rest) := read_constant base yytext in
  let! (lcount, isUnsigned) :=
    (if good && negb (length rest =? 0)%nat then read_suffix rest 0 false
     else Val (0, (base =? 16) && (nth 2 yytext NUL =c "0") && (length yytext <=? 18)%nat)) in
  let! lcount :=
    (if 2 ^ 32 - 1 <? val then
       if is32Bit && (lcount <? 2) then
         Throw (RuntimeError (B "integer constant is too large for long type"))
       else Val 2
     else Val lcount) in
  let lcount := if negb (lcount =? 0) && negb is32Bit then 2 else lcount in
  let nbits := if lcount =? 2 then 64 else 32 in
  let tag := int_tag nbits (negb isUnsigned) in
  Val (Constant (IntType nbits (negb isUnsigned)) (put_int tag (nbits / 8) val)).

(** [IntegerConstant(interp, c)]: a character. *)
Definition char_constant (c : ascii) : expr := Constant (IntType 8 true) (put_int VT_INT8 1 (code c)).

(** The loop over the suffix of a floating point constant. *)
Fixpoint read_float_suffix (s : bytes) (tag : TypeTag) : outcome TypeTag :=
  match s with
  | [] => Val tag
  | c :: s =>
      let set t := match tag with
                   | VT_DOUBLE => read_float_suffix s t
                   | _ => Throw (RuntimeError (B "both F and L specified in constant"))
                   end in
      if (c =c "f") || (c =c "F") then set VT_FLOAT
      else if (c =c "l") || (c =c "L") then set VT_LONG_DOUBLE
      else read_float_suffix s tag
  end.

(** [FloatingPointConstant(interp, yytext)]: the value is read as [long double]; a stream that
    could not read it has no suffix either. *)
Definition floating_constant (yytext : bytes) : outcome expr :=
  let '(value, rest) :=
    match FloatArith.dec_number FloatArith.long_double_format false yytext with
    | Some (v, r) => (LongFloat.Num v, r)
    | None => (LongFloat.Num (LongDouble.Fin false 0 0), [])
    end in
  let! tag := read_float_suffix rest VT_DOUBLE in
  let store f := FloatArith.convert f value in
  Val match tag with
      | VT_FLOAT => Constant (FloatType 32) (put_real VT_FLOAT (store FloatArith.float_format))
      | VT_DOUBLE => Constant (FloatType 64) (put_real VT_DOUBLE (store FloatArith.double_format))
      | _ => Constant (FloatType 128) (put_real VT_LONG_DOUBLE value)
      end.
