(* ===== verification/ExprTests.v ===== *)
(** * The test program of the interpreter

    [interp/main.cpp]: the expressions of its tests of additive, multiplicative, bit and
    relational operators, pointer arithmetic and complement, with the tag and the value that
    each is expected to have. Operands that are variables of the test context have the type
    and the text that [populate_context] gives them. *)
From S2P Require Import Prelude CLib DString DReal LongFloat FloatArith Variant Expr.
Import DString.Impl(u64).
Local Open Scope Z_scope.

(** A variable of the test context. *)
Definition variable (t : DataType) (text : bytes) : expr := Constant t (snd (parse t text)).

Definition typeDouble : DataType := FloatType 64.
Definition var_i := variable (int_type true) (B "1").
Definition var_j := variable (int_type true) (B "1").
Definition var_m := variable (int_type true) (B "-1").
Definition var_k := variable (int_type false) (B "2").
Definition var_x := variable (IntType 64 true) (B "123").
Definition var_y := variable (IntType 64 false) (B "456").
Definition var_bits := variable (IntType 7 true) (B "2").
Definition var_pi := variable typeDouble (B "3.1419").
Definition var_s := variable (IntType 16 true) (B "1").
Definition var_xs := variable (IntType 16 true) (B "0xffff").
Definition var_us := variable (IntType 16 false) (B "1").
Definition var_dptr := variable (PointerType 64 8 false) (B "0x40001000").
Definition max_int64 := variable (IntType 64 true) (B "9223372036854775807").
Definition max_uint64 := variable (IntType 64 false) (B "18446744073709551615").

(** A constant of the program text. *)
Definition int_const (s : bytes) : expr :=
  let base := if match s with z :: x :: _ => (z =c "0") && (x =c "x") | _ => false end then 16 else 10 in
  match integer_constant s base false with Val e => e | Throw _ => Constant (int_type true) new_variant end.
Definition float_const (s : bytes) : expr :=
  match floating_constant s with Val e => e | Throw _ => Constant typeDouble new_variant end.

(** What a test expects: a tag with an integer, with a floating point number or with an address;
    an error. *)
Inductive expectation : Type :=
| IsInt (t : TypeTag) (n : Z)
| IsDouble (s : bytes)
| IsPointer (n : Z)
| IsError.

Definition tag_eqb (a b : TypeTag) : bool :=
  (tag_bytes a =? tag_bytes b) && Bool.eqb (is_signed_tag a) (is_signed_tag b)
  && Bool.eqb (is_unsigned_tag a) (is_unsigned_tag b) && Bool.eqb (is_float_tag a) (is_float_tag b).

Definition same_number (x y : LongFloat.t) : bool := negb (FloatArith.lt x y) && negb (FloatArith.lt y x).

Definition meets (r : outcome value) (x : expectation) : bool :=
  match r, x with
  | Throw _, IsError => true
  | Val (_, v), IsInt t n =>
      tag_eqb (type_tag v) t && match int_operand v with Val m => m =? n | Throw _ => false end
  | Val (_, v), IsDouble s =>
      tag_eqb (type_tag v) VT_DOUBLE
      && match long_double v with
         | Val y => same_number y (fst (FloatArith.strtod FloatArith.double_format s))
         | Throw _ => false
         end
  | Val (_, v), IsPointer n =>
      is_tag VT_POINTER v && match pointer v with Val m => m =? n | Throw _ => false end
  | _, _ => false
  end.

Definition is_true := IsInt VT_INT32 1.
Definition is_false := IsInt VT_INT32 0.
Definition num (s : bytes) := int_const s.

Definition additive_tests : list (expr * expectation) :=
  [ (Additive PLUS var_i (num (B "1")), IsInt VT_INT32 2);
    (Additive PLUS var_i var_j, IsInt VT_INT32 2);
    (Additive MINUS var_i var_j, IsInt VT_INT32 0);
    (Additive PLUS (Additive PLUS var_i (Additive PLUS var_i var_j)) var_j, IsInt VT_INT32 4);
    (Additive PLUS var_i var_bits, IsInt VT_INT32 3);
    (Additive PLUS var_x var_i, IsInt VT_INT64 124);
    (Additive PLUS var_y var_i, IsInt VT_UINT64 457);
    (Additive PLUS var_y var_x, IsInt VT_UINT64 579);
    (Additive PLUS var_x var_x, IsInt VT_INT64 246);
    (Additive MINUS var_x var_y, IsInt VT_UINT64 (u64 (-333))) ].

Definition pointer_tests : list (expr * expectation) :=
  [ (Additive PLUS var_dptr (num (B "1")), IsPointer 0x40001008);
    (Additive MINUS (num (B "1")) var_dptr, IsError) ].

Definition float_tests : list (expr * expectation) :=
  [ (var_pi, IsDouble (B "3.1419"));
    (Additive PLUS var_pi (float_const (B ".01")), IsDouble (B "3.1519"));
    (Additive MINUS var_pi var_i, IsDouble (B "2.1419"));
    (Additive MINUS var_i var_pi, IsDouble (B "-2.1419"));
    (Additive PLUS var_i var_pi, IsDouble (B "4.1419"));
    (Additive PLUS var_pi var_pi, IsDouble (B "6.2838")) ].

Definition comparison_tests : list (expr * expectation) :=
  [ (Relational EQ (num (B "1")) (num (B "1")), is_true);
    (Relational NEQ (num (B "1")) (num (B "1")), is_false);
    (Relational GT var_i (num (B "0")), is_true);
    (Relational LT (num (B "0")) var_i, is_true);
    (Relational GTE var_i (num (B "0")), is_true);
    (Relational LTE (num (B "0")) var_i, is_true);
    (Relational NEQ (num (B "0")) var_i, is_true);
    (Relational EQ (float_const (B "1.0")) (num (B "1")), is_true);
    (Relational NEQ (float_const (B "1.0")) (num (B "1")), is_false);
    (Relational GT var_i (float_const (B "0.1")), is_true);
    (Relational LT (float_const (B "0.3")) var_i, is_true);
    (Relational GTE var_i (float_const (B "0.2")), is_true);
    (Relational LTE (float_const (B ".5")) var_i, is_true);
    (Relational NEQ (float_const (B "0.123")) var_i, is_true);
    (Relational GT (float_const (B "1.3")) var_i, is_true);
    (Relational LTE var_i (float_const (B "1.2")), is_true);
    (Relational GTE (float_const (B "1.5")) var_i, is_true);
    (Relational NEQ var_i (float_const (B "1.23")), is_true) ].

Definition multiplicative_tests : list (expr * expectation) :=
  [ (Multiplicative MUL var_i var_k, IsInt VT_UINT32 2);
    (Multiplicative MUL var_m var_k, IsInt VT_UINT32 4294967294);
    (Multiplicative MUL var_k var_m, IsInt VT_UINT32 4294967294);
    (Multiplicative MUL (Unary UMINUS (num (B "1"))) var_m, IsInt VT_INT32 1);
    (Multiplicative MUL (Unary UMINUS (num (B "1"))) var_k, IsInt VT_UINT32 4294967294);
    (Multiplicative MOD (num (B "8")) (num (B "3")), IsInt VT_INT32 2);
    (Multiplicative MUL var_k (float_const (B "3.1419")), IsDouble (B "6.2838"));
    (Multiplicative MUL (float_const (B "3.1419")) (num (B "2")), IsDouble (B "6.2838"));
    (Multiplicative DIV (float_const (B "3.14")) (num (B "2")), IsDouble (B "1.57"));
    (Multiplicative MOD (float_const (B "3.14")) (num (B "2")), IsError);
    (Multiplicative DIV (num (B "4")) (float_const (B "2.0")), IsDouble (B "2")) ].

Definition bit_tests : list (expr * expectation) :=
  [ (Bit LEFT_SHIFT var_s (num (B "1")), IsInt VT_INT32 2);
    (Bit LEFT_SHIFT var_xs (num (B "1")), IsInt VT_INT32 0xfffe);
    (Bit LEFT_SHIFT var_s (Unary UMINUS (num (B "1"))), IsInt VT_INT32 (-2147483648));
    (Bit LEFT_SHIFT var_us (Unary UMINUS (num (B "1"))), IsInt VT_UINT32 2147483648);
    (Bit LEFT_SHIFT max_int64 (num (B "1")), IsInt VT_INT64 (-2));
    (Bit LEFT_SHIFT max_uint64 (num (B "1")), IsInt VT_UINT64 0xfffffffffffffffe);
    (Bit AND (num (B "0x5")) (num (B "0x4")), IsInt VT_INT32 4);
    (Unary BITNEG (num (B "1")), IsInt VT_INT32 (-2)) ].

Definition all_tests : list (expr * expectation) :=
  additive_tests ++ pointer_tests ++ float_tests ++ comparison_tests ++ multiplicative_tests ++ bit_tests.

(** The interpreter meets the expectations of its test program. *)
Theorem interpreter_passes_tests : forallb (fun t => meets (eval (fst t)) (snd t)) all_tests = true.
Proof. vm_compute. reflexivity. Qed.

(** Expressions on which the interpreter differs from C: bit operators clear the sign of the
    operand on the left; an unsigned operand on the right gives a bit operator its type,
    however small; a negative floating point divisor counts as zero, and so does a
    negative operand of [!]; floating point results keep six digits; [&&] truncates its
    operands to integers; the type of unary [+] is not set; a decimal constant above the
    range of [int] is negative. *)
Definition differences : list (expr * expectation) :=
  [ (Bit AND var_m var_m, IsInt VT_INT32 2147483647);
    (Bit RIGHT_SHIFT (Unary UMINUS (num (B "2"))) (num (B "1")), IsInt VT_INT32 1073741823);
    (Bit OR (num (B "4660L")) (variable (IntType 8 false) (B "1")), IsInt VT_UINT8 0x35);
    (Multiplicative DIV (num (B "1")) (Unary UMINUS (float_const (B "2.0"))), IsError);
    (Unary NEGATE (Unary UMINUS (float_const (B "1.5"))), is_true);
    (Multiplicative DIV (float_const (B "1.0")) (float_const (B "3.0")), IsDouble (B "0.333333"));
    (Logical LAND (float_const (B "0.5")) (num (B "1")), is_false);
    (Additive PLUS (Unary UPLUS (num (B "1"))) (num (B "2")), IsError);
    (num (B "3000000000"), IsInt VT_INT32 (-1294967296)) ].

(** Constants of the three kinds, with and without suffixes. *)
Definition constant_tests : list (expr * expectation) :=
  [ (num (B "42u"), IsInt VT_UINT32 42); (num (B "42L"), IsInt VT_INT64 42); (num (B "42ull"), IsInt VT_UINT64 42);
    (num (B "0xff"), IsInt VT_INT32 255); (num (B "0x0000ffff"), IsInt VT_UINT32 65535);
    (num (B "4294967296"), IsInt VT_INT64 4294967296); (float_const (B "2.5"), IsDouble (B "2.5"));
    (Additive PLUS (char_constant "A") (char_constant "!"), IsInt VT_INT8 98) ].

Example constants_read :
  forallb (fun t => meets (eval (fst t)) (snd t)) constant_tests = true
  /\ integer_constant (B "1LLL") 10 false = Throw (RuntimeError (B "too many Ls in integer constant"))
  /\ integer_constant (B "5000000000") 10 true
     = Throw (RuntimeError (B "integer constant is too large for long type"))
  /\ floating_constant (B "1.5fL") = Throw (RuntimeError (B "both F and L specified in constant")).
Proof. repeat split; vm_compute; reflexivity. Qed.

Example interpreter_differs : forallb (fun t => meets (eval (fst t)) (snd t)) differences = true.
Proof. vm_compute. reflexivity. Qed.
