(* ===== verification/ExprCorrect.v ===== *)
(** * Properties of the expression interpreter

    Integer operators against the arithmetic of C, conversions, divisions and conditions. *)
From Stdlib Require Import Setoid Morphisms.
From S2P Require Import Prelude CLib DString DReal LongFloat FloatArith Variant VariantCorrect Expr.
Import DString.Impl(u64).
Local Open Scope Z_scope.

(** ** Congruence modulo [2 ^ 64] *)

Definition congr (a b : Z) : Prop := a mod 2 ^ 64 = b mod 2 ^ 64.

#[local] Instance congr_equiv : Equivalence congr.
Proof. split; unfold congr; [easy | easy | congruence]. Qed.

#[local] Instance congr_add : Proper (congr ==> congr ==> congr)%signature Z.add.
Proof. intros a b H c d G. unfold congr in *. rewrite Z.add_mod, H, G, <- Z.add_mod by lia. reflexivity. Qed.

#[local] Instance congr_sub : Proper (congr ==> congr ==> congr)%signature Z.sub.
Proof. intros a b H c d G. unfold congr in *. rewrite Zminus_mod, H, G, <- Zminus_mod. reflexivity. Qed.

#[local] Instance congr_mul : Proper (congr ==> congr ==> congr)%signature Z.mul.
Proof. intros a b H c d G. unfold congr in *. rewrite Z.mul_mod, H, G, <- Z.mul_mod by lia. reflexivity. Qed.

#[local] Instance congr_opp : Proper (congr ==> congr)%signature Z.opp.
Proof. intros a b H. rewrite <- !Z.sub_0_l. now rewrite H. Qed.

Lemma congr_u64 n : congr (u64 n) n.
Proof. unfold congr, u64. now rewrite Z.mod_mod by lia. Qed.

Lemma congr_s64 n : congr (s64 n) n.
Proof.
  unfold congr, s64, to_signed. rewrite Zminus_mod_idemp_l. f_equal. lia.
Qed.

Lemma int_variant_congr w signed a b : width w -> congr a b -> int_variant w signed a = int_variant w signed b.
Proof.
  intros Hw H. unfold int_variant, put_int. do 2 f_equal. unfold congr in H.
  replace (8 * (w / 8)) with w by (destruct Hw as [-> | [-> | [-> | ->]]]; reflexivity).
  assert (forall n, (n mod 2 ^ 64) mod 2 ^ w = n mod 2 ^ w) as E.
  { intros n. apply mod_mod_le; [destruct Hw as [-> | [-> | [-> | ->]]]; lia | lia |].
    exists (2 ^ (64 - w)). destruct Hw as [-> | [-> | [-> | ->]]]; reflexivity. }
  now rewrite <- E, H, E.
Qed.

Lemma in_64_u64 n : in_64 (u64 n).
Proof. unfold in_64, u64. pose proof (Z.mod_pos_bound n (2 ^ 64)). lia. Qed.

Lemma s64_bound n : - 2 ^ 63 <= s64 n < 2 ^ 63.
Proof. exact (wrap_has_type 64 true n ltac:(lia)). Qed.

(** ** Integer operands *)

(** A constant of an integer type with the value [n]. *)
Definition int_expr (w : Z) (signed : bool) (n : Z) : expr := Constant (IntType w signed) (int_variant w signed n).

Lemma has_type_in_64 w signed n : width w -> has_type w signed n -> in_64 n.
Proof.
  unfold has_type, in_64. intros [-> | [-> | [-> | ->]]]; destruct signed; cbn -[Z.pow]; lia.
Qed.

Lemma eval_int_operands w1 s1 a w2 s2 b : width w1 -> width w2 ->
  eval_operands eval (int_expr w1 s1 a) (int_expr w2 s2 b)
  = Val ((IntType w1 s1, int_variant w1 s1 a), (IntType w2 s2, int_variant w2 s2 b)).
Proof.
  intros H1 H2. destruct (int_variant_tags w1 s1 a H1) as (_ & _ & _ & _ & _ & Ha & Hn & _).
  destruct (int_variant_tags w2 s2 b H2) as (_ & _ & _ & _ & _ & Ha' & Hn' & _).
  unfold eval_operands, eval_lhs, eval_rhs, int_expr. cbn [eval obind check_operand].
  rewrite Hn, Ha. cbn [obind]. now rewrite Hn', Ha'.
Qed.

Lemma int_operand_value w signed n : width w -> has_type w signed n ->
  int_operand (int_variant w signed n) = Val n.
Proof.
  intros Hw Hn. rewrite (int_operand_wrap int_operand) by (exact Hw || reflexivity).
  rewrite wrap_id; [reflexivity | destruct Hw as [-> | [-> | [-> | ->]]]; lia | exact Hn].
Qed.

Lemma uint64_value n : has_type 64 false n -> uint64 (int_variant 64 false n) = Val n.
Proof. intros Hn. exact (int_operand_value 64 false n ltac:(unfold width; auto) Hn). Qed.

Lemma int64_value w signed n : width w -> has_type w signed n -> (w =? 64) && negb signed = false ->
  int64 (int_variant w signed n) = Val n.
Proof.
  intros Hw Hn Hu. pose proof (int_operand_value w signed n Hw Hn) as E. unfold int_operand in E.
  rewrite is_tag_uint64, Hu in E by exact Hw. exact E.
Qed.

(** The type of the result: the larger one, the unsigned one among types of the same size. From
    32 bits on, these are the usual arithmetic conversions of C. *)
Definition common (w1 : Z) (s1 : bool) (w2 : Z) (s2 : bool) : Z * bool :=
  if w2 <? w1 then (w1, s1) else if w1 <? w2 then (w2, s2) else (w1, s1 && s2).

Lemma set_int_type_common w1 s1 a w2 s2 b : width w1 -> width w2 ->
  set_int_type (IntType w1 s1, int_variant w1 s1 a) (IntType w2 s2, int_variant w2 s2 b)
  = IntType (fst (common w1 s1 w2 s2)) (snd (common w1 s1 w2 s2)).
Proof.
  intros H1 H2. unfold set_int_type, common.
  destruct (int_variant_tags w1 s1 a H1) as (_ & _ & -> & _ & _ & _ & _ & ->).
  destruct (int_variant_tags w2 s2 b H2) as (_ & _ & _ & _ & _ & _ & _ & ->).
  destruct H1 as [-> | [-> | [-> | ->]]], H2 as [-> | [-> | [-> | ->]]]; cbn; try reflexivity;
    now destruct s1.
Qed.

Lemma common_width w1 s1 w2 s2 : width w1 -> width w2 -> width (fst (common w1 s1 w2 s2)).
Proof. intros H1 H2. unfold common. destruct (w2 <? w1), (w1 <? w2); assumption. Qed.

Lemma common_uint64_l w2 s2 : width w2 -> common 64 false w2 s2 = (64, false).
Proof. intros [-> | [-> | [-> | ->]]]; reflexivity. Qed.

Lemma common_uint64_r w1 s1 : width w1 -> common w1 s1 64 false = (64, false).
Proof. intros [-> | [-> | [-> | ->]]]; destruct s1; reflexivity. Qed.

(** The expression of the common type whose value is congruent to [n]. *)
Definition int_result (c : Z * bool) (n : Z) : outcome value :=
  Val (Some (IntType (fst c) (snd c)), int_variant (fst c) (snd c) n).

Lemma assign_result c m n : width (fst c) -> congr m n -> in_64 m -> m < 2 ^ 63 \/ fst c = 64 ->
  Val (Some (IntType (fst c) (snd c)), assign_Z (IntType (fst c) (snd c)) m) = int_result c n.
Proof.
  intros Hw Hc Hm H8. unfold int_result. rewrite assign_Z_wraps, int_width_id; try assumption.
  - now rewrite (int_variant_congr (fst c) (snd c) m n Hw Hc).
  - rewrite int_width_id by assumption. destruct H8 as [H8 | ->]; [now right | now left].
Qed.

(** ** Sums, differences and products *)

Definition arith_int (op : AdditiveOp) (a b : Z) : Z := match op with PLUS => a + b | MINUS => a - b end.

Section Operands.
Context (w1 : Z) (s1 : bool) (a : Z) (w2 : Z) (s2 : bool) (b : Z).
Hypotheses (H1 : width w1) (H2 : width w2) (Ha : has_type w1 s1 a) (Hb : has_type w2 s2 b).

Let l : operand := (IntType w1 s1, int_variant w1 s1 a).
Let r : operand := (IntType w2 s2, int_variant w2 s2 b).
Let c : Z * bool := common w1 s1 w2 s2.
Let u1 : bool := (w1 =? 64) && negb s1.
Let u2 : bool := (w2 =? 64) && negb s2.

Lemma common_left : u1 = true -> IntType w1 s1 = IntType (fst c) (snd c) /\ fst c = 64.
Proof.
  unfold u1, c. intros [E Es]%andb_true_iff. apply Z.eqb_eq in E as ->. destruct s1; [discriminate|].
  rewrite common_uint64_l by exact H2. auto.
Qed.

Lemma common_right : u2 = true -> IntType w2 s2 = IntType (fst c) (snd c) /\ fst c = 64.
Proof.
  unfold u2, c. intros [E Es]%andb_true_iff. apply Z.eqb_eq in E as ->. destruct s2; [discriminate|].
  rewrite common_uint64_r by exact H1. auto.
Qed.

Lemma uint64_left : u1 = true -> uint64 (int_variant w1 s1 a) = Val a.
Proof.
  unfold u1. intros [E Es]%andb_true_iff. apply Z.eqb_eq in E as ->. destruct s1; [discriminate|].
  now apply uint64_value.
Qed.

Lemma uint64_right : u2 = true -> uint64 (int_variant w2 s2 b) = Val b.
Proof.
  unfold u2. intros [E Es]%andb_true_iff. apply Z.eqb_eq in E as ->. destruct s2; [discriminate|].
  now apply uint64_value.
Qed.

(** The result of a computation on the left type, the right type or the common type. *)
Lemma assign_left m n : u1 = true -> congr m n -> in_64 m ->
  Val (Some (IntType w1 s1), assign_Z (IntType w1 s1) m) = int_result c n.
Proof.
  intros Hu Hc Hm. destruct (common_left Hu) as [-> E]. apply assign_result; auto. now apply common_width.
Qed.

Lemma assign_right m n : u2 = true -> congr m n -> in_64 m ->
  Val (Some (IntType w2 s2), assign_Z (IntType w2 s2) m) = int_result c n.
Proof.
  intros Hu Hc Hm. destruct (common_right Hu) as [-> E]. apply assign_result; auto. now apply common_width.
Qed.

Lemma assign_common m n : congr m n -> - 2 ^ 63 <= m < 2 ^ 63 ->
  Val (Some (set_int_type l r), assign_Z (set_int_type l r) m) = int_result c n.
Proof.
  intros Hc Hm. unfold l, r. rewrite set_int_type_common by assumption.
  apply assign_result; [now apply common_width | exact Hc | unfold in_64; lia | left; lia].
Qed.

Lemma eval_additive_int op : eval_additive op l r = int_result c (arith_int op a b).
Proof.
  destruct (int_variant_tags w1 s1 a H1) as (Hi & Hf & Hs & Hp & Ho & _).
  destruct (int_variant_tags w2 s2 b H2) as (Hi' & Hf' & Hs' & Hp' & Ho' & _).
  unfold eval_additive, l, r. rewrite Hp, Ho, Ho', Hi, Hp', Hi', !is_tag_uint64 by assumption.
  cbn [orb]. fold u1 u2. destruct u1 eqn:Hu1; [|destruct u2 eqn:Hu2].
  - unfold add_uint64_int. rewrite (uint64_left Hu1), int_operand_value by assumption. cbn [obind].
    destruct op; apply assign_left; auto using in_64_u64; apply congr_u64.
  - unfold add_uint64_int. rewrite (uint64_right Hu2), int_operand_value by assumption. cbn [obind].
    destruct op; apply assign_right; auto using in_64_u64; rewrite congr_u64; cbn [arith_int];
      [now rewrite Z.add_comm | rewrite congr_u64; now rewrite Z.opp_sub_distr, Z.add_comm].
  - unfold add_integers. cbn [snd]. rewrite !int64_value by assumption. cbn [obind].
    apply assign_common; [apply congr_s64 | apply s64_bound].
Qed.

Lemma eval_product_int : eval_multiplicative MUL l r = int_result c (a * b).
Proof.
  destruct (int_variant_tags w1 s1 a H1) as (Hi & Hf & Hs & Hp & Ho & _).
  destruct (int_variant_tags w2 s2 b H2) as (Hi' & Hf' & Hs' & Hp' & Ho' & _).
  unfold eval_multiplicative, eval_int_by_int, l, r. rewrite Hp, Ho, Ho', Hi, Hp', Hi', !is_tag_uint64 by assumption.
  cbn [orb]. fold u1 u2. destruct u1 eqn:Hu1; destruct u2 eqn:Hu2.
  - rewrite (uint64_left Hu1), (uint64_right Hu2). cbn [obind checked unsigned_op].
    apply assign_left; auto using in_64_u64. apply congr_u64.
  - rewrite (uint64_left Hu1), int64_value by assumption. cbn [obind].
    apply assign_left; auto using in_64_u64. now rewrite congr_u64, congr_u64.
  - rewrite (uint64_right Hu2), int64_value by assumption. cbn [obind checked unsigned_op].
    apply assign_right; [assumption | now rewrite congr_s64, !congr_u64 |].
    pose proof (s64_bound (u64 (u64 a * b))). unfold in_64. lia.
  - rewrite !int64_value by assumption. cbn [obind].
    apply assign_common; [apply congr_s64 | apply s64_bound].
Qed.

(** ** Quotients and remainders *)

(** [eval_multiplicative] of integers, with the case analysis on [uint64_t]. *)
Lemma eval_multiplicative_int op : eval_multiplicative op l r = eval_int_by_int op l r.
Proof.
  destruct (int_variant_tags w1 s1 a H1) as (Hi & Hf & Hs & Hp & Ho & _).
  destruct (int_variant_tags w2 s2 b H2) as (Hi' & Hf' & Hs' & Hp' & Ho' & _).
  unfold eval_multiplicative, l, r. now rewrite Hp, Ho, Ho', Hi, Hp', Hi'.
Qed.

Lemma eval_zero_divisor : b = 0 ->
  eval_multiplicative DIV l r = division_by_zero
  /\ eval_multiplicative MOD l r = if u1 then division_by_zero else Throw SIGFPE.
Proof.
  intros Hz. rewrite !eval_multiplicative_int. unfold eval_int_by_int, l, r. rewrite !is_tag_uint64 by assumption.
  fold u1 u2. destruct u1 eqn:Hu1; destruct u2 eqn:Hu2;
    rewrite ?(uint64_left Hu1), ?(uint64_right Hu2), ?int64_value by assumption; cbn [obind]; rewrite Hz; auto.
Qed.

Lemma u64_nonneg n : in_64 n -> 0 <= n -> u64 n = n.
Proof. unfold in_64, u64. intros Hn H. apply Z.mod_small. lia. Qed.

Lemma s64_small n : 0 <= n < 2 ^ 63 -> s64 n = n.
Proof. intros Hn. apply (wrap_id 64 true n); [lia | cbn; lia]. Qed.

Lemma int64_range w signed n : width w -> has_type w signed n -> (w =? 64) && negb signed = false ->
  n < 2 ^ 63.
Proof. unfold has_type. intros [-> | [-> | [-> | ->]]]; destruct signed; cbn -[Z.pow]; try discriminate; lia. Qed.

Lemma eval_nonneg_division : 0 <= a -> 0 < b ->
  eval_multiplicative DIV l r = int_result c (a / b)
  /\ eval_multiplicative MOD l r = int_result c (if u1 && negb u2 then 0 else a mod b).
Proof.
  intros Hpa Hpb. pose proof (has_type_in_64 w1 s1 a H1 Ha) as Ba. pose proof (has_type_in_64 w2 s2 b H2 Hb) as Bb.
  pose proof (Z.div_pos a b Hpa Hpb) as Hq. pose proof (Z.div_le_upper_bound a b a Hpb ltac:(nia)) as Hq'.
  pose proof (Z.mod_pos_bound a b Hpb) as Hm. pose proof (Z.mod_le a b Hpa Hpb) as Hm'.
  unfold in_64 in Ba, Bb.
  rewrite !eval_multiplicative_int. unfold eval_int_by_int, l, r. rewrite !is_tag_uint64 by assumption.
  fold u1 u2. destruct u1 eqn:Hu1; destruct u2 eqn:Hu2;
    rewrite ?(uint64_left Hu1), ?(uint64_right Hu2), ?int64_value by assumption; cbn [obind andb negb].
  - unfold unsigned_op. replace (b =? 0) with false by lia. cbn [checked obind].
    split; apply assign_left; auto; try reflexivity; unfold in_64; lia.
  - rewrite (u64_nonneg b) by (unfold in_64; lia). unfold unsigned_op. replace (b =? 0) with false by lia.
    cbn [checked obind]. rewrite (Z.div_small (a mod b) b) by lia.
    split; apply assign_left; auto; try reflexivity; unfold in_64; lia.
  - rewrite (u64_nonneg a) by (unfold in_64; lia). unfold unsigned_op. replace (b =? 0) with false by lia.
    pose proof (int64_range w1 s1 a H1 Ha Hu1). cbn [checked trapping obind].
    rewrite (s64_small (a / b)), (s64_small (a mod b)) by lia.
    split; apply assign_right; auto; try reflexivity; unfold in_64; lia.
  - pose proof (int64_range w1 s1 a H1 Ha Hu1). pose proof (int64_range w2 s2 b H2 Hb Hu2).
    rewrite !(u64_nonneg a), !(u64_nonneg b) by (unfold in_64; lia). unfold unsigned_op.
    replace (b =? 0) with false by lia. replace (a =? - 2 ^ 63) with false by lia. cbn [checked obind orb andb].
    rewrite Z.rem_mod_nonneg, (s64_small (a / b)) by lia.
    split; apply assign_common; try reflexivity; lia.
Qed.

Lemma eval_signed_remainder : u1 = false -> u2 = false -> b <> 0 -> ~ (a = - 2 ^ 63 /\ b = -1) ->
  eval_multiplicative MOD l r = int_result c (Z.rem a b).
Proof.
  intros Hu1 Hu2 Hz Ho. rewrite eval_multiplicative_int. unfold eval_int_by_int, l, r.
  rewrite !is_tag_uint64 by assumption. fold u1 u2. rewrite Hu1, Hu2, !int64_value by assumption. cbn [obind].
  replace ((b =? 0) || (a =? - 2 ^ 63) && (b =? -1)) with false by lia. cbn [obind].
  pose proof (has_type_in_64 w1 s1 a H1 Ha) as Ba. unfold in_64 in Ba.
  pose proof (int64_range w1 s1 a H1 Ha Hu1).
  apply assign_common; [reflexivity|]. pose proof (Z.rem_le (Z.abs a) (Z.abs b) ltac:(lia) ltac:(lia)) as Hle.
  pose proof (Z.rem_abs a b Hz) as Habs. lia.
Qed.
End Operands.

(** ** Conversions *)

Lemma variant_print_int w signed n : width w ->
  variant_print (int_variant w signed n) = Val (print_Z (wrap w signed n)).
Proof.
  intros Hw. pose proof (int_operand_wrap int_operand w signed n Hw eq_refl) as E. unfold int_operand in E.
  rewrite is_tag_uint64 in E by exact Hw.
  pose proof (wrap_has_type w signed n ltac:(destruct Hw as [-> | [-> | [-> | ->]]]; lia)) as Hh.
  unfold variant_print.
  destruct Hw as [-> | [-> | [-> | ->]]]; destruct signed; cbn -[Z.pow Z.modulo int64 uint64 print_Z wrap] in *;
    rewrite E; cbn [obind]; do 2 f_equal; unfold has_type in Hh.
  all: try (apply (wrap_id 32 true); [lia|]; cbn -[Z.pow wrap]; lia).
  all: apply (wrap_id 32 false); [lia|]; cbn -[Z.pow wrap]; lia.
Qed.

(** A number that a [long] does not have is read as the largest one by the 8-bit types. *)
Lemma assign_Z_clamped nbits signed n : int_width nbits = 8 -> 2 ^ 63 <= n ->
  assign_Z (IntType nbits signed) n = int_variant 8 signed (-1).
Proof.
  intros Hw Hn. unfold assign_Z, parse, parse_int, from_string. rewrite Hw. cbn [Z.eqb Pos.eqb].
  destruct (print_head n) as [_ Hq]. unfold int8_from_string.
  destruct (print_Z n) as [|q t] eqn:E; rewrite <- E in *; rewrite ?E in Hq; cbn [hd] in Hq; rewrite ?Hq.
  all: rewrite strtol_print; unfold clamp_long; replace (LONG_MAX <? n) with true by (unfold LONG_MAX; lia); reflexivity.
Qed.

Lemma convert_int w s n nbits s' : width w ->
  variant_convert (int_variant w s n) (IntType nbits s')
  = Val (int_variant (int_width nbits) s'
           (if (int_width nbits =? 8) && (2 ^ 63 <=? wrap w s n) then -1 else wrap w s n)).
Proof.
  intros Hw. unfold variant_convert. rewrite variant_print_int by exact Hw. cbn [obind].
  change (snd (parse (IntType nbits s') (print_Z (wrap w s n)))) with (assign_Z (IntType nbits s') (wrap w s n)).
  pose proof (wrap_has_type w s n ltac:(destruct Hw as [-> | [-> | [-> | ->]]]; lia)) as Hh.
  pose proof (has_type_in_64 w s _ Hw Hh) as B. destruct (Z.eqb_spec (int_width nbits) 8) as [E|E];
    destruct (Z.leb_spec (2 ^ 63) (wrap w s n)); cbn [andb].
  - rewrite E. now rewrite assign_Z_clamped.
  - rewrite assign_Z_wraps; [reflexivity | exact B | right; lia].
  - rewrite assign_Z_wraps; [reflexivity | exact B | now left].
  - rewrite assign_Z_wraps; [reflexivity | exact B | now left].
Qed.

(** ** Conditions *)

Definition compares (op : RelationalOp) (a b : Z) : bool :=
  match op with
  | EQ => a =? b | NEQ => negb (a =? b)
  | LT => a <? b | LTE => a <=? b
  | GT => b <? a | GTE => b <=? a
  end.

Definition flag (b : bool) : outcome value := Val (Some (int_type true), put_flag (if b then 1 else 0)).

Lemma relation_order op x y : relation_holds op (order (x <? y) (y <? x)) = compares op x y.
Proof.
  unfold order. destruct (Z.ltb_spec x y), (Z.ltb_spec y x); destruct op; cbn; lia.
Qed.

Lemma eval_relational_int op w1 s1 a w2 s2 b :
  width w1 -> width w2 -> has_type w1 s1 a -> has_type w2 s2 b ->
  eval_relational op (IntType w1 s1, int_variant w1 s1 a) (IntType w2 s2, int_variant w2 s2 b)
  = flag (if (w1 =? 64) && negb s1 || (w2 =? 64) && negb s2 then compares op (u64 a) (u64 b)
          else compares op a b).
Proof.
  intros H1 H2 Ha Hb.
  destruct (int_variant_tags w1 s1 a H1) as (Hi & Hf & Hs & Hp & Ho & _).
  destruct (int_variant_tags w2 s2 b H2) as (Hi' & Hf' & Hs' & Hp' & Ho' & _).
  unfold eval_relational, flag, compare_integers. rewrite Hp, Hi, Hp', Hi', !int_operand_value by assumption.
  cbn [obind]. rewrite !is_tag_uint64 by assumption.
  destruct (_ || _); cbn [obind]; now rewrite relation_order.
Qed.

(** The value of an [int] flag. *)
Lemma put_flag_wrap n : put_flag n = int_variant 32 true n.
Proof. reflexivity. Qed.

Lemma eval_lhs_int w s n rhs : width w ->
  eval_lhs eval (int_expr w s n) rhs = Val (IntType w s, int_variant w s n).
Proof.
  intros Hw. destruct (int_variant_tags w s n Hw) as (_ & _ & _ & _ & _ & Ha & Hn & _).
  unfold eval_lhs, int_expr. cbn [eval obind check_operand]. now rewrite Hn, Ha.
Qed.

Lemma eval_rhs_int l w s n : width w ->
  eval_rhs eval l (int_expr w s n) = Val (IntType w s, int_variant w s n).
Proof.
  intros Hw. destruct (int_variant_tags w s n Hw) as (_ & _ & _ & _ & _ & Ha & Hn & _).
  unfold eval_rhs, int_expr. cbn [eval obind check_operand]. now rewrite Hn, Ha.
Qed.

(** The truth of an operand of [&&] and [||]: its low 32 bits. *)
Lemma convert_flag w s n : width w -> has_type w s n ->
  exists bits, (let! v := variant_convert (int_variant w s n) (int_type true) in variant_bits v) = Val bits
  /\ to_signed 32 bits = wrap 32 true n /\ (bits =? 0) = (wrap 32 true n =? 0).
Proof.
  intros Hw Hn. unfold int_type. rewrite convert_int by exact Hw. cbn [obind].
  change (int_width 32 =? 8) with false. cbn [andb]. change (int_width 32) with 32.
  rewrite wrap_id by (exact Hn || (destruct Hw as [-> | [-> | [-> | ->]]]; lia)).
  rewrite variant_bits_wrap by (unfold width; auto). eexists. split; [reflexivity|].
  pose proof (wrap_has_type 32 true n ltac:(lia)) as B. cbn -[Z.pow wrap] in B. split.
  - change (to_signed 32) with (wrap 32 true). rewrite wrap_mod by lia. apply wrap_id; [lia | exact B].
  - destruct (Z.eqb_spec (wrap 32 true n) 0) as [->|Hz]; [reflexivity|].
    apply Z.eqb_neq. intros E. apply Z.mod_divide in E as (q & E); lia.
Qed.

Lemma eval_logical_decided op w s a rhs : width w -> has_type w s a ->
  match op with LOR => wrap 32 true a <> 0 | LAND => wrap 32 true a = 0 end ->
  eval (Logical op (int_expr w s a) rhs) = Val (Some (int_type true), put_flag (wrap 32 true a)).
Proof.
  intros Hw Ha Hd. cbn [eval]. unfold eval_logical. rewrite eval_lhs_int by exact Hw. cbn [obind snd].
  destruct (convert_flag w s a Hw Ha) as (bits & E & Ev & _).
  destruct (variant_convert _ _) as [v|e]; cbn [obind] in *; [|discriminate]. rewrite E. cbn [obind]. rewrite Ev.
  destruct op; [rewrite Hd; reflexivity|]. apply Z.eqb_neq in Hd. now rewrite Hd.
Qed.

Lemma eval_logical_int op w s a w' s' b : width w -> has_type w s a -> width w' -> has_type w' s' b ->
  match op with LOR => wrap 32 true a = 0 | LAND => wrap 32 true a <> 0 end ->
  eval (Logical op (int_expr w s a) (int_expr w' s' b)) = flag (negb (wrap 32 true b =? 0)).
Proof.
  intros Hw Ha Hw' Hb Hd. cbn [eval]. unfold eval_logical. rewrite eval_lhs_int by exact Hw. cbn [obind snd].
  destruct (convert_flag w s a Hw Ha) as (bits & E & Ev & _).
  destruct (variant_convert (int_variant w s a) _) as [v|e]; cbn [obind] in *; [|discriminate].
  rewrite E. cbn [obind]. rewrite Ev, eval_rhs_int by exact Hw'. cbn [obind snd].
  destruct (convert_flag w' s' b Hw' Hb) as (bits' & E' & _ & Ez).
  destruct (variant_convert (int_variant w' s' b) _) as [v'|e]; cbn [obind] in *; [|discriminate].
  rewrite E'. cbn [obind]. unfold flag. destruct op.
  - apply Z.eqb_neq in Hd. rewrite Hd, Ez. reflexivity.
  - rewrite Hd, Ez. reflexivity.
Qed.

(** ** Negation and complement *)

Lemma int_variant_mod w signed a b : width w -> a mod 2 ^ w = b mod 2 ^ w ->
  int_variant w signed a = int_variant w signed b.
Proof.
  intros Hw H. unfold int_variant, put_int. do 2 f_equal.
  now replace (8 * (w / 8)) with w by (destruct Hw as [-> | [-> | [-> | ->]]]; reflexivity).
Qed.

Lemma eval_unary_int op w s a : width w ->
  eval (Unary op (int_expr w s a)) = eval_unary op (IntType w s, int_variant w s a)
  /\ is_tag VT_OBJECT (int_variant w s a) = false.
Proof.
  intros Hw. destruct (int_variant_tags w s a Hw) as (_ & _ & _ & _ & Ho & _). auto.
Qed.

Lemma eval_minus_int w s a : width w -> has_type w s a ->
  eval (Unary UMINUS (int_expr w s a)) = int_result (w, s) (- a).
Proof.
  intros Hw Ha. destruct (eval_unary_int UMINUS w s a Hw) as [-> Ho]. unfold eval_unary. cbn [snd]. rewrite Ho.
  destruct (int_variant_tags w s a Hw) as (Hi & Hf & _). unfold eval_minus. rewrite Hf, Hi, is_tag_uint64 by exact Hw.
  destruct ((w =? 64) && negb s) eqn:Hu.
  - apply andb_true_iff in Hu as [E Es]. apply Z.eqb_eq in E as ->. destruct s; [discriminate|].
    rewrite uint64_value by exact Ha. cbn [obind].
    apply (assign_result (64, false)); [exact Hw | apply congr_u64 | apply in_64_u64 | now right].
  - rewrite int64_value by assumption. cbn [obind]. pose proof (s64_bound (- a)).
    apply (assign_result (w, s)); [exact Hw | apply congr_s64 | unfold in_64; lia | left; lia].
Qed.

Lemma complement_bits w n : width w ->
  Z.land (u64 (Z.lnot n)) (u64 (Z.lor (Z.shiftl (u64 (Z.shiftl 1 (w - 1)) - 1) 1) 1)) = Z.lnot n mod 2 ^ w.
Proof.
  intros Hw. assert (u64 (Z.lor (Z.shiftl (u64 (Z.shiftl 1 (w - 1)) - 1) 1) 1) = Z.ones w) as ->
    by (destruct Hw as [-> | [-> | [-> | ->]]]; reflexivity).
  assert (0 <= w <= 64) by (destruct Hw as [-> | [-> | [-> | ->]]]; lia).
  rewrite Z.land_ones by lia. unfold u64. apply mod_mod_le; try lia.
  exists (2 ^ (64 - w)). rewrite <- Z.pow_add_r by lia. f_equal. lia.
Qed.

Lemma eval_complement_int w s a : width w -> has_type w s a ->
  eval (Unary BITNEG (int_expr w s a)) = int_result (w, s) (Z.lnot a).
Proof.
  intros Hw Ha. destruct (eval_unary_int BITNEG w s a Hw) as [-> Ho]. unfold eval_unary. cbn [snd]. rewrite Ho.
  destruct (int_variant_tags w s a Hw) as (Hi & _). unfold eval_bit_complement. rewrite Hi. cbn [negb].
  assert (0 < w <= 64) as Bw by (destruct Hw as [-> | [-> | [-> | ->]]]; lia).
  replace (type_size (IntType w s) * 8) with w by (destruct Hw as [-> | [-> | [-> | ->]]]; reflexivity).
  rewrite variant_bits_wrap, wrap_id by (exact Hw || exact Ha || lia). cbn [obind].
  rewrite complement_bits by exact Hw. unfold int_result. cbn [fst snd].
  pose proof (Z.mod_pos_bound (Z.lnot (a mod 2 ^ 64)) (2 ^ w) ltac:(lia)) as Hm.
  assert (2 ^ w <= 2 ^ 64) by (apply Z.pow_le_mono_r; lia).
  rewrite assign_Z_wraps; rewrite ?int_width_id by exact Hw.
  - do 2 f_equal. apply int_variant_mod; [exact Hw|]. rewrite Z.mod_mod by lia.
    assert (forall x, Z.lnot x = (-1) * x - 1) as El by (intros; unfold Z.lnot; lia). rewrite !El.
    rewrite Zminus_mod, Z.mul_mod, mod_mod_le by first [lia | exists (2 ^ (64 - w)); rewrite <- Z.pow_add_r by lia; f_equal; lia].
    now rewrite <- Z.mul_mod, <- Zminus_mod by lia.
  - unfold in_64. lia.
  - destruct Hw as [-> | [-> | [-> | ->]]]; [right | left | left | left]; lia.
Qed.

(** ** The properties *)

(** C16: integer arithmetic is that of C without the promotion to [int]. For operands of any
    two integer types and any values of theirs, sums, differences and products have the common
    type of the operands (from 32 bits on, that of the usual arithmetic conversions) and are
    exact modulo its width; so are negation and complement in the type of the operand. *)
Theorem integer_arithmetic_is_C w1 s1 a w2 s2 b :
  width w1 -> width w2 -> has_type w1 s1 a -> has_type w2 s2 b ->
  (forall op, eval (Additive op (int_expr w1 s1 a) (int_expr w2 s2 b))
              = int_result (common w1 s1 w2 s2) (arith_int op a b))
  /\ eval (Multiplicative MUL (int_expr w1 s1 a) (int_expr w2 s2 b)) = int_result (common w1 s1 w2 s2) (a * b)
  /\ eval (Unary UMINUS (int_expr w1 s1 a)) = int_result (w1, s1) (- a)
  /\ eval (Unary BITNEG (int_expr w1 s1 a)) = int_result (w1, s1) (Z.lnot a).
Proof.
  intros H1 H2 Ha Hb. repeat split.
  - intros op. cbn [eval]. rewrite eval_int_operands by assumption. cbn [obind]. now apply eval_additive_int.
  - cbn [eval]. rewrite eval_int_operands by assumption. cbn [obind]. now apply eval_product_int.
  - now apply eval_minus_int.
  - now apply eval_complement_int.
Qed.

(** [-1 * 2u] of 32 bits; two characters are added as characters. *)
Lemma integer_arithmetic_is_C_witness :
  eval (Multiplicative MUL (int_expr 32 true (-1)) (int_expr 32 false 2)) = int_result (32, false) 4294967294
  /\ eval (Additive PLUS (int_expr 8 true 100) (int_expr 8 true 100)) = int_result (8, true) (-56).
Proof.
  split.
  - destruct (integer_arithmetic_is_C 32 true (-1) 32 false 2) as (_ & -> & _);
      [unfold width; auto | unfold width; auto | cbn; lia | cbn; lia | reflexivity].
  - destruct (integer_arithmetic_is_C 8 true 100 8 true 100) as (H & _);
      [unfold width; auto | unfold width; auto | cbn; lia | cbn; lia |]. rewrite H. reflexivity.
Defined.

(** C5: quotients and remainders of integers. A zero divisor of [/] is reported as an error; one
    of [%] only when the dividend is [uint64_t], otherwise the machine traps. Of operands
    that are not negative both are right, except that [uint64_t % d] is 0 for every other
    type of [d], because the case of the division is entered too. Remainders of types other
    than [uint64_t] are right for all signs; but negative operands are divided as unsigned
    numbers of 64 bits. *)
Theorem division_cases w1 s1 a w2 s2 b :
  width w1 -> width w2 -> has_type w1 s1 a -> has_type w2 s2 b ->
  let u1 := (w1 =? 64) && negb s1 in
  let u2 := (w2 =? 64) && negb s2 in
  let c := common w1 s1 w2 s2 in
  let quotient := eval (Multiplicative DIV (int_expr w1 s1 a) (int_expr w2 s2 b)) in
  let remainder := eval (Multiplicative MOD (int_expr w1 s1 a) (int_expr w2 s2 b)) in
  (b = 0 -> quotient = division_by_zero /\ remainder = if u1 then division_by_zero else Throw SIGFPE)
  /\ (0 <= a -> 0 < b -> quotient = int_result c (a / b)
      /\ remainder = int_result c (if u1 && negb u2 then 0 else a mod b))
  /\ (u1 = false -> u2 = false -> b <> 0 -> ~ (a = - 2 ^ 63 /\ b = -1) -> remainder = int_result c (Z.rem a b))
  /\ (u1 = false -> u2 = false -> b <> 0 -> quotient = int_result c (s64 (u64 a / u64 b))).
Proof.
  intros H1 H2 Ha Hb u1 u2 c quotient remainder. unfold quotient, remainder. cbn [eval].
  rewrite !eval_int_operands by assumption. cbn [obind]. repeat split.
  - now apply eval_zero_divisor.
  - now apply eval_zero_divisor.
  - now apply eval_nonneg_division.
  - now apply eval_nonneg_division.
  - now apply eval_signed_remainder.
  - intros Hu1 Hu2 Hz. rewrite eval_multiplicative_int by assumption. unfold eval_int_by_int.
    rewrite !is_tag_uint64 by assumption. fold u1 u2. rewrite Hu1, Hu2, !int64_value by assumption. cbn [obind].
    assert ((u64 b =? 0) = false) as Hzb.
    { apply Z.eqb_neq. unfold u64. intros E. apply Z.mod_divide in E as (q & E); [|lia].
      pose proof (has_type_in_64 w2 s2 b H2 Hb) as Bb. unfold in_64 in Bb. lia. }
    unfold unsigned_op. rewrite Hzb. cbn [checked obind].
    apply assign_common; try assumption; [reflexivity | apply s64_bound].
Qed.

(** [7 / 2], [7 % 0]; [-6 / 3] is 1431655763 and not -2. *)
Lemma division_cases_witness :
  eval (Multiplicative DIV (int_expr 32 true 7) (int_expr 32 true 2)) = int_result (32, true) 3
  /\ eval (Multiplicative MOD (int_expr 32 true 7) (int_expr 32 true 0)) = Throw SIGFPE
  /\ eval (Multiplicative MOD (int_expr 64 false 10) (int_expr 32 true 3)) = int_result (64, false) 0
  /\ eval (Multiplicative DIV (int_expr 32 true (-6)) (int_expr 32 true 3)) = int_result (32, true) 1431655763.
Proof.
  split; [|split; [|split]].
  - destruct (division_cases 32 true 7 32 true 2) as (_ & H & _);
      [unfold width; auto | unfold width; auto | cbn; lia | cbn; lia |]. destruct H as [-> _]; lia || reflexivity.
  - destruct (division_cases 32 true 7 32 true 0) as (H & _);
      [unfold width; auto | unfold width; auto | cbn; lia | cbn; lia |]. destruct H as [_ ->]; reflexivity.
  - destruct (division_cases 64 false 10 32 true 3) as (_ & H & _);
      [unfold width; auto | unfold width; auto | cbn; lia | cbn; lia |]. destruct H as [_ ->]; lia || reflexivity.
  - destruct (division_cases 32 true (-6) 32 true 3) as (_ & _ & _ & H);
      [unfold width; auto | unfold width; auto | cbn; lia | cbn; lia |].
    rewrite H; [reflexivity | reflexivity | reflexivity | lia].
Defined.

(** C7: conversions are exact modulo the width. Converting an integer variant of any type to an
    integer type of any number of bits, through its text, gives the type's class of 8, 16, 32
    or 64 bits and the value modulo its width, except that the 8-bit types take numbers above
    the range of [long] for -1; converting to its own type changes nothing. *)
Theorem conversions_wrap w s n nbits s' : width w ->
  let v := wrap w s n in
  variant_convert (int_variant w s n) (IntType nbits s')
  = Val (int_variant (int_width nbits) s' (if (int_width nbits =? 8) && (2 ^ 63 <=? v) then -1 else v))
  /\ int_operand (int_variant (int_width nbits) s' v) = Val (wrap (int_width nbits) s' v)
  /\ variant_convert (int_variant w s n) (IntType w s) = Val (int_variant w s n).
Proof.
  intros Hw v. unfold v.
  assert (0 < w) as Hp by (destruct Hw as [-> | [-> | [-> | ->]]]; lia). repeat split.
  - now apply convert_int.
  - apply int_operand_wrap; [apply int_width_cases | reflexivity].
  - rewrite convert_int, int_width_id by exact Hw. apply (f_equal Val).
    replace ((w =? 8) && (2 ^ 63 <=? wrap w s n)) with false.
    2:{ symmetry. pose proof (wrap_has_type w s n Hp) as B. unfold has_type in B.
        destruct (Z.eqb_spec w 8) as [->|]; [|reflexivity]. destruct s; cbn [andb]; apply Z.leb_gt; lia. }
    apply int_variant_mod; [exact Hw|]. unfold wrap, to_signed. destruct s; [|now rewrite Z.mod_mod by lia].
    rewrite Zminus_mod_idemp_l. f_equal. lia.
Qed.

(** -1 as [unsigned short]; [2 ^ 63 + 5] as [char]. *)
Lemma conversions_wrap_witness :
  variant_convert (int_variant 32 true (-1)) (IntType 16 false) = Val (int_variant 16 false 65535)
  /\ variant_convert (int_variant 64 false (2 ^ 63 + 5)) (IntType 8 true) = Val (int_variant 8 true (-1)).
Proof.
  split.
  - destruct (conversions_wrap 32 true (-1) 16 false) as [-> _]; [unfold width; auto | reflexivity].
  - destruct (conversions_wrap 64 false (2 ^ 63 + 5) 8 true) as [-> _]; [unfold width; auto | reflexivity].
Defined.

(** Conditions on integers. Relational operators compare the values, converted to
    [uint64_t] when one of the operands is of that type. [&&] and [||] look at the low 32 bits
    of their operands only, do not evaluate the operand on the right when the one on the
    left decides, and then [||] gives these bits as its result. *)
Theorem conditions_on_integers w1 s1 a : width w1 -> has_type w1 s1 a ->
  (forall op w2 s2 b, width w2 -> has_type w2 s2 b ->
     eval (Relational op (int_expr w1 s1 a) (int_expr w2 s2 b))
     = flag (if (w1 =? 64) && negb s1 || (w2 =? 64) && negb s2 then compares op (u64 a) (u64 b)
             else compares op a b))
  /\ (forall rhs, wrap 32 true a = 0 -> eval (Logical LAND (int_expr w1 s1 a) rhs) = flag false)
  /\ (forall rhs, wrap 32 true a <> 0 ->
        eval (Logical LOR (int_expr w1 s1 a) rhs) = Val (Some (int_type true), int_variant 32 true a))
  /\ (forall w2 s2 b, width w2 -> has_type w2 s2 b ->
        (wrap 32 true a <> 0 ->
           eval (Logical LAND (int_expr w1 s1 a) (int_expr w2 s2 b)) = flag (negb (wrap 32 true b =? 0)))
        /\ (wrap 32 true a = 0 ->
           eval (Logical LOR (int_expr w1 s1 a) (int_expr w2 s2 b)) = flag (negb (wrap 32 true b =? 0)))).
Proof.
  intros H1 Ha. repeat split.
  - intros op w2 s2 b H2 Hb. cbn [eval]. rewrite eval_int_operands by assumption. cbn [obind].
    now apply eval_relational_int.
  - intros rhs Hz. rewrite eval_logical_decided by assumption. now rewrite Hz.
  - intros rhs Hz. rewrite eval_logical_decided by assumption. rewrite put_flag_wrap.
    apply (f_equal (fun v => Val (Some (int_type true), v))). apply int_variant_mod; [unfold width; auto|]. unfold wrap, to_signed. rewrite Zminus_mod_idemp_l. f_equal. lia.
  - intros Hz. now apply eval_logical_int.
  - intros Hz. now apply eval_logical_int.
Qed.

(** [5 || x] is 5; [(1L << 32) && x] is 0; [-1 < 1ULL] is false. *)
Lemma conditions_on_integers_witness :
  eval (Logical LOR (int_expr 32 true 5) (int_expr 32 true 0)) = Val (Some (int_type true), int_variant 32 true 5)
  /\ eval (Logical LAND (int_expr 64 true (2 ^ 32)) (int_expr 32 true 1)) = flag false
  /\ eval (Relational LT (int_expr 32 true (-1)) (int_expr 64 false 1)) = flag false.
Proof.
  split; [|split].
  - destruct (conditions_on_integers 32 true 5) as (_ & _ & H & _); [unfold width; auto | cbn; lia |].
    apply H. discriminate.
  - destruct (conditions_on_integers 64 true (2 ^ 32)) as (_ & H & _); [unfold width; auto | cbn; lia |].
    apply H. reflexivity.
  - destruct (conditions_on_integers 32 true (-1)) as (H & _); [unfold width; auto | cbn; lia |].
    rewrite H; [reflexivity | unfold width; auto | cbn; lia].
Defined.
