(* ===== verification/Effects.v ===== *)
(** * Stateful code that may throw

    C++ code that changes objects and throws exceptions: an exception keeps the changes made
    before it. The monad instances are those of stdpp, so that its notations apply. *)
From stdpp Require Export base list option gmap.
From Stdlib Require Export ZArith Lia Bool.
#[global] Open Scope Z_scope.

Inductive exn : Type :=
| SystemError      (* a failed system call *)
| OutOfRange       (* std::out_of_range *)
| LogicError       (* std::logic_error *)
| RuntimeError     (* std::runtime_error *)
| Undefined.       (* undefined behaviour: an iterator outside of its container, a null reference *)

Inductive outcome (A : Type) : Type :=
| Ret (a : A)
| Raise (e : exn).
Arguments Ret {A} a.
Arguments Raise {A} e.

Definition eff (S A : Type) : Type := S → outcome A * S.

#[export] Instance eff_ret {S} : MRet (eff S) := λ A a s, (Ret a, s).
#[export] Instance eff_bind {S} : MBind (eff S) := λ A C k m s,
  match m s with
  | (Ret a, s) => k a s
  | (Raise e, s) => (Raise e, s)
  end.

Definition throw {S A} (e : exn) : eff S A := λ s, (Raise e, s).
Definition get {S} : eff S S := λ s, (Ret s, s).
Definition gets {S A} (f : S → A) : eff S A := λ s, (Ret (f s), s).
Definition modify {S} (f : S → S) : eff S unit := λ s, (Ret tt, f s).
Definition when {S} (b : bool) (m : eff S unit) : eff S unit := if b then m else mret tt.

(** [try { m } catch (const exception&) { h }]; undefined behaviour cannot be caught. *)
Definition catch {S A} (m : eff S A) (h : eff S A) : eff S A := λ s,
  match m s with
  | (Raise Undefined, s) => (Raise Undefined, s)
  | (Raise _, s) => h s
  | r => r
  end.

(** Runs a computation on a component of the state. *)
Definition zoom {S T A} (read : S → T) (write : T → S → S) (m : eff T A) : eff S A := λ s,
  let '(a, t) := m (read s) in (a, write t s).

(** The loop [for (x : l) body]. *)
Fixpoint for_each {S X} (l : list X) (body : X → eff S unit) : eff S unit :=
  match l with
  | [] => mret tt
  | x :: l => body x;; for_each l body
  end.

(** ** Rules *)

Section Rules.
Context {S : Type}.

Lemma bind_ret {A C} (m : eff S A) (k : A → eff S C) s a s' :
  m s = (Ret a, s') → (m ≫= k) s = k a s'.
Proof. intros H. unfold mbind, eff_bind. by rewrite H. Qed.

Lemma bind_raise {A C} (m : eff S A) (k : A → eff S C) s e s' :
  m s = (Raise e, s') → (m ≫= k) s = (Raise e, s').
Proof. intros H. unfold mbind, eff_bind. by rewrite H. Qed.

Lemma bind_inv {A C} (m : eff S A) (k : A → eff S C) s r s'' :
  (m ≫= k) s = (r, s'') →
  (∃ a s', m s = (Ret a, s') ∧ k a s' = (r, s'')) ∨ (∃ e, m s = (Raise e, s'') ∧ r = Raise e).
Proof.
  unfold mbind, eff_bind. destruct (m s) as [[a|e] s'] eqn:E; intros H.
  - left. eauto.
  - right. exists e. by simplify_eq.
Qed.

(** A loop over two lists is two loops. *)
Lemma for_each_concat {X} (l k : list X) (body : X → eff S unit) s :
  for_each (l ++ k) body s = (for_each l body ≫= λ _, for_each k body) s.
Proof.
  revert s. induction l as [|x l IH]; intros s; [done|]. cbn [for_each app].
  unfold mbind, eff_bind. destruct (body x s) as [[[]|e] s']; [|done].
  specialize (IH s'). unfold mbind, eff_bind in IH. exact IH.
Qed.

(** A property of the state that a run ends in. *)
Lemma bind_post {A C} (m : eff S A) (k : A → eff S C) s (I : S → Prop) :
  (∀ a s', m s = (Ret a, s') → I (k a s').2) → (∀ e s', m s = (Raise e, s') → I s') →
  I ((m ≫= k) s).2.
Proof.
  intros H1 H2. unfold mbind, eff_bind. destruct (m s) as [[a|e] s'] eqn:E; [by apply H1 | by eapply H2].
Qed.

(** What every run of a computation keeps. *)
Definition keeps {A} (m : eff S A) (I : S → Prop) : Prop :=
  ∀ s, I s → I (m s).2.

Lemma keeps_ret {A} (a : A) I : keeps (mret a) I.
Proof. by intros s Hs. Qed.
Lemma keeps_throw {A} e I : keeps (throw (A := A) e) I.
Proof. by intros s Hs. Qed.
Lemma keeps_gets {A} (f : S → A) I : keeps (gets f) I.
Proof. by intros s Hs. Qed.
Lemma keeps_get I : keeps get I.
Proof. by intros s Hs. Qed.
Lemma keeps_modify f I : (∀ s, I s → I (f s)) → keeps (modify f) I.
Proof. intros H s Hs. by apply H. Qed.
Lemma keeps_bind {A C} (m : eff S A) (k : A → eff S C) I :
  keeps m I → (∀ a, keeps (k a) I) → keeps (m ≫= k) I.
Proof.
  intros Hm Hk s Hs. specialize (Hm s Hs). unfold mbind, eff_bind.
  destruct (m s) as [[a|e] s']; [by apply Hk | done].
Qed.
Lemma keeps_when b m I : keeps m I → keeps (when b m) I.
Proof. destruct b; [done | intros _; apply keeps_ret]. Qed.
Lemma keeps_catch {A} (m h : eff S A) I : keeps m I → keeps h I → keeps (catch m h) I.
Proof.
  intros Hm Hh s Hs. specialize (Hm s Hs). unfold catch.
  destruct (m s) as [[a|[]] s']; auto.
Qed.
Lemma keeps_for_each {X} (l : list X) body I :
  (∀ x, keeps (body x) I) → keeps (for_each l body) I.
Proof. intros H. induction l; [apply keeps_ret | by apply keeps_bind]. Qed.

(** A computation that keeps an invariant and yields values with a property. *)
Definition gives {A} (m : eff S A) (I : S → Prop) (V : A → Prop) : Prop :=
  ∀ s, I s → I (m s).2 ∧ match (m s).1 with Ret a => V a | Raise _ => True end.

Lemma gives_keeps {A} (m : eff S A) I : keeps m I ↔ gives m I (λ _, True).
Proof.
  split; intros Hm s Hs; specialize (Hm s Hs); [split; [done | by destruct (m s).1] | by destruct Hm].
Qed.
Lemma gives_weaken {A} (m : eff S A) I (V V' : A → Prop) :
  gives m I V → (∀ a, V a → V' a) → gives m I V'.
Proof.
  intros Hm HV s Hs. destruct (Hm s Hs) as [H1 H2]. split; [done|].
  destruct (m s).1; [by apply HV | done].
Qed.
Lemma gives_ret {A} (a : A) I (V : A → Prop) : V a → gives (mret a) I V.
Proof. intros Ha s Hs. done. Qed.
Lemma gives_throw {A} e I (V : A → Prop) : gives (throw e) I V.
Proof. intros s Hs. done. Qed.
Lemma gives_gets {A} (f : S → A) I (V : A → Prop) : (∀ s, I s → V (f s)) → gives (gets f) I V.
Proof. intros Hf s Hs. split; [done|]. by apply Hf. Qed.
Lemma gives_modify f I : (∀ s, I s → I (f s)) → gives (modify f) I (λ _, True).
Proof. intros Hf. by apply gives_keeps, keeps_modify. Qed.
Lemma gives_bind {A C} (m : eff S A) (k : A → eff S C) I V U :
  gives m I V → (∀ a, V a → gives (k a) I U) → gives (m ≫= k) I U.
Proof.
  intros Hm Hk s Hs. destruct (Hm s Hs) as [H1 H2]. unfold mbind, eff_bind.
  destruct (m s) as [[a|e] s']; [by apply Hk | done].
Qed.
Lemma gives_when b m I : (b = true → gives m I (λ _, True)) → gives (when b m) I (λ _, True).
Proof. destruct b; [auto | intros _; by apply gives_ret]. Qed.
Lemma gives_for_each {X} (l : list X) body I :
  (∀ x, x ∈ l → gives (body x) I (λ _, True)) → gives (for_each l body) I (λ _, True).
Proof.
  induction l as [|x l IH]; intros Hb; [by apply gives_ret|]. cbn [for_each].
  eapply gives_bind; [apply Hb; set_solver|]. intros _ _. apply IH. intros y Hy. apply Hb. set_solver.
Qed.
End Rules.

(** Runs the primitive steps of a computation in a hypothesis. *)
Ltac eff_run H :=
  unfold mret, mbind, eff_ret, eff_bind, get, gets, modify, throw in H; cbn in H; simplify_eq.

Create HintDb eff.
#[export] Hint Resolve keeps_ret keeps_throw keeps_gets keeps_get keeps_when keeps_catch
  keeps_bind keeps_for_each : eff.
