(* ===== verification/Target.v ===== *)
(** * Access to the debuggee ([target/memory_access.h], [target/x86.h])

    The operating system gives access to the memory and the debug registers of a stopped
    thread through [ptrace] and [/proc]. It is an interface, [Ptrace], with the documented
    behaviour of its requests as laws; [sim] is a small debuggee that implements it. *)
From S2P Require Import Effects.

(** ** Machine words *)

(** [sizeof(long)] of the x86-64 host. *)
Definition WORD : Z := 8.

(** The byte at offset [i] of a little-endian word. *)
Definition word_byte (w i : Z) : Z := (w / 2 ^ (8 * i)) mod 2 ^ 8.

(** The word made of the bytes at an address. *)
Definition word_at (m : Z → Z) (a : Z) : Z :=
  m a + 2 ^ 8 * (m (a + 1) + 2 ^ 8 * (m (a + 2) + 2 ^ 8 * (m (a + 3) + 2 ^ 8 *
  (m (a + 4) + 2 ^ 8 * (m (a + 5) + 2 ^ 8 * (m (a + 6) + 2 ^ 8 * m (a + 7))))))).

(** Memory after a word was written. *)
Definition store_word (m : Z → Z) (a w : Z) : Z → Z := λ b,
  if (a <=? b) && (b <? a + WORD) then word_byte w (b - a) else m b.

Definition x86_BREAK_OPCODE : Z := 0xCC.

(** [x.byte[0] = x86_BREAK_OPCODE] *)
Definition x86_get_breakpoint_opcode (word : Z) : Z := word - word mod 2 ^ 8 + x86_BREAK_OPCODE.

(** ** The interface of the operating system *)

Class Ptrace (K : Type) := {
  peek_text : K → Z → Z → option Z;             (* PTRACE_PEEKTEXT of a thread and an address *)
  poke_text : K → Z → Z → Z → option K;         (* PTRACE_POKETEXT *)
  peek_debugreg : K → Z → Z → option Z;         (* PTRACE_PEEKUSER of u_debugreg[i] *)
  poke_debugreg : K → Z → Z → Z → option K;     (* PTRACE_POKEUSER of u_debugreg[i] *)
  read_mem_file : K → Z → Z → nat → option (list Z)  (* words read from /proc/<pid>/mem *)
}.

(** The reserved bits of the control register are ignored. *)
Definition DR_CONTROL_BITS : Z := 0xFFFF03FF.
Definition debugreg_value (i v : Z) : Z := if i =? 7 then Z.land v DR_CONTROL_BITS else v.

Class PtraceLaws (K : Type) `{Ptrace K} := {
  memory : K → Z → Z;
  debugreg : K → Z → Z → Z;
  traceable : K → Z → Prop;      (* the thread is stopped and traced *)
  mapped : K → Z → Prop;         (* the word at the address can be accessed *)
  memory_byte k a : 0 ≤ memory k a < 2 ^ 8;
  peek_text_memory k t a w : peek_text k t a = Some w → w = word_at (memory k) a;
  poke_text_memory k t a w k' : poke_text k t a w = Some k' →
    ∀ b, memory k' b = store_word (memory k) a w b;
  poke_text_debugreg k t a w k' : poke_text k t a w = Some k' →
    ∀ u i, debugreg k' u i = debugreg k u i;
  peek_debugreg_value k t i v : peek_debugreg k t i = Some v → v = debugreg k t i;
  poke_debugreg_memory k t i v k' : poke_debugreg k t i v = Some k' →
    ∀ b, memory k' b = memory k b;
  poke_debugreg_value k t i v k' : poke_debugreg k t i v = Some k' →
    ∀ u j, debugreg k' u j
      = if (u =? t) && (j =? i) then debugreg_value i v else debugreg k u j;
  peek_text_succeeds k t a : traceable k t → mapped k a → is_Some (peek_text k t a);
  poke_text_succeeds k t a w : traceable k t → mapped k a →
    ∃ k', poke_text k t a w = Some k'
      ∧ (∀ u, traceable k u → traceable k' u) ∧ (∀ b, mapped k b → mapped k' b);
  peek_debugreg_succeeds k t i : traceable k t → is_Some (peek_debugreg k t i);
  poke_status_succeeds k t v : traceable k t →
    ∃ k', poke_debugreg k t 6 v = Some k' ∧ (∀ u, traceable k u → traceable k' u)
}.

(** ** [MemoryBase] *)

Section Memory.
Context {K : Type} `{Ptrace K}.

(** [sys::ptrace] throws when the request fails. *)
Definition sys_peek (tid a : Z) : eff K Z :=
  k ← get; match peek_text k tid a with Some w => mret w | None => throw SystemError end.
Definition sys_poke (tid a w : Z) : eff K unit :=
  k ← get;
  match poke_text k tid a w with Some k => modify (λ _, k) | None => throw SystemError end.
Definition sys_peek_debugreg (tid i : Z) : eff K Z :=
  k ← get; match peek_debugreg k tid i with Some v => mret v | None => throw SystemError end.
Definition sys_poke_debugreg (tid i v : Z) : eff K unit :=
  k ← get;
  match poke_debugreg k tid i v with Some k => modify (λ _, k) | None => throw SystemError end.

(** [read_using_ptrace]: the words read; with [readlen] an error ends the loop. *)
Fixpoint read_using_ptrace (tid a : Z) (len : nat) (readlen : bool) : eff K (list Z) :=
  match len with
  | O => mret []
  | S len =>
      k ← get;
      match peek_text k tid a with
      | Some w => ws ← read_using_ptrace tid (a + WORD) len readlen; mret (w :: ws)
      | None => if readlen then mret [] else throw SystemError
      end
  end.

(** [read]: more than two words are read from the file of the process, if it can be. *)
Definition read_memory (tid a : Z) (len : nat) (readlen : bool) : eff K (list Z) :=
  if (a =? 0) && readlen then mret []
  else
    k ← get;
    match (if (2 <? len)%nat then read_mem_file k tid a len else None) with
    | Some ws => mret ws
    | None => read_using_ptrace tid a len readlen
    end.

Fixpoint write_memory (tid a : Z) (buf : list Z) : eff K unit :=
  match buf with
  | [] => mret tt
  | w :: buf => sys_poke tid a w;; write_memory tid (a + WORD) buf
  end.
End Memory.

(** ** Words and bytes *)

Lemma word_byte_range w i : 0 ≤ word_byte w i < 2 ^ 8.
Proof. apply Z.mod_pos_bound. lia. Qed.

(** A byte in front of a word. *)
Lemma byte_head b r : 0 ≤ b < 2 ^ 8 → (b + 2 ^ 8 * r) mod 2 ^ 8 = b ∧ (b + 2 ^ 8 * r) / 2 ^ 8 = r.
Proof.
  intros Hb. rewrite (Z.mul_comm (2 ^ 8)), Z_mod_plus_full, Z.div_add by lia.
  by rewrite Z.mod_small, Z.div_small by lia.
Qed.

Lemma word_byte_0 w : word_byte w 0 = w mod 2 ^ 8.
Proof. unfold word_byte. by rewrite Z.mul_0_r, Z.pow_0_r, Z.div_1_r. Qed.

Lemma word_byte_succ w i : 0 ≤ i → word_byte w (i + 1) = word_byte (w / 2 ^ 8) i.
Proof.
  intros Hi. unfold word_byte. rewrite Z.div_div by lia.
  rewrite <- Z.pow_add_r by lia. do 3 f_equal. lia.
Qed.

(** One byte of a word read: the first one, or one of the rest. *)
Ltac byte_step Hm :=
  match goal with
  | |- word_byte (?b + _ * _) ?j = _ =>
      destruct (Z.eqb_spec j 0);
      [ replace j with 0 by lia; rewrite word_byte_0, (proj1 (byte_head b _ (Hm _))); f_equal; lia
      | replace j with (j - 1 + 1) by lia; rewrite word_byte_succ by lia;
        rewrite (proj2 (byte_head b _ (Hm _))) ]
  end.

Lemma word_at_byte m a i : (∀ b, 0 ≤ m b < 2 ^ 8) → 0 ≤ i < WORD →
  word_byte (word_at m a) i = m (a + i).
Proof.
  intros Hm Hi. unfold WORD in Hi. unfold word_at.
  do 7 byte_step Hm.
  replace (i - 1 - 1 - 1 - 1 - 1 - 1 - 1) with 0 by lia. rewrite word_byte_0, Z.mod_small by apply Hm.
  reflexivity.
Qed.

(** The opcode changes the first byte only. *)
Lemma breakpoint_opcode_byte w i : 0 ≤ i →
  word_byte (x86_get_breakpoint_opcode w) i = if i =? 0 then x86_BREAK_OPCODE else word_byte w i.
Proof.
  intros Hi. unfold x86_get_breakpoint_opcode.
  pose proof (Z.div_mod w (2 ^ 8) ltac:(lia)) as Hw.
  replace (w - w mod 2 ^ 8 + x86_BREAK_OPCODE) with (x86_BREAK_OPCODE + 2 ^ 8 * (w / 2 ^ 8)) by lia.
  assert (0 ≤ x86_BREAK_OPCODE < 2 ^ 8) as Hb by (unfold x86_BREAK_OPCODE; lia).
  destruct (Z.eqb_spec i 0) as [->|].
  - rewrite word_byte_0. by apply byte_head.
  - replace i with (i - 1 + 1) by lia. rewrite !word_byte_succ by lia.
    by rewrite (proj2 (byte_head _ _ Hb)).
Qed.

(** ** A debuggee *)

Record sim : Type := mk_sim {
  sim_memory : gmap Z Z;              (* bytes; 0 where there is none *)
  sim_threads : gset Z;               (* the threads that can be traced *)
  sim_debugreg : gmap (Z * Z) Z
}.

Definition sim_byte (k : sim) (a : Z) : Z := default 0 (sim_memory k !! a) mod 2 ^ 8.

Definition sim_poke (k : sim) (a w : Z) : sim :=
  mk_sim (foldr (λ i m, <[a + Z.of_nat i := word_byte w (Z.of_nat i)]> m) (sim_memory k) (seq 0 8))
         (sim_threads k) (sim_debugreg k).

#[export] Instance sim_ptrace : Ptrace sim := {
  peek_text k t a := if decide (t ∈ sim_threads k) then Some (word_at (sim_byte k) a) else None;
  poke_text k t a w := if decide (t ∈ sim_threads k) then Some (sim_poke k a w) else None;
  peek_debugreg k t i :=
    if decide (t ∈ sim_threads k) then Some (default 0 (sim_debugreg k !! (t, i))) else None;
  poke_debugreg k t i v :=
    if decide (t ∈ sim_threads k)
    then Some (mk_sim (sim_memory k) (sim_threads k) (<[(t, i) := debugreg_value i v]> (sim_debugreg k)))
    else None;
  read_mem_file k t a n :=
    if decide (t ∈ sim_threads k)
    then Some ((λ i, word_at (sim_byte k) (a + WORD * Z.of_nat i)) <$> seq 0 n) else None
}.

Lemma sim_poke_byte k a w b : sim_byte (sim_poke k a w) b = store_word (sim_byte k) a w b.
Proof.
  unfold sim_byte, sim_poke, store_word, WORD. cbn [sim_memory].
  assert (∀ n (m : gmap Z Z), default 0 (foldr (λ i m, <[a + Z.of_nat i := word_byte w (Z.of_nat i)]> m) m (seq 0 n) !! b)
    = if (a <=? b) && (b <? a + Z.of_nat n) then word_byte w (b - a) else default 0 (m !! b)) as Hfold.
  { induction n as [|n IH]; intros m.
    - cbn. destruct (Z.leb_spec a b), (Z.ltb_spec b (a + Z.of_nat 0)); cbn; lia || done.
    - rewrite seq_S, foldr_app. cbn [foldr]. rewrite IH.
      destruct (Z.leb_spec a b), (Z.ltb_spec b (a + Z.of_nat n)), (Z.ltb_spec b (a + Z.of_nat (S n)));
        cbn [andb]; try lia; try done.
      + replace (a + Z.of_nat (0 + n)) with b by lia. rewrite lookup_insert_eq. cbn. f_equal. lia.
      + rewrite lookup_insert_ne by lia. done.
      + rewrite lookup_insert_ne by lia. done. }
  rewrite Hfold. change (Z.of_nat 8) with 8. destruct (_ && _); [|done].
  apply Z.mod_small, word_byte_range.
Qed.

#[export] Program Instance sim_laws : PtraceLaws sim := {
  memory := sim_byte;
  debugreg k t i := default 0 (sim_debugreg k !! (t, i));
  traceable k t := t ∈ sim_threads k;
  mapped _ _ := True
}.
Next Obligation. intros. apply Z.mod_pos_bound. lia. Qed.
Next Obligation. cbn. intros. by case_decide; simplify_eq. Qed.
Next Obligation. cbn. intros. case_decide; simplify_eq. apply sim_poke_byte. Qed.
Next Obligation. cbn. intros. by case_decide; simplify_eq. Qed.
Next Obligation. cbn. intros. by case_decide; simplify_eq. Qed.
Next Obligation. cbn. intros. by case_decide; simplify_eq. Qed.
Next Obligation.
  cbn. intros k t i v k' Hk u j. case_decide; simplify_eq. cbn [sim_debugreg].
  destruct (Z.eqb_spec u t) as [->|]; [destruct (Z.eqb_spec j i) as [->|]|]; cbn [andb].
  - by rewrite lookup_insert_eq.
  - by rewrite lookup_insert_ne by congruence.
  - by rewrite lookup_insert_ne by congruence.
Qed.
Next Obligation. cbn. intros. by case_decide. Qed.
Next Obligation. cbn. intros. case_decide; [|done]. eauto. Qed.
Next Obligation. cbn. intros. by case_decide. Qed.
Next Obligation. cbn. intros. case_decide; [|done]. eauto. Qed.
