(* ===== verification/DebugRegs.v ===== *)
(** * Hardware breakpoints: the debug registers ([target/debug_regs_386.cpp])

    [DebugRegs386] keeps a copy of the address registers and of the control register of a
    thread, and writes them through [ptrace]. This is the branch for Linux on x86-64. *)
From S2P Require Import Effects Target.

Definition DEBUG_REG_NUM : Z := 4.
Definition LOCAL_EXACT : Z := 0x100.
Definition GLOBAL_EXACT : Z := 0x200.

Inductive Length : Type := BREAK_ONE_BYTE | BREAK_TWO_BYTE | BREAK_FOUR_BYTE.
Definition length_value (n : Length) : Z :=
  match n with BREAK_ONE_BYTE => 0 | BREAK_TWO_BYTE => 1 | BREAK_FOUR_BYTE => 3 end.

(** [BREAK_ON_ANY] is only ever an argument of [max_size]. *)
Inductive Condition : Type :=
| BREAK_ON_INSTRUCTION | BREAK_ON_DATA_WRITE | BREAK_ON_DATA_READ_WRITE.
Definition condition_value (c : Condition) : Z :=
  match c with
  | BREAK_ON_INSTRUCTION => 0 | BREAK_ON_DATA_WRITE => 1 | BREAK_ON_DATA_READ_WRITE => 3
  end.

(** An [int] expression converted to [reg_t]: 32 bits, sign-extended to 64. *)
Definition int_to_reg (x : Z) : Z :=
  let x := x mod 2 ^ 32 in (if x <? 2 ^ 31 then x else x - 2 ^ 32) mod 2 ^ 64.

Definition len_type (n : Length) (c : Condition) (regIndex : Z) : Z :=
  int_to_reg (Z.shiftl (Z.lor (Z.shiftl (length_value n) 2) (condition_value c)) (regIndex * 4 + 16)).

Definition enable_local (regIndex : Z) : Z := int_to_reg (Z.shiftl 1 (Z.shiftl regIndex 1)).
Definition enable_global (regIndex : Z) : Z := int_to_reg (Z.shiftl 2 (Z.shiftl regIndex 1)).

Definition get_condition (dreg7 regIndex : Z) : Z := Z.land (Z.shiftr dreg7 (16 + regIndex * 4)) 3.

Record DebugRegs386 : Type := mk_dregs {
  reg_ : list Z;       (* the addresses; 0: free *)
  control_ : Z         (* the control register, DR7 *)
}.

Definition new_dregs : DebugRegs386 := mk_dregs [0; 0; 0; 0] 0.

Definition set_control (c : Z) (d : DebugRegs386) : DebugRegs386 := mk_dregs (reg_ d) c.
Definition set_reg (i a : Z) (d : DebugRegs386) : DebugRegs386 :=
  mk_dregs (<[Z.to_nat i := a]> (reg_ d)) (control_ d).

Definition max_size : Z := DEBUG_REG_NUM.

(** What [enable_internal] makes of the control register. *)
Definition control_after (reg : Z) (activate global : bool) (cond : Condition) (len : Length)
  (control : Z) : Z :=
  if activate then
    let mask := Z.lor (int_to_reg (Z.shiftl 3 (Z.shiftl reg 1)))
                      (len_type BREAK_FOUR_BYTE BREAK_ON_DATA_READ_WRITE reg) in
    let control := Z.ldiff control mask in
    let mask := if global then enable_global reg else enable_local reg in
    Z.lor (Z.lor control (Z.lor (len_type len cond reg) mask)) (Z.lor LOCAL_EXACT GLOBAL_EXACT)
  else
    let control := Z.ldiff control (Z.lor (enable_global reg) (enable_local reg)) in
    if Z.land control 0xFF =? 0 then Z.ldiff control (Z.lor GLOBAL_EXACT LOCAL_EXACT) else control.

Section DebugRegs.
Context {K : Type} `{Ptrace K} (tid : Z).

#[local] Abbreviation D := (DebugRegs386 * K)%type.

Definition on_kernel {A} (m : eff K A) : eff D A := zoom snd (λ k s, (s.1, k)) m.
Definition on_regs (f : DebugRegs386 → DebugRegs386) : eff D unit := modify (λ s, (f s.1, s.2)).

Definition enable_internal (reg : Z) (activate global : bool) (cond : Condition) (len : Length)
  : eff D unit :=
  if DEBUG_REG_NUM <=? reg then throw OutOfRange
  else
    on_regs (λ d, set_control (control_after reg activate global cond len (control_ d)) d);;
    c ← gets (λ s, control_ s.1);
    on_kernel (sys_poke_debugreg tid 7 c).

Definition enable := enable_internal.

Definition addr_in_reg (i : Z) : eff D Z :=
  if DEBUG_REG_NUM <=? i then throw OutOfRange
  else gets (λ s, default 0 (reg_ s.1 !! Z.to_nat i)).

Definition status : eff D Z := on_kernel (sys_peek_debugreg tid 6).

(** The first free address register. *)
Fixpoint first_free (i : Z) (regs : list Z) : option Z :=
  match regs with
  | [] => None
  | r :: regs => if r =? 0 then Some i else first_free (i + 1) regs
  end.

(** [set_breakpoint]: the index of the register that was used, if any. *)
Definition set_breakpoint (addr : Z) (global : bool) (cond : Condition) (len : Length)
  : eff D (option Z) :=
  regs ← gets (λ s, reg_ s.1);
  match first_free 0 regs with
  | Some i =>
      on_kernel (sys_poke_debugreg tid i addr);;
      enable_internal i true global cond len;;
      on_regs (set_reg i addr);;
      mret (Some i)
  | None => mret None
  end.

(** [bitset<DEBUG_REG_NUM> flags(sr & 15)] with the bit [i] cleared. *)
Definition flags_without (sr i : Z) : Z := Z.ldiff (Z.land sr 15) (Z.shiftl 1 i).

Definition clear (i : Z) : eff D unit :=
  enable_internal (i mod 2 ^ 32) false true BREAK_ON_DATA_READ_WRITE BREAK_FOUR_BYTE;;
  (* the array has four elements: assert(i < DEBUG_REG_NUM) *)
  if DEBUG_REG_NUM <=? i then throw Undefined
  else
    sr ← status;
    on_kernel (sys_poke_debugreg tid i 0);;
    on_kernel (sys_poke_debugreg tid 6 (flags_without sr i));;
    on_regs (set_reg i 0).

(** The first bit set among the bits [i], [i + 1], ... *)
Fixpoint first_flag (fuel : nat) (i flags : Z) : option Z :=
  match fuel with
  | O => None
  | S fuel => if Z.testbit flags i then Some i else first_flag fuel (i + 1) flags
  end.

(** [hit]: the address that was hit, or 0, and its condition. *)
Definition hit : eff D (Z * option Z) :=
  statReg ← status;
  let flags := Z.land statReg 15 in
  match first_flag 4 0 flags with
  | None => mret (0, None)
  | Some i =>
      result ← addr_in_reg i;
      if result =? 0 then mret (0, None)
      else
        c ← gets (λ s, control_ s.1);
        on_kernel (sys_poke_debugreg tid 6 (flags_without statReg i));;
        mret (result, Some (get_condition c i))
  end.
End DebugRegs.
