(* ===== verification/DebugRegsCorrect.v ===== *)
(** * The debug registers hold the requested breakpoints

    The bits of the control register, the four slots that the registers stand for, and the
    delivery of hits. *)
From S2P Require Import Effects Target DebugRegs.

#[local] Arguments control_after : simpl never.

(** ** Bits of the control register *)

(** Two bits from [s] on. *)
Definition field2 (x s : Z) : Z := Z.land (Z.shiftr x s) 3.
Definition enable_field (x i : Z) : Z := field2 x (2 * i).
Definition cond_field (x i : Z) : Z := field2 x (16 + 4 * i).
Definition len_field (x i : Z) : Z := field2 x (18 + 4 * i).

Lemma get_condition_field x i : get_condition x i = cond_field x i.
Proof. unfold get_condition, cond_field, field2. by rewrite (Z.mul_comm 4 i). Qed.


Lemma field2_ext x y s : 0 ≤ s → Z.testbit x s = Z.testbit y s →
  Z.testbit x (s + 1) = Z.testbit y (s + 1) → field2 x s = field2 y s.
Proof.
  intros Hs H0 H1. unfold field2. apply Z.bits_inj'. intros n Hn.
  rewrite !Z.land_spec, !Z.shiftr_spec by lia.
  destruct (Z.eqb_spec n 0) as [->|]; [by rewrite Z.add_0_l, H0|].
  destruct (Z.eqb_spec n 1) as [->|]; [by rewrite (Z.add_comm 1), H1|].
  replace (Z.testbit 3 n) with false; [by rewrite !andb_false_r|].
  symmetry. apply Z.bits_above_log2; [lia|]. change (Z.log2 3) with 1. lia.
Qed.

(** The bit [n] after the activation of the register [i]; [old] is the bit before. *)
Definition active_bit (i : Z) (global : bool) (c : Condition) (l : Length) (n : Z) (old : bool) : bool :=
  if n =? 2 * i then negb global
  else if n =? 2 * i + 1 then global
  else if (n =? 8) || (n =? 9) then true
  else if (16 + 4 * i <=? n) && (n <? 20 + 4 * i)
       then Z.testbit (4 * length_value l + condition_value c) (n - (16 + 4 * i))
  else if (i =? 3) && (32 <=? n) && (n <? 64)
       then match l with BREAK_FOUR_BYTE => true | _ => false end
  else old.

(** The bits of [x] below 64, given that there are none above. *)
Lemma testbit_above x n : 0 ≤ x < 2 ^ 64 → 64 ≤ n → Z.testbit x n = false.
Proof.
  intros Hx Hn. destruct (Z.eqb_spec x 0) as [->|]; [apply Z.bits_0|].
  apply Z.bits_above_log2; [lia|]. apply Z.lt_le_trans with 64; [|lia].
  apply Z.log2_lt_pow2; lia.
Qed.

(** A statement about the numbers below a bound, by computation. *)
Definition below (m : nat) (P : Z → bool) : bool := forallb (λ i, P (Z.of_nat i)) (seq 0 m).

Lemma below_spec m P n : below m P = true → 0 ≤ n < Z.of_nat m → P n = true.
Proof.
  intros H Hn. apply forallb_forall with (x := Z.to_nat n) in H.
  - by rewrite Z2Nat.id in H by lia.
  - apply in_seq. lia.
Qed.

Definition all_conditions : list Condition :=
  [BREAK_ON_INSTRUCTION; BREAK_ON_DATA_WRITE; BREAK_ON_DATA_READ_WRITE].
Definition all_lengths : list Length := [BREAK_ONE_BYTE; BREAK_TWO_BYTE; BREAK_FOUR_BYTE].

Lemma in_conditions c : In c all_conditions.
Proof. destruct c; cbn; auto. Qed.
Lemma in_lengths l : In l all_lengths.
Proof. destruct l; cbn; auto. Qed.

(** A statement about registers and the settings of a breakpoint, by computation. *)
Lemma settings_spec (P : Z → bool → Condition → Length → bool) :
  below 4 (λ i, forallb (λ g, forallb (λ c, forallb (P i g c) all_lengths) all_conditions) [true; false])
  = true → ∀ i g c l, 0 ≤ i < 4 → P i g c l = true.
Proof.
  intros H i g c l Hi. pose proof (below_spec 4 _ i H Hi) as H1. cbv beta in H1.
  rewrite forallb_forall in H1. specialize (H1 g ltac:(destruct g; cbn; auto)).
  rewrite forallb_forall in H1. specialize (H1 c (in_conditions c)).
  rewrite forallb_forall in H1. exact (H1 l (in_lengths l)).
Qed.

Definition active_mask (i : Z) : Z :=
  Z.lor (int_to_reg (Z.shiftl 3 (Z.shiftl i 1))) (len_type BREAK_FOUR_BYTE BREAK_ON_DATA_READ_WRITE i).
Definition active_set (i : Z) (g : bool) (c : Condition) (l : Length) : Z :=
  Z.lor (len_type l c i) (if g then enable_global i else enable_local i).

Lemma activate_bit i g c l x n : 0 ≤ i < 4 → 0 ≤ n →
  Z.testbit (control_after i true g c l x) n = active_bit i g c l n (Z.testbit x n).
Proof.
  intros Hi Hn. unfold control_after. fold (active_mask i). fold (active_set i g c l).
  rewrite !Z.lor_spec, Z.ldiff_spec.
  set (E := Z.lor LOCAL_EXACT GLOBAL_EXACT).
  assert (below 64 (λ n, forallb (λ old, eqb
      (old && negb (Z.testbit (active_mask i) n) || Z.testbit (active_set i g c l) n || Z.testbit E n)
      (active_bit i g c l n old)) [true; false]) = true) as Hlow.
  { apply (settings_spec (λ i g c l, below 64 (λ n, forallb (λ old, eqb
      (old && negb (Z.testbit (active_mask i) n) || Z.testbit (active_set i g c l) n || Z.testbit E n)
      (active_bit i g c l n old)) [true; false]))); [vm_compute; reflexivity | exact Hi]. }
  destruct (Z.ltb_spec n 64) as [Hlt|Hge].
  - pose proof (below_spec 64 _ n Hlow ltac:(lia)) as H1. cbv beta in H1. rewrite forallb_forall in H1.
    specialize (H1 (Z.testbit x n) ltac:(destruct (Z.testbit x n); cbn; auto)).
    apply eqb_prop in H1. rewrite <- H1. unfold E. by rewrite Z.lor_spec.
  - assert ((0 <=? active_mask i) && (active_mask i <? 2 ^ 64) &&
      ((0 <=? active_set i g c l) && (active_set i g c l <? 2 ^ 64)) = true) as Hr.
    { apply (settings_spec (λ i g c l, (0 <=? active_mask i) && (active_mask i <? 2 ^ 64) &&
      ((0 <=? active_set i g c l) && (active_set i g c l <? 2 ^ 64)))); [vm_compute; reflexivity | exact Hi]. }
    rewrite <- (Z.lor_spec LOCAL_EXACT GLOBAL_EXACT). fold E.
    assert (0 ≤ E < 2 ^ 64) as HE by (split; vm_compute; congruence).
    rewrite (testbit_above (active_mask i)), (testbit_above (active_set i g c l)), (testbit_above E)
      by lia. cbn [negb].
    rewrite andb_true_r, !orb_false_r. unfold active_bit.
    replace (n =? 2 * i) with false by lia. replace (n =? 2 * i + 1) with false by lia.
    replace ((n =? 8) || (n =? 9)) with false by lia. replace (n <? 20 + 4 * i) with false by lia.
    replace (n <? 64) with false by lia. by rewrite !andb_false_r.
Qed.

(** The bits after a deactivation: the two enable bits of the register, and the exact bits
    once no register is enabled. *)
Lemma deactivate_bit i g c l x n : 0 ≤ i < 4 → 0 ≤ n →
  Z.testbit (control_after i false g c l x) n
  = Z.testbit x n && negb ((n =? 2 * i) || (n =? 2 * i + 1))
    && negb (((n =? 8) || (n =? 9)) && (Z.land (Z.ldiff x (Z.lor (enable_global i) (enable_local i))) 0xFF =? 0)).
Proof.
  intros Hi Hn. unfold control_after.
  assert (Z.testbit (Z.lor (enable_global i) (enable_local i)) n = (n =? 2 * i) || (n =? 2 * i + 1)) as Hm.
  { destruct (Z.ltb_spec n 64) as [Hlt|].
    - assert (below 64 (λ n, eqb (Z.testbit (Z.lor (enable_global i) (enable_local i)) n)
        ((n =? 2 * i) || (n =? 2 * i + 1))) = true) as Hall.
      { apply (settings_spec (λ i _ _ _, below 64 (λ n, eqb (Z.testbit (Z.lor (enable_global i) (enable_local i)) n)
          ((n =? 2 * i) || (n =? 2 * i + 1)))) ltac:(vm_compute; reflexivity) i g c l Hi). }
      by apply eqb_prop, (below_spec 64 _ n Hall).
    - assert ((0 <=? Z.lor (enable_global i) (enable_local i))
        && (Z.lor (enable_global i) (enable_local i) <? 2 ^ 64) = true) as Hr.
      { apply (settings_spec (λ i _ _ _, (0 <=? Z.lor (enable_global i) (enable_local i))
        && (Z.lor (enable_global i) (enable_local i) <? 2 ^ 64)) ltac:(vm_compute; reflexivity) i g c l Hi). }
      rewrite testbit_above by lia. symmetry. lia. }
  assert (Z.testbit (Z.lor GLOBAL_EXACT LOCAL_EXACT) n = (n =? 8) || (n =? 9)) as He.
  { destruct (Z.ltb_spec n 64).
    - refine (eqb_prop _ _ (below_spec 64 (λ n, eqb _ _) n _ _)); [vm_compute; reflexivity | lia].
    - rewrite testbit_above by (lia || (split; vm_compute; congruence)). symmetry. lia. }
  destruct (_ =? 0) eqn:Ez; rewrite ?Z.ldiff_spec, Hm, ?He, ?andb_true_r, ?andb_false_r; [done|].
  by rewrite andb_true_r.
Qed.

(** The six bits of the control register that belong to the register [j]. *)
Definition register_bits (j : Z) : list Z :=
  [2 * j; 2 * j + 1; 16 + 4 * j; 16 + 4 * j + 1; 18 + 4 * j; 18 + 4 * j + 1].

(** The fields of a register depend on its bits only. *)
Lemma fields_ext x y j : 0 ≤ j →
  (∀ n, In n (register_bits j) → Z.testbit x n = Z.testbit y n) →
  enable_field x j = enable_field y j ∧ cond_field x j = cond_field y j ∧ len_field x j = len_field y j.
Proof.
  intros Hj H. unfold enable_field, cond_field, len_field.
  split_and!; apply field2_ext; try lia; apply H; cbn; auto 10.
Qed.

Definition fields (x j : Z) : Z * Z * Z := (enable_field x j, cond_field x j, len_field x j).

Lemma fields_eq x y j : 0 ≤ j → (∀ n, In n (register_bits j) → Z.testbit x n = Z.testbit y n) →
  fields x j = fields y j.
Proof. intros Hj H. unfold fields. by destruct (fields_ext x y j Hj H) as (-> & -> & ->). Qed.

Lemma register_bits_nonneg j n : 0 ≤ j → In n (register_bits j) → 0 ≤ n.
Proof. intros Hj H. cbn in H. lia. Qed.

(** Activation sets the fields of its register and keeps those of the others. *)
Lemma activate_fields i j g c l x : 0 ≤ i < 4 → 0 ≤ j < 4 →
  fields (control_after i true g c l x) j
  = if j =? i then (if g then 2 else 1, condition_value c, length_value l) else fields x j.
Proof.
  intros Hi Hj. destruct (Z.eqb_spec j i) as [->|Hne].
  - transitivity (fields (control_after i true g c l 0) i).
    + apply fields_eq; [lia|]. intros n Hn. pose proof (register_bits_nonneg i n ltac:(lia) Hn).
      rewrite !activate_bit by lia.
      pose proof (settings_spec (λ i g c l, forallb (λ n, eqb (active_bit i g c l n true)
        (active_bit i g c l n false)) (register_bits i)) ltac:(vm_compute; reflexivity) i g c l Hi) as Ha.
      cbv beta in Ha. rewrite forallb_forall in Ha. specialize (Ha n Hn). apply eqb_prop in Ha.
      rewrite Z.bits_0. by destruct (Z.testbit x n).
    + pose proof (settings_spec (λ i g c l, let x := control_after i true g c l 0 in
        (enable_field x i =? if g then 2 else 1) && (cond_field x i =? condition_value c)
        && (len_field x i =? length_value l)) ltac:(vm_compute; reflexivity) i g c l Hi) as Ha.
      cbv beta zeta in Ha. rewrite !andb_true_iff, !Z.eqb_eq in Ha.
      unfold fields. by destruct Ha as [[-> ->] ->].
  - apply fields_eq; [lia|]. intros n Hn. pose proof (register_bits_nonneg j n ltac:(lia) Hn).
    rewrite activate_bit by lia.
    pose proof (settings_spec (λ i g c l, below 4 (λ j, (j =? i) || forallb (λ n,
      active_bit i g c l n true && negb (active_bit i g c l n false)) (register_bits j)))
      ltac:(vm_compute; reflexivity) i g c l Hi) as Ha.
    cbv beta in Ha. apply (below_spec 4 _ j) in Ha; [|lia]. cbv beta in Ha.
    apply orb_true_iff in Ha as [Ha|Ha]; [lia|]. rewrite forallb_forall in Ha.
    specialize (Ha n Hn). apply andb_true_iff in Ha as [Ht Hf]. apply negb_true_iff in Hf.
    by destruct (Z.testbit x n).
Qed.

(** Deactivation clears the enable field of its register and keeps all other fields. *)
Lemma deactivate_fields i j g c l x : 0 ≤ i < 4 → 0 ≤ j < 4 →
  fields (control_after i false g c l x) j
  = (if j =? i then 0 else enable_field x j, cond_field x j, len_field x j).
Proof.
  intros Hi Hj.
  assert (∀ n, 0 ≤ n → n ≠ 8 → n ≠ 9 → n ≠ 2 * i → n ≠ 2 * i + 1 →
    Z.testbit (control_after i false g c l x) n = Z.testbit x n) as Hsame.
  { intros n Hn H8 H9 H0 H1. rewrite deactivate_bit by lia.
    replace ((n =? 2 * i) || (n =? 2 * i + 1)) with false by lia.
    replace ((n =? 8) || (n =? 9)) with false by lia. cbn. by rewrite !andb_true_r. }
  assert (∀ n, n = 2 * i ∨ n = 2 * i + 1 → Z.testbit (control_after i false g c l x) n = Z.testbit 0 n) as Hzero.
  { intros n Hn. rewrite deactivate_bit by lia.
    replace ((n =? 2 * i) || (n =? 2 * i + 1)) with true by lia. cbn [negb]. by rewrite andb_false_r, Z.bits_0. }
  unfold fields, enable_field, cond_field, len_field. f_equal; [f_equal|].
  - destruct (Z.eqb_spec j i) as [->|].
    + transitivity (field2 0 (2 * i)); [apply field2_ext; try lia; apply Hzero; lia|].
      unfold field2. by rewrite Z.shiftr_0_l.
    + apply field2_ext; try lia; apply Hsame; lia.
  - apply field2_ext; try lia; apply Hsame; lia.
  - apply field2_ext; try lia; apply Hsame; lia.
Qed.

(** ** Flags of the status register *)

(** The registers whose flag is set in the status register. *)
Definition flagged (sr : Z) : list Z := List.filter (Z.testbit sr) [0; 1; 2; 3].

Definition flag_step_ok (f : Z) : bool :=
  (f =? 0) || match first_flag 4 0 f with
    | Some i => (0 <=? i) && (i <? 4) && ((0 <=? flags_without f i) && (flags_without f i <? 16))
        && bool_decide (flagged f = i :: flagged (flags_without f i))
    | None => false end.

(** The flags one by one, by computation on the sixteen values. *)
Lemma flags_step f : 0 ≤ f < 16 → f ≠ 0 →
  ∃ i, first_flag 4 0 f = Some i ∧ 0 ≤ i < 4 ∧ flagged f = i :: flagged (flags_without f i)
    ∧ 0 ≤ flags_without f i < 16.
Proof.
  intros Hf Hne.
  pose proof (below_spec 16 flag_step_ok f ltac:(vm_compute; reflexivity) Hf) as H.
  unfold flag_step_ok in H. apply orb_true_iff in H as [H|H]; [lia|].
  destruct (first_flag 4 0 f) as [i|]; [|done]. rewrite !andb_true_iff in H.
  destruct H as [[[H1 H2] [H3 H4]] H5]. apply bool_decide_eq_true in H5. exists i. repeat split; try done; lia.
Qed.

Lemma status_nibble x : 0 ≤ Z.land x 15 < 16.
Proof. change 15 with (Z.ones 4). rewrite Z.land_ones by lia. apply Z.mod_pos_bound. lia. Qed.

Lemma flagged_nibble x : flagged (Z.land x 15) = flagged x.
Proof.
  unfold flagged. apply List.filter_ext_in. intros i Hi. rewrite Z.land_spec.
  replace (Z.testbit 15 i) with true; [apply andb_true_r|].
  cbn in Hi. destruct Hi as [<-|[<-|[<-|[<-|[]]]]]; reflexivity.
Qed.

(** Clearing the flag of a register. *)
Definition flag_clear_ok (f i : Z) : bool :=
  bool_decide (flagged (Z.ldiff f (Z.shiftl 1 i)) = List.filter (λ j, negb (j =? i)) (flagged f)).

Lemma flagged_without sr i : 0 ≤ i < 4 →
  flagged (flags_without sr i) = List.filter (λ j, negb (j =? i)) (flagged sr).
Proof.
  intros Hi. rewrite <- (flagged_nibble sr). unfold flags_without.
  pose proof (below_spec 16 (λ f, below 4 (flag_clear_ok f)) (Z.land sr 15) ltac:(vm_compute; reflexivity)
    (status_nibble sr)) as H1.
  pose proof (below_spec 4 _ i H1 Hi) as H2. by apply bool_decide_eq_true in H2.
Qed.

(** ** Slots: what the four registers stand for *)

(** A slot is free when its address is null. *)
Record slot : Type := mk_slot {
  s_addr : Z;
  s_on : option bool;         (* enabled, and for all threads or for this one *)
  s_cond : Condition;
  s_len : Length
}.

(** The slots and the indices of those that were hit and not yet reported. *)
Record slots : Type := mk_slots { d_slots : list slot; d_hits : list Z }.

(** The operations on slots. *)
Fixpoint spec_first (i : nat) (sl : list slot) : option nat :=
  match sl with
  | [] => None
  | s :: sl => if s_addr s =? 0 then Some i else spec_first (S i) sl
  end.

Inductive dr_op : Type :=
| OSet (addr : Z) (global : bool) (c : Condition) (l : Length)
| OClear (i : nat)
| OEnable (i : nat) (on global : bool) (c : Condition) (l : Length)
| OHit.

(** What an operation returns: the index of the register that was used, if any; the address
    that was hit, or 0, and its condition. *)
Inductive dr_result : Type :=
| RSet (index : option Z)
| RDone
| RHit (addr : Z) (cond : option Z).

Definition free_slot (s : slot) : slot := mk_slot 0 None (s_cond s) (s_len s).
Definition spec_slot (on global : bool) (c : Condition) (l : Length) (s : slot) : slot :=
  if on then mk_slot (s_addr s) (Some global) c l else mk_slot (s_addr s) None (s_cond s) (s_len s).

Definition spec_op (op : dr_op) (d : slots) : dr_result * slots :=
  let sl := d_slots d in
  match op with
  | OSet addr g c l =>
      match spec_first 0 sl with
      | Some i => (RSet (Some (Z.of_nat i)), mk_slots (<[i := mk_slot addr (Some g) c l]> sl) (d_hits d))
      | None => (RSet None, d)
      end
  | OClear i =>
      (RDone, mk_slots (alter free_slot i sl) (List.filter (λ j, negb (j =? Z.of_nat i)) (d_hits d)))
  | OEnable i on g c l => (RDone, mk_slots (alter (spec_slot on g c l) i sl) (d_hits d))
  | OHit =>
      match d_hits d with
      | i :: hits =>
          match sl !! Z.to_nat i with
          | Some s => if s_addr s =? 0 then (RHit 0 None, d)
                      else (RHit (s_addr s) (Some (condition_value (s_cond s))), mk_slots sl hits)
          | None => (RHit 0 None, d)
          end
      | [] => (RHit 0 None, d)
      end
  end.

(** Address registers and a control register that hold the slots. *)
Definition slot_fields (s : slot) (addr : Z) (f : Z * Z * Z) : Prop :=
  addr = s_addr s
  ∧ f = (match s_on s with None => 0 | Some true => 2 | Some false => 1 end,
         condition_value (s_cond s), length_value (s_len s)).

Definition holds (regs : Z → Z) (control : Z) (sl : list slot) : Prop :=
  length sl = 4%nat ∧
  ∀ i s, sl !! i = Some s → slot_fields s (regs (Z.of_nat i)) (fields control (Z.of_nat i)).

Definition shadow (d : DebugRegs386) : Z → Z := λ i, default 0 (reg_ d !! Z.to_nat i).

Section Refinement.
Context {K : Type} `{PtraceLaws K} (tid : Z).

Definition run_op (op : dr_op) : eff (DebugRegs386 * K) dr_result :=
  match op with
  | OSet addr g c l => i ← set_breakpoint tid addr g c l; mret (RSet i)
  | OClear i => clear tid (Z.of_nat i);; mret RDone
  | OEnable i on g c l => enable tid (Z.of_nat i) on g c l;; mret RDone
  | OHit => ' (a, c) ← hit tid; mret (RHit a c)
  end.

(** The copies and the registers of the processor hold the same slots, and the flags of the
    status register are the hits. *)
Definition represents (d : slots) (s : DebugRegs386 * K) : Prop :=
  length (reg_ s.1) = 4%nat
  ∧ holds (shadow s.1) (control_ s.1) (d_slots d)
  ∧ (∀ i, 0 ≤ i < 4 → debugreg s.2 tid i = shadow s.1 i)
  ∧ debugreg s.2 tid 7 = Z.land (control_ s.1) DR_CONTROL_BITS
  ∧ flagged (debugreg s.2 tid 6) = d_hits d.

(** The kernel drops no bit of the fields. *)
Lemma control_bits_fields x i : 0 ≤ i < 4 → fields (Z.land x DR_CONTROL_BITS) i = fields x i.
Proof.
  intros Hi. apply fields_eq; [lia|]. intros n Hn. rewrite Z.land_spec.
  pose proof (below_spec 4 (λ i, forallb (Z.testbit DR_CONTROL_BITS) (register_bits i)) i
    ltac:(vm_compute; reflexivity) ltac:(lia)) as Hb.
  cbv beta in Hb. rewrite forallb_forall in Hb. by rewrite Hb, andb_true_r.
Qed.

Lemma represents_processor d s : represents d s →
  holds (debugreg s.2 tid) (debugreg s.2 tid 7) (d_slots d).
Proof.
  intros (_ & [Hl Hs] & Hr & Hc & _). split; [done|]. intros i o Hi.
  pose proof (lookup_lt_Some _ _ _ Hi). rewrite Hr, Hc, control_bits_fields by lia. by apply Hs.
Qed.

Lemma poke_inv i v (s s' : DebugRegs386 * K) u :
  on_kernel (sys_poke_debugreg tid i v) s = (Ret u, s') →
  s'.1 = s.1 ∧ ∀ t j, debugreg s'.2 t j
    = if (t =? tid) && (j =? i) then debugreg_value i v else debugreg s.2 t j.
Proof.
  unfold on_kernel, zoom, sys_poke_debugreg, mbind, eff_bind, get.
  destruct (poke_debugreg s.2 tid i v) as [k|] eqn:E; cbn; intros Hs; simplify_eq. cbn.
  split; [done|]. intros. by apply poke_debugreg_value.
Qed.

Lemma enable_internal_inv i on g c l (s s' : DebugRegs386 * K) u : 0 ≤ i < 4 →
  enable_internal tid i on g c l s = (Ret u, s') →
  s'.1 = mk_dregs (reg_ s.1) (control_after i on g c l (control_ s.1))
  ∧ ∀ t j, debugreg s'.2 t j = if (t =? tid) && (j =? 7)
      then Z.land (control_after i on g c l (control_ s.1)) DR_CONTROL_BITS else debugreg s.2 t j.
Proof.
  intros Hi. unfold enable_internal, DEBUG_REG_NUM. replace (4 <=? i) with false by lia.
  intros Hs. erewrite bind_ret in Hs by reflexivity. erewrite bind_ret in Hs by reflexivity.
  apply poke_inv in Hs as [H1 H2]. split; [exact H1|]. intros t j. rewrite H2. reflexivity.
Qed.

(** One slot and its fields change. *)
Lemma holds_alter regs regs' control control' sl (i : nat) f :
  holds regs control sl →
  (∀ j, 0 ≤ j < 4 → j ≠ Z.of_nat i → regs' j = regs j ∧ fields control' j = fields control j) →
  (∀ s, sl !! i = Some s → slot_fields (f s) (regs' (Z.of_nat i)) (fields control' (Z.of_nat i))) →
  holds regs' control' (alter f i sl).
Proof.
  intros [Hl Hs] Hother Hf. split; [by rewrite length_alter|]. intros j s Hj.
  rewrite list_lookup_alter in Hj. case_decide as Hij.
  - subst j. apply fmap_Some in Hj as (s' & Hs' & ->). by apply Hf.
  - pose proof (lookup_lt_Some _ _ _ Hj). destruct (Hother (Z.of_nat j)) as [-> ->]; try lia. by apply Hs.
Qed.

Lemma first_free_slots regs sl : ∀ i,
  Forall2 (λ r s, r = s_addr s) regs sl →
  first_free (Z.of_nat i) regs = Z.of_nat <$> spec_first i sl.
Proof.
  intros i Hf. revert i. induction Hf as [|r s regs sl -> Hf IH]; intros i; [done|].
  cbn [first_free spec_first]. destruct (s_addr s =? 0); [done|]. rewrite <- IH. f_equal. lia.
Qed.

Lemma spec_first_lt sl : ∀ i n, spec_first i sl = Some n → (n < i + length sl)%nat.
Proof.
  induction sl as [|s sl IH]; intros i n; cbn; [done|]. destruct (_ =? _); [intros [= ->]; lia|].
  intros E%IH. lia.
Qed.

Lemma holds_addresses d sl : length (reg_ d) = 4%nat → holds (shadow d) (control_ d) sl →
  Forall2 (λ r s, r = s_addr s) (reg_ d) sl.
Proof.
  intros Hl [Hs Hf]. apply Forall2_same_length_lookup_2; [lia|]. intros i r s Hr Ho.
  destruct (Hf i s Ho) as [E _]. unfold shadow in E. by rewrite Nat2Z.id, Hr in E.
Qed.

Lemma control_set i a d : control_ (set_reg i a d) = control_ d.
Proof. done. Qed.

Lemma shadow_set d i a j : 0 ≤ i → 0 ≤ j → (Z.to_nat i < length (reg_ d))%nat →
  shadow (set_reg i a d) j = if j =? i then a else shadow d j.
Proof.
  intros Hi Hj Hl. unfold shadow, set_reg. cbn [reg_]. destruct (Z.eqb_spec j i) as [->|].
  - by rewrite list_lookup_insert_eq by done.
  - by rewrite list_lookup_insert_ne by lia.
Qed.

Lemma set_refines addr g c l d s r s' : represents d s →
  set_breakpoint tid addr g c l s = (Ret r, s') →
  RSet r = (spec_op (OSet addr g c l) d).1 ∧ represents (spec_op (OSet addr g c l) d).2 s'.
Proof.
  intros (Hl & Hh & Hr & Hc & Hf) Hrun. unfold set_breakpoint in Hrun.
  erewrite bind_ret in Hrun by reflexivity.
  rewrite (first_free_slots _ (d_slots d) 0) in Hrun by (by apply holds_addresses). cbn [spec_op].
  destruct (spec_first 0 (d_slots d)) as [n|] eqn:En; cbn [fmap option_fmap option_map] in Hrun.
  2:{ eff_run Hrun. exact (conj eq_refl (conj Hl (conj Hh (conj Hr (conj Hc Hf))))). }
  pose proof (spec_first_lt _ _ _ En) as Hlt. rewrite (proj1 Hh) in Hlt. cbn in Hlt.
  apply bind_inv in Hrun as [(u & s1 & E1 & Hrun)|(e & _ & [=])]. apply poke_inv in E1 as [E1 D1].
  apply bind_inv in Hrun as [(u2 & s2 & E2 & Hrun)|(e & _ & [=])].
  apply enable_internal_inv in E2 as [E2 D2]; [|lia].
  unfold on_regs in Hrun. eff_run Hrun. split; [done|]. destruct s2 as [d2 k2]. cbn [fst snd] in *.
  rewrite E2, E1 in *. clear E1 E2. split_and!; cbn [fst snd d_slots d_hits].
  - cbn. by rewrite length_insert.
  - rewrite list_insert_alter. apply (holds_alter (shadow s.1) _ (control_ s.1)); [done | |].
    + intros j Hj Hne. rewrite control_set, shadow_set by (cbn [reg_]; lia). cbn [control_].
      rewrite activate_fields by lia. by replace (j =? Z.of_nat n) with false by lia.
    + intros s0 _. rewrite control_set, shadow_set by (cbn [reg_]; lia). cbn [control_].
      rewrite activate_fields by lia. rewrite Z.eqb_refl. split; [done|]. by destruct g.
  - intros i Hi. rewrite D2, D1. replace (i =? 7) with false by lia. rewrite andb_false_r, Z.eqb_refl.
    rewrite shadow_set by (cbn [reg_]; lia). cbn [andb]. unfold debugreg_value.
    replace (Z.of_nat n =? 7) with false by lia. destruct (i =? Z.of_nat n); [done | by apply Hr].
  - rewrite D2, !Z.eqb_refl. done.
  - rewrite D2, D1. replace (6 =? 7) with false by lia. replace (6 =? Z.of_nat n) with false by lia.
    by rewrite !andb_false_r.
Qed.

(** A request for a register that does not exist fails. *)
Lemma enable_internal_range i on g c l (s s' : DebugRegs386 * K) u :
  enable_internal tid i on g c l s = (Ret u, s') → i < 4.
Proof. unfold enable_internal, DEBUG_REG_NUM. destruct (Z.leb_spec 4 i); [done | lia]. Qed.

Lemma enable_refines (i : nat) on g c l d s u s' : represents d s →
  enable tid (Z.of_nat i) on g c l s = (Ret u, s') →
  represents (spec_op (OEnable i on g c l) d).2 s'.
Proof.
  intros (Hl & Hh & Hr & Hc & Hf) Hrun. unfold enable in Hrun.
  pose proof (enable_internal_range _ _ _ _ _ _ _ _ Hrun) as Hi.
  apply enable_internal_inv in Hrun as [E D]; [|lia]. cbn [spec_op snd].
  unfold represents. rewrite E. cbn [reg_ control_ d_slots d_hits]. split_and!; [done| | | |].
  - apply (holds_alter (shadow s.1) _ (control_ s.1)); [done | |].
    + intros j Hj Hji. split; [done|]. destruct on.
      * rewrite activate_fields by lia. by replace (j =? Z.of_nat i) with false by lia.
      * rewrite deactivate_fields by lia. by replace (j =? Z.of_nat i) with false by lia.
    + intros st Hst. destruct (proj2 Hh _ _ Hst) as [Ha Hfs]. unfold spec_slot. destruct on; cbn.
      * rewrite activate_fields by lia. rewrite Z.eqb_refl. split; [exact Ha|]. by destruct g.
      * rewrite deactivate_fields by lia. rewrite Z.eqb_refl. split; [exact Ha|].
        injection Hfs as _ Hcf Hlf. by rewrite Hcf, Hlf.
  - intros j Hj. rewrite D. replace (j =? 7) with false by lia. rewrite andb_false_r. by apply Hr.
  - by rewrite D, !Z.eqb_refl.
  - rewrite D. replace (6 =? 7) with false by lia. by rewrite andb_false_r.
Qed.

Lemma peek_inv i v (s s' : DebugRegs386 * K) :
  on_kernel (sys_peek_debugreg tid i) s = (Ret v, s') → s' = s ∧ v = debugreg s.2 tid i.
Proof.
  unfold on_kernel, zoom, sys_peek_debugreg, mbind, eff_bind, get.
  destruct (peek_debugreg s.2 tid i) as [w|] eqn:E; cbn; intros Hs; simplify_eq.
  split; [by destruct s | by apply peek_debugreg_value].
Qed.

Lemma clear_refines (i : nat) d s u s' : represents d s →
  clear tid (Z.of_nat i) s = (Ret u, s') → represents (spec_op (OClear i) d).2 s'.
Proof.
  intros (Hl & Hh & Hr & Hc & Hf) Hrun. unfold clear, DEBUG_REG_NUM in Hrun.
  apply bind_inv in Hrun as [(u1 & s1 & E1 & Hrun)|(e & _ & [=])].
  destruct (Z.leb_spec 4 (Z.of_nat i)) as [|Hi]; [done|]. rewrite Z.mod_small in E1 by lia.
  apply enable_internal_inv in E1 as [E1 D1]; [|lia].
  apply bind_inv in Hrun as [(sr & s2 & E2 & Hrun)|(e & _ & [=])]. apply peek_inv in E2 as [-> ->].
  apply bind_inv in Hrun as [(u3 & s3 & E3 & Hrun)|(e & _ & [=])]. apply poke_inv in E3 as [E3 D3].
  apply bind_inv in Hrun as [(u4 & s4 & E4 & Hrun)|(e & _ & [=])]. apply poke_inv in E4 as [E4 D4].
  unfold on_regs in Hrun. eff_run Hrun. destruct s4 as [d4 k4]. cbn [fst snd] in *. rewrite E4, E3, E1 in *.
  unfold represents. cbn [fst snd d_slots d_hits spec_op]. split_and!.
  - cbn. by rewrite length_insert.
  - apply (holds_alter (shadow s.1) _ (control_ s.1)); [done | |].
    + intros j Hj Hne. rewrite control_set, shadow_set by (cbn [reg_]; lia). cbn [control_].
      replace (j =? Z.of_nat i) with false by lia.
      rewrite deactivate_fields by lia. by replace (j =? Z.of_nat i) with false by lia.
    + intros st Hst. destruct (proj2 Hh _ _ Hst) as [_ Hfs].
      rewrite control_set, shadow_set by (cbn [reg_]; lia). cbn [control_].
      rewrite deactivate_fields by lia. rewrite Z.eqb_refl. split; [done|]. injection Hfs as _ Hcf Hlf.
      cbn. by rewrite Hcf, Hlf.
  - intros j Hj. rewrite D4, D3, D1. replace (j =? 7) with false by lia. replace (j =? 6) with false by lia.
    rewrite !andb_false_r, Z.eqb_refl, shadow_set by (cbn [reg_]; lia). cbn [andb]. unfold debugreg_value.
    replace (Z.of_nat i =? 7) with false by lia. destruct (j =? Z.of_nat i); [done|].
    rewrite D1. replace (j =? 7) with false by lia. rewrite andb_false_r. by apply Hr.
  - rewrite D4. replace (7 =? 6) with false by lia. rewrite andb_false_r, D3.
    replace (7 =? Z.of_nat i) with false by lia. by rewrite andb_false_r, D1, !Z.eqb_refl.
  - rewrite D4, !Z.eqb_refl. cbn [andb]. unfold debugreg_value. replace (6 =? 7) with false by lia.
    rewrite flagged_without, D1 by lia. replace (6 =? 7) with false by lia. by rewrite andb_false_r, Hf.
Qed.

(** The first flag, in front of the others. *)
Lemma first_flag_flagged sr :
  match first_flag 4 0 (Z.land sr 15) with
  | Some i => 0 ≤ i < 4 ∧ flagged sr = i :: flagged (flags_without sr i)
  | None => flagged sr = []
  end.
Proof.
  pose proof (status_nibble sr) as Hr. rewrite <- (flagged_nibble sr).
  destruct (Z.eqb_spec (Z.land sr 15) 0) as [Ez|Hne]; [by rewrite Ez|].
  destruct (flags_step _ Hr Hne) as (i & -> & Hi & E & _). split; [done|]. rewrite E. do 2 f_equal.
  unfold flags_without. by rewrite <- Z.land_assoc.
Qed.

(** A hit reports the first flagged register and changes the status register only. *)
Lemma hit_refines d s r s' : represents d s → run_op OHit s = (Ret r, s') →
  r = (spec_op OHit d).1 ∧ represents (spec_op OHit d).2 s'.
Proof.
  intros (Hl & Hh & Hr & Hc & Hf) Hrun. cbn [run_op] in Hrun.
  apply bind_inv in Hrun as [([a c] & s1 & E1 & Hrun)|(e & _ & [=])]. eff_run Hrun.
  unfold hit in E1. apply bind_inv in E1 as [(sr & s1 & E & E1)|(e & _ & [=])].
  apply peek_inv in E as [-> Esr]. pose proof (first_flag_flagged sr) as Hff. rewrite Esr in Hff, E1.
  cbn [spec_op]. rewrite <- Hf. destruct (first_flag 4 0 _) as [i|].
  2:{ eff_run E1. rewrite Hff. exact (conj eq_refl (conj Hl (conj Hh (conj Hr (conj Hc Hf))))). }
  destruct Hff as [Hi Hff]. rewrite Hff. unfold addr_in_reg, DEBUG_REG_NUM in E1.
  replace (4 <=? i) with false in E1 by lia. erewrite bind_ret in E1 by reflexivity.
  fold (shadow s.1 i) in E1.
  destruct (lookup_lt_is_Some_2 (d_slots d) (Z.to_nat i) ltac:(rewrite (proj1 Hh); lia)) as [st Hst].
  destruct (proj2 Hh _ _ Hst) as [Ha Hfs]. rewrite Z2Nat.id in Ha, Hfs by lia. rewrite Hst, <- Ha.
  destruct (shadow s.1 i =? 0).
  { eff_run E1. exact (conj eq_refl (conj Hl (conj Hh (conj Hr (conj Hc Hf))))). }
  erewrite bind_ret in E1 by reflexivity.
  apply bind_inv in E1 as [(u & s2 & E2 & E1)|(e & _ & [=])]. apply poke_inv in E2 as [E2 D2].
  eff_run E1. injection Hfs as _ Hcf _. rewrite get_condition_field, Hcf. split; [done|].
  unfold represents. rewrite E2. cbn [d_slots d_hits]. split_and!; [done | done | | |].
  - intros j Hj. rewrite D2. replace (j =? 6) with false by lia. rewrite andb_false_r. by apply Hr.
  - rewrite D2. replace (7 =? 6) with false by lia. by rewrite andb_false_r.
  - rewrite D2, !Z.eqb_refl. done.
Qed.

Lemma op_refines op d s r s' : represents d s → run_op op s = (Ret r, s') →
  r = (spec_op op d).1 ∧ represents (spec_op op d).2 s'.
Proof.
  intros Hs Hrun. destruct op; [| | |by eapply hit_refines]; cbn [run_op] in *;
    apply bind_inv in Hrun as [(u & s1 & E1 & Hrun)|(e & _ & [=])]; eff_run Hrun.
  - by eapply set_refines.
  - split; [done|]. by eapply clear_refines.
  - split; [done|]. by eapply enable_refines.
Qed.

Fixpoint run_ops (ops : list dr_op) : eff (DebugRegs386 * K) (list dr_result) :=
  match ops with
  | [] => mret []
  | op :: ops => r ← run_op op; rs ← run_ops ops; mret (r :: rs)
  end.

End Refinement.

Fixpoint spec_ops (ops : list dr_op) (d : slots) : list dr_result * slots :=
  match ops with
  | [] => ([], d)
  | op :: ops => let '(r, d) := spec_op op d in let '(rs, d) := spec_ops ops d in (r :: rs, d)
  end.

Definition no_slots : slots := mk_slots (replicate 4 (mk_slot 0 None BREAK_ON_INSTRUCTION BREAK_ONE_BYTE)) [].

(** C24: the debug registers implement four slots. Whatever sequence of breakpoint requests,
    switches, removals and queries for hits a thread goes through without an exception, the
    results are those of the slots: a request gets the first slot without an address, and none
    when all are taken; a query reports the address and the condition of the first slot that
    was hit, and 0 when there is none or when that slot has no address. Both the copies that
    [DebugRegs386] keeps and the registers of the processor hold exactly the slots: addresses,
    enable bits, conditions and lengths; the flags of the status register are the hits that
    were not reported. *)
Theorem debug_registers_refine {K} `{PtraceLaws K} tid ops d s rs s' :
  represents tid d s → run_ops tid ops s = (Ret rs, s') →
  rs = (spec_ops ops d).1
  ∧ holds (shadow s'.1) (control_ s'.1) (d_slots (spec_ops ops d).2)
  ∧ holds (debugreg s'.2 tid) (debugreg s'.2 tid 7) (d_slots (spec_ops ops d).2)
  ∧ flagged (debugreg s'.2 tid 6) = d_hits (spec_ops ops d).2.
Proof.
  intros Hs Hrun.
  cut (rs = (spec_ops ops d).1 ∧ represents tid (spec_ops ops d).2 s').
  { intros [-> Hr]. split_and!; [done | apply Hr | by apply represents_processor | apply Hr]. }
  revert d s rs Hs Hrun. induction ops as [|op ops IH]; intros d s rs Hs Hrun; cbn [run_ops spec_ops] in *.
  - by eff_run Hrun.
  - apply bind_inv in Hrun as [(r & s1 & E1 & Hrun)|(e & _ & [=])].
    apply bind_inv in Hrun as [(rs' & s2 & E2 & Hrun)|(e & _ & [=])]. eff_run Hrun.
    destruct (op_refines tid op d s r s1 Hs E1) as [-> H1].
    destruct (IH _ _ _ H1 E2) as [-> H2].
    destruct (spec_op op d) as [r d1]. cbn in *. by destruct (spec_ops ops d1).
Qed.

(** A thread without breakpoints that was stopped by the second one that it will get. *)
Definition sample_kernel : sim := mk_sim ∅ {[1]} {[(1, 6) := 0xFFFF0FF2]}.
Definition sample_slots : slots := mk_slots (d_slots no_slots) [1].

Lemma sample_represents : represents (K := sim) 1 sample_slots (new_dregs, sample_kernel).
Proof.
  split_and!; [done | | | |].
  - split; [done|]. intros i o Hi. destruct i as [|[|[|[|]]]]; cbn in Hi; simplify_eq; by split.
  - intros i Hi. unfold shadow. cbn.
    assert (i = 0 ∨ i = 1 ∨ i = 2 ∨ i = 3) as [->|[->|[->| ->]]] by lia; reflexivity.
  - reflexivity.
  - vm_compute. reflexivity.
Qed.

(** Requests on the simulated thread. *)
Definition sample_ops : list dr_op :=
  [OSet 0x400000 false BREAK_ON_INSTRUCTION BREAK_ONE_BYTE;
   OSet 0x601040 true BREAK_ON_DATA_WRITE BREAK_FOUR_BYTE;
   OEnable 0 false false BREAK_ON_INSTRUCTION BREAK_ONE_BYTE;
   OEnable 3 true false BREAK_ON_INSTRUCTION BREAK_ONE_BYTE;
   OHit;
   OSet 0x601048 false BREAK_ON_DATA_READ_WRITE BREAK_TWO_BYTE;
   OClear 1;
   OSet 0x400010 false BREAK_ON_INSTRUCTION BREAK_ONE_BYTE;
   OHit].

Lemma debug_registers_refine_witness :
  (spec_ops sample_ops sample_slots).1
    = [RSet (Some 0); RSet (Some 1); RDone; RDone; RHit 0x601040 (Some 1); RSet (Some 2); RDone; RSet (Some 1);
       RHit 0 None]
  ∧ ∃ s', run_ops 1 sample_ops (new_dregs, sample_kernel) = (Ret (spec_ops sample_ops sample_slots).1, s')
    ∧ holds (debugreg s'.2 1) (debugreg s'.2 1 7) (d_slots (spec_ops sample_ops sample_slots).2).
Proof.
  split; [reflexivity|].
  assert (run_ops (K := sim) 1 sample_ops (new_dregs, sample_kernel)
    = (Ret (spec_ops sample_ops sample_slots).1, (run_ops 1 sample_ops (new_dregs, sample_kernel)).2)) as E.
  { rewrite (surjective_pairing (run_ops 1 sample_ops (new_dregs, sample_kernel))) at 1. f_equal. }
  eexists. split; [exact E|].
  exact (proj1 (proj2 (proj2 (debug_registers_refine 1 sample_ops sample_slots _ _ _ sample_represents E)))).
Defined.

(** ** Delivery of hits *)

(** Calls of [hit] until it returns 0. *)
Fixpoint drain {K} `{Ptrace K} (tid : Z) (n : nat) : eff (DebugRegs386 * K) (list Z) :=
  match n with
  | O => mret []
  | S n =>
      r ← hit tid;
      if r.1 =? 0 then mret [] else l ← drain tid n; mret (r.1 :: l)
  end.

Section Hits.
Context {K : Type} `{PtraceLaws K} (tid : Z).

(** A call of [hit] when the first flag belongs to a register that holds an address. *)
Lemma hit_first s i : traceable s.2 tid → first_flag 4 0 (Z.land (debugreg s.2 tid 6) 15) = Some i →
  0 ≤ i < 4 → shadow s.1 i ≠ 0 →
  ∃ k, hit tid s = (Ret (shadow s.1 i, Some (get_condition (control_ s.1) i)), (s.1, k))
    ∧ debugreg k tid 6 = flags_without (debugreg s.2 tid 6) i ∧ traceable k tid.
Proof.
  intros Ht Hf Hi Ha. unfold hit, status.
  destruct (peek_debugreg_succeeds s.2 tid 6 Ht) as [sr Hsr]. pose proof (peek_debugreg_value _ _ _ _ Hsr).
  erewrite bind_ret.
  2:{ unfold on_kernel, zoom, sys_peek_debugreg, mbind, eff_bind, get. by rewrite Hsr. }
  subst sr. rewrite Hf. unfold addr_in_reg, DEBUG_REG_NUM. replace (4 <=? i) with false by lia.
  erewrite bind_ret by reflexivity. change (default 0 _) with (shadow s.1 i).
  replace (shadow s.1 i =? 0) with false by lia. erewrite bind_ret by reflexivity.
  destruct (poke_status_succeeds s.2 tid (flags_without (debugreg s.2 tid 6) i) Ht) as (k & Hk & Htr).
  exists k. erewrite bind_ret.
  2:{ unfold on_kernel, zoom, sys_poke_debugreg, mbind, eff_bind, get. cbn [fst snd]. rewrite Hk. reflexivity. }
  split; [reflexivity|]. split; [|by apply Htr].
  by rewrite (poke_debugreg_value _ _ _ _ _ Hk), !Z.eqb_refl.
Qed.

Lemma hit_none s : traceable s.2 tid → Z.land (debugreg s.2 tid 6) 15 = 0 →
  hit tid s = (Ret (0, None), s).
Proof.
  intros Ht Hf. unfold hit, status.
  destruct (peek_debugreg_succeeds s.2 tid 6 Ht) as [sr Hsr]. pose proof (peek_debugreg_value _ _ _ _ Hsr).
  erewrite bind_ret.
  2:{ unfold on_kernel, zoom, sys_peek_debugreg, mbind, eff_bind, get. by rewrite Hsr. }
  subst sr. rewrite Hf. by destruct s.
Qed.
End Hits.

(** C25: every hit that the processor flagged is delivered. When each flagged register of a
    stopped thread holds an address, calling [hit] until it returns 0 reports the addresses
    of all flagged registers, each one once and in order, and leaves no flag behind; five
    calls are enough. *)
Theorem hits_delivered {K} `{PtraceLaws K} tid s :
  traceable s.2 tid → (∀ i, In i (flagged (debugreg s.2 tid 6)) → shadow s.1 i ≠ 0) →
  ∃ k, drain tid 5 s = (Ret (map (shadow s.1) (flagged (debugreg s.2 tid 6))), (s.1, k))
    ∧ Z.land (debugreg k tid 6) 15 = 0.
Proof.
  intros Ht Ha.
  assert (length (flagged (debugreg s.2 tid 6)) < 5)%nat as Hlen.
  { unfold flagged. pose proof (List.filter_length_le (Z.testbit (debugreg s.2 tid 6)) [0; 1; 2; 3]). cbn in *. lia. }
  revert s Ht Ha Hlen. generalize 5%nat as n. intros n. induction n as [|n IH]; intros s Ht Ha Hlen; [lia|]. cbn [drain].
  pose proof (status_nibble (debugreg s.2 tid 6)) as Hr. rewrite <- flagged_nibble in Ha, Hlen |- *.
  destruct (Z.eqb_spec (Z.land (debugreg s.2 tid 6) 15) 0) as [Ez|Hne].
  - exists s.2. erewrite bind_ret by (by apply hit_none). rewrite Ez. by destruct s.
  - destruct (flags_step _ Hr Hne) as (i & Hi & Hi4 & Efl & Hrest). rewrite Efl in Ha, Hlen |- *.
    destruct (hit_first tid s i Ht Hi Hi4 (Ha i (or_introl eq_refl))) as (k & Eh & Ek & Htk).
    assert (flags_without (debugreg s.2 tid 6) i = flags_without (Z.land (debugreg s.2 tid 6) 15) i) as Efw.
    { unfold flags_without. by rewrite <- Z.land_assoc. }
    rewrite Efw in Ek. destruct (IH (s.1, k)) as (k' & Ed & Ek'); cbn [fst snd] in *; [done| | |].
    + intros j Hj. apply Ha. right. by rewrite Ek in Hj.
    + rewrite Ek. cbn [length] in Hlen. lia.
    + exists k'. split; [|done]. erewrite bind_ret by exact Eh. cbn [fst].
      replace (shadow s.1 i =? 0) with false by (specialize (Ha i (or_introl eq_refl)); lia).
      erewrite bind_ret by exact Ed. by rewrite Ek.
Qed.

(** Two of three breakpoints were hit. *)
Definition sample_hits : DebugRegs386 * sim :=
  (mk_dregs [0x1000; 0x2000; 0x3000; 0] 0x715, mk_sim ∅ {[1]} {[(1, 6) := 0xFFFF0FF5]}).

Lemma hits_delivered_witness :
  ∃ k, drain 1 5 sample_hits = (Ret [0x1000; 0x3000], (sample_hits.1, k))
    ∧ Z.land (debugreg k 1 6) 15 = 0.
Proof.
  replace [0x1000; 0x3000]
    with (map (shadow sample_hits.1) (flagged (debugreg sample_hits.2 1 6))) by (vm_compute; reflexivity).
  apply (hits_delivered 1 sample_hits).
  - cbn. set_solver.
  - intros i Hi. vm_compute in Hi. destruct Hi as [<-|[<-|[]]]; discriminate.
Defined.
