(* ===== verification/BreakPoint.v ===== *)
(** * Breakpoints ([engine/breakpoint.h], [engine/breakpoint.cpp])

    A logical breakpoint counts how often it was enabled and keeps the actions to execute
    when it is hit; software breakpoints share the physical breakpoints of their manager,
    which patch the code of the debuggee, hardware breakpoints use a debug register. *)
From stdpp Require Import strings.
From S2P Require Import Effects Target DebugRegs.

(** [BreakPoint::Type]; [GLOBAL] is [SOFTWARE] and [PER_THREAD] is [EMULATED]. *)
Inductive BType : Type := SOFTWARE | EMULATED | HARDWARE | DEFERRED.

#[export] Instance BType_eq_dec : EqDecision BType.
Proof. solve_decision. Defined.

(** A [BreakPointAction]: its address, its name and its cookie. *)
Record action : Type := mk_action { act_id : Z; act_name : string; cookie : Z }.

#[export] Instance action_eq_dec : EqDecision action.
Proof. solve_decision. Defined.

(** The classes that derive from [BreakPointBase]. *)
Inductive bclass : Type :=
| SoftwareBreakPoint
| EmulatedBreakPoint
| HardwareBreakPoint (register : Z) (global : bool) (cond : Condition) (len : Length)
| DeferredBreakPoint (type_ : BType).

Record bpoint : Type := mk_bpoint {
  b_class : bclass;
  b_thread : Z;                    (* the lightweight process of [thread_] *)
  b_addr : Z;
  b_enable : Z;                    (* > 0: enabled *)
  b_actions : list action;
  b_contexts : gmap Z Z            (* actionContexts_ *)
}.

Definition set_enable (n : Z) (b : bpoint) : bpoint :=
  mk_bpoint (b_class b) (b_thread b) (b_addr b) n (b_actions b) (b_contexts b).
Definition set_thread (t : Z) (b : bpoint) : bpoint :=
  mk_bpoint (b_class b) t (b_addr b) (b_enable b) (b_actions b) (b_contexts b).
Definition set_actions (l : list action) (b : bpoint) : bpoint :=
  mk_bpoint (b_class b) (b_thread b) (b_addr b) (b_enable b) l (b_contexts b).
Definition set_contexts (m : gmap Z Z) (b : bpoint) : bpoint :=
  mk_bpoint (b_class b) (b_thread b) (b_addr b) (b_enable b) (b_actions b) m.

Definition type (b : bpoint) : BType :=
  match b_class b with
  | SoftwareBreakPoint => SOFTWARE
  | EmulatedBreakPoint => EMULATED
  | HardwareBreakPoint _ _ _ _ => HARDWARE
  | DeferredBreakPoint t => t
  end.

Definition is_enabled (b : bpoint) : bool := 0 <? b_enable b.
Definition is_deferred (b : bpoint) : bool :=
  match b_class b with DeferredBreakPoint _ => true | _ => false end.

(** The constructors. *)
Definition new_software (thread addr : Z) : bpoint := mk_bpoint SoftwareBreakPoint thread addr 0 [] ∅.
Definition new_emulated (thread addr : Z) : bpoint := mk_bpoint EmulatedBreakPoint thread addr 0 [] ∅.
Definition new_hardware (thread addr register : Z) : bpoint :=
  mk_bpoint (HardwareBreakPoint register false BREAK_ON_INSTRUCTION BREAK_ONE_BYTE) thread addr 1 [] ∅.
Definition new_deferred (thread : Z) (t : BType) (addr : Z) : bpoint :=
  mk_bpoint (DeferredBreakPoint t) thread addr 0 [] ∅.
(** The constructor that [WatchPoint] uses. *)
Definition new_watch (thread addr register : Z) (global : bool) (cond : Condition) : bpoint :=
  mk_bpoint (HardwareBreakPoint register global cond BREAK_ONE_BYTE) thread addr 0 [] ∅.

(** ** Actions *)

Definition name_matches (name : option string) (a : action) : bool :=
  match name with None => true | Some n => bool_decide (act_name a = n) end.

(** The actions that match a name, in order; their number is what [enum_actions] returns. *)
Definition enum_actions (name : option string) (b : bpoint) : list action :=
  List.filter (name_matches name) (b_actions b).

(** [add_action]; [context] is the current action context of the debugger. *)
Definition add_action (a : action) (context : option Z) (b : bpoint) : bpoint * bool :=
  if negb (cookie a =? 0)
     && existsb (λ x, (cookie x =? cookie a) && bool_decide (act_name x = act_name a)) (b_actions b)
  then (b, false)
  else
    let b := set_actions (b_actions b ++ [a]) b in
    (match context with
     | Some c => set_contexts (<[act_id a := c]> (b_contexts b)) b
     | None => b
     end, true).

Definition action_context (id : Z) (b : bpoint) : option Z := b_contexts b !! id.

Definition remove_actions (name : option string) (b : bpoint) : bpoint * Z :=
  (set_actions (List.filter (λ a, negb (name_matches name a)) (b_actions b)) b,
   Z.of_nat (length (enum_actions name b))).

(** [remove(action, cookie)] *)
Definition remove (id c : Z) (b : bpoint) : bpoint * Z :=
  let hit a := (act_id a =? id) && ((c =? 0) || (c =? cookie a)) in
  (set_actions (List.filter (λ a, negb (hit a)) (b_actions b)) b,
   Z.of_nat (length (List.filter hit (b_actions b)))).

(** [action(n)] *)
Definition action_at (n : Z) (b : bpoint) : outcome action :=
  match b_actions b !! Z.to_nat n with
  | Some a => if n <? 0 then Raise OutOfRange else Ret a
  | None => Raise OutOfRange
  end.

(** [execute_actions]: the loop over the copy [tmp]; [d] counts the iterations. The client
    code of an action is given the breakpoint and may change its actions; it answers whether
    the action stays. *)
Section Execute.
Variables (enabled : action → bool) (execute : action → option Z → bpoint → bpoint * bool).

Fixpoint execute_loop (tmp : list action) (d : nat) : eff bpoint unit :=
  match tmp with
  | [] => mret tt
  | a :: tmp =>
      if negb (enabled a) then execute_loop tmp (S d)
      else
        stays ← (λ b, let '(b, r) := execute a (action_context (act_id a) b) b in (Ret r, b));
        if stays : bool then execute_loop tmp (S d)
        else
          b ← get;
          match b_actions b !! d with
          | Some x =>
              modify (λ b, set_actions (delete d (b_actions b))
                             (set_contexts (delete (act_id x) (b_contexts b)) b));;
              execute_loop tmp (S d)
          | None => throw Undefined
          end
  end.

Definition execute_actions : eff bpoint unit := b ← get; execute_loop (b_actions b) 0.
End Execute.

(** [execute_actions(thread)] of each class. *)
Definition hit_breakpoint enabled execute (thread : Z) : eff bpoint unit :=
  b ← get;
  match b_class b with
  | EmulatedBreakPoint =>
      when (thread =? b_thread b) (execute_actions enabled execute)
  | DeferredBreakPoint _ => throw LogicError
  | SoftwareBreakPoint | HardwareBreakPoint _ _ _ _ => execute_actions enabled execute
  end.

(** ** Physical breakpoints *)

Record PhysicalBreakPoint : Type := mk_physical { origCode : Z; enabled : bool }.

(** What the breakpoints of a process change: the debuggee, the physical breakpoints of the
    manager and the debug registers of the threads. *)
Record machine (K : Type) : Type := mk_machine {
  kernel : K;
  physical : gmap Z PhysicalBreakPoint;
  dregs : gmap Z DebugRegs386
}.
Arguments mk_machine {K}.
Arguments kernel {K}.
Arguments physical {K}.
Arguments dregs {K}.

(** The threads of the debuggee as the engine knows them. *)
Record process_info : Type := mk_process {
  p_pid : Z;
  main_thread : option Z;                (* get_thread(DEFAULT_THREAD) *)
  process_threads : list Z;              (* those that enum_threads visits *)
  thread_process : Z → Z;                (* the process of a thread *)
  is_live : Z → bool;
  thread_is_attached : Z → bool;
  thread_finished : Z → bool
}.

Section Enable.
Context {K : Type} `{Ptrace K}.
Variables (proc : process_info).
(** [step_until_safe] runs the thread until it is out of the patched code; the answer is
    whether it is finished then. *)
Variable step_until_safe : Z → Z → eff K bool.

Definition on_kernel {A} (m : eff K A) : eff (machine K) A :=
  zoom kernel (λ k s, mk_machine k (physical s) (dregs s)) m.

Definition phys_at (addr : Z) (s : machine K) : PhysicalBreakPoint :=
  default (mk_physical 0 false) (physical s !! addr).
Definition put_phys (addr : Z) (p : PhysicalBreakPoint) : eff (machine K) unit :=
  modify (λ s, mk_machine (kernel s) (<[addr := p]> (physical s)) (dregs s)).

(** [read_code(addr, &brkpnt.origCode, 1)] of a thread or of the process. *)
Definition read_orig (tid addr : Z) : eff (machine K) unit :=
  ws ← on_kernel (read_memory tid addr 1 false);
  p ← gets (phys_at addr);
  put_phys addr (mk_physical (default (origCode p) (head ws)) (enabled p)).

(** [write_code(addr, &code, 1)], then [brkpnt.enabled = enable]. *)
Definition write_patch (tid addr code : Z) (enable : bool) : eff (machine K) unit :=
  on_kernel (write_memory tid addr [code]);;
  p ← gets (phys_at addr);
  put_phys addr (mk_physical (origCode p) enable).

Definition enable_software_breakpoint (thread addr : Z) (enable : bool) : eff (machine K) bool :=
  p ← gets (phys_at addr);
  put_phys addr p;;
  (if origCode p =? 0 then
     if enabled p then throw LogicError
     else catch (read_orig thread addr) (mret tt)
   else mret tt);;
  p ← gets (phys_at addr);
  when (origCode p =? 0) (read_orig (p_pid proc) addr);;
  p ← gets (phys_at addr);
  let code := if enable then x86_get_breakpoint_opcode (origCode p) else origCode p in
  if code =? 0 then mret true
  else
    when (negb (Bool.eqb enable (enabled p)))
      (catch (write_patch thread addr code enable) (mret tt));;
    p ← gets (phys_at addr);
    if Bool.eqb enable (enabled p) then mret true
    else catch (write_patch (p_pid proc) addr code enable;; mret true) (mret false).

(** [EnumThreadCallback]: the thread that takes over from a finished one. *)
Fixpoint pick_thread (owner addr : Z) (threads : list Z) : eff K Z :=
  match threads with
  | [] => mret owner
  | t :: threads =>
      if (t =? owner) || negb (thread_process proc t =? thread_process proc owner) || thread_finished proc t
      then pick_thread owner addr threads
      else
        finished ← step_until_safe t addr;
        if finished : bool then pick_thread owner addr threads else mret t
  end.

(** A breakpoint object together with what it changes. *)
#[local] Abbreviation W := (bpoint * machine K)%type.
Definition on_machine {A} (m : eff (machine K) A) : eff W A := zoom snd (λ s w, (w.1, s)) m.
Definition this : eff W bpoint := gets fst.
Definition on_this (f : bpoint → bpoint) : eff W unit := modify (λ w, (f w.1, w.2)).

(** [SoftwareBreakPoint::do_enable]: a finished owner is replaced, but the patch is still
    written through it. *)
Definition do_enable_software (onOff : bool) : eff W bool :=
  b ← this;
  when (thread_finished proc (b_thread b))
    (owner ← on_machine (on_kernel (pick_thread (b_thread b) (b_addr b) (process_threads proc)));
     on_this (set_thread owner));;
  on_machine (enable_software_breakpoint (b_thread b) (b_addr b) onOff).

Definition on_dregs {A} (tid : Z) (m : eff (DebugRegs386 * K) A) : eff (machine K) A :=
  zoom (λ s, (default new_dregs (dregs s !! tid), kernel s))
       (λ dk s, mk_machine dk.2 (physical s) (<[tid := dk.1]> (dregs s))) m.

(** [HardwareBreakPoint::do_enable(thread, onOff, err)] *)
Definition try_enable_hardware (tid r : Z) (onOff global : bool) (c : Condition) (l : Length)
  : eff (machine K) bool :=
  catch (on_dregs tid (DebugRegs.enable tid r onOff global c l);; mret true) (mret false).

(** [HardwareBreakPoint::do_enable(onOff)]: a global one is retried on the main thread. *)
Definition do_enable_hardware (tid r : Z) (onOff global : bool) (c : Condition) (l : Length)
  : eff (machine K) bool :=
  done ← try_enable_hardware tid r onOff global c l;
  if done || negb global then mret done
  else
    match main_thread proc with
    | Some t => if t =? tid then mret false else try_enable_hardware t r onOff global c l
    | None => mret true
    end.

(** [do_enable] of each class *)
Definition do_enable (onOff : bool) : eff W bool :=
  b ← this;
  match b_class b with
  | SoftwareBreakPoint | EmulatedBreakPoint => do_enable_software onOff
  | HardwareBreakPoint r g c l => on_machine (do_enable_hardware (b_thread b) r onOff g c l)
  | DeferredBreakPoint _ => mret true
  end.

(** [Temporary<int> save(enable_)] around a change of the count that must succeed. *)
Definition restoring (m : eff W bool) : eff W unit := λ w,
  let n := b_enable w.1 in
  match m w with
  | (Ret true, w) => (Ret tt, w)
  | (Ret false, w) => (Ret tt, (set_enable n w.1, w.2))
  | (Raise e, w) => (Raise e, (set_enable n w.1, w.2))
  end.

(** [enable]: the count that it returns is read before a failure takes the change back. *)
Definition enable : eff W Z :=
  b ← this;
  let n := b_enable b in
  restoring (on_this (set_enable (n + 1));; if n =? 0 then do_enable true else mret true);;
  mret (n + 1).

Definition disable : eff W Z :=
  b ← this;
  let n := b_enable b in
  restoring (on_this (set_enable (n - 1));; if n =? 1 then do_enable false else mret true);;
  mret (n - 1).

(** The destructors: software and deferred breakpoints disable themselves once, hardware
    breakpoints clear their register. *)
Definition destroy : eff W unit :=
  b ← this;
  match b_class b with
  | HardwareBreakPoint r g _ _ =>
      done ←
        (if thread_is_attached proc (b_thread b)
         then catch (on_machine (on_dregs (b_thread b) (clear (b_thread b) r));; mret true) (mret false)
         else mret false);
      if (done : bool) || negb g then mret tt
      else
        match main_thread proc with
        | Some t =>
            when (negb (t =? b_thread b)) (catch (on_machine (on_dregs t (clear t r))) (mret tt))
        | None => mret tt
        end
  | _ => catch (disable;; mret tt) (mret tt)
  end.
End Enable.
