(* ===== verification/BreakPointMgr.v ===== *)
(** * The breakpoint manager of a process ([engine/breakpoint_mgr.h], [engine/breakpoint_mgr.cpp])

    The containers of breakpoints by thread and address, and every operation on them. Removing
    a breakpoint from its container destroys it, unless the caller still holds it. The order in
    which a hash map is traversed is that of [map_to_list]. *)
From stdpp Require Import strings.
From S2P Require Import Effects Target DebugRegs BreakPoint.

Inductive WatchType : Type := WATCH_WRITE | WATCH_READ_WRITE.

#[export] Instance WatchType_eq_dec : EqDecision WatchType.
Proof. solve_decision. Defined.

Record watchpoint : Type := mk_watch { w_bpoint : bpoint; w_type : WatchType; w_scope : Z }.

(** The notifications [onInsert_] and [onRemove_] of the engine. *)
Inductive event : Type := Inserted (b : bpoint) | Removed (b : bpoint).

Record manager (K : Type) : Type := mk_manager {
  mach : machine K;
  perThreadBreakPoints : gmap Z (gmap Z bpoint);
  globalBreakPoints : gmap Z bpoint;
  watchPoints : list watchpoint;
  deferred : list bpoint;
  useHardware : bool;
  events : list event
}.
Arguments mk_manager {K}.
Arguments mach {K}.
Arguments perThreadBreakPoints {K}.
Arguments globalBreakPoints {K}.
Arguments watchPoints {K}.
Arguments deferred {K}.
Arguments useHardware {K}.
Arguments events {K}.

(** The constructor: a manager for a process with a debuggee and debug registers. *)
Definition new_manager {K} (k : K) (d : gmap Z DebugRegs386) (hw : bool) : manager K :=
  mk_manager (mk_machine k ∅ d) ∅ ∅ [] [] hw [].

(** The two kinds of containers by address. *)
Inductive mapref : Type := Global | PerThread (tid : Z).

(** [WatchPoint::in_scope]: the functions of the frames from the selected one on. A frame
    without a function is never left, so that nothing behind it is looked at. *)
Fixpoint scope_walk (scope : Z) (frames : list (option Z)) : bool :=
  match frames with
  | Some f :: frames => (f =? scope) || scope_walk scope frames
  | _ => false
  end.

Definition in_scope (frames : list (option Z)) (w : watchpoint) : bool :=
  (w_scope w =? 0) || scope_walk (w_scope w) frames.

Section Manager.
Context {K : Type} `{Ptrace K}.
Variables (proc : process_info) (step_until_safe : Z → Z → eff K bool).

#[local] Abbreviation G := (manager K).

Definition on_mach {A} (m : eff (machine K) A) : eff G A :=
  zoom mach (λ s g, mk_manager s (perThreadBreakPoints g) (globalBreakPoints g) (watchPoints g)
                      (deferred g) (useHardware g) (events g)) m.
Definition set_maps (pt : gmap Z (gmap Z bpoint)) (gl : gmap Z bpoint) (g : G) : G :=
  mk_manager (mach g) pt gl (watchPoints g) (deferred g) (useHardware g) (events g).
Definition set_watchPoints (l : list watchpoint) (g : G) : G :=
  mk_manager (mach g) (perThreadBreakPoints g) (globalBreakPoints g) l (deferred g)
    (useHardware g) (events g).
Definition set_deferred (l : list bpoint) (g : G) : G :=
  mk_manager (mach g) (perThreadBreakPoints g) (globalBreakPoints g) (watchPoints g) l
    (useHardware g) (events g).
Definition call_callback (e : event) : eff G unit :=
  modify (λ g, mk_manager (mach g) (perThreadBreakPoints g) (globalBreakPoints g) (watchPoints g)
                 (deferred g) (useHardware g) (events g ++ [e])).

(** Runs an operation of a breakpoint object; the object comes back with its changes. *)
Definition with_bpoint {A} (b : bpoint) (m : eff (bpoint * machine K) A) : eff G (bpoint * A) := λ g,
  match m (b, mach g) with
  | (Ret a, (b, s)) => (Ret (b, a), (on_mach (modify (λ _, s)) g).2)
  | (Raise e, (_, s)) => (Raise e, (on_mach (modify (λ _, s)) g).2)
  end.

Definition map_of (r : mapref) (g : G) : gmap Z bpoint :=
  match r with
  | Global => globalBreakPoints g
  | PerThread t => default ∅ (perThreadBreakPoints g !! t)
  end.
(** [perThreadBreakPoints_[tid]] makes the map of the thread. *)
Definition update_map (r : mapref) (f : gmap Z bpoint → gmap Z bpoint) : eff G unit :=
  modify (λ g,
    match r with
    | Global => set_maps (perThreadBreakPoints g) (f (globalBreakPoints g)) g
    | PerThread t =>
        set_maps (<[t := f (map_of r g)]> (perThreadBreakPoints g)) (globalBreakPoints g) g
    end).

Definition thread_in_process (t : Z) : bool := thread_process proc t =? p_pid proc.

(** ** Threads *)

Definition on_thread_created (t : Z) : eff G bool :=
  if is_live proc t && thread_in_process t
  then update_map (PerThread t) (λ m, m);; mret true
  else mret false.

(** [keep_enabled] *)
Definition keep_enabled (b : bpoint) : bpoint :=
  if is_enabled b then set_enable (b_enable b + 1) b else b.

Definition destroy_bpoint (b : bpoint) : eff G unit :=
  with_bpoint b (destroy proc step_until_safe);; mret tt.

(** The breakpoints of a container are destroyed after their counts were raised. *)
Definition drop_map (m : gmap Z bpoint) : eff G unit :=
  for_each (map_to_list m).*2 (λ b, destroy_bpoint (keep_enabled b)).

Definition on_thread_unmanage (t : Z) : eff G unit :=
  if is_live proc t then
    pt ← gets perThreadBreakPoints;
    match pt !! t with
    | Some m =>
        modify (λ g, set_maps (delete t (perThreadBreakPoints g)) (globalBreakPoints g) g);;
        drop_map m
    | None => mret tt
    end;;
    (* the last thread of the process? *)
    when (thread_in_process t && (length (process_threads proc) <=? 1)%nat
          && existsb (Z.eqb t) (process_threads proc))
      (gl ← gets globalBreakPoints;
       modify (λ g, set_maps (perThreadBreakPoints g) ∅ g);;
       drop_map gl);;
    ws ← gets watchPoints;
    modify (set_watchPoints (List.filter (λ w, negb (b_thread (w_bpoint w) =? t)) ws));;
    for_each (List.filter (λ w, b_thread (w_bpoint w) =? t) ws) (λ w, destroy_bpoint (w_bpoint w))
  else mret tt.

(** ** Lookup *)

(** [get_breakpoint(thread, addr)] *)
Definition get_thread_breakpoint (t addr : Z) (g : G) : option bpoint :=
  if thread_in_process t then map_of (PerThread t) g !! addr else None.

(** The first emulated breakpoint of some thread that is enabled at the address. *)
Fixpoint find_emulated (addr : Z) (owner : option Z) (maps : list (gmap Z bpoint)) : option bpoint :=
  match maps with
  | [] => None
  | m :: maps =>
      match m !! addr with
      | Some b =>
          if is_enabled b && bool_decide (type b = EMULATED)
             && match owner with Some t => b_thread b =? t | None => true end
          then Some b else find_emulated addr owner maps
      | None => find_emulated addr owner maps
      end
  end.

(** [get_breakpoint(process, addr, owner)] *)
Definition get_breakpoint (pid addr : Z) (owner : option Z) (g : G) : option bpoint :=
  match (if pid =? p_pid proc then globalBreakPoints g !! addr else None) with
  | Some b => Some b
  | None => find_emulated addr owner (map_to_list (perThreadBreakPoints g)).*2
  end.

Definition breakpoint_matches (thread : option Z) (addr : Z) (t : option BType) (b : bpoint) : bool :=
  match thread with Some x => b_thread b =? x | None => true end
  && ((addr =? 0) || (b_addr b =? addr))
  && match t with Some t => bool_decide (t = type b) | None => true end.

Definition find_deferred (thread : Z) (t : BType) (addr : Z) (g : G) : option nat :=
  fst <$> list_find (λ b, breakpoint_matches (Some thread) addr (Some t) b) (deferred g).

Definition map_ref (thread : Z) (t : BType) : mapref :=
  if bool_decide (t = SOFTWARE) then Global else PerThread thread.

(** [find_breakpoint]: also makes the container. *)
Definition find_breakpoint (thread : Z) (t : BType) (addr : Z) : eff G (option bpoint) :=
  update_map (map_ref thread t) (λ m, m);;
  gets (λ g, map_of (map_ref thread t) g !! addr).

Definition hardware_breakpoint_count (tid : Z) (g : G) : Z :=
  Z.of_nat (length (List.filter (λ b, match b_class b with HardwareBreakPoint _ _ _ _ => true | _ => false end)
                      (map_to_list (map_of (PerThread tid) g)).*2))
  + Z.of_nat (length (List.filter (λ w, b_thread (w_bpoint w) =? tid) (watchPoints g))).

(** ** Insertion *)

Definition set_hardware_breakpoint (tid addr : Z) (global : bool) (c : Condition) (l : Length)
  : eff G (option Z) :=
  count ← gets (hardware_breakpoint_count tid);
  if count <? max_size then on_mach (on_dregs tid (DebugRegs.set_breakpoint tid addr global c l))
  else mret None.

Definition create_breakpoint (thread : Z) (t : BType) (addr : Z) : eff G bpoint :=
  hw ← gets useHardware;
  r ← (if bool_decide (t = HARDWARE) && hw
       then set_hardware_breakpoint thread addr false BREAK_ON_INSTRUCTION BREAK_ONE_BYTE
       else mret None);
  match r with
  | Some r => mret (new_hardware thread addr r)
  | None =>
      let b := if bool_decide (t = SOFTWARE) then new_software thread addr else new_emulated thread addr in
      ' (b, _) ← with_bpoint b (enable proc step_until_safe);
      mret b
  end.

Definition check_contract (thread : Z) (t : BType) : eff G unit :=
  if negb (is_live proc thread) then throw RuntimeError
  else if bool_decide (t = SOFTWARE) && negb (thread_is_attached proc thread) then throw LogicError
  else if negb (thread_in_process thread) then throw LogicError
  else mret tt.

Definition add_action_opt (a : option action) (context : option Z) (b : bpoint) : bpoint :=
  match a with Some a => (add_action a context b).1 | None => b end.

(** [set_breakpoint]; without a runnable the main thread is used. *)
Definition set_breakpoint (runnable : option Z) (t : BType) (addr : Z) (a : option action)
  (defer : bool) (context : option Z) : eff G bpoint :=
  match (match runnable with Some x => Some x | None => main_thread proc end) with
  | None => throw Undefined
  | Some thread =>
      check_contract thread t;;
      found ← find_breakpoint thread t addr;
      d ← gets (find_deferred thread t addr);
      match found, d with
      | Some b, _ =>
          let b := add_action_opt a context b in
          update_map (map_ref thread t) (<[addr := b]>);; mret b
      | None, Some i =>
          ds ← gets deferred;
          let b := add_action_opt a context (default (new_deferred thread t addr) (ds !! i)) in
          modify (set_deferred (<[i := b]> ds));; mret b
      | None, None =>
          if defer then
            let b := add_action_opt a context (new_deferred thread t addr) in
            modify (λ g, set_deferred (deferred g ++ [b]) g);;
            call_callback (Inserted b);; mret b
          else
            b ← create_breakpoint thread t addr;
            let b := add_action_opt a context b in
            update_map (map_ref thread t) (<[addr := b]>);;
            call_callback (Inserted b);; mret b
      end
  end.
(** ** Watchpoints *)

(** The frames of a thread from the selected one on, and the current function with the
    start of the stack. *)
Variables (frames : Z → list (option Z)) (stack_start : Z → Z) (current_function : Z → option Z).

(** [get_watchpoint]: its index in [watchPoints_]. *)
Definition get_watchpoint (thread addr : Z) (t : WatchType) (g : G) : option nat :=
  fst <$> list_find (λ w,
    (b_addr (w_bpoint w) =? addr) && bool_decide (w_type w = t)
    && (match b_class (w_bpoint w) with HardwareBreakPoint _ gl _ _ => gl | _ => false end
        || (b_thread (w_bpoint w) =? thread))
    && in_scope (frames thread) w) (watchPoints g).

Definition set_watchpoint (thread : Z) (t : WatchType) (global : bool) (addr : Z) (a : option action)
  (context : option Z) : eff G (option watchpoint) :=
  let act w := mk_watch (add_action_opt a context (w_bpoint w)) (w_type w) (w_scope w) in
  found ← gets (get_watchpoint thread addr t);
  ws ← gets watchPoints;
  match found ≫= (λ i, (λ w, (i, w)) <$> ws !! i) with
  | Some (i, w) => modify (set_watchPoints (<[i := act w]> ws));; mret (Some (act w))
  | None =>
      let c := match t with WATCH_READ_WRITE => BREAK_ON_DATA_READ_WRITE | WATCH_WRITE => BREAK_ON_DATA_WRITE end in
      r ← set_hardware_breakpoint thread addr global c BREAK_ONE_BYTE;
      match r with
      | Some r =>
          let scope := if addr <? stack_start thread then default 0 (current_function thread) else 0 in
          let w := act (mk_watch (new_watch thread addr r global c) t scope) in
          modify (λ g, set_watchPoints (watchPoints g ++ [w]) g);; mret (Some w)
      | None => mret None
      end
  end.

(** ** Enumeration *)

Definition enum_map (addr : Z) (t : option BType) (m : gmap Z bpoint) : list bpoint :=
  List.filter (λ b, ((addr =? 0) || (addr =? b_addr b))
               && match t with Some t => bool_decide (t = type b) | None => true end)
    (map_to_list m).*2.

(** [enum_breakpoints]: the breakpoints that the callback is given, in order. *)
Definition enum_breakpoints (thread : option Z) (addr : Z) (t : option BType) (g : G) : list bpoint :=
  let l := match thread with
    | Some x => enum_map addr t (map_of (PerThread x) g)
    | None => enum_map addr t (globalBreakPoints g)
              ++ ((map_to_list (perThreadBreakPoints g)).*2 ≫= enum_map addr t)
    end in
  if (length l =? 0)%nat || bool_decide (thread = None) || (addr =? 0)
  then l ++ List.filter (breakpoint_matches thread addr t) (deferred g) else l.

(** [enum_watchpoints]: a copy of the container is traversed. *)
Definition enum_watchpoints (g : G) : list watchpoint := watchPoints g.

(** [get_breakpoint_list] of the process or of a thread. *)
Definition get_breakpoint_list (r : mapref) (g : G) : list bpoint := (map_to_list (map_of r g)).*2.

(** ** Removal *)

(** An operation of a breakpoint that stays in its container. *)
Definition in_map {A} (r : mapref) (addr : Z) (b : bpoint) (m : eff (bpoint * machine K) A)
  : eff G (bpoint * A) := λ g,
  match m (b, mach g) with
  | (o, (b, s)) =>
      let g := (update_map r (<[addr := b]>) (on_mach (modify (λ _, s)) g).2).2 in
      (match o with Ret a => Ret (b, a) | Raise e => Raise e end, g)
  end.

(** [remove_actions(m, i, name)] on the entry of an address. *)
Definition remove_actions_at (r : mapref) (name : option string) (addr : Z) : eff G Z :=
  m ← gets (map_of r);
  match m !! addr with
  | None => mret 0
  | Some b =>
      let '(b, n) := BreakPoint.remove_actions name b in
      update_map r (<[addr := b]>);;
      (if (length (b_actions b) =? 0)%nat then
         ' (b, _) ← in_map r addr b (disable proc step_until_safe);
         call_callback (Removed b);;
         update_map r (delete addr);;
         destroy_bpoint b
       else mret tt);;
      mret n
  end.

Fixpoint remove_each (r : mapref) (name : option string) (addrs : list Z) : eff G Z :=
  match addrs with
  | [] => mret 0
  | a :: addrs => n ← remove_actions_at r name a; k ← remove_each r name addrs; mret (n + k)
  end.

(** [remove_actions(m, addr, name)] *)
Definition remove_actions (r : mapref) (addr : Z) (name : option string) : eff G Z :=
  if addr =? 0 then m ← gets (map_of r); remove_each r name (map_to_list m).*1
  else remove_actions_at r name addr.

(** The loop over the deferred breakpoints; the count is not added to the result. *)
Fixpoint remove_deferred (lwpid addr : Z) (name : option string) (ds : list bpoint) : list bpoint * list bpoint :=
  match ds with
  | [] => ([], [])
  | b :: ds =>
      let '(keep, gone) := remove_deferred lwpid addr name ds in
      if ((addr =? 0) || (addr =? b_addr b)) && ((lwpid =? 0) || (b_thread b =? lwpid)) then
        let '(b, n) := BreakPoint.remove_actions name b in
        if negb (n =? 0) && (length (b_actions b) =? 0)%nat then (keep, b :: gone) else (b :: keep, gone)
      else (b :: keep, gone)
  end.

Fixpoint remove_threads (tids : list Z) (addr : Z) (name : option string) : eff G Z :=
  match tids with
  | [] => mret 0
  | t :: tids => n ← remove_actions (PerThread t) addr name; k ← remove_threads tids addr name; mret (n + k)
  end.

Definition remove_breakpoint_actions (pid lwpid addr : Z) (name : option string) : eff G Z :=
  removed ←
    (if negb (lwpid =? 0) then
       pt ← gets perThreadBreakPoints;
       match pt !! lwpid with
       | Some _ => remove_actions (PerThread lwpid) addr name
       | None => mret 0
       end
     else
       n ← (if pid =? 0
            then pt ← gets perThreadBreakPoints; remove_threads (map_to_list pt).*1 addr name
            else mret 0);
       k ← remove_actions Global addr name;
       mret (n + k));
  (if removed =? 0 then
     ds ← gets deferred;
     let '(keep, gone) := remove_deferred lwpid addr name ds in
     modify (set_deferred keep);;
     for_each gone (λ b, call_callback (Removed b);; destroy_bpoint b)
   else mret tt);;
  mret removed.

(** What [erase] is given: a deferred breakpoint or a watchpoint of the manager, or a
    breakpoint that is looked up by its type, thread and address. *)
Inductive bref : Type := InDeferred (i : nat) | InWatch (i : nat) | InMap (b : bpoint).

Definition erase (r : bref) : eff G unit :=
  match r with
  | InDeferred i =>
      ds ← gets deferred;
      match ds !! i with
      | Some b =>
          when (thread_in_process (b_thread b))
            (modify (set_deferred (delete i ds));; call_callback (Removed b);; destroy_bpoint b)
      | None => mret tt
      end
  | InWatch i =>
      ws ← gets watchPoints;
      match ws !! i with
      | Some w =>
          when (thread_in_process (b_thread (w_bpoint w)))
            (modify (set_watchPoints (delete i ws));; destroy_bpoint (w_bpoint w))
      | None => mret tt
      end
  | InMap b =>
      when (thread_in_process (b_thread b))
        (let r := map_ref (b_thread b) (type b) in
         update_map r (λ m, m);;
         m ← gets (map_of r);
         match m !! b_addr b with
         | Some b =>
             update_map r (delete (b_addr b));; call_callback (Removed b);; destroy_bpoint b
         | None => mret tt       (* the error is reported *)
         end)
  end.

(** [activate] a deferred breakpoint when its module is mapped at an offset. *)
Definition activate (i : nat) (adjustment : Z) (is_loaded : bool) (context : option Z) : eff G unit :=
  ds ← gets deferred;
  match ds !! i with
  | None => throw Undefined
  | Some b =>
      for_each (b_actions b) (λ a,
        set_breakpoint (Some (b_thread b)) (type b) (b_addr b + adjustment) (Some a) false context;; mret tt);;
      when is_loaded
        (modify (λ g, set_deferred (<[i := (BreakPoint.remove_actions None b).1]> (deferred g)) g);;
         erase (InDeferred i))
  end.

(** [set_use_hardware(flag)]: the flag is not looked at. *)
Definition set_use_hardware (flag : bool) (g : G) : G :=
  mk_manager (mach g) (perThreadBreakPoints g) (globalBreakPoints g) (watchPoints g) (deferred g)
    true (events g).

(** ** Forked processes *)

(** [clone] of each class, for the main thread of the new process. *)
Definition clone (thread : Z) (b : bpoint) : eff G bpoint :=
  match b_class b with
  | SoftwareBreakPoint | EmulatedBreakPoint =>
      mret (mk_bpoint (b_class b) thread (b_addr b) (b_enable b) (b_actions b) ∅)
  | DeferredBreakPoint _ =>
      mret (mk_bpoint (DeferredBreakPoint DEFERRED) thread (b_addr b) (b_enable b) (b_actions b) ∅)
  | HardwareBreakPoint _ _ _ _ =>
      let c := set_actions (b_actions b) (new_emulated thread (b_addr b)) in
      if is_enabled b then ' (c, _) ← with_bpoint c (enable proc step_until_safe); mret c
      else mret c
  end.

(** [clone_breakpoint]: the clone goes to the map of its type; [insert] of a hash map keeps
    an entry that is already there, and the clone is destroyed when the reference to it goes
    out of scope. *)
Definition clone_breakpoint (b : bpoint) : eff G unit :=
  match main_thread proc with
  | Some thread =>
      c ← clone thread b;
      let r := map_ref (p_pid proc) (type b) in
      m ← gets (map_of r);
      match m !! b_addr c with
      | Some _ => destroy_bpoint c
      | None => update_map r (<[b_addr c := c]>)
      end
  | None => mret tt
  end.

(** [replicate_breakpoints] from the manager of the parent process. *)
Definition replicate_breakpoints (parent : G) : eff G unit :=
  on_mach (modify (λ s, mk_machine (kernel s) (physical (mach parent)) (dregs s)));;
  for_each (enum_breakpoints None 0 None parent) clone_breakpoint.
End Manager.
