(* ===== verification/BreakPointCorrect.v ===== *)
(** * Breakpoints are transparent, and where they are not

    The code of the debuggee is the original code with the breakpoint opcode at the addresses
    of the enabled physical breakpoints; two ways in which breakpoints disturb each other; the
    execution of actions. *)
From stdpp Require Import strings.
From S2P Require Import Effects Target DebugRegs BreakPoint.

(** ** The patched code *)

Section Patched.
Context {K : Type} `{PtraceLaws K}.

(** A set of addresses that are a word apart from each other and do not hold a null word of
    the original code. *)
Definition spaced (orig : Z → Z) (A : Z → Prop) : Prop :=
  (∀ a b, A a → A b → a ≠ b → WORD ≤ Z.abs (a - b)) ∧ (∀ a, A a → word_at orig a ≠ 0)
  ∧ (∀ a, 0 ≤ orig a < 2 ^ 8).

Definition patched_at (s : machine K) (a : Z) : bool :=
  match physical s !! a with Some p => enabled p | None => false end.

(** The memory of the debuggee is the original one but for the enabled breakpoints, and the
    code that a breakpoint remembers is the original code. *)
Definition Patched (orig : Z → Z) (A : Z → Prop) (s : machine K) : Prop :=
  (∀ b, memory (kernel s) b = if patched_at s b then x86_BREAK_OPCODE else orig b)
  ∧ (∀ a p, physical s !! a = Some p →
       A a ∧ (origCode p = word_at orig a ∨ origCode p = 0 ∧ enabled p = false)).

Context (orig : Z → Z) (A : Z → Prop) (Hspaced : spaced orig A).

Lemma patched_in s a : Patched orig A s → patched_at s a = true → A a.
Proof.
  intros [_ Hp] Ha. unfold patched_at in Ha. destruct (physical s !! a) as [p|] eqn:E; [|done].
  by destruct (Hp a p E).
Qed.

(** A word that is read where nothing is patched is original code. *)
Lemma patched_word s a : Patched orig A s → A a → patched_at s a = false →
  word_at (memory (kernel s)) a = word_at orig a.
Proof.
  intros HP Ha Hoff.
  assert (∀ i, 0 ≤ i < WORD → memory (kernel s) (a + i) = orig (a + i)) as Hsame.
  { intros i Hi. rewrite (proj1 HP). destruct (patched_at s (a + i)) eqn:E; [|done].
    pose proof (patched_in _ _ HP E) as Hai. destruct (Z.eqb_spec i 0) as [->|].
    - rewrite Z.add_0_r in E. congruence.
    - destruct Hspaced as [Hs _]. specialize (Hs a (a + i) Ha Hai ltac:(lia)). lia. }
  unfold word_at. rewrite <- (Z.add_0_r a) at 1 9. unfold WORD in Hsame.
  by rewrite !Hsame by lia.
Qed.

(** Remembering original code keeps the memory as it is. *)
Lemma Patched_remember s a p : Patched orig A s → A a →
  enabled p = patched_at s a → (origCode p = word_at orig a ∨ origCode p = 0 ∧ enabled p = false) →
  Patched orig A (mk_machine (kernel s) (<[a := p]> (physical s)) (dregs s)).
Proof.
  intros [Hm Hp] Ha He Ho. split; cbn [kernel physical].
  - intros b. rewrite Hm. unfold patched_at in *. cbn [physical].
    destruct (decide (a = b)) as [->|]; [by rewrite lookup_insert_eq, He|].
    by rewrite lookup_insert_ne.
  - intros b q. destruct (decide (a = b)) as [->|].
    + rewrite lookup_insert_eq. intros [= <-]. done.
    + rewrite lookup_insert_ne by done. apply Hp.
Qed.

(** Writing the opcode over original code, or the original code back. *)
Lemma Patched_write s a w (on : bool) k c : Patched orig A s → A a → w = word_at orig a →
  c = (if on then x86_get_breakpoint_opcode w else w) →
  (∀ b, memory k b = store_word (memory (kernel s)) a c b) →
  Patched orig A (mk_machine k (<[a := mk_physical w on]> (physical s)) (dregs s)).
Proof.
  intros [Hm Hp] Ha Hw Hc Hk. split; cbn [kernel physical].
  - intros b. rewrite Hk. unfold store_word, patched_at. cbn [physical].
    destruct (Z.leb_spec a b), (Z.ltb_spec b (a + WORD)); cbn [andb].
    2-4: rewrite lookup_insert_ne by (unfold WORD in *; lia); apply Hm.
    assert (word_byte c (b - a) = if on && (b =? a) then x86_BREAK_OPCODE else orig b) as ->.
    { destruct Hspaced as (_ & _ & Hb). subst c w. destruct on; cbn [andb].
      - rewrite breakpoint_opcode_byte by lia.
        destruct (Z.eqb_spec (b - a) 0), (Z.eqb_spec b a); try lia.
        rewrite word_at_byte by (done || lia). f_equal. lia.
      - rewrite word_at_byte by (done || lia). f_equal. lia. }
    destruct (decide (a = b)) as [->|Hne].
    + rewrite lookup_insert_eq, Z.eqb_refl, andb_true_r. done.
    + rewrite lookup_insert_ne by done. replace (b =? a) with false by lia. rewrite andb_false_r.
      destruct (physical s !! b) as [p|] eqn:E; [|done]. destruct (Hp b p E) as [Hb _].
      destruct Hspaced as [Hs _]. specialize (Hs a b Ha Hb Hne). lia.
  - intros b q. destruct (decide (a = b)) as [->|].
    + rewrite lookup_insert_eq. intros [= <-]. split; [done | by left].
    + rewrite lookup_insert_ne by done. apply Hp.
Qed.
Variable proc : process_info.

Lemma on_kernel_frame {B} (m : eff K B) s :
  physical (on_kernel m s).2 = physical s ∧ dregs (on_kernel m s).2 = dregs s
  ∧ kernel (on_kernel m s).2 = (m (kernel s)).2 ∧ (on_kernel m s).1 = (m (kernel s)).1.
Proof. unfold on_kernel, zoom. by destruct (m (kernel s)). Qed.

Lemma read_one t a k r k' : read_memory t a 1 false k = (r, k') →
  k' = k ∧ match r with Ret ws => ws = [word_at (memory k) a] | Raise e => e = SystemError end.
Proof.
  unfold read_memory. rewrite andb_false_r. erewrite bind_ret by reflexivity.
  change (2 <? 1)%nat with false. cbv iota. cbn [read_using_ptrace].
  erewrite bind_ret by reflexivity. destruct (peek_text k t a) as [w|] eqn:E; intros Hr; eff_run Hr.
  - split; [done|]. by rewrite (peek_text_memory _ _ _ _ E).
  - done.
Qed.

Lemma write_one t a c k r k' : write_memory t a [c] k = (r, k') →
  match r with Ret _ => ∀ b, memory k' b = store_word (memory k) a c b | Raise e => e = SystemError ∧ k' = k end.
Proof.
  cbn [write_memory]. unfold sys_poke. intros Hr.
  destruct (poke_text k t a c) as [k1|] eqn:E.
  - erewrite bind_ret in Hr.
    2:{ erewrite bind_ret by reflexivity. rewrite E. reflexivity. }
    eff_run Hr. by apply (poke_text_memory _ _ _ _ _ E).
  - erewrite bind_raise in Hr.
    2:{ erewrite bind_ret by reflexivity. rewrite E. reflexivity. }
    by simplify_eq.
Qed.

(** Reading the code at an address where nothing is patched yet. *)
Lemma read_orig_inv t a s r s' : Patched orig A s → A a → enabled (phys_at a s) = false →
  patched_at s a = false → read_orig t a s = (r, s') →
  Patched orig A s' ∧ enabled (phys_at a s') = false ∧ patched_at s' a = false
  ∧ match r with Ret _ => origCode (phys_at a s') = word_at orig a | Raise e => e = SystemError ∧ s' = s end.
Proof.
  intros HP Ha He Hoff Hr. unfold read_orig in Hr.
  destruct (read_memory t a 1 false (kernel s)) as [o k'] eqn:Er.
  destruct (read_one _ _ _ _ _ Er) as [-> Ho].
  assert (on_kernel (read_memory t a 1 false) s = (o, s)) as Hk.
  { unfold on_kernel, zoom. rewrite Er. by destruct s. }
  destruct o as [ws|e].
  - subst ws. erewrite bind_ret in Hr by exact Hk. erewrite bind_ret in Hr by reflexivity.
    unfold put_phys in Hr. eff_run Hr. rewrite (patched_word s a HP Ha Hoff) in *.
    unfold phys_at, patched_at. cbn [physical]. rewrite lookup_insert_eq. cbn. split_and!; try done.
    apply Patched_remember; cbn [enabled origCode]; try done; [by rewrite Hoff | by left].
  - erewrite bind_raise in Hr by exact Hk. by simplify_eq.
Qed.

(** Writing the patch of a breakpoint that knows the original code. *)
Lemma write_patch_inv t a on c s r s' : Patched orig A s → A a →
  origCode (phys_at a s) = word_at orig a →
  c = (if on : bool then x86_get_breakpoint_opcode (word_at orig a) else word_at orig a) →
  write_patch t a c on s = (r, s') →
  Patched orig A s' ∧ match r with
    | Ret _ => enabled (phys_at a s') = on ∧ origCode (phys_at a s') = word_at orig a
    | Raise e => e = SystemError ∧ s' = s end.
Proof.
  intros HP Ha Ho Hc Hr. unfold write_patch in Hr.
  destruct (write_memory t a [c] (kernel s)) as [o k'] eqn:Ew.
  pose proof (write_one _ _ _ _ _ _ Ew) as Hw.
  destruct o as [u|e].
  - erewrite bind_ret in Hr.
    2:{ unfold on_kernel, zoom. rewrite Ew. reflexivity. }
    erewrite bind_ret in Hr by reflexivity. unfold put_phys in Hr. eff_run Hr.
    unfold phys_at in *. cbn [physical] in *. rewrite lookup_insert_eq. cbn. split_and!; try done.
    rewrite Ho. by eapply (Patched_write s).
  - erewrite bind_raise in Hr.
    2:{ unfold on_kernel, zoom. rewrite Ew. reflexivity. }
    destruct Hw as [-> ->]. simplify_eq. by destruct s.
Qed.

Lemma phys_patched a s : enabled (phys_at a s) = patched_at s a.
Proof. unfold phys_at, patched_at. by destruct (physical s !! a). Qed.

Lemma catch_ret {S B} (m h : eff S B) s b s' : m s = (Ret b, s') → catch m h s = (Ret b, s').
Proof. intros E. unfold catch. by rewrite E. Qed.
Lemma catch_raise {S B} (m h : eff S B) s s' : m s = (Raise SystemError, s') → catch m h s = h s'.
Proof. intros E. unfold catch. by rewrite E. Qed.

(** What [enable_software_breakpoint] does once the original code is known. *)
Definition patch_tail (t a : Z) (on : bool) : eff (machine K) bool :=
  p ← gets (phys_at a);
  let code := if on then x86_get_breakpoint_opcode (origCode p) else origCode p in
  if code =? 0 then mret true
  else
    when (negb (Bool.eqb on (enabled p))) (catch (write_patch t a code on) (mret tt));;
    p ← gets (phys_at a);
    if Bool.eqb on (enabled p) then mret true
    else catch (write_patch (p_pid proc) a code on;; mret true) (mret false).

Lemma opcode_not_null w : x86_get_breakpoint_opcode w ≠ 0.
Proof.
  intros E. pose proof (breakpoint_opcode_byte w 0 ltac:(lia)) as Hb. rewrite E in Hb. discriminate.
Qed.

Lemma patch_tail_inv t a on s : Patched orig A s → A a → origCode (phys_at a s) = word_at orig a →
  ∃ b s', patch_tail t a on s = (Ret b, s') ∧ Patched orig A s' ∧ (b = true → patched_at s' a = on).
Proof.
  intros HP Ha Ho. unfold patch_tail. erewrite bind_ret by reflexivity. rewrite Ho.
  set (code := if on then _ else _).
  assert (code ≠ 0) as Hc.
  { unfold code. destruct on; [apply opcode_not_null | by apply Hspaced]. }
  replace (code =? 0) with false by lia.
  assert (∃ s1, when (negb (Bool.eqb on (enabled (phys_at a s)))) (catch (write_patch t a code on) (mret tt)) s
    = (Ret tt, s1) ∧ Patched orig A s1 ∧ origCode (phys_at a s1) = word_at orig a) as (s1 & E1 & HP1 & Ho1).
  { unfold when. destruct (negb _); [|by exists s].
    destruct (write_patch t a code on s) as [[[]|e] s1] eqn:Ew;
      destruct (write_patch_inv t a on code s _ s1 HP Ha Ho eq_refl Ew) as [HP1 Hw].
    - exists s1. erewrite catch_ret by exact Ew. split_and!; [done | done | apply Hw].
    - destruct Hw as [-> ->]. exists s. erewrite catch_raise by exact Ew. done. }
  erewrite bind_ret by exact E1. erewrite bind_ret by reflexivity.
  destruct (Bool.eqb on (enabled (phys_at a s1))) eqn:Eon.
  - exists true, s1. split_and!; try done. intros _. rewrite <- phys_patched. symmetry. by apply eqb_prop.
  - destruct (write_patch (p_pid proc) a code on s1) as [[[]|e] s2] eqn:Ew;
      destruct (write_patch_inv _ a on code s1 _ s2 HP1 Ha Ho1 eq_refl Ew) as [HP2 Hw].
    + exists true, s2. erewrite catch_ret by (erewrite bind_ret by exact Ew; reflexivity).
      split_and!; try done. intros _. rewrite <- phys_patched. apply Hw.
    + destruct Hw as [-> ->]. exists false, s1.
      erewrite catch_raise by (erewrite bind_raise by exact Ew; reflexivity). done.
Qed.

(** The whole request: it keeps the invariant whatever fails, and when it reports success
    the code is as it was asked to be. *)
Lemma enable_software_inv t a on s r s' : Patched orig A s → A a →
  enable_software_breakpoint proc t a on s = (r, s') →
  Patched orig A s' ∧ (r = Ret true → patched_at s' a = on) ∧ (∀ e, r = Raise e → e = SystemError).
Proof.
  intros HP Ha Hr. unfold enable_software_breakpoint in Hr. erewrite bind_ret in Hr by reflexivity.
  set (p := phys_at a s) in Hr. unfold put_phys in Hr. erewrite bind_ret in Hr by reflexivity.
  set (s1 := mk_machine _ _ _) in Hr.
  assert (origCode p = word_at orig a ∨ origCode p = 0 ∧ enabled p = false) as Hp.
  { unfold p, phys_at. destruct (physical s !! a) as [q|] eqn:E; [by apply (proj2 HP a q E)|]. by right. }
  assert (Patched orig A s1) as HP1 by (apply Patched_remember; try done; apply phys_patched).
  assert (phys_at a s1 = p) as Hp1 by (unfold phys_at at 1, s1; cbn; by rewrite lookup_insert_eq).
  assert (word_at orig a ≠ 0) as Hw by (by apply Hspaced).
  fold (patch_tail t a on) in Hr. clearbody p s1.
  assert (∃ s2, (if origCode p =? 0 then if enabled p then throw LogicError
      else catch (read_orig t a) (mret tt) else mret tt) s1 = (Ret tt, s2)
    ∧ Patched orig A s2 ∧ (origCode (phys_at a s2) = word_at orig a
       ∨ origCode (phys_at a s2) = 0 ∧ enabled (phys_at a s2) = false)) as (s2 & E2 & HP2 & Hp2).
  { destruct Hp as [Hp|[Hp He]]; [replace (origCode p =? 0) with false by lia; exists s1; rewrite Hp1; eauto|].
    rewrite Hp, He. cbn. rewrite <- Hp1, phys_patched in He.
    destruct (read_orig t a s1) as [[[]|e] s2] eqn:Er;
      destruct (read_orig_inv t a s1 _ s2 HP1 Ha ltac:(by rewrite phys_patched) He Er) as (HP2 & He2 & _ & Ho2).
    - exists s2. erewrite catch_ret by exact Er. eauto.
    - destruct Ho2 as [-> ->]. exists s1. erewrite catch_raise by exact Er. split_and!; try done. right.
      by rewrite Hp1, <- Hp1, phys_patched, He, Hp1. }
  erewrite bind_ret in Hr by exact E2. erewrite bind_ret in Hr by reflexivity.
  destruct Hp2 as [Ho2|[Ho2 He2]].
  - replace (origCode (phys_at a s2) =? 0) with false in Hr by lia.
    erewrite bind_ret in Hr by reflexivity.
    destruct (patch_tail_inv t a on s2 HP2 Ha Ho2) as (b & s3 & E3 & HP3 & Hb).
    rewrite E3 in Hr. simplify_eq. split_and!; [done | intros [= ->]; auto | congruence].
  - rewrite Ho2 in Hr. cbn [when Z.eqb] in Hr.
    destruct (read_orig (p_pid proc) a s2) as [[[]|e] s3] eqn:Er;
      destruct (read_orig_inv _ a s2 _ s3 HP2 Ha He2 ltac:(by rewrite <- phys_patched) Er) as (HP3 & He3 & _ & Ho3).
    + erewrite bind_ret in Hr by exact Er.
      destruct (patch_tail_inv t a on s3 HP3 Ha Ho3) as (b & s4 & E4 & HP4 & Hb).
      rewrite E4 in Hr. simplify_eq. split_and!; [done | intros [= ->]; auto | congruence].
    + destruct Ho3 as [-> ->]. erewrite bind_raise in Hr by exact Er. simplify_eq.
      split_and!; [done | congruence | by intros e [= <-]].
Qed.

(** ** Breakpoint objects *)

Variable step_until_safe : Z → Z → eff K bool.
(** Stepping a thread out of the way does not write to the code. *)
Hypothesis step_memory : ∀ t a k b, memory (step_until_safe t a k).2 b = memory k b.

(** Computations on the kernel that leave the memory alone. *)
Definition spares {B} (m : eff K B) : Prop := ∀ k b, memory (m k).2 b = memory k b.

Lemma spares_keeps {B} (m : eff K B) : spares m → keeps (on_kernel m) (Patched orig A).
Proof.
  intros Hm s [H1 H2]. destruct (on_kernel_frame m s) as (Ep & _ & Ek & _).
  unfold Patched, patched_at in *. rewrite Ep, Ek. split; [|done]. intros b. rewrite Hm. apply H1.
Qed.

Lemma spares_pick owner a ts : spares (pick_thread proc step_until_safe owner a ts).
Proof.
  induction ts as [|t ts IH]; intros k b; cbn [pick_thread]; [done|].
  destruct (_ || _); [apply IH|]. unfold mbind, eff_bind.
  pose proof (step_memory t a k b) as Hs. destruct (step_until_safe t a k) as [[[]|e] k1]; cbn in *.
  - by rewrite IH.
  - done.
  - done.
Qed.

(** Computations on the debug registers do not touch the memory. *)
Definition spares_dregs {B} (m : eff (DebugRegs386 * K) B) : Prop :=
  ∀ s b, memory (m s).2.2 b = memory s.2 b.

Lemma spares_bind {B C} (m : eff (DebugRegs386 * K) B) (k : B → eff _ C) :
  spares_dregs m → (∀ x, spares_dregs (k x)) → spares_dregs (m ≫= k).
Proof.
  intros Hm Hk s b. specialize (Hm s b). unfold mbind, eff_bind.
  destruct (m s) as [[x|e] s1]; cbn in Hm |- *; [|done]. by rewrite Hk, Hm.
Qed.
Lemma spares_poke t i v : spares_dregs (DebugRegs.on_kernel (sys_poke_debugreg t i v)).
Proof.
  intros [d k] b. unfold DebugRegs.on_kernel, zoom, sys_poke_debugreg, mbind, eff_bind, get. cbn [snd].
  destruct (poke_debugreg k t i v) as [k'|] eqn:E; cbn; [by apply (poke_debugreg_memory _ _ _ _ _ E) | done].
Qed.
Lemma spares_peek t i : spares_dregs (DebugRegs.on_kernel (sys_peek_debugreg t i)).
Proof.
  intros [d k] b. unfold DebugRegs.on_kernel, zoom, sys_peek_debugreg, mbind, eff_bind, get. cbn [snd].
  by destruct (peek_debugreg k t i).
Qed.

Lemma spares_enable t i on g c l : spares_dregs (enable_internal t i on g c l).
Proof.
  unfold enable_internal. destruct (_ <=? _); [done|].
  repeat (apply spares_bind; [done || apply spares_poke|intros ?]). apply spares_poke.
Qed.

Lemma spares_set t a g c l : spares_dregs (set_breakpoint t a g c l).
Proof.
  unfold set_breakpoint. apply spares_bind; [done|]. intros regs. destruct (first_free 0 regs); [|done].
  repeat (apply spares_bind; [done || apply spares_poke || apply spares_enable|intros ?]). done.
Qed.

Lemma spares_clear t i : spares_dregs (clear t i).
Proof.
  unfold clear. apply spares_bind; [apply spares_enable|]. intros _. destruct (_ <=? _); [done|].
  apply spares_bind; [apply spares_peek|]. intros sr.
  repeat (apply spares_bind; [apply spares_poke|intros _]). done.
Qed.

Lemma spares_dregs_keeps {B} t (m : eff _ B) : spares_dregs m → keeps (on_dregs t m) (Patched orig A).
Proof.
  intros Hm s [H1 H2]. unfold on_dregs, zoom.
  specialize (Hm (default new_dregs (dregs s !! t), kernel s)). cbn [snd] in Hm.
  destruct (m _) as [o [d k]]. cbn in *. split; cbn; [|done]. intros b. rewrite Hm. apply H1.
Qed.

Lemma enable_software_keeps t a on : A a → keeps (enable_software_breakpoint proc t a on) (Patched orig A).
Proof.
  intros Ha s HP. destruct (enable_software_breakpoint proc t a on s) as [r s'] eqn:E.
  by destruct (enable_software_inv t a on s r s' HP Ha E).
Qed.

(** ** Invariants of the machine *)

(** What the primitive requests of breakpoint objects keep, when code is patched at the
    addresses of [A] only. *)
Record machine_inv (M : machine K → Prop) : Prop := mk_inv {
  inv_pick : ∀ owner a ts, keeps (on_kernel (pick_thread proc step_until_safe owner a ts)) M;
  inv_dregs : ∀ t {B} (m : eff (DebugRegs386 * K) B), spares_dregs m → keeps (on_dregs t m) M;
  inv_software : ∀ t a on, A a → keeps (enable_software_breakpoint proc t a on) M
}.

Lemma Patched_inv : machine_inv (Patched orig A).
Proof.
  split; [intros; apply spares_keeps, spares_pick | intros; by apply spares_dregs_keeps |
    intros; by apply enable_software_keeps].
Qed.

(** Classes that patch the code. *)
Definition patches (c : bclass) : bool :=
  match c with SoftwareBreakPoint | EmulatedBreakPoint => true | _ => false end.

Section Objects.
Variables (M : machine K → Prop) (HM : machine_inv M).

(** A breakpoint object of an allowed address, of which the class and the address stay. *)
Definition obj_ok (a : Z) (c : bclass) (w : bpoint * machine K) : Prop :=
  b_addr w.1 = a ∧ b_class w.1 = c ∧ (patches c = true → A a) ∧ M w.2.

Lemma obj_machine {B} a c (m : eff (machine K) B) :
  (A a ∨ patches c = false → keeps m M) → keeps (on_machine m) (obj_ok a c).
Proof.
  intros Hm [b s] (Hb & Hc & Ha & HP). unfold on_machine, zoom. cbn [fst snd] in *.
  assert (M (m s).2) as HP'.
  { apply Hm; [|done]. destruct (patches c); [left; auto | by right]. }
  by destruct (m s).
Qed.

Lemma obj_this a c f : (∀ b, b_addr (f b) = b_addr b ∧ b_class (f b) = b_class b) →
  keeps (on_this f) (obj_ok a c).
Proof. intros Hf [b s] (Hb & Hc & Ha & HP). destruct (Hf b) as [H1 H2]. by split_and!; cbn; rewrite ?H1, ?H2. Qed.

Lemma obj_get a c : keeps this (obj_ok a c).
Proof. by intros w Hw. Qed.

(** The object of the run is known when it was read. *)
Lemma keeps_this {B} a c (k : bpoint → eff (bpoint * machine K) B) :
  (∀ b, b_addr b = a → b_class b = c → keeps (k b) (obj_ok a c)) → keeps (b ← this; k b) (obj_ok a c).
Proof. intros Hk w Hw. apply (Hk w.1); [apply Hw | apply Hw | done]. Qed.

Lemma do_enable_software_keeps a c on : A a →
  keeps (do_enable_software proc step_until_safe on) (obj_ok a c).
Proof.
  intros Ha. apply keeps_this. intros b Hb _. apply keeps_bind.
  - apply keeps_when, keeps_bind; [|intros t; by apply obj_this].
    apply obj_machine. intros _. apply HM.
  - intros _. apply obj_machine. intros _. rewrite Hb. by apply HM.
Qed.

Lemma do_enable_keeps a c on : (patches c = true → A a) →
  keeps (do_enable proc step_until_safe on) (obj_ok a c).
Proof.
  intros Ha. apply keeps_this. intros b Hb Hc. rewrite Hc.
  destruct c; try (apply do_enable_software_keeps; by apply Ha); [|apply keeps_ret].
  apply obj_machine. intros _.
  assert (∀ t, keeps (try_enable_hardware t register on global cond len) M) as Ht.
  { intros t. apply keeps_catch; [|apply keeps_ret]. apply keeps_bind; [|intros _; apply keeps_ret].
    apply HM, spares_enable. }
  unfold do_enable_hardware. apply keeps_bind; [apply Ht|]. intros d. destruct (_ || _); [apply keeps_ret|].
  destruct (main_thread proc) as [t|]; [|apply keeps_ret]. destruct (_ =? _); [apply keeps_ret | apply Ht].
Qed.

Lemma restoring_keeps a c (m : eff _ bool) : keeps m (obj_ok a c) → keeps (restoring m) (obj_ok a c).
Proof.
  intros Hm w Hw. specialize (Hm w Hw). unfold restoring.
  destruct (m w) as [[[]|e] w1]; cbn in *; try done; destruct Hm as (H1 & H2 & H3 & H4); by split_and!.
Qed.

Lemma enable_keeps a c : (patches c = true → A a) → keeps (enable proc step_until_safe) (obj_ok a c).
Proof.
  intros Ha. apply keeps_this. intros b _ _. apply keeps_bind; [|intros _; apply keeps_ret].
  apply restoring_keeps, keeps_bind; [by apply obj_this|]. intros _.
  destruct (_ =? _); [by apply do_enable_keeps | apply keeps_ret].
Qed.

Lemma disable_keeps a c : (patches c = true → A a) → keeps (disable proc step_until_safe) (obj_ok a c).
Proof.
  intros Ha. apply keeps_this. intros b _ _. apply keeps_bind; [|intros _; apply keeps_ret].
  apply restoring_keeps, keeps_bind; [by apply obj_this|]. intros _.
  destruct (_ =? _); [by apply do_enable_keeps | apply keeps_ret].
Qed.

Lemma destroy_keeps a c : (patches c = true → A a) → keeps (destroy proc step_until_safe) (obj_ok a c).
Proof.
  intros Ha. apply keeps_this. intros b _ Hc. rewrite Hc.
  assert (∀ t r, keeps (on_machine (on_dregs t (clear t r))) (obj_ok a c)) as Hclear.
  { intros t r. apply obj_machine. intros _. apply HM, spares_clear. }
  destruct c; try (apply keeps_catch; [apply keeps_bind; [by apply disable_keeps|intros _]|]; apply keeps_ret).
  apply keeps_bind.
  - destruct (thread_is_attached proc (b_thread b)); [|apply keeps_ret].
    apply keeps_catch; [apply keeps_bind; [apply Hclear|intros _]|]; apply keeps_ret.
  - intros d. destruct (_ || _); [apply keeps_ret|]. destruct (main_thread proc); [|apply keeps_ret].
    apply keeps_when, keeps_catch; [apply Hclear | apply keeps_ret].
Qed.
End Objects.

(** ** Requests that succeed *)

(** What a request at [a] does not change. *)
Definition elsewhere (a : Z) (s s' : machine K) : Prop :=
  (∀ b, b ≠ a → physical s' !! b = physical s !! b) ∧ dregs s' = dregs s
  ∧ (∀ u, traceable (kernel s) u → traceable (kernel s') u)
  ∧ (∀ b, mapped (kernel s) b → mapped (kernel s') b).

Lemma elsewhere_refl a s : elsewhere a s s.
Proof. by split_and!. Qed.
Lemma elsewhere_trans a s1 s2 s3 : elsewhere a s1 s2 → elsewhere a s2 s3 → elsewhere a s1 s3.
Proof.
  intros (P1 & D1 & T1 & M1) (P2 & D2 & T2 & M2). split_and!; auto; [|congruence].
  intros b Hb. by rewrite P2, P1.
Qed.
Lemma elsewhere_insert a p s : elsewhere a s (mk_machine (kernel s) (<[a := p]> (physical s)) (dregs s)).
Proof. split_and!; try done. intros b Hb. cbn. by rewrite lookup_insert_ne. Qed.

Lemma read_orig_ok t a s : traceable (kernel s) t → mapped (kernel s) a →
  ∃ s', read_orig t a s = (Ret tt, s') ∧ elsewhere a s s'.
Proof.
  intros Ht Hma. destruct (peek_text_succeeds _ _ _ Ht Hma) as [w Hw].
  unfold read_orig. erewrite bind_ret.
  2:{ unfold on_kernel, zoom, read_memory. rewrite andb_false_r. erewrite bind_ret by reflexivity.
      change (2 <? 1)%nat with false. cbv iota. cbn [read_using_ptrace].
      erewrite bind_ret by reflexivity. rewrite Hw. reflexivity. }
  erewrite bind_ret by reflexivity. eexists. split; [reflexivity|]. destruct s. apply elsewhere_insert.
Qed.

Lemma write_patch_ok t a c on s : traceable (kernel s) t → mapped (kernel s) a →
  ∃ s', write_patch t a c on s = (Ret tt, s') ∧ elsewhere a s s'.
Proof.
  intros Ht Hma. destruct (poke_text_succeeds (kernel s) t a c Ht Hma) as (k & Hk & Htr & Hmp).
  unfold write_patch. erewrite bind_ret.
  2:{ unfold on_kernel, zoom. cbn [write_memory]. unfold sys_poke.
      erewrite bind_ret by (erewrite bind_ret by reflexivity; rewrite Hk; reflexivity). reflexivity. }
  erewrite bind_ret by reflexivity. eexists. split; [reflexivity|]. split_and!; cbn; try done.
  intros b Hb. by rewrite lookup_insert_ne.
Qed.

Lemma patch_tail_ok t a on s : Patched orig A s → A a → origCode (phys_at a s) = word_at orig a →
  traceable (kernel s) t → mapped (kernel s) a →
  ∃ s', patch_tail t a on s = (Ret true, s') ∧ elsewhere a s s'.
Proof.
  intros HP Ha Ho Ht Hma. unfold patch_tail. erewrite bind_ret by reflexivity. rewrite Ho.
  set (code := if on then _ else _).
  assert (code ≠ 0) as Hc by (unfold code; destruct on; [apply opcode_not_null | by apply Hspaced]).
  replace (code =? 0) with false by lia. destruct (Bool.eqb on (enabled (phys_at a s))) eqn:E; cbn [negb when].
  - erewrite bind_ret by reflexivity. erewrite bind_ret by reflexivity. rewrite E.
    exists s. split; [done | apply elsewhere_refl].
  - destruct (write_patch_ok t a code on s Ht Hma) as (s1 & Ew & He).
    destruct (write_patch_inv t a on code s _ s1 HP Ha Ho eq_refl Ew) as (_ & Hon & _).
    erewrite bind_ret by (erewrite catch_ret by exact Ew; reflexivity). erewrite bind_ret by reflexivity.
    rewrite Hon, eqb_reflx. by exists s1.
Qed.

(** A request through a traced thread at mapped code succeeds. *)
Lemma enable_software_ok t a on s : Patched orig A s → A a → traceable (kernel s) t → mapped (kernel s) a →
  ∃ s', enable_software_breakpoint proc t a on s = (Ret true, s') ∧ Patched orig A s'
    ∧ patched_at s' a = on ∧ elsewhere a s s'.
Proof.
  intros HP Ha Ht Hma.
  cut (∃ s', enable_software_breakpoint proc t a on s = (Ret true, s') ∧ elsewhere a s s').
  { intros (s' & E & He). destruct (enable_software_inv t a on s _ s' HP Ha E) as (HP' & Hon & _). eauto 10. }
  unfold enable_software_breakpoint. erewrite bind_ret by reflexivity.
  set (p := phys_at a s). unfold put_phys. erewrite bind_ret by reflexivity. set (s1 := mk_machine _ _ _).
  assert (origCode p = word_at orig a ∨ origCode p = 0 ∧ enabled p = false) as Hp.
  { unfold p, phys_at. destruct (physical s !! a) as [q|] eqn:E; [by apply (proj2 HP a q E)|]. by right. }
  assert (Patched orig A s1) as HP1 by (apply Patched_remember; try done; apply phys_patched).
  assert (phys_at a s1 = p) as Hp1 by (unfold phys_at at 1, s1; cbn; by rewrite lookup_insert_eq).
  assert (elsewhere a s s1) as He1 by apply elsewhere_insert.
  assert (word_at orig a ≠ 0) as Hw by (by apply Hspaced).
  fold (patch_tail t a on). clearbody p s1. destruct He1 as (P1 & D1 & T1 & M1).
  assert (elsewhere a s s1) as He1 by done.
  destruct Hp as [Hp|[Hp He]].
  - replace (origCode p =? 0) with false by lia. erewrite bind_ret by reflexivity.
    erewrite bind_ret by reflexivity. rewrite Hp1. replace (origCode p =? 0) with false by lia.
    erewrite bind_ret by reflexivity.
    destruct (patch_tail_ok t a on s1 HP1 Ha) as (s2 & E2 & He2); auto; [by rewrite Hp1|].
    exists s2. split; [done | by eapply elsewhere_trans].
  - rewrite Hp, He. cbn [Z.eqb]. destruct (read_orig_ok t a s1) as (s2 & Er & He2); auto.
    rewrite <- Hp1, phys_patched in He.
    destruct (read_orig_inv t a s1 _ s2 HP1 Ha ltac:(by rewrite phys_patched) He Er) as (HP2 & _ & _ & Ho2).
    erewrite bind_ret by (erewrite catch_ret by exact Er; reflexivity). erewrite bind_ret by reflexivity.
    replace (origCode (phys_at a s2) =? 0) with false by lia. erewrite bind_ret by reflexivity.
    pose proof He2 as (_ & _ & T2 & M2).
    destruct (patch_tail_ok t a on s2 HP2 Ha Ho2) as (s3 & E3 & He3); auto.
    exists s3. split; [done|]. by eapply elsewhere_trans, elsewhere_trans.
Qed.
End Patched.

(** ** Breakpoints closer than a word *)

(** Disabling a breakpoint through a traced thread writes the remembered word back. *)
Lemma disable_writes {K} `{PtraceLaws K} proc t a w s : w ≠ 0 →
  physical s !! a = Some (mk_physical w true) → traceable (kernel s) t → mapped (kernel s) a →
  ∃ s', enable_software_breakpoint proc t a false s = (Ret true, s')
    ∧ (∀ b, memory (kernel s') b = store_word (memory (kernel s)) a w b)
    ∧ physical s' = <[a := mk_physical w false]> (physical s).
Proof.
  intros Hw Ha Ht Hma.
  destruct (poke_text_succeeds (kernel s) t a w Ht Hma) as (k & Hk & _).
  assert (phys_at a s = mk_physical w true) as Hp by (unfold phys_at; by rewrite Ha).
  unfold enable_software_breakpoint. erewrite bind_ret by reflexivity. rewrite Hp.
  erewrite bind_ret by reflexivity. cbn [origCode enabled].
  replace (w =? 0) with false by lia. erewrite bind_ret by reflexivity.
  set (s1 := mk_machine (kernel s) (<[a := mk_physical w true]> (physical s)) (dregs s)).
  assert (s1 = s) as ->. { unfold s1. rewrite insert_id by done. by destruct s. }
  erewrite bind_ret by reflexivity. rewrite Hp. cbn [origCode enabled].
  replace (w =? 0) with false by lia. erewrite bind_ret by reflexivity.
  erewrite bind_ret by reflexivity. rewrite Hp. cbn [origCode enabled negb Bool.eqb when].
  replace (w =? 0) with false by lia.
  erewrite bind_ret.
  2:{ erewrite catch_ret; [reflexivity|]. unfold write_patch. erewrite bind_ret.
      2:{ unfold on_kernel, zoom. cbn [write_memory]. unfold sys_poke.
          erewrite bind_ret by (erewrite bind_ret by reflexivity; rewrite Hk; reflexivity). reflexivity. }
      erewrite bind_ret by reflexivity. reflexivity. }
  erewrite bind_ret by reflexivity. unfold phys_at at 1. cbn [physical]. rewrite lookup_insert_eq. cbn [default enabled Bool.eqb].
  eexists. split; [reflexivity|]. unfold phys_at. cbn [physical kernel]. rewrite Ha. cbn.
  split; [|done]. by apply (poke_text_memory _ _ _ _ _ Hk).
Qed.

(** C28: breakpoints that are less than a word apart disturb each other. When a breakpoint at
    [a] remembers the original code and another one behind it, at a distance of less than a
    word, is enabled, disabling the one at [a] puts the original byte back at the other
    address, although the other breakpoint is still marked as enabled. *)
Theorem neighbour_breakpoint_lost {K} `{PtraceLaws K} proc t orig a b s :
  (∀ x, 0 ≤ orig x < 2 ^ 8) → word_at orig a ≠ 0 → a < b < a + WORD →
  physical s !! a = Some (mk_physical (word_at orig a) true) →
  memory (kernel s) b = x86_BREAK_OPCODE → patched_at s b = true →
  traceable (kernel s) t → mapped (kernel s) a →
  ∃ s', enable_software_breakpoint proc t a false s = (Ret true, s')
    ∧ memory (kernel s') b = orig b ∧ patched_at s' b = true.
Proof.
  intros Hb Hw Hab Ha Hm Hp Ht Hma.
  destruct (disable_writes proc t a (word_at orig a) s Hw Ha Ht Hma) as (s' & E & Hmem & Hph).
  exists s'. split_and!; [done| |].
  - rewrite Hmem. unfold store_word. replace ((a <=? b) && (b <? a + WORD)) with true by lia.
    rewrite word_at_byte by (done || lia). f_equal. lia.
  - unfold patched_at in *. rewrite Hph, lookup_insert_ne by lia. done.
Qed.

(** Two instructions of one byte each, [push %rbp] and [ret], with a breakpoint at both. *)
Definition neighbours : sim :=
  mk_sim (list_to_map [(0x1000, 0xCC); (0x1001, 0xCC); (0x1002, 0x90)]) {[1]} ∅.
Definition neighbours_orig : Z → Z :=
  sim_byte (mk_sim (list_to_map [(0x1000, 0x55); (0x1001, 0xC3); (0x1002, 0x90)]) ∅ ∅).
Definition neighbours_machine : machine sim :=
  mk_machine neighbours
    (<[0x1000 := mk_physical (word_at neighbours_orig 0x1000) true]>
      (<[0x1001 := mk_physical (word_at neighbours_orig 0x1001) true]> ∅)) ∅.
Definition neighbours_process : process_info :=
  mk_process 1 (Some 1) [1] (λ _, 1) (λ _, true) (λ _, true) (λ _, false).

Lemma neighbour_breakpoint_lost_witness :
  ∃ s', enable_software_breakpoint neighbours_process 1 0x1000 false neighbours_machine = (Ret true, s')
    ∧ memory (kernel s') 0x1001 = 0xC3 ∧ patched_at s' 0x1001 = true.
Proof.
  apply (neighbour_breakpoint_lost (K := sim) neighbours_process 1 neighbours_orig 0x1000 0x1001 neighbours_machine).
  - intros x. apply Z.mod_pos_bound. lia.
  - vm_compute. discriminate.
  - unfold WORD. lia.
  - reflexivity.
  - reflexivity.
  - reflexivity.
  - cbn. set_solver.
  - exact I.
Defined.

(** ** The execution of actions *)

Section Actions.
Variables (enabled : action → bool) (keep : action → bool).

(** Client code that leaves the breakpoint alone. *)
Definition answers (a : action) (context : option Z) (b : bpoint) : bpoint * bool := (b, keep a).

(** The actions that are executed and ask to be removed. *)
Definition declines (a : action) : bool := enabled a && negb (keep a).

Lemma execute_stays l : ∀ d rest b, forallb (λ a, negb (declines a)) l = true →
  execute_loop enabled answers (l ++ rest) d b = execute_loop enabled answers rest (length l + d) b.
Proof.
  induction l as [|a l IH]; intros d rest b Hl; [done|]. cbn [forallb] in Hl.
  apply andb_true_iff in Hl as [Ha Hl]. cbn [app execute_loop length]. unfold declines in Ha.
  destruct (enabled a); cbn [negb andb] in *; [|rewrite IH by done; f_equal; lia].
  erewrite bind_ret by reflexivity. apply negb_true_iff, negb_false_iff in Ha. rewrite Ha.
  rewrite IH by done. f_equal. lia.
Qed.

Lemma execute_declines a rest d b x : declines a = true → b_actions b !! d = Some x →
  execute_loop enabled answers (a :: rest) d b
  = execute_loop enabled answers rest (S d)
      (set_actions (delete d (b_actions b)) (set_contexts (delete (act_id x) (b_contexts b)) b)).
Proof.
  intros Ha Hd. unfold declines in Ha. apply andb_true_iff in Ha as [He Hk]. apply negb_true_iff in Hk.
  cbn [execute_loop]. rewrite He. cbn [negb]. erewrite bind_ret by reflexivity. rewrite Hk.
  erewrite bind_ret by reflexivity. rewrite Hd. by erewrite bind_ret by reflexivity.
Qed.

Lemma execute_overruns a rest d b : declines a = true → b_actions b !! d = None →
  execute_loop enabled answers (a :: rest) d b = (Raise Undefined, b).
Proof.
  intros Ha Hd. unfold declines in Ha. apply andb_true_iff in Ha as [He Hk]. apply negb_true_iff in Hk.
  cbn [execute_loop]. rewrite He. cbn [negb]. erewrite bind_ret by reflexivity. rewrite Hk.
  erewrite bind_ret by reflexivity. by rewrite Hd.
Qed.

(** The first action that declines, if any. *)
Lemma split_declines l :
  forallb (λ a, negb (declines a)) l = true
  ∨ ∃ l1 a l2, l = l1 ++ a :: l2 ∧ forallb (λ a, negb (declines a)) l1 = true ∧ declines a = true.
Proof.
  induction l as [|a l IH]; [by left|]. cbn [forallb]. destruct (declines a) eqn:Ha; cbn.
  - right. by exists [], a, l.
  - destruct IH as [IH|(l1 & x & l2 & -> & H1 & H2)]; [by left | right].
    exists (a :: l1), x, l2. cbn. by rewrite Ha, H1.
Qed.

Lemma filter_stays l : forallb (λ a, negb (declines a)) l = true →
  List.filter (λ a, negb (declines a)) l = l ∧ List.filter declines l = [].
Proof.
  induction l as [|a l IH]; [done|]. cbn. intros Hl. apply andb_true_iff in Hl as [Ha Hl].
  rewrite Ha. apply negb_true_iff in Ha. rewrite Ha. destruct (IH Hl) as [-> ->]. done.
Qed.
End Actions.

(** When at most one enabled action asks to be removed, executing the actions of a
    breakpoint returns and removes exactly that one. *)
Theorem one_action_removed enabled keep b :
  (length (List.filter (declines enabled keep) (b_actions b)) ≤ 1)%nat →
  ∃ b', execute_actions enabled (answers keep) b = (Ret tt, b')
    ∧ b_actions b' = List.filter (λ a, negb (declines enabled keep a)) (b_actions b).
Proof.
  intros Hone. unfold execute_actions. erewrite bind_ret by reflexivity.
  destruct (split_declines enabled keep (b_actions b)) as [Hall|(l1 & a & l2 & El & H1 & Ha)].
  - exists b. rewrite <- (app_nil_r (b_actions b)) at 1. rewrite execute_stays by done.
    split; [done|]. by rewrite (proj1 (filter_stays _ _ _ Hall)).
  - rewrite El in Hone |- *. rewrite List.filter_app in Hone. cbn in Hone. rewrite Ha in Hone.
    rewrite length_app in Hone. cbn in Hone.
    assert (forallb (λ a, negb (declines enabled keep a)) l2 = true) as H2.
    { apply forallb_forall. intros x Hx. destruct (declines enabled keep x) eqn:E; [|done].
      assert (In x (List.filter (declines enabled keep) l2)) as Hin by (apply filter_In; done).
      destruct (List.filter _ l2); [done | cbn in Hone; lia]. }
    rewrite execute_stays by done.
    erewrite execute_declines; [|done|by rewrite El, list_lookup_middle by lia].
    eexists. rewrite <- (app_nil_r l2) at 1. rewrite execute_stays by done. split; [reflexivity|]. cbn.
    rewrite El, Nat.add_0_r, delete_middle, List.filter_app. cbn. rewrite Ha. cbn.
    by rewrite (proj1 (filter_stays _ _ _ H1)), (proj1 (filter_stays _ _ _ H2)).
Qed.

Definition sample_actions : bpoint :=
  set_actions [mk_action 1 "user" 0; mk_action 2 "step" 0; mk_action 3 "log" 0] (new_software 1 0x1000).

Lemma one_action_removed_witness :
  ∃ b', execute_actions (λ _, true) (answers (λ a, negb (act_id a =? 2))) sample_actions = (Ret tt, b')
    ∧ b_actions b' = [mk_action 1 "user" 0; mk_action 3 "log" 0].
Proof. apply (one_action_removed (λ _, true) (λ a, negb (act_id a =? 2)) sample_actions). cbn. lia. Defined.

(** When two actions ask to be removed, the wrong one is removed the second time: the
    iteration counter is not adjusted to the first removal. If an action follows the second
    one, that action is removed in its place and the second one stays; if none follows, the
    code uses an iterator outside of the list. *)
Theorem second_action_misremoved enabled keep b l1 x l2 y l3 :
  b_actions b = l1 ++ x :: l2 ++ y :: l3 →
  declines enabled keep x = true → declines enabled keep y = true →
  forallb (λ a, negb (declines enabled keep a)) (l1 ++ l2 ++ l3) = true →
  match l3 with
  | [] => (execute_actions enabled (answers keep) b).1 = Raise Undefined
  | z :: l3' =>
      ∃ b', execute_actions enabled (answers keep) b = (Ret tt, b')
        ∧ b_actions b' = l1 ++ l2 ++ y :: l3'
  end.
Proof.
  intros El Hx Hy Hrest. rewrite !forallb_app in Hrest.
  apply andb_true_iff in Hrest as [H1 Hrest]. apply andb_true_iff in Hrest as [H2 H3].
  unfold execute_actions.
  assert (∃ b1, b_actions b1 = l1 ++ l2 ++ y :: l3 ∧
    (b0 ← get; execute_loop enabled (answers keep) (b_actions b0) 0) b
    = execute_loop enabled (answers keep) (y :: l3) (length l2 + S (length l1)) b1) as (b1 & Eb1 & ->).
  { exists (set_actions (l1 ++ l2 ++ y :: l3) (set_contexts (delete (act_id x) (b_contexts b)) b)).
    split; [done|]. erewrite bind_ret by reflexivity. rewrite El. rewrite execute_stays by done.
    erewrite execute_declines; [|done|by rewrite El, list_lookup_middle by lia].
    rewrite execute_stays by done. rewrite El, Nat.add_0_r, delete_middle. done. }
  assert (length l2 + S (length l1) = S (length (l1 ++ l2)))%nat as Hd by (rewrite length_app; lia).
  destruct l3 as [|z l3].
  - rewrite execute_overruns; [done | done |]. rewrite Eb1, app_assoc, Hd.
    apply lookup_ge_None. rewrite length_app. cbn. lia.
  - cbn [forallb] in H3. apply andb_true_iff in H3 as [Hz H3].
    erewrite execute_declines; [|done|].
    2:{ rewrite Eb1, Hd, (app_assoc l1), cons_middle, app_assoc.
        rewrite list_lookup_middle; [reflexivity|]. rewrite !length_app. cbn. lia. }
    eexists. rewrite <- (app_nil_r (z :: l3)). rewrite execute_stays by (cbn; by rewrite Hz).
    split; [reflexivity|]. cbn. rewrite Eb1, Hd, (app_assoc l1), cons_middle, app_assoc.
    replace (S (length (l1 ++ l2))) with (length ((l1 ++ l2) ++ [y])) by (rewrite !length_app; cbn; lia).
    rewrite delete_middle, <- !app_assoc. done.
Qed.

Lemma second_action_misremoved_witness :
  ∃ b', execute_actions (λ _, true) (answers (λ a, negb (act_id a <=? 2))) sample_actions = (Ret tt, b')
    ∧ b_actions b' = [mk_action 2 "step" 0].
Proof.
  apply (second_action_misremoved (λ _, true) (λ a, negb (act_id a <=? 2)) sample_actions
    [] (mk_action 1 "user" 0) [] (mk_action 2 "step" 0) [mk_action 3 "log" 0]); reflexivity.
Defined.
