(* ===== verification/BreakPointMgrCorrect.v ===== *)
(** * The containers of the breakpoint manager

    Every operation of the manager keeps its containers well formed and the code of the
    debuggee patched at the enabled breakpoints only; setting and removing a breakpoint. *)
From stdpp Require Import strings.
From S2P Require Import Effects Target DebugRegs BreakPoint BreakPointMgr BreakPointCorrect.

(** The breakpoints that belong in a container. *)
Definition fits (r : mapref) (b : bpoint) : Prop :=
  match r, b_class b with
  | Global, SoftwareBreakPoint => True
  | PerThread _, EmulatedBreakPoint => True
  | PerThread _, HardwareBreakPoint _ _ _ _ => True
  | _, _ => False
  end.

Definition is_hardware (b : bpoint) : Prop :=
  match b_class b with HardwareBreakPoint _ _ _ _ => True | _ => False end.

Section Invariant.
Context {K : Type} `{PtraceLaws K} (A : Z → Prop).
Variables (proc : process_info) (step_until_safe : Z → Z → eff K bool).
Variables (M : machine K → Prop) (HM : machine_inv A proc step_until_safe M).
Variables (frames : Z → list (option Z)) (stack_start : Z → Z) (current_function : Z → option Z).

Definition entry_ok (r : mapref) (a : Z) (b : bpoint) : Prop := b_addr b = a ∧ A a ∧ fits r b.
Definition map_ok (r : mapref) (m : gmap Z bpoint) : Prop := ∀ a b, m !! a = Some b → entry_ok r a b.

Record containers_ok (g : manager K) : Prop := mk_ok {
  ok_maps : ∀ r, map_ok r (map_of r g);
  ok_deferred : Forall (λ b, is_deferred b = true) (deferred g);
  ok_watch : Forall (λ w, is_hardware (w_bpoint w)) (watchPoints g)
}.

(** The containers are typed and the machine keeps its invariant. *)
Definition G_ok (g : manager K) : Prop := containers_ok g ∧ M (mach g).

(** ** Primitive steps *)

Lemma G_mach {B} (m : eff (machine K) B) : keeps m M → gives (on_mach m) G_ok (λ _, True).
Proof.
  intros Hm. apply gives_keeps. intros g [[H1 H2 H3] HP]. unfold on_mach, zoom.
  specialize (Hm (mach g) HP). destruct (m (mach g)) as [o s]. by split.
Qed.

Lemma map_ok_empty r : map_ok r ∅.
Proof. intros a b. by rewrite lookup_empty. Qed.

Lemma G_update r f : (∀ m, map_ok r m → map_ok r (f m)) → gives (update_map r f) G_ok (λ _, True).
Proof.
  intros Hf. apply gives_modify. intros g [[H1 H2 H3] HP].
  destruct r as [|t]; (split; [split; try done | done]).
  - intros [|u]; [apply Hf, (H1 Global) | apply (H1 (PerThread u))].
  - intros [|u]; [apply (H1 Global)|]. cbn. destruct (decide (t = u)) as [->|].
    + rewrite lookup_insert_eq. cbn. apply Hf, (H1 (PerThread u)).
    + rewrite lookup_insert_ne by done. apply (H1 (PerThread u)).
Qed.

Lemma map_ok_insert r m a b : map_ok r m → entry_ok r a b → map_ok r (<[a := b]> m).
Proof.
  intros Hm Hb a' b'. destruct (decide (a = a')) as [->|].
  - rewrite lookup_insert_eq. by intros [= <-].
  - rewrite lookup_insert_ne by done. apply Hm.
Qed.
Lemma map_ok_delete r m a : map_ok r m → map_ok r (delete a m).
Proof. intros Hm a' b'. rewrite lookup_delete_Some. intros [_ E]. by apply Hm. Qed.

Lemma G_deferred l : Forall (λ b, is_deferred b = true) l → gives (modify (set_deferred l)) G_ok (λ _, True).
Proof. intros Hl. apply gives_modify. intros g [[H1 H2 H3] HP]. split; [split|]; try done; apply H1. Qed.
Lemma G_watch l : Forall (λ w, is_hardware (w_bpoint w)) l → gives (modify (set_watchPoints l)) G_ok (λ _, True).
Proof. intros Hl. apply gives_modify. intros g [[H1 H2 H3] HP]. split; [split|]; try done; apply H1. Qed.
Lemma G_event e : gives (call_callback e) G_ok (λ _, True).
Proof. apply gives_modify. intros g [[H1 H2 H3] HP]. split; [split|]; try done; apply H1. Qed.

Definition bp_ok (b : bpoint) : Prop := patches (b_class b) = true → A (b_addr b).

Lemma entry_bp r a b : entry_ok r a b → bp_ok b.
Proof. intros (<- & Ha & _) _. done. Qed.
Lemma deferred_bp b : is_deferred b = true → bp_ok b.
Proof. unfold is_deferred, bp_ok. by destruct (b_class b). Qed.
Lemma hardware_bp b : is_hardware b → bp_ok b.
Proof. unfold is_hardware, bp_ok. by destruct (b_class b). Qed.

(** An operation of a breakpoint object. *)
Lemma G_with {B} b (m : eff (bpoint * machine K) B) : bp_ok b →
  keeps m (obj_ok A M (b_addr b) (b_class b)) →
  gives (with_bpoint b m) G_ok (λ r, b_addr r.1 = b_addr b ∧ b_class r.1 = b_class b).
Proof.
  intros Hb Hm g Hg. destruct (Hm (b, mach g)) as (H1 & H2 & _ & HP); [split_and!; by try apply Hg|].
  unfold with_bpoint. destruct (m (b, mach g)) as [o [b' s]]. cbn in *.
  assert (G_ok (on_mach (modify (λ _, s)) g).2) by (destruct Hg as [[] ?]; by split).
  by destruct o.
Qed.

Lemma G_destroy b : bp_ok b → gives (destroy_bpoint proc step_until_safe b) G_ok (λ _, True).
Proof.
  intros Hb. eapply gives_bind; [apply G_with; [done|] | intros; by apply gives_ret].
  by eapply destroy_keeps.
Qed.

Lemma G_enable b : bp_ok b → gives (with_bpoint b (enable proc step_until_safe)) G_ok
  (λ r, b_addr r.1 = b_addr b ∧ b_class r.1 = b_class b).
Proof. intros Hb. apply G_with; [done|]. by eapply enable_keeps. Qed.

Lemma fits_class r b b' : b_class b' = b_class b → fits r b → fits r b'.
Proof. unfold fits. by intros ->. Qed.

(** An operation of a breakpoint that stays in its container. *)
Lemma G_in_map {B} r a b (m : eff (bpoint * machine K) B) : entry_ok r a b →
  keeps m (obj_ok A M a (b_class b)) →
  gives (in_map r a b m) G_ok (λ x, entry_ok r a x.1).
Proof.
  intros (Hb & Ha & Hf) Hm g Hg. destruct (Hm (b, mach g)) as (H1 & H2 & _ & HP); [split_and!; by try apply Hg|].
  unfold in_map. destruct (m (b, mach g)) as [o [b' s]]. cbn [fst snd] in *.
  assert (G_ok (on_mach (modify (λ _, s)) g).2) as Hg' by (destruct Hg as [[] ?]; by split).
  assert (entry_ok r a b') as He by (split_and!; [done | done | by eapply fits_class]).
  destruct (G_update r (<[a := b']>) ltac:(intros; by apply map_ok_insert) _ Hg') as [Hu _].
  by destruct o.
Qed.

(** ** Operations *)

Lemma G_then {B C} (m : eff (manager K) B) (k : eff (manager K) C) U :
  gives m G_ok (λ _, True) → gives k G_ok U → gives (m;; k) G_ok U.
Proof. intros Hm Hk. eapply gives_bind; [exact Hm | intros _ _; exact Hk]. Qed.

Lemma G_update_id r : gives (update_map r (λ m, m)) G_ok (λ _, True).
Proof. by apply G_update. Qed.

Lemma G_map r : gives (gets (map_of r)) G_ok (map_ok r).
Proof. apply gives_gets. intros g [[H1 _ _] _]. apply H1. Qed.
Lemma G_get_deferred : gives (gets deferred) G_ok (Forall (λ b, is_deferred b = true)).
Proof. apply gives_gets. by intros g [[_ H2 _] _]. Qed.
Lemma G_get_watch : gives (gets watchPoints) G_ok (Forall (λ w, is_hardware (w_bpoint w))).
Proof. apply gives_gets. by intros g [[_ _ H3] _]. Qed.
Lemma G_gets {B} (f : manager K → B) : gives (gets f) G_ok (λ _, True).
Proof. by apply gives_gets. Qed.

Lemma G_created t : gives (on_thread_created proc t) G_ok (λ _, True).
Proof.
  unfold on_thread_created. destruct (_ && _); [|by apply gives_ret].
  apply G_then; [apply G_update_id | by apply gives_ret].
Qed.

Lemma keep_enabled_ok b : bp_ok b → bp_ok (keep_enabled b).
Proof. unfold keep_enabled. by destruct (is_enabled b). Qed.

Lemma G_drop r m : map_ok r m → gives (drop_map proc step_until_safe m) G_ok (λ _, True).
Proof.
  intros Hm. apply gives_for_each. intros b Hb. apply G_destroy, keep_enabled_ok.
  apply list_elem_of_fmap in Hb as ([a b'] & -> & Hb). apply elem_of_map_to_list in Hb.
  by eapply entry_bp, Hm.
Qed.

Lemma G_unmanage t : gives (on_thread_unmanage proc step_until_safe t) G_ok (λ _, True).
Proof.
  unfold on_thread_unmanage. destruct (is_live proc t); [|by apply gives_ret].
  eapply gives_bind with (V := λ pt : gmap Z (gmap Z bpoint), ∀ m, pt !! t = Some m → map_ok (PerThread t) m).
  { apply gives_gets. intros g [[H1 _ _] _] m Hm. specialize (H1 (PerThread t)). cbn in H1. by rewrite Hm in H1. }
  intros pt Hpt. apply G_then.
  { destruct (pt !! t) as [m|] eqn:E; [|by apply gives_ret]. apply G_then; [|eapply G_drop; by apply Hpt].
    apply gives_modify. intros g [[H1 H2 H3] HP]. split; [split; try done | done].
    intros [|u]; [apply (H1 Global)|]. cbn. destruct (decide (t = u)) as [->|].
    - rewrite lookup_delete_eq. apply map_ok_empty.
    - rewrite lookup_delete_ne by done. apply (H1 (PerThread u)). }
  apply G_then.
  { apply gives_when. intros _. eapply gives_bind; [apply (G_map Global)|]. intros gl Hgl.
    apply G_then; [|by eapply G_drop]. apply gives_modify. intros g [[H1 H2 H3] HP].
    split; [split; try done | done]. intros [|u]; [apply map_ok_empty | apply (H1 (PerThread u))]. }
  eapply gives_bind; [apply G_get_watch|]. intros ws Hws. rewrite Forall_forall in Hws.
  apply G_then.
  - apply G_watch, Forall_forall. intros w Hw. apply Hws. apply list_elem_of_In in Hw.
    by apply filter_In in Hw as [Hw%list_elem_of_In _].
  - apply gives_for_each. intros w Hw. apply G_destroy, hardware_bp, Hws.
    apply list_elem_of_In in Hw. by apply filter_In in Hw as [Hw%list_elem_of_In _].
Qed.

Lemma G_set_hardware t a g c l : gives (set_hardware_breakpoint t a g c l) G_ok (λ _, True).
Proof.
  unfold set_hardware_breakpoint. eapply gives_bind; [apply G_gets|]. intros n _.
  destruct (_ <? _); [|by apply gives_ret]. apply G_mach. apply HM, spares_set.
Qed.

(** A created breakpoint fits the container of its type. *)
Lemma G_create t ty a : A a →
  gives (create_breakpoint proc step_until_safe t ty a) G_ok (entry_ok (map_ref t ty) a).
Proof.
  intros Ha. unfold create_breakpoint. eapply gives_bind; [apply G_gets|]. intros hw _.
  eapply gives_bind with (V := λ r : option Z, ∀ i, r = Some i → ty = HARDWARE).
  { destruct (bool_decide (ty = HARDWARE)) eqn:E; cbn [andb]; [|by apply gives_ret].
    apply bool_decide_eq_true in E. destruct hw; [|by apply gives_ret].
    eapply gives_weaken; [apply G_set_hardware | done]. }
  intros [r|] Hr.
  - apply gives_ret. rewrite (Hr r eq_refl). done.
  - set (b := if bool_decide (ty = SOFTWARE) then new_software t a else new_emulated t a).
    assert (entry_ok (map_ref t ty) a b) as Hb.
    { unfold b, map_ref. by destruct (bool_decide (ty = SOFTWARE)). }
    eapply gives_bind; [apply G_enable; by eapply entry_bp|]. intros [b' n] [H1 H2]. cbn in H1, H2.
    apply gives_ret. destruct Hb as (Hb1 & Hb2 & Hb3). split_and!; [congruence | done | by eapply fits_class].
Qed.

Lemma add_action_addr a c b : b_addr (add_action_opt a c b) = b_addr b
  ∧ b_class (add_action_opt a c b) = b_class b.
Proof. destruct a as [a|]; [|done]. cbn. unfold add_action. destruct (_ && _), c; done. Qed.

Lemma add_action_entry r x a c b : entry_ok r x b → entry_ok r x (add_action_opt a c b).
Proof.
  destruct (add_action_addr a c b) as [H1 H2]. intros (Hb1 & Hb2 & Hb3).
  split_and!; [congruence | done | by eapply fits_class].
Qed.

Lemma add_action_deferred a c b : is_deferred b = true → is_deferred (add_action_opt a c b) = true.
Proof. unfold is_deferred. by rewrite (proj2 (add_action_addr a c b)). Qed.

Lemma G_insert r x b : entry_ok r x b → gives (update_map r (<[x := b]>)) G_ok (λ _, True).
Proof. intros Hb. apply G_update. intros m Hm. by apply map_ok_insert. Qed.

Lemma G_set runnable ty a act defer ctx : (defer = false → A a) →
  gives (set_breakpoint proc step_until_safe runnable ty a act defer ctx) G_ok (λ _, True).
Proof.
  intros Ha. unfold set_breakpoint. destruct (match runnable with Some _ => _ | None => _ end) as [t|];
    [|apply gives_throw].
  apply G_then.
  { unfold check_contract. destruct (negb _); [apply gives_throw|]. destruct (_ && _); [apply gives_throw|].
    destruct (negb _); [apply gives_throw | by apply gives_ret]. }
  eapply gives_bind with (V := λ f : option bpoint, ∀ b, f = Some b → entry_ok (map_ref t ty) a b).
  { apply G_then; [apply G_update_id|]. apply gives_gets. intros g [[H1 _ _] _] b Hb. by apply H1. }
  intros found Hfound. eapply gives_bind; [apply G_gets|]. intros d _.
  destruct found as [b|]; [|destruct d as [i|]].
  - apply G_then; [|by apply gives_ret]. apply G_insert, add_action_entry. by apply Hfound.
  - eapply gives_bind; [apply G_get_deferred|]. intros ds Hds. apply G_then; [|by apply gives_ret].
    apply G_deferred. apply Forall_insert; [done|]. apply add_action_deferred.
    destruct (ds !! i) as [b|] eqn:E; [|done]. by eapply Forall_lookup_1 in Hds.
  - destruct defer.
    + apply G_then; [|apply G_then; [apply G_event | by apply gives_ret]].
      apply gives_modify. intros g [[H1 H2 H3] HP]. split; [split; try done|done].
      apply Forall_app. split; [done|]. apply Forall_singleton. by apply add_action_deferred.
    + eapply gives_bind; [by apply G_create, Ha|]. intros b Hb.
      apply G_then; [by apply G_insert, add_action_entry|].
      apply G_then; [apply G_event | by apply gives_ret].
Qed.

Lemma G_set_watch t ty global a act ctx :
  gives (set_watchpoint frames stack_start current_function t ty global a act ctx) G_ok (λ _, True).
Proof.
  unfold set_watchpoint. eapply gives_bind; [apply G_gets|]. intros found _.
  eapply gives_bind; [apply G_get_watch|]. intros ws Hws.
  assert (∀ b, is_hardware b → is_hardware (add_action_opt act ctx b)) as Hact.
  { intros b. unfold is_hardware. by rewrite (proj2 (add_action_addr act ctx b)). }
  destruct (found ≫= _) as [[i w]|] eqn:E.
  - apply G_then; [|by apply gives_ret]. apply G_watch, Forall_insert; [done|]. cbn. apply Hact.
    apply bind_Some in E as (j & _ & E). apply fmap_Some in E as (w' & Hw & [= -> ->]).
    by eapply Forall_lookup_1 in Hws.
  - eapply gives_bind; [apply G_set_hardware|]. intros [r|] _; [|by apply gives_ret].
    apply G_then; [|by apply gives_ret]. apply gives_modify. intros g [[H1 H2 H3] HP].
    split; [split; try done|done]. apply Forall_app. split; [done|]. apply Forall_singleton. cbn.
    by apply Hact.
Qed.

Lemma G_remove_at r name a : gives (remove_actions_at proc step_until_safe r name a) G_ok (λ _, True).
Proof.
  unfold remove_actions_at. eapply gives_bind; [apply G_map|]. intros m Hm.
  destruct (m !! a) as [b|] eqn:E; [|by apply gives_ret]. specialize (Hm a b E).
  unfold BreakPoint.remove_actions. set (b1 := set_actions _ b).
  assert (entry_ok r a b1) as Hb1 by done. clearbody b1.
  apply G_then; [by apply G_insert|]. apply G_then; [|by apply gives_ret].
  destruct (_ =? _)%nat; [|by apply gives_ret].
  eapply gives_bind.
  { apply G_in_map; [exact Hb1|]. eapply disable_keeps; try done. intros _. apply Hb1. }
  intros [b2 n] Hb2. cbn in Hb2. apply G_then; [apply G_event|].
  apply G_then; [apply G_update; intros; by apply map_ok_delete|]. apply G_destroy. by eapply entry_bp.
Qed.

Lemma G_remove r a name : gives (remove_actions proc step_until_safe r a name) G_ok (λ _, True).
Proof.
  unfold remove_actions. destruct (a =? 0); [|apply G_remove_at].
  eapply gives_bind; [apply G_gets|]. intros m _. generalize (map_to_list m).*1. intros l.
  induction l as [|x l IH]; [by apply gives_ret|]. cbn [remove_each].
  eapply gives_bind; [apply G_remove_at|]. intros n _. eapply gives_bind; [apply IH|]. intros; by apply gives_ret.
Qed.

Lemma remove_deferred_ok lwpid a name ds : Forall (λ b, is_deferred b = true) ds →
  Forall (λ b, is_deferred b = true) (remove_deferred lwpid a name ds).1
  ∧ Forall (λ b, is_deferred b = true) (remove_deferred lwpid a name ds).2.
Proof.
  induction 1 as [|b ds Hb Hds IH]; [done|]. cbn [remove_deferred].
  destruct (remove_deferred lwpid a name ds) as [keep gone]. cbn in IH. destruct IH as [IH1 IH2].
  destruct (_ && _); [unfold BreakPoint.remove_actions; destruct (_ && _)|]; split; try done; by constructor.
Qed.

Lemma G_remove_breakpoint pid lwpid a name :
  gives (remove_breakpoint_actions proc step_until_safe pid lwpid a name) G_ok (λ _, True).
Proof.
  unfold remove_breakpoint_actions. eapply gives_bind with (V := λ _, True).
  { destruct (negb _).
    - eapply gives_bind; [apply G_gets|]. intros pt _.
      destruct (pt !! lwpid); [apply G_remove | by apply gives_ret].
    - eapply gives_bind with (V := λ _, True).
      + destruct (pid =? 0); [|by apply gives_ret]. eapply gives_bind; [apply G_gets|]. intros pt _.
        generalize (map_to_list pt).*1. intros l. induction l as [|t l IH]; [by apply gives_ret|].
        cbn [remove_threads]. eapply gives_bind; [apply G_remove|]. intros n _.
        eapply gives_bind; [apply IH|]. intros; by apply gives_ret.
      + intros n _. eapply gives_bind; [apply G_remove|]. intros; by apply gives_ret. }
  intros removed _. apply G_then; [|by apply gives_ret]. destruct (removed =? 0); [|by apply gives_ret].
  eapply gives_bind; [apply G_get_deferred|]. intros ds Hds.
  destruct (remove_deferred_ok lwpid a name ds Hds) as [Hk Hgone].
  destruct (remove_deferred lwpid a name ds) as [keep gone]. cbn in *. rewrite Forall_forall in Hgone.
  apply G_then; [by apply G_deferred|]. apply gives_for_each. intros b Hb.
  apply G_then; [apply G_event|]. by apply G_destroy, deferred_bp, Hgone.
Qed.

Lemma G_erase r : gives (erase proc step_until_safe r) G_ok (λ _, True).
Proof.
  destruct r as [i|i|b]; cbn [erase].
  - eapply gives_bind; [apply G_get_deferred|]. intros ds Hds.
    destruct (ds !! i) as [b|] eqn:E; [|by apply gives_ret]. apply gives_when. intros _.
    apply G_then; [by apply G_deferred, Forall_delete|]. apply G_then; [apply G_event|].
    eapply G_destroy, deferred_bp. by eapply Forall_lookup_1 in Hds.
  - eapply gives_bind; [apply G_get_watch|]. intros ws Hws.
    destruct (ws !! i) as [w|] eqn:E; [|by apply gives_ret]. apply gives_when. intros _.
    apply G_then; [by apply G_watch, Forall_delete|].
    eapply G_destroy, hardware_bp. by eapply Forall_lookup_1 in Hws.
  - apply gives_when. intros _. apply G_then; [apply G_update_id|].
    eapply gives_bind; [apply G_map|]. intros m Hm. destruct (m !! b_addr b) as [b'|] eqn:E; [|by apply gives_ret].
    apply G_then; [apply G_update; intros; by apply map_ok_delete|].
    apply G_then; [apply G_event|]. eapply G_destroy, entry_bp. by apply Hm.
Qed.

Lemma G_activate i adj loaded ctx g : G_ok g →
  (∀ b, deferred g !! i = Some b → A (b_addr b + adj)) →
  G_ok (activate proc step_until_safe i adj loaded ctx g).2.
Proof.
  intros Hg Hin. unfold activate. erewrite bind_ret by reflexivity.
  destruct (deferred g !! i) as [b|] eqn:E; [|done]. specialize (Hin b eq_refl).
  assert (is_deferred b = true) as Hd.
  { destruct Hg as [[_ H2 _] _]. by eapply Forall_lookup_1 in H2. }
  match goal with |- G_ok (?m g).2 => cut (gives m G_ok (λ _, True)); [intros Hm; by apply (Hm g)|] end.
  apply G_then.
  - apply gives_for_each. intros a _. apply G_then; [by apply G_set | by apply gives_ret].
  - apply gives_when. intros _. apply G_then; [|apply G_erase]. apply gives_modify.
    intros g1 [[H1 H2 H3] HP]. split; [split; try done|done]. by apply Forall_insert.
Qed.

(** ** Sequences of operations *)

(** What the engine and the user do with a manager; the last two switch a breakpoint of a
    container on and off. *)
Inductive mgr_op : Type :=
| OpCreated (t : Z)
| OpUnmanage (t : Z)
| OpSet (runnable : option Z) (ty : BType) (a : Z) (act : option action) (defer : bool) (ctx : option Z)
| OpWatch (t : Z) (ty : WatchType) (global : bool) (a : Z) (act : option action) (ctx : option Z)
| OpRemove (pid lwpid a : Z) (name : option string)
| OpErase (r : bref)
| OpActivate (i : nat) (adjustment : Z) (is_loaded : bool) (ctx : option Z)
| OpEnable (r : mapref) (a : Z)
| OpDisable (r : mapref) (a : Z).

Definition switch (r : mapref) (a : Z) (m : eff (bpoint * machine K) Z) : eff (manager K) unit :=
  bs ← gets (map_of r);
  match bs !! a with
  | Some b => in_map r a b m;; mret tt
  | None => mret tt
  end.

Definition run_mgr_op (op : mgr_op) : eff (manager K) unit :=
  match op with
  | OpCreated t => on_thread_created proc t;; mret tt
  | OpUnmanage t => on_thread_unmanage proc step_until_safe t
  | OpSet x ty a act defer ctx => set_breakpoint proc step_until_safe x ty a act defer ctx;; mret tt
  | OpWatch t ty global a act ctx =>
      set_watchpoint frames stack_start current_function t ty global a act ctx;; mret tt
  | OpRemove pid lwpid a name => remove_breakpoint_actions proc step_until_safe pid lwpid a name;; mret tt
  | OpErase r => erase proc step_until_safe r
  | OpActivate i adj loaded ctx => activate proc step_until_safe i adj loaded ctx
  | OpEnable r a => switch r a (enable proc step_until_safe)
  | OpDisable r a => switch r a (disable proc step_until_safe)
  end.

(** Breakpoints are only requested at allowed addresses. *)
Definition op_in (op : mgr_op) (g : manager K) : Prop :=
  match op with
  | OpSet _ _ a _ defer _ => defer = false → A a
  | OpActivate i adj _ _ => ∀ b, deferred g !! i = Some b → A (b_addr b + adj)
  | _ => True
  end.

(** The operations one after the other, whatever they throw. *)
Fixpoint run_mgr (ops : list mgr_op) (g : manager K) : manager K :=
  match ops with
  | [] => g
  | op :: ops => run_mgr ops (run_mgr_op op g).2
  end.

Fixpoint all_in (ops : list mgr_op) (g : manager K) : Prop :=
  match ops with
  | [] => True
  | op :: ops => op_in op g ∧ all_in ops (run_mgr_op op g).2
  end.

Lemma G_switch r a (m : eff (bpoint * machine K) Z) :
  (∀ c, A a → keeps m (obj_ok A M a c)) → gives (switch r a m) G_ok (λ _, True).
Proof.
  intros Hm. unfold switch. eapply gives_bind; [apply G_map|]. intros bs Hbs.
  destruct (bs !! a) as [b|] eqn:E; [|by apply gives_ret]. specialize (Hbs a b E).
  eapply gives_bind; [apply G_in_map; [done|]; apply Hm, Hbs|]. intros; by apply gives_ret.
Qed.

Lemma G_op op g : G_ok g → op_in op g → G_ok (run_mgr_op op g).2.
Proof.
  intros Hg Hin. destruct op; cbn [run_mgr_op op_in] in *;
    try (by eapply G_activate);
    match goal with |- G_ok (?m g).2 => cut (gives m G_ok (λ _, True)); [intros Hm; by apply (Hm g)|] end;
    try (apply G_then; [|by apply gives_ret]);
    eauto using G_created, G_unmanage, G_set, G_set_watch, G_remove_breakpoint, G_erase.
  - apply G_switch. intros c Ha. by eapply enable_keeps.
  - apply G_switch. intros c Ha. by eapply disable_keeps.
Qed.

Lemma G_run ops : ∀ g, G_ok g → all_in ops g → G_ok (run_mgr ops g).
Proof.
  induction ops as [|op ops IH]; intros g Hg Hin; [done|]. destruct Hin as [H1 H2].
  apply IH; [by apply G_op | done].
Qed.

Lemma G_new k d hw : M (mk_machine k ∅ d) → G_ok (new_manager k d hw).
Proof.
  intros Hk. split; [split|exact Hk]; try done.
  intros [|t]; cbn; rewrite ?lookup_empty; apply map_ok_empty.
Qed.

(** ** Breakpoints of a forked process *)

(** The breakpoints of a process: first the software ones. *)
Lemma enum_all (g : manager K) :
  enum_breakpoints None 0 None g
  = (map_to_list (globalBreakPoints g)).*2
    ++ ((map_to_list (perThreadBreakPoints g)).*2 ≫= λ m, (map_to_list m).*2) ++ deferred g.
Proof.
  assert (∀ {X} (l : list X), List.filter (λ _, true) l = l) as Hf.
  { intros X l. induction l; cbn; congruence. }
  assert (∀ m, enum_map 0 None m = (map_to_list m).*2) as Hm by (intros m; apply Hf).
  unfold enum_breakpoints. rewrite orb_true_r. unfold breakpoint_matches. cbn [andb orb Z.eqb Pos.eqb].
  rewrite Hf, Hm, <- app_assoc. do 2 f_equal. by apply list_bind_ext.
Qed.

Lemma map_values r m b : map_ok r m → b ∈ (map_to_list m).*2 → entry_ok r (b_addr b) b.
Proof.
  intros Hm ([a b'] & -> & Hb%elem_of_map_to_list)%list_elem_of_fmap. cbn.
  pose proof (Hm _ _ Hb) as He. by rewrite (proj1 He).
Qed.

(** The breakpoints of the threads. *)
Lemma thread_values (g : manager K) b : containers_ok g →
  b ∈ ((map_to_list (perThreadBreakPoints g)).*2 ≫= λ m, (map_to_list m).*2) →
  ∃ t, entry_ok (PerThread t) (b_addr b) b.
Proof.
  intros [Hmaps _ _] (m & Hb1 & ([t m'] & -> & Hm%elem_of_map_to_list)%list_elem_of_fmap)%list_elem_of_bind.
  exists t. eapply map_values; [|done]. specialize (Hmaps (PerThread t)). unfold map_of in Hmaps.
  by rewrite Hm in Hmaps.
Qed.

Lemma clone_fits th b r : entry_ok r (b_addr b) b →
  gives (clone proc step_until_safe th b) G_ok (entry_ok (map_ref (p_pid proc) (type b)) (b_addr b)).
Proof.
  intros (_ & Ha & Hf). unfold clone, type, fits in *.
  destruct (b_class b) as [| |rg gl c l|ty] eqn:Ec; try by apply gives_ret.
  - assert (entry_ok (PerThread (p_pid proc)) (b_addr b) (set_actions (b_actions b) (new_emulated th (b_addr b))))
      as He by done.
    destruct (is_enabled b); [|by apply gives_ret].
    eapply gives_bind; [apply G_enable; by eapply entry_bp|]. intros [c' n] [H1 H2]. cbn in H1, H2.
    apply gives_ret. split_and!; [done | done | unfold fits; by rewrite H2].
  - by destruct r.
Qed.

Lemma G_clone b r : entry_ok r (b_addr b) b →
  gives (clone_breakpoint proc step_until_safe b) G_ok (λ _, True).
Proof.
  intros Hb. unfold clone_breakpoint. destruct (main_thread proc) as [th|]; [|by apply gives_ret].
  eapply gives_bind; [by eapply clone_fits|]. intros c Hc.
  eapply gives_bind; [apply G_gets|]. intros m _. rewrite (proj1 Hc).
  destruct (m !! b_addr b); [apply G_destroy; by eapply entry_bp | by apply G_insert].
Qed.

Lemma G_replicate (parent : manager K) g : containers_ok parent → deferred parent = [] →
  G_ok g → M (mk_machine (kernel (mach g)) (physical (mach parent)) (dregs (mach g))) →
  G_ok (replicate_breakpoints proc step_until_safe parent g).2.
Proof.
  intros Hc Hd [Hg _] HM'. unfold replicate_breakpoints. erewrite bind_ret by reflexivity.
  rewrite enum_all, Hd, app_nil_r.
  match goal with |- G_ok (?m ?s).2 => cut (gives m G_ok (λ _, True)); [intros Hm; apply (Hm s)|] end.
  - split; [|exact HM']. destruct Hg as [H1 H2 H3]. split; [|exact H2|exact H3]. intros [|t]; apply (H1 Global) || apply (H1 (PerThread t)).
  - apply gives_for_each. intros b [Hb|Hb]%elem_of_app.
    + eapply G_clone, map_values; [apply (ok_maps _ Hc Global) | done].
    + destruct (thread_values _ _ Hc Hb) as [t Ht]. by eapply G_clone.
Qed.
End Invariant.

Section Claims.
  Context {K : Type} `{PtraceLaws K} (orig : Z → Z) (A : Z → Prop).
  Context (proc : process_info) (step_until_safe : Z → Z → eff K bool).
  Context (frames : Z → list (option Z)) (stack_start : Z → Z) (current_function : Z → option Z).

(** C26: breakpoints are transparent. Let the addresses at which breakpoints are requested be a
    word apart, and let stepping a thread out of the way not change the code. Then whatever
    the engine does with the manager of a process, in any order and whatever system calls
    fail, the memory of the debuggee is the original one except for the opcode at the
    addresses of the physical breakpoints that are marked as enabled. *)
Theorem breakpoints_transparent k d hw ops :
  spaced orig A → (∀ t a k b, memory (step_until_safe t a k).2 b = memory k b) →
  (∀ b, memory k b = orig b) →
  all_in A proc step_until_safe frames stack_start current_function ops (new_manager k d hw) →
  let g := run_mgr proc step_until_safe frames stack_start current_function ops (new_manager k d hw) in
  ∀ b, memory (kernel (mach g)) b = if patched_at (mach g) b then x86_BREAK_OPCODE else orig b.
Proof.
  intros Hs Hstep Hk Hin g.
  destruct (G_run A proc step_until_safe _ (Patched_inv orig A Hs proc step_until_safe Hstep)
    frames stack_start current_function ops (new_manager k d hw)) as [_ [HP _]]; [by apply G_new | done | done].
Qed.

(** The containers of a manager hold what they are for. *)
Definition typed (g : manager K) : Prop :=
  (∀ r a b, map_of r g !! a = Some b → b_addr b = a ∧ fits r b)
  ∧ Forall (λ b, is_deferred b = true) (deferred g)
  ∧ Forall (λ w, is_hardware (w_bpoint w)) (watchPoints g).

(** No condition on the addresses and none on the machine. *)
Lemma anything_inv : machine_inv (λ _, True) proc step_until_safe (λ _ : machine K, True).
Proof. by split. Qed.

Lemma typed_ok g : typed g ↔ G_ok (λ _, True) (λ _ : machine K, True) g.
Proof.
  unfold typed. split.
  - intros (H1 & H2 & H3). split; [split|]; try done. intros r a b Hb. by destruct (H1 r a b Hb).
  - intros [[H1 H2 H3] _]. split_and!; try done. intros r a b Hb. by destruct (H1 r a b Hb) as (? & _ & ?).
Qed.

Lemma all_allowed ops : ∀ g : manager K,
  all_in (λ _, True) proc step_until_safe frames stack_start current_function ops g.
Proof. induction ops as [|op ops IH]; intros g; [done|]. split; [by destruct op | apply IH]. Qed.

(** C27: the containers of the manager are typed: the global map holds software breakpoints
    only, the map of a thread emulated and hardware breakpoints only, each one under its own
    address, the list of deferred breakpoints holds deferred ones and the list of watchpoints
    hardware breakpoints. A new manager is typed; every sequence of operations, with any
    addresses and whatever fails, keeps a manager typed; and so does replicating the
    breakpoints of a typed parent that has no deferred ones, which is what a manager for a
    forked process starts with. *)
Theorem containers_typed ops (g parent : manager K) :
  typed g →
  typed (run_mgr proc step_until_safe frames stack_start current_function ops g)
  ∧ (∀ k d hw, typed (new_manager k d hw))
  ∧ (typed parent → deferred parent = [] → typed (replicate_breakpoints proc step_until_safe parent g).2).
Proof.
  setoid_rewrite typed_ok. intros Hg. split_and!.
  - apply G_run; [apply anything_inv | done | apply all_allowed].
  - intros k d hw. by apply G_new.
  - intros [Hp _] Hd. apply G_replicate; [apply anything_inv | done..].
Qed.
End Claims.

(** ** Setting and removing *)

Section SetRemove.
Context {K : Type} `{PtraceLaws K} (orig : Z → Z) (A : Z → Prop) (Hspaced : spaced orig A).
Variables (proc : process_info) (step_until_safe : Z → Z → eff K bool).

(** A breakpoint that patches code, owned by a thread that runs and can be traced. *)
Definition usable (b : bpoint) (s : machine K) : Prop :=
  patches (b_class b) = true ∧ thread_finished proc (b_thread b) = false ∧ A (b_addr b)
  ∧ traceable (kernel s) (b_thread b) ∧ mapped (kernel s) (b_addr b).

Lemma do_enable_ok b s on : usable b s → Patched orig A s →
  ∃ s', do_enable proc step_until_safe on (b, s) = (Ret true, (b, s')) ∧ Patched orig A s'
    ∧ patched_at s' (b_addr b) = on ∧ elsewhere (b_addr b) s s'.
Proof.
  intros (Hc & Hf & Ha & Ht & Hma) HP.
  destruct (enable_software_ok orig A Hspaced proc (b_thread b) (b_addr b) on s HP Ha Ht Hma)
    as (s' & E & HP' & Hon & He).
  exists s'. split_and!; try done. unfold do_enable. erewrite bind_ret by reflexivity. cbn [fst].
  assert (do_enable_software proc step_until_safe on (b, s) = (Ret true, (b, s'))) as Ed.
  { unfold do_enable_software. erewrite bind_ret by reflexivity. cbn [fst]. rewrite Hf. cbn [when].
    erewrite bind_ret by reflexivity. unfold on_machine, zoom. cbn [fst snd]. by rewrite E. }
  destruct (b_class b); done.
Qed.

Lemma enable_ok b s : usable b s → Patched orig A s → b_enable b = 0 →
  ∃ s', enable proc step_until_safe (b, s) = (Ret 1, (set_enable 1 b, s')) ∧ Patched orig A s'
    ∧ patched_at s' (b_addr b) = true ∧ elsewhere (b_addr b) s s'.
Proof.
  intros Hu HP Hn. destruct (do_enable_ok (set_enable 1 b) s true Hu HP) as (s' & E & Hr).
  exists s'. split; [|exact Hr]. unfold enable. erewrite bind_ret by reflexivity. cbn [fst]. rewrite Hn.
  erewrite bind_ret; [reflexivity|]. unfold restoring. erewrite bind_ret by reflexivity. cbn [Z.eqb].
  change (0 + 1) with 1. cbn [fst snd]. by rewrite E.
Qed.

Lemma disable_ok b s : usable b s → Patched orig A s → b_enable b = 1 →
  ∃ s', disable proc step_until_safe (b, s) = (Ret 0, (set_enable 0 b, s')) ∧ Patched orig A s'
    ∧ patched_at s' (b_addr b) = false ∧ elsewhere (b_addr b) s s'.
Proof.
  intros Hu HP Hn. destruct (do_enable_ok (set_enable 0 b) s false Hu HP) as (s' & E & Hr).
  exists s'. split; [|exact Hr]. unfold disable. erewrite bind_ret by reflexivity. cbn [fst]. rewrite Hn.
  erewrite bind_ret; [reflexivity|]. unfold restoring. erewrite bind_ret by reflexivity.
  change (1 =? 1) with true. change (1 - 1) with 0. cbn [fst snd]. by rewrite E.
Qed.

(** A thread at which the manager accepts software breakpoints. *)
Definition accepts (t : Z) : Prop :=
  is_live proc t = true ∧ thread_is_attached proc t = true ∧ thread_in_process proc t = true
  ∧ thread_finished proc t = false.

Definition with_mach (s : machine K) (g : manager K) : manager K :=
  (on_mach (modify (λ _, s)) g).2.

Lemma check_contract_ok t (g : manager K) : accepts t → check_contract proc t SOFTWARE g = (Ret tt, g).
Proof. intros (Hl & Ha & Hp & _). unfold check_contract. by rewrite Hl, Ha, Hp. Qed.

(** A new software breakpoint: its state and what it leaves alone. *)
Lemma create_software_ok t a g : accepts t → A a → traceable (kernel (mach g)) t →
  mapped (kernel (mach g)) a → Patched orig A (mach g) →
  ∃ s, create_breakpoint proc step_until_safe t SOFTWARE a g
      = (Ret (set_enable 1 (new_software t a)), with_mach s g)
    ∧ Patched orig A s ∧ patched_at s a = true ∧ elsewhere a (mach g) s.
Proof.
  intros (Hl & Ha & Hp & Hf) HA Ht Hm HP.
  destruct (enable_ok (new_software t a) (mach g)) as (s & E & Hr); [by split_and!|done|done|].
  exists s. split; [|exact Hr]. unfold create_breakpoint. erewrite bind_ret by reflexivity.
  change (bool_decide (SOFTWARE = HARDWARE)) with false. cbn [andb]. erewrite bind_ret by reflexivity.
  change (bool_decide (SOFTWARE = SOFTWARE)) with true. cbv beta iota.
  erewrite bind_ret; [|unfold with_bpoint; rewrite E; reflexivity]. reflexivity.
Qed.

Lemma set_software_ok t a x c g : accepts t → A a → traceable (kernel (mach g)) t →
  mapped (kernel (mach g)) a → Patched orig A (mach g) →
  globalBreakPoints g !! a = None → find_deferred t SOFTWARE a g = None →
  let b := add_action_opt (Some x) c (set_enable 1 (new_software t a)) in
  ∃ s, set_breakpoint proc step_until_safe (Some t) SOFTWARE a (Some x) false c g
      = (Ret b, mk_manager s (perThreadBreakPoints g) (<[a := b]> (globalBreakPoints g))
                  (watchPoints g) (deferred g) (useHardware g) (events g ++ [Inserted b]))
    ∧ Patched orig A s ∧ patched_at s a = true ∧ elsewhere a (mach g) s.
Proof.
  intros Hacc HA Ht Hm HP Hnew Hdef b.
  destruct (create_software_ok t a g Hacc HA Ht Hm HP) as (s & E & Hr).
  exists s. split; [|exact Hr]. unfold set_breakpoint.
  erewrite bind_ret by (by apply check_contract_ok).
  erewrite (bind_ret (find_breakpoint t SOFTWARE a) _ g None g).
  2:{ unfold find_breakpoint, map_ref. change (bool_decide (SOFTWARE = SOFTWARE)) with true. destruct g; cbn in *.
      erewrite bind_ret by reflexivity. unfold gets. cbn. by rewrite Hnew. }
  erewrite bind_ret by reflexivity. rewrite Hdef.
  erewrite bind_ret by exact E. unfold map_ref. change (bool_decide (SOFTWARE = SOFTWARE)) with true.
  erewrite bind_ret by reflexivity. erewrite bind_ret by reflexivity. reflexivity.
Qed.

(** Destroying a software breakpoint that is already disabled leaves the code alone. *)
Lemma destroy_disabled_ok b (g : manager K) : b_class b = SoftwareBreakPoint → b_enable b = 0 →
  destroy_bpoint proc step_until_safe b g = (Ret tt, g).
Proof.
  intros Hc Hn.
  assert (disable proc step_until_safe (b, mach g) = (Ret (-1), (set_enable (-1) b, mach g))) as E.
  { unfold disable. erewrite bind_ret by reflexivity. cbn [fst]. rewrite Hn.
    erewrite bind_ret; reflexivity. }
  unfold destroy_bpoint. erewrite bind_ret; [reflexivity|].
  unfold with_bpoint, destroy. erewrite bind_ret by reflexivity. cbn [fst]. rewrite Hc.
  unfold catch. erewrite bind_ret by exact E. by destruct g.
Qed.

(** The only action of a software breakpoint is removed: so is the breakpoint. *)
Lemma remove_software_ok a b g : globalBreakPoints g !! a = Some b → b_addr b = a →
  b_class b = SoftwareBreakPoint → b_enable b = 1 → usable b (mach g) → Patched orig A (mach g) →
  ∃ s, remove_actions_at proc step_until_safe Global None a g
      = (Ret (Z.of_nat (length (b_actions b))),
         mk_manager s (perThreadBreakPoints g) (delete a (globalBreakPoints g)) (watchPoints g)
           (deferred g) (useHardware g) (events g ++ [Removed (set_enable 0 (set_actions [] b))]))
    ∧ Patched orig A s ∧ patched_at s a = false ∧ elsewhere a (mach g) s.
Proof.
  intros Hb Ha Hc Hn Hu HP.
  assert (BreakPoint.remove_actions None b = (set_actions [] b, Z.of_nat (length (b_actions b)))) as Er.
  { unfold BreakPoint.remove_actions, enum_actions. f_equal.
    - f_equal. by induction (b_actions b).
    - f_equal. induction (b_actions b) as [|y l IH]; [done|]. cbn. by rewrite IH. }
  destruct (disable_ok (set_actions [] b) (mach g) Hu HP Hn) as (s & E & Hr).
  cbn [b_addr set_actions] in Hr. rewrite Ha in Hr. exists s. split; [|exact Hr]. unfold remove_actions_at.
  erewrite bind_ret by reflexivity. cbn [map_of]. rewrite Hb, Er.
  erewrite bind_ret by reflexivity. erewrite bind_ret; [reflexivity|].
  cbn [length b_actions set_actions Nat.eqb].
  erewrite bind_ret; [|unfold in_map; cbn [mach set_maps]; rewrite E; reflexivity].
  cbv beta iota. erewrite bind_ret by reflexivity. erewrite bind_ret by reflexivity.
  rewrite destroy_disabled_ok by done.
  transitivity (Ret tt, mk_manager s (perThreadBreakPoints g)
    (delete a (<[a := set_enable 0 (set_actions [] b)]> (<[a := set_actions [] b]> (globalBreakPoints g))))
    (watchPoints g) (deferred g) (useHardware g) (events g ++ [Removed (set_enable 0 (set_actions [] b))]));
    [reflexivity|]. by rewrite insert_insert_eq, delete_insert_eq.
Qed.

(** Nothing patched at [a] before and after, and nothing else touched: the same code. *)
Lemma same_memory a s1 s2 s3 : Patched orig A s1 → Patched orig A s3 → patched_at s1 a = false →
  patched_at s3 a = false → elsewhere a s1 s2 → elsewhere a s2 s3 →
  ∀ b, memory (kernel s3) b = memory (kernel s1) b.
Proof.
  intros [H1 _] [H3 _] E1 E3 E12 E23 b. rewrite H1, H3.
  destruct (elsewhere_trans a _ _ _ E12 E23) as [Hp _].
  destruct (decide (b = a)) as [->|Hb]; [by rewrite E1, E3|].
  unfold patched_at. by rewrite Hp.
Qed.
End SetRemove.

Section Claims2.
  Context {K : Type} `{PtraceLaws K} (orig : Z → Z) (A : Z → Prop).
  Context (proc : process_info) (step_until_safe : Z → Z → eff K bool).
  Context (frames : Z → list (option Z)) (stack_start : Z → Z) (current_function : Z → option Z).

(** A physical breakpoint does not count its users. When a global breakpoint and the
    breakpoint of a thread share an address and both are enabled, disabling the global one
    takes the opcode out of the code, while the breakpoint of the thread stays in its
    container as an enabled one. *)
Theorem shared_breakpoint_lost g a t b1 b2 :
  spaced orig A → Patched orig A (mach g) → map_of Global g !! a = Some b1 →
  map_of (PerThread t) g !! a = Some b2 → is_enabled b2 = true →
  b_addr b1 = a → b_enable b1 = 1 → usable A proc b1 (mach g) →
  ∃ g', run_mgr_op proc step_until_safe frames stack_start current_function (OpDisable Global a) g = (Ret tt, g')
    ∧ memory (kernel (mach g')) a = orig a
    ∧ map_of (PerThread t) g' !! a = Some b2 ∧ is_enabled b2 = true.
Proof.
  intros Hs HP H1 H2 He Hb Hn Hu.
  destruct (disable_ok orig A Hs proc step_until_safe b1 (mach g) Hu HP Hn) as (s' & E & HP' & Hoff & _).
  cbn [run_mgr_op]. unfold switch. erewrite bind_ret by reflexivity. rewrite H1. eexists. split_and!.
  - erewrite bind_ret; [reflexivity|]. unfold in_map. rewrite E. reflexivity.
  - cbn. rewrite (proj1 HP'). rewrite <- Hb at 1. by rewrite Hoff.
  - exact H2.
  - exact He.
Qed.

End Claims2.

(** ** A process with two threads *)

Module Sample.
(** A function at 0x1000 and another one at 0x1010. *)
Definition code : list (Z * Z) := [(0x1000, 0x55); (0x1001, 0x48); (0x1002, 0x89); (0x1010, 0xC3)].
Definition kernel0 : sim := mk_sim (list_to_map code) {[1; 2]} ∅.
Definition process : process_info :=
  mk_process 1 (Some 1) [1; 2] (λ _, 1) (λ _, true) (λ _, true) (λ _, false).
Definition step (t a : Z) : eff sim bool := mret false.
Definition no_frames (t : Z) : list (option Z) := [].
Definition start (t : Z) : Z := 0.
Definition no_function (t : Z) : option Z := None.

Definition allowed (a : Z) : Prop := a = 0x1000 ∨ a = 0x1010.
Definition act (id : Z) : action := mk_action id "user" 0.

Definition run := run_mgr process step no_frames start no_function.
Definition ops : list mgr_op :=
  [OpCreated 1; OpCreated 2;
   OpSet (Some 1) SOFTWARE 0x1000 (Some (act 1)) false None;
   OpSet (Some 2) EMULATED 0x1010 (Some (act 2)) false None;
   OpSet None SOFTWARE 0x2000 (Some (act 3)) true None;
   OpWatch 1 WATCH_WRITE false 0x3000 None None;
   OpDisable Global 0x1000; OpEnable Global 0x1000;
   OpRemove 0 2 0x1010 None].

Definition manager0 : manager sim := new_manager kernel0 ∅ true.

Lemma allowed_spaced : spaced (sim_byte kernel0) allowed.
Proof.
  split_and!.
  - unfold allowed, WORD. lia.
  - intros a [-> | ->]; vm_compute; discriminate.
  - intros a. apply Z.mod_pos_bound. lia.
Qed.

Lemma ops_in : all_in allowed process step no_frames start no_function ops manager0.
Proof. unfold ops. cbn [all_in op_in]. unfold allowed. split_and!; auto; discriminate. Qed.
End Sample.

Lemma breakpoints_transparent_witness :
  let g := Sample.run Sample.ops Sample.manager0 in
  patched_at (mach g) 0x1000 = true ∧ patched_at (mach g) 0x1010 = false
  ∧ ∀ b, memory (kernel (mach g)) b
    = if patched_at (mach g) b then x86_BREAK_OPCODE else sim_byte Sample.kernel0 b.
Proof.
  split; [vm_compute; reflexivity|]. split; [vm_compute; reflexivity|].
  apply (breakpoints_transparent (K := sim) (sim_byte Sample.kernel0) Sample.allowed Sample.process Sample.step
    Sample.no_frames Sample.start Sample.no_function Sample.kernel0 ∅ true Sample.ops);
    [exact Sample.allowed_spaced | reflexivity | reflexivity | exact Sample.ops_in].
Defined.

Lemma Sample_typed : typed Sample.manager0.
Proof.
  split_and!; [|constructor..].
  intros [|t] a b Hb; cbn [map_of] in Hb; rewrite ?lookup_empty in Hb; discriminate.
Qed.

Lemma containers_typed_witness :
  let g := Sample.run Sample.ops Sample.manager0 in
  (length (map_to_list (globalBreakPoints g)), length (deferred g), length (watchPoints g)) = (1, 1, 1)%nat
  ∧ typed g.
Proof.
  split; [vm_compute; reflexivity|]. unfold Sample.run.
  exact (proj1 (containers_typed (K := sim) Sample.process Sample.step Sample.no_frames Sample.start
    Sample.no_function Sample.ops Sample.manager0 Sample.manager0 Sample_typed)).
Defined.

(** Both threads have a breakpoint at 0x1000, the first one for the whole process. *)
Definition Sample_shared : list mgr_op :=
  [OpCreated 1; OpCreated 2;
   OpSet (Some 1) SOFTWARE 0x1000 (Some (Sample.act 1)) false None;
   OpSet (Some 2) EMULATED 0x1000 (Some (Sample.act 2)) false None].

Definition Sample_first : bpoint := mk_bpoint SoftwareBreakPoint 1 0x1000 1 [Sample.act 1] ∅.
Definition Sample_second : bpoint := mk_bpoint EmulatedBreakPoint 2 0x1000 1 [Sample.act 2] ∅.

Lemma Sample_inv : machine_inv (K := sim) Sample.allowed Sample.process Sample.step
  (Patched (sim_byte Sample.kernel0) Sample.allowed).
Proof. exact (Patched_inv (K := sim) _ _ Sample.allowed_spaced Sample.process Sample.step (λ _ _ _ _, eq_refl)). Qed.

Lemma Sample_new : G_ok Sample.allowed (Patched (sim_byte Sample.kernel0) Sample.allowed) Sample.manager0.
Proof. apply G_new. done. Qed.

Lemma Sample_patched ops :
  all_in Sample.allowed Sample.process Sample.step Sample.no_frames Sample.start Sample.no_function ops
    Sample.manager0 →
  Patched (sim_byte Sample.kernel0) Sample.allowed (mach (Sample.run ops Sample.manager0)).
Proof.
  intros Hin. apply (G_run (K := sim) Sample.allowed Sample.process Sample.step _ Sample_inv
    Sample.no_frames Sample.start Sample.no_function ops Sample.manager0 Sample_new Hin).
Qed.

Lemma shared_breakpoint_lost_witness :
  let g := Sample.run Sample_shared Sample.manager0 in
  patched_at (mach g) 0x1000 = true
  ∧ ∃ g' b2, run_mgr_op Sample.process Sample.step Sample.no_frames Sample.start Sample.no_function
      (OpDisable Global 0x1000) g = (Ret tt, g')
    ∧ memory (kernel (mach g')) 0x1000 = 0x55
    ∧ map_of (PerThread 2) g' !! 0x1000 = Some b2 ∧ is_enabled b2 = true.
Proof.
  split; [vm_compute; reflexivity|].
  set (g := Sample.run Sample_shared Sample.manager0).
  assert (Patched (sim_byte Sample.kernel0) Sample.allowed (mach g)) as HP.
  { apply Sample_patched. unfold Sample_shared. cbn [all_in op_in]. unfold Sample.allowed.
    split_and!; auto; discriminate. }
  assert (map_of Global g !! 0x1000 = Some Sample_first) as H1 by (vm_compute; reflexivity).
  assert (map_of (PerThread 2) g !! 0x1000 = Some Sample_second) as H2 by (vm_compute; reflexivity).
  assert (usable Sample.allowed Sample.process Sample_first (mach g)) as Hu.
  { split_and!; [reflexivity | reflexivity | by left | |exact I].
    apply (bool_decide_eq_true_1 (1 ∈ sim_threads (kernel (mach g)))). vm_compute; reflexivity. }
  destruct (shared_breakpoint_lost (K := sim) (sim_byte Sample.kernel0) Sample.allowed Sample.process
    Sample.step Sample.no_frames Sample.start Sample.no_function g 0x1000 2 Sample_first Sample_second
    Sample.allowed_spaced HP H1 H2 eq_refl eq_refl eq_refl Hu) as (g' & E & Hm & H3 & He).
  exists g', Sample_second. split_and!; [exact E | exact Hm | exact H3 | exact He].
Defined.

