(* ===== verification/BreakPointGrp.v ===== *)
(** * Groups of breakpoint managers ([engine/breakpoint_grp.cpp])

    One manager for each process that is debugged. Every process has a memory of its own, so
    each manager has its own debuggee; a forked process starts with a copy of the memory of
    its parent, breakpoints included. A manager that leaves the group leaves with its
    debuggee; what the destructors of its breakpoints still do to it is not looked at. *)
From stdpp Require Import strings.
From S2P Require Import Effects Target DebugRegs BreakPoint BreakPointMgr.

Record group (K : Type) : Type := mk_group {
  members : list (Z * manager K);       (* by the pid of the process *)
  grp_useHardware : bool
}.
Arguments mk_group {K}.
Arguments members {K}.
Arguments grp_useHardware {K}.

Section Group.
Context {K : Type} `{Ptrace K}.
Variables (proc_of : Z → process_info) (step_until_safe : Z → Z → eff K bool).
Variables (frames : Z → list (option Z)) (stack_start : Z → Z) (current_function : Z → option Z).

#[local] Abbreviation Grp := (group K).

Definition set_members (l : list (Z * manager K)) (s : Grp) : Grp := mk_group l (grp_useHardware s).

(** An operation of the manager at an index. *)
Definition on_member {B} (i : nat) (m : eff (manager K) B) : eff Grp B := λ s,
  match members s !! i with
  | Some (pid, g) => let '(r, g) := m g in (r, set_members (<[i := (pid, g)]> (members s)) s)
  | None => (Raise Undefined, s)
  end.

(** The indices of the managers, with the pids of their processes. *)
Definition indices (s : Grp) : list (nat * Z) := imap (λ i p, (i, p.1)) (members s).

Definition find_member (pid : Z) (s : Grp) : option nat :=
  fst <$> list_find (λ p, p.1 = pid) (members s).

(** [get_manager] *)
Definition get_manager (pid : Z) (s : Grp) : option (manager K) :=
  i ← find_member pid s; snd <$> members s !! i.

(** ** Threads *)

(** [replicate_breakpoints] in the manager of a forked process, from the one of its parent. *)
Definition grp_replicate (pid ppid : Z) (g : manager K) : eff Grp (manager K) := λ s,
  match get_manager ppid s with
  | Some parent =>
      match replicate_breakpoints (proc_of pid) step_until_safe parent g with
      | (Ret _, g) => (Ret g, s)
      | (Raise e, _) => (Raise e, s)
      end
  | None => (Raise RuntimeError, s)
  end.

(** The loop that notifies the managers until one of them handles the thread. *)
Fixpoint notify_created (t : Z) (l : list (nat * Z)) : eff Grp bool :=
  match l with
  | [] => mret false
  | (i, pid) :: l =>
      handled ← on_member i (on_thread_created (proc_of pid) t);
      if (handled : bool) then mret true else notify_created t l
  end.

(** [on_thread_created]; [forked] is the debuggee of a forked process, with its debug
    registers, and the pid of its parent. *)
Definition grp_on_thread_created (t pid : Z) (forked : option (K * gmap Z DebugRegs386 * Z)) : eff Grp bool :=
  if is_live (proc_of pid) t then
    match forked with
    | Some (k, d, ppid) =>
        hw ← gets grp_useHardware;
        match on_thread_created (proc_of pid) t (new_manager k d hw) with
        | (Ret handled, g) =>
            g ← grp_replicate pid ppid g;
            modify (λ s, set_members (members s ++ [(pid, g)]) s);;
            mret handled
        | (Raise e, _) => throw e
        end
    | None => s ← get; notify_created t (indices s)
    end
  else mret false.

(** [BreakPointEnabler(false, ANY)] over the breakpoints of a manager; a deferred one only
    counts down. *)
Definition disable_all (pid : Z) : eff (manager K) unit :=
  g ← get;
  for_each (Global :: (PerThread <$> (map_to_list (perThreadBreakPoints g)).*1)) (λ r,
    for_each (map_to_list (map_of r g)).*2 (λ b,
      in_map r (b_addr b) b (disable (proc_of pid) step_until_safe);; mret tt));;
  modify (λ g, set_deferred ((λ b, set_enable (b_enable b - 1) b) <$> deferred g) g).

(** [on_thread_unmanage]: the manager goes away with the last thread of its process. *)
Fixpoint unmanage_in_members (t pid : Z) (i : nat) (n : nat) : eff Grp unit :=
  match n with
  | O => mret tt
  | S n =>
      s ← get;
      match members s !! i with
      | Some (p, _) =>
          if negb (p =? pid) then unmanage_in_members t pid (S i) n
          else if thread_finished (proc_of pid) t || negb (length (process_threads (proc_of pid)) =? 0)%nat then
            on_member i (on_thread_unmanage (proc_of pid) step_until_safe t);; unmanage_in_members t pid (S i) n
          else
            on_member i (disable_all pid);;
            modify (λ s, set_members (delete i (members s)) s);; unmanage_in_members t pid i n
      | None => mret tt
      end
  end.

Definition grp_on_thread_unmanage (t pid : Z) : eff Grp unit :=
  s ← get;
  when (is_live (proc_of pid) t) (unmanage_in_members t pid 0 (length (members s))).

(** [on_exec]: the manager of the process is replaced by a new one. *)
Definition on_exec (t pid : Z) (k : K) (d : gmap Z DebugRegs386) : eff Grp unit :=
  hw ← gets grp_useHardware;
  let g := (on_thread_created (proc_of pid) t (new_manager k d hw)).2 in
  modify (λ s,
    match find_member pid s with
    | Some i => set_members (<[i := (pid, g)]> (members s)) s
    | None => set_members (members s ++ [(pid, g)]) s
    end).

(** [reset]: the manager of a process is dropped; the number of managers dropped. *)
Definition reset (pid : Z) : eff Grp Z :=
  s ← get;
  match find_member pid s with
  | Some i => modify (set_members (delete i (members s)));; mret 1
  | None => mret 0
  end.

(** ** Breakpoints *)

(** [get_breakpoint(process, addr, owner)]: the first manager that has one. *)
Fixpoint first_breakpoint (pid addr : Z) (owner : option Z) (l : list (Z * manager K)) : option bpoint :=
  match l with
  | [] => None
  | (p, g) :: l =>
      match get_breakpoint (proc_of p) pid addr owner g with
      | Some b => Some b
      | None => first_breakpoint pid addr owner l
      end
  end.

(** The loop of [set_breakpoint]: managers of other processes are skipped, and only software
    breakpoints go on to the next manager. *)
Fixpoint set_in_members (runnable : option Z) (in_process : Z → bool) (t : BType) (addr : Z) (a : option action)
  (defer : bool) (context : option Z) (l : list (nat * Z)) (result : option bpoint) : eff Grp (option bpoint) :=
  match l with
  | [] => mret result
  | (i, pid) :: l =>
      if bool_decide (is_Some runnable) && negb (in_process pid)
      then set_in_members runnable in_process t addr a defer context l result
      else
        b ← on_member i (set_breakpoint (proc_of pid) step_until_safe runnable t addr a defer context);
        if bool_decide (t = SOFTWARE)
        then set_in_members runnable in_process t addr a defer context l (Some b)
        else mret (Some b)
  end.

(** [set_breakpoint]; [sym] is the address of the symbol, if one is given. *)
Definition grp_set_breakpoint (runnable : option (Z * Z)) (t : BType) (addr : Z) (a : option action)
  (defer : bool) (context sym : option Z) : eff Grp (option bpoint) :=
  s ← get;
  set_in_members (fst <$> runnable) (λ pid, match runnable with Some (_, p) => p =? pid | None => true end)
    t (default addr sym) a defer context (indices s) None.

Fixpoint watch_in_members (thread : Z) (t : WatchType) (global : bool) (addr : Z) (a : option action)
  (context : option Z) (l : list (nat * Z)) : eff Grp (option watchpoint) :=
  match l with
  | [] => mret None
  | (i, pid) :: l =>
      w ← on_member i (set_watchpoint frames stack_start current_function thread t global addr a context);
      match w with
      | Some w => mret (Some w)
      | None => watch_in_members thread t global addr a context l
      end
  end.

(** [get_watchpoint]: the first one, with the pid of its process. *)
Fixpoint first_watchpoint (thread addr : Z) (t : WatchType) (l : list (Z * manager K)) : option (Z * watchpoint) :=
  match l with
  | [] => None
  | (p, g) :: l =>
      match (i ← get_watchpoint frames thread addr t g; watchPoints g !! i) with
      | Some w => Some (p, w)
      | None => first_watchpoint thread addr t l
      end
  end.

(** [enum_breakpoints]: the breakpoints that the callback is given. *)
Definition grp_enum_breakpoints (thread : option Z) (addr : Z) (t : option BType) (s : Grp) : list bpoint :=
  members s ≫= λ p, enum_breakpoints thread addr t p.2.

Definition grp_enum_watchpoints (s : Grp) : list watchpoint := members s ≫= λ p, enum_watchpoints p.2.

Fixpoint remove_in_members (pid lwpid addr : Z) (name : option string) (l : list (nat * Z)) : eff Grp Z :=
  match l with
  | [] => mret 0
  | (i, p) :: l =>
      if negb (pid =? 0) && negb (p =? pid) then remove_in_members pid lwpid addr name l
      else
        n ← on_member i (remove_breakpoint_actions (proc_of p) step_until_safe pid lwpid addr name);
        k ← remove_in_members pid lwpid addr name l;
        mret (n + k)
  end.

(** [remove_breakpoint_actions]; the pid 0 stands for all processes. *)
Definition grp_remove_actions (pid lwpid addr : Z) (name : option string) : eff Grp Z :=
  s ← get; remove_in_members pid lwpid addr name (indices s).
End Group.
