(* ===== verification/BreakPointGrpCorrect.v ===== *)
(** * Breakpoints of forked processes

    A forked process has the code of its parent, with the breakpoints that are patched into
    it. The manager that the group makes for it knows them. *)
From stdpp Require Import strings.
From S2P Require Import Effects Target DebugRegs BreakPoint BreakPointMgr BreakPointCorrect BreakPointMgrCorrect.
From S2P Require Import BreakPointGrp.

Lemma for_each_app {S X} (l1 l2 : list X) (body : X → eff S unit) s s1 :
  for_each l1 body s = (Ret tt, s1) → for_each (l1 ++ l2) body s = for_each l2 body s1.
Proof.
  revert s. induction l1 as [|x l1 IH]; intros s; cbn [for_each app]; [by intros [= ->]|].
  unfold mbind at 1 2, eff_bind at 1 2. destruct (body x s) as [[u|e] s2]; [apply IH | discriminate].
Qed.

Section Clone.
Context {K : Type} `{PtraceLaws K}.
Variables (proc : process_info) (step_until_safe : Z → Z → eff K bool).
Variables (th : Z) (Hmain : main_thread proc = Some th).

(** The clone of a software breakpoint. *)
Definition software_clone (b : bpoint) : bpoint :=
  mk_bpoint SoftwareBreakPoint th (b_addr b) (b_enable b) (b_actions b) ∅.

(** A breakpoint whose clone writes to the debuggee. *)
Definition pokes (b : bpoint) : bool :=
  match b_class b with HardwareBreakPoint _ _ _ _ => is_enabled b | _ => false end.

#[local] Abbreviation clone_bp := (clone_breakpoint proc step_until_safe).

(** The software breakpoints are cloned first, and without a system call. *)
Lemma clone_software l : Forall (λ b, b_class b = SoftwareBreakPoint) l → NoDup (b_addr <$> l) →
  ∀ g : manager K, (∀ b, b ∈ l → globalBreakPoints g !! b_addr b = None) →
  ∃ g1, for_each l clone_bp g = (Ret tt, g1) ∧ mach g1 = mach g
  ∧ (∀ a c, globalBreakPoints g !! a = Some c → globalBreakPoints g1 !! a = Some c)
  ∧ (∀ b, b ∈ l → globalBreakPoints g1 !! b_addr b = Some (software_clone b)).
Proof.
  induction 1 as [|x l Hx _ IH]; intros Hnd g Hg; [exists g; split_and!; try done; set_solver|].
  cbn [fmap list_fmap] in Hnd. apply NoDup_cons in Hnd as [Hx1 Hnd].
  pose proof (Hg x ltac:(set_solver)) as Hgx.
  set (g' := set_maps (perThreadBreakPoints g) (<[b_addr x := software_clone x]> (globalBreakPoints g)) g).
  assert (clone_bp x g = (Ret tt, g')) as E.
  { unfold clone_breakpoint. rewrite Hmain. erewrite bind_ret.
    2:{ unfold clone. rewrite Hx. reflexivity. }
    unfold map_ref, type. rewrite Hx. erewrite bind_ret by reflexivity.
    change (bool_decide (SOFTWARE = SOFTWARE)) with true. cbn [b_addr map_of]. by rewrite Hgx. }
  cbn [for_each]. erewrite bind_ret by exact E.
  destruct (IH Hnd g') as (g1 & E1 & Hm & Hk & Hn).
  { intros b Hb. unfold g'. cbn [set_maps globalBreakPoints]. rewrite lookup_insert_ne.
    - apply Hg. set_solver.
    - intros Ea. apply Hx1. rewrite Ea. by apply list_elem_of_fmap_2. }
  cbn [g' set_maps globalBreakPoints mach] in *. exists g1. split_and!; [done | done | |].
  - intros a c Hc. apply Hk. rewrite lookup_insert_ne; [done | congruence].
  - intros b [->|Hb]%elem_of_cons; [apply Hk; by rewrite lookup_insert_eq | by apply Hn].
Qed.

(** ** What the clones of the other breakpoints keep *)

Section Keeps.
Variables (A : Z → Prop) (M : machine K → Prop) (HM : machine_inv A proc step_until_safe M).

Definition forked_ok (m : gmap Z bpoint) (g : manager K) : Prop :=
  M (mach g) ∧ ∀ a c, m !! a = Some c → globalBreakPoints g !! a = Some c.

(** The addresses at which clones may change the code. *)
Definition clonable (b : bpoint) : Prop := is_deferred b = false → A (b_addr b).

Lemma with_forked {B} m b (p : eff (bpoint * machine K) B) : (patches (b_class b) = true → A (b_addr b)) →
  keeps p (obj_ok A M (b_addr b) (b_class b)) →
  gives (with_bpoint b p) (forked_ok m) (λ r, b_addr r.1 = b_addr b ∧ b_class r.1 = b_class b).
Proof.
  intros Hb Hp g [HP Hm]. destruct (Hp (b, mach g)) as (H1 & H2 & _ & HP'); [by split_and!|].
  unfold with_bpoint. destruct (p (b, mach g)) as [[n|x] [e s]]; (split; [|done]); exact (conj HP' Hm).
Qed.

Lemma clone_gives m b : clonable b → gives (clone proc step_until_safe th b) (forked_ok m)
  (λ c, b_addr c = b_addr b ∧ (patches (b_class c) = true → A (b_addr c))).
Proof.
  intros Hb. unfold clone, clonable, is_deferred in *.
  destruct (b_class b) as [| |r gl c l|ty] eqn:Ec; try (apply gives_ret; cbn; auto).
  destruct (is_enabled b); [|apply gives_ret; cbn; auto].
  set (e := set_actions _ _).
  eapply gives_bind; [apply with_forked; [cbn; auto | eapply enable_keeps; [done | cbn; auto]]|].
  intros [c' n] [H1 H2]. apply gives_ret. cbn in *. rewrite H1. auto.
Qed.

Lemma clone_keeps m b : clonable b → gives (clone_bp b) (forked_ok m) (λ _, True).
Proof.
  intros Hb. unfold clone_breakpoint. rewrite Hmain. eapply gives_bind; [by apply clone_gives|].
  intros c [Hc HA]. set (r := map_ref _ _). intros g [HP Hm]. erewrite bind_ret by reflexivity.
  destruct (map_of r g !! b_addr c) as [b'|] eqn:E.
  - unfold destroy_bpoint. assert (gives (with_bpoint c (destroy proc step_until_safe);; mret tt) (forked_ok m)
      (λ _, True)) as Hd; [|by apply Hd].
    eapply gives_bind; [apply with_forked; [done | by eapply destroy_keeps] | intros; by apply gives_ret].
  - split; [|done]. destruct r; (split; [done|]); [|done]. intros a x Hx. cbn in E |- *.
    rewrite lookup_insert_ne; [by apply Hm|]. intros <-. by rewrite (Hm _ _ Hx) in E.
Qed.
End Keeps.

(** ** Errors *)

Context (orig : Z → Z) (A : Z → Prop) (Hspaced : spaced orig A).
Hypothesis step_memory : ∀ t a k b, memory (step_until_safe t a k).2 b = memory k b.
Hypothesis main_runs : thread_finished proc th = false.

#[local] Abbreviation M := (Patched orig A).

(** The destructor of a breakpoint without a debug register throws nothing, unless the
    behaviour of what it calls is undefined. *)
Lemma destroy_catches b s : ¬ is_hardware b →
  (do_enable proc step_until_safe false (set_enable (b_enable b - 1) b, s)).1 ≠ Raise Undefined →
  ∃ w, destroy proc step_until_safe (b, s) = (Ret tt, w).
Proof.
  intros Hb He. unfold destroy. erewrite bind_ret by reflexivity. cbn [fst].
  assert (∃ w, catch (disable proc step_until_safe;; mret tt) (mret tt) (b, s) = (Ret tt, w)) as [w Ew].
  { unfold catch, disable, restoring, on_this, modify, this, gets, mbind, eff_bind, mret, eff_ret.
    cbn [fst snd]. destruct (b_enable b =? 1); [|by eexists].
    destruct (do_enable proc step_until_safe false (set_enable (b_enable b - 1) b, s)) as [[[]|[]] w];
      cbn in *; try done; by eexists. }
  exists w. unfold is_hardware in Hb. by destruct (b_class b).
Qed.

Lemma do_disable_defined b s : patches (b_class b) = true → A (b_addr b) → b_thread b = th → M s →
  (do_enable proc step_until_safe false (b, s)).1 ≠ Raise Undefined.
Proof.
  intros Hc HA Hth HP.
  destruct (enable_software_breakpoint proc th (b_addr b) false s) as [o s1] eqn:E.
  destruct (enable_software_inv orig A Hspaced proc th (b_addr b) false s o s1 HP HA E) as (_ & _ & He).
  assert (do_enable_software proc step_until_safe false (b, s) = (o, (b, s1))) as Ed.
  { unfold do_enable_software. erewrite bind_ret by reflexivity. cbn [fst].
    rewrite Hth, main_runs. cbn [when]. erewrite bind_ret by reflexivity.
    unfold on_machine, zoom. cbn [fst snd]. by rewrite E. }
  unfold do_enable. erewrite bind_ret by reflexivity. cbn [fst].
  destruct (b_class b); try done; rewrite Ed; intros Eo; by specialize (He _ Eo).
Qed.

Lemma clone_returns b (g : manager K) : clonable A b → M (mach g) → pokes b = false →
  ∃ g1, clone_bp b g = (Ret tt, g1).
Proof.
  unfold pokes, clonable, clone_breakpoint. rewrite Hmain. intros HA HP Hb.
  assert (∃ c, clone proc step_until_safe th b g = (Ret c, g) ∧ b_addr c = b_addr b ∧ b_thread c = th
    ∧ (patches (b_class c) = true ∨ is_deferred c = true) ∧ (patches (b_class c) = true → is_deferred b = false))
    as (c & E & Ha & Hth & Hc & Hd).
  { unfold clone, is_deferred. destruct (b_class b); [| | rewrite Hb | ]; eexists; split_and!; try done; eauto. }
  erewrite bind_ret by exact E. erewrite bind_ret by reflexivity.
  destruct (_ !! b_addr c); [|by eexists].
  destruct (destroy_catches c (mach g)) as [[c1 s1] Ew].
  { unfold is_hardware, is_deferred in *. intros Hh. destruct (b_class c); [done | done | by destruct Hc | done]. }
  { destruct Hc as [Hc|Hc].
    - apply do_disable_defined; [done | cbn; rewrite Ha; auto | done..].
    - unfold is_deferred in Hc. unfold do_enable. erewrite bind_ret by reflexivity. cbn [fst b_class set_enable].
      by destruct (b_class c). }
  eexists. unfold destroy_bpoint. erewrite bind_ret; [reflexivity|]. unfold with_bpoint. rewrite Ew. reflexivity.
Qed.

Lemma clones_return m l : Forall (clonable A) l → existsb pokes l = false → ∀ g : manager K,
  forked_ok M m g → ∃ g1, for_each l clone_bp g = (Ret tt, g1).
Proof.
  induction 1 as [|b l Hc Hl IH]; intros Hp g Hg; [by exists g|]. cbn [existsb for_each] in *.
  apply orb_false_iff in Hp as [Hb Hp].
  destruct (clone_returns b g Hc (proj1 Hg) Hb) as [g1 E]. erewrite bind_ret by exact E.
  apply IH; [done|]. destruct (clone_keeps A M (Patched_inv orig A Hspaced proc step_until_safe step_memory) m b Hc g Hg)
    as [Hg1 _]. by rewrite E in Hg1.
Qed.
End Clone.

(** Requests at other addresses leave a physical breakpoint alone. *)
Lemma physical_inv {K} `{PtraceLaws K} proc step_until_safe a p :
  machine_inv (K := K) (λ x, x ≠ a) proc step_until_safe (λ s, physical s !! a = p).
Proof.
  assert (∀ {B} (m : eff K B), keeps (on_kernel m) (λ s, physical s !! a = p)) as Hk.
  { intros B m s Hs. destruct (on_kernel_frame m s) as [E _]. by rewrite E. }
  split; [intros; apply Hk | |].
  - intros t B m _ s Hs. unfold on_dregs, zoom. by destruct (m _).
  - intros t x on Hx.
    assert (∀ q, keeps (put_phys x q) (λ s : machine K, physical s !! a = p)) as Hp.
    { intros q s Hs. cbn. by rewrite lookup_insert_ne. }
    assert (∀ u, keeps (read_orig u x) (λ s : machine K, physical s !! a = p)) as Hr by (unfold read_orig; auto with eff).
    assert (∀ u c, keeps (write_patch u x c on) (λ s : machine K, physical s !! a = p)) as Hw
      by (unfold write_patch; auto 6 with eff).
    unfold enable_software_breakpoint. apply keeps_bind; [apply keeps_gets|intros q].
    apply keeps_bind; [apply Hp|intros _]. apply keeps_bind.
    { destruct (_ =? _); [|apply keeps_ret]. destruct (enabled q); auto with eff. }
    intros _. apply keeps_bind; [apply keeps_gets|intros q1]. apply keeps_bind; [auto with eff|intros _].
    apply keeps_bind; [apply keeps_gets|intros q2]. destruct (_ =? 0); [apply keeps_ret|].
    apply keeps_bind; [auto with eff|intros _]. apply keeps_bind; [apply keeps_gets|intros q3].
    destruct (Bool.eqb _ _); auto with eff.
Qed.

Section Fork.
Context {K : Type} `{PtraceLaws K} (orig : Z → Z) (A : Z → Prop) (Hspaced : spaced orig A).
Variables (proc : process_info) (step_until_safe : Z → Z → eff K bool).
Hypothesis step_memory : ∀ t a k b, memory (step_until_safe t a k).2 b = memory k b.
Variables (th : Z) (Hmain : main_thread proc = Some th) (main_runs : thread_finished proc th = false).

#[local] Abbreviation M := (Patched orig A).
#[local] Abbreviation clone_bp := (clone_breakpoint proc step_until_safe).

Lemma values_addr m : map_ok A Global m →
  b_addr <$> (map_to_list m).*2 = (map_to_list m).*1.
Proof.
  intros Hm. rewrite <- list_fmap_compose. apply list_fmap_ext. intros i [a b] Hi. cbn.
  apply (Hm a b), elem_of_map_to_list. by eapply list_elem_of_lookup_2.
Qed.

(** The breakpoints of a parent that are not software breakpoints. *)
Definition others (g : manager K) : list bpoint :=
  ((map_to_list (perThreadBreakPoints g)).*2 ≫= λ m, (map_to_list m).*2) ++ deferred g.

Lemma others_not_software (g : manager K) b : containers_ok A g → b ∈ others g →
  b_class b ≠ SoftwareBreakPoint ∧ clonable A b.
Proof.
  intros Hc [Hb|Hb]%elem_of_app.
  - destruct (thread_values A g b Hc Hb) as (t & _ & Ha & Hf). unfold fits in Hf. split; [|by intros _].
    by destruct (b_class b).
  - pose proof (ok_deferred _ _ Hc) as Hd. rewrite Forall_forall in Hd. specialize (Hd b Hb).
    split; [unfold is_deferred in Hd; by destruct (b_class b) | intros Hd'; congruence].
Qed.

(** The loop over the software breakpoints. *)
Lemma replicate_software (parent g : manager K) : G_ok A M parent → globalBreakPoints g = ∅ →
  ∃ g1, for_each (map_to_list (globalBreakPoints parent)).*2 clone_bp g = (Ret tt, g1) ∧ mach g1 = mach g
  ∧ ∀ a c, (software_clone th <$> globalBreakPoints parent) !! a = Some c → globalBreakPoints g1 !! a = Some c.
Proof.
  intros [Hc _] Hg. pose proof (ok_maps _ _ Hc Global) as Hgl. cbn [map_of] in Hgl.
  destruct (clone_software proc step_until_safe th Hmain (map_to_list (globalBreakPoints parent)).*2) with (g := g)
    as (g1 & E1 & Hm1 & _ & Hn1).
  - apply Forall_forall. intros b Hb. apply (map_values A Global) in Hb as (_ & _ & Hf); [|done].
    unfold fits in Hf. by destruct (b_class b).
  - rewrite values_addr by done. apply NoDup_fst_map_to_list.
  - intros b _. by rewrite Hg.
  - exists g1. split_and!; [done | done|]. intros a c (b & <- & Hb)%lookup_fmap_Some.
    pose proof (proj1 (Hgl _ _ Hb)) as <-. apply Hn1.
    apply list_elem_of_fmap. exists (b_addr b, b). split; [done|]. by apply elem_of_map_to_list.
Qed.

(** The whole loop, over the breakpoints of a parent. *)
Lemma replicate_ok (parent g : manager K) :
  G_ok A M parent → globalBreakPoints g = ∅ →
  (∀ b, memory (kernel (mach g)) b = memory (kernel (mach parent)) b) →
  ∃ r g1, replicate_breakpoints proc step_until_safe parent g = (r, g1)
  ∧ M (mach g1)
  ∧ (∀ a b, globalBreakPoints parent !! a = Some b → globalBreakPoints g1 !! a = Some (software_clone th b))
  ∧ (∀ a, (∀ b, b ∈ others parent → b_addr b = a → is_deferred b = true) →
       patched_at (mach g1) a = patched_at (mach parent) a)
  ∧ (r = Ret tt ∨ ∃ b, b ∈ others parent ∧ pokes b = true).
Proof.
  intros HG Hg Hmem. pose proof HG as [Hc [HP1 HP2]].
  unfold replicate_breakpoints. erewrite bind_ret by reflexivity. rewrite enum_all. fold (others parent).
  set (g0 := mk_manager _ _ _ _ _ _ _).
  destruct (replicate_software parent g0 HG Hg) as (g1 & E1 & Hm1 & Hn1). erewrite for_each_app by exact E1.
  set (m := software_clone th <$> globalBreakPoints parent) in *.
  assert (Forall (clonable A) (others parent)) as Hcl.
  { apply Forall_forall. intros b Hb. by apply (others_not_software parent). }
  assert (forked_ok M m g1) as Hok.
  { split; [|done]. rewrite Hm1. split; [|done]. intros b. cbn [g0 mach kernel]. rewrite Hmem. apply HP1. }
  pose proof (clones_return proc step_until_safe th Hmain orig A Hspaced step_memory main_runs m _ Hcl) as Hret.
  assert (∀ a, (∀ b, b ∈ others parent → b_addr b = a → is_deferred b = true) →
    patched_at (mach (for_each (others parent) clone_bp g1).2) a = patched_at (mach parent) a) as Hp.
  { intros a Ha. destruct (gives_for_each (others parent) clone_bp
      (forked_ok (λ s, physical s !! a = physical (mach parent) !! a) m)) with (s := g1) as [[Hp _] _].
    - intros b Hb. eapply clone_keeps; [done | apply physical_inv |]. intros Hd Eb.
      rewrite (Ha b Hb Eb) in Hd. discriminate.
    - split; [by rewrite Hm1 | done].
    - unfold patched_at. by rewrite Hp. }
  destruct (gives_for_each (others parent) clone_bp (forked_ok M m)) with (s := g1) as [[HM Hm2] _]; [|done|].
  { intros b Hb. rewrite Forall_forall in Hcl.
    eapply clone_keeps; [done | by apply Patched_inv | by apply Hcl]. }
  destruct (for_each (others parent) clone_bp g1) as [r g2] eqn:E2. cbn [snd] in *.
  exists r, g2. split_and!; [done | done | | done |].
  - intros a b Hb. apply Hm2. unfold m. by rewrite lookup_fmap, Hb.
  - destruct (existsb pokes (others parent)) eqn:Er.
    + apply existsb_exists in Er as (b & Hb%list_elem_of_In & Hpk). right. by exists b.
    + destruct (Hret eq_refl g1 Hok) as [g3 E3]. left. congruence.
Qed.
End Fork.


(** The process of the samples, forked after the sequence of operations of its manager. *)
Definition forked_process (pid : Z) : process_info :=
  if pid =? 9 then mk_process 9 (Some 9) [9] (λ _, 9) (λ _, true) (λ _, true) (λ _, false)
  else Sample.process.

Definition fork_parent : manager sim := Sample.run Sample.ops Sample.manager0.
Definition fork_kernel (parent : manager sim) : sim := mk_sim (sim_memory (kernel (mach parent))) {[9]} ∅.
Definition fork_group (parent : manager sim) : group sim := mk_group [(1, parent)] true.
Definition fork_run (parent : manager sim) : outcome bool * group sim :=
  grp_on_thread_created forked_process Sample.step 9 9 (Some (fork_kernel parent, ∅, 1)) (fork_group parent).

Lemma fork_parent_ok :
  G_ok Sample.allowed (Patched (sim_byte Sample.kernel0) Sample.allowed) fork_parent.
Proof.
  apply (G_run (K := sim) Sample.allowed Sample.process Sample.step _ Sample_inv
    Sample.no_frames Sample.start Sample.no_function Sample.ops Sample.manager0 Sample_new Sample.ops_in).
Qed.

Lemma fork_manager parent : get_manager 1 (fork_group parent) = Some parent.
Proof. reflexivity. Qed.

Lemma fork_memory parent b : memory (fork_kernel parent) b = memory (kernel (mach parent)) b.
Proof. reflexivity. Qed.


(** Two threads of the parent have a breakpoint at the same address. The map of the new
    process has room for one clone; the other one is destroyed and takes the opcode out,
    although the clone in the map counts as enabled. *)
Definition fork_shared : list mgr_op :=
  [OpCreated 1; OpCreated 2;
   OpSet (Some 1) EMULATED 0x1000 (Some (Sample.act 1)) false None;
   OpSet (Some 2) EMULATED 0x1000 (Some (Sample.act 2)) false None].

Example fork_clone_dropped :
  let parent := Sample.run fork_shared Sample.manager0 in
  memory (kernel (mach parent)) 0x1000 = x86_BREAK_OPCODE
  ∧ (λ p, (memory (kernel (mach p.2)) 0x1000, is_enabled <$> (map_of (PerThread 9) p.2 !! 0x1000)))
      <$> members (fork_run parent).2 !! 1%nat = Some (0x55, Some true).
Proof. vm_compute. split; reflexivity. Qed.
