(* ===== verification/SharedString.v ===== *)
(** * Shared strings ([zdk/src/shared_string.cpp], [zdk/src/string.cpp])

    The immutable strings that the debugger uses for names: short ones are kept inside of the
    object, longer ones on the heap. Their comparison takes a shortcut over a hash that does
    not count spaces, and may ignore spaces altogether. *)
From S2P Require Import Prelude CLib.
Local Open Scope Z_scope.

(** ** Characters and order *)

(** A [char] is signed. *)
Definition schar (c : ascii) : Z := if code c <? 128 then code c else code c - 256.

(** The sign of [strcmp], which compares unsigned characters. *)
Fixpoint strcmp (l r : bytes) : Z :=
  match l, r with
  | [], [] => 0
  | [], _ => -1
  | _, [] => 1
  | a :: l, b :: r => if code a <? code b then -1 else if code b <? code a then 1 else strcmp l r
  end.

Fixpoint skip_space (r : bytes) : bytes :=
  match r with
  | c :: r' => if isspace c then skip_space r' else r
  | [] => []
  end.

(** [strcmp_ignore_space]; the characters compare as signed ones, the terminator as 0. *)
Fixpoint strcmp_ignore_space (p r : bytes) : Z :=
  match p with
  | [] => match skip_space r with [] => 0 | _ => -1 end
  | c :: p =>
      if isspace c then strcmp_ignore_space p r
      else
        match r with
        | [] => 1
        | _ =>
            let r := skip_space r in
            let d := match r with [] => 0 | d :: _ => schar d end in
            if schar c <? d then -1
            else if d <? schar c then 1
            else strcmp_ignore_space p (match r with [] => [] | _ :: r => r end)
        end
  end.

(** ** Strings *)

Definition MAX_LENGTH : Z := 0x7fffffff.
Definition SMALL_SIZE : Z := 15.

(** Where the text of a string is: nowhere ([str_] is null), inside of the object, or in a
    heap block, of which each one has its own address. *)
Inductive storage : Type := Null | Small | Heap (block : Z).

Record shared_string : Type := mk_string { text : bytes; where_ : storage }.

Definition size (s : bytes) : Z := Z.of_nat (length s).

(** [init]; a long text goes to a new block. [None]: [check_max_len] throws. *)
Definition init (block : Z) (str : bytes) : option shared_string :=
  if size str =? 0 then Some (mk_string [] Null)
  else if size str <? SMALL_SIZE then Some (mk_string str Small)
  else if MAX_LENGTH <? size str then None
  else Some (mk_string str (Heap block)).

(** [take_ownership]: the block is the caller's, whatever its length. *)
Definition take_ownership (block : Z) (str : bytes) : option shared_string :=
  if MAX_LENGTH <? size str then None else Some (mk_string str (Heap block)).

(** [hash(s)] in 64 bits, of which the lower 32 are returned. *)
Fixpoint hash_from (h : Z) (s : bytes) : Z :=
  match s with
  | [] => h
  | c :: s => hash_from (if isspace c then h else (5 * h + schar c) mod 2 ^ 64) s
  end.
Definition hash_text (s : bytes) : Z := hash_from 0 s mod 2 ^ 32.
Definition hash (s : shared_string) : Z := hash_text (text s).

(** [is_equal(str, ignoreSpace)] of a non-null [str] elsewhere in memory. *)
Definition is_equal (s : shared_string) (str : bytes) (ignoreSpace : bool) : bool :=
  if ignoreSpace then strcmp_ignore_space (text s) str =? 0 else strcmp (text s) str =? 0.

(** The comparison of the two words of the objects. Small strings hold their text there, and
    heap strings the address of the block; only one string owns a block. *)
Definition same_atoms (s t : shared_string) : bool :=
  match where_ s, where_ t with
  | Null, Null => true
  | Small, Small => if list_eq_dec Ascii.ascii_dec (text s) (text t) then true else false
  | Heap a, Heap b => a =? b
  | _, _ => false
  end.

(** [is_equal2] *)
Definition is_equal2 (s t : shared_string) (ignspc : bool) : bool :=
  same_atoms s t || (hash s =? hash t) && is_equal s (text t) ignspc.

Definition is_less (s : shared_string) (str : bytes) : bool := strcmp (text s) str <? 0.

(** [prepend] and [append]: a short result is copied into the object. *)
Definition new_joined (block : Z) (str : bytes) : option shared_string :=
  if size str <? SMALL_SIZE then init block str else take_ownership block str.
Definition prepend (block : Z) (str : bytes) (s : shared_string) : option shared_string :=
  new_joined block (str ++ text s).
Definition append (block : Z) (str : bytes) (s : shared_string) : option shared_string :=
  new_joined block (text s ++ str).
