(* ===== verification/SharedStringCorrect.v ===== *)
(** * Comparing shared strings

    [strcmp] is a total order, [strcmp_ignore_space] is [strcmp] on the texts without their
    spaces, and the shortcuts of the comparison of shared strings do not change its answer. *)
From S2P Require Import Prelude CLib SharedString.
Local Open Scope Z_scope.

(** ** The order of texts *)

Lemma code_range c : 0 <= code c < 256.
Proof.
  unfold code. destruct c as [[] [] [] [] [] [] [] []]; cbn; lia.
Qed.

Lemma code_inj a b : code a = code b -> a = b.
Proof.
  unfold code. intros E. apply N2Z.inj in E.
  now rewrite <- (ascii_N_embedding a), <- (ascii_N_embedding b), E.
Qed.

(** Case analysis on the comparisons of characters. *)
Ltac chars :=
  repeat match goal with
  | |- context [?a <? ?b] => destruct (Z.ltb_spec a b)
  | H : context [?a <? ?b] |- _ => destruct (Z.ltb_spec a b)
  end; try lia; auto.

Lemma strcmp_refl s : strcmp s s = 0.
Proof. induction s as [|c s IH]; cbn; [reflexivity|]. now rewrite Z.ltb_irrefl. Qed.

Lemma strcmp_eq l r : strcmp l r = 0 <-> l = r.
Proof.
  split; [|intros ->; apply strcmp_refl]. revert r.
  induction l as [|a l IH]; intros [|b r]; cbn; try discriminate; [reflexivity|].
  intros H. chars. f_equal; [apply code_inj; lia | auto].
Qed.

Lemma strcmp_opp l r : strcmp r l = - strcmp l r.
Proof. revert r. induction l as [|a l IH]; intros [|b r]; cbn; try reflexivity. chars. Qed.

Lemma strcmp_lt_trans a b c : strcmp a b < 0 -> strcmp b c < 0 -> strcmp a c < 0.
Proof.
  revert b c. induction a as [|x a IH]; intros [|y b] [|z c]; cbn; try lia.
  intros H1 H2. chars. eauto.
Qed.

(** ** Spaces *)

Definition nospace (s : bytes) : bytes := filter (fun c => negb (isspace c)) s.
Definition ascii_text (s : bytes) : bool := forallb (fun c => (0 <? code c) && (code c <? 128)) s.

Lemma skip_space_cases r : ascii_text r = true ->
  skip_space r = [] /\ nospace r = []
  \/ exists d r', skip_space r = d :: r' /\ nospace r = d :: nospace r'
       /\ ascii_text r' = true /\ 0 < code d < 128.
Proof.
  induction r as [|c r IH]; cbn; intros H; [now left|]. apply andb_true_iff in H as [Hc Hr].
  destruct (isspace c); cbn; [auto|]. right. exists c, r. repeat split; auto; lia.
Qed.

Lemma schar_ascii c : code c < 128 -> schar c = code c.
Proof. intros H. unfold schar. now rewrite (proj2 (Z.ltb_lt _ _) H). Qed.

Lemma strcmp_nospace p r :
  ascii_text p = true -> ascii_text r = true ->
  strcmp_ignore_space p r = strcmp (nospace p) (nospace r).
Proof.
  revert r. induction p as [|c p IH]; intros r Hp Hr; cbn.
  - destruct (skip_space_cases r Hr) as [[-> ->] | (d & r' & -> & -> & _)]; reflexivity.
  - apply andb_true_iff in Hp as [Hc Hp]. destruct (isspace c); cbn; [now apply IH|].
    destruct r as [|b r0]; [reflexivity|]. remember (b :: r0) as r eqn:E.
    rewrite schar_ascii by lia.
    destruct (skip_space_cases r Hr) as [[-> ->] | (d & r' & -> & -> & Hr' & Hd)].
    + cbn. chars.
    + rewrite schar_ascii by lia. cbn. chars.
Qed.

(** [strcmp_ignore_space] is [strcmp] of the texts without their spaces, on texts of ASCII
    characters: it is 0 exactly for texts that differ in spaces only, it changes its sign
    when its arguments are exchanged, and the order it gives is transitive. *)
Theorem strcmp_ignore_space_order p q r :
  ascii_text p = true -> ascii_text q = true -> ascii_text r = true ->
  strcmp_ignore_space p q = strcmp (nospace p) (nospace q)
  /\ (strcmp_ignore_space p q = 0 <-> nospace p = nospace q)
  /\ strcmp_ignore_space q p = - strcmp_ignore_space p q
  /\ (strcmp_ignore_space p q < 0 -> strcmp_ignore_space q r < 0 -> strcmp_ignore_space p r < 0).
Proof.
  intros Hp Hq Hr. rewrite !strcmp_nospace by assumption.
  split; [reflexivity|]. split; [apply strcmp_eq|]. split; [apply strcmp_opp | apply strcmp_lt_trans].
Qed.

Lemma strcmp_ignore_space_order_witness :
  strcmp_ignore_space (B "f oo") (B "foo ") = 0
  /\ strcmp_ignore_space (B "fool") (B "foo ") = - strcmp_ignore_space (B "foo ") (B "fool").
Proof.
  destruct (strcmp_ignore_space_order (B "f oo") (B "foo ") (B "fool") eq_refl eq_refl eq_refl)
    as (_ & [_ H] & _).
  split; [now apply H|].
  destruct (strcmp_ignore_space_order (B "foo ") (B "fool") (B "x") eq_refl eq_refl eq_refl)
    as (_ & _ & E & _). exact E.
Defined.

(** A character that is not ASCII is negative, so that it sorts in front of the end of a
    text, unless the other text is empty. *)
Example latin_in_front : strcmp_ignore_space ["233"%char] (B " ") = -1
  /\ strcmp_ignore_space ["233"%char] [] = 1.
Proof. split; reflexivity. Qed.

(** ** Equality *)

Lemma hash_nospace h s : hash_from h (nospace s) = hash_from h s.
Proof.
  revert h. induction s as [|c s IH]; intros h; cbn; [reflexivity|].
  destruct (isspace c) eqn:E; cbn; [|rewrite E]; apply IH.
Qed.

(** The strings of a program: a null one is empty, and a block has one owner. *)
Definition well_stored (s t : shared_string) : Prop :=
  (where_ s = Null -> text s = []) /\ (where_ t = Null -> text t = [])
  /\ (forall a, where_ s = Heap a -> where_ t = Heap a -> s = t).

Lemma same_atoms_text s t : well_stored s t -> same_atoms s t = true -> text s = text t.
Proof.
  intros (Hs & Ht & Hb). unfold same_atoms.
  destruct (where_ s) as [| |a] eqn:Es, (where_ t) as [| |b] eqn:Et; try discriminate.
  - now rewrite Hs, Ht.
  - now destruct (list_eq_dec _ _ _).
  - intros E. apply Z.eqb_eq in E as ->. now rewrite (Hb b).
Qed.

(** What the comparison of two strings is meant to decide. *)
Definition same_text (ignspc : bool) (l r : bytes) : Prop :=
  if ignspc then nospace l = nospace r else l = r.

(** The equality of shared strings decides the equality of their texts, or of their texts
    without spaces: neither the comparison of the objects nor that of the hashes changes the
    answer. *)
Theorem shared_strings_compare s t ignspc :
  well_stored s t -> (ignspc = true -> ascii_text (text s) = true /\ ascii_text (text t) = true) ->
  is_equal2 s t ignspc = true <-> same_text ignspc (text s) (text t).
Proof.
  intros Hw Ha. unfold is_equal2, is_equal, same_text, hash, hash_text.
  rewrite orb_true_iff, andb_true_iff, Z.eqb_eq. destruct ignspc; split.
  - intros [E | [_ E]]; [now rewrite (same_atoms_text s t)|].
    apply strcmp_eq. rewrite <- strcmp_nospace by now apply Ha. now apply Z.eqb_eq.
  - intros E. right. rewrite <- (hash_nospace 0 (text s)), E, hash_nospace. split; [reflexivity|].
    rewrite strcmp_nospace by now apply Ha. now rewrite E, strcmp_refl.
  - intros [E | [_ E]]; [now apply same_atoms_text|]. now apply strcmp_eq, Z.eqb_eq.
  - intros E. right. rewrite E, strcmp_refl. now split.
Qed.

Lemma shared_strings_compare_witness :
  let s := mk_string (B "unsigned  int") Small in
  let t := mk_string (B "unsigned int, but on the heap") (Heap 7) in
  is_equal2 s (mk_string (B "unsigned int") Small) true = true
  /\ ~ same_text true (text s) (text t).
Proof.
  cbv zeta. split.
  - apply shared_strings_compare; [|intros _; split; reflexivity | reflexivity].
    split; [discriminate|]. split; [discriminate | intros a; discriminate].
  - intros E. apply shared_strings_compare in E; [vm_compute in E; discriminate E | | intros _; split; reflexivity].
    split; [discriminate|]. split; [discriminate | intros a; discriminate].
Defined.
