(* ===== verification/SymbolTable.v ===== *)
(** * Symbol tables ([symbolz/symbol_table.cpp], [symbolz/private/])

    A table is read from a table of an ELF file and sorted by address, by name and by
    demangled name; symbols are looked up by address, with a cache, and by name. [std::sort]
    is an interface: any function that permutes and sorts. *)
From Stdlib Require Import Permutation Sorting.
From S2P Require Import Prelude CLib SharedString.
From stdpp Require Import base list option gmap.
Local Open Scope Z_scope.

(** ** The algorithms of the C++ library *)

(** The comparison is a strict weak order of the elements. *)
Definition strict_weak {A} (lt : A → A → bool) (l : list A) : Prop :=
  (∀ x, x ∈ l → lt x x = false)
  ∧ (∀ x y z, x ∈ l → y ∈ l → z ∈ l → lt x y = true → lt y z = true → lt x z = true)
  ∧ (∀ x y z, x ∈ l → y ∈ l → z ∈ l → lt x z = true → lt x y = true ∨ lt y z = true).

(** No element is less than one in front of it. *)
Definition ordered {A} (lt : A → A → bool) : list A → Prop := StronglySorted (λ x y, lt y x = false).

Class StdSort := {
  std_sort {A} : (A → A → bool) → list A → list A;
  std_sort_perm {A} (lt : A → A → bool) l : strict_weak lt l → Permutation l (std_sort lt l);
  std_sort_ordered {A} (lt : A → A → bool) l : strict_weak lt l → ordered lt (std_sort lt l)
}.

(** Insertion sort, which the library uses for short ranges. *)
Fixpoint insert_sorted {A} (lt : A → A → bool) (x : A) (l : list A) : list A :=
  match l with
  | [] => [x]
  | y :: l => if lt x y then x :: y :: l else y :: insert_sorted lt x l
  end.
Definition insertion_sort {A} (lt : A → A → bool) (l : list A) : list A :=
  fold_left (λ acc x, insert_sorted lt x acc) l [].

(** [lower_bound] in the [len] elements from [first] on: the loop halves the range. *)
Fixpoint bisect {A} (fuel : nat) (below : A → bool) (l : list A) (first len : nat) : nat :=
  match fuel with
  | O => first
  | S fuel =>
      if Nat.eqb len 0 then first
      else
        let half := Nat.div2 len in
        match l !! (first + half)%nat with
        | Some x =>
            if below x then bisect fuel below l (first + half + 1)%nat (len - half - 1)%nat
            else bisect fuel below l first half
        | None => first
        end
  end.

Definition lower_bound {A} (below : A → bool) (l : list A) : nat :=
  bisect (S (length l)) below l 0 (length l).

(** The lower bound among the elements from [first] on. *)
Definition lower_bound_from {A} (below : A → bool) (l : list A) (first : nat) : nat :=
  bisect (S (length l)) below l first (length l - first)%nat.

Definition slice {A} (l : list A) (r : nat * nat) : list A := take (r.2 - r.1) (drop r.1 l).

(** ** Symbols *)

Record elf_symbol : Type := mk_elf { e_name : option bytes; e_value : Z; e_type : Z }.
Record symbol : Type := mk_symbol { s_name : bytes; s_value : Z; s_type : Z }.

Definition STT_FUNC : Z := 2.
Definition is_function (s : symbol) : bool := s_type s =? STT_FUNC.
Definition create_symbol (e : elf_symbol) (name : bytes) : symbol :=
  mk_symbol name (e_value e) (Z.land (e_type e) 15).

Definition u64 (n : Z) : Z := n mod 2 ^ 64.

(** What a lookup by address returns: a symbol of the table, or one at an offset from it. *)
Record found : Type := mk_found { f_symbol : symbol; f_offset : Z }.

Record table : Type := mk_table {
  t_addr : Z;                      (* where the table is mapped, or 0 *)
  t_upper : Z;
  t_adjust : Z;
  t_dynamic : bool;
  symbols : list symbol;
  symbolsByName : list symbol;
  symbolsByDemangledName : list symbol;
  symHash : gmap Z found           (* the cache of lookups by address *)
}.

(** [symbol_addr] of a symbol in a table. *)
Definition symbol_addr (t : table) (f : found) : Z :=
  if s_value (f_symbol f) =? 0 then 0
  else
    let a := u64 (s_value (f_symbol f) + f_offset f) in
    if t_addr t =? 0 then a else u64 (a + t_adjust t).

Definition get_relative_addr (t : table) (addr : Z) : Z :=
  if t_addr t =? 0 then addr else u64 (addr - t_adjust t).

(** ** Reading *)

(** The end of the vector without its last element. *)
Definition pop_back {A} (l : list A) : list A := take (pred (length l)) l.

(** The loop of [read]; [on_symbol] is the answer of the observer. When the previous symbol
    of the same value is dropped the code asks the released object once more whether it is a
    function, which is taken to return: the answer does not matter, because the new one is. *)
Fixpoint read_loop (on_symbol : symbol → bool) (tbl : list elf_symbol) (acc : list symbol) : list symbol :=
  match tbl with
  | [] => acc
  | e :: tbl =>
      match e_name e with
      | None | Some [] => read_loop on_symbol tbl acc
      | Some name =>
          if (e_value e =? 0) || bool_decide (name = B "gcc2_compiled.") then read_loop on_symbol tbl acc
          else
            let sym := create_symbol e name in
            let push acc := if on_symbol sym then acc ++ [sym] else acc in
            match last acc with
            | Some prev =>
                if s_value sym =? s_value prev then
                  if negb (is_function prev) && is_function sym
                  then read_loop on_symbol tbl (push (pop_back acc))
                  else if is_function prev && negb (is_function sym)
                  then read_loop on_symbol tbl acc
                  else read_loop on_symbol tbl (push acc)
                else read_loop on_symbol tbl (push acc)
            | None => read_loop on_symbol tbl (push acc)
            end
      end
  end.

(** ** Orders *)

Definition CompareAddr (s t : symbol) : bool := s_value s <? s_value t.

(** [SharedStringLess<IgnoreSpace>::is_less] of two shared strings. *)
Definition string_less (ignore_space : bool) (l r : bytes) : bool :=
  if hash_text l =? hash_text r then false
  else if ignore_space then strcmp_ignore_space l r <? 0 else strcmp l r <? 0.

(** [is_less] of a shared string and a C string. *)
Definition text_less (ignore_space : bool) (l r : bytes) : bool :=
  if ignore_space then strcmp_ignore_space l r <? 0 else strcmp l r <? 0.

Definition CompareName (s t : symbol) : bool := string_less false (s_name s) (s_name t).

Section Demangled.
(** The demangler without the parameters of functions; [None] when it rejects the name. *)
Context (unmangle : bytes → option bytes).

Definition demangled_name (s : symbol) : bytes := default (s_name s) (unmangle (s_name s)).
Definition CompareDemangled (s t : symbol) : bool :=
  string_less true (demangled_name s) (demangled_name t).

Context `{StdSort}.

Definition sort_by_addr : list symbol → list symbol := std_sort CompareAddr.
Definition sort_by_name : list symbol → list symbol := std_sort CompareName.
Definition sort_by_demangled_name : list symbol → list symbol := std_sort CompareDemangled.

(** The table that the constructor and [read] make of a table of the file, once the three
    sorts are complete. *)
Definition read (dynamic : bool) (on_symbol : symbol → bool) (tbl : list elf_symbol)
  (vmemAddr loadAddr upper : Z) : table :=
  let l := read_loop on_symbol tbl [] in
  mk_table vmemAddr upper (vmemAddr - loadAddr) dynamic
    (sort_by_addr l) (sort_by_name l) (sort_by_demangled_name l) ∅.

(** [set_addr]: the table is mapped at an address. *)
Definition set_addr (addr elfLoadAddr : Z) (t : table) : table :=
  mk_table addr (u64 (t_upper t + (addr - t_addr t))) (addr - elfLoadAddr) (t_dynamic t) (symbols t)
    (symbolsByName t) (symbolsByDemangledName t) (symHash t).
Definition set_upper (upper : Z) (t : table) : table :=
  mk_table (t_addr t) upper (t_adjust t) (t_dynamic t) (symbols t) (symbolsByName t)
    (symbolsByDemangledName t) (symHash t).

(** ** Lookup by address *)

(** The search proper, for an address relative to the table. *)
Definition search (t : table) (addr : Z) : option found :=
  let i := lower_bound (λ s, s_value s <? addr) (symbols t) in
  match symbols t !! i with
  | Some s => if s_value s =? addr then Some (mk_found s 0)
              else match i with
                   | O => None
                   | S j => (λ s, mk_found s (u64 (addr - s_value s))) <$> symbols t !! j
                   end
  | None => match i with
            | O => None
            | S j => (λ s, mk_found s (u64 (addr - s_value s))) <$> symbols t !! j
            end
  end.

Definition remember (f : found) (t : table) : table :=
  mk_table (t_addr t) (t_upper t) (t_adjust t) (t_dynamic t) (symbols t) (symbolsByName t)
    (symbolsByDemangledName t) (<[symbol_addr t f := f]> (symHash t)).

Definition lookup_symbol (t : table) (addr : Z) : option found * table :=
  if (addr <? t_addr t) || bool_decide (symbols t = []) then (None, t)
  else
    match symHash t !! addr with
    | Some f => (Some f, t)
    | None =>
        match search t (get_relative_addr t addr) with
        | Some f => (Some f, remember f t)
        | None => (None, t)
        end
    end.

(** ** Lookup by name *)

(** The two sorted containers by name, with their [Pred]. *)
Record by_name : Type := mk_by_name {
  bn_list : list symbol;
  bn_name : symbol → bytes;
  bn_ignore_space : bool
}.
Definition names_of (t : table) : by_name := mk_by_name (symbolsByName t) s_name false.
Definition demangled_of (t : table) : by_name := mk_by_name (symbolsByDemangledName t) demangled_name true.

Definition bn_below (b : by_name) (name : bytes) (s : symbol) : bool :=
  text_less (bn_ignore_space b) (bn_name b s) name.
Definition bn_not_above (b : by_name) (name : bytes) (s : symbol) : bool :=
  negb (text_less (bn_ignore_space b) name (bn_name b s)).

(** [equal_range] *)
Definition equal_range (b : by_name) (name : bytes) : nat * nat :=
  (lower_bound (bn_below b name) (bn_list b), lower_bound (bn_not_above b name) (bn_list b)).

(** The name with its last character incremented, as a C string. *)
Definition upper_name (name : bytes) : bytes :=
  match last name with
  | Some c => cstr_of (pop_back name ++ [char_of_int (code c + 1)])
  | None => []
  end.

(** [strncmp(name, sname, length of name) == 0] *)
Fixpoint is_prefix (name sname : bytes) : bool :=
  match name, sname with
  | [], _ => true
  | c :: name, d :: sname => Ascii.eqb c d && is_prefix name sname
  | _, _ => false
  end.

Definition lookup_range (b : by_name) (name : bytes) : nat * nat :=
  let stop := length (bn_list b) in
  let first := lower_bound (bn_below b name) (bn_list b) in
  match bn_list b !! first with
  | None => (first, stop)
  | Some s =>
      if is_prefix name (bn_name b s)
      then (first, lower_bound_from (bn_below b (upper_name name)) (bn_list b) first)
      else (stop, stop)
  end.

Definition LKUP_DYNAMIC : Z := 0x1.
Definition LKUP_UNMAPPED : Z := 0x2.
Definition LKUP_ISMANGLED : Z := 0x4.
Definition LKUP_RANGE : Z := 0x8.
Definition LKUP_REGEX : Z := 0x10.
Definition LKUP_DEMANGLED : Z := 0x20.
Definition has (mode flag : Z) : bool := negb (Z.land mode flag =? 0).

Definition lookup_name (b : by_name) (name : bytes) (mode : Z) : list symbol :=
  slice (bn_list b) (if has mode LKUP_RANGE then lookup_range b name else equal_range b name).

(** [enum_symbols]: the count and the symbols that the callback is given, or the exception. *)
Inductive enumeration : Type :=
| Enumerated (count : Z) (notified : list symbol)
| ThrowsRuntimeError
| ThrowsInvalidArgument.

Definition enum_symbols (t : table) (name : option bytes) (cb : bool) (mode : Z) : enumeration :=
  let notified l := if cb then l else [] in
  if has mode LKUP_REGEX then ThrowsRuntimeError
  else if (t_addr t =? 0) && negb (has mode LKUP_UNMAPPED) then ThrowsInvalidArgument
  else if t_dynamic t && negb (has mode LKUP_DYNAMIC) then Enumerated 0 []
  else if bool_decide (symbols t = []) then Enumerated 0 []
  else
    match name with
    | None =>
        if cb && has mode LKUP_DEMANGLED then Enumerated 0 (symbolsByDemangledName t)
        else Enumerated (Z.of_nat (length (symbols t))) (notified (symbols t))
    | Some name =>
        let l1 := lookup_name (names_of t) name mode in
        let l2 := if has mode LKUP_ISMANGLED then [] else lookup_name (demangled_of t) name mode in
        Enumerated (Z.of_nat (length l1) + Z.of_nat (length l2)) (notified (l1 ++ l2))
    end.
End Demangled.
