(* ===== verification/SymbolTableCorrect.v ===== *)
(** * Symbol tables find the nearest symbol and the symbols of a name

    The binary searches of the library on sorted lists; lookups by address, whatever is in
    the cache; lookups by name, when the hashes of the names do not collide, and what happens
    when they do. *)
From Stdlib Require Import Permutation Sorting.
From S2P Require Import Prelude CLib SharedString SharedStringCorrect SymbolTable.
From stdpp Require Import base list option gmap.
Local Open Scope Z_scope.

(** ** Sorting *)

Section Insertion.
Context {A : Type} (lt : A → A → bool).

Lemma strict_weak_sub l l' : l' ⊆ l → strict_weak lt l → strict_weak lt l'.
Proof. intros Hs (Hi & Ht & Hn). split_and!; eauto. Qed.

Lemma insert_sorted_perm x l : Permutation (x :: l) (insert_sorted lt x l).
Proof.
  induction l as [|y l IH]; cbn; [done|]. destruct (lt x y); [done|].
  rewrite <- IH. apply perm_swap.
Qed.

Lemma insert_sorted_ordered x l : strict_weak lt (x :: l) → ordered lt l → ordered lt (insert_sorted lt x l).
Proof.
  intros Hw. induction l as [|y l IH]; intros Ho; cbn; [repeat constructor|].
  apply StronglySorted_inv in Ho as [Ho Hy]. destruct Hw as (Hi & Ht & Hn).
  destruct (lt x y) eqn:E.
  - constructor; [by constructor|]. constructor.
    + destruct (lt y x) eqn:E'; [|done].
      rewrite <- (Hi x); [symmetry; apply (Ht x y x); set_solver | set_solver].
    + apply List.Forall_forall. intros z Hz. rewrite List.Forall_forall in Hy.
      destruct (lt z x) eqn:E'; [|done]. rewrite <- (Hy z Hz).
      apply list_elem_of_In in Hz. symmetry. apply (Ht z x y); set_solver.
  - constructor.
    + apply IH; [|done]. apply (strict_weak_sub (x :: y :: l)); [|by split_and!].
      intros z. rewrite !elem_of_cons. tauto.
    + rewrite <- insert_sorted_perm. constructor; done.
Qed.

Lemma insertion_sort_perm l : Permutation l (insertion_sort lt l).
Proof.
  unfold insertion_sort. rewrite <- (app_nil_l l) at 1. generalize (@nil A) as acc.
  induction l as [|x l IH]; intros acc; cbn; [by rewrite app_nil_r|].
  rewrite <- IH, <- insert_sorted_perm. cbn. symmetry. apply Permutation_middle.
Qed.

Lemma insertion_sort_ordered l : strict_weak lt l → ordered lt (insertion_sort lt l).
Proof.
  unfold insertion_sort. rewrite <- (app_nil_l l) at 1. assert (ordered lt []) as H0 by constructor.
  revert H0. generalize (@nil A) as acc.
  induction l as [|x l IH]; intros acc Ho Hw; cbn; [done|]. apply IH.
  - apply insert_sorted_ordered; [|done].
    apply (strict_weak_sub (acc ++ x :: l)); [|done].
    intros z. rewrite elem_of_app, !elem_of_cons. tauto.
  - apply (strict_weak_sub (acc ++ x :: l)); [|done]. rewrite <- insert_sorted_perm.
    intros z. rewrite !elem_of_app, !elem_of_cons. tauto.
Qed.
End Insertion.

#[export] Instance InsertionSort : StdSort := {
  std_sort A := insertion_sort;
  std_sort_perm A lt l _ := insertion_sort_perm lt l;
  std_sort_ordered A lt l := insertion_sort_ordered lt l
}.

(** ** Binary search *)

Section Search.
Context {A : Type}.

(** The elements for which [below] holds are the first [k]. *)
Definition splits (below : A → bool) (l : list A) (k : nat) : Prop :=
  (k ≤ length l)%nat ∧ ∀ i x, l !! i = Some x → below x = true ↔ (i < k)%nat.

Lemma bisect_splits below l k : splits below l k → ∀ fuel first len,
  (len < fuel)%nat → (first ≤ k ≤ first + len)%nat → (first + len ≤ length l)%nat →
  bisect fuel below l first len = k.
Proof.
  intros [Hk Hs]. induction fuel as [|fuel IH]; intros first len Hf Hr Hl; [lia|]. cbn.
  destruct (Nat.eqb_spec len 0) as [->|Hlen]; [lia|].
  pose proof (Nat.lt_div2 len ltac:(lia)) as Hh.
  destruct (lookup_lt_is_Some_2 l (first + Nat.div2 len)) as [x Hx]; [lia|]. rewrite Hx.
  destruct (below x) eqn:E.
  - apply (Hs _ _ Hx) in E. apply IH; lia.
  - assert (¬ first + Nat.div2 len < k)%nat by (rewrite <- (Hs _ _ Hx); congruence). apply IH; lia.
Qed.

Lemma lower_bound_splits below l k : splits below l k → lower_bound below l = k.
Proof. intros Hs. apply bisect_splits; [done | lia | destruct Hs; lia | lia]. Qed.

Lemma lower_bound_from_splits below l k first : splits below l k → (first ≤ k)%nat →
  lower_bound_from below l first = k.
Proof. intros Hs Hf. apply bisect_splits; [done | | |]; destruct Hs; lia. Qed.

(** On a sorted list every predicate that holds below an element where it holds splits. *)
Lemma ordered_splits (lt : A → A → bool) below l :
  ordered lt l → (∀ x y, x ∈ l → y ∈ l → lt y x = false → below y = true → below x = true) →
  splits below l (length (List.filter below l)).
Proof.
  intros Ho Hm. split; [apply List.filter_length_le|]. revert Hm.
  induction Ho as [|y l Ho IH Hy]; intros Hm i x Hx; [by rewrite lookup_nil in Hx|].
  assert (∀ x, x ∈ l → below x = true → below y = true) as Hhead.
  { intros z Hz. apply Hm; [left | by right|]. rewrite List.Forall_forall in Hy. by apply Hy, list_elem_of_In. }
  cbn. destruct i as [|i]; cbn in Hx.
  - injection Hx as <-. destruct (below y) eqn:E; cbn; [split; [lia|done]|]. split; [done|].
    intros Hlen. destruct (List.filter below l) as [|z l'] eqn:El; [cbn in Hlen; lia|].
    assert (In z (List.filter below l)) as [Hz Hb]%filter_In by (rewrite El; by left).
    exfalso. apply list_elem_of_In in Hz. specialize (Hhead z Hz Hb). congruence.
  - assert (x ∈ l) as Hin by by eapply list_elem_of_lookup_2.
    destruct (below y) eqn:E; cbn.
    + rewrite (IH ltac:(intros ????; apply Hm; by right) i x Hx). lia.
    + split; [intros Hb; specialize (Hhead x Hin Hb); congruence|]. intros Hlen.
      apply (IH ltac:(intros ????; apply Hm; by right) i x Hx). lia.
Qed.

Lemma ordered_lookup (lt : A → A → bool) l i j x y : ordered lt l →
  l !! i = Some x → l !! j = Some y → (i < j)%nat → lt y x = false.
Proof.
  intros Ho. revert i j. induction Ho as [|z l Ho IH Hz]; intros i j Hi Hj Hij; [by rewrite lookup_nil in Hi|].
  destruct j as [|j]; [lia|]. destruct i as [|i]; cbn in *; [|apply (IH i j); [done | done | lia]].
  injection Hi as <-. rewrite List.Forall_forall in Hz. by apply Hz, list_elem_of_In, (list_elem_of_lookup_2 _ j).
Qed.

Lemma splits_filter below l k : splits below l k →
  List.filter below l = take k l ∧ List.filter (λ x, negb (below x)) l = drop k l.
Proof.
  revert k. induction l as [|x l IH]; intros k [Hk Hs]; [by destruct k|]. cbn in *.
  destruct k as [|k].
  - assert (below x = false) as E.
    { apply not_true_is_false. intros E. apply (Hs 0%nat x eq_refl) in E. lia. }
    rewrite E. cbn. destruct (IH 0%nat) as [-> ->]; [|by rewrite take_0, drop_0].
    split; [lia|]. intros i y Hy. rewrite (Hs (S i) y Hy). lia.
  - assert (below x = true) as E by (apply (Hs 0%nat x eq_refl); lia).
    rewrite E. cbn. destruct (IH k) as [-> ->]; [|done].
    split; [lia|]. intros i y Hy. rewrite (Hs (S i) y Hy). lia.
Qed.

Lemma splits_le p q l i j : splits p l i → splits q l j → (∀ x, x ∈ l → p x = true → q x = true) →
  (i ≤ j)%nat.
Proof.
  intros [Hi Hp] [Hj Hq] Hpq. destruct (decide (i ≤ j)%nat); [done|].
  destruct (lookup_lt_is_Some_2 l j) as [x Hx]; [lia|].
  assert (p x = true) as Hx' by (apply (Hp _ _ Hx); lia).
  apply Hpq in Hx'; [|by eapply list_elem_of_lookup_2]. apply (Hq _ _ Hx) in Hx'. lia.
Qed.

(** The slice between two such positions. *)
Lemma slice_splits p q l i j : splits p l i → splits q l j → (∀ x, x ∈ l → p x = true → q x = true) →
  slice l (i, j) = List.filter (λ x, negb (p x) && q x) l.
Proof.
  intros Hp Hq Hpq. unfold slice. cbn [fst snd].
  rewrite <- skipn_firstn_comm, <- (proj1 (splits_filter q l j Hq)).
  assert (splits p (List.filter q l) i) as Hp'.
  { rewrite (proj1 (splits_filter q l j Hq)). pose proof (splits_le p q l i j Hp Hq Hpq).
    destruct Hp as [Hi Hp], Hq as [Hj Hq]. split.
    - rewrite length_take. lia.
    - intros k x [Hx Hk]%lookup_take_Some. by apply Hp. }
  rewrite <- (proj2 (splits_filter p _ i Hp')). clear.
  induction l as [|x l IH]; cbn; [done|]. destruct (q x) eqn:Eq, (p x) eqn:Ep; cbn; rewrite ?Ep; cbn; by rewrite IH.
Qed.
End Search.

(** ** Lookup by address *)

(** The symbol that stands for an address: the last one that does not start behind it. *)
Definition nearest (l : list symbol) (a : Z) (r : option found) : Prop :=
  match r with
  | None => ∀ s, s ∈ l → a < s_value s
  | Some f =>
      f_symbol f ∈ l ∧ s_value (f_symbol f) + f_offset f = a ∧ 0 ≤ f_offset f
      ∧ ∀ s, s ∈ l → s_value s ≤ a → s_value s ≤ s_value (f_symbol f)
  end.

Lemma nearest_perm l l' a r : Permutation l l' → nearest l a r → nearest l' a r.
Proof.
  intros Hp. assert (∀ s, s ∈ l' → s ∈ l) as Hs by (intros s; by rewrite Hp).
  destruct r as [f|]; cbn; [|by eauto]. intros (Hf & Heq & H0 & Hmax). split_and!; [by rewrite <- Hp | done | done | eauto].
Qed.

Definition addresses (l : list symbol) : Prop := ∀ s, s ∈ l → 0 < s_value s < 2 ^ 64.

Lemma CompareAddr_weak l : strict_weak CompareAddr l.
Proof. unfold CompareAddr. split_and!; intros; lia. Qed.

Section Nearest.
Variables (l : list symbol) (a : Z) (k : nat).
Hypotheses (Ha : 0 ≤ a < 2 ^ 64) (Hv : addresses l) (Ho : ordered CompareAddr l).
Hypothesis (Hk : splits (λ s, s_value s <? a) l k).

Lemma low_index s : s ∈ l → s_value s < a → ∃ i, (i < k)%nat ∧ l !! i = Some s.
Proof.
  intros [i Hi]%list_elem_of_lookup Hlt. exists i. split; [|done]. apply (proj2 Hk i s Hi). lia.
Qed.

Lemma high_value i s : (k ≤ i)%nat → l !! i = Some s → a ≤ s_value s.
Proof.
  intros Hi Hs. destruct (Z.ltb_spec (s_value s) a) as [E|]; [|done].
  apply Z.ltb_lt, (proj2 Hk i s Hs) in E. lia.
Qed.

(** No symbol at the address: the one in front of the position is the nearest. *)
Lemma prev_nearest : (∀ s, s ∈ l → s_value s ≠ a) →
  nearest l a match k with O => None | S j => (λ s, mk_found s (u64 (a - s_value s))) <$> l !! j end.
Proof.
  intros Hne. pose proof low_index as Hlow. revert Hlow. case Hk. destruct k as [|j]; intros Hlen Hsp Hlow.
  - intros s Hin. destruct (decide (a < s_value s)); [done|].
    destruct (Hlow s Hin) as (i & Hi & _); [specialize (Hne s Hin); lia | lia].
  - destruct (lookup_lt_is_Some_2 l j) as [p Hp]; [lia|]. rewrite Hp. cbn.
    assert (s_value p < a) as Hpa by (apply Z.ltb_lt, (Hsp j p Hp); lia).
    assert (p ∈ l) as Hin by by eapply list_elem_of_lookup_2.
    pose proof (Hv p Hin). unfold u64. rewrite Z.mod_small by lia. split_and!; [done | lia | lia |].
    intros s Hs Hle. destruct (Hlow s Hs) as (i & Hi & Hsi); [specialize (Hne s Hs); lia|].
    destruct (decide (i = j)) as [->|]; [rewrite Hp in Hsi; by injection Hsi as ->|].
    pose proof (ordered_lookup _ _ i j s p Ho Hsi Hp ltac:(lia)) as Hle'. unfold CompareAddr in Hle'. lia.
Qed.

Lemma exact_first s : l !! k = Some s → s_value s ≠ a → ∀ s', s' ∈ l → s_value s' ≠ a.
Proof.
  intros Es Hne s' [i Hi]%list_elem_of_lookup Heq. pose proof (high_value k s ltac:(lia) Es).
  destruct (decide (i < k)%nat) as [Hik|Hik].
  - apply (proj2 Hk i s' Hi) in Hik. lia.
  - destruct (decide (i = k)) as [->|]; [congruence|].
    pose proof (ordered_lookup _ _ k i s s' Ho Es Hi ltac:(lia)) as Hle. unfold CompareAddr in Hle. lia.
Qed.
End Nearest.

Lemma search_nearest t a : 0 ≤ a < 2 ^ 64 → addresses (symbols t) → ordered CompareAddr (symbols t) →
  nearest (symbols t) a (search t a).
Proof.
  intros Ha Hv Ho. unfold search.
  assert (splits (λ s, s_value s <? a) (symbols t) (length (List.filter (λ s, s_value s <? a) (symbols t)))) as Hs.
  { apply (ordered_splits CompareAddr); [done|]. unfold CompareAddr. intros; lia. }
  rewrite (lower_bound_splits _ _ _ Hs). set (k := length _) in *.
  destruct (symbols t !! k) as [s|] eqn:Ek.
  - destruct (Z.eqb_spec (s_value s) a) as [E|E].
    + cbn. split_and!; [by eapply list_elem_of_lookup_2 | lia | lia |]. intros; lia.
    + apply (prev_nearest _ _ k); try done. by eapply exact_first.
  - apply (prev_nearest _ _ k); try done. intros s' [i Hi]%list_elem_of_lookup Heq.
    apply lookup_ge_None in Ek. pose proof (lookup_lt_Some _ _ _ Hi).
    assert ((s_value s' <? a) = true) as E by (apply (proj2 Hs i s' Hi); lia). lia.
Qed.

(** *** The cache *)

(** A table whose symbols are sorted and whose cache holds answers. *)
Record table_ok (t : table) : Prop := {
  ok_addresses : addresses (symbols t);
  ok_ordered : ordered CompareAddr (symbols t);
  ok_cache a f : symHash t !! a = Some f → nearest (symbols t) (get_relative_addr t a) (Some f)
}.

Lemma relative_range t a : 0 ≤ a < 2 ^ 64 → 0 ≤ get_relative_addr t a < 2 ^ 64.
Proof. intros Ha. unfold get_relative_addr. destruct (_ =? _); [done|]. apply Z.mod_pos_bound. lia. Qed.

(** The address of the symbol that is found is the one that was asked for. *)
Lemma found_addr t a f : 0 ≤ a < 2 ^ 64 → addresses (symbols t) →
  nearest (symbols t) (get_relative_addr t a) (Some f) → symbol_addr t f = a.
Proof.
  intros Ha Hv (Hin & Heq & _). pose proof (Hv _ Hin). pose proof (relative_range t a Ha).
  unfold symbol_addr. rewrite (proj2 (Z.eqb_neq _ _)) by lia. rewrite Heq.
  unfold get_relative_addr, u64 in *. destruct (t_addr t =? 0).
  - by apply Z.mod_small.
  - rewrite Z.mod_mod by lia. rewrite Zplus_mod_idemp_l. replace (a - t_adjust t + t_adjust t) with a by lia.
    by apply Z.mod_small.
Qed.

Lemma lookup_symbol_ok t a : 0 ≤ a < 2 ^ 64 → table_ok t →
  let '(r, t') := lookup_symbol t a in
  table_ok t' ∧ t_addr t' = t_addr t ∧ t_adjust t' = t_adjust t ∧ symbols t' = symbols t
  ∧ if a <? t_addr t then r = None else nearest (symbols t) (get_relative_addr t a) r.
Proof.
  intros Ha Hok. unfold lookup_symbol. destruct (a <? t_addr t) eqn:Elow; [by cbn|]. cbn [orb].
  case_bool_decide as Hnil; [split_and!; try done; intros s; rewrite Hnil; by intros ?%not_elem_of_nil|].
  destruct (symHash t !! a) as [f|] eqn:Ec; [split_and!; try done; by apply ok_cache|].
  pose proof (search_nearest t _ (relative_range t a Ha) (ok_addresses t Hok) (ok_ordered t Hok)) as Hn.
  destruct (search t _) as [f|] eqn:Es; [|by split_and!]. split_and!; try done.
  split; [exact (ok_addresses t Hok) | exact (ok_ordered t Hok) |]. intros b g. cbn [symHash remember].
  rewrite (found_addr t a f Ha (ok_addresses t Hok) Hn).
  intros [[-> ->]|[_ Hb]]%lookup_insert_Some; [exact Hn | by apply (ok_cache t Hok b)].
Qed.

(** A sequence of lookups in a table. *)
Fixpoint lookup_all (t : table) (addrs : list Z) : list (option found) :=
  match addrs with
  | [] => []
  | a :: addrs => let '(r, t) := lookup_symbol t a in r :: lookup_all t addrs
  end.

(** What the answer to a lookup is meant to be. *)
Definition answers_lookup (t : table) (l : list symbol) (a : Z) (r : option found) : Prop :=
  if a <? t_addr t then r = None
  else nearest l (get_relative_addr t a) r ∧ ∀ f, r = Some f → symbol_addr t f = a.

Lemma lookup_all_ok addrs t t0 : Forall (λ a, 0 ≤ a < 2 ^ 64) addrs → table_ok t →
  t_addr t = t_addr t0 → t_adjust t = t_adjust t0 → symbols t = symbols t0 →
  Forall2 (answers_lookup t0 (symbols t0)) addrs (lookup_all t addrs).
Proof.
  intros Hr. revert t. induction Hr as [|a addrs Ha Hr IH]; intros t Hok E1 E2 E3; [constructor|]. cbn.
  pose proof (lookup_symbol_ok t a Ha Hok) as Hl. destruct (lookup_symbol t a) as [r t'].
  destruct Hl as (Hok' & E1' & E2' & E3' & Hres). constructor; [|apply IH; congruence || done].
  unfold answers_lookup. rewrite <- E1. destruct (a <? t_addr t); [done|].
  assert (get_relative_addr t0 a = get_relative_addr t a) as Erel by (unfold get_relative_addr; by rewrite E1, E2).
  assert (∀ f, symbol_addr t0 f = symbol_addr t f) as Eaddr by (intros; unfold symbol_addr; by rewrite E1, E2).
  rewrite Erel, <- E3. split; [done|]. intros f ->. rewrite Eaddr. by apply found_addr; [|apply Hok|].
Qed.

Lemma read_loop_addresses on_symbol tbl acc :
  (∀ e, e ∈ tbl → 0 ≤ e_value e < 2 ^ 64) → addresses acc → addresses (read_loop on_symbol tbl acc).
Proof.
  revert acc. induction tbl as [|e tbl IH]; intros acc Ht Hacc; [done|].
  assert (∀ acc, addresses acc → addresses (read_loop on_symbol tbl acc)) as Hrec.
  { intros acc'. apply IH. intros e' He'. apply Ht. by right. }
  assert (0 ≤ e_value e < 2 ^ 64) as He by (apply Ht; by left).
  cbn. destruct (e_name e) as [[|c name]|]; auto. destruct (Z.eqb_spec (e_value e) 0) as [|Hne]; cbn; auto.
  destruct (bool_decide _); auto.
  assert (∀ acc', addresses acc' → addresses (if on_symbol (create_symbol e (c :: name))
    then acc' ++ [create_symbol e (c :: name)] else acc')) as Hpush.
  { intros acc' Ha. destruct (on_symbol _); [|done].
    intros s [Hs|Hs%list_elem_of_singleton]%elem_of_app; [by apply Ha|]. subst s. cbn. lia. }
  assert (addresses (pop_back acc)) as Hpop.
  { intros s [i [Hi _]%lookup_take_Some]%list_elem_of_lookup. by eapply Hacc, list_elem_of_lookup_2. }
  destruct (last acc) as [prev|]; auto. repeat case_match; auto.
Qed.

(** ** Lookup by name *)

Definition by_text (s t : symbol) : bool := strcmp (s_name s) (s_name t) <? 0.

Lemma strcmp_cases l r : strcmp l r < 0 ∨ l = r ∨ 0 < strcmp l r.
Proof. destruct (Z.lt_trichotomy (strcmp l r) 0) as [|[E|]]; [by left | apply strcmp_eq in E; by right; left | by right; right]. Qed.

Lemma strcmp_le_trans a b c : strcmp a b < 0 → strcmp b c ≤ 0 → strcmp a c < 0.
Proof.
  intros H1 H2. destruct (strcmp_cases b c) as [|[->|]]; [by eapply strcmp_lt_trans | done | lia].
Qed.

(** The hashes tell the names of the symbols apart. *)
Definition no_collision (l : list symbol) : Prop :=
  ∀ s t, s ∈ l → t ∈ l → hash_text (s_name s) = hash_text (s_name t) → s_name s = s_name t.

Lemma CompareName_text l s t : no_collision l → s ∈ l → t ∈ l → CompareName s t = by_text s t.
Proof.
  intros Hc Hs Ht. unfold CompareName, string_less, by_text.
  destruct (Z.eqb_spec (hash_text (s_name s)) (hash_text (s_name t))) as [E|]; [|done].
  apply (Hc s t Hs Ht) in E. by rewrite E, strcmp_refl.
Qed.

Lemma by_text_weak l : strict_weak by_text l.
Proof.
  unfold by_text. split_and!; intros.
  - by rewrite strcmp_refl.
  - rewrite Z.ltb_lt in *. by eapply strcmp_lt_trans.
  - rewrite !Z.ltb_lt in *. destruct (strcmp_cases (s_name x) (s_name y)) as [|[E|]]; [by left | |].
    + right. by rewrite <- E.
    + right. eapply strcmp_lt_trans; [|done]. rewrite strcmp_opp. lia.
Qed.

Lemma CompareName_weak l : no_collision l → strict_weak CompareName l.
Proof.
  intros Hc. destruct (by_text_weak l) as (Hi & Ht & Hn). split_and!; intros *.
  - intros Hx. rewrite (CompareName_text l) by done. by apply Hi.
  - intros Hx Hy Hz. rewrite !(CompareName_text l) by done. by apply Ht.
  - intros Hx Hy Hz. rewrite !(CompareName_text l) by done. by apply Hn.
Qed.

(** *** Prefixes *)

Lemma pop_back_snoc {A} (l : list A) x : pop_back (l ++ [x]) = l.
Proof. unfold pop_back. rewrite length_app, Nat.add_1_r. cbn. apply take_app_length. Qed.

Lemma upper_name_snoc pre c : no_nul pre = true → code c < 255 →
  ∃ d, upper_name (pre ++ [c]) = pre ++ [d] ∧ code d = code c + 1.
Proof.
  intros Hpre Hc. pose proof (code_range c). exists (char_of_int (code c + 1)).
  assert (code (char_of_int (code c + 1)) = code c + 1) as E.
  { unfold code, char_of_int. rewrite N_ascii_embedding; rewrite Z.mod_small; fold (code c); lia. }
  split; [|done]. unfold upper_name. rewrite last_snoc, pop_back_snoc. apply cstr_of_no_nul.
  rewrite no_nul_app, Hpre. cbn. rewrite andb_true_r. apply negb_true_iff, Ascii.eqb_neq. intros E0.
  rewrite E0 in E. change (code NUL) with 0 in E. lia.
Qed.

(** The names that start with [name] are those between it and the name behind it. *)
Lemma prefix_between pre c d s : code d = code c + 1 →
  is_prefix (pre ++ [c]) s = negb (strcmp s (pre ++ [c]) <? 0) && (strcmp s (pre ++ [d]) <? 0).
Proof.
  intros Hd. revert s. induction pre as [|a pre IH]; intros [|x s]; cbn; try done.
  - rewrite andb_true_r. destruct (Ascii.eqb_spec c x) as [->|Hne].
    + rewrite Z.ltb_irrefl. destruct (Z.ltb_spec (code x) (code d)); [|lia]. by destruct s.
    + assert (code c ≠ code x) by (intros E; by apply Hne, code_inj).
      destruct (Z.ltb_spec (code x) (code c)); [done|]. destruct (Z.ltb_spec (code c) (code x)); [|lia].
      destruct (Z.ltb_spec (code x) (code d)); [lia|]. destruct (Z.ltb_spec (code d) (code x)); [done|].
      by destruct s.
  - destruct (Ascii.eqb_spec a x) as [->|Hne]; cbn.
    + rewrite !Z.ltb_irrefl. apply IH.
    + assert (code a ≠ code x) by (intros E; by apply Hne, code_inj).
      destruct (Z.ltb_spec (code x) (code a)); [done|]. by destruct (Z.ltb_spec (code a) (code x)); [|lia].
Qed.

(** *** Searching a list that is sorted by name *)

Section ByName.
Variable (t : table).
Hypotheses (Hc : no_collision (symbolsByName t)) (Ho : ordered CompareName (symbolsByName t)).
#[local] Abbreviation L := (symbolsByName t).

Lemma below_splits name : splits (bn_below (names_of t) name) L (length (List.filter (bn_below (names_of t) name) L)).
Proof.
  apply (ordered_splits CompareName); [done|]. intros x y Hx Hy. rewrite (CompareName_text L) by done.
  unfold bn_below, text_less, by_text. cbn. rewrite !Z.ltb_lt, Z.ltb_ge. intros H1 H2.
  destruct (strcmp_cases (s_name x) (s_name y)) as [|[->|]]; [by eapply strcmp_lt_trans | done |].
  rewrite strcmp_opp in H1. lia.
Qed.

Lemma not_above_splits name :
  splits (bn_not_above (names_of t) name) L (length (List.filter (bn_not_above (names_of t) name) L)).
Proof.
  apply (ordered_splits CompareName); [done|]. intros x y Hx Hy. rewrite (CompareName_text L) by done.
  unfold bn_not_above, text_less, by_text. cbn. rewrite !negb_true_iff, !Z.ltb_ge. intros H1 H2.
  destruct (Z.lt_ge_cases (strcmp name (s_name x)) 0) as [H3|]; [|lia].
  enough (strcmp name (s_name y) < 0) by lia. eapply strcmp_le_trans; [done|]. rewrite strcmp_opp. lia.
Qed.

Lemma equal_range_names name :
  slice L (equal_range (names_of t) name) = List.filter (λ s, bool_decide (s_name s = name)) L.
Proof.
  unfold equal_range. cbn [bn_list names_of].
  rewrite (lower_bound_splits _ _ _ (below_splits name)), (lower_bound_splits _ _ _ (not_above_splits name)).
  rewrite (slice_splits _ _ _ _ _ (below_splits name) (not_above_splits name)).
  - apply filter_ext. intros s. unfold bn_below, bn_not_above, text_less. cbn.
    rewrite (strcmp_opp (s_name s) name). pose proof (strcmp_eq (s_name s) name) as Heq.
    destruct (Z.lt_trichotomy (strcmp (s_name s) name) 0) as [E|[E|E]].
    + rewrite (proj2 (Z.ltb_lt _ _) E). rewrite bool_decide_false; [done|]. rewrite <- Heq. lia.
    + rewrite E. rewrite bool_decide_true; [done|]. by apply Heq.
    + rewrite (proj2 (Z.ltb_lt (- _) 0)) by lia. rewrite bool_decide_false by (rewrite <- Heq; lia).
      apply andb_false_r.
  - intros x _. unfold bn_below, bn_not_above, text_less. cbn. rewrite (strcmp_opp (s_name x) name). intros; lia.
Qed.

Lemma lookup_range_names pre c : no_nul pre = true → code c < 255 →
  slice L (lookup_range (names_of t) (pre ++ [c])) = List.filter (λ s, is_prefix (pre ++ [c]) (s_name s)) L.
Proof.
  intros Hpre Hcc. destruct (upper_name_snoc pre c Hpre Hcc) as (d & Eu & Hd).
  unfold lookup_range. cbn [bn_list bn_name names_of]. rewrite Eu.
  pose proof (below_splits (pre ++ [c])) as Hlo. pose proof (below_splits (pre ++ [d])) as Hup.
  assert (∀ s, bn_below (names_of t) (pre ++ [c]) s = true → bn_below (names_of t) (pre ++ [d]) s = true) as Hmono.
  { intros s. unfold bn_below, text_less. cbn. rewrite !Z.ltb_lt. intros H1. eapply strcmp_lt_trans; [exact H1|].
    clear -Hd. induction pre as [|a pre IH]; cbn; [|by rewrite Z.ltb_irrefl]. by rewrite (proj2 (Z.ltb_lt _ _)) by lia. }
  assert (List.filter (λ s, is_prefix (pre ++ [c]) (s_name s)) L
    = List.filter (λ s, negb (bn_below (names_of t) (pre ++ [c]) s) && bn_below (names_of t) (pre ++ [d]) s) L) as ->.
  { apply filter_ext. intros s. by rewrite (prefix_between pre c d). }
  rewrite (lower_bound_splits _ _ _ Hlo).
  rewrite <- (slice_splits _ _ _ _ _ Hlo Hup) by eauto.
  pose proof (splits_le _ _ _ _ _ Hlo Hup ltac:(eauto)) as Hij.
  set (i := length (List.filter (bn_below (names_of t) (pre ++ [c])) L)) in *.
  set (j := length (List.filter (bn_below (names_of t) (pre ++ [d])) L)) in *.
  destruct (L !! i) as [s|] eqn:Es.
  - rewrite (lower_bound_from_splits _ _ _ _ Hup Hij).
    destruct (is_prefix (pre ++ [c]) (s_name s)) eqn:Ep; [done|].
    assert (i = j) as <-; [|unfold slice; cbn; by rewrite !Nat.sub_diag, !take_0].
    destruct (decide (i = j)) as [|Hne]; [done|]. rewrite (prefix_between pre c d _ Hd) in Ep.
    assert (bn_below (names_of t) (pre ++ [d]) s = true) as E by (apply (proj2 Hup i s Es); lia).
    assert (bn_below (names_of t) (pre ++ [c]) s = false) as E'.
    { apply not_true_is_false. intros E'. apply (proj2 Hlo i s Es) in E'. lia. }
    unfold bn_below, text_less in E, E'. cbn in E, E'. by rewrite E, E' in Ep.
  - apply lookup_ge_None in Es. destruct Hup as [Hj _]. by replace j with (length L) by (destruct Hlo; lia).
Qed.
End ByName.

Section Claims.
Context (unmangle : bytes → option bytes) `{StdSort}.

Lemma read_ok dynamic on_symbol tbl vmemAddr loadAddr upper :
  (∀ e, e ∈ tbl → 0 ≤ e_value e < 2 ^ 64) →
  table_ok (read unmangle dynamic on_symbol tbl vmemAddr loadAddr upper).
Proof.
  intros Ht. split; cbn.
  - intros s. unfold sort_by_addr. rewrite <- std_sort_perm by apply CompareAddr_weak.
    apply read_loop_addresses; [done|]. by intros ? ?%not_elem_of_nil.
  - apply std_sort_ordered, CompareAddr_weak.
  - intros a f. by rewrite lookup_empty.
Qed.

(** C35: a table finds the nearest symbol. In a table that was read from a file, whatever was
    looked up before, looking up an address below the table finds nothing, and any other
    address finds the symbol of the file that starts last at or in front of it, with the
    distance as its offset, so that the address of the result is the address that was asked
    for; it finds nothing only if all symbols start behind the address. *)
Theorem lookups_find_nearest dynamic on_symbol tbl vmemAddr loadAddr upper addrs :
  (∀ e, e ∈ tbl → 0 ≤ e_value e < 2 ^ 64) → Forall (λ a, 0 ≤ a < 2 ^ 64) addrs →
  let t := read unmangle dynamic on_symbol tbl vmemAddr loadAddr upper in
  Forall2 (answers_lookup t (read_loop on_symbol tbl [])) addrs (lookup_all t addrs).
Proof.
  intros Ht Ha t. eapply Forall2_impl; [apply (lookup_all_ok addrs t t); try done; by apply read_ok|].
  intros a r. unfold answers_lookup. destruct (a <? _); [done|]. intros [Hn Hf]. split; [|done].
  eapply nearest_perm; [|exact Hn]. symmetry. apply std_sort_perm, CompareAddr_weak.
Qed.
Lemma filter_perm {A} (p : A → bool) l l' : Permutation l l' →
  Permutation (List.filter p l) (List.filter p l').
Proof.
  induction 1 as [|x l l' _ IH|x y l|l l' l'' _ IH1 _ IH2]; cbn; [done | | |by rewrite IH1].
  - destruct (p x); [by constructor | done].
  - destruct (p x), (p y); try done. apply perm_swap.
Qed.

Lemma no_collision_perm l l' : Permutation l l' → no_collision l → no_collision l'.
Proof. intros Hp Hc s t. rewrite <- Hp. by apply Hc. Qed.

(** The symbols of a name are found. In a mapped table in which the hashes tell the names
    apart, asking for a mangled name gives exactly the symbols of the file with that name, and
    asking for the range of a name gives exactly those whose name starts with it; the number
    that is returned is theirs. *)
Theorem names_found on_symbol tbl vmemAddr loadAddr upper name pre c :
  let l := read_loop on_symbol tbl [] in
  let t := read unmangle false on_symbol tbl vmemAddr loadAddr upper in
  vmemAddr ≠ 0 → l ≠ [] → no_collision l → no_nul pre = true → code c < 255 →
  (∃ r, enum_symbols unmangle t (Some name) true LKUP_ISMANGLED = Enumerated (Z.of_nat (length r)) r
     ∧ Permutation r (List.filter (λ s, bool_decide (s_name s = name)) l))
  ∧ (∃ r, enum_symbols unmangle t (Some (pre ++ [c])) true (LKUP_ISMANGLED + LKUP_RANGE)
          = Enumerated (Z.of_nat (length r)) r
     ∧ Permutation r (List.filter (λ s, is_prefix (pre ++ [c]) (s_name s)) l)).
Proof.
  intros l t Hm Hl Hc Hpre Hcc.
  pose proof (std_sort_perm CompareName l (CompareName_weak l Hc)) as Hp.
  pose proof (std_sort_ordered CompareName l (CompareName_weak l Hc)) as Ho.
  assert (no_collision (symbolsByName t)) as Hc' by by eapply no_collision_perm.
  assert (bool_decide (symbols t = []) = false) as Hne.
  { apply bool_decide_false. intros E. apply Hl, Permutation_nil. rewrite <- E.
    symmetry. apply std_sort_perm, CompareAddr_weak. }
  assert (∀ n mode, has mode LKUP_REGEX = false → has mode LKUP_ISMANGLED = true →
    enum_symbols unmangle t (Some n) true mode
    = Enumerated (Z.of_nat (length (lookup_name (names_of t) n mode))) (lookup_name (names_of t) n mode)) as Henum.
  { intros n mode H1 H2. unfold enum_symbols. rewrite H1, H2, Hne. cbn [t_addr t_dynamic t read].
    rewrite (proj2 (Z.eqb_neq _ _) Hm). cbn. by rewrite app_nil_r, Z.add_0_r. }
  split; (eexists; split; [apply Henum; reflexivity|]); unfold lookup_name.
  - change (has LKUP_ISMANGLED LKUP_RANGE) with false. cbv iota. cbn [bn_list names_of].
    rewrite (equal_range_names t Hc' Ho name). symmetry. by apply filter_perm.
  - change (has (LKUP_ISMANGLED + LKUP_RANGE) LKUP_RANGE) with true. cbv iota. cbn [bn_list names_of].
    rewrite (lookup_range_names t Hc' Ho pre c Hpre Hcc). symmetry. by apply filter_perm.
Qed.
End Claims.

(** In a list of two the search looks at the second element first. *)
Lemma lower_bound_pair {A} (below : A → bool) x y : below y = true → lower_bound below [x; y] = 2%nat.
Proof. intros E. unfold lower_bound. cbn. by rewrite E. Qed.

(** names whose hashes collide are lost. When two names have the same hash, the order by
    which the names are sorted takes them as equal; if the greater one comes first in the
    file, it stays first, and the search for it ends behind both. *)
Theorem colliding_name_lost unmangle x y vx vy loadAddr vmemAddr upper :
  hash_text x = hash_text y → strcmp x y < 0 → x ≠ [] → vx ≠ vy → vx ≠ 0 → vy ≠ 0 → vmemAddr ≠ 0 →
  x ≠ B "gcc2_compiled." → y ≠ B "gcc2_compiled." →
  let tbl := [mk_elf (Some y) vy STT_FUNC; mk_elf (Some x) vx STT_FUNC] in
  let t := read (H := InsertionSort) unmangle false (λ _, true) tbl vmemAddr loadAddr upper in
  In (mk_symbol y vy STT_FUNC) (symbolsByName t)
  ∧ enum_symbols unmangle t (Some y) true LKUP_ISMANGLED = Enumerated 0 [].
Proof.
  intros Hh Hlt Hx Hv Hvx Hvy Hm Gx Gy tbl t.
  destruct x as [|x0 x]; [done|]. destruct y as [|y0 y]; [done|].
  set (sx := mk_symbol (x0 :: x) vx STT_FUNC). set (sy := mk_symbol (y0 :: y) vy STT_FUNC).
  assert (read_loop (λ _, true) tbl [] = [sy; sx]) as El.
  { unfold tbl. cbn [read_loop e_name e_value]. rewrite (proj2 (Z.eqb_neq _ _) Hvy), (proj2 (Z.eqb_neq _ _) Hvx).
    rewrite !bool_decide_false by done. cbn. by rewrite (proj2 (Z.eqb_neq _ _) Hv). }
  assert (symbolsByName t = [sy; sx]) as En.
  { unfold t, read. rewrite El. cbn. unfold CompareName, string_less. cbn [s_name sx sy].
    by rewrite Hh, Z.eqb_refl. }
  assert (bool_decide (symbols t = []) = false) as Hne.
  { apply bool_decide_false. unfold t, read. rewrite El. cbn. by destruct (CompareAddr sx sy). }
  split; [rewrite En; by left|]. unfold enum_symbols. rewrite Hne. cbn [t_addr t_dynamic t read].
  rewrite (proj2 (Z.eqb_neq _ _) Hm). change (has LKUP_ISMANGLED LKUP_REGEX) with false.
  change (has LKUP_ISMANGLED LKUP_ISMANGLED) with true. cbv beta iota zeta. cbn [andb negb].
  assert (lookup_name (names_of t) (y0 :: y) LKUP_ISMANGLED = []) as ->; [|done].
  unfold lookup_name, equal_range. change (has LKUP_ISMANGLED LKUP_RANGE) with false. cbv iota.
  cbn [bn_list names_of]. rewrite En.
  assert (bn_below (names_of t) (y0 :: y) sx = true) as E1 by (by apply Z.ltb_lt).
  assert (bn_not_above (names_of t) (y0 :: y) sx = true) as E2.
  { unfold bn_not_above, text_less. cbn [bn_name bn_ignore_space names_of s_name sx]. rewrite strcmp_opp.
    apply negb_true_iff, Z.ltb_ge. lia. }
  by rewrite !lower_bound_pair.
Qed.

(** ** A small table *)

Module Sample.
Definition f (name : bytes) (v : Z) : elf_symbol := mk_elf (Some name) v STT_FUNC.
Definition file : list elf_symbol :=
  [f (B "main") 0x1100; f (B "foo") 0x1000; mk_elf (Some (B "data")) 0x1000 1; f (B "foobar") 0x1200;
   mk_elf None 0 0].
Definition no_demangler (s : bytes) : option bytes := None.
Definition loaded : table := read (H := InsertionSort) no_demangler false (λ _, true) file 0x7f0000 0 0x800000.
Definition probes : list Z := [0x7f1000; 0x7f1104; 0x10; 0x7f1104; 0x7f0800].

Lemma file_values e : e ∈ file → 0 ≤ e_value e < 2 ^ 64.
Proof. unfold file, f. rewrite !elem_of_cons. intros Hin. destruct_or! Hin; subst; try (cbn; lia). by apply not_elem_of_nil in Hin. Qed.

Lemma file_names : no_collision (read_loop (λ _, true) file []).
Proof.
  intros s t. rewrite !list_elem_of_In. cbn.
  intros [<-|[<-|[<-|[]]]] [<-|[<-|[<-|[]]]]; try done; intros E; vm_compute in E; discriminate.
Qed.
End Sample.

Lemma lookups_find_nearest_witness :
  lookup_all Sample.loaded Sample.probes
  = [Some (mk_found (mk_symbol (B "foo") 0x1000 2) 0); Some (mk_found (mk_symbol (B "main") 0x1100 2) 4);
     None; Some (mk_found (mk_symbol (B "main") 0x1100 2) 4); None]
  ∧ Forall2 (answers_lookup Sample.loaded (read_loop (λ _, true) Sample.file []))
      Sample.probes (lookup_all Sample.loaded Sample.probes).
Proof.
  split; [vm_compute; reflexivity|].
  apply (lookups_find_nearest Sample.no_demangler (H := InsertionSort)); [exact Sample.file_values|].
  unfold Sample.probes. repeat constructor; lia.
Defined.

Lemma names_found_witness :
  (∃ r, enum_symbols Sample.no_demangler Sample.loaded (Some (B "main")) true LKUP_ISMANGLED
        = Enumerated (Z.of_nat (length r)) r
     ∧ Permutation r [mk_symbol (B "main") 0x1100 2])
  ∧ (∃ r, enum_symbols Sample.no_demangler Sample.loaded (Some (B "foo")) true (LKUP_ISMANGLED + LKUP_RANGE)
          = Enumerated (Z.of_nat (length r)) r
     ∧ Permutation r [mk_symbol (B "foo") 0x1000 2; mk_symbol (B "foobar") 0x1200 2]).
Proof.
  apply (names_found Sample.no_demangler (H := InsertionSort) (λ _, true) Sample.file 0x7f0000 0 0x800000
    (B "main") (B "fo") "o"%char); [done | done | exact Sample.file_names | reflexivity | reflexivity].
Defined.

Lemma colliding_name_lost_witness :
  hash_text (B "af") = hash_text (B "ba")
  ∧ enum_symbols Sample.no_demangler
      (read (H := InsertionSort) Sample.no_demangler false (λ _, true)
         [Sample.f (B "ba") 0x1000; Sample.f (B "af") 0x2000] 0x400000 0 0x500000)
      (Some (B "ba")) true LKUP_ISMANGLED = Enumerated 0 [].
Proof.
  split; [vm_compute; reflexivity|].
  apply (colliding_name_lost Sample.no_demangler (B "af") (B "ba") 0x2000 0x1000 0 0x400000 0x500000);
    [vm_compute; reflexivity | reflexivity | done | done | done | done | done | done | done].
Defined.
