(* ===== verification/SymbolMap.v ===== *)
(** * The symbol map of a process ([symbolz/symbol_map.cpp])

    The tables of the mapped modules by the address where they are mapped, and of the
    libraries that are needed but not mapped yet by their path. Files are a parameter: what
    opening a path gives. Whether a table is read at once or when it is first used is an
    option of the observer. *)
From Stdlib Require Import Permutation Sorting.
From S2P Require Import Prelude CLib SharedString SymbolTable.
From stdpp Require Import base list option gmap.
Local Open Scope Z_scope.

(** ** ELF files as the map sees them *)

Record program_header : Type := mk_header { ph_type : Z; ph_vaddr : Z; ph_memsz : Z }.
Record binary : Type := mk_binary {
  b_format : bool;                            (* [check_format] *)
  b_headers : list program_header;
  b_tables : list (bool * list elf_symbol);   (* with the flag of [SHT_DYNSYM] *)
  b_link : bytes                              (* [debug_link]: a file with the debug symbols *)
}.

Definition PT_LOAD : Z := 1.

(** [Binary::get_load_addr] *)
Fixpoint get_load_addr (hs : list program_header) : Z * Z :=
  match hs with
  | [] => (0, 0)
  | h :: hs => if ph_type h =? PT_LOAD then (ph_vaddr h, ph_memsz h) else get_load_addr hs
  end.

Definition PAGE_SIZE : Z := 4096.

(** ** Modules *)

(** A chain of tables behind its head. A stub is a head without symbols of its own; its
    tables are read when they are first asked for. *)
Record module : Type := mk_module {
  m_path : bytes;
  m_stub : bool;
  m_addr : Z;
  m_upper : Z;
  m_adjust : Z;
  m_loaded : bool;
  m_tables : list table
}.

Record symbol_map : Type := mk_map {
  map_ : list (Z * module);            (* std::map: sorted by address *)
  neededTables : list (bytes * module);
  vdsoTables : option table
}.

(** [std::map] *)
Section Ordered.
Context {A : Type}.

Fixpoint om_insert (k : Z) (a : A) (m : list (Z * A)) : list (Z * A) :=
  match m with
  | [] => [(k, a)]
  | (j, b) :: m' =>
      if k <? j then (k, a) :: m else if k =? j then m else (j, b) :: om_insert k a m'
  end.
Definition om_find (k : Z) (m : list (Z * A)) : option A :=
  snd <$> List.find (λ p, p.1 =? k) m.
Definition om_erase (k : Z) (m : list (Z * A)) : list (Z * A) := List.filter (λ p, negb (p.1 =? k)) m.
Definition om_set (k : Z) (a : A) (m : list (Z * A)) : list (Z * A) :=
  map (λ p, if p.1 =? k then (k, a) else p) m.

(** The position of the first key that is not less. *)
Fixpoint om_lower_bound (k : Z) (m : list (Z * A)) : nat :=
  match m with
  | [] => O
  | (j, _) :: m => if j <? k then S (om_lower_bound k m) else O
  end.
End Ordered.

Section SymbolMap.
Context `{StdSort} (unmangle : bytes → option bytes).
Variables (files : bytes → option binary) (on_symbol : symbol → bool) (use_lazy_loading : bool).

(** [get_symbol_tables_binary]: a file without a static table may link to its symbols. *)
Definition get_symbol_tables_binary (path : bytes) : option binary :=
  b ← files path;
  if existsb (λ t, negb t.1) (b_tables b) then Some b
  else match b_link b with [] => Some b | link => files link end.

(** [SymbolTableImpl::read_tables] *)
Definition impl_read_tables (b : binary) (vaddr upper : Z) : list table :=
  if negb (b_format b) then []
  else
    let '(laddr, size) := get_load_addr (b_headers b) in
    let upper := if upper =? 0 then u64 (vaddr + size) else upper in
    map (λ t, read unmangle t.1 on_symbol t.2 vaddr laddr upper) (b_tables b).

(** [lazy_load]; [None]: the file cannot be opened any more, which throws. *)
Definition lazy_load (m : module) : option module :=
  if m_loaded m then Some m
  else
    b ← get_symbol_tables_binary (m_path m);
    Some match impl_read_tables b (m_addr m) (m_upper m) with
         | [] => mk_module (m_path m) (m_stub m) (m_addr m) (m_upper m) (m_adjust m) true []
         | (h :: _) as ts => mk_module (m_path m) (m_stub m) (t_addr h) (t_upper h) (t_adjust h) true ts
         end.

Definition with_map (l : list (Z * module)) (sm : symbol_map) : symbol_map :=
  mk_map l (neededTables sm) (vdsoTables sm).

(** [read_tables(addr, size, path, map)]: the module that is made, if any. *)
Definition new_module (addr size : Z) (path : bytes) : option (Z * module) :=
  b ← get_symbol_tables_binary path;
  if negb (b_format b) then None
  else
    let '(loadAddr, memsz) := get_load_addr (b_headers b) in
    let size :=
      if size =? 0
      then if memsz mod PAGE_SIZE =? 0 then memsz else memsz + (PAGE_SIZE - memsz mod PAGE_SIZE)
      else size in
    let addr := if addr =? 0 then loadAddr else addr in
    let upper := u64 (addr + size) in
    if use_lazy_loading then Some (addr, mk_module path true addr upper 0 false [])
    else
      match impl_read_tables b addr upper with
      | [] => None
      | (h :: _) as ts => Some (addr, mk_module path false (t_addr h) (t_upper h) (t_adjust h) true ts)
      end.

Definition read_tables (addr size : Z) (path : bytes) (sm : symbol_map) : symbol_map :=
  match new_module addr size path with
  | Some (addr, m) => with_map (om_insert addr m (map_ sm)) sm
  | None => sm
  end.

(** ** Lookup by address *)

(** [lookup_table]: its key and the module. *)
Definition lookup_table (addr : Z) (sm : symbol_map) : option (Z * module) :=
  let i := om_lower_bound addr (map_ sm) in
  match map_ sm !! i with
  | Some (k, m) =>
      if k =? addr then Some (k, m)
      else match i with O => None | S j => map_ sm !! j end
  | None => match i with O => None | S j => map_ sm !! j end
  end.

(** The loop over the tables of a module keeps the symbol with the least offset. *)
Fixpoint lookup_chain (ts : list table) (addr : Z) (best : option found) : option found * list table :=
  match ts with
  | [] => (best, [])
  | t :: ts =>
      let '(r, t) := SymbolTable.lookup_symbol t addr in
      let best :=
        match r, best with
        | Some f, Some b => if f_offset f <? f_offset b then Some f else Some b
        | Some f, None => Some f
        | None, _ => best
        end in
      let '(r, ts) := lookup_chain ts addr best in (r, t :: ts)
  end.

Definition set_tables (ts : list table) (m : module) : module :=
  mk_module (m_path m) (m_stub m) (m_addr m) (m_upper m) (m_adjust m) (m_loaded m) ts.

(** The virtual shared object of the process, which the target reads from its memory: the
    file, its address and its size. *)
Variable vdso : option (binary * Z * Z).

(** [ProcessImpl::vdso_symbol_tables]: the first of its tables. *)
Definition vdso_symbol_tables : option table :=
  '(b, addr, size) ← vdso; head (impl_read_tables b addr (u64 (addr + size))).

(** The tables are fetched when they are not there. *)
Definition vdso_lookup (addr : Z) (sm : symbol_map) : option found * symbol_map :=
  match (match vdsoTables sm with None => vdso_symbol_tables | t => t end) with
  | Some t =>
      if (t_addr t <=? addr) && (addr <? t_upper t) then
        let '(r, t) := SymbolTable.lookup_symbol t addr in
        (r, mk_map (map_ sm) (neededTables sm) (Some t))
      else (None, mk_map (map_ sm) (neededTables sm) (Some t))
  | None => (None, sm)
  end.

(** [lookup_symbol]; [None] at the outside: the file of a stub cannot be opened. *)
Definition lookup_symbol (addr : Z) (sm : symbol_map) : option (option found * symbol_map) :=
  match lookup_table addr sm with
  | None => Some (vdso_lookup addr sm)
  | Some (k, m) =>
      m ← lazy_load m;
      let '(r, ts) := lookup_chain (m_tables m) addr None in
      Some (r, with_map (om_set k (set_tables ts m) (map_ sm)) sm)
  end.

(** ** The link map of the dynamic linker *)

Record link_data : Type := mk_link { l_addr : Z; l_filename : bytes }.

(** Mapping and completing paths, and the load address of the program. *)
Variables (resolve : bytes → bytes) (program_load_addr : Z).

(** [set_addr] of a module; a stub that was not read yet is read now. *)
Definition set_module_addr (addr elfLoadAddr : Z) (m : module) : option module :=
  m ← lazy_load (mk_module (m_path m) (m_stub m) addr (u64 (m_upper m + (addr - m_addr m)))
                   (addr - elfLoadAddr) (m_loaded m) (m_tables m));
  Some (set_tables (SymbolTable.set_addr addr elfLoadAddr <$> m_tables m) m).

Definition set_module_upper (upper : Z) (m : module) : module :=
  mk_module (m_path m) (m_stub m) (m_addr m) upper (m_adjust m) (m_loaded m) (m_tables m).

(** [map_library]: a needed library is mapped; [None]: its file cannot be opened. *)
Definition map_library (path : bytes) (loadAddr elfLoadAddr size : Z) (sm : symbol_map)
  : option (bool * symbol_map) :=
  match List.find (λ p, bool_decide (p.1 = path)) (neededTables sm) with
  | Some (_, m) =>
      m ← set_module_addr loadAddr elfLoadAddr m;
      Some (true, mk_map (om_insert loadAddr (set_module_upper (u64 (loadAddr + size)) m) (map_ sm))
                    (List.filter (λ p, negb (bool_decide (p.1 = path))) (neededTables sm)) (vdsoTables sm))
  | None => Some (false, sm)
  end.

(** One entry of the link map, with the addresses that were seen; [None]: a file cannot be
    opened, which throws. *)
Definition update_one (l : link_data) (st : list Z * symbol_map) : option (list Z * symbol_map) :=
  let '(tmp, sm) := st in
  match l_filename l with
  | [] => Some (program_load_addr :: tmp, sm)
  | _ =>
      let path := resolve (l_filename l) in
      b ← files path;
      let '(elfLoadAddr, mappedSize) := get_load_addr (b_headers b) in
      let loadAddr := u64 (l_addr l + elfLoadAddr) in
      let tmp := loadAddr :: tmp in
      let same := match om_find loadAddr (map_ sm) with
        | Some m => bool_decide (m_path m = path)
        | None => false
        end in
      if same then Some (tmp, sm)
      else
        let sm := with_map (om_erase loadAddr (map_ sm)) sm in
        ' (mapped, sm) ← map_library path loadAddr elfLoadAddr mappedSize sm;
        Some (tmp, if (mapped : bool) then sm else read_tables loadAddr mappedSize path sm)
  end.

Fixpoint update_loop (ls : list link_data) (st : list Z * symbol_map) : option (list Z * symbol_map) :=
  match ls with
  | [] => Some st
  | l :: ls => st ← update_one l st; update_loop ls st
  end.

Definition discard_unused (tmp : list Z) (m : list (Z * module)) : list (Z * module) :=
  List.filter (λ p, existsb (Z.eqb p.1) tmp) m.

Definition update (ls : list link_data) (sm : symbol_map) : option symbol_map :=
  ' (tmp, sm) ← update_loop ls ([], sm);
  Some (with_map (discard_unused tmp (map_ sm)) sm).

(** ** Needed libraries *)

Definition is_needed (path : bytes) (sm : symbol_map) : bool :=
  existsb (λ p, bool_decide (p.1 = path)) (neededTables sm).

(** [is_mapped] of a canonical path. *)
Definition is_mapped (path : bytes) (sm : symbol_map) : bool :=
  existsb (λ p, bool_decide (m_path p.2 = path)) (map_ sm).

(** [add_needed_tables]; [same_arch] compares the machine of the library, if it can be read,
    with that of the program. *)
Definition add_needed_tables (same_arch : bytes → bool) (path : bytes) (sm : symbol_map) : symbol_map :=
  if negb (is_needed path sm) && negb (is_mapped path sm) && same_arch path
  then mk_map (map_ sm) (neededTables sm ++ [(path, mk_module path true 0 0 0 false [])]) (vdsoTables sm)
  else sm.

(** [scan_needed_tables(path)]: the dependencies of a file, then the file itself. *)
Definition scan_needed_tables (same_arch : bytes → bool) (dependencies : list bytes) (path : bytes)
  (sm : symbol_map) : symbol_map :=
  add_needed_tables same_arch path (fold_left (λ sm p, add_needed_tables same_arch p sm) dependencies sm).

(** [symbol_table_list] *)
Definition symbol_table_list (path : bytes) (sm : symbol_map) : option module :=
  snd <$> List.find (λ p, bool_decide (m_path p.2 = path)) (map_ sm).
End SymbolMap.
