(* ===== verification/SymbolMapCorrect.v ===== *)
(** * The symbol map finds the nearest symbol and follows the link map

    The ordered containers, the invariant of the map under all of its operations, lookups by
    address over the tables of a module, and the update from the link map. *)
From Stdlib Require Import Permutation Sorting.
From S2P Require Import Prelude CLib SharedString SymbolTable SymbolTableCorrect SymbolMap.
From stdpp Require Import base list option gmap.
Local Open Scope Z_scope.

(** ** Ordered maps *)

Section Ordered.
Context {A : Type}.
Implicit Types m : list (Z * A).

Definition om_sorted m : Prop := StronglySorted (λ p q : Z * A, p.1 < q.1) m.

Lemma om_insert_in k a m p : p ∈ om_insert k a m → p = (k, a) ∨ p ∈ m.
Proof.
  induction m as [|[j b] m IH]; cbn; [rewrite list_elem_of_singleton; by left|].
  destruct (k <? j); [rewrite elem_of_cons; tauto|]. destruct (k =? j); [by right|].
  rewrite !elem_of_cons. tauto.
Qed.

Lemma om_insert_sorted k a m : om_sorted m → om_sorted (om_insert k a m).
Proof.
  induction m as [|[j b] m IH]; intros Hs; cbn; [repeat constructor|].
  apply StronglySorted_inv in Hs as [Hs Hj]. destruct (Z.ltb_spec k j).
  - constructor; [by constructor|]. constructor; [done|]. eapply List.Forall_impl; [|exact Hj]. cbn. lia.
  - destruct (Z.eqb_spec k j); [by constructor|]. constructor; [by apply IH|].
    apply List.Forall_forall. intros p Hp. apply list_elem_of_In, om_insert_in in Hp as [->|Hp]; cbn; [lia|].
    rewrite List.Forall_forall in Hj. by apply Hj, list_elem_of_In.
Qed.

Lemma filter_sorted (f : Z * A → bool) m : om_sorted m → om_sorted (List.filter f m).
Proof.
  induction 1 as [|p m Hs IH Hp]; cbn; [constructor|]. destruct (f p); [|done]. constructor; [done|].
  rewrite List.Forall_forall in *. intros q [Hq _]%filter_In. by apply Hp.
Qed.

Lemma om_set_sorted k a m : om_sorted m → om_sorted (om_set k a m).
Proof.
  assert (∀ p : Z * A, (if p.1 =? k then (k, a) else p).1 = p.1) as Hk.
  { intros p. destruct (Z.eqb_spec p.1 k); cbn; congruence. }
  induction 1 as [|p m Hs IH Hp]; cbn; constructor; [done|]. rewrite List.Forall_forall in *.
  intros q (q0 & <- & Hq0)%in_map_iff. rewrite !Hk. by apply Hp.
Qed.

Lemma om_set_in k a m p : p ∈ om_set k a m → p = (k, a) ∨ p ∈ m.
Proof.
  rewrite !list_elem_of_In. intros (q & <- & Hq)%in_map_iff. destruct (q.1 =? k); [by left | by right].
Qed.

Lemma om_sorted_inj m k a b : om_sorted m → (k, a) ∈ m → (k, b) ∈ m → a = b.
Proof.
  induction 1 as [|[j c] m Hs IH Hp]; [by intros ?%not_elem_of_nil|]. rewrite List.Forall_forall in Hp.
  rewrite !elem_of_cons. intros [E1|H1] [E2|H2]; [congruence | | | by apply IH].
  - injection E1 as <- <-. apply list_elem_of_In, Hp in H2. cbn in H2. lia.
  - injection E2 as <- <-. apply list_elem_of_In, Hp in H1. cbn in H1. lia.
Qed.

Lemma om_find_in k m a : om_sorted m → om_find k m = Some a ↔ (k, a) ∈ m.
Proof.
  intros Hs. unfold om_find. split.
  - destruct (List.find _ m) as [[j b]|] eqn:E; [|done]. cbn. intros [= <-].
    apply find_some in E as [E1 E2]. cbn in E2. apply Z.eqb_eq in E2 as ->. by apply list_elem_of_In.
  - intros Hin. destruct (List.find _ m) as [[j b]|] eqn:E.
    + apply find_some in E as [E1 E2]. cbn in E2. apply Z.eqb_eq in E2 as ->. cbn. f_equal.
      eapply om_sorted_inj; [exact Hs | by apply list_elem_of_In | exact Hin].
    + apply list_elem_of_In, (find_none _ _ E) in Hin. cbn in Hin. lia.
Qed.

(** The keys below the lower bound are the lesser ones. *)
Lemma om_lower_bound_splits k m : om_sorted m → splits (λ p : Z * A, p.1 <? k) m (om_lower_bound k m).
Proof.
  induction 1 as [|[j b] m Hs [Hl IH] Hp]; cbn; [split; [cbn; lia | intros i x; by rewrite lookup_nil]|].
  destruct (Z.ltb_spec j k) as [Hj|Hj]; split; cbn; try lia; intros [|i] x Hx; cbn in Hx.
  - injection Hx as <-. cbn. lia.
  - rewrite (IH i x Hx). lia.
  - injection Hx as <-. cbn. lia.
  - rewrite List.Forall_forall in Hp. specialize (Hp x). cbn in Hp.
    assert (j < x.1) by by apply Hp, list_elem_of_In, (list_elem_of_lookup_2 _ i). lia.
Qed.
End Ordered.

Lemma om_sorted_lookup {A} (m : list (Z * A)) i j p q : om_sorted m →
  m !! i = Some p → m !! j = Some q → (i < j)%nat → p.1 < q.1.
Proof.
  intros Hs. revert i j. induction Hs as [|r m Hs IH Hr]; intros i j Hi Hj Hij; [by rewrite lookup_nil in Hi|].
  destruct j as [|j]; [lia|]. destruct i as [|i]; cbn in *; [|apply (IH i j); [done | done | lia]].
  injection Hi as <-. rewrite List.Forall_forall in Hr. by apply Hr, list_elem_of_In, (list_elem_of_lookup_2 _ j).
Qed.

(** [lookup_table] finds the last module that is mapped at or below an address. *)
Definition is_table (a : Z) (sm : symbol_map) (r : option (Z * module)) : Prop :=
  match r with
  | Some (k, m) => (k, m) ∈ map_ sm ∧ k ≤ a ∧ ∀ k' m', (k', m') ∈ map_ sm → k' ≤ a → k' ≤ k
  | None => ∀ k m, (k, m) ∈ map_ sm → a < k
  end.

Lemma lookup_table_spec a sm : om_sorted (map_ sm) → is_table a sm (lookup_table a sm).
Proof.
  intros Hs. unfold lookup_table. destruct (om_lower_bound_splits a (map_ sm) Hs) as [Hl Hb].
  set (i := om_lower_bound a (map_ sm)) in *. clearbody i.
  assert (∀ j k m, map_ sm !! j = Some (k, m) → k < a ↔ (j < i)%nat) as Hb'.
  { intros j k m Hj. rewrite <- (Hb j _ Hj). cbn. lia. }
  assert ((∀ k m, (k, m) ∈ map_ sm → k ≠ a) →
    is_table a sm match i with O => None | S j => map_ sm !! j end) as Hprev.
  { intros Hne. destruct i as [|i].
    - intros k m Hin. pose proof (Hne k m Hin). apply list_elem_of_lookup in Hin as [j Hj].
      pose proof (Hb' j k m Hj). lia.
    - destruct (lookup_lt_is_Some_2 (map_ sm) i) as [[k m] Hk]; [lia|]. rewrite Hk.
      pose proof (Hb' i k m Hk). split_and!; [by eapply list_elem_of_lookup_2 | lia |].
      intros k' m' Hin Hle. pose proof (Hne k' m' Hin). apply list_elem_of_lookup in Hin as [j Hj].
      pose proof (Hb' j k' m' Hj). destruct (decide (j = i)) as [->|]; [rewrite Hk in Hj; by injection Hj as -> ->|].
      pose proof (om_sorted_lookup _ j i _ _ Hs Hj Hk ltac:(lia)) as Hlt. cbn in Hlt. lia. }
  destruct (map_ sm !! i) as [[k m]|] eqn:Ek.
  - pose proof (Hb' i k m Ek). destruct (Z.eqb_spec k a) as [->|Hka].
    + split_and!; [by eapply list_elem_of_lookup_2 | lia | intros; lia].
    + apply Hprev. intros k' m' [j Hj]%list_elem_of_lookup ->. pose proof (Hb' j a m' Hj).
      destruct (decide (j = i)) as [->|]; [rewrite Ek in Hj; congruence|].
      pose proof (om_sorted_lookup _ i j _ _ Hs Ek Hj ltac:(lia)) as Hlt. cbn in Hlt. lia.
  - apply Hprev. intros k' m' [j Hj]%list_elem_of_lookup ->. pose proof (Hb' j a m' Hj).
    apply lookup_ge_None in Ek. pose proof (lookup_lt_Some _ _ _ Hj). lia.
Qed.

(** ** Chains of tables *)

(** A table of a module that is mapped at [k]. *)
Definition chained (k adj : Z) (t : table) : Prop := table_ok t ∧ t_addr t = k ∧ t_adjust t = adj.

(** An address relative to the module. *)
Definition relative (k adj a : Z) : Z := if k =? 0 then a else u64 (a - adj).

Definition pick (r best : option found) : option found :=
  match r, best with
  | Some f, Some b => if f_offset f <? f_offset b then Some f else Some b
  | Some f, None => Some f
  | None, _ => best
  end.

Lemma nearest_app l1 l2 a r1 r2 : nearest l1 a r1 → nearest l2 a r2 → nearest (l1 ++ l2) a (pick r2 r1).
Proof.
  intros H1 H2. destruct r1 as [f|], r2 as [g|]; cbn in *.
  - destruct H1 as (Hf & Ef & Of & Mf), H2 as (Hg & Eg & Og & Mg).
    assert (∀ s, s ∈ l1 ++ l2 → s_value s ≤ a → s_value s ≤ s_value (f_symbol f) ∨ s_value s ≤ s_value (f_symbol g)) as Hm.
    { intros s [Hs|Hs]%elem_of_app Hle; eauto. }
    destruct (Z.ltb_spec (f_offset g) (f_offset f)); cbn; rewrite elem_of_app; split_and!; auto;
      intros s Hs Hle; destruct (Hm s Hs Hle); lia.
  - destruct H1 as (Hf & Ef & Of & Mf). rewrite elem_of_app. split_and!; auto.
    intros s [Hs|Hs]%elem_of_app Hle; [by auto|]. specialize (H2 s Hs). lia.
  - destruct H2 as (Hg & Eg & Og & Mg). rewrite elem_of_app. split_and!; auto.
    intros s [Hs|Hs]%elem_of_app Hle; [|by auto]. specialize (H1 s Hs). lia.
  - intros s [Hs|Hs]%elem_of_app; auto.
Qed.

Lemma lookup_chain_ok k adj a ts : 0 ≤ a < 2 ^ 64 → k ≤ a → Forall (chained k adj) ts → ∀ l best,
  nearest l (relative k adj a) best →
  nearest (l ++ (ts ≫= symbols)) (relative k adj a) (lookup_chain ts a best).1
  ∧ Forall (chained k adj) (lookup_chain ts a best).2.
Proof.
  intros Ha Hk. induction 1 as [|t ts [Hok [Et Ej]] Hts IH]; intros l best Hl.
  { cbn. by rewrite app_nil_r. }
  cbn [lookup_chain]. pose proof (lookup_symbol_ok t a Ha Hok) as Hlk.
  destruct (SymbolTable.lookup_symbol t a) as [r t']. destruct Hlk as (Hok' & E1 & E2 & E3 & Hr).
  rewrite (proj2 (Z.ltb_ge _ _)) in Hr by lia.
  assert (get_relative_addr t a = relative k adj a) as Erel by (unfold get_relative_addr, relative; by rewrite Et, Ej).
  rewrite Erel in Hr. specialize (IH _ _ (nearest_app _ _ _ _ _ Hl Hr)). unfold pick in IH.
  destruct (lookup_chain ts a _) as [r' ts']. cbn [fst snd] in *. destruct IH as [IH1 IH2]. split.
  - cbn. by rewrite (assoc_L (++)).
  - constructor; [|done]. split_and!; [done | congruence | congruence].
Qed.

(** ** The invariant *)

Record module_ok (k : Z) (m : module) : Prop := {
  mo_addr : m_addr m = k;
  mo_tables : ∃ adj, Forall (chained k adj) (m_tables m);
  mo_unloaded : m_loaded m = false → m_tables m = []
}.

(** A table that is not mapped has not been asked for addresses. *)
Definition fresh (t : table) : Prop := table_ok t ∧ symHash t = ∅.

Record needed_ok (path : bytes) (m : module) : Prop := {
  no_path : m_path m = path;
  no_tables : Forall fresh (m_tables m);
  no_unloaded : m_loaded m = false → m_tables m = []
}.

Record map_ok (sm : symbol_map) : Prop := {
  sm_sorted : om_sorted (map_ sm);
  sm_modules k m : (k, m) ∈ map_ sm → module_ok k m;
  sm_needed p m : (p, m) ∈ neededTables sm → needed_ok p m;
  sm_vdso t : vdsoTables sm = Some t → table_ok t
}.

Section Invariant.
Context `{StdSort} (unmangle : bytes → option bytes).
Variables (files : bytes → option binary) (on_symbol : symbol → bool) (use_lazy_loading : bool).
Hypothesis (files_ok : ∀ path b, files path = Some b →
  ∀ d l e, (d, l) ∈ b_tables b → e ∈ l → 0 ≤ e_value e < 2 ^ 64).

#[local] Abbreviation get_binary := (get_symbol_tables_binary files).
#[local] Abbreviation impl_read := (impl_read_tables unmangle on_symbol).
#[local] Abbreviation load := (lazy_load unmangle files on_symbol).

Lemma get_binary_values path b : get_binary path = Some b →
  ∀ d l e, (d, l) ∈ b_tables b → e ∈ l → 0 ≤ e_value e < 2 ^ 64.
Proof.
  unfold get_symbol_tables_binary. destruct (files path) as [b0|] eqn:E; [cbn|done].
  destruct (existsb _ _); [intros [= <-]; by eapply files_ok|].
  destruct (b_link b0); [intros [= <-]|intros E']; by eapply files_ok.
Qed.

Lemma impl_read_chained path b v upper : get_binary path = Some b →
  Forall (λ t, chained v (v - (get_load_addr (b_headers b)).1) t ∧ symHash t = ∅) (impl_read b v upper).
Proof.
  intros Hb. unfold impl_read_tables. destruct (b_format b); cbn; [|constructor].
  destruct (get_load_addr _) as [laddr sz]. apply Forall_forall.
  intros t ([d l] & <- & Hin)%list_elem_of_In%in_map_iff. split; [|done]. split_and!; [|done | done].
  apply read_ok. intros e. eapply get_binary_values; [done|]. by apply list_elem_of_In.
Qed.

(** Reading the tables of a module keeps its address and its path. *)
Lemma load_tables m m' : load m = Some m' →
  m_path m' = m_path m ∧ m_addr m' = m_addr m
  ∧ (m_loaded m = true ∧ m' = m
     ∨ m_loaded m' = true ∧ ∃ adj, Forall (λ t, chained (m_addr m) adj t ∧ symHash t = ∅) (m_tables m')).
Proof.
  unfold lazy_load. destruct (m_loaded m) eqn:El; [intros [= <-]; by auto|].
  destruct (get_binary (m_path m)) as [b|] eqn:Eb; [cbn|done].
  pose proof (impl_read_chained _ _ (m_addr m) (m_upper m) Eb) as Hc.
  destruct (impl_read b (m_addr m) (m_upper m)) as [|h ts]; intros [= <-]; split_and!; try done.
  - right. split; [done|]. exists 0. constructor.
  - by destruct (Forall_inv Hc) as [(_ & E & _) _].
  - right. split; [done|]. eexists; exact Hc.
Qed.

Lemma lazy_load_ok k m m' : module_ok k m → load m = Some m' → module_ok k m' ∧ m_path m' = m_path m.
Proof.
  intros [Ha Ht Hu] (Ep & Ea & [[El ->]|[El (adj & Hc)]])%load_tables; (split; [|done]).
  - by split.
  - split; [congruence | | congruence]. exists adj. rewrite <- Ha. eapply Forall_impl; [exact Hc|]. by intros t [Ht' _].
Qed.

(** A needed library that is mapped. *)
Lemma set_module_addr_ok path addr elf m m' : needed_ok path m →
  set_module_addr unmangle files on_symbol addr elf m = Some m' → module_ok addr m' ∧ m_path m' = path.
Proof.
  intros [Hp Ht Hu]. unfold set_module_addr. set (m1 := mk_module _ _ addr _ _ _ _).
  destruct (load m1) as [m2|] eqn:El; [cbn|done]. intros [= <-].
  apply load_tables in El as (Ep & Ea & Hcase). cbn in Ep, Ea.
  assert (Forall fresh (m_tables m2) ∧ (m_loaded m2 = false → m_tables m2 = [])) as [Hf Hl].
  { destruct Hcase as [[_ ->]|[El (adj & Hc)]]; [done|]. split; [|congruence].
    eapply Forall_impl; [exact Hc|]. intros t [(Hok & _) He]. by split. }
  split; [|by rewrite <- Hp, <- Ep]. split; [done | | cbn; intros E; by rewrite (Hl E)].
  exists (addr - elf). cbn. apply Forall_fmap. eapply Forall_impl; [exact Hf|].
  intros t [[Hv Ho Hc] He]. split_and!; [|done | done]. split; [done | done |].
  cbn. intros a f. by rewrite He, lookup_empty.
Qed.

Lemma new_module_ok addr size path k m :
  new_module unmangle files on_symbol use_lazy_loading addr size path = Some (k, m) →
  module_ok k m ∧ m_path m = path.
Proof.
  unfold new_module. destruct (get_binary path) as [b|] eqn:Eb; [cbn|done]. destruct (b_format b); [cbn|done].
  destruct (get_load_addr _) as [laddr memsz]. destruct use_lazy_loading.
  - intros [= <- <-]. split; [|done]. split; [done | exists 0; constructor | done].
  - set (v := if addr =? 0 then laddr else addr). set (up := u64 _).
    pose proof (impl_read_chained _ _ v up Eb) as Hc. destruct (impl_read b v up) as [|h ts]; [done|].
    intros [= <- <-]. split; [|done]. split; [by destruct (Forall_inv Hc) as [(_ & E & _) _] | | done].
    eexists. eapply Forall_impl; [exact Hc|]. by intros t [Ht' _].
Qed.
Variables (resolve : bytes → bytes) (program_load_addr : Z) (same_arch : bytes → bool).

#[local] Abbreviation read_t := (read_tables unmangle files on_symbol use_lazy_loading).
#[local] Abbreviation map_lib := (map_library unmangle files on_symbol).
#[local] Abbreviation upd1 := (update_one unmangle files on_symbol use_lazy_loading resolve program_load_addr).
#[local] Abbreviation upd := (update unmangle files on_symbol use_lazy_loading resolve program_load_addr).

Lemma filter_map_ok f sm : map_ok sm → map_ok (with_map (List.filter f (map_ sm)) sm).
Proof.
  intros [Hs Hm Hn Hv]. split; cbn; [by apply filter_sorted | | done | done].
  intros k m Hin. apply Hm. apply list_elem_of_In in Hin. apply filter_In in Hin as [Hin _]. by apply list_elem_of_In.
Qed.

Lemma insert_map_ok k m needed sm : map_ok sm → module_ok k m → (∀ p x, (p, x) ∈ needed → needed_ok p x) →
  map_ok (mk_map (om_insert k m (map_ sm)) needed (vdsoTables sm)).
Proof.
  intros [Hs Hm Hn Hv] Hk Hn'. split; cbn; [by apply om_insert_sorted | | done | done].
  intros k' m' [[= -> ->]|Hin]%om_insert_in; [done | by apply Hm].
Qed.

Lemma read_tables_ok addr size path sm : map_ok sm → map_ok (read_t addr size path sm).
Proof.
  intros Hok. unfold read_tables. destruct (new_module _ _ _ _ _ _ _) as [[k m]|] eqn:E; [|done].
  apply new_module_ok in E as [Hm _]. apply insert_map_ok; [done | done | apply Hok].
Qed.

Lemma map_library_ok path addr elf size sm mapped sm' : map_ok sm →
  map_lib path addr elf size sm = Some (mapped, sm') → map_ok sm'.
Proof.
  intros Hok. unfold map_library. destruct (List.find _ _) as [[p m]|] eqn:Ef; [|by intros [= <- <-]].
  apply find_some in Ef as [Hin _]. apply list_elem_of_In, (sm_needed sm Hok) in Hin.
  destruct (set_module_addr _ _ _ _ _ _) as [m'|] eqn:Em; [cbn|done]. intros [= <- <-].
  destruct (set_module_addr_ok _ _ _ _ _ Hin Em) as [[H1 H2 H3] _].
  apply insert_map_ok; [done | by split |]. intros q x Hx. apply (sm_needed sm Hok).
  apply list_elem_of_In in Hx. apply filter_In in Hx as [Hx _]. by apply list_elem_of_In.
Qed.

Lemma update_one_ok l tmp sm tmp' sm' : map_ok sm → upd1 l (tmp, sm) = Some (tmp', sm') → map_ok sm'.
Proof.
  intros Hok. unfold update_one. destruct (l_filename l) as [|c fname]; [by intros [= <- <-]|].
  destruct (files _) as [b|]; [cbn|done]. destruct (get_load_addr _) as [elf size].
  destruct (om_find _ _) as [m|]; [destruct (bool_decide _); [by intros [= <- <-]|]|];
    destruct (map_library _ _ _ _ _ _ _ _) as [[mapped sm1]|] eqn:E; try done; cbn; intros [= <- <-];
    (apply map_library_ok in E; [|by apply filter_map_ok]); destruct mapped; [done | by apply read_tables_ok | done | by apply read_tables_ok].
Qed.

Lemma update_ok ls sm sm' : map_ok sm → upd ls sm = Some sm' → map_ok sm'.
Proof.
  intros Hok. unfold update. destruct (update_loop _ _ _ _ _ _ _ _) as [[tmp sm1]|] eqn:E; [cbn|done].
  intros [= <-]. apply filter_map_ok. revert Hok E. generalize (@nil Z). revert sm.
  induction ls as [|l ls IH]; intros sm tmp0 Hok; cbn [update_loop]; [by intros [= <- <-]|].
  destruct (upd1 l (tmp0, sm)) as [[tmp1 sm2]|] eqn:E; [cbn|done]. apply IH. by eapply update_one_ok.
Qed.

Lemma add_needed_ok path sm : map_ok sm → map_ok (add_needed_tables same_arch path sm).
Proof.
  intros Hok. unfold add_needed_tables. destruct (_ && _); [|done]. destruct Hok as [Hs Hm Hn Hv].
  split; cbn; try done. intros p m [Hin|Hin%list_elem_of_singleton]%elem_of_app; [by apply Hn|].
  injection Hin as -> ->. split; [done | constructor | done].
Qed.

Lemma scan_needed_ok deps path sm : map_ok sm → map_ok (scan_needed_tables same_arch deps path sm).
Proof.
  intros Hok. apply add_needed_ok. revert sm Hok. induction deps as [|p deps IH]; intros sm Hok; [done|].
  cbn. apply IH. by apply add_needed_ok.
Qed.

Variable vdso : option (binary * Z * Z).
Hypothesis vdso_ok : ∀ b addr size, vdso = Some (b, addr, size) →
  ∀ d l e, (d, l) ∈ b_tables b → e ∈ l → 0 ≤ e_value e < 2 ^ 64.

#[local] Abbreviation vdso_symbol_tables := (vdso_symbol_tables unmangle on_symbol vdso).
#[local] Abbreviation lookup := (SymbolMap.lookup_symbol unmangle files on_symbol vdso).

(** The table of the virtual shared object, once it is fetched. *)
Definition vdso_table (sm : symbol_map) : option table :=
  match vdsoTables sm with None => vdso_symbol_tables | t => t end.

Lemma vdso_table_ok sm t : map_ok sm → vdso_table sm = Some t → table_ok t.
Proof.
  intros Hok. unfold vdso_table. destruct (vdsoTables sm) as [t'|] eqn:Ev; [intros [= <-]; by apply (sm_vdso sm Hok)|].
  unfold SymbolMap.vdso_symbol_tables. destruct vdso as [[[b addr] size]|] eqn:Eb; [cbn [mbind option_bind]|done].
  unfold impl_read_tables. destruct (b_format b); cbn [negb]; [|done]. destruct (get_load_addr _) as [laddr sz].
  pose proof (vdso_ok b addr size eq_refl) as Hv. destruct (b_tables b) as [|[d l] ts]; [done|]. intros [= <-].
  apply read_ok. intros e. apply (Hv d). by left.
Qed.

(** What a lookup in the map is meant to give. *)
Definition map_answer (a : Z) (sm : symbol_map) (r : option found) : Prop :=
  match lookup_table a sm with
  | None =>
      match vdso_table sm with
      | Some t => if (t_addr t <=? a) && (a <? t_upper t) then nearest (symbols t) (get_relative_addr t a) r else r = None
      | None => r = None
      end
  | Some (k, m) => ∃ m1, load m = Some m1 ∧
      match m_tables m1 with
      | [] => r = None
      | t :: _ => nearest (m_tables m1 ≫= symbols) (get_relative_addr t a) r
      end
  end.

Lemma lookup_ok a sm r sm' : 0 ≤ a < 2 ^ 64 → map_ok sm → lookup a sm = Some (r, sm') →
  map_ok sm' ∧ map_answer a sm r.
Proof.
  intros Ha Hok. pose proof (lookup_table_spec a sm (sm_sorted sm Hok)) as Ht. unfold map_answer.
  unfold SymbolMap.lookup_symbol. destruct (lookup_table a sm) as [[k m]|].
  - destruct Ht as (Hin & Hk & _). destruct (load m) as [m1|] eqn:El; [cbn|done].
    apply (sm_modules sm Hok) in Hin. destruct (lazy_load_ok _ _ _ Hin El) as [[H1 [adj Hc] H3] _].
    pose proof (lookup_chain_ok k adj a (m_tables m1) Ha Hk Hc [] None) as Hl.
    destruct (lookup_chain (m_tables m1) a None) as [r1 ts] eqn:Ec. intros [= <- <-]. destruct Hl as [Hn Hts].
    { by intros s ?%not_elem_of_nil. }
    split.
    + destruct Hok as [Hs Hm Hn' Hv]. split; cbn; [by apply om_set_sorted | | done | done].
      intros k' m' [[= -> ->]|Hin']%om_set_in; [|by apply Hm]. split; [done | by exists adj |].
      cbn. intros E. rewrite (H3 E) in Ec. cbn in Ec. by injection Ec as _ <-.
    + exists m1. split; [done|]. cbn in Hn. destruct (m_tables m1) as [|t ts1]; [cbn in Ec; by injection Ec as <- _|].
      destruct (Forall_inv Hc) as (_ & E1 & E2). unfold get_relative_addr. by rewrite E1, E2.
  - intros [= E]. unfold vdso_lookup in E. fold (vdso_table sm) in E.
    pose proof (vdso_table_ok sm) as Hv. destruct (vdso_table sm) as [t|]; [|by injection E as <- <-].
    specialize (Hv t Hok eq_refl). destruct Hok as [Hs Hm Hn _].
    destruct (Z.leb_spec (t_addr t) a) as [Hat|]; [destruct (a <? t_upper t)|]; cbn [andb] in *;
      [|injection E as <- <-; split; [|done]; split; cbn; try done; by intros t' [= <-]..].
    pose proof (lookup_symbol_ok t a Ha Hv) as Hl. destruct (SymbolTable.lookup_symbol t a) as [r1 t1].
    injection E as <- <-. replace (a <? t_addr t) with false in Hl by (symmetry; apply Z.ltb_ge; done).
    split; [|apply Hl]. split; cbn; try done. intros t' [= <-]. apply Hl.
Qed.

(** *** Entries of the link map *)

Definition link_path (l : link_data) : bytes := resolve (l_filename l).
Definition link_addr (l : link_data) : option Z :=
  match l_filename l with
  | [] => None
  | _ => (λ b, u64 (l_addr l + (get_load_addr (b_headers b)).1)) <$> files (link_path l)
  end.
Definition readable (path : bytes) : Prop :=
  ∃ b, get_binary path = Some b ∧ b_format b = true ∧ b_tables b ≠ [].

Lemma new_module_readable addr size path : addr ≠ 0 → readable path →
  ∃ m, new_module unmangle files on_symbol use_lazy_loading addr size path = Some (addr, m) ∧ m_path m = path.
Proof.
  intros Ha (b & Eb & Ef & Et). unfold new_module. rewrite Eb. cbn. rewrite Ef. cbn.
  destruct (get_load_addr (b_headers b)) as [laddr memsz] eqn:El. rewrite (proj2 (Z.eqb_neq _ _) Ha).
  destruct use_lazy_loading; [by eexists|]. unfold impl_read_tables. rewrite Ef, El. cbn.
  destruct (b_tables b) as [|t ts]; [done|]. cbn. by eexists.
Qed.

Lemma om_insert_keep {A} k (a : A) m p : p ∈ m → p ∈ om_insert k a m.
Proof.
  induction m as [|[j b] m IH]; cbn; [by intros ?%not_elem_of_nil|].
  destruct (k <? j); [by right|]. destruct (k =? j); [done|]. rewrite !elem_of_cons. tauto.
Qed.

Lemma om_insert_new {A} k (a : A) m : (∀ b, (k, b) ∉ m) → (k, a) ∈ om_insert k a m.
Proof.
  induction m as [|[j b] m IH]; cbn; intros Hk; [by left|]. destruct (k <? j); [by left|].
  destruct (Z.eqb_spec k j) as [->|]; [destruct (Hk b); by left|]. right. apply IH. intros c Hc. apply (Hk c). by right.
Qed.

Lemma om_erase_in {A} k (m : list (Z * A)) p : p ∈ om_erase k m ↔ p ∈ m ∧ p.1 ≠ k.
Proof.
  rewrite !list_elem_of_In. unfold om_erase. rewrite filter_In. rewrite negb_true_iff, Z.eqb_neq. done.
Qed.

(** The address is recorded, the module is there, and the other modules stay. *)
Lemma update_one_entry l k tmp sm tmp' sm' : map_ok sm → link_addr l = Some k → k ≠ 0 →
  upd1 l (tmp, sm) = Some (tmp', sm') →
  tmp' = k :: tmp ∧ (∀ k' m, k' ≠ k → (k', m) ∈ map_ sm → (k', m) ∈ map_ sm')
  ∧ (readable (link_path l) → ∃ m, (k, m) ∈ map_ sm' ∧ m_path m = link_path l).
Proof.
  intros Hok. unfold link_addr, update_one. fold (link_path l). destruct (l_filename l) as [|c f]; [done|].
  destruct (files (link_path l)) as [b|]; [cbn|done]. destruct (get_load_addr (b_headers b)) as [elf size]. cbn.
  intros [= Ek] Hk0. rewrite Ek. set (sm1 := with_map _ sm).
  assert (∀ tmp' sm', (' (mapped, sm2) ← map_lib (link_path l) k elf size sm1;
     Some (k :: tmp, if (mapped : bool) then sm2 else read_t k size (link_path l) sm2)) = Some (tmp', sm') →
    tmp' = k :: tmp ∧ (∀ k' m, k' ≠ k → (k', m) ∈ map_ sm → (k', m) ∈ map_ sm')
    ∧ (readable (link_path l) → ∃ m, (k, m) ∈ map_ sm' ∧ m_path m = link_path l)) as Hmiss.
  { clear tmp' sm'. intros tmp' sm'.
    assert (∀ k' m, k' ≠ k → (k', m) ∈ map_ sm → (k', m) ∈ map_ sm1) as Hkeep by (intros; by apply om_erase_in).
    assert (∀ m, (k, m) ∉ map_ sm1) as Hnew by (intros m Hm; by apply om_erase_in in Hm as [_ Hm]).
    unfold map_library. destruct (List.find _ _) as [[p m]|] eqn:Ef.
    - apply find_some in Ef as [Hin Hp]. cbn in Hp. apply bool_decide_eq_true in Hp as ->.
      apply list_elem_of_In, (sm_needed sm Hok) in Hin.
      destruct (set_module_addr _ _ _ _ _ _) as [m'|] eqn:Em; [cbn|done]. intros [= <- <-].
      destruct (set_module_addr_ok _ _ _ _ _ Hin Em) as [_ Hpath]. split_and!; [done | |].
      + intros. apply om_insert_keep. by apply Hkeep.
      + intros _. eexists. split; [by apply om_insert_new | done].
    - cbn. intros [= <- <-]. unfold read_tables. split_and!; [done | |].
      + intros k' m Hk' Hm. destruct (new_module _ _ _ _ _ _ _) as [[j x]|]; [apply om_insert_keep|]; by apply Hkeep.
      + intros (m & -> & Hp)%(new_module_readable k size); [|done]. exists m. by split; [apply om_insert_new|]. }
  destruct (om_find k (map_ sm)) as [m|] eqn:Ef; [case_bool_decide as Ep|]; [|apply Hmiss | apply Hmiss].
  intros [= <- <-]. split_and!; [done | done |]. intros _. exists m. split; [|done].
  apply om_find_in in Ef; [done | apply Hok].
Qed.

Lemma update_one_nameless l tmp sm tmp' sm' : link_addr l = None → upd1 l (tmp, sm) = Some (tmp', sm') →
  tmp' = program_load_addr :: tmp ∧ sm' = sm.
Proof.
  unfold link_addr, update_one. fold (link_path l). destruct (l_filename l) as [|c f]; [by intros _ [= <- <-]|].
  by destruct (files (link_path l)) as [b|].
Qed.

#[local] Abbreviation upd_loop := (update_loop unmangle files on_symbol use_lazy_loading resolve program_load_addr).

(** The loop records the addresses of the entries, keeps the modules that no entry of the link
    map is about, and puts those in place that an entry is about. *)
Lemma update_loop_entries ls : NoDup (omap link_addr ls) → (∀ l, l ∈ ls → link_addr l ≠ Some 0) →
  ∀ tmp sm tmp' sm', map_ok sm → upd_loop ls (tmp, sm) = Some (tmp', sm') →
  (∀ k, k ∈ tmp' → k ∈ tmp ∨ k ∈ omap link_addr ls ∨ k = program_load_addr)
  ∧ (∀ k, k ∈ tmp ∨ k ∈ omap link_addr ls → k ∈ tmp')
  ∧ (∀ k m, k ∉ omap link_addr ls → (k, m) ∈ map_ sm → (k, m) ∈ map_ sm')
  ∧ ∀ l k, l ∈ ls → link_addr l = Some k → readable (link_path l) →
      ∃ m, (k, m) ∈ map_ sm' ∧ m_path m = link_path l.
Proof.
  induction ls as [|l ls IH]; intros Hnd H0 tmp sm tmp' sm' Hok.
  { intros [= <- <-]. split_and!; [by left | | done | by intros l k ?%not_elem_of_nil].
    by intros k [|?%not_elem_of_nil]. }
  cbn [update_loop]. destruct (upd1 l (tmp, sm)) as [[tmp1 sm1]|] eqn:E1; [cbn [mbind option_bind]|done]. intros E2.
  assert (map_ok sm1) as Hok1 by by eapply update_one_ok.
  assert (∀ l', l' ∈ ls → link_addr l' ≠ Some 0) as H0' by (intros l' Hl'; apply H0; by right).
  destruct (link_addr l) as [k0|] eqn:Ek; cbn [omap list_omap] in Hnd |- *; rewrite Ek in Hnd |- *.
  - apply NoDup_cons in Hnd as [Hnin Hnd].
    destruct (update_one_entry _ _ _ _ _ _ Hok Ek ltac:(intros ->; by apply (H0 l); [left|]) E1) as (-> & Hkeep & Hnew).
    destruct (IH Hnd H0' _ _ _ _ Hok1 E2) as (I1 & I2 & I3 & I4). split_and!.
    + intros k [[->|]%elem_of_cons|[|]]%I1; rewrite ?elem_of_cons; auto.
    + intros k [|[->|]%elem_of_cons]; apply I2; rewrite ?elem_of_cons; auto.
    + intros k m [Hne Hk]%not_elem_of_cons Hm. apply I3; [done|]. by apply Hkeep.
    + intros l' k [->|Hl']%elem_of_cons El Hr; [|by apply I4].
      rewrite Ek in El. injection El as <-. destruct (Hnew Hr) as (m & Hm & Hp). exists m. by split; [apply I3|].
  - destruct (update_one_nameless _ _ _ _ _ Ek E1) as [-> ->].
    destruct (IH Hnd H0' _ _ _ _ Hok1 E2) as (I1 & I2 & I3 & I4). split_and!; [| |done|].
    + intros k [[->|]%elem_of_cons|[|]]%I1; auto.
    + intros k [|]; apply I2; rewrite ?elem_of_cons; auto.
    + intros l' k [->|Hl']%elem_of_cons El Hr; [congruence | by eapply I4].
Qed.
End Invariant.

(** ** Reachable maps *)

Inductive map_op : Type :=
| MRead (addr size : Z) (path : bytes)
| MUpdate (ls : list link_data)
| MNeed (dependencies : list bytes) (path : bytes)
| MLookup (a : Z).

Section Claims.
Context `{StdSort} (unmangle : bytes → option bytes).
Context (files : bytes → option binary) (on_symbol : symbol → bool) (use_lazy_loading : bool).
Context (resolve : bytes → bytes) (program_load_addr : Z) (same_arch : bytes → bool).
Context (vdso : option (binary * Z * Z)).

(** An operation; [None] when it throws. *)
Definition run_map_op (op : map_op) (sm : symbol_map) : option symbol_map :=
  match op with
  | MRead addr size path => Some (read_tables unmangle files on_symbol use_lazy_loading addr size path sm)
  | MUpdate ls => update unmangle files on_symbol use_lazy_loading resolve program_load_addr ls sm
  | MNeed deps path => Some (scan_needed_tables same_arch deps path sm)
  | MLookup a => snd <$> SymbolMap.lookup_symbol unmangle files on_symbol vdso a sm
  end.

Fixpoint run_map_ops (ops : list map_op) (sm : symbol_map) : option symbol_map :=
  match ops with
  | [] => Some sm
  | op :: ops => sm ← run_map_op op sm; run_map_ops ops sm
  end.

Definition address_ops (ops : list map_op) : Prop := ∀ a, MLookup a ∈ ops → 0 ≤ a < 2 ^ 64.

(** The addresses of the symbols in the files are words. *)
Definition words_ok (b : binary) : Prop := ∀ d l e, (d, l) ∈ b_tables b → e ∈ l → 0 ≤ e_value e < 2 ^ 64.
Definition values_ok : Prop :=
  (∀ path b, files path = Some b → words_ok b) ∧ ∀ b addr size, vdso = Some (b, addr, size) → words_ok b.

Lemma run_map_ok ops : values_ok → address_ops ops → ∀ sm sm',
  map_ok sm → run_map_ops ops sm = Some sm' → map_ok sm'.
Proof.
  intros [Hf Hv]. induction ops as [|op ops IH]; intros Ha sm sm' Hok; [by intros [= <-]|]. cbn [run_map_ops].
  destruct (run_map_op op sm) as [sm1|] eqn:E; [cbn [mbind option_bind]|done]. apply IH.
  { intros a Hin. apply Ha. by right. }
  destruct op as [addr size path|ls|deps path|a]; cbn in E.
  - injection E as <-. by apply read_tables_ok.
  - by eapply update_ok.
  - injection E as <-. by apply scan_needed_ok.
  - destruct (SymbolMap.lookup_symbol _ _ _ _ a sm) as [[r sm2]|] eqn:El; [|done]. injection E as <-.
    eapply lookup_ok in El; [apply El | try done; apply Ha; by left..].
Qed.

Definition empty_map : symbol_map := mk_map [] [] None.

Lemma empty_map_ok : map_ok empty_map.
Proof. split; cbn; try done; [constructor | by intros k m ?%not_elem_of_nil | by intros p m ?%not_elem_of_nil]. Qed.

(** C38: the symbol map finds the nearest symbol. Whatever modules were read, mapped, unmapped
    and looked up before, looking up an address consults the module that is mapped last at or
    below it, and finds among the symbols of all of its tables the one that starts last at or
    in front of the address; where no module is mapped, the nearest symbol of the table of the
    virtual shared object, if the address is in it. The map stays in order. *)
Theorem map_finds_nearest ops sm a r sm' :
  values_ok → address_ops ops → 0 ≤ a < 2 ^ 64 →
  run_map_ops ops empty_map = Some sm →
  SymbolMap.lookup_symbol unmangle files on_symbol vdso a sm = Some (r, sm') →
  is_table a sm (lookup_table a sm) ∧ map_answer unmangle files on_symbol vdso a sm r ∧ om_sorted (map_ sm').
Proof.
  intros Hf Hops Ha Hrun Hl. assert (map_ok sm) as Hok by (eapply run_map_ok; eauto using empty_map_ok).
  apply lookup_ok in Hl as [Hok' Hans]; [|destruct Hf; done..].
  split_and!; [by apply lookup_table_spec, Hok | done | by apply Hok'].
Qed.

(** C39: the symbol map follows the link map. When an update from the link map succeeds, with
    modules at distinct addresses, every module of the map is at the address of an entry or of
    the program, and every entry whose file can be read has its module in the map, under its
    address and with its path. *)
Theorem update_follows_links ops sm ls sm' :
  values_ok → address_ops ops → run_map_ops ops empty_map = Some sm →
  NoDup (omap (link_addr files resolve) ls) → (∀ l, l ∈ ls → link_addr files resolve l ≠ Some 0) →
  update unmangle files on_symbol use_lazy_loading resolve program_load_addr ls sm = Some sm' →
  (∀ k m, (k, m) ∈ map_ sm' → k ∈ omap (link_addr files resolve) ls ∨ k = program_load_addr)
  ∧ ∀ l k, l ∈ ls → link_addr files resolve l = Some k → readable files (link_path resolve l) →
      ∃ m, om_find k (map_ sm') = Some m ∧ m_path m = link_path resolve l.
Proof.
  intros Hf Hops Hrun Hnd H0 Hu. assert (map_ok sm) as Hok by (eapply run_map_ok; eauto using empty_map_ok).
  destruct Hf as [Hf _]. assert (map_ok sm') as Hok' by by eapply update_ok. revert Hu. unfold update.
  destruct (update_loop _ _ _ _ _ _ _ _) as [[tmp sm1]|] eqn:E; [cbn [mbind option_bind]|done]. intros [= <-].
  apply update_loop_entries in E as (I1 & I2 & _ & I4); try done. split.
  - intros k m Hin. apply list_elem_of_In in Hin. apply filter_In in Hin as [_ Hk]. cbn in Hk.
    apply existsb_exists in Hk as (k' & Hin' & ->%Z.eqb_eq). apply list_elem_of_In, I1 in Hin'.
    destruct Hin' as [?%not_elem_of_nil|]; [done | done].
  - intros l k Hl Ek Hr. destruct (I4 l k Hl Ek Hr) as (m & Hm & Hp). exists m. split; [|done].
    apply om_find_in; [by apply Hok'|]. cbn. apply list_elem_of_In, filter_In. split; [by apply list_elem_of_In|].
    apply existsb_exists. exists k. split; [|by apply Z.eqb_refl]. apply list_elem_of_In, I2. right.
    apply list_elem_of_omap. by exists l.
Qed.
End Claims.

(** ** A process with a library *)

Module Sample.
Definition program : binary :=
  mk_binary true [mk_header 6 0 64; mk_header PT_LOAD 0x400000 0x2000]
    [(false, [mk_elf (Some (B "main")) 0x400100 STT_FUNC])] [].
Definition library : binary :=
  mk_binary true [mk_header PT_LOAD 0 0x3000]
    [(true, [mk_elf (Some (B "puts")) 0x1000 STT_FUNC]);
     (false, [mk_elf (Some (B "_start")) 0x800 STT_FUNC; mk_elf (Some (B "puts_end")) 0x1080 STT_FUNC])] [].
Definition files (path : bytes) : option binary :=
  if bool_decide (path = B "/bin/p") then Some program
  else if bool_decide (path = B "/lib/l") then Some library else None.
Definition no_demangler (s : bytes) : option bytes := None.
Definition yes {A} (x : A) : bool := true.
Definition same (s : bytes) : bytes := s.

Definition links : list link_data := [mk_link 0 []; mk_link 0x7f000000 (B "/lib/l")].
Definition ops : list map_op :=
  [MRead 0x400000 0 (B "/bin/p"); MNeed [B "/lib/l"] (B "/bin/p"); MUpdate links; MLookup 0x7f001010].

(** The virtual shared object: a function of the kernel. *)
Definition kernel_page : option (binary * Z * Z) :=
  Some (mk_binary true [mk_header PT_LOAD 0 0x1000] [(true, [mk_elf (Some (B "__vdso_time")) 0x600 STT_FUNC])] [],
        0x10000, 0x1000).

Definition run (l : list map_op) : option symbol_map :=
  run_map_ops (H := InsertionSort) no_demangler files yes true same 0x400000 yes kernel_page l empty_map.
Definition mapped : symbol_map := default empty_map (run ops).

Lemma files_values : values_ok files kernel_page.
Proof.
  split; [intros path b; unfold files; case_bool_decide; [intros [= <-]|case_bool_decide; [intros [= <-]|done]]
         | intros b addr size [= <- _ _]];
    intros d l e; cbn; rewrite !list_elem_of_In; cbn; intros Hl He; repeat destruct Hl as [[= <- <-]|Hl]; try done;
    cbn in He; destruct_or! He; subst; cbn; try lia; done.
Qed.

Lemma ops_in_range : address_ops ops.
Proof. intros a. unfold ops. rewrite !elem_of_cons. intros Hin. destruct_or! Hin; simplify_eq; [lia | by apply not_elem_of_nil in Hin]. Qed.
End Sample.

Lemma map_finds_nearest_witness :
  ∃ sm', SymbolMap.lookup_symbol (H := InsertionSort) Sample.no_demangler Sample.files Sample.yes Sample.kernel_page 0x7f001010 Sample.mapped
         = Some (Some (mk_found (mk_symbol (B "puts") 0x1000 2) 0x10), sm')
  ∧ map_answer (H := InsertionSort) Sample.no_demangler Sample.files Sample.yes Sample.kernel_page 0x7f001010 Sample.mapped
      (Some (mk_found (mk_symbol (B "puts") 0x1000 2) 0x10)).
Proof.
  eexists. split; [vm_compute; reflexivity|].
  eapply (map_finds_nearest (H := InsertionSort) Sample.no_demangler Sample.files Sample.yes true Sample.same 0x400000
    Sample.yes Sample.kernel_page Sample.ops Sample.mapped 0x7f001010);
    [exact Sample.files_values | exact Sample.ops_in_range | lia | vm_compute; reflexivity | vm_compute; reflexivity].
Defined.

Lemma update_follows_links_witness :
  ∃ sm m, Sample.run [MRead 0x400000 0 (B "/bin/p"); MUpdate Sample.links] = Some sm
  ∧ om_find 0x7f000000 (map_ sm) = Some m ∧ m_path m = B "/lib/l"
  ∧ ∀ k m, (k, m) ∈ map_ sm → k ∈ [0x7f000000] ∨ k = 0x400000.
Proof.
  destruct (Sample.run [MRead 0x400000 0 (B "/bin/p")]) as [sm0|] eqn:E0; [|vm_compute in E0; discriminate].
  destruct (Sample.run [MRead 0x400000 0 (B "/bin/p"); MUpdate Sample.links]) as [sm|] eqn:E;
    [|vm_compute in E; discriminate].
  destruct (update_follows_links (H := InsertionSort) Sample.no_demangler Sample.files Sample.yes true Sample.same 0x400000
    Sample.yes Sample.kernel_page [MRead 0x400000 0 (B "/bin/p")] sm0 Sample.links sm) as [H1 H2].
  - exact Sample.files_values.
  - intros a [|?%not_elem_of_nil]%elem_of_cons; done.
  - exact E0.
  - apply (NoDup_singleton 0x7f000000).
  - intros l. unfold Sample.links. rewrite !elem_of_cons. intros Hl. destruct_or! Hl; subst; try done.
    by apply not_elem_of_nil in Hl.
  - vm_compute in E0. injection E0 as <-. vm_compute in E. injection E as <-. vm_compute; reflexivity.
  - destruct (H2 (mk_link 0x7f000000 (B "/lib/l")) 0x7f000000) as (m & Hm & Hp).
    + right. by left.
    + reflexivity.
    + exists Sample.library. by split_and!.
    + exists sm, m. split_and!; [done | done | done |]. exact H1.
Defined.

(** Below the program there is only the virtual shared object, whose table is fetched by the
    first lookup that needs it. *)
Example vdso_found :
  (λ p, (p.1, bool_decide (is_Some (vdsoTables p.2))))
    <$> SymbolMap.lookup_symbol (H := InsertionSort) Sample.no_demangler Sample.files Sample.yes Sample.kernel_page 0x10604 Sample.mapped
  = Some (Some (mk_found (mk_symbol (B "__vdso_time") 0x600 2) 4), true)
  ∧ vdsoTables Sample.mapped = None.
Proof. by vm_compute. Qed.
