(* ===== verification/Dwarf.v ===== *)
(** * Locations and frames in DWARF debug information

    [dwarfz/location.cpp], [dwarfz/unwind.cpp], [dwarfz/public/abi_x86.h],
    [plugin/dwarf/addr_operations.h] and [Reader::unwind_step] of [plugin/dwarf/reader.cpp]:
    the stack machine that computes the address of a variable, and one step from a stack
    frame to the frame of its caller. The memory and the registers of the debuggee are the
    interface [AddrOps]; what the library libdwarf reads from the file is a parameter,
    [Dwarf_Debug]. The host is x86-64 and debugs programs of 64 and of 32 bits. Assertions
    are not modelled, nor the frames that the reader makes up for inlined functions when the
    environment asks for them; the variable that makes an empty stack abort is not set. *)
From S2P Require Import Effects.

Definition u64 (n : Z) : Z := n mod 2 ^ 64.

(** ** The debuggee *)

Record AddrOps : Type := mk_ops {
  read_mem : Z → outcome Z;
  read_cpu_reg : Z → bool → outcome Z;
  is_32_bit : bool
}.

(** ** Register numbers

    A register of DWARF is mapped to an index in [user_regs_struct], or to the negated offset
    in [user_fpregs_struct]. *)

Definition regMap : list Z :=
  [10; 12; 11; 5; 13; 14; 4; 19; 9; 8; 7; 6; 3; 2; 1; 0; 16]        (* rax to rip *)
  ++ map (λ i, - (160 + 16 * i)) (seqZ 0 16)                        (* xmm_space[4 * i] *)
  ++ map (λ i, - (32 + 16 * i)) (seqZ 0 8)                          (* st_space[4 * i] *)
  ++ map (λ i, - (160 + 8 * i)) (seqZ 0 8)                          (* xmm_space[2 * i] *)
  ++ [18; 24; 17; 20; 23; 25; 26].                                  (* eflags, es, cs, ss, ds, fs, gs *)

Definition regMap32 : list Z := [10; 11; 12; 5; 19; 4; 13; 14; 16; 18].

Definition reg_map (ops : AddrOps) : list Z := if is_32_bit ops then regMap32 else regMap.
Definition user_reg_count (ops : AddrOps) : Z := Z.of_nat (length (reg_map ops)).
Definition user_reg_pc (ops : AddrOps) : Z := if is_32_bit ops then 8 else 16.
Definition user_reg_fp (ops : AddrOps) : Z := if is_32_bit ops then 5 else 6.
Definition user_reg_sp (ops : AddrOps) : Z := if is_32_bit ops then 4 else 7.

(** A number out of range is reported, and -1 is the index. *)
Definition user_reg_index (ops : AddrOps) (n : Z) : Z :=
  if n <? user_reg_count ops then default (-1) (reg_map ops !! Z.to_nat n) else -1.

(** ** What libdwarf provides *)

Record Dwarf_Loc : Type := mk_loc { lr_atom : Z; lr_number : Z }.
Record Dwarf_Locdesc : Type := mk_desc { ld_lopc : Z; ld_hipc : Z; ld_s : list Dwarf_Loc }.

(** A rule for a register: its value type, whether there is an offset, the register, and
    the offset or the block of an expression. *)
Record Regtable_Entry3 : Type := mk_entry {
  dw_offset_relevant : bool;
  dw_value_type : Z;
  dw_regnum : Z;
  dw_offset_or_block_len : Z;
  dw_block_ptr : option (list Z)
}.

Record Regtable3 : Type := mk_regtable { rt3_cfa_rule : Regtable_Entry3; rt3_rules : list Regtable_Entry3 }.

(** What the library knows of a program counter. *)
Inductive fde_lookup : Type :=
| NO_ENTRY
| DLV_ERROR
| DLV_OK (regs : Regtable3).

Record Dwarf_Debug : Type := mk_dbg {
  fde_ : option (Z → fde_lookup);                       (* there may be no frame descriptors *)
  loclist_from_expr : list Z → option Dwarf_Locdesc     (* the operations of a block of bytes *)
}.

Definition DW_REG_TABLE_SIZE : Z := 66.
Definition DW_FRAME_UNDEFINED_VAL : Z := 1034.
Definition DW_FRAME_SAME_VAL : Z := 1035.
Definition DW_EXPR_OFFSET : Z := 0.
Definition DW_EXPR_VAL_OFFSET : Z := 1.
Definition DW_EXPR_EXPRESSION : Z := 2.
Definition DW_EXPR_VAL_EXPRESSION : Z := 3.

Definition DW_OP_addr := 0x03.
Definition DW_OP_deref := 0x06.
Definition DW_OP_const1u := 0x08.
Definition DW_OP_const1s := 0x09.
Definition DW_OP_const2u := 0x0a.
Definition DW_OP_const2s := 0x0b.
Definition DW_OP_const4u := 0x0c.
Definition DW_OP_const4s := 0x0d.
Definition DW_OP_const8u := 0x0e.
Definition DW_OP_const8s := 0x0f.
Definition DW_OP_constu := 0x10.
Definition DW_OP_consts := 0x11.
Definition DW_OP_dup := 0x12.
Definition DW_OP_minus := 0x1c.
Definition DW_OP_plus := 0x22.
Definition DW_OP_plus_uconst := 0x23.
Definition DW_OP_lit0 := 0x30.
Definition DW_OP_lit31 := 0x4f.
Definition DW_OP_reg0 := 0x50.
Definition DW_OP_reg31 := 0x6f.
Definition DW_OP_breg0 := 0x70.
Definition DW_OP_breg31 := 0x8f.
Definition DW_OP_regx := 0x90.
Definition DW_OP_fbreg := 0x91.
Definition DW_OP_piece := 0x93.
Definition DW_OP_call_frame_cfa := 0x9c.
Definition DW_OP_stack_value := 0x9f.

(** ** Registers of a frame *)

Inductive reg_state : Type := REG_NA | REG_READY | REG_PENDING.

Record reg_value : Type := mk_reg { state : reg_state; value : Z }.

(** [regs], an array of [DW_REG_TABLE_SIZE]. *)
Abbreviation RegTable := (list reg_value).
Definition new_regs : RegTable := replicate (Z.to_nat DW_REG_TABLE_SIZE) (mk_reg REG_NA 0).

(** Runs a computation that does not change the state. *)
Definition run {S A} (m : outcome A) : eff S A := λ s, (m, s).

Definition reg_at (n : Z) : eff RegTable reg_value := λ frame,
  match frame !! Z.to_nat n with
  | Some r => (Ret r, frame)
  | None => (Raise Undefined, frame)
  end.

Definition set_reg (n : Z) (r : reg_value) : eff RegTable unit := modify (insert (Z.to_nat n) r).

(** The value that was computed for the frame, or else that of the processor: the first
    [get_reg], and the same lines elsewhere. *)
Definition saved_reg (ops : AddrOps) (n : Z) : eff RegTable Z :=
  r ← reg_at n;
  match state r with
  | REG_READY => mret (value r)
  | _ => run (read_cpu_reg ops (user_reg_index ops n) true)
  end.

(** [get_dwarf_regtable] *)
Definition get_dwarf_regtable (dbg : Dwarf_Debug) (pc : Z) : outcome (option Regtable3) :=
  match fde_ dbg with
  | None => Ret None
  | Some find =>
      match find pc with
      | NO_ENTRY => Ret None
      | DLV_ERROR => Raise RuntimeError
      | DLV_OK regs => Ret (Some regs)
      end
  end.

(** The canonical frame address. *)
Definition compute_cfa (ops : AddrOps) (regs : Regtable3) : eff RegTable Z :=
  let rule := rt3_cfa_rule regs in
  if dw_regnum rule =? DW_FRAME_SAME_VAL then mret 0
  else
    cfa ← saved_reg ops (dw_regnum rule);
    mret (if dw_offset_relevant rule then u64 (cfa + dw_offset_or_block_len rule) else cfa).

(** [Unwind::compute_cfa] *)
Definition unwind_compute_cfa (dbg : Dwarf_Debug) (ops : AddrOps) (pc : Z) : outcome Z :=
  match fde_ dbg with
  | None => Ret 0
  | Some _ =>
      match get_dwarf_regtable dbg pc with
      | Raise e => Raise e
      | Ret None => Ret 0
      | Ret (Some regs) => (compute_cfa ops regs new_regs).1
      end
  end.

(** ** The stack machine *)

(** The stack, top first, and [isValue]. *)
Record machine : Type := mk_machine { stack : list Z; is_value : bool }.

Definition push (a : Z) : eff machine unit := modify (λ m, mk_machine (u64 a :: stack m) (is_value m)).
Definition set_stack (l : list Z) : eff machine unit := modify (λ m, mk_machine l (is_value m)).

Definition handle_empty_stack : eff machine unit := throw RuntimeError.

Definition op_deref (ops : AddrOps) : eff machine unit :=
  s ← gets stack;
  match s with
  | [] => handle_empty_stack
  | top :: s => addr ← run (read_mem ops top); set_stack s;; push addr
  end.

Definition op_plus_uconst (operand : Z) : eff machine unit :=
  s ← gets stack;
  match s with
  | [] => handle_empty_stack
  | top :: s => set_stack s;; push (top + operand)
  end.

(** With less than two operands the operation is reported and skipped. *)
Definition op_minus : eff machine unit :=
  s ← gets stack;
  match s with
  | op2 :: op1 :: s => set_stack s;; push (op1 - op2)
  | _ => mret tt
  end.

Definition op_plus : eff machine unit :=
  s ← gets stack;
  match s with
  | op2 :: op1 :: s => set_stack s;; push (op1 + op2)
  | _ => mret tt
  end.

Definition between (a x b : Z) : bool := (a <=? x) && (x <=? b).

(** One round of the loop of [Location::eval]; an operation that is not known is reported
    and skipped. *)
Definition eval_op (dbg : Dwarf_Debug) (ops : AddrOps) (pc frameBase moduleBase : Z) (loc : Dwarf_Loc)
  : eff machine unit :=
  let atom := lr_atom loc in
  if atom =? DW_OP_addr then push (lr_number loc + moduleBase)
  else if between DW_OP_lit0 atom DW_OP_lit31 then push (atom - DW_OP_lit0)
  else if atom =? DW_OP_deref then op_deref ops
  else if atom =? DW_OP_dup then
    s ← gets stack;
    match s with [] => handle_empty_stack | top :: _ => push top end
  else if between DW_OP_reg0 atom DW_OP_reg31 then
    addr ← run (read_cpu_reg ops (user_reg_index ops (atom - DW_OP_reg0)) true); push addr
  else if atom =? DW_OP_regx then
    addr ← run (read_cpu_reg ops (user_reg_index ops (lr_number loc)) true); push addr
  else if atom =? DW_OP_fbreg then push (frameBase + lr_number loc)
  else if atom =? DW_OP_plus_uconst then op_plus_uconst (lr_number loc)
  else if atom =? DW_OP_minus then op_minus
  else if atom =? DW_OP_plus then op_plus
  else if between DW_OP_breg0 atom DW_OP_breg31 then
    addr ← run (read_cpu_reg ops (user_reg_index ops (atom - DW_OP_breg0)) true);
    push (addr + lr_number loc)
  else if atom =? DW_OP_piece then mret tt
  else if between DW_OP_const1u atom DW_OP_consts then push (lr_number loc)
  else if atom =? DW_OP_call_frame_cfa then cfa ← run (unwind_compute_cfa dbg ops pc); push cfa
  else if atom =? DW_OP_stack_value then modify (λ m, mk_machine (stack m) true)
  else mret tt.

(** The static [Location::eval]: the result, and [isValue] after the call. [ops] is the
    object of [get_addr_operations]. *)
Definition eval_desc (dbg : Dwarf_Debug) (ops : option AddrOps) (pc frameBase moduleBase : Z)
    (desc : Dwarf_Locdesc) (isValue : bool) : outcome Z * bool :=
  match ops with
  | None => (Raise RuntimeError, isValue)
  | Some ops =>
      let stk := if frameBase =? 0 then [] else [frameBase] in
      let '(r, m) :=
        for_each (ld_s desc) (eval_op dbg ops pc frameBase moduleBase) (mk_machine stk isValue) in
      (match r with
       | Ret _ => Ret (match stack m with [] => 0 | top :: _ => top end)
       | Raise e => Raise e
       end, is_value m)
  end.

(** ** Location lists *)

Definition NO_ADDR : Z := 2 ^ 64 - 1.

(** The range of a description, moved to where its unit is in memory. *)
Definition covers (moduleBase unitBase pc : Z) (loc : Dwarf_Locdesc) : bool :=
  let lopc := if ld_lopc loc =? 0 then 0 else u64 (ld_lopc loc + (moduleBase + unitBase)) in
  let hipc := if ld_hipc loc =? NO_ADDR then NO_ADDR else u64 (ld_hipc loc + (moduleBase + unitBase)) in
  (lopc <=? pc) && (pc <? hipc).

(** [Location::eval]: the first description with the program counter is evaluated. *)
Definition location_eval (dbg : Dwarf_Debug) (ops : option AddrOps) (descs : list Dwarf_Locdesc)
    (frame moduleBase unitBase pc : Z) : outcome Z * bool :=
  match List.find (covers moduleBase unitBase pc) descs with
  | Some loc => eval_desc dbg ops pc frame moduleBase loc false
  | None => (Ret 0, false)
  end.

(** The conditions of the loop of [Location::is_register]. *)
Definition is_register_at (pc base : Z) (desc : Dwarf_Locdesc) : bool :=
  negb (pc <? u64 (ld_lopc desc + base))
  && negb (negb (ld_hipc desc =? NO_ADDR) && (u64 (ld_hipc desc + base) <=? pc))
  && match ld_s desc with
     | [loc] => (lr_atom loc =? DW_OP_regx) || (DW_OP_reg0 <=? lr_atom loc) && (lr_atom loc <? DW_OP_reg31)
     | _ => false
     end.

Definition is_register (descs : list Dwarf_Locdesc) (pc base : Z) : bool :=
  existsb (is_register_at pc base) descs.

(** [VTableElemLocation::eval] *)
Definition vtable_elem_eval (dbg : Dwarf_Debug) (ops : option AddrOps) (descs : list Dwarf_Locdesc)
    (base modBase unitBase pc : Z) : outcome Z :=
  match (location_eval dbg ops descs base modBase unitBase pc).1 with
  | Raise e => Raise e
  | Ret addr =>
      if addr <? base then Ret addr
      else
        match ops with
        | None => Raise RuntimeError
        | Some o =>
            match read_mem o base with
            | Raise e => Raise e
            | Ret vptr =>
                match (location_eval dbg ops descs vptr modBase unitBase pc).1 with
                | Raise e => Raise e
                | Ret a => Ret (u64 (a - vptr) / 8)
                end
            end
        end
  end.

(** ** One step up the stack *)

(** [eval_loc]: an exception gives the address 0. *)
Definition eval_loc (dbg : Dwarf_Debug) (ops : option AddrOps) (base : Z) (desc : Dwarf_Locdesc) : outcome Z :=
  match (eval_desc dbg ops 0 base 0 desc false).1 with
  | Raise Undefined => Raise Undefined
  | Raise _ => Ret 0
  | Ret a => Ret a
  end.

Definition eval_frame_expr (dbg : Dwarf_Debug) (ops : option AddrOps) (base : Z) (block : list Z) : outcome Z :=
  match loclist_from_expr dbg block with
  | None => Raise RuntimeError
  | Some desc => eval_loc dbg ops base desc
  end.

(** The register of a rule; a block is used rather than the register. *)
Definition expr_regnum (entry : Regtable_Entry3) : Z :=
  match dw_block_ptr entry with Some _ => 0 | None => dw_regnum entry end.

(** The rule of a register, applied. A rule with a block of which the library gives no pointer
    is read through a null pointer. *)
Definition apply_rule (dbg : Dwarf_Debug) (ops : AddrOps) (base : Z) (entry : Regtable_Entry3)
  : eff RegTable Z :=
  let expr := match dw_block_ptr entry with
              | Some block => eval_frame_expr dbg (Some ops) base block
              | None => Raise Undefined
              end in
  if dw_value_type entry =? DW_EXPR_OFFSET then
    if dw_offset_relevant entry then run (read_mem ops (u64 (base + dw_offset_or_block_len entry)))
    else saved_reg ops (expr_regnum entry)
  else if dw_value_type entry =? DW_EXPR_VAL_OFFSET then throw RuntimeError
  else if dw_value_type entry =? DW_EXPR_EXPRESSION then a ← run expr; run (read_mem ops a)
  else if dw_value_type entry =? DW_EXPR_VAL_EXPRESSION then run expr
  else throw RuntimeError.

(** [get_reg]: the value of a register in the frame of the caller, which is stored in the
    table. *)
Definition get_reg (dbg : Dwarf_Debug) (ops : AddrOps) (regs : Regtable3) (base n : Z) : eff RegTable Z :=
  if user_reg_count ops <=? n then throw LogicError
  else
    match rt3_rules regs !! Z.to_nat n with
    | None => throw Undefined
    | Some entry =>
        let regnum := expr_regnum entry in
        addr ← (if regnum =? DW_FRAME_SAME_VAL then saved_reg ops n
                else if regnum =? DW_FRAME_UNDEFINED_VAL then mret 0
                else apply_rule dbg ops base entry);
        set_reg n (mk_reg REG_READY addr);;
        mret addr
    end.

Definition rule_same (regs : Regtable3) (n : Z) : bool :=
  match rt3_rules regs !! Z.to_nat n with
  | Some entry => dw_regnum entry =? DW_FRAME_SAME_VAL
  | None => false
  end.

(** [Unwind::step]: the return address, or 0. *)
Definition unwind_step (dbg : Dwarf_Debug) (ops : AddrOps) (pc : Z) : eff RegTable Z :=
  regs ← run (get_dwarf_regtable dbg pc);
  match regs with
  | None => mret 0
  | Some regs =>
      cfa ← compute_cfa ops regs;
      retAddr ← get_reg dbg ops regs cfa (user_reg_pc ops);
      when (negb (retAddr =? 0))
        (when (negb (rule_same regs (user_reg_fp ops)))
           (get_reg dbg ops regs cfa (user_reg_fp ops);; mret tt);;
         if rule_same regs (user_reg_sp ops) then
           r ← reg_at (user_reg_sp ops);
           set_reg (user_reg_sp ops) (mk_reg (state r) cfa)
         else get_reg dbg ops regs cfa (user_reg_sp ops);; mret tt);;
      mret (if retAddr =? pc then 0 else retAddr)
  end.

(** ** The reader *)

(** What the reader uses of a frame. *)
Record Frame : Type := mk_frame {
  program_count : Z;
  stack_pointer : Z;
  frame_pointer : Z;
  real_program_count : Z
}.

(** [Reader::unwind_step]: [get_handle] gives the debug information of the module at an
    address and the address where the module is loaded. *)
Definition reader_unwind_step (get_handle : Z → option (Dwarf_Debug * Z)) (ops : AddrOps) (frame : Frame)
  : outcome (option Frame) :=
  let addr := real_program_count frame in
  match get_handle addr with
  | None => Ret None
  | Some (dbg, adjust) =>
      let ready v := mk_reg REG_READY v in
      let frameRegs := <[Z.to_nat (user_reg_pc ops) := ready addr]>
        (<[Z.to_nat (user_reg_sp ops) := ready (stack_pointer frame)]>
           (<[Z.to_nat (user_reg_fp ops) := ready (frame_pointer frame)]> new_regs)) in
      let '(r, regs) := unwind_step dbg ops (u64 (addr - adjust)) frameRegs in
      match r with
      | Raise e => Raise e
      | Ret addr' =>
          if negb (addr' =? 0) && negb (addr' =? addr) then
            let reg n := match regs !! Z.to_nat n with Some r => value r | None => 0 end in
            Ret (Some (mk_frame addr' (reg (user_reg_sp ops)) (reg (user_reg_fp ops)) addr'))
          else Ret None
      end
  end.
