(* ===== verification/DwarfCorrect.v ===== *)
(** * Location expressions compute the addresses they describe

    Expressions are trees over the operations that [eval_op] knows; [code] is their postfix
    form, the operations of a location description, and [denote] their value in 64-bit
    arithmetic, from the registers and the memory of the debuggee. *)
From S2P Require Import Effects Dwarf.

Inductive addr_expr : Type :=
| Addr (a : Z)                          (* an address of the module *)
| Lit (n : Z)                           (* DW_OP_lit<n> *)
| Const (op n : Z)                      (* DW_OP_const1u to DW_OP_consts *)
| Reg (n : Z)                           (* DW_OP_reg<n> *)
| RegX (n : Z)
| BReg (n offset : Z)                   (* DW_OP_breg<n> *)
| FBReg (offset : Z)
| Cfa
| Deref (e : addr_expr)
| PlusU (e : addr_expr) (n : Z)
| Plus (e1 e2 : addr_expr)
| Minus (e1 e2 : addr_expr)
| Twice (e : addr_expr).                (* DW_OP_dup, DW_OP_plus *)

(** The numbers that are part of an operation are in range. *)
Fixpoint wf_expr (e : addr_expr) : Prop :=
  match e with
  | Lit n | Reg n | BReg n _ => 0 ≤ n < 32
  | Const op _ => DW_OP_const1u ≤ op ≤ DW_OP_consts
  | Deref e | PlusU e _ | Twice e => wf_expr e
  | Plus e1 e2 | Minus e1 e2 => wf_expr e1 ∧ wf_expr e2
  | _ => True
  end.

Fixpoint code (e : addr_expr) : list Dwarf_Loc :=
  match e with
  | Addr a => [mk_loc DW_OP_addr a]
  | Lit n => [mk_loc (DW_OP_lit0 + n) 0]
  | Const op n => [mk_loc op n]
  | Reg n => [mk_loc (DW_OP_reg0 + n) 0]
  | RegX n => [mk_loc DW_OP_regx n]
  | BReg n offset => [mk_loc (DW_OP_breg0 + n) offset]
  | FBReg offset => [mk_loc DW_OP_fbreg offset]
  | Cfa => [mk_loc DW_OP_call_frame_cfa 0]
  | Deref e => code e ++ [mk_loc DW_OP_deref 0]
  | PlusU e n => code e ++ [mk_loc DW_OP_plus_uconst n]
  | Plus e1 e2 => code e1 ++ code e2 ++ [mk_loc DW_OP_plus 0]
  | Minus e1 e2 => code e1 ++ code e2 ++ [mk_loc DW_OP_minus 0]
  | Twice e => code e ++ [mk_loc DW_OP_dup 0; mk_loc DW_OP_plus 0]
  end.

(** Sequencing of values that may be exceptions. *)
Definition obind {A C} (m : outcome A) (k : A → outcome C) : outcome C :=
  match m with Ret a => k a | Raise e => Raise e end.

Lemma word_small n : 0 ≤ n < 2 ^ 64 → u64 n = n.
Proof. intros H. by apply Z.mod_small. Qed.

Lemma word_add_r a b : u64 (a + u64 b) = u64 (a + b).
Proof. apply Zplus_mod_idemp_r. Qed.

Section Denotation.
Context (dbg : Dwarf_Debug) (ops : AddrOps) (pc frameBase moduleBase : Z).

Definition cpu (n : Z) : outcome Z := read_cpu_reg ops (user_reg_index ops n) true.

Fixpoint denote (e : addr_expr) : outcome Z :=
  match e with
  | Addr a => Ret (u64 (a + moduleBase))
  | Lit n => Ret n
  | Const _ n => Ret (u64 n)
  | Reg n | RegX n => obind (cpu n) (λ v, Ret (u64 v))
  | BReg n offset => obind (cpu n) (λ v, Ret (u64 (v + offset)))
  | FBReg offset => Ret (u64 (frameBase + offset))
  | Cfa => obind (unwind_compute_cfa dbg ops pc) (λ v, Ret (u64 v))
  | Deref e => obind (denote e) (λ a, obind (read_mem ops a) (λ v, Ret (u64 v)))
  | PlusU e n => obind (denote e) (λ a, Ret (u64 (a + n)))
  | Plus e1 e2 => obind (denote e1) (λ a, obind (denote e2) (λ b, Ret (u64 (a + b))))
  | Minus e1 e2 => obind (denote e1) (λ a, obind (denote e2) (λ b, Ret (u64 (a - b))))
  | Twice e => obind (denote e) (λ a, Ret (u64 (a + a)))
  end.

Definition exec (l : list Dwarf_Loc) : eff machine unit :=
  for_each l (eval_op dbg ops pc frameBase moduleBase).

(** The value is pushed, or the exception is thrown; [isValue] is not changed. *)
Definition pushes (l : list Dwarf_Loc) (v : outcome Z) : Prop :=
  ∀ st b, match v with
          | Ret a => exec l (mk_machine st b) = (Ret tt, mk_machine (a :: st) b)
          | Raise x => ∃ st', exec l (mk_machine st b) = (Raise x, mk_machine st' b)
          end.

Lemma exec_one l m : exec [l] m = eval_op dbg ops pc frameBase moduleBase l m.
Proof.
  unfold exec. cbn [for_each]. unfold mbind, eff_bind, mret, eff_ret.
  by destruct (eval_op _ _ _ _ _ _ _) as [[[]|] ?].
Qed.

Lemma exec_cons l k m : exec (l :: k) m = (exec [l] ≫= λ _, exec k) m.
Proof. unfold exec. change (l :: k) with ([l] ++ k). apply for_each_concat. Qed.

(** Code behind code that pushes runs on the value. *)
Lemma pushes_app l k v (f : Z → outcome Z) :
  pushes l v →
  (∀ a st b, match f a with
             | Ret c => exec k (mk_machine (a :: st) b) = (Ret tt, mk_machine (c :: st) b)
             | Raise x => ∃ st', exec k (mk_machine (a :: st) b) = (Raise x, mk_machine st' b)
             end) →
  pushes (l ++ k) (obind v f).
Proof.
  intros Hl Hk st b. specialize (Hl st b). unfold exec. rewrite for_each_concat.
  unfold mbind, eff_bind. fold (exec l). fold (exec k). destruct v as [a|x]; cbn [obind].
  - rewrite Hl. apply Hk.
  - destruct Hl as [st' ->]. by exists st'.
Qed.

(** A binary operation on the values of two pieces of code. *)
Lemma pushes_binary l1 l2 op v1 v2 (g : Z → Z → Z) :
  pushes l1 v1 → pushes l2 v2 →
  (∀ a c st b, exec [op] (mk_machine (c :: a :: st) b) = (Ret tt, mk_machine (g a c :: st) b)) →
  pushes (l1 ++ l2 ++ [op]) (obind v1 (λ a, obind v2 (λ c, Ret (g a c)))).
Proof.
  intros H1 H2 Hop. apply pushes_app; [done|]. intros a st b. specialize (H2 (a :: st) b).
  unfold exec in *. rewrite for_each_concat. unfold mbind, eff_bind.
  destruct v2 as [c|x]; cbn [obind].
  - rewrite H2. apply Hop.
  - destruct H2 as [st' ->]. by exists st'.
Qed.

(** A value that may be an exception, pushed by the last operation. *)
Lemma run_push {A} (m : outcome A) (f : A → Z) st b :
  match obind m (λ v, Ret (u64 (f v))) with
  | Ret c => (run m ≫= λ v, push (f v)) (mk_machine st b) = (Ret tt, mk_machine (c :: st) b)
  | Raise x => ∃ st', (run m ≫= λ v, push (f v)) (mk_machine st b) = (Raise x, mk_machine st' b)
  end.
Proof. destruct m as [a|x]; cbn; [done | by exists st]. Qed.

Lemma between_add a n : 0 ≤ n < 32 → between a (a + n) (a + 31) = true.
Proof. unfold between. lia. Qed.

(** Which case of the switch an operation of a family is. *)
Lemma eval_lit n : 0 ≤ n < 32 → ∀ x,
  eval_op dbg ops pc frameBase moduleBase (mk_loc (DW_OP_lit0 + n) x) = push n.
Proof.
  intros Hn x. unfold eval_op. cbn [lr_atom lr_number].
  replace (DW_OP_lit0 + n =? DW_OP_addr) with false by (unfold DW_OP_lit0, DW_OP_addr; lia).
  rewrite (between_add DW_OP_lit0 n Hn : between _ _ DW_OP_lit31 = true). f_equal. lia.
Qed.

(** The tests of the switch on an operation given by an offset in its family. *)
Ltac skip_case :=
  match goal with
  | |- context [if ?c then _ else _] =>
      replace c with false by (symmetry; unfold between; cbv - [Z.add Z.leb Z.ltb Z.eqb andb]; lia)
  end.
Ltac take_case :=
  match goal with
  | |- context [if ?c then _ else _] =>
      replace c with true by (symmetry; unfold between; cbv - [Z.add Z.leb Z.ltb Z.eqb andb]; lia)
  end.

Lemma eval_reg n x : 0 ≤ n < 32 →
  eval_op dbg ops pc frameBase moduleBase (mk_loc (DW_OP_reg0 + n) x) = (run (cpu n) ≫= λ v, push v).
Proof.
  intros Hn. unfold eval_op. cbn [lr_atom lr_number]. do 4 skip_case. take_case.
  unfold cpu. by replace (DW_OP_reg0 + n - DW_OP_reg0) with n by lia.
Qed.

Lemma eval_breg n x : 0 ≤ n < 32 →
  eval_op dbg ops pc frameBase moduleBase (mk_loc (DW_OP_breg0 + n) x) = (run (cpu n) ≫= λ v, push (v + x)).
Proof.
  intros Hn. unfold eval_op. cbn [lr_atom lr_number]. do 10 skip_case. take_case.
  unfold cpu. by replace (DW_OP_breg0 + n - DW_OP_breg0) with n by lia.
Qed.

Lemma eval_const op x : DW_OP_const1u ≤ op ≤ DW_OP_consts →
  eval_op dbg ops pc frameBase moduleBase (mk_loc op x) = push x.
Proof.
  unfold DW_OP_const1u, DW_OP_consts. intros Hop. unfold eval_op. cbn [lr_atom lr_number].
  do 12 skip_case. by take_case.
Qed.

(** The code of an expression pushes its value. *)
Lemma code_pushes e : wf_expr e → pushes (code e) (denote e).
Proof.
  induction e as [a|n|op n|n|n|n off|off| |e IH|e IH n|e1 IH1 e2 IH2|e1 IH1 e2 IH2|e IH];
    intros Hwf; cbn [code denote wf_expr] in *.
  - intros st b. by rewrite exec_one.
  - intros st b. rewrite exec_one, eval_lit by done. unfold push, modify. cbn.
    by rewrite word_small by lia.
  - intros st b. rewrite exec_one, eval_const by done. done.
  - intros st b. rewrite exec_one, eval_reg by done. apply (run_push (cpu n) id).
  - intros st b. rewrite exec_one. apply (run_push (cpu n) id).
  - intros st b. rewrite exec_one, eval_breg by done. apply run_push.
  - intros st b. by rewrite exec_one.
  - intros st b. rewrite exec_one. apply (run_push _ id).
  - eapply pushes_app; [by apply IH|]. intros a st b. rewrite exec_one.
    change (eval_op _ _ _ _ _ _) with (op_deref ops). unfold op_deref.
    unfold mbind, eff_bind, gets, run. cbn.
    destruct (read_mem ops a) as [v|x]; cbn; [done | by eexists].
  - eapply pushes_app; [by apply IH|]. intros a st b. by rewrite exec_one.
  - destruct Hwf as [H1 H2]. apply pushes_binary; [by apply IH1 | by apply IH2 |].
    intros a c st b. by rewrite exec_one.
  - destruct Hwf as [H1 H2]. apply pushes_binary; [by apply IH1 | by apply IH2 |].
    intros a c st b. by rewrite exec_one.
  - eapply pushes_app; [by apply IH|]. intros a st b. rewrite exec_cons.
    unfold mbind, eff_bind. rewrite exec_one.
    transitivity (Ret tt, mk_machine (u64 (a + u64 a) :: st) b); [done|].
    by rewrite word_add_r.
Qed.

(** Operations that the switch does not know, among them [DW_OP_drop] to [DW_OP_mod],
    [DW_OP_mul] to [DW_OP_or], shifts, branches and [DW_OP_bregx]. *)
Definition unknown_op (atom : Z) : bool :=
  between 0x13 atom 0x1b || between 0x1d atom 0x21 || between 0x24 atom 0x2f || (atom =? 0x92)
  || between 0x94 atom 0x9b || between 0x9d atom 0x9e || between 0xa0 atom 0xff.

Lemma eval_unknown atom x m : unknown_op atom = true →
  eval_op dbg ops pc frameBase moduleBase (mk_loc atom x) m = (Ret tt, m).
Proof.
  unfold unknown_op, between. intros H. unfold eval_op. cbn [lr_atom lr_number].
  do 15 skip_case. done.
Qed.
End Denotation.

(** What may follow the code of an expression without changing the value: the mark that it is
    the value of the variable, a piece of a composite location, or an operation that the
    machine does not know. *)
Inductive suffix : Type := Plain | StackValue | Skipped (atom n : Z).

Definition suffix_code (t : suffix) : list Dwarf_Loc :=
  match t with
  | Plain => []
  | StackValue => [mk_loc DW_OP_stack_value 0]
  | Skipped atom n => [mk_loc atom n]
  end.

Definition wf_suffix (t : suffix) : Prop :=
  match t with Skipped atom _ => unknown_op atom = true ∨ atom = DW_OP_piece | _ => True end.

Lemma suffix_keeps dbg ops pc frameBase moduleBase t a st : wf_suffix t →
  exec dbg ops pc frameBase moduleBase (suffix_code t) (mk_machine (a :: st) false)
  = (Ret tt, mk_machine (a :: st) (match t with StackValue => true | _ => false end)).
Proof.
  destruct t as [| |atom n]; intros H; [done | done |]. cbn [suffix_code]. rewrite exec_one.
  destruct H as [H | ->]; [by rewrite eval_unknown | done].
Qed.

Lemma eval_desc_suffix dbg ops pc frameBase moduleBase lo hi e t : wf_expr e → wf_suffix t →
  eval_desc dbg (Some ops) pc frameBase moduleBase (mk_desc lo hi (code e ++ suffix_code t)) false
  = (denote dbg ops pc frameBase moduleBase e,
     match t, denote dbg ops pc frameBase moduleBase e with StackValue, Ret _ => true | _, _ => false end).
Proof.
  intros Hwf Ht. unfold eval_desc. cbn [ld_s].
  pose proof (code_pushes dbg ops pc frameBase moduleBase e Hwf) as Hc.
  specialize (Hc (if frameBase =? 0 then [] else [frameBase]) false).
  rewrite for_each_concat. unfold mbind, eff_bind. unfold exec in *.
  destruct (denote _ _ _ _ _ e) as [a|x].
  - rewrite Hc. pose proof (suffix_keeps dbg ops pc frameBase moduleBase t a) as Hs. unfold exec in Hs.
    rewrite Hs by done. by destruct t.
  - destruct Hc as [st' ->]. by destruct t.
Qed.

Lemma find_first {A} (p : A → bool) pre x post :
  forallb (λ y, negb (p y)) pre = true → p x = true → List.find p (pre ++ x :: post) = Some x.
Proof.
  intros Hpre Hx. induction pre as [|y pre IH]; cbn in *; [by rewrite Hx|].
  apply andb_true_iff in Hpre as [Hy Hpre]. destruct (p y); [done | by apply IH].
Qed.

(** Is the expression the name of a register, of those that [is_register] knows? *)
Definition is_register_expr (e : addr_expr) : bool :=
  match e with RegX _ => true | Reg n => n <? 31 | _ => false end.

Lemma code_cons e : ∃ l k, code e = l :: k.
Proof.
  induction e as [a|n|op n|n|n|n off|off| |e (l & k & IH)|e (l & k & IH) n|e1 (l & k & IH) e2 _|e1 (l & k & IH) e2 _|e (l & k & IH)];
    cbn [code]; rewrite ?IH; eauto.
Qed.

(** Only a register is a single operation of those that [is_register] looks for. *)
Lemma code_register e : wf_expr e →
  match code e with
  | [l] => (lr_atom l =? DW_OP_regx) || (DW_OP_reg0 <=? lr_atom l) && (lr_atom l <? DW_OP_reg31)
  | _ => false
  end = is_register_expr e.
Proof.
  destruct e as [a|n|op n|n|n|n off|off| |e|e n|e1 e2|e1 e2|e]; cbn [code wf_expr is_register_expr];
    unfold DW_OP_regx, DW_OP_reg0, DW_OP_reg31, DW_OP_lit0, DW_OP_const1u, DW_OP_consts, DW_OP_breg0;
    cbn [lr_atom]; intros Hwf; try done; try lia.
  all: try destruct (code_cons e) as (l & k & ->); try destruct (code_cons e1) as (l & k & ->).
  all: try destruct (code_cons e2) as (l2 & k2 & ->).
  all: by destruct k as [|? ?].
Qed.

(** C22: location expressions. When the program counter is in the range of a description
    and of none in front of it, evaluating the location of a variable gives the value that its
    expression denotes in 64-bit arithmetic over the registers and the memory of the
    debuggee, or the exception that reading them throws; a location is taken for a value
    exactly behind [DW_OP_stack_value]; pieces, and operations that the machine does not
    know, are skipped in silence and leave the value of the expression in front of them. In a
    module that is not relocated, the variable is taken for a register exactly when
    the expression is one of the registers 0 to 30 or is given by [DW_OP_regx]. *)
Theorem location_expressions_computed dbg ops pre post lo hi e t frame moduleBase unitBase pc :
  wf_expr e → wf_suffix t →
  let d := mk_desc lo hi (code e ++ suffix_code t) in
  forallb (λ y, negb (covers moduleBase unitBase pc y)) pre = true →
  covers moduleBase unitBase pc d = true →
  location_eval dbg (Some ops) (pre ++ d :: post) frame moduleBase unitBase pc
  = (denote dbg ops pc frame moduleBase e,
     match t, denote dbg ops pc frame moduleBase e with StackValue, Ret _ => true | _, _ => false end)
  ∧ (t = Plain → moduleBase = 0 → lo ≠ 0 → is_register [d] pc unitBase = is_register_expr e).
Proof.
  intros Hwf Ht d Hpre Hd. split.
  - unfold location_eval. rewrite find_first by done. by apply eval_desc_suffix.
  - intros -> -> Hlo. unfold is_register, is_register_at, d in *. cbn [existsb ld_lopc ld_hipc ld_s suffix_code].
    rewrite app_nil_r, code_register by done. unfold covers in Hd. cbn [ld_lopc ld_hipc] in Hd.
    apply Z.eqb_neq in Hlo. rewrite Hlo in Hd. rewrite Z.add_0_l in Hd.
    apply andb_true_iff in Hd as [H1 H2]. apply Z.leb_le in H1. apply Z.ltb_lt in H2.
    replace (pc <? u64 (lo + unitBase)) with false by lia.
    destruct (Z.eqb_spec hi NO_ADDR) as [->|Hhi]; cbn [negb andb].
    + by rewrite orb_false_r.
    + replace (u64 (hi + unitBase) <=? pc) with false by lia. cbn. by rewrite orb_false_r.
Qed.

(** The second of two descriptions: a variable at offset -20 of the frame, and one that is
    spilled behind a pointer in [rbx]. *)
Lemma location_expressions_computed_witness :
  let ops := mk_ops (λ a, Ret (a + 1)) (λ n _, Ret (1000 + n)) false in
  let dbg := mk_dbg None (λ _, None) in
  location_eval dbg (Some ops)
    [mk_desc 16 32 [mk_loc DW_OP_fbreg (2 ^ 64 - 20)];
     mk_desc 32 48 [mk_loc (DW_OP_breg0 + 3) 8; mk_loc DW_OP_deref 0; mk_loc DW_OP_stack_value 0]] 500 4096 0 4130
  = (Ret 1014, true).
Proof.
  intros ops dbg.
  destruct (location_expressions_computed dbg ops [mk_desc 16 32 [mk_loc DW_OP_fbreg (2 ^ 64 - 20)]] []
              32 48 (Deref (BReg 3 8)) StackValue 500 4096 0 4130) as [H _];
    [cbn; lia | done | reflexivity | reflexivity |].
  exact H.
Defined.

(** ** One step to the caller *)

(** A rule that finds a register in memory, at an offset of the canonical frame address. *)
Definition at_offset (e : Regtable_Entry3) (offset : Z) : Prop :=
  dw_value_type e = DW_EXPR_OFFSET ∧ dw_offset_relevant e = true ∧ dw_block_ptr e = None
  ∧ dw_regnum e ≠ DW_FRAME_SAME_VAL ∧ dw_regnum e ≠ DW_FRAME_UNDEFINED_VAL ∧ dw_offset_or_block_len e = offset.

(** The rules of a function on x86-64: the canonical frame address is at an offset of [rsp] or
    [rbp]; the return address, and [rbp] when it was saved, are at offsets of it. *)
Record frame_rules : Type := mk_rules { on_fp : bool; cfa_offset : Z; ra_offset : Z; fp_offset : option Z }.

Definition has_rules (regs : Regtable3) (r : frame_rules) : Prop :=
  dw_regnum (rt3_cfa_rule regs) = (if on_fp r then 6 else 7)
  ∧ dw_offset_relevant (rt3_cfa_rule regs) = true
  ∧ dw_offset_or_block_len (rt3_cfa_rule regs) = cfa_offset r
  ∧ (∃ e, rt3_rules regs !! 16%nat = Some e ∧ at_offset e (ra_offset r))
  ∧ (∃ e, rt3_rules regs !! 6%nat = Some e
       ∧ match fp_offset r with Some o => at_offset e o | None => dw_regnum e = DW_FRAME_SAME_VAL end)
  ∧ (∃ e, rt3_rules regs !! 7%nat = Some e ∧ dw_regnum e = DW_FRAME_SAME_VAL).

(** The registers that the reader fills in. *)
Definition frame_regs (pc sp fp : Z) : RegTable :=
  <[16%nat := mk_reg REG_READY pc]> (<[7%nat := mk_reg REG_READY sp]> (<[6%nat := mk_reg REG_READY fp]> new_regs)).

Lemma get_reg_offset dbg ops regs base n e offset v table : is_32_bit ops = false → 0 ≤ n < 56 →
  rt3_rules regs !! Z.to_nat n = Some e → at_offset e offset → read_mem ops (u64 (base + offset)) = Ret v →
  get_reg dbg ops regs base n table = (Ret v, <[Z.to_nat n := mk_reg REG_READY v]> table).
Proof.
  intros H64 Hn He (Ht & Hr & Hb & Hs & Hu & Ho) Hv. unfold get_reg, user_reg_count, reg_map. rewrite H64.
  change (Z.of_nat (length regMap)) with 56. replace (56 <=? n) with false by lia. rewrite He.
  unfold expr_regnum. rewrite Hb. apply Z.eqb_neq in Hs, Hu. rewrite Hs, Hu.
  unfold apply_rule. rewrite Ht, Hr, Ho. unfold mbind, eff_bind, run. cbn. by rewrite Hv.
Qed.

(** [Reader::unwind_step] finds the caller, unless the return address is the program
    counter itself. *)
Lemma reader_finds_caller get_handle ops f dbg adjust regs r ra fp :
  is_32_bit ops = false →
  get_handle (real_program_count f) = Some (dbg, adjust) →
  get_dwarf_regtable dbg (u64 (real_program_count f - adjust)) = Ret (Some regs) → has_rules regs r →
  let cfa := u64 ((if on_fp r then frame_pointer f else stack_pointer f) + cfa_offset r) in
  read_mem ops (u64 (cfa + ra_offset r)) = Ret ra →
  match fp_offset r with Some o => read_mem ops (u64 (cfa + o)) = Ret fp | None => fp = frame_pointer f end →
  ra ≠ 0 →
  reader_unwind_step get_handle ops f
  = Ret (if (ra =? real_program_count f) || (ra =? u64 (real_program_count f - adjust)) then None
         else Some (mk_frame ra cfa fp ra)).
Proof.
  intros H64 Hh Hregs (Hc & Hcr & Hco & (e16 & He16 & Ho16) & (e6 & He6 & Ho6) & (e7 & He7 & Hs7)) cfa Hra Hfp H0.
  unfold reader_unwind_step, user_reg_pc, user_reg_sp, user_reg_fp. rewrite Hh, H64.
  change (<[Z.to_nat 16 := _]> _) with (frame_regs (real_program_count f) (stack_pointer f) (frame_pointer f)).
  set (table := frame_regs _ _ _).
  assert (compute_cfa ops regs table = (Ret cfa, table)) as Hcfa.
  { unfold compute_cfa. rewrite Hc, Hcr, Hco. destruct (on_fp r); reflexivity. }
  assert (get_reg dbg ops regs cfa 16 table = (Ret ra, <[16%nat := mk_reg REG_READY ra]> table)) as Hg.
  { by eapply (get_reg_offset dbg ops regs cfa 16 e16). }
  unfold unwind_step. unfold user_reg_pc, user_reg_fp, user_reg_sp. rewrite H64.
  erewrite bind_ret by (unfold run; by rewrite Hregs). cbn iota.
  erewrite bind_ret by exact Hcfa. erewrite bind_ret by exact Hg.
  assert (rule_same regs 7 = true) as Hsame7.
  { unfold rule_same. change (Z.to_nat 7) with 7%nat. rewrite He7, Hs7. done. }
  apply Z.eqb_neq in H0 as H0'. rewrite H0'. cbn [negb when].
  set (table1 := <[16%nat := mk_reg REG_READY ra]> table).
  assert (∃ table2, when (negb (rule_same regs 6)) (get_reg dbg ops regs cfa 6;; mret tt) table1 = (Ret tt, table2)
            ∧ table2 !! 6%nat = Some (mk_reg REG_READY fp)
            ∧ table2 !! 7%nat = Some (mk_reg REG_READY (stack_pointer f))
            ∧ length table2 = 66%nat) as (table2 & Hw & H6 & H7 & Hlen).
  { unfold rule_same. change (Z.to_nat 6) with 6%nat. rewrite He6.
    destruct (fp_offset r) as [o|].
    - pose proof Ho6 as (_ & _ & _ & Hns & _). apply Z.eqb_neq in Hns. rewrite Hns. cbn [negb when].
      exists (<[6%nat := mk_reg REG_READY fp]> table1). split; [|done].
      erewrite bind_ret by (by eapply (get_reg_offset dbg ops regs cfa 6 e6)). done.
    - rewrite Ho6, Z.eqb_refl. cbn [negb when]. exists table1. subst fp. done. }
  assert (reg_at 7 table2 = (Ret (mk_reg REG_READY (stack_pointer f)), table2)) as Hat.
  { unfold reg_at. change (Z.to_nat 7) with 7%nat. by rewrite H7. }
  erewrite bind_ret.
  2:{ erewrite bind_ret by exact Hw. rewrite Hsame7. erewrite bind_ret by exact Hat. reflexivity. }
  destruct (Z.eqb_spec ra (u64 (real_program_count f - adjust))) as [Hrel|Hrel]; cbn -[insert lookup].
  { by rewrite orb_true_r. }
  rewrite H0', orb_false_r. destruct (ra =? real_program_count f); cbn -[insert lookup]; [done|].
  change (Z.to_nat 7) with 7%nat. change (Z.to_nat 6) with 6%nat.
  rewrite list_lookup_insert_eq by lia. rewrite list_lookup_insert_ne, H6 by done. done.
Qed.
