(* ===== verification/StackTrace.v ===== *)
(** * Stack traces

    [engine/stack_trace.cpp], [engine/stack-x86_64.cpp], [target/linux_trampoline-x86_64.cpp],
    [target/ucontext386.h], [target/syscall_pending.cpp], [LinuxTarget::read_register] and
    [ThreadImpl::stack_trace], on a Linux x86-64 host. The trace of a thread starts with its
    registers; each further frame is computed by the frame handlers (the reader of [Dwarf]
    is one), or else by following the chain of saved frame pointers. Symbols and user
    objects of frames are not modelled, nor [skip_], which only the PowerPC port sets. *)
From S2P Require Import Effects Dwarf.

(** ** The thread *)

(** What the trace uses of a stopped thread: its registers, a word of data (or nothing, when
    the address cannot be read), the words of code that can be read at an address, and
    whether an address belongs to the code that the kernel maps for system calls. *)
Record Thread : Type := mk_thread {
  th_32_bit : bool;
  th_pc : Z;
  th_sp : Z;
  th_fp : Z;
  read_word : Z → option Z;
  read_code : Z → nat → list Z;
  cpu_reg : Z → Z;
  in_vdso : Z → bool
}.

(** [Platform::after_read] *)
Definition after_read (t : Thread) (v : Z) : Z := if th_32_bit t then Z.land v 0xffffffff else v.

Definition INVALID_PC_ADDR : Z := 0xfeed.

(** [thread_syscall_pending] *)
Definition is_syscall_pending (t : Thread) (pc : Z) : bool :=
  let pc := if pc =? 0 then th_pc t else pc in
  if pc =? INVALID_PC_ADDR then false
  else if in_vdso t pc then true
  else
    let opcode := match read_code t (u64 (pc - 2)) 1 with w :: _ => Z.land w 0xffff | [] => 0 end in
    (opcode =? 0x80cd) || (opcode =? 0x050f) || (th_32_bit t && (pc =? 0xffffe405)).

(** ** Frames *)

Record FrameImpl : Type := mk_frame_impl {
  pc_ : Z;
  sp_ : Z;
  fp_ : Z;
  realPC_ : Z;
  index_ : nat;
  sigHandler_ : bool
}.

Definition frame_of_thread (t : Thread) : FrameImpl :=
  mk_frame_impl (th_pc t) (th_sp t) (th_fp t) (th_pc t) 0 false.

(** The copy with an index, which is not marked as a signal handler. *)
Definition copy_frame (f : FrameImpl) (index : nat) : FrameImpl :=
  mk_frame_impl (pc_ f) (sp_ f) (fp_ f) (realPC_ f) index false.

Definition real_pc (f : FrameImpl) : Z := if realPC_ f =? 0 then pc_ f else realPC_ f.

Definition set_frame_pc (pc : Z) (f : FrameImpl) : FrameImpl :=
  mk_frame_impl pc (sp_ f) (fp_ f) (if realPC_ f =? 0 then pc else realPC_ f) (index_ f) (sigHandler_ f).
Definition set_sp (sp : Z) (f : FrameImpl) : FrameImpl :=
  mk_frame_impl (pc_ f) sp (fp_ f) (realPC_ f) (index_ f) (sigHandler_ f).
Definition set_fp (fp : Z) (f : FrameImpl) : FrameImpl :=
  mk_frame_impl (pc_ f) (sp_ f) fp (realPC_ f) (index_ f) (sigHandler_ f).
Definition set_real_pc (pc : Z) (f : FrameImpl) : FrameImpl :=
  mk_frame_impl (pc_ f) (sp_ f) (fp_ f) pc (index_ f) (sigHandler_ f).
Definition set_signal_handler (b : bool) (f : FrameImpl) : FrameImpl :=
  mk_frame_impl (pc_ f) (sp_ f) (fp_ f) (realPC_ f) (index_ f) b.

(** The function [set_program_count]. *)
Definition set_program_count (pc : Z) : eff FrameImpl unit :=
  modify (λ f, if pc =? pc_ f then f else set_frame_pc pc f).

(** The interface [Frame] of a frame. *)
Definition as_frame (f : FrameImpl) : Frame := mk_frame (pc_ f) (sp_ f) (fp_ f) (real_pc f).

(** ** Signal handlers *)

(** The instructions by which a signal handler returns to the kernel. *)
Definition check_trampoline64 (t : Thread) (f : FrameImpl) : bool :=
  match read_code t (pc_ f) 2 with
  | [] => false
  | w0 :: r =>
      match r with
      | w1 :: _ => (w0 =? 0x0f0000000fc0c748) && (Z.land w1 0xff =? 0x05)
      | [] => false
      end
      || (Z.land w0 0xffffffffffffff =? 0x50f000000adb8)
      || (Z.land w0 0xffffffffffffff00 =? 0x50f00000077b800)
  end.

(** [thread_read] of a structure: an address that cannot be read throws. *)
Definition read_words {S} (t : Thread) (addr : Z) (n : nat) : eff S (list Z) :=
  match mapM (λ i, read_word t (u64 (addr + 8 * Z.of_nat i))) (seq 0 n) with
  | Some ws => mret ws
  | None => throw SystemError
  end.

(** The word and the 32-bit field at an offset of a structure. *)
Definition word_field (ws : list Z) (offset : Z) : Z := default 0 (ws !! Z.to_nat (offset / 8)).
Definition field32 (ws : list Z) (offset : Z) : Z := (word_field ws offset / 2 ^ (8 * (offset mod 8))) mod 2 ^ 32.

(** The offset of [uc_mcontext.gregs] and the size of [ucontext_t]. *)
Definition GREGS : Z := 40.
Definition UCONTEXT_WORDS : nat := 121.
Definition REG_RBP : Z := 10.
Definition REG_RSP : Z := 15.
Definition REG_RIP : Z := 16.

(** A program of 32 bits: the registers are in the context that the handler got, or else,
    behind a handler of the old style, in a structure on the stack. *)
Definition read_signal_handler_frame_32 (t : Thread) : eff FrameImpl unit :=
  sp ← gets sp_;
  uc ← catch (ucptr ← read_words t (u64 (sp + 8)) 1;
              uc ← read_words t (after_read t (word_field ucptr 0)) 12;
              mret (if field32 uc 76 =? 0 then None else Some (20, uc)))
             (mret None);
  '(gregs, ws) ← (match uc with
                  | Some r => mret r
                  | None => ws ← read_words t (u64 (sp + 4)) 10; mret (0, ws)
                  end : eff FrameImpl (Z * list Z));
  modify (λ f, set_fp (field32 ws (gregs + 4 * 6))
                 (set_sp (field32 ws (gregs + 4 * 7)) (set_frame_pc (field32 ws (gregs + 4 * 14)) f))).

Definition check_trampoline_frame64 (t : Thread) : eff FrameImpl bool :=
  f ← get;
  if check_trampoline64 t f then
    (if th_32_bit t then read_signal_handler_frame_32 t
     else
       uc ← read_words t (sp_ f) UCONTEXT_WORDS;
       modify (λ f, set_fp (word_field uc (GREGS + 8 * REG_RBP))
                      (set_sp (word_field uc (GREGS + 8 * REG_RSP))
                         (set_frame_pc (word_field uc (GREGS + 8 * REG_RIP)) f))));;
    modify (set_signal_handler true);;
    mret true
  else mret false.

(** ** The chain of frame pointers *)

Definition thread_read (t : Thread) (addr : Z) : option Z := after_read t <$> read_word t (u64 addr).

(** [StackTraceImpl::unwind_frame] *)
Definition unwind_frame (t : Thread) : eff FrameImpl bool :=
  f ← get;
  if fp_ f =? 0 then mret false
  else
    let wordSize := if th_32_bit t then 4 else 8 in
    trampoline ← check_trampoline_frame64 t;
    if (trampoline : bool) then mret true
    else
      let pending := is_syscall_pending t (pc_ f) in
      match thread_read t ((if pending then sp_ f else fp_ f) + wordSize) with
      | None => mret false
      | Some reg =>
          set_program_count reg;;
          match thread_read t (if pending then sp_ f else fp_ f) with
          | None => mret false
          | Some reg =>
              modify (λ g, set_fp reg (set_sp (u64 ((if pending then sp_ f else fp_ f) + 2 * wordSize)) g));;
              mret true
          end
      end.

(** ** The trace *)

Record StackTrace : Type := mk_trace {
  complete_ : bool;
  unwinding_ : bool;
  frames_ : list FrameImpl;
  sel_ : nat;
  frameHandlerCount_ : nat
}.

Definition new_trace : StackTrace := mk_trace false false [] 0 0.

Definition set_complete (s : StackTrace) : StackTrace :=
  mk_trace true (unwinding_ s) (frames_ s) (sel_ s) (frameHandlerCount_ s).
Definition set_unwinding (b : bool) (s : StackTrace) : StackTrace :=
  mk_trace (complete_ s) b (frames_ s) (sel_ s) (frameHandlerCount_ s).
Definition set_frames (l : list FrameImpl) (s : StackTrace) : StackTrace :=
  mk_trace (complete_ s) (unwinding_ s) l (sel_ s) (frameHandlerCount_ s).
Definition count_handler (s : StackTrace) : StackTrace :=
  mk_trace (complete_ s) (unwinding_ s) (frames_ s) (sel_ s) (S (frameHandlerCount_ s)).

Definition frame (s : StackTrace) (index : nat) : outcome FrameImpl :=
  match frames_ s !! index with Some f => Ret f | None => Raise OutOfRange end.

Definition select_frame (index : nat) : eff StackTrace unit :=
  s ← get;
  if (index <? length (frames_ s))%nat
  then modify (λ s, mk_trace (complete_ s) (unwinding_ s) (frames_ s) index (frameHandlerCount_ s))
  else throw OutOfRange.

Definition selection (s : StackTrace) : outcome FrameImpl := frame s (sel_ s).

(** [LinuxTarget::read_register] of the thread whose trace is [s]: the registers of the
    selected frame, where the trace has them, or else those of the processor. *)
Definition read_register (t : Thread) (s : StackTrace) (n : Z) (useFrame : bool) : outcome Z :=
  let of_frame field :=
    match selection s with Ret f => Ret (after_read t (field f)) | Raise e => Raise e end in
  if useFrame && negb (length (frames_ s) =? 0)%nat then
    if n =? 19 then of_frame sp_
    else if n =? 4 then of_frame fp_
    else if n =? 16 then of_frame pc_
    else Ret (cpu_reg t n)
  else Ret (cpu_reg t n).

(** [AddrOpsImpl]: memory that cannot be read is 0. *)
Definition addr_ops (t : Thread) (s : StackTrace) : AddrOps := {|
  read_mem a := Ret (after_read t (default 0 (read_word t a)));
  read_cpu_reg n useFrame :=
    match read_register t s n useFrame with
    | Ret v => Ret (after_read t v)
    | Raise e => Raise e
    end;
  is_32_bit := th_32_bit t
|}.

Section Unwinding.

(** The frame handlers of the engine, which see the registers of the thread through [AddrOps];
    the variables [ZERO_USE_FRAME_HANDLERS] and [ZERO_MAX_STACK] of the environment. *)
Context (handlers : list (AddrOps → Frame → outcome (option Frame))).
Context (use_frame_handlers : bool).
Context (max_depth : nat).

(** [DebuggerEngine::unwind_frame]: every handler is asked, the last that has a frame gives
    the result. *)
Fixpoint ask_handlers (l : list (AddrOps → Frame → outcome (option Frame))) (ops : AddrOps) (f : Frame)
    (found : option Frame) : outcome (option Frame) :=
  match l with
  | [] => Ret found
  | h :: l =>
      match h ops f with
      | Raise e => Raise e
      | Ret r => ask_handlers l ops f (match r with Some g => Some g | None => found end)
      end
  end.

(** An exception of a handler means that there is no frame. *)
Definition unwind_frame_handlers (t : Thread) (s : StackTrace) (f : FrameImpl) : outcome (option Frame) :=
  if use_frame_handlers then
    let sel := if (length (frames_ s) =? 0)%nat then sel_ s else pred (length (frames_ s)) in
    let during := mk_trace (complete_ s) (unwinding_ s) (frames_ s) sel (frameHandlerCount_ s) in
    match ask_handlers handlers (addr_ops t during) (as_frame f) None with
    | Raise Undefined => Raise Undefined
    | Raise _ => Ret None
    | r => r
    end
  else Ret None.

(** [frames_.back()->set_signal_handler()] *)
Definition mark_last (l : list FrameImpl) : list FrameImpl :=
  match rev l with [] => [] | f :: r => rev (set_signal_handler true f :: r) end.

(** One round of the loop: the next frame, or nothing at the end of the stack. *)
Definition next_frame (t : Thread) (f : FrameImpl) : eff StackTrace (option FrameImpl) :=
  s ← get;
  next ← run (unwind_frame_handlers t s f);
  match next with
  | Some g =>
      modify count_handler;;
      mret (Some (set_real_pc (real_program_count g)
        (set_fp (frame_pointer g) (set_sp (stack_pointer g) (set_frame_pc (program_count g) f)))))
  | None =>
      let '(r, f) := unwind_frame t (set_real_pc 0 f) in
      match r with
      | Raise e => throw e
      | Ret true => mret (Some f)
      | Ret false => mret None
      end
  end.

(** The loop, while [frames_.size()] is [n] below the depth. *)
Fixpoint walk (t : Thread) (n : nat) (f : FrameImpl) : eff StackTrace unit :=
  match n with
  | O => mret tt
  | S n =>
      next ← next_frame t f;
      match next with
      | None => modify set_complete
      | Some f =>
          if pc_ f =? 0 then modify set_complete
          else
            s ← get;
            let marks := sigHandler_ f && negb (length (frames_ s) =? 0)%nat in
            let f := if marks then set_signal_handler false f else f in
            modify (λ s, let l := if marks then mark_last (frames_ s) else frames_ s in
                         set_frames (l ++ [copy_frame f (length l)]) s);;
            walk t n f
      end
  end.

(** [StackTraceImpl::unwind] *)
Definition unwind (t : Thread) (depth : nat) : eff StackTrace unit :=
  s ← get;
  if unwinding_ s then mret tt
  else
    let body :=
      let depth := min depth max_depth in
      let f := frame_of_thread t in
      modify (λ s, set_frames (frames_ s ++ [copy_frame f (length (frames_ s))]) s);;
      s ← get;
      if negb (length (frames_ s) <? depth)%nat || (pc_ f =? 0) then modify set_complete
      else
        walk t (depth - length (frames_ s)) f;;
        modify (λ s, if (length (frames_ s) =? max_depth)%nat then set_complete s else s) in
    λ s, let '(r, s) := body (set_unwinding true s) in (r, set_unwinding false s).

Definition is_complete (s : StackTrace) : bool := complete_ s || unwinding_ s.

(** [ThreadImpl::stack_trace], over [trace_]. *)
Definition stack_trace (t : Thread) (depth : nat) : eff (option StackTrace) unit :=
  let depth := min depth max_depth in
  let fresh := λ _, let '(r, s) := unwind t depth new_trace in (r, Some s) in
  trace ← get;
  match trace with
  | Some s =>
      if unwinding_ s then mret tt
      else if (length (frames_ s) <? depth)%nat && negb (is_complete s) then fresh
      else mret tt
  | None => fresh
  end.

End Unwinding.

(** The frame handler of the DWARF reader. *)
Definition dwarf_handler (get_handle : Z → option (Dwarf_Debug * Z)) (ops : AddrOps) (f : Frame)
  : outcome (option Frame) := reader_unwind_step get_handle ops f.
