(* ===== verification/StackTraceCorrect.v ===== *)
(** * Stack traces show the calls of the thread

    The activations of the functions that have not returned form a chain: each is the
    caller of the one in front of it, by the rules that the debug information has for its
    code, by the frame pointer that it saved, or by what the kernel saved for a system call
    or a signal handler. *)
From S2P Require Import Effects Dwarf DwarfCorrect StackTrace.

(** ** Bounds *)

Section Bounds.
Context (handlers : list (AddrOps → Frame → outcome (option Frame))).
Context (use_frame_handlers : bool) (max_depth : nat).

(** Each frame knows its position. *)
Definition indexed (l : list FrameImpl) : Prop := ∀ i f, l !! i = Some f → index_ f = i.

Lemma indexed_snoc l f : indexed l → indexed (l ++ [copy_frame f (length l)]).
Proof.
  intros H i g Hg. apply lookup_app_Some in Hg as [Hg | [Hi Hg]]; [by apply H|].
  apply list_lookup_singleton_Some in Hg as [Hi' <-]. cbn. lia.
Qed.

Lemma mark_last_snoc l f : mark_last (l ++ [f]) = l ++ [set_signal_handler true f].
Proof. unfold mark_last. rewrite rev_unit. cbn [rev]. by rewrite rev_involutive. Qed.

Lemma mark_last_length l : length (mark_last l) = length l.
Proof.
  destruct l as [|f l _] using rev_ind; [done|]. rewrite mark_last_snoc, !length_app. done.
Qed.

Lemma indexed_mark_last l : indexed l → indexed (mark_last l).
Proof.
  destruct l as [|f l _] using rev_ind; [done|]. rewrite mark_last_snoc. intros H i g Hg.
  apply lookup_app_Some in Hg as [Hg | [Hi Hg]].
  - apply H. by apply lookup_app_l_Some.
  - apply list_lookup_singleton_Some in Hg as [Hi' <-]. apply (H i f). rewrite lookup_app_r by done.
    by rewrite Hi'.
Qed.

Lemma mark_last_head f l : ∃ g l', mark_last (f :: l) = g :: l' ∧ pc_ g = pc_ f ∧ sp_ g = sp_ f ∧ fp_ g = fp_ f.
Proof.
  destruct l as [|h l _] using rev_ind; [by eexists _, []|].
  change (f :: l ++ [h]) with ((f :: l) ++ [h]). rewrite mark_last_snoc. by eexists _, _.
Qed.

(** A trace in the making: frames are numbered, there is one and it is that of the thread. *)
Definition trace_ok (t : Thread) (s : StackTrace) : Prop :=
  indexed (frames_ s)
  ∧ ∃ f l, frames_ s = f :: l ∧ pc_ f = th_pc t ∧ sp_ f = th_sp t ∧ fp_ f = th_fp t.

Lemma next_frame_frames t f s :
  frames_ (next_frame handlers use_frame_handlers t f s).2 = frames_ s
  ∧ unwinding_ (next_frame handlers use_frame_handlers t f s).2 = unwinding_ s.
Proof.
  unfold next_frame, mbind, eff_bind, get, run.
  destruct (unwind_frame_handlers _ _ _ _ _) as [[g|]|e]; [done | | done].
  destruct (unwind_frame t _) as [[[]|] ?]; done.
Qed.

Lemma walk_ok t n f s : trace_ok t s →
  trace_ok t (walk handlers use_frame_handlers t n f s).2
  ∧ (length (frames_ (walk handlers use_frame_handlers t n f s).2) <= length (frames_ s) + n)%nat
  ∧ unwinding_ (walk handlers use_frame_handlers t n f s).2 = unwinding_ s.
Proof.
  revert f s. induction n as [|n IH]; intros f s Hs; cbn [walk]; [split; [done | split; [cbn; lia | done]]|].
  pose proof (next_frame_frames t f s) as [Hf Hu]. unfold mbind, eff_bind.
  destruct (next_frame _ _ _ _ s) as [[[g|]|e] s1] eqn:E; cbn in Hf, Hu.
  - destruct (pc_ g =? 0).
    { cbn. rewrite Hf, Hu. split; [|split; [lia | done]]. destruct Hs as [H1 H2]. split; cbn; by rewrite Hf. }
    cbn -[walk mark_last]. set (marks := sigHandler_ g && _).
    set (l := if marks then mark_last (frames_ s1) else frames_ s1).
    match goal with |- context [walk _ _ t n ?g' ?s2] => destruct (IH g' s2) as (H1 & H2 & H3) end.
    + destruct Hs as (Hi & f0 & l0 & Hl & Hpc & Hsp & Hfp). split; cbn -[mark_last].
      * apply indexed_snoc. subst l. destruct marks; rewrite Hf; [by apply indexed_mark_last | done].
      * subst l. rewrite Hf, Hl. destruct marks.
        -- destruct (mark_last_head f0 l0) as (g0 & l1 & -> & Hp1 & Hp2 & Hp3). cbn.
           eexists _, _. split; [done|]. by rewrite Hp1, Hp2, Hp3.
        -- by eexists _, _.
    + split; [done|]. split; [|by rewrite H3].
      etransitivity; [exact H2|]. cbn. rewrite length_app. subst l. rewrite <- Hf.
      destruct marks; rewrite ?mark_last_length; cbn; lia.
  - cbn. rewrite Hf, Hu. split; [|split; [lia | done]]. destruct Hs as [H1 H2]. split; cbn; by rewrite Hf.
  - cbn. rewrite Hf, Hu. split; [|split; [lia | done]]. destruct Hs as [H1 H2]. split; cbn; by rewrite Hf.
Qed.

Lemma unwind_ok t depth :
  let s := (unwind handlers use_frame_handlers max_depth t depth new_trace).2 in
  trace_ok t s ∧ (length (frames_ s) <= max 1 (min depth max_depth))%nat ∧ unwinding_ s = false.
Proof.
  unfold unwind, mbind, eff_bind, get. cbn -[walk Nat.ltb Nat.eqb].
  set (s1 := mk_trace false true [copy_frame (frame_of_thread t) 0] 0 0).
  assert (trace_ok t s1) as Hs1.
  { split; [|by eexists _, _]. intros [|i] f; cbn; [by intros [= <-] | done]. }
  destruct (negb _ || _) eqn:E; cbn -[walk Nat.ltb Nat.eqb].
  { split; [exact Hs1|]. split; [apply Nat.le_max_l | done]. }
  destruct (walk_ok t (min depth max_depth - 1) (frame_of_thread t) s1 Hs1) as (H1 & H2 & H3).
  change (set_frames _ _) with s1.
  destruct (walk _ _ t _ _ s1) as [[u|e] s2]; cbn in H1, H2, H3; cbn -[Nat.eqb];
    [destruct (length (frames_ s2) =? max_depth)%nat|]; (split; [exact H1|]); cbn; (split; [lia | done]).
Qed.
End Bounds.

(** Calls of [ThreadImpl::stack_trace] and [reset_stack_trace] while the thread is stopped. *)
Inductive trace_call : Type := Trace (depth : nat) | ResetTrace.

Definition trace_after handlers use_frame_handlers max_depth (t : Thread) (calls : list trace_call)
  : option StackTrace :=
  fold_left (λ trace c,
    match c with
    | Trace depth => (stack_trace handlers use_frame_handlers max_depth t depth trace).2
    | ResetTrace => None
    end) calls None.

Lemma fold_left_inv {A X} (f : A → X → A) (P : A → Prop) l a :
  P a → (∀ a x, P a → P (f a x)) → P (fold_left f l a).
Proof. revert a. induction l as [|x l IH]; intros a Ha Hf; cbn; [done|]. apply IH; auto. Qed.

Section Threads.
Context (handlers : list (AddrOps → Frame → outcome (option Frame))).
Context (use_frame_handlers : bool) (max_depth : nat).

Definition stored_ok (t : Thread) (s : StackTrace) : Prop :=
  trace_ok t s ∧ (length (frames_ s) <= max 1 max_depth)%nat ∧ unwinding_ s = false.

Lemma fresh_trace t depth trace : trace = None →
  stack_trace handlers use_frame_handlers max_depth t depth trace
  = (let '(r, s) := unwind handlers use_frame_handlers max_depth t (min depth max_depth) new_trace in (r, Some s)).
Proof. by intros ->. Qed.

Lemma stack_trace_ok t depth trace : (∀ s, trace = Some s → stored_ok t s) →
  ∃ s, (stack_trace handlers use_frame_handlers max_depth t depth trace).2 = Some s ∧ stored_ok t s.
Proof.
  intros Hs.
  assert (∃ s, (stack_trace handlers use_frame_handlers max_depth t depth None).2 = Some s ∧ stored_ok t s) as Hf.
  { rewrite fresh_trace by done.
    pose proof (unwind_ok handlers use_frame_handlers max_depth t (min depth max_depth)) as (H1 & H2 & H3).
    destruct (unwind _ _ _ _ _ _) as [r s]. cbn in *. exists s. split; [done|]. split; [done|]. split; [lia | done]. }
  destruct trace as [s|]; [|done]. specialize (Hs s eq_refl) as Hok. destruct Hok as (H1 & H2 & H3).
  unfold stack_trace, mbind, eff_bind, get. cbn -[unwind Nat.ltb]. rewrite H3.
  destruct (_ && _); [exact Hf|]. by exists s.
Qed.
End Threads.

(** C21: bounds of stack traces. Whatever the frame handlers answer and whatever the memory of the
    debuggee holds, unwinding returns; after any calls of [stack_trace] with any depths, the trace
    of the thread starts with the registers of the thread, its frames are numbered in order,
    there are at most [ZERO_MAX_STACK] of them (but always one), and it is not left marked as
    being unwound, not even when an exception ended the walk. *)
Theorem traces_bounded handlers use_frame_handlers max_depth t calls depth :
  ∃ s, trace_after handlers use_frame_handlers max_depth t (calls ++ [Trace depth]) = Some s
       ∧ stored_ok max_depth t s.
Proof.
  unfold trace_after. rewrite fold_left_app. cbn [fold_left].
  apply stack_trace_ok. fold (trace_after handlers use_frame_handlers max_depth t calls).
  unfold trace_after. apply (fold_left_inv _ (λ a, ∀ s, a = Some s → stored_ok max_depth t s)); [done|].
  intros a [d|] Ha; [|done].
  destruct (stack_trace_ok handlers use_frame_handlers max_depth t d a Ha) as (s & -> & Hok). congruence.
Qed.

(** A shallow trace sticks. Asking for one frame marks the trace as complete although the
    bottom of the stack was not reached, so that every later request, whatever its depth, gets
    the trace of one frame, until the thread runs. *)
Theorem shallow_trace_sticks handlers use_frame_handlers max_depth t depths :
  ∃ s, trace_after handlers use_frame_handlers max_depth t (Trace 1 :: map Trace depths) = Some s
       ∧ complete_ s = true ∧ frames_ s = [frame_of_thread t].
Proof.
  exists (mk_trace true false [frame_of_thread t] 0 0). split; [|done].
  unfold trace_after. cbn [fold_left].
  replace (stack_trace _ _ _ t 1 None).2 with (Some (mk_trace true false [frame_of_thread t] 0 0)).
  - induction depths as [|d depths IH]; [done|]. cbn [map fold_left].
    replace (stack_trace _ _ _ t d _).2 with (Some (mk_trace true false [frame_of_thread t] 0 0)); [done|].
    unfold stack_trace, mbind, eff_bind, get. cbn -[Nat.ltb]. by rewrite andb_false_r.
  - rewrite fresh_trace by done. unfold unwind, mbind, eff_bind, get. cbn -[Nat.ltb Nat.min walk].
    by replace (1 <? min (min 1 max_depth) max_depth)%nat with false by (symmetry; apply Nat.ltb_ge; lia).
Qed.

(** ** Chains of calls *)

Record activation : Type := mk_act { a_pc : Z; a_sp : Z; a_fp : Z }.

Definition view (f : FrameImpl) : activation := mk_act (pc_ f) (sp_ f) (fp_ f).

Section Calls.
Context (t : Thread) (get_handle : Z → option (Dwarf_Debug * Z)).

(** The caller by the rules of the debug information for the code at the program counter. *)
Definition rules_caller (f g : activation) : Prop :=
  ∃ dbg adjust regs r, get_handle (a_pc f) = Some (dbg, adjust)
    ∧ get_dwarf_regtable dbg (u64 (a_pc f - adjust)) = Ret (Some regs) ∧ has_rules regs r
    ∧ a_sp g = u64 ((if on_fp r then a_fp f else a_sp f) + cfa_offset r)
    ∧ read_word t (u64 (a_sp g + ra_offset r)) = Some (a_pc g)
    ∧ match fp_offset r with Some o => read_word t (u64 (a_sp g + o)) = Some (a_fp g) | None => a_fp g = a_fp f end
    ∧ a_pc g ≠ 0 ∧ a_pc g ≠ u64 (a_pc f - adjust).

(** There is no debug information for the program counter, or the function called itself
    from the place where the caller is. *)
Definition no_rules (f : activation) : Prop :=
  get_handle (a_pc f) = None
  ∨ (∃ dbg adjust, get_handle (a_pc f) = Some (dbg, adjust)
       ∧ get_dwarf_regtable dbg (u64 (a_pc f - adjust)) = Ret None)
  ∨ ∃ g, rules_caller f g ∧ a_pc g = a_pc f.

(** Where the return address and the frame pointer of the caller are when the frame pointer
    is followed: in front of a system call they are on the top of the stack. *)
Definition saved_at (f : activation) : Z := if is_syscall_pending t (a_pc f) then a_sp f else a_fp f.

Definition trampoline (f : activation) : bool :=
  check_trampoline64 t (mk_frame_impl (a_pc f) (a_sp f) (a_fp f) 0 0 false).

Definition pointer_caller (f g : activation) : Prop :=
  a_fp f ≠ 0 ∧ trampoline f = false
  ∧ read_word t (u64 (saved_at f + 8)) = Some (a_pc g) ∧ read_word t (u64 (saved_at f)) = Some (a_fp g)
  ∧ a_sp g = u64 (saved_at f + 16).

(** The code that the signal interrupted. *)
Definition signal_caller (f g : activation) : Prop :=
  a_fp f ≠ 0 ∧ trampoline f = true
  ∧ ∃ uc, mapM (λ i, read_word t (u64 (a_sp f + 8 * Z.of_nat i))) (seq 0 UCONTEXT_WORDS) = Some uc
    ∧ a_pc g = word_field uc (GREGS + 8 * REG_RIP) ∧ a_sp g = word_field uc (GREGS + 8 * REG_RSP)
    ∧ a_fp g = word_field uc (GREGS + 8 * REG_RBP).

Definition caller (f g : activation) : Prop :=
  a_pc g ≠ 0
  ∧ (rules_caller f g ∧ a_pc g ≠ a_pc f ∨ no_rules f ∧ (pointer_caller f g ∨ signal_caller f g)).

(** The outermost function: nothing is known of its caller. *)
Definition bottom (f : activation) : Prop :=
  no_rules f
  ∧ (a_fp f = 0 ∨ (trampoline f = false ∧ read_word t (u64 (saved_at f + 8)) = None)
     ∨ ∃ g, pointer_caller f g ∧ a_pc g = 0).

(** The calls that have not returned, innermost first. *)
Inductive chain : activation → list activation → Prop :=
| chain_bottom f : bottom f → chain f []
| chain_up f g l : caller f g → chain g l → chain f (g :: l).

Context (Ht : th_32_bit t = false).

Let handlers := [dwarf_handler get_handle].

(** The frame of the loop shows its own program counter. *)
Definition plain (f : FrameImpl) : Prop := real_pc f = pc_ f ∧ sigHandler_ f = false.

Lemma as_frame_plain f : plain f → as_frame f = mk_frame (pc_ f) (sp_ f) (fp_ f) (pc_ f).
Proof. intros [H _]. unfold as_frame. by rewrite H. Qed.

Lemma handler_rules s f g : plain f → rules_caller (view f) g →
  unwind_frame_handlers handlers true t s f
  = Ret (if a_pc g =? pc_ f then None else Some (mk_frame (a_pc g) (a_sp g) (a_fp g) (a_pc g))).
Proof.
  intros Hf (dbg & adjust & regs & r & Hh & Hr & Hru & Hsp & Hpc & Hfp & H0 & Hrel). cbn in *.
  unfold unwind_frame_handlers. cbn [handlers ask_handlers]. rewrite (as_frame_plain f Hf).
  unfold dwarf_handler. erewrite (reader_finds_caller get_handle _ _ dbg adjust regs r (a_pc g) (a_fp g));
    cbn [real_program_count stack_pointer frame_pointer addr_ops is_32_bit read_mem];
    rewrite <- ?Hsp; try done.
  - apply Z.eqb_neq in Hrel. rewrite Hrel, orb_false_r. by destruct (a_pc g =? pc_ f).
  - unfold after_read. by rewrite Ht, Hpc.
  - destruct (fp_offset r); [|done]. unfold after_read. by rewrite Ht, Hfp.
Qed.

Lemma handler_none s f : plain f → no_rules (view f) → unwind_frame_handlers handlers true t s f = Ret None.
Proof.
  intros Hf [H | [(dbg & adjust & Hh & Hr) | (g & Hg & Hpc)]].
  - unfold unwind_frame_handlers. cbn [handlers ask_handlers]. rewrite (as_frame_plain f Hf).
    unfold dwarf_handler, reader_unwind_step. cbn [real_program_count]. cbn in H. by rewrite H.
  - unfold unwind_frame_handlers. cbn [handlers ask_handlers]. rewrite (as_frame_plain f Hf).
    unfold dwarf_handler, reader_unwind_step. cbn [real_program_count]. cbn in Hh, Hr. rewrite Hh.
    unfold unwind_step. erewrite bind_ret by (unfold run; by rewrite Hr). done.
  - erewrite handler_rules by done. cbn in Hpc. by rewrite Hpc, Z.eqb_refl.
Qed.

Lemma read_plain a : thread_read t a = read_word t (u64 a).
Proof. unfold thread_read, after_read. rewrite Ht. by destruct (read_word t (u64 a)). Qed.

Lemma trampoline_view f : check_trampoline64 t f = trampoline (view f).
Proof. done. Qed.

(** Without a trampoline the frame pointer is followed. *)
Lemma unwind_frame_pointer f : fp_ f ≠ 0 → trampoline (view f) = false →
  unwind_frame t f
  = (match read_word t (u64 (saved_at (view f) + 8)) with
     | None => mret false
     | Some pc =>
         set_program_count pc;;
         match read_word t (u64 (saved_at (view f))) with
         | None => mret false
         | Some fp => modify (λ g, set_fp fp (set_sp (u64 (saved_at (view f) + 16)) g));; mret true
         end
     end : eff FrameImpl bool) f.
Proof.
  intros Hfp Htr. apply Z.eqb_neq in Hfp.
  assert (check_trampoline_frame64 t f = (Ret false, f)) as Hc.
  { unfold check_trampoline_frame64, mbind, eff_bind, get. by rewrite trampoline_view, Htr. }
  unfold unwind_frame. erewrite bind_ret by done. rewrite Hfp. erewrite bind_ret by exact Hc.
  rewrite !read_plain, Ht. unfold saved_at. cbn [view a_pc a_sp a_fp].
  by destruct (is_syscall_pending t (pc_ f)).
Qed.

Lemma set_program_count_view pc f : realPC_ f = 0 →
  ∃ f', set_program_count pc f = (Ret tt, f') ∧ pc_ f' = pc ∧ sp_ f' = sp_ f ∧ fp_ f' = fp_ f
        ∧ sigHandler_ f' = sigHandler_ f ∧ real_pc f' = pc.
Proof.
  intros H0. unfold set_program_count, modify. destruct (Z.eqb_spec pc (pc_ f)) as [->|Hne].
  - exists f. unfold real_pc. by rewrite H0.
  - eexists. split; [done|]. cbn. unfold real_pc. cbn. rewrite H0. cbn.
    repeat split. by destruct (pc =? 0).
Qed.

Lemma unwind_frame_calls f g : realPC_ f = 0 → pointer_caller (view f) g →
  ∃ f', unwind_frame t f = (Ret true, f') ∧ view f' = g ∧ real_pc f' = pc_ f' ∧ sigHandler_ f' = sigHandler_ f.
Proof.
  intros H0 (Hfp & Htr & Hpc & Hsaved & Hsp). rewrite unwind_frame_pointer, Hpc, Hsaved by done.
  destruct (set_program_count_view (a_pc g) f H0) as (f' & Hs & Hp & _ & _ & Hsig & Hreal).
  erewrite bind_ret by exact Hs. eexists. split; [done|].
  destruct g as [pc sp fp]. cbn [a_pc a_sp a_fp] in *. subst sp.
  split; [unfold view at 1; cbn; by rewrite Hp|]. split; [|done]. unfold real_pc in *. cbn. by rewrite Hp in *.
Qed.

Lemma unwind_frame_signal f g : realPC_ f = 0 → signal_caller (view f) g →
  ∃ f', unwind_frame t f = (Ret true, f') ∧ view f' = g ∧ real_pc f' = pc_ f' ∧ sigHandler_ f' = true.
Proof.
  intros H0 (Hfp & Htr & uc & Huc & Hpc & Hsp & Hbp). cbn [view a_fp a_pc a_sp] in *.
  apply Z.eqb_neq in Hfp. unfold unwind_frame. erewrite bind_ret by done. rewrite Hfp.
  assert (read_words t (sp_ f) UCONTEXT_WORDS f = (Ret uc, f)) as Hr by (unfold read_words; by rewrite Huc).
  erewrite bind_ret.
  2:{ unfold check_trampoline_frame64. erewrite bind_ret by done. rewrite trampoline_view, Htr, Ht.
      erewrite bind_ret; [reflexivity|]. by erewrite bind_ret by exact Hr. }
  eexists. split; [done|]. unfold view, real_pc. cbn. rewrite H0. cbn.
  split; [destruct g; cbn in *; congruence|]. split; [|done]. by destruct (word_field uc _ =? 0).
Qed.

Lemma set_real_view f : view (set_real_pc 0 f) = view f.
Proof. done. Qed.

(** One round of the loop follows the call. *)
Lemma next_frame_caller s f g : plain f → caller (view f) g →
  ∃ f' s', next_frame handlers true t f s = (Ret (Some f'), s') ∧ view f' = g ∧ real_pc f' = pc_ f'
    ∧ frames_ s' = frames_ s ∧ complete_ s' = complete_ s ∧ unwinding_ s' = unwinding_ s.
Proof.
  intros Hf [H0 [[Hr Hne] | [Hn Hc]]].
  - unfold next_frame. erewrite bind_ret by done. erewrite bind_ret by (unfold run; by erewrite handler_rules).
    cbn [view a_pc] in Hne. apply Z.eqb_neq in Hne. rewrite Hne.
    eexists _, _. split; [done|]. split; [by destruct g|]. split; [|done].
    unfold real_pc. cbn. by destruct (a_pc g =? 0).
  - unfold next_frame. erewrite bind_ret by done. erewrite bind_ret by (unfold run; by rewrite handler_none).
    rewrite <- (set_real_view f) in Hc.
    destruct Hc as [Hc | Hc]; [destruct (unwind_frame_calls (set_real_pc 0 f) g eq_refl Hc) as (f' & -> & Hv & Hp & _)
                              | destruct (unwind_frame_signal (set_real_pc 0 f) g eq_refl Hc) as (f' & -> & Hv & Hp & _)];
      by eexists _, _.
Qed.

(** At the outermost frame the loop ends. *)
Lemma walk_bottom n s f : plain f → bottom (view f) →
  walk handlers true t (S n) f s = (Ret tt, set_complete s).
Proof.
  intros Hf [Hn Hb]. cbn [walk].
  assert (∃ r f', unwind_frame t (set_real_pc 0 f) = (Ret r, f') ∧ (r = true → pc_ f' = 0)) as (r & f' & Hu & Hr).
  { destruct (Z.eqb_spec (fp_ f) 0) as [Hz|Hz].
    - unfold unwind_frame. erewrite bind_ret by done. cbn [set_real_pc fp_]. rewrite (proj2 (Z.eqb_eq _ _) Hz).
      by eexists false, _.
    - destruct Hb as [Hb | [[Htr Hb] | (g & Hg & Hpc)]]; [done | |].
      + rewrite unwind_frame_pointer by done. rewrite set_real_view, Hb. by eexists false, _.
      + rewrite <- set_real_view in Hg. destruct (unwind_frame_calls (set_real_pc 0 f) g eq_refl Hg) as (f' & -> & Hv & _).
        eexists true, f'. split; [done|]. intros _. rewrite <- Hpc, <- Hv. done. }
  assert (∃ o, next_frame handlers true t f s = (Ret o, s) ∧ match o with Some g => pc_ g = 0 | None => True end)
    as (o & Ho & Hz).
  { unfold next_frame. erewrite bind_ret by done. erewrite bind_ret by (unfold run; by rewrite handler_none).
    rewrite Hu. destruct r; [exists (Some f') | by exists None]. split; [done | by apply Hr]. }
  erewrite bind_ret by exact Ho. destruct o as [g|]; [by rewrite Hz | done].
Qed.

Lemma view_mark_last l : map view (mark_last l) = map view l.
Proof. destruct l as [|f l _] using rev_ind; [done|]. by rewrite mark_last_snoc, !map_app. Qed.

Lemma walk_chain f l : chain (view f) l → plain f → ∀ n s, frames_ s ≠ [] →
  ∃ s', walk handlers true t n f s = (Ret tt, s') ∧ map view (frames_ s') = map view (frames_ s) ++ take n l
    ∧ complete_ s' = complete_ s || (length l <? n)%nat ∧ unwinding_ s' = unwinding_ s.
Proof.
  intros Hc. remember (view f) as a eqn:Ha. revert f Ha.
  induction Hc as [a Hb | a g l Hcall Hc IH]; intros f -> Hf n s Hs.
  - destruct n as [|n].
    + exists s. cbn. by rewrite app_nil_r, orb_false_r.
    + rewrite walk_bottom by done. eexists. split; [done|]. cbn. by rewrite app_nil_r, orb_true_r.
  - destruct n as [|n].
    { exists s. cbn. by rewrite app_nil_r, orb_false_r. }
    destruct (next_frame_caller s f g Hf Hcall) as (f' & s1 & Hn & Hv & Hp & Hfr & Hco & Hun).
    cbn [walk]. erewrite bind_ret by exact Hn. destruct Hcall as [H0 _].
    replace (pc_ f' =? 0) with false by (symmetry; apply Z.eqb_neq; by rewrite <- Hv in H0).
    erewrite bind_ret by done. erewrite bind_ret by done.
    set (marks := sigHandler_ f' && _). set (f2 := if marks then set_signal_handler false f' else f').
    assert (plain f2 ∧ view f2 = g) as [Hp2 Hv2].
    { unfold f2, marks, plain. destruct (frames_ s1) as [|x y] eqn:E; [by rewrite <- Hfr in Hs|]. cbn.
      rewrite andb_true_r. by destruct (sigHandler_ f') eqn:E'. }
    match goal with |- context [walk _ _ _ _ _ ?s2] =>
      destruct (IH f2 (eq_sym Hv2) Hp2 n s2) as (s' & Hw & Hmap & Hcomp & Hunw) end.
    { cbn -[mark_last]. intros E. by apply app_eq_nil in E as [_ E]. }
    exists s'. split; [exact Hw|]. cbn -[mark_last Nat.ltb] in Hmap, Hcomp, Hunw.
    rewrite Hmap, Hcomp, Hunw, Hco, Hun. split; [|done].
    rewrite map_app. change (map view [copy_frame f2 _]) with [view f2]. rewrite Hv2, <- app_assoc. cbn [take app].
    f_equal. rewrite <- Hfr. destruct marks; [apply view_mark_last | done].
Qed.
End Calls.


