(* ===== verification/LineInfo.v ===== *)
(** * Source lines by address

    [generic/AssocVector.h], [generic/nearest.h] and [dwarfz/private/line_info_cache.h]: the
    cache of the line table of a compile unit, a vector of pairs that is sorted by address.
    Iterators are positions. The vector reserves room for the whole line table, so that the
    cell behind its last element is in the block as long as a line was left out; what is
    in the cell was never written, and is the parameter [stale]. The accessors of the
    library for the fields of a line do not fail. *)
From S2P Require Import Effects Dwarf.

(** ** Vectors of sorted pairs *)

Module AssocVector.
Section Vectors.
Context {V : Type}.

Abbreviation t := (list (Z * V)).

(** The first element that is not below, and the first that is above, a key. *)
Fixpoint lower_bound (m : t) (k : Z) : nat :=
  match m with
  | [] => 0
  | (k', _) :: m => if k' <? k then S (lower_bound m k) else 0
  end.

Fixpoint upper_bound (m : t) (k : Z) : nat :=
  match m with
  | [] => 0
  | (k', _) :: m => if k <? k' then 0 else S (upper_bound m k)
  end.

(** [std::vector::insert] *)
Definition insert_at (m : t) (i : nat) (p : Z * V) : t := take i m ++ p :: drop i m.

(** [insert]: a key that is present keeps its value; the second result says whether the pair
    was inserted. *)
Definition insert (m : t) (p : Z * V) : t * bool :=
  let i := lower_bound m p.1 in
  match m !! i with
  | Some (k', _) => if p.1 <? k' then (insert_at m i p, true) else (m, false)
  | None => (insert_at m i p, true)
  end.

Definition find (m : t) (k : Z) : nat :=
  let i := lower_bound m k in
  match m !! i with
  | Some (k', _) => if k <? k' then length m else i
  | None => i
  end.

(** [erase] of a key; how many elements there were. *)
Definition erase (m : t) (k : Z) : t * nat :=
  let i := find m k in
  if (i =? length m)%nat then (m, 0%nat) else (delete i m, 1%nat).

End Vectors.
End AssocVector.

(** ** Nearest values *)

(** Is [v1] closer to the target than [v2]? *)
Definition compare_nearest (target v1 v2 : Z) : bool :=
  let d1 := if v1 <? target then target - v1 else v1 - target in
  let d2 := if v2 <? target then target - v2 else v2 - target in
  d1 <? d2.

Definition nearest_value (target v1 v2 : Z) : Z := if compare_nearest target v1 v2 then v1 else v2.

(** ** The cache *)

(** A row of the line table. *)
Record Dwarf_Line : Type := mk_line {
  lineaddr : Z;
  lineno : Z;
  lineendsequence : bool;
  lineblock : bool;
  linesrc : list Z
}.

(** What the cache uses of its unit: the range of its code (0 when it has none), and the start
    of the function at an address. *)
Record CompileUnit : Type := mk_unit {
  low_pc : Z;
  high_pc : Z;
  lookup_function : Z → option Z
}.

Abbreviation map_type := (list (Z * Dwarf_Line)).

(** [add_line_info] of a line *)
Definition add_line_info (unit : CompileUnit) (m : map_type) (line : Dwarf_Line) : map_type :=
  if lineendsequence line then m
  else
    let addr := lineaddr line in
    if addr =? 0 then m
    else if negb (low_pc unit =? 0) && (addr <? low_pc unit) then m
    else if negb (high_pc unit =? 0) && (high_pc unit <? addr) then m
    else (AssocVector.insert m (addr, line)).1.

Record LineInfoCache : Type := mk_cache { map_ : map_type; capacity_ : nat }.

(** The constructor. *)
Definition new_cache (unit : CompileUnit) (lines : list Dwarf_Line) : LineInfoCache :=
  mk_cache (fold_left (add_line_info unit) lines []) (length lines).

(** What a client that is told about lines answers: whether it wants more. *)
Definition events : Type := option (Dwarf_Line → bool).

Definition advertise_line (ev : events) (line : Dwarf_Line) : bool :=
  match ev with Some wants => wants line | None => true end.

Definition is_block_start (unit : CompileUnit) (addr : Z) (line : Dwarf_Line) : bool :=
  lineblock line || match lookup_function unit addr with Some low => low =? addr | None => false end.

(** The result of a lookup: the count, the nearest address, and the lines that the client was
    told of, or would have been if there is none. *)
Record found : Type := mk_found { count : nat; nearest_addr : option Z; told : list Dwarf_Line }.

Section Lookup.
Context (stale : Z) (use_nearest_match : bool) (unit : CompileUnit).

(** [i->first] *)
Definition key_at (c : LineInfoCache) (i : nat) : outcome Z :=
  match map_ c !! i with
  | Some (k, _) => Ret k
  | None => if ((i =? length (map_ c)) && (length (map_ c) <? capacity_ c))%nat then Ret stale else Raise Undefined
  end.

(** The loop of the exact lookup, which looks at the end first. *)
Fixpoint tell_exact (m : map_type) (addr : Z) (ev : events) (n : nat) (shown : list Dwarf_Line)
  : nat * list Dwarf_Line :=
  match m with
  | [] => (n, shown)
  | (k, line) :: m =>
      if k =? addr then
        if advertise_line ev line then tell_exact m addr ev (S n) (shown ++ [line])
        else (n, shown ++ [line])
      else (n, shown)
  end.

(** The loop of the other lookup: the key is read before the position is compared with the end.
    [m] are the elements from position [i] on. *)
Fixpoint tell_nearest (c : LineInfoCache) (m : map_type) (i : nat) (addr : Z) (ev : events) (n : nat)
    (shown : list Dwarf_Line) : outcome (nat * list Dwarf_Line) :=
  match key_at c i with
  | Raise e => Raise e
  | Ret k =>
      match m with
      | (_, line) :: m =>
          if k =? addr then
            if advertise_line ev line then tell_nearest c m (S i) addr ev (S n) (shown ++ [line])
            else Ret (n, shown ++ [line])
          else Ret (n, shown)
      | [] => Ret (n, shown)
      end
  end.

(** The position that the lookup chooses between the neighbours of an address. *)
Definition choose (c : LineInfoCache) (addr : Z) (i : nat) : outcome nat :=
  if use_nearest_match then
    match key_at c (pred i), key_at c i with
    | Ret kj, Ret ki => Ret (if compare_nearest addr kj ki then pred i else i)
    | Raise e, _ | _, Raise e => Raise e
    end
  else Ret (pred i).

(** From the chosen position on. *)
Definition tell_from (c : LineInfoCache) (i : nat) (nearest : Z) (ev : events) : outcome found :=
  match key_at c i with
  | Raise e => Raise e
  | Ret addr =>
      match tell_nearest c (drop i (map_ c)) i addr ev 0 [] with
      | Raise e => Raise e
      | Ret (n, shown) => Ret (mk_found n (Some nearest) shown)
      end
  end.

Definition addr_to_line (c : LineInfoCache) (addr : Z) (nearest : option Z) (ev : events) : outcome found :=
  match nearest with
  | None =>
      let '(n, shown) := tell_exact (drop (AssocVector.find (map_ c) addr) (map_ c)) addr ev 0 [] in
      Ret (mk_found n None shown)
  | Some near =>
      let i := AssocVector.lower_bound (map_ c) addr in
      let exact :=
        match map_ c !! i with
        | None => false
        | Some (k, line) => (k =? addr) || is_block_start unit addr line
        end in
      if exact then
        match key_at c i with Ret k => tell_from c i k ev | Raise e => Raise e end
      else if (i =? 0)%nat then Ret (mk_found 0 nearest [])
      else
        match choose c addr i with
        | Raise e => Raise e
        | Ret i =>
            match key_at c i with
            | Raise e => Raise e
            | Ret nearestAddr =>
                if compare_nearest addr near nearestAddr then Ret (mk_found 0 nearest [])
                else tell_from c i nearestAddr ev
            end
        end
  end.

End Lookup.

(** The first line number that is another one, or the last. *)
Fixpoint other_line (m : map_type) (line lineNum : Z) : Z :=
  match m with
  | [] => lineNum
  | (_, l) :: m => if lineno l =? line then other_line m line (lineno l) else lineno l
  end.

(** [next_line]: the address of the first line behind an address, or 0, and the number of the
    first line that is not the given one. *)
Definition next_line (c : LineInfoCache) (line addr : Z) : Z * option Z :=
  let i := AssocVector.upper_bound (map_ c) addr in
  match drop i (map_ c) with
  | [] => (0, None)
  | ((_, l) :: _) as m => (lineaddr l, Some (other_line m line 0))
  end.

(** [export_line_info]: the client is told of every line until it has enough. *)
Fixpoint export_lines (m : map_type) (ev : events) (shown : list Dwarf_Line) : bool * list Dwarf_Line :=
  match m with
  | [] => (true, shown)
  | (_, line) :: m => if advertise_line ev line then export_lines m ev (shown ++ [line]) else (false, shown ++ [line])
  end.

Definition export_line_info (c : LineInfoCache) (ev : events) : bool * list Dwarf_Line := export_lines (map_ c) ev [].
