(* ===== verification/LineInfoCorrect.v ===== *)
(** * Line lookups

    The cache holds, for each address of the unit, the first row of the line table with that
    address, in the order of addresses; lookups find the row of an address, or of the nearest
    one. *)
From S2P Require Import Effects Dwarf LineInfo.
From Stdlib Require Import Sorting.Sorted.

(** ** Sorted vectors *)

Section Vectors.
Context {V : Type}.
Implicit Types (m : list (Z * V)) (k : Z) (i : nat).

Definition sorted (m : list (Z * V)) : Prop := StronglySorted Z.lt (map fst m).

Lemma sorted_cons p m : sorted (p :: m) ↔ sorted m ∧ ∀ q, q ∈ m → p.1 < q.1.
Proof.
  unfold sorted. cbn [map]. split.
  - intros H. apply StronglySorted_inv in H as [H1 H2]. split; [done|]. intros q Hq.
    rewrite List.Forall_forall in H2. apply H2. by apply in_map, list_elem_of_In.
  - intros [H1 H2]. constructor; [done|]. apply List.Forall_forall. intros k Hk.
    apply in_map_iff in Hk as (q & <- & Hq). apply H2. by apply list_elem_of_In.
Qed.

Lemma sorted_app m1 m2 : sorted (m1 ++ m2) ↔ sorted m1 ∧ sorted m2 ∧ ∀ p q, p ∈ m1 → q ∈ m2 → p.1 < q.1.
Proof.
  induction m1 as [|p m1 IH]; cbn [app].
  - split; [intros H; split; [constructor | split; [done | set_solver]] | tauto].
  - rewrite !sorted_cons, IH. split.
    + intros ((H1 & H2 & H12) & Hp). repeat split; [done | | done |].
      * intros q Hq. apply Hp, elem_of_app. by left.
      * intros q r [->|Hq]%elem_of_cons Hr; [apply Hp, elem_of_app; by right | by apply H12].
    + intros ((H1 & Hp) & H2 & H12). repeat split; [done | done | |].
      * intros q r Hq Hr. apply H12; [by apply list_elem_of_further | done].
      * intros q [Hq|Hq]%elem_of_app; [by apply Hp | apply H12; [apply list_elem_of_here | done]].
Qed.

(** Keys are unique. *)
Lemma sorted_unique m k v w : sorted m → (k, v) ∈ m → (k, w) ∈ m → v = w.
Proof.
  intros Hs Hv Hw. apply list_elem_of_split in Hv as (m1 & m2 & ->).
  apply sorted_app in Hs as (_ & H2 & H12). apply sorted_cons in H2 as [_ H2]. cbn in H2.
  apply elem_of_app in Hw as [Hw | Hw].
  - specialize (H12 (k, w) (k, v) Hw (list_elem_of_here _ _)). cbn in H12. lia.
  - apply elem_of_cons in Hw as [[= ->] | Hw]; [done|]. apply H2 in Hw. cbn in Hw. lia.
Qed.

(** The lower bound splits the vector. *)
Lemma lower_bound_split m k : sorted m →
  ∃ m1 m2, m = m1 ++ m2 ∧ AssocVector.lower_bound m k = length m1
    ∧ (∀ p, p ∈ m1 → p.1 < k) ∧ (∀ p, p ∈ m2 → k ≤ p.1).
Proof.
  induction m as [|[k' v] m IH]; intros Hs; [exists [], []; set_solver|].
  apply sorted_cons in Hs as [Hs Hlt]. cbn [AssocVector.lower_bound]. destruct (Z.ltb_spec k' k) as [Hk|Hk].
  - destruct (IH Hs) as (m1 & m2 & -> & -> & H1 & H2). exists ((k', v) :: m1), m2.
    split; [done|]. split; [done|]. split; [|done]. intros p [->|Hp]%elem_of_cons; [done | by apply H1].
  - exists [], ((k', v) :: m). split; [done|]. split; [done|]. split; [set_solver|].
    intros p [->|Hp]%elem_of_cons; [done|]. apply Hlt in Hp. cbn in Hp. lia.
Qed.

Lemma lookup_length_app {X} (l1 l2 : list X) : (l1 ++ l2) !! length l1 = head l2.
Proof. rewrite lookup_app_r, Nat.sub_diag by lia. by destruct l2. Qed.

(** What is in front of and behind a key that is not there. *)
Lemma sorted_middle m1 p m2 : sorted (m1 ++ m2) → (∀ q, q ∈ m1 → q.1 < p.1) → (∀ q, q ∈ m2 → p.1 < q.1) →
  sorted (m1 ++ p :: m2) ∧ ∀ v, (p.1, v) ∉ m1 ++ m2.
Proof.
  intros (Hs1 & Hs2 & H12)%sorted_app H1 H2. split.
  - apply sorted_app. split; [done|]. split; [by apply sorted_cons|].
    intros q r Hq [->|Hr]%elem_of_cons; [by apply H1 | by apply H12].
  - intros v [Hv|Hv]%elem_of_app; [apply H1 in Hv | apply H2 in Hv]; cbn in Hv; lia.
Qed.

(** [insert] adds the pair unless its key is there. *)
Lemma insert_sorted m p : sorted m →
  sorted (AssocVector.insert m p).1
  ∧ ∀ q, q ∈ (AssocVector.insert m p).1 ↔ q ∈ m ∨ (q = p ∧ ∀ v, (p.1, v) ∉ m).
Proof.
  intros Hs. destruct (lower_bound_split m p.1 Hs) as (m1 & m2 & -> & Hl & H1 & H2).
  unfold AssocVector.insert. rewrite Hl, lookup_length_app.
  assert (AssocVector.insert_at (m1 ++ m2) (length m1) p = m1 ++ p :: m2) as Hat.
  { unfold AssocVector.insert_at. by rewrite take_app_length, drop_app_length. }
  assert ((∀ q, q ∈ m2 → p.1 < q.1) → sorted (m1 ++ p :: m2)
          ∧ ∀ q, q ∈ m1 ++ p :: m2 ↔ q ∈ m1 ++ m2 ∨ (q = p ∧ ∀ v, (p.1, v) ∉ m1 ++ m2)) as Hnew.
  { intros H2'. destruct (sorted_middle m1 p m2 Hs H1 H2') as [Hs' Hn]. split; [done|]. intros q.
    rewrite !elem_of_app, elem_of_cons. split; [|intros [[|]|[-> _]]; auto]. intros [Hq|[->|Hq]]; auto. }
  destruct m2 as [|[k v] m3]; cbn [head]; [cbn [fst]; rewrite Hat; apply Hnew; by intros q ?%elem_of_nil|].
  destruct (Z.ltb_spec p.1 k) as [Hk|Hk]; cbn [fst].
  - rewrite Hat. apply Hnew. apply sorted_app in Hs as (_ & Hs & _). apply sorted_cons in Hs as [_ Hs].
    intros q [->|Hq]%elem_of_cons; [done|]. apply Hs in Hq. cbn in Hq. lia.
  - split; [done|]. intros q. split; [auto|]. intros [Hq | [-> Hn]]; [done|]. destruct (Hn v).
    specialize (H2 (k, v) (list_elem_of_here _ _)). cbn in H2. replace k with p.1 by lia.
    apply elem_of_app. right. apply list_elem_of_here.
Qed.

(** [find] is the position of the key, or the end. *)
Lemma find_split m k : sorted m →
  (∃ m1 v m2, m = m1 ++ (k, v) :: m2 ∧ AssocVector.find m k = length m1)
  ∨ ((∀ v, (k, v) ∉ m) ∧ AssocVector.find m k = length m).
Proof.
  intros Hs. destruct (lower_bound_split m k Hs) as (m1 & m2 & -> & Hl & H1 & H2).
  unfold AssocVector.find. rewrite Hl, lookup_length_app.
  destruct m2 as [|[k' v] m3]; cbn [head].
  - right. rewrite app_nil_r in *. split; [|done]. intros v Hv. apply H1 in Hv. cbn in Hv. lia.
  - destruct (Z.ltb_spec k k') as [Hk|Hk].
    + right. split; [|done]. intros w Hw. apply elem_of_app in Hw as [Hw|Hw]; [apply H1 in Hw; cbn in Hw; lia|].
      apply sorted_app in Hs as (_ & Hs & _). apply sorted_cons in Hs as [_ Hs].
      apply elem_of_cons in Hw as [[= -> ->]|Hw]; [lia|]. apply Hs in Hw. cbn in Hw. lia.
    + left. exists m1, v, m3. specialize (H2 (k', v) (list_elem_of_here _ _)). cbn in H2.
      by replace k' with k by lia.
Qed.
End Vectors.

(** ** The cache *)

(** The rows that are kept under an address. *)
Definition eligible (unit : CompileUnit) (k : Z) (line : Dwarf_Line) : bool :=
  (lineaddr line =? k) && negb (lineendsequence line) && negb (k =? 0)
  && negb (negb (low_pc unit =? 0) && (k <? low_pc unit))
  && negb (negb (high_pc unit =? 0) && (high_pc unit <? k)).

Lemma add_line_cases unit m line :
  (add_line_info unit m line = m ∧ ∀ k, eligible unit k line = false)
  ∨ (add_line_info unit m line = (AssocVector.insert m (lineaddr line, line)).1
     ∧ ∀ k, eligible unit k line = (lineaddr line =? k)).
Proof.
  unfold add_line_info, eligible.
  destruct (lineendsequence line); [left; split; [done|]; intros k; by destruct (lineaddr line =? k)|].
  destruct (lineaddr line =? 0) eqn:E0; [|destruct (negb (low_pc unit =? 0) && (lineaddr line <? low_pc unit)) eqn:El;
    [|destruct (negb (high_pc unit =? 0) && (high_pc unit <? lineaddr line)) eqn:Eh]].
  1-3: left; split; [done|]; intros k; destruct (Z.eqb_spec (lineaddr line) k) as [<-|]; [|done]; rewrite ?E0, ?El, ?Eh; cbn;
    by rewrite ?andb_false_r.
  right. split; [done|]. intros k. destruct (Z.eqb_spec (lineaddr line) k) as [<-|]; [|done]. by rewrite E0, El, Eh.
Qed.

(** The cache is sorted and holds the first rows. *)
Lemma cache_rows unit lines :
  sorted (map_ (new_cache unit lines))
  ∧ ∀ k line, (k, line) ∈ map_ (new_cache unit lines) ↔ List.find (eligible unit k) lines = Some line.
Proof.
  cbn [new_cache map_]. induction lines as [|x lines [Hs Hm]] using rev_ind.
  - split; [constructor|]. intros k line. cbn. split; [by intros ?%elem_of_nil | done].
  - rewrite fold_left_app. cbn [fold_left]. set (m := fold_left _ _ _) in *.
    assert (∀ k, List.find (eligible unit k) (lines ++ [x])
                 = match List.find (eligible unit k) lines with
                   | Some l => Some l
                   | None => if eligible unit k x then Some x else None
                   end) as Hfind.
    { intros k. clear. induction lines as [|y l IH]; cbn; [done|]. by destruct (eligible unit k y). }
    destruct (add_line_cases unit m x) as [[-> He] | [-> He]].
    + split; [done|]. intros k line. rewrite Hm, Hfind, He. by destruct (List.find _ lines).
    + destruct (insert_sorted m (lineaddr x, x) Hs) as [Hs' Hq]. split; [done|]. intros k line.
      rewrite Hq, Hm, Hfind, He. cbn [fst]. destruct (List.find (eligible unit k) lines) as [l|] eqn:El.
      * split; [intros [H|[[= -> ->] Hn]]; [done|] | auto]. by destruct (Hn l); apply Hm.
      * destruct (Z.eqb_spec (lineaddr x) k) as [<-|Hne].
        -- split; [intros [H|[[= ->] _]]; done | intros [= <-]; right]. split; [done|].
           intros v Hv. apply Hm in Hv. congruence.
        -- split; [intros [H|[[= -> ->] _]]; done | done].
Qed.

(** A row that ends a sequence leaves room in the vector. *)
Lemma cache_room unit lines : existsb lineendsequence lines = true →
  (length (map_ (new_cache unit lines)) < capacity_ (new_cache unit lines))%nat.
Proof.
  cbn [new_cache map_ capacity_].
  assert (∀ m line, length (add_line_info unit m line) <= S (length m))%nat as H1.
  { intros m line. destruct (add_line_cases unit m line) as [[-> _]|[-> _]]; [lia|].
    unfold AssocVector.insert, AssocVector.insert_at.
    assert (∀ i, length (take i m ++ (lineaddr line, line) :: drop i m) = S (length m)) as Hl.
    { intros i. rewrite length_app, length_take. cbn. rewrite length_drop. lia. }
    destruct (m !! _) as [[k' v]|]; [destruct (_ <? _)|]; cbn [fst]; rewrite ?Hl; lia. }
  assert (∀ lines m, length (fold_left (add_line_info unit) lines m)
            + (if existsb lineendsequence lines then 1 else 0) <= length lines + length m)%nat as H2.
  { clear lines. induction lines as [|x lines IH]; intros m; cbn [fold_left existsb length]; [lia|].
    specialize (IH (add_line_info unit m x)). specialize (H1 m x). destruct (lineendsequence x) eqn:E; cbn [orb].
    - replace (add_line_info unit m x) with m in * by (unfold add_line_info; by rewrite E).
      destruct (existsb _ lines); lia.
    - destruct (existsb _ lines); lia. }
  intros He. specialize (H2 lines []). rewrite He in H2. cbn [length] in H2. lia.
Qed.

(** How often a client is told of a row: once, and it counts unless it has enough. *)
Definition told_once (ev : events) (line : Dwarf_Line) : nat := if advertise_line ev line then 1 else 0.

Lemma tell_exact_here k line m ev : sorted ((k, line) :: m) →
  tell_exact ((k, line) :: m) k ev 0 [] = (told_once ev line, [line]).
Proof.
  intros [_ Hs]%sorted_cons. cbn [tell_exact]. rewrite Z.eqb_refl. unfold told_once.
  destruct (advertise_line ev line); [|done]. destruct m as [|[k' l'] m]; [done|]. cbn [tell_exact app].
  specialize (Hs (k', l') (list_elem_of_here _ _)). cbn in Hs. by replace (k' =? k) with false by lia.
Qed.

Section Cells.
Context (stale : Z) (c : LineInfoCache).
Context (Hs : sorted (map_ c)) (Hroom : (length (map_ c) < capacity_ c)%nat).

Lemma key_at_entry m1 k line m2 : map_ c = m1 ++ (k, line) :: m2 → key_at stale c (length m1) = Ret k.
Proof. intros Hm. unfold key_at. by rewrite Hm, lookup_length_app. Qed.

Lemma key_at_end : key_at stale c (length (map_ c)) = Ret stale.
Proof.
  unfold key_at. rewrite lookup_ge_None_2 by lia. rewrite Nat.eqb_refl.
  by replace (length (map_ c) <? capacity_ c)%nat with true by (symmetry; by apply Nat.ltb_lt).
Qed.

(** From the position of a row on, that row is told. *)
Lemma tell_from_entry m1 k line m2 near ev : map_ c = m1 ++ (k, line) :: m2 →
  tell_from stale c (length m1) near ev = Ret (mk_found (told_once ev line) (Some near) [line]).
Proof.
  intros Hm. unfold tell_from. erewrite key_at_entry by exact Hm. rewrite Hm, drop_app_length.
  assert (tell_nearest stale c ((k, line) :: m2) (length m1) k ev 0 [] = Ret (told_once ev line, [line])) as ->;
    [|done].
  cbn [tell_nearest]. erewrite key_at_entry by exact Hm. rewrite Z.eqb_refl. unfold told_once.
  destruct (advertise_line ev line); [|done]. rewrite Hm in Hs. apply sorted_app in Hs as (_ & Hs2 & _).
  apply sorted_cons in Hs2 as [_ Hs2]. destruct m2 as [|[k' l'] m3].
  - cbn [tell_nearest]. replace (S (length m1)) with (length (map_ c)) by (rewrite Hm, length_app; cbn; lia).
    by rewrite key_at_end.
  - specialize (Hs2 (k', l') (list_elem_of_here _ _)). cbn in Hs2. cbn [tell_nearest].
    replace (S (length m1)) with (length (m1 ++ [(k, line)])) by (rewrite length_app; cbn; lia).
    erewrite key_at_entry by (by rewrite Hm, <- app_assoc). by replace (k' =? k) with false by lia.
Qed.

Lemma tell_from_end near ev : tell_from stale c (length (map_ c)) near ev = Ret (mk_found 0 (Some near) []).
Proof.
  unfold tell_from. rewrite key_at_end, drop_ge by lia. cbn [tell_nearest]. by rewrite key_at_end.
Qed.
End Cells.

(** Exact lookups. An exact lookup of an address tells the client of the first row of the table with that address in the range of
    the unit, or of nothing when there is none; exporting the cache to a client that always
    wants more tells of exactly these rows, in the order of addresses. *)
Theorem exact_lookup_first_row stale nearest unit lines addr ev :
  let c := new_cache unit lines in
  addr_to_line stale nearest unit c addr None ev
  = Ret (match List.find (eligible unit addr) lines with
         | Some line => mk_found (told_once ev line) None [line]
         | None => mk_found 0 None []
         end)
  ∧ (export_line_info c None).1 = true
  ∧ (∀ line, line ∈ (export_line_info c None).2 ↔ List.find (eligible unit (lineaddr line)) lines = Some line)
  ∧ StronglySorted Z.lt (map lineaddr (export_line_info c None).2).
Proof.
  intros c. destruct (cache_rows unit lines) as [Hs Hm]. fold c in Hs, Hm.
  assert (∀ k line, (k, line) ∈ map_ c → lineaddr line = k) as Haddr.
  { intros k line Hk. apply Hm, find_some in Hk as [_ He]. unfold eligible in He.
    repeat (apply andb_true_iff in He as [He _]). by apply Z.eqb_eq. }
  assert (∀ m shown, export_lines m None shown = (true, shown ++ map snd m)) as Hex.
  { clear. induction m as [|[k l] m IH]; intros shown; cbn; [by rewrite app_nil_r|].
    by rewrite IH, <- app_assoc. }
  unfold export_line_info. rewrite Hex. cbn [fst snd app]. repeat split.
  - unfold addr_to_line. destruct (find_split (map_ c) addr Hs) as [(m1 & v & m2 & Hc & ->) | [Hn ->]].
    + rewrite Hc, drop_app_length. rewrite tell_exact_here.
      * assert ((addr, v) ∈ map_ c) as Hv by (rewrite Hc; apply elem_of_app; right; apply list_elem_of_here).
        apply Hm in Hv. by rewrite Hv.
      * rewrite Hc in Hs. by apply sorted_app in Hs as (_ & Hs & _).
    + rewrite drop_ge by lia. destruct (List.find _ lines) as [l|] eqn:E; [|done]. apply Hm in E. by apply Hn in E.
  - intros Hl. apply list_elem_of_In, in_map_iff in Hl as ([k l] & <- & Hl). apply list_elem_of_In in Hl.
    cbn. rewrite (Haddr k l Hl). by apply Hm.
  - intros Hl. apply Hm in Hl. apply list_elem_of_In, in_map_iff. exists (lineaddr line, line).
    split; [done | by apply list_elem_of_In].
  - rewrite map_map. erewrite map_ext_in; [exact Hs|]. intros [k l] Hl%list_elem_of_In. cbn. by apply Haddr.
Qed.

Lemma compare_nearest_abs target v1 v2 : compare_nearest target v1 v2 = (Z.abs (target - v1) <? Z.abs (target - v2)).
Proof.
  unfold compare_nearest. destruct (Z.ltb_spec v1 target), (Z.ltb_spec v2 target);
    apply eq_true_iff_eq; rewrite !Z.ltb_lt; lia.
Qed.

Section Nearest.
Context (stale : Z) (unit : CompileUnit) (c : LineInfoCache) (addr near : Z) (ev : events).
Context (Hs : sorted (map_ c)) (Hroom : (length (map_ c) < capacity_ c)%nat).
Context (Hblock : ∀ k line, (k, line) ∈ map_ c → is_block_start unit addr line = false).

(** What is found at a row, when no other unit has a nearer one. *)
Definition found_row (k : Z) (line : Dwarf_Line) : found :=
  if compare_nearest addr near k then mk_found 0 (Some near) [] else mk_found (told_once ev line) (Some k) [line].

(** The neighbours of the address: rows in front of it, and rows at or behind it. *)
Lemma addr_to_line_split m1 m2 : map_ c = m1 ++ m2 →
  (∀ p, p ∈ m1 → p.1 < addr) → (∀ p, p ∈ m2 → addr ≤ p.1) →
  AssocVector.lower_bound (map_ c) addr = length m1.
Proof.
  intros Hm H1 H2. rewrite Hm. clear -H1 H2. induction m1 as [|[k l] m1 IH]; cbn [app].
  - destruct m2 as [|[k l] m2]; [done|]. cbn. specialize (H2 (k, l) (list_elem_of_here _ _)). cbn in H2.
    by replace (k <? addr) with false by lia.
  - cbn. specialize (H1 (k, l) (list_elem_of_here _ _)) as Hk. cbn in Hk. replace (k <? addr) with true by lia.
    f_equal. apply IH. intros p Hp. by apply H1, list_elem_of_further.
Qed.

(** At or between rows. *)
Lemma nearest_between m1 kj lj ki li m2 : map_ c = m1 ++ (kj, lj) :: (ki, li) :: m2 → kj < addr → addr < ki →
  addr_to_line stale true unit c addr (Some near) ev
  = Ret (if compare_nearest addr kj ki then found_row kj lj else found_row ki li).
Proof.
  intros Hm Hj Hi.
  assert (map_ c = (m1 ++ [(kj, lj)]) ++ (ki, li) :: m2) as Hm' by (by rewrite Hm, <- app_assoc).
  assert (AssocVector.lower_bound (map_ c) addr = length (m1 ++ [(kj, lj)])) as Hl.
  { eapply addr_to_line_split; [exact Hm'| |]; rewrite Hm in Hs; apply sorted_app in Hs as (_ & H2 & H12);
      apply sorted_cons in H2 as [H2 Hj']; apply sorted_cons in H2 as [_ Hi']; cbn in *.
    - intros p [Hp|Hp]%elem_of_app; [|apply list_elem_of_singleton in Hp as ->; done].
      specialize (H12 p (kj, lj) Hp (list_elem_of_here _ _)). cbn in H12. lia.
    - intros p [->|Hp]%elem_of_cons; [cbn; lia|]. apply Hi' in Hp. lia. }
  unfold addr_to_line. rewrite Hl.
  replace (map_ c !! length (m1 ++ [(kj, lj)])) with (Some (ki, li)) by (rewrite Hm'; by rewrite lookup_length_app).
  rewrite (Hblock ki li) by (rewrite Hm'; apply elem_of_app; right; apply list_elem_of_here).
  replace (ki =? addr) with false by lia. cbn [orb].
  assert ((length (m1 ++ [(kj, lj)]) =? 0)%nat = false) as -> by (rewrite length_app; cbn; apply Nat.eqb_neq; lia).
  unfold choose. replace (pred (length (m1 ++ [(kj, lj)]))) with (length m1) by (rewrite length_app; cbn; lia).
  rewrite (key_at_entry stale c m1 kj lj ((ki, li) :: m2) Hm), (key_at_entry stale c _ ki li m2 Hm').
  unfold found_row. destruct (compare_nearest addr kj ki).
  - rewrite (key_at_entry stale c m1 kj lj ((ki, li) :: m2) Hm). destruct (compare_nearest addr near kj); [done|].
    by erewrite tell_from_entry by done.
  - rewrite (key_at_entry stale c _ ki li m2 Hm'). destruct (compare_nearest addr near ki); [done|].
    by erewrite tell_from_entry by done.
Qed.

Lemma nearest_exact m1 li m2 : map_ c = m1 ++ (addr, li) :: m2 →
  addr_to_line stale true unit c addr (Some near) ev = Ret (found_row addr li).
Proof.
  intros Hm. assert (AssocVector.lower_bound (map_ c) addr = length m1) as Hl.
  { eapply addr_to_line_split; [exact Hm| |]; rewrite Hm in Hs; apply sorted_app in Hs as (_ & H2 & H12);
      apply sorted_cons in H2 as [_ H2]; cbn in *.
    - intros p Hp. by specialize (H12 p (addr, li) Hp (list_elem_of_here _ _)).
    - intros p [->|Hp]%elem_of_cons; [done|]. apply H2 in Hp. lia. }
  unfold addr_to_line. rewrite Hl.
  replace (map_ c !! length m1) with (Some (addr, li)) by (rewrite Hm; by rewrite lookup_length_app).
  rewrite Z.eqb_refl. cbn [orb]. rewrite (key_at_entry stale c m1 addr li m2 Hm).
  erewrite tell_from_entry by done. unfold found_row. rewrite compare_nearest_abs, Z.sub_diag.
  by replace (Z.abs (addr - near) <? Z.abs 0) with false by lia.
Qed.

(** Behind the last row. *)
Lemma nearest_behind m1 k line : map_ c = m1 ++ [(k, line)] → k < addr →
  addr_to_line stale true unit c addr (Some near) ev
  = Ret (if compare_nearest addr k stale then found_row k line
         else if compare_nearest addr near stale then mk_found 0 (Some near) [] else mk_found 0 (Some stale) []).
Proof.
  intros Hm Hk. assert (AssocVector.lower_bound (map_ c) addr = length (map_ c)) as Hl.
  { eapply addr_to_line_split; [by rewrite app_nil_r | | by intros p ?%elem_of_nil].
    rewrite Hm in *. apply sorted_app in Hs as (_ & _ & H12).
    intros p [Hp|Hp]%elem_of_app; [|apply list_elem_of_singleton in Hp as ->; done].
    specialize (H12 p (k, line) Hp (list_elem_of_here _ _)). cbn in H12. lia. }
  unfold addr_to_line. rewrite Hl, lookup_ge_None_2 by lia.
  assert (length (map_ c) = S (length m1)) as Hlen by (rewrite Hm, length_app; cbn; lia).
  replace (length (map_ c) =? 0)%nat with false by (symmetry; apply Nat.eqb_neq; lia).
  unfold choose. replace (pred (length (map_ c))) with (length m1) by lia.
  rewrite (key_at_entry stale c m1 k line [] Hm), key_at_end by done.
  unfold found_row. destruct (compare_nearest addr k stale).
  - rewrite (key_at_entry stale c m1 k line [] Hm). destruct (compare_nearest addr near k); [done|].
    by erewrite tell_from_entry by done.
  - rewrite key_at_end by done. destruct (compare_nearest addr near stale); [done|]. by rewrite tell_from_end.
Qed.

Lemma nearest_before : (∀ p, p ∈ map_ c → addr < p.1) →
  addr_to_line stale true unit c addr (Some near) ev = Ret (mk_found 0 (Some near) []).
Proof.
  intros H. assert (AssocVector.lower_bound (map_ c) addr = 0%nat) as Hl.
  { eapply (addr_to_line_split []); [done | by intros p ?%elem_of_nil|]. intros p Hp. apply H in Hp. lia. }
  unfold addr_to_line. rewrite Hl. destruct (map_ c) as [|[k line] m] eqn:Em; [done|]. cbn [lookup list_lookup head].
  rewrite <- Em in *. rewrite (Hblock k line) by (rewrite Em; apply list_elem_of_here).
  specialize (H (k, line)). rewrite Em in H. specialize (H (list_elem_of_here _ _)). cbn in H.
  by replace (k =? addr) with false by lia.
Qed.
End Nearest.

(** The rows around an address. *)
Lemma neighbours (m : list (Z * Dwarf_Line)) addr : sorted m →
  (∀ p, p ∈ m → addr < p.1)
  ∨ (∃ m1 l m2, m = m1 ++ (addr, l) :: m2)
  ∨ (∃ m1 kj lj ki li m2, m = m1 ++ (kj, lj) :: (ki, li) :: m2 ∧ kj < addr ∧ addr < ki)
  ∨ (∃ m1 k l, m = m1 ++ [(k, l)] ∧ k < addr).
Proof.
  intros Hs. destruct (lower_bound_split m addr Hs) as (m1 & m2 & -> & _ & H1 & H2).
  destruct m2 as [|[ki li] m3].
  - destruct m1 as [|[kj lj] m1 _] using rev_ind; [left; by intros p ?%elem_of_nil|].
    right. right. right. rewrite app_nil_r. exists m1, kj, lj. split; [done|].
    apply (H1 (kj, lj)). apply elem_of_app. right. apply list_elem_of_here.
  - specialize (H2 (ki, li) (list_elem_of_here _ _)) as Hi. cbn in Hi.
    destruct (Z.eqb_spec ki addr) as [->|Hne]; [right; left; eauto|].
    apply sorted_app in Hs as (_ & Hs & _). apply sorted_cons in Hs as [_ Hs]. cbn in Hs.
    destruct m1 as [|[kj lj] m1 _] using rev_ind.
    + left. intros p [->|Hp]%elem_of_cons; [cbn; lia|]. apply Hs in Hp. lia.
    + right. right. left. exists m1, kj, lj, ki, li, m3. rewrite <- app_assoc. split; [done|]. split; [|lia].
      apply (H1 (kj, lj)). apply elem_of_app. right. apply list_elem_of_here.
Qed.

(** A row next to the address is the nearest one when it is the nearer of the two. *)
Lemma neighbour_nearest m1 kj lj ki li m2 (m : list (Z * Dwarf_Line)) addr p :
  sorted m → m = m1 ++ (kj, lj) :: (ki, li) :: m2 → kj < addr → addr < ki → p ∈ m →
  Z.abs (addr - (if compare_nearest addr kj ki then kj else ki)) ≤ Z.abs (addr - p.1).
Proof.
  intros Hs -> Hj Hi Hp. rewrite compare_nearest_abs. apply sorted_app in Hs as (_ & H2 & H12).
  apply sorted_cons in H2 as [H2 _]. apply sorted_cons in H2 as [_ H2]. cbn in H2.
  assert (p.1 ≤ kj ∨ ki ≤ p.1) as Hcases.
  { apply elem_of_app in Hp as [Hp|[->|[->|Hp]%elem_of_cons]%elem_of_cons]; cbn; [| lia | lia |].
    - specialize (H12 p (kj, lj) Hp (list_elem_of_here _ _)). cbn in H12. lia.
    - apply H2 in Hp. lia. }
  destruct (Z.ltb_spec (Z.abs (addr - kj)) (Z.abs (addr - ki))); lia.
Qed.

(** C20: nearest lookups. For a line table with a row that ends a sequence and an address at which
    no block or function starts: in front of all rows nothing is found; at or between
    rows, the row with the nearest address is found, unless the caller knows a nearer one.
    But behind all rows the code reads the cell behind the end of the vector, which was
    never written: when what it holds is not farther from the address than the last row,
    nothing is found, and the address that the caller gets as the nearest one is the content of
    that cell. *)
Theorem nearest_lookup stale unit lines addr near ev :
  existsb lineendsequence lines = true →
  existsb (is_block_start unit addr) lines = false →
  let c := new_cache unit lines in
  let row k := List.find (eligible unit k) lines in
  let lookup := addr_to_line stale true unit c addr (Some near) ev in
  ((∀ k line, row k = Some line → addr < k) ∧ lookup = Ret (mk_found 0 (Some near) []))
  ∨ (∃ k line, row k = Some line ∧ (∀ k' line', row k' = Some line' → Z.abs (addr - k) ≤ Z.abs (addr - k'))
       ∧ (∃ k' line', row k' = Some line' ∧ addr ≤ k') ∧ lookup = Ret (found_row addr near ev k line))
  ∨ (∃ k line, row k = Some line ∧ (∀ k' line', row k' = Some line' → k' ≤ k) ∧ k < addr
       ∧ lookup = Ret (if compare_nearest addr k stale then found_row addr near ev k line
                       else if compare_nearest addr near stale then mk_found 0 (Some near) []
                       else mk_found 0 (Some stale) [])).
Proof.
  intros Hend Hblock c row lookup. destruct (cache_rows unit lines) as [Hs Hm]. fold c in Hs, Hm.
  pose proof (cache_room unit lines Hend) as Hroom. fold c in Hroom.
  assert (∀ k line, (k, line) ∈ map_ c → is_block_start unit addr line = false) as Hb.
  { intros k line Hk. apply Hm, find_some in Hk as [Hin _].
    destruct (is_block_start unit addr line) eqn:E; [|done].
    rewrite <- Hblock. symmetry. apply existsb_exists. by exists line. }
  assert (∀ k line, row k = Some line → (k, line) ∈ map_ c) as Hrow by (intros k line; apply Hm).
  destruct (neighbours (map_ c) addr Hs)
    as [Hall | [(m1 & l & m2 & Hc) | [(m1 & kj & lj & ki & li & m2 & Hc & Hj & Hi) | (m1 & k & l & Hc & Hk)]]].
  - left. split; [|by apply nearest_before]. intros k line Hk. by apply (Hall (k, line)), Hrow.
  - assert (row addr = Some l) as Hr by (apply Hm; rewrite Hc; apply elem_of_app; right; apply list_elem_of_here).
    right. left. exists addr, l. split; [done|]. split; [intros; lia|]. split; [by exists addr, l|].
    by eapply nearest_exact.
  - assert (row kj = Some lj) as Hrj by (apply Hm; rewrite Hc; apply elem_of_app; right; apply list_elem_of_here).
    assert (row ki = Some li) as Hri.
    { apply Hm. rewrite Hc. apply elem_of_app. right. apply list_elem_of_further, list_elem_of_here. }
    right. left. pose proof (nearest_between stale unit c addr near ev Hs Hroom Hb m1 kj lj ki li m2 Hc Hj Hi) as Hl.
    pose proof (neighbour_nearest m1 kj lj ki li m2 (map_ c) addr) as Hn.
    destruct (compare_nearest addr kj ki); [exists kj, lj | exists ki, li]; (split; [done|]);
      (split; [intros k' l' Hk'; apply (Hn (k', l') Hs Hc Hj Hi); by apply Hrow|]); (split; [exists ki, li; split; [done | lia] | exact Hl]).
  - right. right. exists k, l.
    split; [apply Hm; rewrite Hc; apply elem_of_app; right; apply list_elem_of_here|].
    split; [|split; [done | by eapply nearest_behind]].
    intros k' l' Hk'. apply Hrow in Hk'. rewrite Hc in Hk', Hs. apply sorted_app in Hs as (_ & _ & H12).
    apply elem_of_app in Hk' as [Hk'|Hk']; [|apply list_elem_of_singleton in Hk' as [= ->]; lia].
    specialize (H12 _ (k, l) Hk' (list_elem_of_here _ _)). cbn in H12. lia.
Qed.

(** Two rows and the end of the sequence: an address between the rows, and one behind them when
    the cell behind the vector holds the address that is looked up. *)
Lemma nearest_lookup_witness :
  let row a n := mk_line a n false false [] in
  let lines := [row 0x1000 10; row 0x1010 11; mk_line 0x1020 12 true false []] in
  let unit := mk_unit 0x1000 0x1020 (λ _, None) in
  let at_ addr := addr_to_line 0x1018 true unit (new_cache unit lines) addr (Some 0) None in
  at_ 0x1003 = Ret (mk_found 1 (Some 0x1000) [row 0x1000 10])
  ∧ at_ 0x1018 = Ret (mk_found 0 (Some 0x1018) []).
Proof.
  intros row lines unit at_.
  split.
  - destruct (nearest_lookup 0x1018 unit lines 0x1003 0 None) as [[H _] | [_ | (k & l & _ & H & Hk & _)]];
      [reflexivity | reflexivity | | reflexivity |].
    + specialize (H 0x1000 (row 0x1000 10) eq_refl). lia.
    + specialize (H 0x1010 (row 0x1010 11) eq_refl). lia.
  - destruct (nearest_lookup 0x1018 unit lines 0x1018 0 None) as [[H _] | [_ | _]];
      [reflexivity | reflexivity | | reflexivity | reflexivity].
    specialize (H 0x1000 (row 0x1000 10) eq_refl). lia.
Defined.
