(* ===== verification/Properties.v ===== *)
(** * Properties ([dharma/properties.cpp])

    Named settings of the debugger. Words, floating point numbers, strings and objects have a
    hash map each, so that the same name may be used once with each of them. *)
From S2P Require Import Prelude CLib.
From stdpp Require Import base gmap strings.
Local Open Scope Z_scope.

(** An object that is kept for a name; [o_uuid] is the class of one that is [Streamable]. *)
Record zobject : Type := mk_object { o_id : Z; o_uuid : option Z }.

Record properties : Type := mk_properties {
  wordMap_ : gmap bytes Z;
  doubleMap_ : gmap bytes Z;            (* a double by its 64 bits *)
  stringMap_ : gmap bytes bytes;
  objectMap_ : gmap bytes zobject
}.

Definition no_properties : properties := mk_properties ∅ ∅ ∅ ∅.

Definition get_word (name : bytes) (defaultVal : Z) (p : properties) : Z :=
  match wordMap_ p !! name with Some w => w | None => defaultVal end.

Definition set_word (name : bytes) (val : Z) (p : properties) : properties :=
  mk_properties (<[name := val]> (wordMap_ p)) (doubleMap_ p) (stringMap_ p) (objectMap_ p).

Definition get_double (name : bytes) (defaultVal : Z) (p : properties) : Z :=
  match doubleMap_ p !! name with Some x => x | None => defaultVal end.

Definition set_double (name : bytes) (value : Z) (p : properties) : properties :=
  mk_properties (wordMap_ p) (<[name := value]> (doubleMap_ p)) (stringMap_ p) (objectMap_ p).

(** A null default is the empty string. *)
Definition get_string (name : bytes) (defaultVal : option bytes) (p : properties) : bytes :=
  let defaultVal := match defaultVal with Some d => d | None => [] end in
  match stringMap_ p !! name with Some s => s | None => defaultVal end.

(** A null value removes the property. *)
Definition set_string (name : bytes) (value : option bytes) (p : properties) : properties :=
  let m := match value with
           | None => delete name (stringMap_ p)
           | Some v => <[name := v]> (stringMap_ p)
           end in
  mk_properties (wordMap_ p) (doubleMap_ p) m (objectMap_ p).

Definition get_object (name : bytes) (p : properties) : option zobject := objectMap_ p !! name.

(** [None]: [logic_error], an object of another class has the name. *)
Definition set_object (name : bytes) (object : option zobject) (p : properties) : option properties :=
  let put m := Some (mk_properties (wordMap_ p) (doubleMap_ p) (stringMap_ p) m) in
  match objectMap_ p !! name, object with
  | None, None => Some p
  | None, Some o => put (<[name := o]> (objectMap_ p))
  | Some _, None => put (delete name (objectMap_ p))
  | Some old, Some new =>
      match o_uuid old, o_uuid new with
      | Some u, Some v => if u =? v then put (<[name := new]> (objectMap_ p)) else None
      | None, None => put (<[name := new]> (objectMap_ p))
      | _, _ => None
      end
  end.

(** [merge(src, dest)] of one map: the entries of the source replace those of the target. *)
Definition merge_map {A : Type} (src dest : gmap bytes A) : gmap bytes A := src ∪ dest.

Definition merge (other p : properties) : properties :=
  mk_properties (merge_map (wordMap_ other) (wordMap_ p))
                (merge_map (doubleMap_ other) (doubleMap_ p))
                (merge_map (stringMap_ other) (stringMap_ p))
                (merge_map (objectMap_ other) (objectMap_ p)).

(** ** Reading what was written *)

Lemma get_set_word n m v d p : get_word n d (set_word m v p) = if decide (m = n) then v else get_word n d p.
Proof. unfold get_word; cbn. rewrite lookup_insert. now case_decide. Qed.

Lemma stringMap_set_string n m v p :
  stringMap_ (set_string m v p) !! n = if decide (m = n) then v else stringMap_ p !! n.
Proof.
  unfold set_string; cbn. destruct v.
  - rewrite lookup_insert. now case_decide.
  - rewrite lookup_delete. now case_decide.
Qed.

Lemma get_word_set_string n m v d p : get_word n d (set_string m v p) = get_word n d p.
Proof. reflexivity. Qed.

Lemma stringMap_set_word n m v p : stringMap_ (set_word m v p) !! n = stringMap_ p !! n.
Proof. reflexivity. Qed.
