(* ===== verification/StepOver.v ===== *)
(** * Functions to step over ([engine/step_over_mgr.cpp])

    The user names functions, files and directories that "step into" never enters. The
    manager keeps them in memory, writes them to the properties of the debugger whenever they
    change, and reads them back when the properties are loaded. *)
From S2P Require Import Prelude CLib DString DReal LongFloat FloatArith Variant SharedString Properties.
From stdpp Require Import base gmap list strings.
Local Open Scope Z_scope.

(** ** Paths ([dharma/path.h]) *)

(** The text before the last occurrence of a character; [None]: [strrchr] gives null. *)
Fixpoint before_last (c : ascii) (s : bytes) : option bytes :=
  match s with
  | [] => None
  | d :: s =>
      match before_last c s with
      | Some t => Some (d :: t)
      | None => if Ascii.eqb d c then Some [] else None
      end
  end.

Definition dirname (path : bytes) : bytes :=
  match before_last "/"%char path with Some d => d | None => B "." end.

(** ** Ordered containers of shared strings *)

(** [std::less<SharedStringPtr>] of two strings that are not null. *)
Definition less (l r : bytes) : bool := strcmp l r <? 0.

(** Neither comes before the other. *)
Definition same_key (l r : bytes) : bool := negb (less l r) && negb (less r l).

Section Multimap.
Context {V : Type}.

(** [multimap::insert]: behind the entries with the same key. *)
Fixpoint mm_insert (k : bytes) (v : V) (m : list (bytes * V)) : list (bytes * V) :=
  match m with
  | [] => [(k, v)]
  | (j, w) :: m' => if less k j then (k, v) :: m else (j, w) :: mm_insert k v m'
  end.

(** [equal_range(k)] *)
Definition mm_range (k : bytes) (m : list (bytes * V)) : list (bytes * V) :=
  List.filter (fun e => same_key k (fst e)) m.

(** [erase(k)] *)
Definition mm_erase (k : bytes) (m : list (bytes * V)) : list (bytes * V) :=
  List.filter (fun e => negb (same_key k (fst e))) m.

End Multimap.

Fixpoint set_insert (k : bytes) (s : list bytes) : list bytes :=
  match s with
  | [] => [k]
  | j :: s' => if less k j then k :: s else if less j k then j :: set_insert k s' else s
  end.
Definition set_erase (k : bytes) (s : list bytes) : list bytes := List.filter (fun j => negb (same_key k j)) s.
Definition set_count (k : bytes) (s : list bytes) : bool := existsb (same_key k) s.

(** ** The manager, with the properties of its debugger *)

Record manager : Type := mk_manager {
  stepOverMap_ : list (bytes * Z);     (* multimap to unsigned int *)
  stepOverDirSet_ : list bytes;
  readingProperties_ : bool;
  count_ : Z;
  props : properties
}.

Definition StepOverManager (p : properties) : manager := mk_manager [] [] false 0 p.

Definition with_map m (s : manager) := mk_manager m (stepOverDirSet_ s) (readingProperties_ s) (count_ s) (props s).
Definition with_dirs d (s : manager) := mk_manager (stepOverMap_ s) d (readingProperties_ s) (count_ s) (props s).
Definition with_reading b (s : manager) := mk_manager (stepOverMap_ s) (stepOverDirSet_ s) b (count_ s) (props s).
Definition with_props p (s : manager) := mk_manager (stepOverMap_ s) (stepOverDirSet_ s) (readingProperties_ s) (count_ s) p.
Definition with_count c p (s : manager) := mk_manager (stepOverMap_ s) (stepOverDirSet_ s) (readingProperties_ s) c p.

(** [name << "step_over_" << n] *)
Definition prop_name (n : Z) : bytes := B "step_over_" ++ print_Z n.

(** [val << line << "!" << path] *)
Definition prop_value (path : bytes) (line : Z) : bytes := print_Z line ++ B "!" ++ path.

(** The calls of the callback in [enum_step_over]. *)
Definition enum_step_over (s : manager) : list (bytes * Z) :=
  stepOverMap_ s ++ map (fun d => (d, -1)) (stepOverDirSet_ s).

Definition notify (e : bytes * Z) (s : manager) : manager :=
  let n := count_ s + 1 in
  with_count n (set_string (prop_name n) (Some (prop_value (fst e) (snd e))) (props s)) s.

Definition sync (s : manager) : manager :=
  let s := with_count 0 (props s) s in
  let s := fold_left (fun s e => notify e s) (enum_step_over s) s in
  with_props (set_word (B "step_over") (count_ s) (props s)) s.

(** The first pass of [update_properties]: the names from [n] down to 1. *)
Fixpoint remove_all (n : nat) (p : properties) : properties :=
  match n with
  | O => p
  | S n' => remove_all n' (set_string (prop_name (Z.of_nat n)) None p)
  end.

Definition update_properties (s : manager) : manager :=
  if readingProperties_ s then s
  else
    let count := get_word (B "step_over") 0 (props s) in
    sync (with_props (remove_all (Z.to_nat count) (props s)) s).

(** A conversion to [unsigned int]. *)
Definition uint (n : Z) : Z := n mod 2 ^ 32.

Definition add_step_over (file : option bytes) (line : Z) (s : manager) : manager :=
  match file with
  | None => s
  | Some file =>
      if line =? -1 then
        let dir := if readingProperties_ s then file else dirname file in
        update_properties (with_dirs (set_insert dir (stepOverDirSet_ s)) s)
      else
        let s := if line =? 0 then with_map (mm_erase file (stepOverMap_ s)) s else s in
        if existsb (fun e => (snd e =? 0) || (snd e =? line)) (mm_range file (stepOverMap_ s)) then s
        else update_properties (with_map (mm_insert file (uint line) (stepOverMap_ s)) s)
  end.

Definition remove_step_over (file : option bytes) (line : Z) (s : manager) : manager :=
  let s :=
    match file with
    | None => with_dirs [] (with_map [] s)
    | Some file =>
        if line =? 0 then with_map (mm_erase file (stepOverMap_ s)) s
        else if line =? -1 then with_dirs (set_erase file (stepOverDirSet_ s)) s
        else with_map (List.filter (fun e => negb (same_key file (fst e) && (snd e =? line mod 2 ^ 64)))
                                   (stepOverMap_ s)) s
    end in
  update_properties s.

(** [query_step_over(symbols, pc)] where [symbol] is what [symbols->lookup_symbol(pc)] gives:
    the file, which may be null, and the line. [None]: [CHKPTR] throws. *)
Definition query_step_over (symbol : option (option bytes * Z)) (s : manager) : option bool :=
  match stepOverMap_ s, stepOverDirSet_ s with
  | [], [] => Some false
  | _, _ =>
      match symbol with
      | None => Some false
      | Some (None, _) => None
      | Some (Some file, line) =>
          if existsb (fun e => (snd e =? 0) || (snd e =? line)) (mm_range file (stepOverMap_ s)) then Some true
          else Some (set_count (dirname file) (stepOverDirSet_ s) || set_count file (stepOverDirSet_ s))
      end
  end.

(** The loop of [restore_from_properties]: the properties from [n] down to 1. The pointer
    behind the number is advanced before it is looked at. *)
Fixpoint restore_entries (n : nat) (s : manager) : res manager :=
  match n with
  | O => Ok s
  | S n' =>
      let val := get_string (prop_name (Z.of_nat n)) (Some []) (props s) in
      let '(line, r) := strtol_0 val in
      let p := pnext (PAt r) in
      let* c := rd p 0 in
      if Ascii.eqb c NUL then restore_entries n' s
      else let* path := cstr p in restore_entries n' (add_step_over (Some path) line s)
  end.

(** [Temporary] sets the flag for the duration of the call. *)
Definition restore_from_properties (s : manager) : res manager :=
  let saved := readingProperties_ s in
  let s := with_reading true s in
  let count := get_word (B "step_over") 0 (props s) in
  let s := with_props (set_word (B "step_over") 0 (props s)) s in
  let* s := restore_entries (Z.to_nat count) s in
  Ok (with_reading saved (sync s)).
