(* ===== verification/StepOverCorrect.v ===== *)
(** * What the step-over manager keeps

    The entries of the manager are a set of rules; the properties always list them, and a
    manager that is restored from the properties has the same rules. *)
From S2P Require Import Prelude CLib DString DReal LongFloat FloatArith Variant VariantCorrect.
From S2P Require Import SharedString SharedStringCorrect Properties StepOver.
From Stdlib Require Import Sorting.Sorted.
From stdpp Require Import base gmap list strings sets.
Local Open Scope Z_scope.

(** ** The order of shared strings *)

Lemma less_irrefl k : less k k = false.
Proof. unfold less. now rewrite strcmp_refl. Qed.

Lemma same_key_spec k j : same_key k j = bool_decide (k = j).
Proof.
  unfold same_key, less. rewrite (strcmp_opp k j). pose proof (strcmp_eq k j) as H.
  case_bool_decide as D; destruct (Z.ltb_spec (strcmp k j) 0), (Z.ltb_spec (- strcmp k j) 0); cbn; try reflexivity.
  1-3: apply H in D; lia.
  exfalso. apply D, H. lia.
Qed.

Lemma less_asym a b : less a b = true -> less b a = false.
Proof. unfold less. rewrite (strcmp_opp a b). lia. Qed.

Lemma less_trans a b c : less a b = true -> less b c = true -> less a c = true.
Proof. unfold less. rewrite !Z.ltb_lt. apply strcmp_lt_trans. Qed.

Lemma less_total a b : less a b = false -> less b a = false -> a = b.
Proof.
  intros Ha Hb. pose proof (same_key_spec a b) as H. unfold same_key in H. rewrite Ha, Hb in H.
  now apply eq_sym, bool_decide_eq_true in H.
Qed.

(** ** Multimaps *)

Section Multimap.
Context {V : Type}.
Implicit Types (m : list (bytes * V)) (e : bytes * V).

(** The keys do not decrease. *)
Definition mm_sorted m : Prop := StronglySorted (fun a b => less b.1 a.1 = false) m.

Lemma mm_insert_perm k v m : mm_insert k v m ≡ₚ (k, v) :: m.
Proof.
  induction m as [|[j w] m IH]; cbn; [done|]. destruct (less k j); [done|].
  rewrite IH. constructor.
Qed.

Lemma mm_insert_sorted k v m : mm_sorted m -> mm_sorted (mm_insert k v m).
Proof.
  induction m as [|[j w] m IH]; cbn; intros H; [repeat constructor|].
  apply StronglySorted_inv in H as [H1 H2]. destruct (less k j) eqn:E.
  - constructor; [now constructor|]. constructor; [now apply less_asym|].
    eapply Forall_impl; [exact H2|]. cbn. intros [i x] Hi; cbn in *.
    destruct (less i k) eqn:D; [|done]. rewrite (less_trans _ _ _ D E) in Hi. done.
  - constructor; [exact (IH H1)|]. apply List.Forall_forall. intros e He. apply list_elem_of_In in He.
    rewrite mm_insert_perm in He. apply elem_of_cons in He as [->|He]; [done|].
    rewrite Forall_forall in H2. now apply H2.
Qed.

Lemma mm_range_insert k v m f : mm_sorted m ->
  mm_range f (mm_insert k v m) = if bool_decide (f = k) then mm_range f m ++ [(k, v)] else mm_range f m.
Proof.
  unfold mm_range. induction m as [|[j w] m IH]; intros H; cbn.
  { rewrite same_key_spec. now case_bool_decide. }
  apply StronglySorted_inv in H as [H1 H2]. destruct (less k j) eqn:E; cbn; rewrite ?same_key_spec.
  - case_bool_decide as D; [subst k|done].
    assert (List.filter (fun e => same_key f e.1) ((j, w) :: m) = []) as E0.
    { apply List.incl_l_nil. intros e He. apply filter_In in He as [He Hf].
      rewrite same_key_spec in Hf. apply bool_decide_eq_true in Hf. subst f.
      destruct He as [<- | He]; cbn in *; [now rewrite less_irrefl in E|].
      rewrite Forall_forall in H2. apply list_elem_of_In in He. apply H2 in He. cbn in He. congruence. }
    cbn in E0. rewrite same_key_spec in E0. now rewrite E0.
  - rewrite IH by done. now do 2 case_bool_decide.
Qed.

Lemma mm_range_elem k m e : e ∈ mm_range k m <-> e ∈ m /\ e.1 = k.
Proof.
  unfold mm_range. rewrite !list_elem_of_In, filter_In, same_key_spec, bool_decide_eq_true. intuition congruence.
Qed.

Lemma mm_erase_elem k m e : e ∈ mm_erase k m <-> e ∈ m /\ e.1 <> k.
Proof.
  unfold mm_erase. rewrite !list_elem_of_In, filter_In, same_key_spec, negb_true_iff, bool_decide_eq_false. intuition congruence.
Qed.

Lemma sorted_filter {A} (R : A -> A -> Prop) (p : A -> bool) l : StronglySorted R l -> StronglySorted R (List.filter p l).
Proof.
  induction 1 as [|x l H IH Hx]; cbn; [constructor|]. destruct (p x); [|done]. constructor; [done|].
  rewrite List.Forall_forall in *. intros y Hy%filter_In. now apply Hx.
Qed.

End Multimap.

Lemma NoDup_List_filter {A} (p : A -> bool) l : NoDup l -> NoDup (List.filter p l).
Proof. rewrite !NoDup_ListNoDup. apply List.NoDup_filter. Qed.

(** ** Sets *)

Definition set_sorted (s : list bytes) : Prop := StronglySorted (fun a b => less a b = true) s.

Lemma set_insert_elem k s j : j ∈ set_insert k s <-> j = k \/ j ∈ s.
Proof.
  induction s as [|i s IH]; cbn; [set_solver|]. destruct (less k i) eqn:E1; [set_solver|].
  destruct (less i k) eqn:E2; [rewrite !elem_of_cons, IH; tauto|].
  rewrite (less_total _ _ E1 E2), elem_of_cons. tauto.
Qed.

Lemma set_insert_sorted k s : set_sorted s -> set_sorted (set_insert k s).
Proof.
  induction s as [|i s IH]; cbn; intros H; [repeat constructor|].
  pose proof H as [H1 H2]%StronglySorted_inv. destruct (less k i) eqn:E1.
  - constructor; [done|]. constructor; [done|]. eapply Forall_impl; [exact H2|].
    cbn. intros j. now apply less_trans.
  - destruct (less i k) eqn:E2; [|done]. constructor; [exact (IH H1)|]. apply Forall_forall. intros j.
    rewrite set_insert_elem. intros [->|Hj]; [done|]. rewrite Forall_forall in H2. auto.
Qed.

Lemma set_erase_elem k s j : j ∈ set_erase k s <-> j ∈ s /\ j <> k.
Proof.
  unfold set_erase. rewrite !list_elem_of_In, filter_In, same_key_spec, negb_true_iff, bool_decide_eq_false. intuition congruence.
Qed.

Lemma set_count_spec k s : set_count k s = bool_decide (k ∈ s).
Proof.
  apply Bool.eq_iff_eq_true. rewrite bool_decide_eq_true. unfold set_count. rewrite existsb_exists.
  setoid_rewrite same_key_spec. setoid_rewrite bool_decide_eq_true. setoid_rewrite <- list_elem_of_In. naive_solver.
Qed.

Lemma set_sorted_NoDup s : set_sorted s -> NoDup s.
Proof.
  induction 1 as [|k s H IH Hk]; constructor; [|done]. intros Hin. rewrite Forall_forall in Hk.
  apply Hk in Hin. now rewrite less_irrefl in Hin.
Qed.

(** Inserting the elements of a sorted list from the last to the first gives the list. *)
Lemma set_insert_front k s : set_sorted (k :: s) -> set_insert k s = k :: s.
Proof.
  intros [_ H]%StronglySorted_inv. destruct s as [|j s]; [done|]. cbn.
  inversion H as [|? ? Hj]; subst. now rewrite Hj.
Qed.

(** ** Names and values of properties *)

Lemma print_Z_inj i j : 0 <= i -> 0 <= j -> print_Z i = print_Z j -> i = j.
Proof.
  unfold print_Z. intros Hi Hj. replace (i <? 0) with false by lia. replace (j <? 0) with false by lia.
  intros E. now rewrite <- (dec_val_dec i Hi), <- (dec_val_dec j Hj), E.
Qed.

Lemma prop_name_eq i j : 0 <= i -> 0 <= j -> prop_name i = prop_name j <-> i = j.
Proof.
  intros Hi Hj. split; [|now intros ->]. intros E. apply app_inv_head in E. now apply print_Z_inj.
Qed.

(** Decimal digits that are followed by an exclamation mark. *)
Lemma scan_digits_mark n r : 0 <= n ->
  let '(base, digit, s) := base_of (dec n ++ B "!" ++ r) in
  span digit s = (dec n, B "!" ++ r) /\ digits_value base (dec n) = n.
Proof.
  intros Hn. destruct (Z.eq_dec n 0) as [->|H0].
  - change (dec 0) with (B "0"). unfold base_of. destruct r; cbn; split; reflexivity.
  - destruct (dec_cons n Hn) as (c & s & E & Hc & Hz). specialize (Hz ltac:(lia)).
    assert (base_of (dec n ++ B "!" ++ r) = (10, isdigit, dec n ++ B "!" ++ r)) as ->.
    { rewrite E. unfold base_of. cbn. destruct s as [|x [|y s]]; cbn; rewrite Hz; try reflexivity. destruct r; reflexivity. }
    split.
    + apply span_all; [now apply dec_digits | reflexivity].
    + rewrite digits_value_dec by now apply dec_digits. now apply dec_val_dec.
Qed.

Lemma scan_value n path : scan_number (prop_value path n) = Some (n <? 0, Z.abs n, B "!" ++ path).
Proof.
  unfold prop_value, print_Z. destruct (Z.ltb_spec n 0).
  - pose proof (scan_digits_mark (- n) path ltac:(lia)) as Hs. unfold scan_number.
    change (("-"%char :: dec (- n)) ++ B "!" ++ path) with ("-"%char :: (dec (- n) ++ B "!" ++ path)).
    cbn [span]. change (isspace "-") with false. cbn [snd]. change ("-" =c "-") with true. cbv iota.
    destruct (base_of _) as [[base digit] s]. destruct Hs as [-> Hv].
    destruct (dec_cons (- n) ltac:(lia)) as (c & r & E & _). rewrite E in *. rewrite Hv. do 3 f_equal. lia.
  - pose proof (scan_digits_mark n path ltac:(lia)) as Hs. unfold scan_number.
    destruct (dec_cons n ltac:(lia)) as (c & r & E & Hc & _).
    assert (snd (span isspace (dec n ++ B "!" ++ path)) = dec n ++ B "!" ++ path) as ->.
    { rewrite E. cbn [app span]. now rewrite (isdigit_not_space c Hc). }
    rewrite E at 1. cbn [app]. destruct (isdigit_not_sign c Hc) as [-> ->].
    destruct (base_of _) as [[base digit] s]. destruct Hs as [-> Hv].
    rewrite E in *. rewrite Hv. do 3 f_equal. lia.
Qed.

Lemma strtol_value n path : - 2 ^ 63 <= n < 2 ^ 63 -> strtol_0 (prop_value path n) = (n, B "!" ++ path).
Proof.
  intros Hn. unfold strtol_0. rewrite scan_value.
  replace (if n <? 0 then - Z.abs n else Z.abs n) with n by (destruct (Z.ltb_spec n 0); lia).
  now rewrite clamp_id.
Qed.

(** ** The properties list the entries *)

(** The entry behind the name [step_over_<i+1>]. *)
Definition lists (p : properties) (E : list (bytes * Z)) : Prop :=
  get_word (B "step_over") 0 p = Z.of_nat (length E) /\
  forall i, stringMap_ p !! prop_name (Z.of_nat (S i)) = (fun e => prop_value e.1 e.2) <$> E !! i.

Lemma notify_all E s n : count_ s = Z.of_nat n ->
  let s' := fold_left (fun s e => notify e s) E s in
  stepOverMap_ s' = stepOverMap_ s /\ stepOverDirSet_ s' = stepOverDirSet_ s /\
  readingProperties_ s' = readingProperties_ s /\ count_ s' = Z.of_nat (n + length E) /\
  forall i, stringMap_ (props s') !! prop_name (Z.of_nat (S i)) =
    if decide (n <= i < n + length E)%nat then (fun e => prop_value e.1 e.2) <$> E !! (i - n)%nat
    else stringMap_ (props s) !! prop_name (Z.of_nat (S i)).
Proof.
  revert s n. induction E as [|e E IH]; intros s n Hn; cbn [fold_left length].
  - rewrite Nat.add_0_r. repeat split; auto. intros i. now rewrite decide_False by lia.
  - destruct (IH (notify e s) (S n) ltac:(cbn; lia)) as (H1 & H2 & H3 & H4 & H5).
    repeat split; [now rewrite H1 | now rewrite H2 | now rewrite H3 | rewrite H4; lia |].
    intros i. rewrite H5. case_decide as D1.
    + rewrite decide_True by lia. replace (i - n)%nat with (S (i - S n)) by lia. reflexivity.
    + cbn [notify props with_count]. rewrite stringMap_set_string.
      case_decide as D2; rewrite prop_name_eq in D2 by lia.
      * rewrite decide_True by lia. replace (i - n)%nat with O by lia. reflexivity.
      * now rewrite decide_False by lia.
Qed.

Lemma sync_spec s :
  stepOverMap_ (sync s) = stepOverMap_ s /\ stepOverDirSet_ (sync s) = stepOverDirSet_ s /\
  readingProperties_ (sync s) = readingProperties_ s /\
  get_word (B "step_over") 0 (props (sync s)) = Z.of_nat (length (enum_step_over s)) /\
  forall i, stringMap_ (props (sync s)) !! prop_name (Z.of_nat (S i)) =
    if decide (i < length (enum_step_over s))%nat then (fun e => prop_value e.1 e.2) <$> enum_step_over s !! i
    else stringMap_ (props s) !! prop_name (Z.of_nat (S i)).
Proof.
  unfold sync.
  destruct (notify_all (enum_step_over (with_count 0 (props s) s)) (with_count 0 (props s) s) 0 eq_refl)
    as (H1 & H2 & H3 & H4 & H5).
  repeat split; [exact H1 | exact H2 | exact H3 | |].
  - cbn [props with_props]. rewrite get_set_word, decide_True by done. exact H4.
  - intros i. cbn [props with_props]. rewrite stringMap_set_word, H5, Nat.sub_0_r.
    change (enum_step_over (with_count 0 (props s) s)) with (enum_step_over s). cbn [Nat.add].
    repeat case_decide; auto; lia.
Qed.

Lemma remove_all_spec n p :
  get_word (B "step_over") 0 (remove_all n p) = get_word (B "step_over") 0 p /\
  forall i, stringMap_ (remove_all n p) !! prop_name (Z.of_nat (S i)) =
    if decide (i < n)%nat then None else stringMap_ p !! prop_name (Z.of_nat (S i)).
Proof.
  revert p. induction n as [|n IH]; intros p; cbn [remove_all]; [split; auto; intros; now rewrite decide_False by lia|].
  destruct (IH (set_string (prop_name (Z.of_nat (S n))) None p)) as [H1 H2].
  split; [now rewrite H1|]. intros i. rewrite H2, stringMap_set_string.
  case_decide; [now rewrite decide_True by lia|].
  case_decide as D; rewrite prop_name_eq in D by lia; repeat case_decide; auto; lia.
Qed.

(** Outside of [restore_from_properties] the list is made anew. *)
Lemma update_lists E s : readingProperties_ s = false -> lists (props s) E ->
  let s' := update_properties s in
  stepOverMap_ s' = stepOverMap_ s /\ stepOverDirSet_ s' = stepOverDirSet_ s /\
  readingProperties_ s' = false /\ lists (props s') (enum_step_over s).
Proof.
  intros Hr [Hw Hs]. cbn. unfold update_properties. rewrite Hr, Hw, Nat2Z.id.
  set (s1 := with_props _ s). destruct (sync_spec s1) as (H1 & H2 & H3 & H4 & H5).
  repeat split; [now rewrite H1 | now rewrite H2 | now rewrite H3 | now rewrite H4 |].
  intros i. rewrite H5. change (enum_step_over s1) with (enum_step_over s). case_decide as D; [done|].
  rewrite (lookup_ge_None_2 (enum_step_over s)) by lia.
  change (props s1) with (remove_all (length E) (props s)).
  rewrite (proj2 (remove_all_spec _ _)). case_decide; [done|]. rewrite Hs.
  now rewrite lookup_ge_None_2 by lia.
Qed.

Lemma update_reading s : readingProperties_ s = true -> update_properties s = s.
Proof. unfold update_properties. now intros ->. Qed.

(** ** The operations on the containers *)

Definition add_map (f : bytes) (line : Z) (m : list (bytes * Z)) : list (bytes * Z) :=
  if line =? -1 then m
  else
    let m := if line =? 0 then mm_erase f m else m in
    if existsb (fun e => (e.2 =? 0) || (e.2 =? line)) (mm_range f m) then m else mm_insert f (uint line) m.

Definition remove_map (f : bytes) (line : Z) (m : list (bytes * Z)) : list (bytes * Z) :=
  if line =? 0 then mm_erase f m
  else if line =? -1 then m
  else List.filter (fun e => negb (same_key f e.1 && (e.2 =? line mod 2 ^ 64))) m.

Lemma update_frame s :
  stepOverMap_ (update_properties s) = stepOverMap_ s /\
  stepOverDirSet_ (update_properties s) = stepOverDirSet_ s /\
  readingProperties_ (update_properties s) = readingProperties_ s.
Proof.
  unfold update_properties. destruct (readingProperties_ s) eqn:E; [auto|].
  set (s1 := with_props _ s). destruct (sync_spec s1) as (H1 & H2 & H3 & _). rewrite H1, H2, H3. auto.
Qed.

Lemma add_frame f line s :
  let s' := add_step_over (Some f) line s in
  stepOverMap_ s' = add_map f line (stepOverMap_ s) /\
  stepOverDirSet_ s' = (if line =? -1 then set_insert (if readingProperties_ s then f else dirname f) (stepOverDirSet_ s)
                        else stepOverDirSet_ s) /\
  readingProperties_ s' = readingProperties_ s.
Proof.
  cbn. unfold add_step_over, add_map. destruct (line =? -1).
  - match goal with |- context [update_properties ?t] => destruct (update_frame t) as (-> & -> & ->) end. auto.
  - destruct (line =? 0); cbn; (destruct (existsb _ _); [auto|]);
    match goal with |- context [update_properties ?t] => destruct (update_frame t) as (-> & -> & ->) end; auto.
Qed.

Lemma remove_frame f line s :
  let s' := remove_step_over (Some f) line s in
  stepOverMap_ s' = remove_map f line (stepOverMap_ s) /\
  stepOverDirSet_ s' = (if line =? -1 then set_erase f (stepOverDirSet_ s) else stepOverDirSet_ s) /\
  readingProperties_ s' = readingProperties_ s.
Proof.
  cbn. unfold remove_step_over, remove_map.
  match goal with |- context [update_properties ?t] => destruct (update_frame t) as (-> & -> & ->) end.
  destruct (Z.eqb_spec line 0), (Z.eqb_spec line (-1)); try lia; auto.
Qed.

(** Outside of a restore, the properties list the entries of the manager. *)
Definition saved (s : manager) : Prop := readingProperties_ s = false /\ lists (props s) (enum_step_over s).

Lemma update_saved E s : readingProperties_ s = false -> lists (props s) E -> saved (update_properties s).
Proof.
  intros Hr H. destruct (update_lists E s Hr H) as (H1 & H2 & H3 & H4). split; [done|].
  unfold enum_step_over in *. now rewrite H1, H2.
Qed.

Lemma remove_saved f line s : saved s -> saved (remove_step_over f line s).
Proof.
  intros [Hr H]. unfold remove_step_over. apply (update_saved (enum_step_over s)).
  - destruct f; [|done]. destruct (line =? 0), (line =? -1); done.
  - destruct f; [|done]. destruct (line =? 0), (line =? -1); done.
Qed.

Lemma mm_range_erase {V} f (m : list (bytes * V)) : mm_range f (mm_erase f m) = [].
Proof.
  apply List.incl_l_nil. intros e He%list_elem_of_In.
  apply mm_range_elem in He as [He Hf]. now apply mm_erase_elem in He as [_ He].
Qed.

Lemma add_saved f line s : saved s -> saved (add_step_over f line s).
Proof.
  intros [Hr H]. unfold add_step_over. destruct f as [f|]; [|done].
  destruct (Z.eqb_spec line (-1)); [now apply (update_saved (enum_step_over s))|].
  destruct (Z.eqb_spec line 0) as [->|]; cbn [stepOverMap_ with_map].
  - rewrite mm_range_erase. cbn [existsb]. now apply (update_saved (enum_step_over s)).
  - destruct (existsb _ _); [done|]. now apply (update_saved (enum_step_over s)).
Qed.

(** ** Well-formed entries *)

Record wf (m : list (bytes * Z)) (ds : list bytes) : Prop := {
  wf_sorted : mm_sorted m;
  wf_dirs : set_sorted ds;
  wf_nodup : NoDup m;
  wf_lines : forall e, e ∈ m -> 0 <= e.2 < 2 ^ 32;
  wf_whole : forall f l, (f, 0) ∈ m -> (f, l) ∈ m -> l = 0
}.

Definition line_ok (line : Z) : Prop := line = -1 \/ 0 <= line < 2 ^ 32.

(** Is the line covered by an entry of the file? *)
Lemma covered_spec f line m :
  existsb (fun e => (e.2 =? 0) || (e.2 =? line)) (mm_range f m) = bool_decide ((f, 0) ∈ m \/ (f, line) ∈ m).
Proof.
  apply Bool.eq_iff_eq_true. rewrite bool_decide_eq_true, existsb_exists. split.
  - intros ([g l] & Hin%list_elem_of_In & Hl). apply mm_range_elem in Hin as [Hin Hf]. cbn in *. subst g.
    apply orb_true_iff in Hl as [->%Z.eqb_eq | ->%Z.eqb_eq]; auto.
  - intros [H|H]; eexists; rewrite <- list_elem_of_In, mm_range_elem; (split; [split; [exact H | done]|]); cbn [snd];
      rewrite Z.eqb_refl, ?orb_true_r; done.
Qed.

(** The entries of a file after [add_step_over] of a line of it. *)
Lemma add_map_elem f line m e : line_ok line ->
  e ∈ add_map f line m <->
  (line <> -1 /\ e = (f, line) /\ ((f, 0) ∉ m \/ line = 0)) \/ (e ∈ m /\ ~ (line = 0 /\ e.1 = f)).
Proof.
  intros Hl. unfold add_map. destruct (Z.eqb_spec line (-1)) as [->|Hn]; [intuition lia|].
  assert (uint line = line) as Hu by (unfold uint; destruct Hl; [lia | now apply Z.mod_small]).
  destruct (Z.eqb_spec line 0) as [->|Hz].
  - rewrite mm_range_erase. cbn [existsb]. rewrite mm_insert_perm, elem_of_cons, mm_erase_elem, Hu. intuition.
  - rewrite covered_spec. case_bool_decide as D.
    + split; [intros He; right; intuition lia|]. intros [(_ & -> & [H0|H0])|[He _]]; [tauto | lia | done].
    + rewrite mm_insert_perm, elem_of_cons, Hu. intuition lia.
Qed.

Lemma add_wf f line d m ds : line_ok line -> wf m ds ->
  wf (add_map f line m) (if line =? -1 then set_insert d ds else ds).
Proof.
  intros Hl [H1 H2 H3 H4 H5]. split.
  - unfold add_map. destruct (line =? -1); [done|].
    assert (mm_sorted (if line =? 0 then mm_erase f m else m)) as Hm
      by (destruct (line =? 0); [now apply sorted_filter | done]).
    cbn. destruct (existsb _ _); [done | now apply mm_insert_sorted].
  - destruct (line =? -1); [now apply set_insert_sorted | done].
  - unfold add_map. destruct (Z.eqb_spec line (-1)); [done|].
    assert (uint line = line) as Hu by (unfold uint; destruct Hl; [lia | now apply Z.mod_small]).
    destruct (Z.eqb_spec line 0) as [->|Hz].
    + rewrite mm_range_erase. cbn [existsb]. rewrite mm_insert_perm. constructor.
      * rewrite mm_erase_elem. cbn. tauto.
      * now apply NoDup_List_filter.
    + rewrite covered_spec. case_bool_decide as D; [done|]. rewrite mm_insert_perm, Hu. constructor; [tauto | done].
  - intros e. rewrite add_map_elem by done. intros [(Hn & -> & _)|[He _]]; [|auto].
    cbn. destruct Hl; [lia | done].
  - intros g l. rewrite !add_map_elem by done. cbn.
    intros [(Hn & E & H)|[H Hk]] [(Hn' & E' & H')|[H' Hk']]; simplify_eq; try done.
    + tauto.
    + tauto.
    + now apply (H5 g).
Qed.

Lemma remove_map_elem f line m e : - 2 ^ 63 <= line < 2 ^ 63 -> (forall e, e ∈ m -> 0 <= e.2 < 2 ^ 32) ->
  e ∈ remove_map f line m <-> e ∈ m /\ ~ (e.1 = f /\ (line = 0 \/ e.2 = line)).
Proof.
  intros Hl Hm. unfold remove_map. destruct (Z.eqb_spec line 0) as [->|H0]; [rewrite mm_erase_elem; tauto|].
  destruct (Z.eqb_spec line (-1)) as [->|H1].
  - split; [|tauto]. intros He. split; [done|]. apply Hm in He. lia.
  - rewrite !list_elem_of_In, filter_In, <- !list_elem_of_In, negb_true_iff, andb_false_iff, same_key_spec, bool_decide_eq_false, Z.eqb_neq.
    split; intros [He Hk]; (split; [done|]); apply Hm in He.
    + intros [<- [?|<-]]; [lia|]. rewrite (Z.mod_small e.2) in Hk by lia. tauto.
    + destruct (decide (f = e.1)) as [->|]; [right|tauto]. intros E. apply Hk. split; [done|]. right.
      rewrite E. assert (line < 0 \/ 0 <= line) as [Hneg|Hpos] by lia; [|now apply Z.mod_small; lia].
      rewrite <- (Z.mod_add line 1) in E by lia. rewrite Z.mod_small in E by lia. lia.
Qed.

Lemma remove_wf f line d m ds : - 2 ^ 63 <= line < 2 ^ 63 -> wf m ds ->
  wf (remove_map f line m) (if line =? -1 then set_erase d ds else ds).
Proof.
  intros Hl [H1 H2 H3 H4 H5]. split.
  - unfold remove_map. repeat case_match; try done; now apply sorted_filter.
  - destruct (line =? -1); [now apply sorted_filter | done].
  - unfold remove_map. repeat case_match; try done; now apply NoDup_List_filter.
  - intros e. rewrite remove_map_elem by done. intros [He _]. auto.
  - intros g l. rewrite !remove_map_elem by done. intros [Hg _] [Hk _]. now apply (H5 g).
Qed.

(** ** Requests and rules *)

Inductive request : Type :=
| Add (file : bytes) (line : Z)
| Remove (file : bytes) (line : Z)
| Clear.

Definition perform (s : manager) (r : request) : manager :=
  match r with
  | Add f l => add_step_over (Some f) l s
  | Remove f l => remove_step_over (Some f) l s
  | Clear => remove_step_over None 0 s
  end.

Definition request_ok (r : request) : Prop :=
  match r with
  | Add _ l => line_ok l
  | Remove _ l => - 2 ^ 63 <= l < 2 ^ 63
  | Clear => True
  end.

(** A rule is a file with a line of it, with 0 for all of them, or a directory with -1. *)
Abbreviation rules := (gset (bytes * Z)).

Definition in_file (f : bytes) (e : bytes * Z) : bool := bool_decide (e.1 = f /\ e.2 <> -1).

Definition rule_step (R : rules) (r : request) : rules :=
  match r with
  | Add f l =>
      if decide (l = -1) then {[(dirname f, -1)]} ∪ R
      else if decide (l = 0) then {[(f, 0)]} ∪ filter (fun e => in_file f e = false) R
      else if decide ((f, 0) ∈ R) then R else {[(f, l)]} ∪ R
  | Remove f l => if decide (l = 0) then filter (fun e => in_file f e = false) R else R ∖ {[(f, l)]}
  | Clear => ∅
  end.

(** A function at a line of a file is covered by its line, its file or its directory. *)
Definition covers (R : rules) (f : bytes) (line : Z) : Prop :=
  (f, line) ∈ R \/ (f, 0) ∈ R \/ (dirname f, -1) ∈ R \/ (f, -1) ∈ R.

Definition rules_of (s : manager) : rules := list_to_set (enum_step_over s).

Lemma rules_of_elem s e : e ∈ rules_of s <-> e ∈ stepOverMap_ s \/ (e.2 = -1 /\ e.1 ∈ stepOverDirSet_ s).
Proof.
  unfold rules_of, enum_step_over. rewrite elem_of_list_to_set, elem_of_app, list_elem_of_fmap.
  destruct e as [f l]; cbn. split; (intros [H|H]; [now left | right]).
  - destruct H as (d & [= -> ->] & H). done.
  - destruct H as [-> H]. now exists f.
Qed.

(** What holds between two requests. *)
Record good (s : manager) : Prop := {
  good_wf : wf (stepOverMap_ s) (stepOverDirSet_ s);
  good_saved : saved s
}.

Lemma perform_good s r : request_ok r -> good s -> good (perform s r).
Proof.
  intros Hr [H1 H2]. destruct r as [f l|f l|]; cbn [perform request_ok] in *.
  - split; [|now apply add_saved]. destruct (add_frame f l s) as (-> & -> & _). now apply add_wf.
  - split; [|now apply remove_saved]. destruct (remove_frame f l s) as (-> & -> & _). now apply remove_wf.
  - split; [|now apply remove_saved]. unfold remove_step_over.
    destruct (update_frame (with_dirs [] (with_map [] s))) as (-> & -> & _).
    split; cbn; try constructor; intros; set_solver.
Qed.

Lemma perform_rules s r : request_ok r -> good s -> rules_of (perform s r) = rule_step (rules_of s) r.
Proof.
  intros Hr [[_ _ _ Hlines _] [Hread _]]. apply set_eq. intros [g k]. rewrite rules_of_elem.
  assert (forall f l, (f, l) ∈ stepOverMap_ s -> 0 <= l) as Hm by (intros f l H; apply Hlines in H; cbn in H; lia).
  destruct r as [f l|f l|]; cbn [perform request_ok rule_step fst snd] in *.
  - destruct (add_frame f l s) as (-> & -> & _). rewrite Hread, add_map_elem by done. cbn [fst snd].
    destruct (Z.eqb_spec l (-1)) as [->|]; [rewrite decide_True by done | rewrite decide_False by done].
    + rewrite set_insert_elem, elem_of_union, elem_of_singleton, rules_of_elem. cbn. intuition (subst; auto; congruence).
    + destruct (decide (l = 0)) as [->|].
      * rewrite elem_of_union, elem_of_singleton, elem_of_filter, rules_of_elem. unfold in_file. cbn.
        rewrite bool_decide_eq_false. pose proof (Hm g k). intuition (subst; auto; try congruence; try lia).
      * assert ((f, 0) ∈ rules_of s <-> (f, 0) ∈ stepOverMap_ s) as H0 by (rewrite rules_of_elem; cbn; intuition lia).
        case_decide as D; rewrite H0 in D; rewrite ?elem_of_union, ?elem_of_singleton, rules_of_elem; cbn;
          intuition (subst; auto; try congruence; try lia).
  - destruct (remove_frame f l s) as (-> & -> & _). rewrite remove_map_elem by done. cbn [fst snd].
    case_decide as D.
    + subst l. rewrite elem_of_filter, rules_of_elem. unfold in_file. cbn. rewrite bool_decide_eq_false.
      pose proof (Hm g k). intuition (subst; auto; try congruence; try lia).
    + rewrite elem_of_difference, elem_of_singleton, rules_of_elem, pair_equal_spec. cbn.
      destruct (Z.eqb_spec l (-1)) as [->|]; rewrite ?set_erase_elem; pose proof (Hm g k);
        intuition (subst; auto; try congruence; try lia).
  - unfold remove_step_over. destruct (update_frame (with_dirs [] (with_map [] s))) as (-> & -> & _). cbn. set_solver.
Qed.

Lemma query_file s f line : query_step_over (Some (Some f, line)) s =
  Some (bool_decide ((f, 0) ∈ stepOverMap_ s \/ (f, line) ∈ stepOverMap_ s)
        || (bool_decide (dirname f ∈ stepOverDirSet_ s) || bool_decide (f ∈ stepOverDirSet_ s))).
Proof.
  rewrite <- covered_spec, <- !set_count_spec. unfold query_step_over.
  destruct (stepOverMap_ s), (stepOverDirSet_ s); [done| | |]; (destruct (existsb _ _); [done|]); reflexivity.
Qed.

Lemma query_covers s f line : wf (stepOverMap_ s) (stepOverDirSet_ s) -> 0 <= line ->
  query_step_over (Some (Some f, line)) s = Some (bool_decide (covers (rules_of s) f line)).
Proof.
  intros [_ _ _ Hlines _] Hline.
  rewrite query_file. f_equal. apply Bool.eq_iff_eq_true.
  rewrite !orb_true_iff, !bool_decide_eq_true. unfold covers. rewrite !rules_of_elem. cbn.
  assert (forall g, (g, -1) ∈ stepOverMap_ s -> False) as Hm by (intros g H; apply Hlines in H; cbn in H; lia).
  pose proof (Hm f). pose proof (Hm (dirname f)). intuition lia.
Qed.

(** Properties that list no entries. *)
Definition clean (p : properties) : Prop := lists p [].

Lemma fresh_good p : clean p -> good (StepOverManager p).
Proof.
  intros H. split; [|split; [done | exact H]]. split; cbn; try constructor; intros; set_solver.
Qed.

Lemma run_good rs s : Forall request_ok rs -> good s -> good (fold_left perform rs s).
Proof.
  intros Hrs. revert s. induction Hrs as [|r rs Hr _ IH]; intros s H; cbn; [done|].
  apply IH. now apply perform_good.
Qed.

(** ** Restoring *)

(** A rule with the empty name, as the directory rule for a file in the root directory, is
    written to the properties but skipped when they are read. *)
Definition named (e : bytes * Z) : bool := negb (bool_decide (e.1 = [])).

(** A name is a C string. *)
Definition c_string (e : bytes * Z) : Prop := no_nul e.1 = true.

Definition readd (s : manager) (e : bytes * Z) : manager := add_step_over (Some e.1) e.2 s.

Lemma readd_reading s e : readingProperties_ s = true -> props (readd s e) = props s /\ readingProperties_ (readd s e) = true.
Proof.
  intros H. unfold readd, add_step_over. destruct (e.2 =? -1); [now rewrite update_reading|].
  destruct (e.2 =? 0); cbn; (destruct (existsb _ _); [done|]); now rewrite update_reading.
Qed.

Lemma restore_entry e n s : - 2 ^ 63 <= e.2 < 2 ^ 63 -> c_string e ->
  stringMap_ (props s) !! prop_name (Z.of_nat (S n)) = Some (prop_value e.1 e.2) ->
  restore_entries (S n) s = restore_entries n (if named e then readd s e else s).
Proof.
  intros Hl He Hs. cbn [restore_entries]. unfold get_string. rewrite Hs, strtol_value by done.
  destruct e as [path line]; cbn in He |- *. destruct path as [|c path]; [done|].
  cbn. cbn in He. apply andb_true_iff in He as [Hc Hp]. destruct (Ascii.eqb c NUL) eqn:Ec; [done|].
  rewrite cstr_of_no_nul; [done|]. cbn. now rewrite Ec.
Qed.

Lemma restore_list E s : readingProperties_ s = true ->
  (forall i, stringMap_ (props s) !! prop_name (Z.of_nat (S i)) = (fun e => prop_value e.1 e.2) <$> E !! i) ->
  Forall (fun e => c_string e /\ - 2 ^ 63 <= e.2 < 2 ^ 63) E ->
  restore_entries (length E) s = Ok (foldr (fun e s => readd s e) s (List.filter named E)).
Proof.
  intros Hr H HE. assert (forall i e, E !! i = Some e ->
    stringMap_ (props s) !! prop_name (Z.of_nat (S i)) = Some (prop_value e.1 e.2)) as Hs.
  { intros i e Hi. now rewrite H, Hi. }
  clear H. revert s Hr Hs. induction E as [|e E IH] using rev_ind; intros s Hr Hs; [done|].
  apply Forall_app in HE as [HE [[Hst Hl] _]%Forall_cons]. rewrite length_app, Nat.add_1_r.
  rewrite (restore_entry e) by (try done; apply Hs; now rewrite lookup_app_r, Nat.sub_diag by lia).
  rewrite List.filter_app, foldr_app. cbn [List.filter].
  assert (forall i e', E !! i = Some e' -> stringMap_ (props s) !! prop_name (Z.of_nat (S i)) = Some (prop_value e'.1 e'.2)) as Hs'.
  { intros i e' Hi. apply Hs. now apply lookup_app_l_Some. }
  destruct (named e); [|now apply IH]. destruct (readd_reading s e Hr) as [Hp Hr']. cbn [foldr]. apply IH; rewrite ?Hp; done.
Qed.

Lemma readd_frame e s : readingProperties_ s = true ->
  stepOverMap_ (readd s e) = add_map e.1 e.2 (stepOverMap_ s) /\
  stepOverDirSet_ (readd s e) = (if e.2 =? -1 then set_insert e.1 (stepOverDirSet_ s) else stepOverDirSet_ s) /\
  props (readd s e) = props s /\ readingProperties_ (readd s e) = true.
Proof.
  intros H. destruct (add_frame e.1 e.2 s) as (H1 & H2 & _). rewrite H in H2.
  destruct (readd_reading s e H). auto.
Qed.

(** The directories come back as they were. *)
Lemma readd_dirs ds s : readingProperties_ s = true -> stepOverDirSet_ s = [] -> set_sorted ds ->
  let s' := foldr (fun e s => readd s e) s (map (fun d => (d, -1)) ds) in
  stepOverMap_ s' = stepOverMap_ s /\ stepOverDirSet_ s' = ds /\ props s' = props s /\ readingProperties_ s' = true.
Proof.
  intros Hr Hd. induction ds as [|d ds IH]; cbn [map foldr]; intros Hs; [auto|].
  pose proof Hs as [Ht _]%StronglySorted_inv. destruct (IH Ht) as (H1 & H2 & H3 & H4).
  destruct (readd_frame (d, -1) _ H4) as (-> & -> & -> & ->).
  rewrite H1, H2, H3. cbn [fst snd]. change (-1 =? -1) with true. cbv iota. now rewrite set_insert_front.
Qed.

Lemma wf_tail e m ds : wf (e :: m) ds -> wf m ds.
Proof.
  intros [H1 H2 H3 H4 H5]. apply StronglySorted_inv in H1 as [H1 _]. apply NoDup_cons in H3 as [_ H3].
  split; [done | done | done | |].
  - intros x Hx. apply H4. now right.
  - intros f l Hf Hl. apply (H5 f); now right.
Qed.

(** The entry before well-formed ones is not covered by them, and covers none. *)
Lemma add_map_front e m m' ds : wf (e :: m) ds -> m' ≡ₚ m -> add_map e.1 e.2 m' = mm_insert e.1 e.2 m'.
Proof.
  intros [_ _ H3 H4 H5] Hp. destruct e as [f l]; cbn. pose proof (H4 (f, l) (list_elem_of_here _ _)) as Hl; cbn in Hl.
  apply NoDup_cons in H3 as [H3 _].
  unfold add_map. replace (l =? -1) with false by lia.
  assert (uint l = l) as -> by (now apply Z.mod_small).
  assert ((if l =? 0 then mm_erase f m' else m') = m') as E.
  { destruct (Z.eqb_spec l 0) as [->|]; [|done]. unfold mm_erase.
    apply forallb_filter_id, forallb_forall. intros [g k] Hin. cbn. rewrite same_key_spec, negb_true_iff, bool_decide_eq_false.
    intros <-. apply list_elem_of_In in Hin. rewrite Hp in Hin. apply H3.
    rewrite <- (H5 f k); [done | left | now right]. }
  cbn. rewrite E, covered_spec. case_bool_decide as D; [|done]. exfalso. rewrite Hp in D. apply H3.
  destruct D as [D|D]; [|done]. rewrite (H5 f l); [done | now right | left].
Qed.

Lemma readd_map m ds s : readingProperties_ s = true -> stepOverMap_ s = [] -> wf m ds ->
  let s' := foldr (fun e s => readd s e) s m in
  stepOverMap_ s' ≡ₚ m /\ mm_sorted (stepOverMap_ s') /\
  (forall f, mm_range f (stepOverMap_ s') = reverse (mm_range f m)) /\
  stepOverDirSet_ s' = stepOverDirSet_ s /\ props s' = props s /\ readingProperties_ s' = true.
Proof.
  intros Hr Hm. induction m as [|e m IH]; cbn [foldr]; intros Hwf.
  - rewrite Hm. repeat split; auto. constructor.
  - destruct (IH (wf_tail _ _ _ Hwf)) as (H1 & H2 & H3 & H4 & H5 & H6).
    destruct (readd_frame e _ H6) as (-> & -> & -> & ->).
    pose proof (wf_lines _ _ Hwf e (list_elem_of_here _ _)) as Hl. replace (e.2 =? -1) with false by lia.
    rewrite (add_map_front e m _ ds Hwf H1). repeat split; auto.
    + rewrite mm_insert_perm, H1. now destruct e.
    + now apply mm_insert_sorted.
    + intros f. rewrite mm_range_insert by done. unfold mm_range at 3. cbn [List.filter]. rewrite same_key_spec.
      case_bool_decide; [|apply H3]. rewrite reverse_cons, H3. now destruct e.
Qed.

Lemma wf_perm m m' ds : wf m ds -> m' ≡ₚ m -> mm_sorted m' -> wf m' ds.
Proof.
  intros [H1 H2 H3 H4 H5] Hp Hs. split; try done.
  - now rewrite Hp.
  - intros e. rewrite Hp. apply H4.
  - intros f l. rewrite Hp. apply H5.
Qed.

Lemma wf_named m ds : wf m ds ->
  wf (List.filter named m) (List.filter (fun d => negb (bool_decide (d = []))) ds).
Proof.
  intros [H1 H2 H3 H4 H5]. split.
  - now apply sorted_filter.
  - now apply sorted_filter.
  - now apply NoDup_List_filter.
  - intros e [He _]%list_elem_of_In%filter_In. apply H4. now apply list_elem_of_In.
  - intros f l [Hf _]%list_elem_of_In%filter_In [Hl _]%list_elem_of_In%filter_In. apply (H5 f); now apply list_elem_of_In.
Qed.

Lemma named_elem e m : e ∈ List.filter named m <-> e ∈ m /\ e.1 <> [].
Proof. rewrite list_elem_of_In, filter_In, <- list_elem_of_In. unfold named. rewrite negb_true_iff, bool_decide_eq_false. done. Qed.

Lemma named_dir d ds : d ∈ List.filter (fun d : bytes => negb (bool_decide (d = []))) ds <-> d ∈ ds /\ d <> [].
Proof. rewrite list_elem_of_In, filter_In, <- list_elem_of_In, negb_true_iff, bool_decide_eq_false. done. Qed.

Lemma mm_range_named f m : f <> [] -> mm_range f (List.filter named m) = mm_range f m.
Proof.
  intros Hf. induction m as [|[g l] m IH]; [done|]. unfold mm_range in *. cbn [List.filter fst]. rewrite same_key_spec.
  unfold named at 1. cbn [fst]. destruct (bool_decide_reflect (g = [])) as [->|]; cbn [negb List.filter fst].
  - rewrite bool_decide_false by done. exact IH.
  - rewrite same_key_spec. case_bool_decide; [now rewrite IH | exact IH].
Qed.

Lemma named_entries s : List.filter named (enum_step_over s)
  = List.filter named (stepOverMap_ s) ++ map (fun d => (d, -1)) (List.filter (fun d => negb (bool_decide (d = []))) (stepOverDirSet_ s)).
Proof.
  unfold enum_step_over. rewrite List.filter_app. f_equal. induction (stepOverDirSet_ s) as [|d ds IH]; [done|].
  cbn. unfold named at 1. cbn [fst]. destruct (negb _); cbn; now rewrite <- IH.
Qed.

(** Two managers with the same entries answer the same. *)
Lemma query_perm symbol s s' : stepOverMap_ s' ≡ₚ stepOverMap_ s -> stepOverDirSet_ s' = stepOverDirSet_ s ->
  query_step_over symbol s' = query_step_over symbol s.
Proof.
  intros Hp Hd. unfold query_step_over. rewrite Hd.
  assert (forall f line, existsb (fun e => (e.2 =? 0) || (e.2 =? line)) (mm_range f (stepOverMap_ s')) =
                         existsb (fun e => (e.2 =? 0) || (e.2 =? line)) (mm_range f (stepOverMap_ s))) as Hx.
  { intros f line. rewrite !covered_spec. apply bool_decide_ext. now rewrite Hp. }
  destruct symbol as [[[f|] line]|]; [rewrite Hx| |];
    destruct (stepOverMap_ s') as [|e' m'], (stepOverMap_ s) as [|e m]; try done;
    (try now apply Permutation_nil in Hp); symmetry in Hp; now apply Permutation_nil in Hp.
Qed.

(** The count and the properties up to it give the entries. *)
Definition heads (p : properties) (E : list (bytes * Z)) : Prop :=
  get_word (B "step_over") 0 p = Z.of_nat (length E) /\
  forall i, (i < length E)%nat -> stringMap_ p !! prop_name (Z.of_nat (S i)) = (fun e => prop_value e.1 e.2) <$> E !! i.

(** [s'] has the rules of [s] whose names are not empty, those of one file in reverse order,
    and answers as [s] does: about any file that has a name and is not in the root directory,
    and about anything if all the rules had names. *)
Record restored (s s' : manager) : Prop := {
  restored_rules : rules_of s' = filter (fun e => e.1 <> []) (rules_of s);
  restored_order : forall f, f <> [] -> mm_range f (stepOverMap_ s') = reverse (mm_range f (stepOverMap_ s));
  restored_query : forall f line, f <> [] -> dirname f <> [] ->
    query_step_over (Some (Some f, line)) s' = query_step_over (Some (Some f, line)) s;
  restored_all : (forall e, e ∈ rules_of s -> e.1 <> []) ->
    forall symbol, query_step_over symbol s' = query_step_over symbol s
}.

Lemma restored_intro s s' : stepOverMap_ s' ≡ₚ List.filter named (stepOverMap_ s) ->
  stepOverDirSet_ s' = List.filter (fun d => negb (bool_decide (d = []))) (stepOverDirSet_ s) ->
  (forall f, mm_range f (stepOverMap_ s') = reverse (mm_range f (List.filter named (stepOverMap_ s)))) -> restored s s'.
Proof.
  intros Hm Hd Hr. split.
  - apply set_eq. intros e. rewrite elem_of_filter, !rules_of_elem, Hm, Hd, named_elem, named_dir. tauto.
  - intros f Hf. now rewrite Hr, mm_range_named.
  - intros f line Hf Hdir. rewrite !query_file. f_equal. f_equal; [|f_equal]; apply bool_decide_ext;
      rewrite ?Hm, ?Hd, ?named_elem, ?named_dir; tauto.
  - intros Hall symbol. apply query_perm.
    + rewrite Hm. rewrite forallb_filter_id; [done|]. apply forallb_forall. intros e He%list_elem_of_In.
      unfold named. rewrite negb_true_iff, bool_decide_eq_false. apply Hall, rules_of_elem. now left.
    + rewrite Hd. apply forallb_filter_id, forallb_forall. intros d Hin%list_elem_of_In.
      rewrite negb_true_iff, bool_decide_eq_false. apply (Hall (d, -1)), rules_of_elem. now right.
Qed.

Lemma restore_good s p : wf (stepOverMap_ s) (stepOverDirSet_ s) -> lists p (enum_step_over s) ->
  Forall c_string (enum_step_over s) ->
  exists s', restore_from_properties (StepOverManager p) = Ok s' /\ restored s s' /\ heads (props s') (enum_step_over s') /\
    ((forall e, e ∈ rules_of s -> e.1 <> []) -> saved s').
Proof.
  intros Hwf [Hw Hs] Hst. pose proof (wf_named _ _ Hwf) as Hwf'.
  set (s1 := with_props (set_word (B "step_over") 0 p) (with_reading true (StepOverManager p))).
  destruct (readd_dirs _ s1 eq_refl eq_refl (wf_dirs _ _ Hwf')) as (D1 & D2 & D3 & D4).
  destruct (readd_map _ _ _ D4 D1 Hwf') as (M1 & M2 & M3 & M4 & M5 & M6).
  rewrite <- foldr_app, <- named_entries in *. set (s2 := foldr _ s1 (List.filter named (enum_step_over s))) in *.
  assert (restore_entries (length (enum_step_over s)) s1 = Ok s2) as E.
  { assert (Forall (fun e : bytes * Z => - 2 ^ 63 <= e.2 < 2 ^ 63) (enum_step_over s)) as Hl.
    { apply Forall_app. split; apply Forall_forall.
      - intros e He. apply (wf_lines _ _ Hwf) in He. lia.
      - intros e (d & -> & _)%list_elem_of_fmap. cbn. lia. }
    unfold s2. apply restore_list; [done | exact Hs|]. apply Forall_and. auto. }
  exists (with_reading false (sync s2)). destruct (sync_spec s2) as (S1 & S2 & S3 & S4 & S5).
  assert (enum_step_over (with_reading false (sync s2)) = enum_step_over s2) as Henum.
  { unfold enum_step_over. cbn [stepOverMap_ stepOverDirSet_ with_reading]. now rewrite S1, S2. }
  split; [|split; [|split]].
  - unfold restore_from_properties. cbn [readingProperties_ StepOverManager with_reading props].
    rewrite Hw, Nat2Z.id. change (with_props _ _) with s1. now rewrite E.
  - apply restored_intro; cbn [stepOverMap_ stepOverDirSet_ with_reading]; rewrite ?S1, ?S2, ?M4, ?D2; auto.
  - rewrite Henum. split; [exact S4|]. intros i Hi. cbn [props with_reading]. now rewrite S5, decide_True.
  - intros Hall. split; [done|]. rewrite Henum. split; [exact S4|]. intros i. cbn [props with_reading]. rewrite S5.
    assert (length (enum_step_over s2) = length (enum_step_over s)) as Hlen.
    { rewrite <- (forallb_filter_id named (enum_step_over s)) at 1.
      - rewrite named_entries. unfold enum_step_over. now rewrite M4, D2, !length_app, M1.
      - apply forallb_forall. intros e He%list_elem_of_In. unfold named. rewrite negb_true_iff, bool_decide_eq_false.
        apply Hall. unfold rules_of. now apply elem_of_list_to_set. }
    case_decide; [done|]. rewrite (lookup_ge_None_2 (enum_step_over s2)) by lia. rewrite M5, D3.
    change (stringMap_ (props s1)) with (stringMap_ p). rewrite Hs. now rewrite lookup_ge_None_2 by lia.
Qed.

(** C29: The step-over settings survive a restart. After any sequence of additions and
    removals, a new manager that reads the properties has the rules that have a name, those of
    one file in reverse order because the properties are read from the last one, and answers
    every question about a named file outside of the root directory as the old one did; its
    properties list its entries again. If every rule has a name it has all of the rules and
    answers every question as the old one did. The rules without a name are the directory
    rule that was added for a file in the root directory and rules for an empty file name;
    they are lost ([root_directory_lost]). Names are C strings. *)
Theorem step_over_restored p rs : clean p -> Forall request_ok rs ->
  let s := fold_left perform rs (StepOverManager p) in
  Forall c_string (enum_step_over s) ->
  exists s', restore_from_properties (StepOverManager (props s)) = Ok s' /\
    restored s s' /\ heads (props s') (enum_step_over s') /\
    ((forall e, e ∈ rules_of s -> e.1 <> []) -> saved s').
Proof.
  intros Hp Hrs s Hst. assert (good s) as Hg by now apply run_good, fresh_good.
  exact (restore_good s (props s) (good_wf _ Hg) (proj2 (good_saved _ Hg)) Hst).
Qed.

(** C8: The manager keeps exactly the rules that were asked for: its entries are the rules
    of the sequence of requests, the properties list them, and a function is stepped over
    when its line, its file or its directory is among the rules. *)
Theorem step_over_rules p rs f line : clean p -> Forall request_ok rs -> 0 <= line ->
  let s := fold_left perform rs (StepOverManager p) in
  let R := fold_left rule_step rs ∅ in
  rules_of s = R /\ saved s /\
  query_step_over (Some (Some f, line)) s = Some (bool_decide (covers R f line)).
Proof.
  intros Hp Hrs Hl s R. assert (good s) as Hg by now apply run_good, fresh_good.
  assert (rules_of s = R) as E.
  { unfold s, R. clear s R Hg. change (∅ : rules) with (rules_of (StepOverManager p)).
    assert (good (StepOverManager p)) as Hg by now apply fresh_good. revert Hg.
    generalize (StepOverManager p). clear Hp p.
    induction Hrs as [|r rs Hr _ IH]; intros s Hg; cbn [fold_left]; [done|].
    rewrite IH by now apply perform_good. now rewrite perform_rules. }
  split; [done|]. split; [apply Hg|]. rewrite query_covers by (done || apply Hg). now rewrite E.
Qed.

(** ** Examples *)

Definition some_requests : list request :=
  [ Add (B "/usr/include/vector") 12; Add (B "/usr/include/vector") 7;
    Add (B "/usr/include/boost/ref.hpp") (-1); Add (B "/usr/include/map") 30;
    Add (B "/usr/include/map") 0; Remove (B "/usr/include/list") 3 ].

Lemma clean_no_properties : clean no_properties.
Proof. split; reflexivity. Qed.

Lemma some_requests_ok : Forall request_ok some_requests.
Proof. repeat constructor; cbn; unfold line_ok; lia. Qed.

Lemma some_requests_c_strings :
  Forall c_string (enum_step_over (fold_left perform some_requests (StepOverManager no_properties))).
Proof. apply Forall_forall. intros e He%list_elem_of_In. revert e He. apply forallb_forall. vm_compute. reflexivity. Qed.

Lemma step_over_restored_witness :
  exists s', restore_from_properties (StepOverManager (props (fold_left perform some_requests (StepOverManager no_properties)))) = Ok s' /\
    query_step_over (Some (Some (B "/usr/include/map"), 4)) s' = Some true.
Proof.
  destruct (step_over_restored no_properties some_requests clean_no_properties some_requests_ok some_requests_c_strings)
    as (s' & E & Hr & _).
  exists s'. split; [exact E|]. rewrite (restored_query _ _ Hr) by (vm_compute; discriminate). vm_compute. reflexivity.
Defined.

Example some_requests_restored :
  match restore_from_properties (StepOverManager (props (fold_left perform some_requests (StepOverManager no_properties)))) with
  | Ok s' => enum_step_over s'
  | Fail _ => []
  end = [ (B "/usr/include/map", 0); (B "/usr/include/vector", 7); (B "/usr/include/vector", 12);
          (B "/usr/include/boost", -1) ].
Proof. vm_compute. reflexivity. Qed.

Lemma step_over_rules_witness :
  query_step_over (Some (Some (B "/usr/include/boost/bind.hpp"), 90))
    (fold_left perform some_requests (StepOverManager no_properties)) = Some true.
Proof.
  destruct (step_over_rules no_properties some_requests (B "/usr/include/boost/bind.hpp") 90
              clean_no_properties some_requests_ok ltac:(lia)) as (_ & _ & E).
  rewrite E. vm_compute. reflexivity.
Defined.

(** A directory rule for a file in the root directory has the empty name, which is skipped
    when the properties are read. *)
Example root_directory_lost :
  let s := add_step_over (Some (B "/main.c")) (-1) (StepOverManager no_properties) in
  query_step_over (Some (Some (B "/util.c"), 5)) s = Some true /\
  match restore_from_properties (StepOverManager (props s)) with
  | Ok s' => query_step_over (Some (Some (B "/util.c"), 5)) s'
  | Fail _ => None
  end = Some false.
Proof. vm_compute. split; reflexivity. Qed.

(** A count that is larger than the number of the strings makes the reader look behind the
    end of an empty string. *)
Example missing_property_overruns :
  restore_from_properties (StepOverManager (set_word (B "step_over") 1 no_properties)) = Fail OutOfBounds.
Proof. vm_compute. reflexivity. Qed.

(** A line number that is a multiple of 2^32 is stored as the whole file. *)
Example wide_line_is_file :
  query_step_over (Some (Some (B "a.c"), 5)) (add_step_over (Some (B "a.c")) (2 ^ 32) (StepOverManager no_properties)) = Some true.
Proof. vm_compute. reflexivity. Qed.

(** Removing a directory takes its name, adding one the name of a file in it. *)
Example remove_is_not_inverse :
  enum_step_over (remove_step_over (Some (B "/src/a.c")) (-1) (add_step_over (Some (B "/src/a.c")) (-1) (StepOverManager no_properties)))
  = [(B "/src", -1)].
Proof. vm_compute. reflexivity. Qed.
