(* ===== verification/ReadLine.v ===== *)
(** * The line editor of the console ([readline/read_line.cpp], [readline/terminal.cpp])

    The terminal is read key by key; each key changes the buffer, the position in it, the
    entry of the history that is shown or the list of completions, and sends text and cursor
    movements to the terminal. What the terminal delivers is an input of the model; its width
    and the function that suggests completions are arguments. *)
From S2P Require Import Prelude CLib DString DReal LongFloat FloatArith Variant SharedString StepOver.
From stdpp Require Import base list.
Local Open Scope Z_scope.

(** ** Terminal output *)

(** [Put]: text, with the control characters for the start of the line and the next line. *)
Inductive tcmd : Type :=
| Put (s : bytes)
| CursorLeft (n : Z)
| CursorRight (n : Z)
| CursorUp (n : Z)
| CursorDown (n : Z)
| SaveCursor
| RestoreCursor
| ClearEol.

Definition ESC : ascii := "027"%char.
Definition CR : ascii := "013"%char.
Definition LF : ascii := "010"%char.

(** The escape sequences; the counts are printed as [int]. *)
Definition escape (c : tcmd) : bytes :=
  let count n := print_Z (to_signed 32 n) in
  match c with
  | Put s => s
  | CursorLeft n => ESC :: B "[" ++ count n ++ B "D"
  | CursorRight n => ESC :: B "[" ++ count n ++ B "C"
  | CursorUp n => ESC :: B "[" ++ count n ++ B "A"
  | CursorDown n => ESC :: B "[" ++ count n ++ B "B"
  | SaveCursor => ESC :: B "7"
  | RestoreCursor => ESC :: B "8"
  | ClearEol => ESC :: B "[K"
  end.

Definition term_move_cursor_left (n : Z) : list tcmd := if n =? 0 then [] else [CursorLeft n].
Definition term_move_cursor_right (n : Z) : list tcmd := if n =? 0 then [] else [CursorRight n].
Definition term_move_cursor_up (n : Z) : list tcmd := if n =? 0 then [] else [CursorUp n].
Definition term_move_cursor_down (n : Z) : list tcmd := if n =? 0 then [] else [CursorDown n].

(** [screen_width]: [None] is a failure of [ioctl], else the number of columns. *)
Definition screen_width (ws_col : option Z) : Z :=
  match ws_col with
  | None => 2 ^ 32 - 1
  | Some n => if n =? 0 then 78 else n
  end.

(** ** Terminal input *)

(** What [read] finds: bytes that are there, the end of the input (for ever), an
    interruption, or an error. *)
Inductive event : Type :=
| Bytes (s : bytes)
| Hangup
| Interrupted
| IOError.

Inductive step (A : Type) : Type :=
| Done (a : A)
| Blocked       (* waits for input *)
| Thrown        (* [SystemError] *)
| Running       (* the bound of the model is reached *)
| Crash (e : fault).
Arguments Done {A} a.
Arguments Blocked {A}.
Arguments Thrown {A}.
Arguments Running {A}.
Arguments Crash {A} e.

Definition sbind {A C : Type} (m : step A) (k : A -> step C) : step C :=
  match m with
  | Done a => k a
  | Blocked => Blocked
  | Thrown => Thrown
  | Running => Running
  | Crash e => Crash e
  end.
Notation "'let+' ' p ':=' m 'in' k" := (sbind m (fun p => k))
  (at level 10, p pattern, m at level 100, k at level 200).

(** [while ((n = read(file, buf, count)) < 0)] with its retry; no bytes are the end. *)
Fixpoint sys_read (count : nat) (i : list event) : step (bytes * list event) :=
  match i with
  | [] => Blocked
  | Bytes [] :: i' => sys_read count i'
  | Bytes s :: i' =>
      let r := skipn count s in
      Done (firstn count s, match r with [] => i' | _ => Bytes r :: i' end)
  | Hangup :: _ => Done ([], i)
  | Interrupted :: i' => sys_read count i'
  | IOError :: _ => Thrown
  end.

(** The little-endian number that the bytes are. *)
Fixpoint le_value (s : bytes) : Z :=
  match s with [] => 0 | c :: s => code c + 256 * le_value s end.

Definition KEY_EOF : Z := -1.

Definition readkey (i : list event) : step (Z * list event) :=
  let+ '(s, i) := sys_read 1 i in
  match s with
  | [] => Done (KEY_EOF, i)
  | c :: _ =>
      if Ascii.eqb c ESC then
        let+ '(s, i) := sys_read 4 i in Done (to_signed 32 (le_value s), i)
      else Done (schar c, i)
  end.

Definition KEY_BACKDEL : Z := 0x08.
Definition KEY_TAB : Z := 0x09.
Definition KEY_ENTER : Z := 0x0A.
Definition KEY_BACKSPACE : Z := 0x7F.
Definition KEY_UP : Z := 0x415B.
Definition KEY_DOWN : Z := 0x425B.
Definition KEY_RIGHT : Z := 0x435B.
Definition KEY_LEFT : Z := 0x445B.
Definition KEY_HOME1 : Z := 0x485B.
Definition KEY_HOME2 : Z := 0x484F.
Definition KEY_END1 : Z := 0x465B.
Definition KEY_END2 : Z := 0x464F.
Definition KEY_HOME : Z := 0x7E315B.
Definition KEY_DELETE : Z := 0x7E335B.
Definition KEY_END : Z := 0x7E345B.

(** ** The editor *)

Record editor : Type := mk_editor {
  pos_ : nat;
  autoCompleteChar_ : Z;
  autoCompleteFunc_ : option (bytes -> bytes -> list bytes);   (* of the word and the line *)
  prompt_ : bytes;
  buffer_ : bytes;
  history_ : list bytes;
  matches_ : list bytes;
  fout_ : list tcmd
}.

Definition ReadLine : editor := mk_editor 0 KEY_TAB None [] [] [] [] [].

Definition edit (pos : nat) (buf : bytes) (s : editor) : editor :=
  mk_editor pos (autoCompleteChar_ s) (autoCompleteFunc_ s) (prompt_ s) buf (history_ s) (matches_ s) (fout_ s).
Definition with_matches (m : list bytes) (s : editor) : editor :=
  mk_editor (pos_ s) (autoCompleteChar_ s) (autoCompleteFunc_ s) (prompt_ s) (buffer_ s) (history_ s) m (fout_ s).
Definition with_history (h : list bytes) (s : editor) : editor :=
  mk_editor (pos_ s) (autoCompleteChar_ s) (autoCompleteFunc_ s) (prompt_ s) (buffer_ s) h (matches_ s) (fout_ s).
Definition emit (l : list tcmd) (s : editor) : editor :=
  mk_editor (pos_ s) (autoCompleteChar_ s) (autoCompleteFunc_ s) (prompt_ s) (buffer_ s) (history_ s) (matches_ s) (fout_ s ++ l).

Definition set_auto_complete_func f (s : editor) : editor :=
  mk_editor (pos_ s) (autoCompleteChar_ s) f (prompt_ s) (buffer_ s) (history_ s) (matches_ s) (fout_ s).
Definition set_auto_complete_char c (s : editor) : editor :=
  mk_editor (pos_ s) c (autoCompleteFunc_ s) (prompt_ s) (buffer_ s) (history_ s) (matches_ s) (fout_ s).
Definition set_prompt p (s : editor) : editor :=
  mk_editor (pos_ s) (autoCompleteChar_ s) (autoCompleteFunc_ s) p (buffer_ s) (history_ s) (matches_ s) (fout_ s).

Definition add_history_entry (entry : bytes) (s : editor) : editor := with_history (history_ s ++ [entry]) s.
(** [None]: the assertion that the iterator is not the end. *)
Definition remove_history_entry (i : nat) (s : editor) : option editor :=
  if (i <? length (history_ s))%nat then Some (with_history (firstn i (history_ s) ++ skipn (S i) (history_ s)) s)
  else None.
Definition clear_history (s : editor) : editor := with_history [] s.

Definition size_Z (s : bytes) : Z := Z.of_nat (length s).

Section Width.

(** The width of the terminal. *)
Variable w : Z.

Definition move_cursor_left (s : editor) : editor :=
  if (0 <? pos_ s)%nat then
    let s := edit (pos_ s - 1) (buffer_ s) s in
    if negb ((Z.of_nat (pos_ s) + 1 + size_Z (prompt_ s)) mod w =? 0)
    then emit (term_move_cursor_left 1) s
    else emit (term_move_cursor_up 1 ++ term_move_cursor_right (w - 1)) s
  else s.

Definition move_cursor_right (s : editor) : editor :=
  if (pos_ s <? length (buffer_ s))%nat then
    let s := edit (pos_ s + 1) (buffer_ s) s in
    if negb ((Z.of_nat (pos_ s) + size_Z (prompt_ s)) mod w =? 0)
    then emit (term_move_cursor_right 1) s
    else emit (term_move_cursor_down 1 ++ term_move_cursor_left (w - 1)) s
  else s.

Definition move_cursor_home (s : editor) : editor :=
  let s := emit (term_move_cursor_up (Z.of_nat (pos_ s) / w)) s in
  let s := emit [Put (CR :: cstr_of (prompt_ s))] s in
  edit 0 (buffer_ s) s.

Definition move_cursor_to_end (s : editor) : editor :=
  let s := emit [Put (cstr_of (skipn (pos_ s) (buffer_ s)))] s in
  edit (length (buffer_ s)) (buffer_ s) s.

(** [reset_current_line] *)
Definition reset_current_line (newText : bytes) : list tcmd := [Put (CR :: cstr_of newText); ClearEol].

(** Iterators of the history are positions, the end is its length. *)
Definition show_entry (it : nat) (s : editor) : editor :=
  let s := edit (pos_ s) (nth it (history_ s) []) s in
  let s := emit (reset_current_line (prompt_ s ++ buffer_ s)) s in
  edit (length (buffer_ s)) (buffer_ s) s.

Definition show_prev_history_entry (it : nat) (s : editor) : nat * editor :=
  if (it =? 0)%nat then (it, s) else (it - 1, show_entry (it - 1) s)%nat.

Definition show_next_history_entry (it : nat) (s : editor) : nat * editor :=
  let n := length (history_ s) in
  if (negb (it =? n) && negb (it + 1 =? n))%nat%bool then (it + 1, show_entry (it + 1) s)%nat else (it, s).

(** [buffer_.erase(buffer_.begin() + i)] *)
Definition erase_at (i : nat) (b : bytes) : bytes := firstn i b ++ skipn (S i) b.

Definition delete_current_char (s : editor) : editor :=
  if (pos_ s <? length (buffer_ s))%nat then
    let s := with_matches [] (edit (pos_ s) (erase_at (pos_ s) (buffer_ s)) s) in
    let s := emit [SaveCursor; Put (cstr_of (skipn (pos_ s) (buffer_ s))); ClearEol] s in
    let s := if (size_Z (buffer_ s) + size_Z (prompt_ s)) mod w =? 0 then emit [Put [LF]; ClearEol] s else s in
    emit [RestoreCursor] s
  else s.

Definition delete_prev_char (s : editor) : editor :=
  if (0 <? pos_ s)%nat then
    let s := with_matches [] (edit (pos_ s - 1) (erase_at (pos_ s - 1) (buffer_ s)) s) in
    let s :=
      if negb (pos_ s =? 0)%nat && ((Z.of_nat (pos_ s) + 1 + size_Z (prompt_ s)) mod w =? 0)
      then emit (term_move_cursor_up 1 ++ term_move_cursor_right (w - 1) ++ [SaveCursor]) s
      else emit (term_move_cursor_left 1 ++ [SaveCursor]) s in
    let s := emit [Put (cstr_of (skipn (pos_ s) (buffer_ s))); ClearEol] s in
    let s := if (size_Z (buffer_ s) + size_Z (prompt_ s)) mod w =? 0 then emit [Put [LF]; ClearEol] s else s in
    emit [RestoreCursor] s
  else s.

Definition insert_char (ch : Z) (s : editor) : editor :=
  let c := char_of_int ch in
  if (pos_ s <? length (buffer_ s))%nat then
    let s := with_matches [] (edit (pos_ s) (firstn (pos_ s) (buffer_ s) ++ c :: skipn (pos_ s) (buffer_ s)) s) in
    let s := emit [SaveCursor; Put (cstr_of (skipn (pos_ s) (buffer_ s)))] s in
    let s := edit (pos_ s + 1) (buffer_ s) s in
    let s := emit [RestoreCursor] s in
    if negb ((Z.of_nat (pos_ s) + size_Z (prompt_ s)) mod w =? 0)
    then emit (term_move_cursor_right 1) s
    else emit (term_move_cursor_down 1 ++ term_move_cursor_left (w - 1)) s
  else
    edit (pos_ s + 1) (buffer_ s ++ [c]) (emit [Put [c]] s).

(** ** Completion *)

(** [tokens_match] *)
Definition tokens_match (token entry : bytes) : bool :=
  if (length entry <? length token)%nat then false
  else strcmp (firstn (length token) entry) token =? 0.

(** [set::lower_bound(text)] to the end. *)
Fixpoint lower_bound (text : bytes) (set : list bytes) : list bytes :=
  match set with
  | [] => []
  | e :: set' => if less e text then lower_bound text set' else set
  end.

Fixpoint take_while (p : bytes -> bool) (l : list bytes) : list bytes :=
  match l with
  | [] => []
  | e :: l' => if p e then e :: take_while p l' else []
  end.

(** [find_matches]: the range from the first iterator to the second. *)
Definition find_matches (set : list bytes) (text : bytes) : list bytes :=
  take_while (tokens_match text) (lower_bound text set).

(** The inner loop of [longest_match]: the first word after the first one whose character
    [n] is another one, up to there. *)
Fixpoint differs_at (n : nat) (c : ascii) (l : list bytes) : res bytes :=
  match l with
  | [] => Ok []
  | e :: l' => let* d := rd_at e n in if Ascii.eqb d c then differs_at n c l' else Ok (firstn n e)
  end.

(** The outer loop, which goes on as long as the result is empty. *)
Fixpoint longest_from (fuel n : nat) (first : bytes) (l : list bytes) : res bytes :=
  match fuel with
  | O => Fail OutOfFuel
  | S fuel =>
      let* c := rd_at first n in
      let* s := differs_at n c l in
      match s with [] => longest_from fuel (S n) first l | _ => Ok s end
  end.

(** It ends, or reads outside of the first word, before [n] is behind its terminator. *)
Definition longest_match (matches : list bytes) : res bytes :=
  match matches with
  | [] => Ok []
  | first :: l => longest_from (length first + 2) 0 first l
  end.

(** [display_strings] *)
Definition widest (l : list bytes) : Z := fold_left (fun m s => if m <? size_Z s then size_Z s else m) l 0.

Fixpoint display_from (j : Z) (columns cwidth : Z) (l : list bytes) : list tcmd :=
  match l with
  | [] => [Put [LF]]
  | s :: l =>
      (if j mod columns =? 0 then [Put [LF]] else []) ++
      Put (cstr_of s ++ repeat " "%char (Z.to_nat (cwidth - size_Z s))) :: display_from (j + 1) columns cwidth l
  end.

Definition display_strings (l : list bytes) : list tcmd :=
  let cwidth := widest l + 1 in
  let columns := w / cwidth in
  display_from 0 (if columns =? 0 then 78 else columns) cwidth l.

Definition kMaxDisplayEntries : nat := 100.

(** The question whether all of them should be shown. *)
Fixpoint ask (fuel : nat) (i : list event) : step (bool * list event) :=
  match fuel with
  | O => Running
  | S fuel =>
      let+ '(key, i) := readkey i in
      if (key =? 121) || (key =? 89) then Done (true, i)
      else if (key =? 110) || (key =? 78) then Done (false, i)
      else ask fuel i
  end.

(** [buffer_.replace(pos, n, t)] *)
Definition replace (pos n : nat) (t b : bytes) : bytes := firstn pos b ++ t ++ skipn (pos + n) b.

Definition of_res {A : Type} (r : res A) : step A := match r with Ok a => Done a | Fail e => Crash e end.

(** [set<string> tmp(l.begin(), l.end())] *)
Definition string_set (l : list bytes) : list bytes := fold_left (fun m s => set_insert s m) l [].

Definition complete_word (fuel : nat) (word : bytes) (pos : nat) (s : editor) (i : list event)
  : step (bool * bytes * editor * list event) :=
  match autoCompleteFunc_ s with
  | None => Done (false, word, s, i)
  | Some f =>
      let s := match matches_ s with [] => with_matches (f word (buffer_ s)) s | _ => s end in
      let s := with_matches (find_matches (string_set (matches_ s)) word) s in
      match matches_ s with
      | [] => Done (false, word, s, i)
      | [m] => Done (true, m, with_matches [] s, i)
      | front :: _ =>
          let many := (kMaxDisplayEntries <? length (matches_ s))%nat in
          let s :=
            if many then
              emit [Put (LF :: B "There are " ++ print_Z (Z.of_nat (length (matches_ s)))
                         ++ B " possibilities. Display all? (y/n)")] s
            else s in
          let+ '(showEntries, i) := (if many then ask fuel i else Done (true, i)) in
          let s := if showEntries : bool then emit (display_strings (matches_ s)) s else s in
          let+ '(word, s) :=
            (if (length word <? length front)%nat then
               let+ 'common := of_res (longest_match (matches_ s)) in
               let b := replace pos (length word) common (buffer_ s) in
               Done (common, edit (length b) b s)
             else Done (word, s)) in
          let s := emit [Put (LF :: cstr_of (prompt_ s) ++ cstr_of (buffer_ s))] s in
          Done (false, word, s, i)
      end
  end.

(** Where the last word begins: behind the last space. *)
Definition word_begin (b : bytes) : nat :=
  match before_last " "%char b with Some t => S (length t) | None => 0%nat end.

Definition handle_auto_complete (fuel : nat) (s : editor) (i : list event) : step (editor * list event) :=
  let beg := word_begin (buffer_ s) in
  let end_ := length (buffer_ s) in
  let matchWord := skipn beg (buffer_ s) in
  let+ '(found, matchWord, s, i) := complete_word fuel matchWord beg s i in
  if found : bool then
    let b := replace beg (end_ - beg) matchWord (buffer_ s) in
    let s := edit (length b) b s in
    Done (emit [Put (CR :: cstr_of (prompt_ s) ++ cstr_of (buffer_ s))] s, i)
  else Done (s, i).

(** ** The loop *)

(** In the C locale. *)
Definition isprint (ch : Z) : bool := (32 <=? ch) && (ch <=? 126).

(** One key other than [KEY_ENTER], with the iterator of the history. *)
Definition handle_key (fuel : nat) (ch : Z) (hist : nat) (s : editor) (i : list event)
  : step (nat * editor * list event) :=
  if ch =? KEY_UP then let '(h, s) := show_prev_history_entry hist s in Done (h, s, i)
  else if ch =? KEY_DOWN then let '(h, s) := show_next_history_entry hist s in Done (h, s, i)
  else if ch =? KEY_LEFT then Done (hist, move_cursor_left s, i)
  else if ch =? KEY_RIGHT then Done (hist, move_cursor_right s, i)
  else if ch =? KEY_DELETE then Done (hist, delete_current_char s, i)
  else if (ch =? KEY_BACKDEL) || (ch =? KEY_BACKSPACE) then Done (hist, delete_prev_char s, i)
  else if (ch =? KEY_HOME) || (ch =? KEY_HOME1) || (ch =? KEY_HOME2) then Done (hist, move_cursor_home s, i)
  else if (ch =? KEY_END) || (ch =? KEY_END1) || (ch =? KEY_END2) then Done (hist, move_cursor_to_end s, i)
  else if ch =? autoCompleteChar_ s then
    let+ '(s, i) := handle_auto_complete fuel s i in Done (hist, s, i)
  else
    let s := if (ch <? 256) && isprint ch then insert_char ch s else s in
    Done (length (history_ s), s, i).

Fixpoint read_loop (fuel : nat) (hist : nat) (s : editor) (i : list event) : step (bytes * editor * list event) :=
  match fuel with
  | O => Running
  | S fuel =>
      let+ '(ch, i) := readkey i in
      if ch =? KEY_ENTER then Done (buffer_ s, emit [Put [LF]] s, i)
      else let+ '(hist, s, i) := handle_key fuel ch hist s i in read_loop fuel hist s i
  end.

(** [read(resultLine)]; it has no other result than [true] with the line. *)
Definition read (fuel : nat) (s : editor) (i : list event) : step (bytes * editor * list event) :=
  let s := with_matches [] (edit 0 [] s) in
  let s := emit [Put (cstr_of (prompt_ s))] s in
  read_loop fuel (length (history_ s)) s i.

End Width.
