(* ===== verification/ReadLineCorrect.v ===== *)
(** * What the line editor does

    The buffer with its position refines a text in two parts, before and behind the cursor;
    completion replaces the last word by the longest common beginning of the words that
    begin with it. *)
From S2P Require Import Prelude CLib DString DReal LongFloat FloatArith Variant.
From S2P Require Import SharedString SharedStringCorrect StepOver StepOverCorrect ReadLine.
From Stdlib Require Import Sorting.Sorted.
From stdpp Require Import base list.
Local Open Scope Z_scope.

(** ** Keys as the terminal sends them *)

Fixpoint le_bytes (fuel : nat) (k : Z) : bytes :=
  match fuel with
  | O => []
  | S fuel => if k =? 0 then [] else char_of_int k :: le_bytes fuel (k / 256)
  end.

(** A character, or an escape sequence in one piece. *)
Definition typed (k : Z) : event :=
  if k <? 128 then Bytes [char_of_int k] else Bytes (ESC :: le_bytes 4 k).

Definition is_key (k : Z) : Prop := 0 <= k < 2 ^ 31 /\ k <> 27.

Lemma code_char_of_int k : code (char_of_int k) = k mod 256.
Proof.
  unfold code, char_of_int. assert (0 <= k mod 256 < 256) by (apply Z.mod_pos_bound; lia).
  rewrite N_ascii_embedding by lia. lia.
Qed.

Lemma le_value_bytes fuel k : 0 <= k < 256 ^ Z.of_nat fuel -> le_value (le_bytes fuel k) = k.
Proof.
  revert k. induction fuel as [|fuel IH]; intros k Hk; cbn [le_bytes].
  - cbn in *. lia.
  - destruct (Z.eqb_spec k 0) as [->|]; [done|]. cbn [le_value]. rewrite code_char_of_int, IH.
    + pose proof (Z.div_mod k 256). lia.
    + rewrite Nat2Z.inj_succ, Z.pow_succ_r in Hk by lia. split; [apply Z.div_pos; lia|].
      apply Z.div_lt_upper_bound; lia.
Qed.

Lemma length_le_bytes fuel k : (length (le_bytes fuel k) <= fuel)%nat.
Proof. revert k. induction fuel as [|fuel IH]; intros k; cbn; [lia|]. case_match; cbn; [lia|]. specialize (IH (k / 256)). lia. Qed.

Lemma readkey_typed k i : is_key k -> readkey (typed k :: i) = Done (k, i).
Proof.
  intros [Hk H27]. unfold typed. destruct (Z.ltb_spec k 128).
  - unfold readkey. cbn. replace (Ascii.eqb (char_of_int k) ESC) with false.
    + unfold schar. rewrite code_char_of_int, Z.mod_small by lia. now replace (k <? 128) with true by lia.
    + symmetry. apply Ascii.eqb_neq. intros E. apply H27. apply (f_equal code) in E.
      rewrite code_char_of_int, Z.mod_small in E by lia. exact E.
  - unfold readkey. cbn [sys_read firstn skipn sbind].
    pose proof (length_le_bytes 4 k). pose proof (le_value_bytes 4 k ltac:(cbn; lia)) as Hv.
    destruct (le_bytes 4 k) as [|c s] eqn:E; [cbn in Hv; lia|]. change (Ascii.eqb ESC ESC) with true.
    rewrite skipn_O. cbn [sbind sys_read]. rewrite firstn_all2 by done. rewrite skipn_all2 by done. cbn [sbind].
    rewrite Hv. f_equal. f_equal. unfold to_signed. rewrite Z.mod_small by lia. lia.
Qed.

(** ** The text around the cursor *)

(** The history entry that is shown, the text before the cursor and the text behind it. *)
Abbreviation zip := (nat * bytes * bytes)%type.

Definition zip_text (z : zip) : bytes := z.1.2 ++ z.2.

(** What a key does. [acc] is the completion key, without a function for it. *)
Definition zip_step (history : list bytes) (acc : Z) (z : zip) (ch : Z) : zip :=
  let '(h, l, r) := z in
  if ch =? KEY_UP then match h with O => z | S h => (h, nth h history [], []) end
  else if ch =? KEY_DOWN then
    if (S h <? length history)%nat then (S h, nth (S h) history [], []) else z
  else if ch =? KEY_LEFT then
    match rev l with [] => z | c :: l' => (h, rev l', c :: r) end
  else if ch =? KEY_RIGHT then
    match r with [] => z | c :: r => (h, l ++ [c], r) end
  else if ch =? KEY_DELETE then (h, l, tl r)
  else if (ch =? KEY_BACKDEL) || (ch =? KEY_BACKSPACE) then (h, removelast l, r)
  else if (ch =? KEY_HOME) || (ch =? KEY_HOME1) || (ch =? KEY_HOME2) then (h, [], l ++ r)
  else if (ch =? KEY_END) || (ch =? KEY_END1) || (ch =? KEY_END2) then (h, l ++ r, [])
  else if ch =? acc then z
  else (length history, if isprint ch then l ++ [char_of_int ch] else l, r).

(** The state of the editor at a view of it. *)
Record shows (z : zip) (hist : nat) (s : editor) : Prop := {
  shows_hist : hist = z.1.1;
  shows_before : firstn (pos_ s) (buffer_ s) = z.1.2;
  shows_behind : skipn (pos_ s) (buffer_ s) = z.2;
  shows_pos : (pos_ s <= length (buffer_ s))%nat;
  shows_range : (hist <= length (history_ s))%nat
}.

(** What no key changes. *)
Record same_setup (s s' : editor) : Prop := {
  same_history : history_ s' = history_ s;
  same_prompt : prompt_ s' = prompt_ s;
  same_func : autoCompleteFunc_ s' = autoCompleteFunc_ s;
  same_char : autoCompleteChar_ s' = autoCompleteChar_ s
}.

Lemma same_setup_refl s : same_setup s s.
Proof. now split. Qed.

Lemma same_setup_trans s t u : same_setup s t -> same_setup t u -> same_setup s u.
Proof. intros [] []. split; congruence. Qed.

(** A state with the buffer [l ++ r] and the position behind [l]. *)
Lemma shows_intro h l r s : pos_ s = length l -> buffer_ s = l ++ r -> (h <= length (history_ s))%nat -> shows (h, l, r) h s.
Proof.
  intros Hp Hb Hh. split; cbn; [done | | | |done]; rewrite Hp, Hb.
  - now rewrite firstn_app, firstn_all, Nat.sub_diag, app_nil_r.
  - now rewrite skipn_app, skipn_all, Nat.sub_diag.
  - rewrite length_app. lia.
Qed.

Lemma shows_elim h l r hist s : shows (h, l, r) hist s ->
  hist = h /\ pos_ s = length l /\ buffer_ s = l ++ r /\ (h <= length (history_ s))%nat.
Proof.
  intros [H1 H2 H3 H4 H5]. cbn in *. subst. repeat split; auto.
  - rewrite length_firstn. lia.
  - symmetry. apply firstn_skipn.
Qed.

Section Keys.
Variable w : Z.

Lemma show_entry_shows it s : (it <= length (history_ s))%nat ->
  let s' := show_entry it s in shows (it, nth it (history_ s) [], []) it s' /\ same_setup s s'.
Proof.
  intros H. split; [|now split]. apply shows_intro; cbn; [done | now rewrite app_nil_r | done].
Qed.

Lemma left_shows h l r s : shows (h, l, r) h s ->
  let s' := move_cursor_left w s in
  shows (match rev l with [] => (h, l, r) | c :: l' => (h, rev l', c :: r) end) h s' /\ same_setup s s'.
Proof.
  intros H. pose proof (shows_elim _ _ _ _ _ H) as (_ & Hp & Hb & Hh). unfold move_cursor_left. rewrite Hp.
  destruct l as [|c l _] using rev_ind; [split; [exact H | now split]|].
  rewrite rev_unit, rev_involutive, length_app, Nat.add_1_r. cbn [Nat.ltb Nat.leb].
  split.
  - case_match; apply shows_intro; cbn; rewrite ?Hb; auto; try lia; now rewrite <- app_assoc.
  - case_match; now split.
Qed.

Lemma right_shows h l r s : shows (h, l, r) h s ->
  let s' := move_cursor_right w s in
  shows (match r with [] => (h, l, r) | c :: r => (h, l ++ [c], r) end) h s' /\ same_setup s s'.
Proof.
  intros H. pose proof (shows_elim _ _ _ _ _ H) as (_ & Hp & Hb & Hh). unfold move_cursor_right. rewrite Hp, Hb, length_app.
  destruct r as [|c r]; cbn [length].
  - rewrite Nat.add_0_r, Nat.ltb_irrefl. split; [exact H | now split].
  - replace (length l <? length l + S (length r))%nat with true by lia. split.
    + case_match; apply shows_intro; cbn; rewrite ?length_app, ?Hb; cbn; auto; now rewrite <- app_assoc.
    + case_match; now split.
Qed.

Lemma erase_at_app l c r : erase_at (length l) (l ++ c :: r) = l ++ r.
Proof.
  unfold erase_at. rewrite firstn_app, firstn_all, Nat.sub_diag, app_nil_r. f_equal.
  rewrite skipn_app, skipn_all2 by lia. replace (S (length l) - length l)%nat with 1%nat by lia. reflexivity.
Qed.

Lemma delete_shows h l r s : shows (h, l, r) h s ->
  let s' := delete_current_char w s in shows (h, l, tl r) h s' /\ same_setup s s'.
Proof.
  intros H. pose proof (shows_elim _ _ _ _ _ H) as (_ & Hp & Hb & Hh). unfold delete_current_char.
  destruct r as [|c r]; cbn [tl].
  - rewrite Hp, Hb, length_app, Nat.add_0_r, Nat.ltb_irrefl. split; [exact H | now split].
  - replace (pos_ s <? length (buffer_ s))%nat with true by (rewrite Hp, Hb, length_app; cbn [length]; lia). split.
    + case_match; apply shows_intro; cbn; auto; rewrite Hp, Hb; apply erase_at_app.
    + case_match; now split.
Qed.

Lemma backspace_shows h l r s : shows (h, l, r) h s ->
  let s' := delete_prev_char w s in shows (h, removelast l, r) h s' /\ same_setup s s'.
Proof.
  intros H. pose proof (shows_elim _ _ _ _ _ H) as (_ & Hp & Hb & Hh). unfold delete_prev_char. rewrite Hp.
  destruct l as [|c l _] using rev_ind; [split; [exact H | now split]|].
  rewrite removelast_last, length_app, Nat.add_1_r. cbn [Nat.ltb Nat.leb]. rewrite Nat.sub_1_r, Nat.pred_succ.
  assert (erase_at (length l) (buffer_ s) = l ++ r) as He by (rewrite Hb, <- app_assoc; apply erase_at_app).
  rewrite He. split; repeat case_match; try (apply shows_intro; cbn; auto); now split.
Qed.

Lemma home_shows h l r s : shows (h, l, r) h s ->
  let s' := move_cursor_home w s in shows (h, [], l ++ r) h s' /\ same_setup s s'.
Proof.
  intros H. apply shows_elim in H as (_ & Hp & Hb & Hh). split; [|now split]. apply shows_intro; cbn; auto.
Qed.

Lemma end_shows h l r s : shows (h, l, r) h s ->
  let s' := move_cursor_to_end s in shows (h, l ++ r, []) h s' /\ same_setup s s'.
Proof.
  intros H. apply shows_elim in H as (_ & Hp & Hb & Hh). split; [|now split].
  apply shows_intro; cbn; rewrite ?app_nil_r, <- ?Hb; auto.
Qed.

Lemma insert_shows ch h l r s : shows (h, l, r) h s ->
  let s' := insert_char w ch s in
  shows (length (history_ s), l ++ [char_of_int ch], r) (length (history_ s)) s' /\ same_setup s s'.
Proof.
  intros H. pose proof (shows_elim _ _ _ _ _ H) as (_ & Hp & Hb & Hh). unfold insert_char.
  rewrite Hp, Hb, length_app. destruct r as [|c r]; cbn [length].
  - rewrite Nat.add_0_r, Nat.ltb_irrefl. split; [|now split].
    apply shows_intro; cbn; rewrite ?length_app, ?app_nil_r; cbn; auto.
  - replace (length l <? length l + S (length r))%nat with true by lia.
    rewrite firstn_app, firstn_all, Nat.sub_diag, app_nil_r, skipn_app, skipn_all, Nat.sub_diag. cbn [skipn app firstn].
    split; [|case_match; now split].
    case_match; apply shows_intro; cbn; rewrite ?length_app, <- ?app_assoc; cbn; auto.
Qed.

Lemma handle_key_shows fuel ch z h s i : shows z h s -> autoCompleteFunc_ s = None ->
  exists h' s', handle_key w fuel ch h s i = Done (h', s', i) /\
    shows (zip_step (history_ s) (autoCompleteChar_ s) z ch) h' s' /\ same_setup s s'.
Proof.
  destruct z as [[h0 l] r]. intros H Hf. pose proof (shows_elim _ _ _ _ _ H) as (-> & Hp & Hb & Hh).
  unfold handle_key, zip_step.
  destruct (ch =? KEY_UP).
  { unfold show_prev_history_entry. destruct h0 as [|h0]; cbn [Nat.eqb].
    - do 2 eexists. split; [done|]. split; [exact H | apply same_setup_refl].
    - do 2 eexists. split; [done|]. rewrite Nat.sub_1_r. apply show_entry_shows. cbn. lia. }
  destruct (ch =? KEY_DOWN).
  { unfold show_next_history_entry. replace (negb (h0 =? length (history_ s))%nat && negb (h0 + 1 =? length (history_ s))%nat)
      with (S h0 <? length (history_ s))%nat by lia.
    destruct (Nat.ltb_spec (S h0) (length (history_ s))).
    - do 2 eexists. split; [done|]. rewrite Nat.add_1_r. apply show_entry_shows. lia.
    - do 2 eexists. split; [done|]. split; [exact H | apply same_setup_refl]. }
  destruct (ch =? KEY_LEFT); [do 2 eexists; split; [done|]; now apply left_shows|].
  destruct (ch =? KEY_RIGHT); [do 2 eexists; split; [done|]; now apply right_shows|].
  destruct (ch =? KEY_DELETE); [do 2 eexists; split; [done|]; now apply delete_shows|].
  destruct ((ch =? KEY_BACKDEL) || _); [do 2 eexists; split; [done|]; now apply backspace_shows|].
  destruct (_ || _ || (ch =? KEY_HOME2)); [do 2 eexists; split; [done|]; now apply home_shows|].
  destruct (_ || _ || (ch =? KEY_END2)); [do 2 eexists; split; [done|]; now apply end_shows|].
  destruct (ch =? autoCompleteChar_ s).
  { unfold handle_auto_complete, complete_word. rewrite Hf. cbn [sbind].
    do 2 eexists. split; [done|]. split; [exact H | apply same_setup_refl]. }
  replace ((ch <? 256) && isprint ch) with (isprint ch) by (unfold isprint; lia).
  destruct (isprint ch).
  - destruct (insert_shows ch _ _ _ _ H) as [H1 H2]. do 2 eexists. split; [done|].
    rewrite (same_history _ _ H2). auto.
  - do 2 eexists. split; [done|]. split; [now apply shows_intro | apply same_setup_refl].
Qed.

(** A sequence of keys, then [KEY_ENTER]. *)
Lemma read_loop_keys ks z h s i : shows z h s -> autoCompleteFunc_ s = None ->
  Forall (fun k => is_key k /\ k <> KEY_ENTER) ks ->
  exists s', read_loop w (S (length ks)) h s (map typed ks ++ typed KEY_ENTER :: i) =
    Done (zip_text (fold_left (zip_step (history_ s) (autoCompleteChar_ s)) ks z), s', i) /\ same_setup s s'.
Proof.
  intros H Hf Hks. revert z h s H Hf. induction Hks as [|k ks [Hk Hn] Hks IH]; intros z h s H Hf.
  - cbn [map app length fold_left read_loop]. rewrite readkey_typed by (split; [done | discriminate]).
    cbn [sbind]. exists (emit [Put [LF]] s). split; [|now split]. rewrite Z.eqb_refl.
    destruct z as [[h0 l] r]. pose proof (shows_elim _ _ _ _ _ H) as (_ & _ & -> & _). done.
  - cbn [map app length fold_left]. remember (S (length ks)) as n eqn:En. cbn [read_loop].
    rewrite readkey_typed by done. cbn [sbind]. replace (k =? KEY_ENTER) with false by lia.
    destruct (handle_key_shows n k z h s (map typed ks ++ typed KEY_ENTER :: i) H Hf) as (h' & s' & -> & H' & Hs).
    cbn [sbind]. rewrite <- (same_func _ _ Hs) in Hf. destruct (IH _ _ _ H' Hf) as (s2 & E & Hs2).
    exists s2. subst n. rewrite E, (same_history _ _ Hs), (same_char _ _ Hs). split; [done|].
    now apply (same_setup_trans _ s').
Qed.

Lemma start_shows s : shows (length (history_ s), [], []) (length (history_ s))
  (emit [Put (cstr_of (prompt_ s))] (with_matches [] (edit 0 [] s))).
Proof. now apply shows_intro. Qed.

(** C36: The line editor is right about every sequence of keys: without completions, [read]
    ends at the first [KEY_ENTER] with the line that the keys give when they are applied to
    the text before and behind the cursor, and leaves the rest of the input; the history and
    the prompt are unchanged. *)
Theorem read_line_refines s ks i : autoCompleteFunc_ s = None ->
  Forall (fun k => is_key k /\ k <> KEY_ENTER) ks ->
  exists s', read w (S (length ks)) s (map typed ks ++ typed KEY_ENTER :: i) =
    Done (zip_text (fold_left (zip_step (history_ s) (autoCompleteChar_ s)) ks (length (history_ s), [], [])), s', i) /\
    same_setup s s'.
Proof.
  intros Hf Hks. unfold read.
  destruct (read_loop_keys ks _ _ _ i (start_shows s) Hf Hks) as (s' & E & Hs).
  exists s'. split; [exact E | destruct Hs; now split].
Qed.

(** At the end of the input there is no key, and the reader asks for the next one for ever. *)
Lemma read_loop_hangup fuel h s i : read_loop w fuel h s (Hangup :: i) = Running \/
  autoCompleteChar_ s = KEY_EOF.
Proof.
  revert h s. induction fuel as [|fuel IH]; intros h s; [now left|].
  destruct (Z.eq_dec (autoCompleteChar_ s) KEY_EOF) as [|Hc]; [now right | left].
  cbn -[handle_key]. change (handle_key w fuel KEY_EOF h s (Hangup :: i))
    with (if KEY_EOF =? autoCompleteChar_ s then
            let+ '(s, i) := handle_auto_complete w fuel s (Hangup :: i) in Done (h, s, i)
          else Done (length (history_ s), s, Hangup :: i)).
  replace (KEY_EOF =? autoCompleteChar_ s) with false by lia. cbn [sbind].
  destruct (IH (length (history_ s)) s); [done | congruence].
Qed.

End Keys.

(** ** The words that begin with a text *)

Lemma tokens_match_spec t e : tokens_match t e = true <-> t `prefix_of` e.
Proof.
  unfold tokens_match. destruct (Nat.ltb_spec (length e) (length t)) as [H|H].
  - split; [done|]. intros [r ->]. rewrite length_app in H. lia.
  - rewrite Z.eqb_eq, strcmp_eq. split.
    + intros E. exists (skipn (length t) e). rewrite <- E at 1. symmetry. apply firstn_skipn.
    + intros [r ->]. now rewrite firstn_app, firstn_all, Nat.sub_diag, app_nil_r.
Qed.

Lemma less_prefix t r : less (t ++ r) t = false.
Proof. unfold less. induction t as [|c t IH]; cbn; [now destruct r|]. now rewrite Z.ltb_irrefl. Qed.

(** Between a text and a word that begins with it, all words begin with it. *)
Lemma between_prefix t r e : less e t = false -> less e (t ++ r) = true -> t `prefix_of` e.
Proof.
  unfold less. revert e. induction t as [|c t IH]; intros e H1 H2; [apply prefix_nil|].
  destruct e as [|d e]; cbn in *; [done|]. destruct (Z.ltb_spec (code d) (code c)); [done|].
  destruct (Z.ltb_spec (code c) (code d)); [done|].
  assert (d = c) as -> by (apply code_inj; lia). apply prefix_cons, IH; done.
Qed.

Lemma take_while_filter t l : set_sorted l -> Forall (fun e => less e t = false) l ->
  take_while (tokens_match t) l = List.filter (tokens_match t) l.
Proof.
  induction l as [|e l IH]; intros Hs Hl; cbn; [done|].
  apply StronglySorted_inv in Hs as [Hs He]. apply Forall_cons in Hl as [Hle Hl].
  destruct (tokens_match t e) eqn:Et; [now rewrite IH|].
  symmetry. apply List.incl_l_nil. intros x Hx. apply filter_In in Hx as [Hx [r ->]%tokens_match_spec].
  apply list_elem_of_In in Hx. rewrite Forall_forall in He. specialize (He _ Hx).
  pose proof (between_prefix _ _ _ Hle He) as Hp. apply tokens_match_spec in Hp. congruence.
Qed.

Lemma lower_bound_spec t l : set_sorted l ->
  set_sorted (lower_bound t l) /\ Forall (fun e => less e t = false) (lower_bound t l) /\
  List.filter (tokens_match t) (lower_bound t l) = List.filter (tokens_match t) l.
Proof.
  induction l as [|e l IH]; intros Hs; cbn; [auto|].
  pose proof Hs as [Hl He]%StronglySorted_inv. destruct (less e t) eqn:E.
  - destruct (IH Hl) as (H1 & H2 & H3). split; [done|]. split; [done|]. rewrite H3.
    destruct (tokens_match t e) eqn:Et; [|done]. apply tokens_match_spec in Et as [r ->].
    now rewrite less_prefix in E.
  - split; [done|]. split; [|done]. constructor; [done|]. eapply Forall_impl; [exact He|]. cbn.
    intros x Hx. destruct (less x t) eqn:Ex; [|done]. now rewrite (less_trans _ _ _ Hx Ex) in E.
Qed.

(** [find_matches] gives the words of the set that begin with the text. *)
Lemma find_matches_filter set t : set_sorted set -> find_matches set t = List.filter (tokens_match t) set.
Proof.
  intros Hs. destruct (lower_bound_spec t set Hs) as (H1 & H2 & H3). unfold find_matches.
  rewrite take_while_filter by done. exact H3.
Qed.

Lemma string_set_spec l : set_sorted (string_set l) /\ forall e, e ∈ string_set l <-> e ∈ l.
Proof.
  unfold string_set.
  assert (forall m, set_sorted m -> set_sorted (fold_left (fun m s => set_insert s m) l m) /\
    forall e, e ∈ fold_left (fun m s => set_insert s m) l m <-> e ∈ l \/ e ∈ m) as H.
  { induction l as [|x l IH]; intros m Hm; cbn.
    - split; [done|]. intros e. split; [now right | intros [He|He]; [now apply not_elem_of_nil in He | done]].
    - destruct (IH _ (set_insert_sorted x m Hm)) as [H1 H2]. split; [done|].
      intros e. rewrite H2, set_insert_elem, elem_of_cons. tauto. }
  destruct (H [] ltac:(constructor)) as [H1 H2]. split; [done|]. intros e. rewrite H2.
  split; [intros [He|He]; [done | now apply not_elem_of_nil in He] | now left].
Qed.

(** ** The longest common beginning *)

Definition common_prefix (c : bytes) (l : list bytes) : Prop :=
  (forall e, e ∈ l -> c `prefix_of` e) /\ forall d, (forall e, e ∈ l -> d `prefix_of` e) -> d `prefix_of` c.

Lemma rd_at_app a c r : rd_at (a ++ c :: r) (length a) = Ok c.
Proof. induction a; cbn; auto. Qed.

Lemma rd_at_end a : rd_at a (length a) = Ok NUL.
Proof. induction a; cbn; auto. Qed.

(** All words begin with [a]; either one of them goes on with another character, or all go
    on with the same one. *)
Lemma differs_spec a x l : Forall (fun e => a `prefix_of` e) l ->
  (exists e y, e ∈ l /\ differs_at (length a) x l = Ok a /\ rd_at e (length a) = Ok y /\ y <> x) \/
  (differs_at (length a) x l = Ok [] /\ Forall (fun e => rd_at e (length a) = Ok x) l).
Proof.
  induction 1 as [|e l [r ->] Hl IH]; cbn [differs_at]; [right; auto|].
  assert (exists y, rd_at (a ++ r) (length a) = Ok y) as [y Hy].
  { destruct r as [|c r]; [rewrite app_nil_r, rd_at_end | rewrite rd_at_app]; eauto. }
  rewrite Hy. cbn [bind]. destruct (Ascii.eqb_spec y x) as [->|Hne].
  - destruct IH as [(e & y & He & E & Hr & Hn)|[E Hr]]; [left | right].
    + exists e, y. split; [now right | auto].
    + split; [done|]. now constructor.
  - left. exists (a ++ r), y. split; [left|]. split; [|auto].
    now rewrite firstn_app, firstn_all, Nat.sub_diag, app_nil_r.
Qed.

Lemma rd_at_prefix a e x : a `prefix_of` e -> rd_at e (length a) = Ok x -> x <> NUL -> (a ++ [x]) `prefix_of` e.
Proof.
  intros [r ->] H Hx. destruct r as [|c r].
  - rewrite app_nil_r, rd_at_end in H. congruence.
  - rewrite rd_at_app in H. injection H as ->. exists r. now rewrite <- app_assoc.
Qed.

Lemma rd_at_nul a e : a `prefix_of` e -> no_nul e = true -> rd_at e (length a) = Ok NUL -> e = a.
Proof.
  intros [r ->] Hn H. destruct r as [|c r]; [apply app_nil_r|]. rewrite rd_at_app in H. injection H as ->.
  rewrite no_nul_app in Hn. cbn in Hn. now rewrite andb_false_r in Hn.
Qed.

Lemma longest_from_spec fuel a first l p :
  (length first < fuel + length a)%nat ->
  Forall (fun e => no_nul e = true) (first :: l) ->
  Forall (fun e => a `prefix_of` e) (first :: l) ->
  p <> [] -> (forall e, e ∈ first :: l -> p `prefix_of` e) ->
  (exists e, e ∈ l /\ e <> first) ->
  exists c, longest_from fuel (length a) first l = Ok c /\ common_prefix c (first :: l).
Proof.
  intros Hfuel Hnul Ha Hp Hpre Hne. revert a Hfuel Ha.
  induction fuel as [|fuel IH]; intros a Hfuel Ha; cbn [longest_from].
  { apply Forall_cons in Ha as [Ha _]. apply prefix_length in Ha. lia. }
  pose proof Ha as [Hf Hl]%Forall_cons. pose proof Hnul as [Hnf Hnl]%Forall_cons.
  assert (exists x, rd_at first (length a) = Ok x) as [x Hx].
  { destruct Hf as [r ->]. destruct r as [|c r]; [rewrite app_nil_r, rd_at_end | rewrite rd_at_app]; eauto. }
  rewrite Hx. cbn [bind]. destruct (differs_spec a x l Hl) as [(e & y & He & -> & Hy & Hxy)|[-> Hall]]; cbn [bind].
  - assert (forall d, (forall e, e ∈ first :: l -> d `prefix_of` e) -> d `prefix_of` a) as Hmax.
    { intros d Hd. pose proof (Hd first (list_elem_of_here _ _)) as H1.
      pose proof (Hd e (list_elem_of_further _ _ _ He)) as H2.
      destruct (prefix_weak_total d a first H1 Hf) as [H|H]; [done|].
      destruct H as [r ->]. destruct r as [|z r]; [now rewrite app_nil_r|]. exfalso. apply Hxy.
      destruct H1 as [k1 ->], H2 as [k2 ->]. rewrite <- !app_assoc in *. cbn in *.
      rewrite rd_at_app in Hx, Hy. congruence. }
    assert (a <> []) as Hane by (intros ->; apply Hp; apply prefix_nil_inv; now apply Hmax).
    destruct a as [|b a]; [done|]. eexists. split; [reflexivity|]. split; [|exact Hmax].
    intros e' He'. rewrite Forall_forall in Ha. now apply Ha.
  - destruct (Ascii.eqb_spec x NUL) as [->|Hnx].
    + exfalso. destruct Hne as (e & He & Hd). apply Hd. rewrite Forall_forall in Hl, Hnl, Hall.
      rewrite (rd_at_nul a first), (rd_at_nul a e); auto.
    + replace (S (length a)) with (length (a ++ [x])) by (rewrite length_app; cbn; lia).
      apply IH; [rewrite length_app; cbn; lia|]. constructor; [now apply rd_at_prefix|].
      apply Forall_forall. intros e He. rewrite Forall_forall in Hl, Hall. apply rd_at_prefix; auto.
Qed.

(** Two or more different words with the same first letter. *)
Lemma longest_match_spec l p : Forall (fun e => no_nul e = true) l -> set_sorted l -> (2 <= length l)%nat ->
  p <> [] -> (forall e, e ∈ l -> p `prefix_of` e) ->
  exists c, longest_match l = Ok c /\ common_prefix c l.
Proof.
  intros Hn Hs Hlen Hp Hpre. destruct l as [|first [|e l]]; cbn in Hlen; [lia|lia|]. unfold longest_match.
  apply (longest_from_spec (length first + 2) [] first (e :: l) p); auto.
  - cbn. lia.
  - apply Forall_forall. intros. apply prefix_nil.
  - exists e. split; [left|]. apply StronglySorted_inv in Hs as [_ Hs]. apply Forall_cons in Hs as [Hs _].
    intros ->. now rewrite less_irrefl in Hs.
Qed.

(** ** Completion *)

Section Completion.
Variable w : Z.

(** The words that are considered: those of the last time, or new ones. *)
Definition candidates (f : bytes -> bytes -> list bytes) (s : editor) (word : bytes) : list bytes :=
  match matches_ s with [] => f word (buffer_ s) | m => m end.

(** The ones that begin with the word, in order. *)
Definition completions f s word : list bytes :=
  List.filter (tokens_match word) (string_set (candidates f s word)).

Lemma completions_elem f s word e : e ∈ completions f s word <-> e ∈ candidates f s word /\ word `prefix_of` e.
Proof.
  unfold completions. rewrite list_elem_of_In, filter_In, <- list_elem_of_In, tokens_match_spec.
  now rewrite (proj2 (string_set_spec _)).
Qed.

Lemma completions_sorted f s word : set_sorted (completions f s word).
Proof. apply sorted_filter, string_set_spec. Qed.

Lemma common_prefix_single m : common_prefix m [m].
Proof.
  split; [intros e He; apply list_elem_of_singleton in He as ->; done|].
  intros d Hd. apply Hd. left.
Qed.

(** The word, when it is itself the first of the words that begin with it. *)
Lemma common_prefix_word word l : (forall e, e ∈ word :: l -> word `prefix_of` e) -> common_prefix word (word :: l).
Proof. intros H. split; [done|]. intros d Hd. apply Hd. left. Qed.

Lemma replace_word pre word c : replace (length pre) (length word) c (pre ++ word) = pre ++ c.
Proof.
  unfold replace. rewrite firstn_app, firstn_all, Nat.sub_diag. cbn [firstn]. rewrite app_nil_r.
  rewrite skipn_all2 by (rewrite length_app; lia). now rewrite app_nil_r.
Qed.

(** [complete_word] of the last word of the buffer. *)
Lemma complete_word_spec fuel f pre word s i b i' :
  autoCompleteFunc_ s = Some f -> buffer_ s = pre ++ word -> word <> [] ->
  Forall (fun e => no_nul e = true) (candidates f s word) ->
  (if (kMaxDisplayEntries <? length (completions f s word))%nat then ask fuel i else Done (true, i)) = Done (b, i') ->
  match completions f s word with
  | [] => exists s', complete_word w fuel word (length pre) s i = Done (false, word, s', i) /\
            buffer_ s' = buffer_ s /\ pos_ s' = pos_ s
  | [m] => exists s', complete_word w fuel word (length pre) s i = Done (true, m, s', i) /\
            buffer_ s' = buffer_ s /\ matches_ s' = []
  | M => exists c word' s', complete_word w fuel word (length pre) s i = Done (false, word', s', i') /\
            common_prefix c M /\ buffer_ s' = pre ++ c /\ matches_ s' = M /\
            (pos_ s' = length (buffer_ s') \/ c = word /\ pos_ s' = pos_ s)
  end.
Proof.
  intros Hf Hb Hw Hn Hask. unfold complete_word. rewrite Hf.
  set (s1 := match matches_ s with [] => with_matches _ s | _ => s end).
  assert (matches_ s1 = candidates f s word) as E1 by (unfold s1, candidates; destruct (matches_ s) eqn:E; [done | exact E]).
  assert (buffer_ s1 = buffer_ s /\ pos_ s1 = pos_ s) as [Eb Ep] by (unfold s1; now destruct (matches_ s)).
  rewrite E1, find_matches_filter by apply string_set_spec. fold (completions f s word).
  cbn [matches_ with_matches].
  pose proof (completions_sorted f s word) as Hs. pose proof (fun e => proj1 (completions_elem f s word e)) as Hel.
  destruct (completions f s word) as [|m [|m2 M]] eqn:EM.
  - eexists. split; [done|]. auto.
  - eexists. split; [done|]. auto.
  - rewrite <- EM in *. set (L := completions f s word) in *.
    set (s2 := if (kMaxDisplayEntries <? length L)%nat then emit _ _ else _).
    assert (matches_ s2 = L /\ buffer_ s2 = buffer_ s /\ pos_ s2 = pos_ s) as (M2 & B2 & P2)
      by (unfold s2; case_match; auto).
    rewrite Hask. cbn [sbind].
    set (s3 := if b then _ else s2).
    assert (matches_ s3 = L /\ buffer_ s3 = buffer_ s /\ pos_ s3 = pos_ s) as (M3 & B3 & P3)
      by (unfold s3; destruct b; auto).
    rewrite M3, B3, Hb.
    assert (Forall (fun e => no_nul e = true) L) as HnL.
    { apply Forall_forall. intros e He. apply Hel in He as [He _]. rewrite Forall_forall in Hn. auto. }
    destruct (longest_match_spec L word) as (c & -> & Hc); auto.
    { rewrite EM. cbn. lia. }
    { intros e He. now apply Hel in He. }
    destruct (Nat.ltb_spec (length word) (length m)); cbn [of_res sbind].
    + rewrite replace_word. exists c, c. eexists. split; [reflexivity|]. cbn. auto.
    + assert (m = word) as ->.
      { destruct (Hel m) as [_ [r Hr]]; [rewrite EM; left|]. subst m. rewrite length_app in *.
        destruct r; [now rewrite app_nil_r | cbn in *; lia]. }
      exists word, word. eexists. split; [reflexivity|]. cbn. rewrite M3, B3, Hb. split; [|auto].
      rewrite EM. apply common_prefix_word. intros e He. rewrite <- EM in He. now apply Hel in He.
Qed.

Lemma before_last_none c s : forallb (fun d => negb (Ascii.eqb d c)) s = true -> before_last c s = None.
Proof.
  induction s as [|d s IH]; cbn; [done|]. intros [Hd Hs]%andb_true_iff. rewrite IH by done.
  now destruct (Ascii.eqb d c).
Qed.

Lemma before_last_app c a s : forallb (fun d => negb (Ascii.eqb d c)) s = true -> before_last c (a ++ c :: s) = Some a.
Proof.
  intros Hs. induction a as [|d a IH]; cbn; [|now rewrite IH].
  now rewrite before_last_none, Ascii.eqb_refl.
Qed.

(** The buffer ends in a word behind a space, or is one. *)
Definition last_word (pre word b : bytes) : Prop :=
  b = pre ++ word /\ (pre = [] \/ exists t, pre = t ++ B " ") /\
  forallb (fun d => negb (Ascii.eqb d " "%char)) word = true.

Lemma last_word_begin pre word b : last_word pre word b -> word_begin b = length pre /\ skipn (length pre) b = word.
Proof.
  intros (-> & [-> | [t ->]] & Hw).
  - unfold word_begin. cbn [app]. now rewrite before_last_none.
  - unfold word_begin. rewrite <- app_assoc. cbn [app list_ascii_of_string].
    rewrite before_last_app by done. rewrite length_app. cbn [length]. split; [lia|].
    change (t ++ " "%char :: word) with (t ++ B " " ++ word). rewrite app_assoc, skipn_app, skipn_all2 by (rewrite length_app; cbn; lia).
    rewrite length_app. cbn [length]. now rewrite Nat.sub_diag.
Qed.

(** The completion key completes the last word. When none of the words that the
    completion function gives begins with it, the line is unchanged; else the last word is
    replaced by the longest text that all of those words begin with (by the word itself when
    there is only one), which is never shorter than what was typed. *)
Theorem completion_longest fuel f s i b i' pre word :
  autoCompleteFunc_ s = Some f -> last_word pre word (buffer_ s) -> word <> [] ->
  Forall (fun e => no_nul e = true) (candidates f s word) ->
  (if (kMaxDisplayEntries <? length (completions f s word))%nat then ask fuel i else Done (true, i)) = Done (b, i') ->
  exists s' j, handle_auto_complete w fuel s i = Done (s', j) /\
    if decide (completions f s word = []) then buffer_ s' = buffer_ s /\ pos_ s' = pos_ s
    else exists c, common_prefix c (completions f s word) /\ word `prefix_of` c /\ buffer_ s' = pre ++ c /\
           (pos_ s' = length (buffer_ s') \/ c = word /\ pos_ s' = pos_ s).
Proof.
  intros Hf Hlw Hne Hn Hask. pose proof (last_word_begin _ _ _ Hlw) as [Hbeg Hskip]. destruct Hlw as [Hb _].
  pose proof (complete_word_spec fuel f pre word s i b i' Hf Hb Hne Hn Hask) as H.
  assert (forall c, common_prefix c (completions f s word) -> word `prefix_of` c) as Hpre.
  { intros c [_ Hc]. apply Hc. intros e He. now apply completions_elem in He. }
  unfold handle_auto_complete. rewrite Hbeg, Hskip.
  destruct (completions f s word) as [|m [|m2 M]] eqn:EM.
  - destruct H as (s' & -> & H). cbn [sbind]. do 2 eexists. split; [reflexivity|]. now rewrite decide_True.
  - destruct H as (s' & -> & H1 & H2). cbn [sbind]. do 2 eexists. split; [reflexivity|].
    rewrite decide_False by done. exists m.
    split; [apply common_prefix_single|]. split; [apply Hpre, common_prefix_single|]. cbn. rewrite H1, Hb.
    rewrite length_app. replace (length pre + length word - length pre)%nat with (length word) by lia.
    rewrite replace_word. auto.
  - destruct H as (c & word' & s' & -> & H1 & H2 & H3 & H4). cbn [sbind]. do 2 eexists. split; [reflexivity|].
    rewrite decide_False by done. exists c. auto.
Qed.

End Completion.

(** ** Examples *)

Definition commands : list bytes := [B "break"; B "continue"; B "bt"; B "breakpoints"; B "step"].

Definition typing (s : bytes) : editor :=
  set_auto_complete_func (Some (fun _ _ => commands)) (edit (length s) s ReadLine).

Lemma completion_longest_witness :
  exists s' j, handle_auto_complete 80 0 (typing (B "help br")) [] = Done (s', j) /\
    buffer_ s' = B "help break" /\ pos_ s' = 10%nat.
Proof.
  destruct (completion_longest 80 0 (fun _ _ => commands) (typing (B "help br")) [] true [] (B "help ") (B "br"))
    as (s' & j & E & _).
  - reflexivity.
  - split; [reflexivity|]. split; [|reflexivity]. right. now exists (B "help").
  - discriminate.
  - repeat constructor.
  - reflexivity.
  - exists s', j. split; [exact E|]. vm_compute in E. injection E as <- _. now vm_compute.
Defined.

Lemma read_line_refines_witness :
  exists s', read 80 8 (add_history_entry (B "run") ReadLine)
    (map typed [KEY_UP; KEY_HOME; 49; KEY_RIGHT; KEY_BACKSPACE; KEY_END; 33] ++ [typed KEY_ENTER]) = Done (B "1un!", s', []) /\
  same_setup (add_history_entry (B "run") ReadLine) s'.
Proof.
  destruct (read_line_refines 80 (add_history_entry (B "run") ReadLine)
    [KEY_UP; KEY_HOME; 49; KEY_RIGHT; KEY_BACKSPACE; KEY_END; 33] [] eq_refl) as (s' & E & H).
  - repeat constructor; try discriminate.
  - exists s'. split; [exact E | exact H].
Defined.

(** Without a common first letter the loop goes on behind the difference. *)
Example no_common_letter :
  longest_match [B "break"; B "continue"] = Ok (B "c") /\ longest_match [B "a"; B "b"] = Fail OutOfBounds /\
  handle_auto_complete 80 0 (set_auto_complete_func (Some (fun _ _ => [B "a"; B "b"])) ReadLine) [] = Crash OutOfBounds.
Proof. now vm_compute. Qed.

(** Characters at the end of the line do not clear the words of the last completion: the next
    word is searched among them, and the first completion of it finds nothing. *)
Example stale_matches :
  let f word (_ : bytes) := if strcmp word (B "b") =? 0 then [B "break"; B "bt"] else [B "main"] in
  let s := set_auto_complete_func (Some f) ReadLine in
  match read 80 6 s (map typed [98; KEY_TAB; 32; 109; KEY_TAB; KEY_ENTER]) with
  | Done (line, _, _) => line = B "b m"
  | _ => False
  end /\
  match read 80 7 s (map typed [98; KEY_TAB; 32; 109; KEY_TAB; KEY_TAB; KEY_ENTER]) with
  | Done (line, _, _) => line = B "b main"
  | _ => False
  end.
Proof. now vm_compute. Qed.

(** The end of the input is not noticed. *)
Lemma read_hangup w fuel s i : autoCompleteChar_ s <> KEY_EOF -> read w fuel s (Hangup :: i) = Running.
Proof.
  intros Hc. unfold read. destruct (read_loop_hangup w fuel (length (history_ s))
    (emit [Put (cstr_of (prompt_ s))] (with_matches [] (edit 0 [] s))) i) as [E|E]; [exact E | done].
Qed.
