(* ===== verification/ReadLineScreen.v ===== *)
(** * What the line editor shows

    The text and the cursor movements that the editor sends are interpreted on one row of a
    terminal. As long as the line fits, the row always shows the prompt and the buffer, with
    the cursor at the position in the buffer. *)
From S2P Require Import Prelude CLib DString DReal LongFloat FloatArith Variant.
From S2P Require Import SharedString StepOver ReadLine ReadLineCorrect.
From stdpp Require Import base list option.
Local Open Scope Z_scope.

(** ** A row of a terminal *)

(** Its text, the column of the cursor and the column that was saved. *)
Record screen : Type := mk_screen { row : bytes; col : nat; saved_col : nat }.

Definition blank : screen := mk_screen [] 0 0.

Section Screen.

(** The number of columns. *)
Variable w : Z.

(** A character replaces the one under the cursor; one in the last column or behind the text
    is not interpreted. *)
Definition put_char (c : ascii) (s : screen) : option screen :=
  if Ascii.eqb c CR then Some (mk_screen (row s) 0 (saved_col s))
  else if isprint (code c) && (Z.of_nat (S (col s)) <? w) && (col s <=? length (row s))%nat
  then Some (mk_screen (firstn (col s) (row s) ++ c :: skipn (S (col s)) (row s)) (S (col s)) (saved_col s))
  else None.

Fixpoint put_text (t : bytes) (s : screen) : option screen :=
  match t with
  | [] => Some s
  | c :: t => match put_char c s with Some s => put_text t s | None => None end
  end.

(** The commands of one row ([console_codes(4)]). *)
Definition interpret (c : tcmd) (s : screen) : option screen :=
  match c with
  | Put t => put_text t s
  | CursorLeft n => Some (mk_screen (row s) (col s - Z.to_nat n) (saved_col s))
  | CursorRight n => Some (mk_screen (row s) (col s + Z.to_nat n) (saved_col s))
  | CursorUp _ | CursorDown _ => None
  | SaveCursor => Some (mk_screen (row s) (col s) (col s))
  | RestoreCursor => Some (mk_screen (row s) (saved_col s) (saved_col s))
  | ClearEol => Some (mk_screen (firstn (col s) (row s)) (col s) (saved_col s))
  end.

Fixpoint interpret_all (l : list tcmd) (s : screen) : option screen :=
  match l with
  | [] => Some s
  | c :: l => match interpret c s with Some s => interpret_all l s | None => None end
  end.

Lemma interpret_all_app l m s :
  interpret_all (l ++ m) s = match interpret_all l s with Some s => interpret_all m s | None => None end.
Proof. revert s. induction l as [|c l IH]; intros s; cbn; [done|]. now destruct (interpret c s). Qed.

(** ** Printable text *)

Definition plain (t : bytes) : bool := forallb (fun c => isprint (code c)) t.

Lemma plain_app a b : plain (a ++ b) = plain a && plain b.
Proof. apply forallb_app. Qed.

Lemma plain_no_nul t : plain t = true -> no_nul t = true.
Proof.
  unfold plain, no_nul. rewrite !forallb_forall. intros H c Hc. specialize (H c Hc).
  destruct (Ascii.eqb_spec c NUL) as [->|]; [discriminate H | done].
Qed.

Lemma plain_cstr t : plain t = true -> cstr_of t = t.
Proof. intros H. now apply cstr_of_no_nul, plain_no_nul. Qed.

Lemma put_plain t A X sv : plain t = true -> Z.of_nat (length A + length t) < w ->
  put_text t (mk_screen (A ++ X) (length A) sv) = Some (mk_screen (A ++ t ++ skipn (length t) X) (length (A ++ t)) sv).
Proof.
  revert A X. induction t as [|c t IH]; intros A X Hp Hw; cbn [put_text].
  - cbn. now rewrite app_nil_r.
  - cbn [plain forallb] in Hp. apply andb_true_iff in Hp as [Hc Hp]. cbn [length] in Hw.
    unfold put_char. destruct (Ascii.eqb_spec c CR) as [->|]; [discriminate Hc|]. cbn [row col saved_col].
    rewrite Hc. replace (Z.of_nat (S (length A)) <? w) with true by lia.
    replace (length A <=? length (A ++ X))%nat with true by (rewrite length_app; lia). cbn [andb].
    rewrite firstn_app, firstn_all, Nat.sub_diag. cbn [firstn]. rewrite app_nil_r.
    rewrite skipn_app, skipn_all2 by lia. replace (S (length A) - length A)%nat with 1%nat by lia. cbn [app].
    replace (A ++ c :: skipn 1 X) with ((A ++ [c]) ++ skipn 1 X) by now rewrite <- app_assoc.
    replace (S (length A)) with (length (A ++ [c])) by (rewrite length_app; cbn; lia).
    rewrite IH by (try done; rewrite length_app; cbn [length]; lia).
    rewrite skipn_skipn, Nat.add_1_r, <- !app_assoc. reflexivity.
Qed.

(** From the start of the line. *)
Lemma put_line t s : plain t = true -> Z.of_nat (length t) < w ->
  put_text (CR :: t) s = Some (mk_screen (t ++ skipn (length t) (row s)) (length t) (saved_col s)).
Proof. intros Hp Hw. cbn [put_text put_char]. exact (put_plain t [] (row s) (saved_col s) Hp Hw). Qed.

(** ** The invariant *)

(** The editor [s] has the text [l] before the cursor and [r] behind it, and the screen shows
    it. *)
Record displays (l r : bytes) (s : editor) (scr : screen) : Prop := {
  d_pos : pos_ s = length l;
  d_buffer : buffer_ s = l ++ r;
  d_row : row scr = prompt_ s ++ l ++ r;
  d_col : col scr = (length (prompt_ s) + length l)%nat;
  d_plain : plain (l ++ r) = true;
  d_prompt : plain (prompt_ s) = true /\ prompt_ s <> [];
  d_history : Forall (fun e => plain e = true) (history_ s);
  d_fits : Z.of_nat (length (prompt_ s) + length (l ++ r)) < w
}.

(** A step sends some commands, after which the screen shows the next state. *)
Definition shown_step (s s' : editor) (scr : screen) (l' r' : bytes) : Prop :=
  exists out scr', fout_ s' = fout_ s ++ out /\ interpret_all out scr = Some scr' /\ displays l' r' s' scr'.

Lemma mod_fits k : 0 < k < w -> (k mod w =? 0) = false.
Proof. intros H. rewrite Z.mod_small by lia. lia. Qed.

Section Step.
Variables (l r : bytes) (s : editor) (scr : screen).
Hypothesis H : displays l r s scr.

Lemma scr_shape : scr = mk_screen ((prompt_ s ++ l) ++ r) (length (prompt_ s ++ l)) (saved_col scr).
Proof. destruct H as [_ _ Hr Hc _ _ _ _], scr. cbn in *. now rewrite Hr, Hc, <- app_assoc, length_app. Qed.

Lemma prompt_size : (0 < length (prompt_ s))%nat.
Proof. destruct (d_prompt _ _ _ _ H) as [_ Hp]. destruct (prompt_ s); [done | cbn; lia]. Qed.

(** Nothing is sent and nothing changes. *)
Lemma stays : shown_step s s scr l r.
Proof. exists [], scr. split; [now rewrite app_nil_r|]. split; [done | exact H]. Qed.

Lemma shown_entry it : (it < length (history_ s))%nat -> Z.of_nat (length (prompt_ s) + length (nth it (history_ s) [])) < w ->
  shown_step s (show_entry it s) scr (nth it (history_ s) []) [].
Proof.
  intros Hit Hn. pose proof H as [_ _ _ _ _ Hp Hh _].
  assert (In (nth it (history_ s) []) (history_ s)) as Hin by apply nth_In, Hit.
  pose proof Hh as Hh'. rewrite List.Forall_forall in Hh'. pose proof (Hh' _ Hin) as He.
  assert (plain (prompt_ s ++ nth it (history_ s) []) = true) as Hpl by (rewrite plain_app; now rewrite (proj1 Hp), He).
  eexists. eexists. split; [reflexivity|]. split.
  - cbn [reset_current_line interpret_all interpret prompt_ buffer_ edit]. rewrite plain_cstr by done.
    rewrite put_line by (try done; rewrite length_app; lia). reflexivity.
  - split; cbn; rewrite ?app_nil_r; auto.
    + now rewrite firstn_app, firstn_all, Nat.sub_diag, app_nil_r.
    + apply length_app.
Qed.

Lemma shown_left c l' : l = l' ++ [c] -> shown_step s (move_cursor_left w s) scr l' (c :: r).
Proof.
  pose proof prompt_size as Hsize. intros ->. pose proof H as [Hp Hb Hr Hc Hpl Hpr Hh Hf].
  rewrite <- app_assoc in *. cbn [app] in *. rewrite !length_app in *. cbn [length] in *.
  unfold move_cursor_left. rewrite Hp. replace (0 <? length l' + 1)%nat with true by lia.
  cbn [pos_ prompt_ edit]. unfold size_Z. rewrite mod_fits by lia. cbn [negb].
  eexists. eexists. split; [reflexivity|]. split; [reflexivity|].
  split; cbn; auto; try lia. rewrite length_app; cbn; lia.
Qed.

Lemma shown_right c r' : r = c :: r' -> shown_step s (move_cursor_right w s) scr (l ++ [c]) r'.
Proof.
  pose proof prompt_size as Hsize. intros ->. pose proof H as [Hp Hb Hr Hc Hpl Hpr Hh Hf].
  rewrite !length_app in *. cbn [length] in *.
  unfold move_cursor_right. rewrite Hp, Hb, length_app. cbn [length].
  replace (length l <? length l + S (length r'))%nat with true by lia.
  cbn [pos_ prompt_ edit]. unfold size_Z. rewrite mod_fits by lia. cbn [negb].
  eexists. eexists. split; [reflexivity|]. split; [reflexivity|].
  split; cbn; rewrite <- ?app_assoc, ?length_app; cbn; auto; lia.
Qed.

Lemma shown_home : shown_step s (move_cursor_home w s) scr [] (l ++ r).
Proof.
  pose proof H as [Hp Hb Hr Hc Hpl Hpr Hh Hf]. rewrite length_app in Hf.
  unfold move_cursor_home. rewrite Hp. rewrite Z.div_small by (pose proof prompt_size; lia).
  eexists. eexists. split; [cbn; rewrite app_nil_r; reflexivity|]. split.
  - cbn [interpret_all interpret prompt_ emit term_move_cursor_up]. rewrite plain_cstr by apply Hpr.
    rewrite put_line by (try apply Hpr; lia). reflexivity.
  - split; cbn; auto; try lia; [|rewrite length_app; lia].
    now rewrite Hr, skipn_app, skipn_all, Nat.sub_diag.
Qed.

Lemma plain_parts : plain l = true /\ plain r = true.
Proof. pose proof (d_plain _ _ _ _ H) as Hp. rewrite plain_app in Hp. now apply andb_true_iff in Hp. Qed.

Lemma skip_pos : skipn (pos_ s) (buffer_ s) = r.
Proof. rewrite (d_pos _ _ _ _ H), (d_buffer _ _ _ _ H), skipn_app, skipn_all, Nat.sub_diag. reflexivity. Qed.

Lemma shown_end : shown_step s (move_cursor_to_end s) scr (l ++ r) [].
Proof.
  pose proof H as [Hp Hb Hr Hc Hpl Hpr Hh Hf]. rewrite length_app in Hf.
  unfold move_cursor_to_end. rewrite skip_pos, plain_cstr by apply plain_parts.
  eexists. eexists. split; [reflexivity|]. split.
  - cbn [interpret_all interpret]. rewrite scr_shape at 1.
    rewrite put_plain by (try apply plain_parts; rewrite length_app; lia). reflexivity.
  - split; cbn; rewrite ?app_nil_r, ?Hb; auto; rewrite ?length_app; try lia.
    rewrite skipn_all, app_nil_r, <- app_assoc. done.
Qed.

(** The text behind the cursor is printed again over the old one and the rest is cleared. *)
Lemma reprint t A X sv : plain t = true -> Z.of_nat (length A + length t) < w ->
  interpret_all [SaveCursor; Put t; ClearEol; RestoreCursor] (mk_screen (A ++ X) (length A) sv)
  = Some (mk_screen (A ++ t) (length A) (length A)).
Proof.
  intros Ht Hw. cbn [interpret_all interpret row col saved_col]. rewrite put_plain by done.
  cbn [row col saved_col]. now rewrite app_assoc, firstn_app, firstn_all, Nat.sub_diag, app_nil_r.
Qed.

Lemma shown_delete c r' : r = c :: r' -> shown_step s (delete_current_char w s) scr l r'.
Proof.
  pose proof prompt_size as Hsize. pose proof scr_shape as Hscr. pose proof plain_parts as [Hpl1 Hpl2].
  pose proof H as [Hp Hb Hr Hc Hpl Hpr Hh Hf].
  intros Er. rewrite Er in *. cbn [plain forallb] in Hpl2. apply andb_true_iff in Hpl2 as [Hpc Hpr'].
  rewrite length_app in Hf. cbn [length] in Hf.
  unfold delete_current_char. rewrite Hp, Hb.
  replace (length l <? length (l ++ c :: r'))%nat with true by (rewrite length_app; cbn [length]; lia).
  rewrite erase_at_app. cbn [pos_ buffer_ edit with_matches emit prompt_]. unfold size_Z.
  rewrite length_app, skipn_app, skipn_all, Nat.sub_diag, ?skipn_O. cbn [app].
  rewrite mod_fits by lia. rewrite plain_cstr by done.
  eexists. eexists. split; [cbn [fout_ emit edit with_matches]; rewrite <- !app_assoc; reflexivity|]. cbn [app]. split.
  - rewrite Hscr. apply reprint; [done | rewrite length_app; lia].
  - split; cbn; rewrite <- ?app_assoc, ?length_app; auto; try lia.
    rewrite plain_app, Hpl1. exact Hpr'.
Qed.

Lemma shown_backspace c l' : l = l' ++ [c] -> shown_step s (delete_prev_char w s) scr l' r.
Proof.
  pose proof prompt_size as Hsize. pose proof scr_shape as Hscr. pose proof plain_parts as [Hpl1 Hpl2].
  pose proof H as [Hp Hb Hr Hc Hpl Hpr Hh Hf].
  intros El. rewrite El in *. rewrite plain_app in Hpl1. apply andb_true_iff in Hpl1 as [Hpl1 _].
  rewrite !length_app in Hf. rewrite !length_app in Hp. cbn [length] in Hf, Hp.
  unfold delete_prev_char. rewrite Hp. replace (0 <? length l' + 1)%nat with true by lia.
  rewrite Nat.add_sub, Hb, <- app_assoc. cbn [app]. rewrite erase_at_app.
  cbn [pos_ buffer_ edit with_matches prompt_]. unfold size_Z. rewrite (mod_fits (Z.of_nat (length l') + 1 + Z.of_nat (length (prompt_ s)))) by lia. rewrite andb_false_r.
  cbn [pos_ buffer_ edit with_matches emit prompt_]. rewrite length_app, skipn_app, skipn_all, Nat.sub_diag, ?skipn_O. cbn [app].
  rewrite mod_fits by lia. rewrite plain_cstr by done.
  eexists. exists (mk_screen ((prompt_ s ++ l') ++ r) (length (prompt_ s ++ l')) (length (prompt_ s ++ l'))). split; [cbn [fout_ emit edit with_matches]; rewrite <- !app_assoc; reflexivity|]. cbn [app]. split.
  - rewrite <- (reprint r (prompt_ s ++ l') (c :: r) (saved_col scr)) by (try done; rewrite length_app; lia).
    rewrite Hscr at 1. cbn [term_move_cursor_left Z.eqb app interpret_all interpret row col saved_col].
    replace (length (prompt_ s ++ l' ++ [c]) - Z.to_nat 1)%nat with (length (prompt_ s ++ l')) by (rewrite !length_app; cbn [length]; lia).
    now rewrite (app_assoc (prompt_ s) l' [c]), <- (app_assoc (prompt_ s ++ l') [c] r).
  - split; cbn; rewrite <- ?app_assoc, ?length_app; auto; try lia.
    now rewrite plain_app, Hpl1.
Qed.

Lemma shown_insert ch : isprint ch = true -> Z.of_nat (length (prompt_ s) + length (l ++ r) + 1) < w ->
  shown_step s (insert_char w ch s) scr (l ++ [char_of_int ch]) r.
Proof.
  pose proof prompt_size as Hsize. pose proof scr_shape as Hscr. remember (saved_col scr) as sv eqn:Esv. clear Esv. pose proof plain_parts as [Hpl1 Hpl2].
  pose proof H as [Hp Hb Hr Hc Hpl Hpr Hh Hf].
  intros Hch Hfit. rewrite length_app in Hfit. set (c := char_of_int ch). assert (isprint (code c) = true) as Hc1.
  { unfold c. rewrite code_char_of_int. unfold isprint in *. rewrite Z.mod_small; lia. }
  assert (plain ((l ++ [c]) ++ r) = true) as Hpl3 by (rewrite !plain_app, Hpl1, Hpl2; cbn; now rewrite Hc1).
  unfold insert_char. rewrite Hp, Hb, length_app. fold c. destruct r as [|d r'] eqn:Er; cbn [length] in *.
  - rewrite Nat.add_0_r, Nat.ltb_irrefl. eexists. eexists. split; [reflexivity|]. split.
    + cbn [interpret_all interpret]. rewrite Hscr.
      rewrite put_plain by (cbn; rewrite ?Hc1, ?length_app; done || lia). reflexivity.
    + split; cbn [pos_ buffer_ edit emit row col prompt_ history_]; rewrite ?app_nil_r, ?length_app; cbn [length]; auto; try lia.
      * now rewrite <- app_assoc.
      * now rewrite app_nil_r in Hpl3.
  - replace (length l <? length l + S (length r'))%nat with true by lia.
    rewrite firstn_app, firstn_all, Nat.sub_diag. cbn [firstn]. rewrite app_nil_r.
    rewrite skipn_app, skipn_all, Nat.sub_diag, ?skipn_O. cbn [app].
    cbn [pos_ buffer_ edit with_matches emit prompt_]. unfold size_Z.
    rewrite skipn_app, skipn_all, Nat.sub_diag, ?skipn_O. cbn [app]. rewrite mod_fits by lia. cbn [negb].
    rewrite plain_cstr by (cbn in Hpl2 |- *; now rewrite Hc1).
    eexists. eexists. split; [cbn [fout_ emit edit with_matches]; rewrite <- !app_assoc; reflexivity|]. cbn [app]. split.
    + rewrite Hscr. cbn [interpret_all interpret row col saved_col].
      rewrite put_plain by (cbn [plain forallb length]; cbn in Hpl2; rewrite ?Hc1, ?length_app; done || lia).
      cbn [term_move_cursor_right Z.eqb app interpret_all interpret row col saved_col]. reflexivity.
    + split; cbn [pos_ buffer_ edit emit with_matches row col prompt_ history_]; rewrite ?length_app; cbn [length]; auto; try lia.
      * now rewrite <- app_assoc.
      * rewrite skipn_all2 by (cbn; lia). now rewrite app_nil_r, <- !app_assoc.
Qed.

End Step.

(** ** Every key *)

Lemma handle_key_shown fuel ch h l r s scr i : displays l r s scr -> (h <= length (history_ s))%nat ->
  (autoCompleteFunc_ s = None \/ ch <> autoCompleteChar_ s) ->
  let z := zip_step (history_ s) (autoCompleteChar_ s) (h, l, r) ch in
  Z.of_nat (length (prompt_ s) + length (zip_text z)) < w ->
  exists s', handle_key w fuel ch h s i = Done (z.1.1, s', i) /\ shown_step s s' scr z.1.2 z.2 /\
    same_setup s s' /\ (z.1.1 <= length (history_ s))%nat.
Proof.
  intros H Hh Hf. pose proof (stays l r s scr H) as Hstay.
  unfold handle_key, zip_step. cbv zeta. unfold zip_text.
  destruct (ch =? KEY_UP).
  { unfold show_prev_history_entry. destruct h as [|h]; cbn [Nat.eqb fst snd]; rewrite ?app_nil_r; intros Hfit.
    - exists s. repeat split; done.
    - rewrite Nat.sub_1_r. cbn [Nat.pred]. eexists. split; [done|].
      split; [apply (shown_entry l r s scr H); [lia | done]|]. split; [now split | lia]. }
  destruct (ch =? KEY_DOWN).
  { unfold show_next_history_entry. replace (negb (h =? length (history_ s))%nat && negb (h + 1 =? length (history_ s))%nat)
      with (S h <? length (history_ s))%nat by lia.
    destruct (Nat.ltb_spec (S h) (length (history_ s))); cbn [fst snd]; rewrite ?app_nil_r; intros Hfit.
    - rewrite Nat.add_1_r. eexists. split; [done|].
      split; [apply (shown_entry l r s scr H); [lia | done]|]. split; [now split | lia].
    - exists s. repeat split; done. }
  assert (shows (h, l, r) h s) as Hz by (apply shows_intro; [apply (d_pos _ _ _ _ H) | apply (d_buffer _ _ _ _ H) | done]).
  destruct (ch =? KEY_LEFT).
  { intros _. destruct (left_shows w h l r s Hz) as [_ Hs].
    destruct l as [|c l' _] using rev_ind; [|rewrite rev_unit, rev_involutive]; cbn [rev fst snd].
    - eexists. split; [done|]. split; [|now split].
      unfold move_cursor_left. rewrite (d_pos _ _ _ _ H). exact Hstay.
    - eexists. split; [done|]. split; [now apply (shown_left (l' ++ [c]) r s scr H) | now split]. }
  destruct (ch =? KEY_RIGHT).
  { intros _. destruct (right_shows w h l r s Hz) as [_ Hs]. destruct r as [|c r']; cbn [fst snd].
    - eexists. split; [done|]. split; [|now split].
      unfold move_cursor_right. rewrite (d_pos _ _ _ _ H), (d_buffer _ _ _ _ H), app_nil_r, Nat.ltb_irrefl. exact Hstay.
    - eexists. split; [done|]. split; [now apply (shown_right l (c :: r') s scr H) | now split]. }
  destruct (ch =? KEY_DELETE).
  { intros _. destruct (delete_shows w h l r s Hz) as [_ Hs]. destruct r as [|c r']; cbn [fst snd tl].
    - eexists. split; [done|]. split; [|now split].
      unfold delete_current_char. rewrite (d_pos _ _ _ _ H), (d_buffer _ _ _ _ H), app_nil_r, Nat.ltb_irrefl. exact Hstay.
    - eexists. split; [done|]. split; [now apply (shown_delete l (c :: r') s scr H c) | now split]. }
  destruct ((ch =? KEY_BACKDEL) || _).
  { intros _. destruct (backspace_shows w h l r s Hz) as [_ Hs].
    destruct l as [|c l' _] using rev_ind; [|rewrite removelast_last]; cbn [removelast fst snd].
    - eexists. split; [done|]. split; [|now split].
      unfold delete_prev_char. rewrite (d_pos _ _ _ _ H). exact Hstay.
    - eexists. split; [done|]. split; [now apply (shown_backspace (l' ++ [c]) r s scr H c) | now split]. }
  destruct (_ || _ || (ch =? KEY_HOME2)).
  { intros _. eexists. split; [done|]. split; [now apply shown_home | now split]. }
  destruct (_ || _ || (ch =? KEY_END2)).
  { intros _. eexists. split; [done|]. split; [now apply shown_end | now split]. }
  destruct (Z.eqb_spec ch (autoCompleteChar_ s)) as [Hch|_].
  { intros _. destruct Hf as [Hf|Hf]; [|done].
    unfold handle_auto_complete, complete_word. rewrite Hf. cbn [sbind fst snd]. exists s. repeat split; done. }
  replace ((ch <? 256) && isprint ch) with (isprint ch) by (unfold isprint; lia). cbn [fst snd].
  destruct (isprint ch) eqn:Hp; cbn [fst snd]; intros Hfit.
  - destruct (insert_shows w ch h l r s Hz) as [_ Hs]. eexists. rewrite (same_history _ _ Hs).
    split; [done|]. split; [|now split]. apply shown_insert; [done | done |].
    rewrite !length_app in *. cbn [length] in Hfit. lia.
  - exists s. repeat split; done.
Qed.

(** The row that the commands so far have made. *)
Definition shown (l r : bytes) (s : editor) : Prop :=
  exists scr, interpret_all (fout_ s) blank = Some scr /\ displays l r s scr.

(** The text fits after each of the keys. *)
Definition always_fits (s : editor) (z : ReadLineCorrect.zip) (ks : list Z) : Prop :=
  forall pre post, ks = pre ++ post ->
    Z.of_nat (length (prompt_ s) + length (zip_text (fold_left (zip_step (history_ s) (autoCompleteChar_ s)) pre z))) < w.

(** No completion is asked for. *)
Definition no_completion (s : editor) (k : Z) : Prop := autoCompleteFunc_ s = None \/ k <> autoCompleteChar_ s.

Lemma read_loop_shown ks h l r s i : shown l r s -> (h <= length (history_ s))%nat ->
  always_fits s (h, l, r) ks -> Forall (fun k => is_key k /\ k <> KEY_ENTER /\ no_completion s k) ks ->
  let z := fold_left (zip_step (history_ s) (autoCompleteChar_ s)) ks (h, l, r) in
  exists s', read_loop w (S (length ks)) h s (map typed ks ++ typed KEY_ENTER :: i) = Done (zip_text z, emit [Put [LF]] s', i) /\
    shown z.1.2 z.2 s' /\ same_setup s s'.
Proof.
  revert h l r s. induction ks as [|k ks IH]; intros h l r s H Hh Hfit Hks.
  - cbn [map app length fold_left read_loop]. rewrite readkey_typed by (unfold is_key, KEY_ENTER; lia).
    cbn [sbind]. exists s. split; [|split; [exact H | now split]]. rewrite Z.eqb_refl.
    destruct H as (scr & _ & H). now rewrite (d_buffer _ _ _ _ H).
  - cbn [map app length fold_left]. remember (S (length ks)) as n eqn:En. cbn [read_loop].
    inversion_clear Hks as [|? ? (Hk & Hn & Hf) Hks'].
    rewrite readkey_typed by done. cbn [sbind]. replace (k =? KEY_ENTER) with false by lia.
    destruct H as (scr & Hscr & H).
    destruct (handle_key_shown n k h l r s scr (map typed ks ++ typed KEY_ENTER :: i) H Hh Hf) as (s1 & -> & Hstep & Hs & Hh1).
    { exact (Hfit [k] ks eq_refl). }
    cbn [sbind]. assert (always_fits s (zip_step (history_ s) (autoCompleteChar_ s) (h, l, r) k) ks) as Hfit1.
    { intros pre post ->. exact (Hfit (k :: pre) post eq_refl). }
    destruct (zip_step _ _ _ k) as [[h1 l1] r1]. cbn [fst snd] in *.
    assert (shown l1 r1 s1) as H1.
    { destruct Hstep as (out & scr1 & Ho & Hi & Hd). exists scr1. split; [|done]. now rewrite Ho, interpret_all_app, Hscr. }
    assert (always_fits s1 (h1, l1, r1) ks) as Hfit2.
    { unfold always_fits. rewrite (same_history _ _ Hs), (same_char _ _ Hs), (same_prompt _ _ Hs). exact Hfit1. }
    assert (Forall (fun k => is_key k /\ k <> KEY_ENTER /\ no_completion s1 k) ks) as Hks1.
    { unfold no_completion. rewrite (same_func _ _ Hs), (same_char _ _ Hs). exact Hks'. }
    rewrite <- (same_history _ _ Hs) in Hh1.
    destruct (IH h1 l1 r1 s1 H1 Hh1 Hfit2 Hks1) as (s2 & E & H2 & Hs2).
    exists s2. subst n. rewrite (same_history _ _ Hs), (same_char _ _ Hs) in *. split; [exact E|]. split; [done|].
    now apply (same_setup_trans _ s1).
Qed.

(** Decided by trying all prefixes of the keys. *)
Lemma always_fits_decided s z ks :
  forallb (fun n => Z.of_nat (length (prompt_ s)
    + length (zip_text (fold_left (zip_step (history_ s) (autoCompleteChar_ s)) (firstn n ks) z))) <? w)
    (seq 0 (S (length ks))) = true -> always_fits s z ks.
Proof.
  rewrite forallb_forall. intros H pre post ->.
  assert (In (length pre) (seq 0 (S (length (pre ++ post))))) as Hin by (apply in_seq; rewrite length_app; lia).
  specialize (H _ Hin). rewrite firstn_app, firstn_all, Nat.sub_diag in H. cbn [firstn] in H. rewrite app_nil_r in H. lia.
Qed.

(** C17: what the user sees is what the editor has. Let the prompt be printable and not empty,
    the entries of the history be printable, and no completion be asked for. As long as the
    prompt and the text of the line are shorter than the terminal is wide, after each of the
    keys, the text and cursor movements that were sent until [KEY_ENTER] show the prompt and
    the line that is returned, on one row, with the cursor where the keys have put it. *)
Theorem screen_shows_line s ks i : fout_ s = [] ->
  plain (prompt_ s) = true -> prompt_ s <> [] -> Forall (fun e => plain e = true) (history_ s) ->
  Forall (fun k => is_key k /\ k <> KEY_ENTER /\ no_completion s k) ks ->
  let z0 := (length (history_ s), [], []) in
  always_fits s z0 ks ->
  let z := fold_left (zip_step (history_ s) (autoCompleteChar_ s)) ks z0 in
  exists s' out scr, read w (S (length ks)) s (map typed ks ++ typed KEY_ENTER :: i) = Done (zip_text z, s', i) /\
    fout_ s' = out ++ [Put [LF]] /\ interpret_all out blank = Some scr /\
    row scr = prompt_ s ++ zip_text z /\ col scr = (length (prompt_ s) + length z.1.2)%nat.
Proof.
  intros Ho Hp Hne Hh Hks z0 Hfit. unfold read.
  set (s0 := emit _ _). pose proof (Hfit [] ks eq_refl) as Hw. cbn in Hw.
  assert (shown [] [] s0) as H0.
  { exists (mk_screen (prompt_ s) (length (prompt_ s)) 0). split.
    - unfold s0. cbn [fout_ emit edit with_matches]. rewrite Ho. cbn [app interpret_all interpret prompt_ edit with_matches].
      rewrite plain_cstr by done. change blank with (mk_screen ([] ++ []) (length (@nil ascii)) 0).
      rewrite put_plain by (done || (cbn; lia)). cbn. now rewrite skipn_nil, app_nil_r.
    - split; cbn; auto; rewrite ?app_nil_r; auto; lia. }
  destruct (read_loop_shown ks (length (history_ s0)) [] [] s0 i H0 (le_n _) Hfit Hks) as (s' & E & (scr & Hi & Hd) & Hs).
  exists (emit [Put [LF]] s'), (fout_ s'), scr. split; [exact E|]. split; [done|]. split; [done|].
  pose proof (same_prompt _ _ Hs) as Hpr. change (prompt_ s0) with (prompt_ s) in Hpr. rewrite <- Hpr. split.
  - exact (d_row _ _ _ _ Hd).
  - exact (d_col _ _ _ _ Hd).
Qed.

End Screen.

(** ** Examples *)

Definition console : editor := add_history_entry (B "run") (set_prompt (B "(zero) ") ReadLine).
Definition some_keys : list Z := [KEY_UP; KEY_HOME; 49; KEY_RIGHT; KEY_BACKSPACE; KEY_END; 33; KEY_LEFT; KEY_LEFT; KEY_DELETE].

Lemma screen_shows_line_witness :
  exists s' out scr, read 80 11 console (map typed some_keys ++ [typed KEY_ENTER]) = Done (B "1u!", s', []) /\
    fout_ s' = out ++ [Put [LF]] /\ interpret_all 80 out blank = Some scr /\ row scr = B "(zero) 1u!" /\ col scr = 9%nat.
Proof.
  destruct (screen_shows_line 80 console some_keys [] eq_refl eq_refl) as (s' & out & scr & H).
  - discriminate.
  - repeat constructor.
  - repeat constructor; try discriminate; now left.
  - apply always_fits_decided. reflexivity.
  - exists s', out, scr. exact H.
Defined.

(** On a line that is wrapped, [KEY_HOME] does not count the prompt when it goes up: with the
    cursor in the second row, here it stays there. *)
Example home_ignores_prompt :
  let s := edit 75 (repeat "a"%char 75) (set_prompt (B "(zero) ") ReadLine) in
  (Z.of_nat (pos_ s) + size_Z (prompt_ s)) / 80 = 1 /\
  fout_ (move_cursor_home 80 s) = [Put (CR :: B "(zero) ")].
Proof. now vm_compute. Qed.

(** With the prompt that a new editor has, which is empty, BACKSPACE in a line of one
    character takes the empty line for a wrapped one, whose next row is to be cleared: it sends
    a line feed, which scrolls when the line is at the bottom of the terminal. *)
Example empty_prompt_feeds_line :
  fout_ (delete_prev_char 80 (insert_char 80 97 ReadLine))
  = [Put (B "a"); CursorLeft 1; SaveCursor; Put []; ClearEol; Put [LF]; ClearEol; RestoreCursor].
Proof. now vm_compute. Qed.
