(* ===== verification/Stream.v ===== *)
(** * Streams and settings ([dharma/stream.cpp], [bstream.cpp], [cstream.cpp], [fstream.cpp],
    [settings.cpp])

    The settings of the debugger are kept in a file of tagged records: words, floating point
    numbers, strings, and objects that contain records of their own. An object of a class
    that the reader does not know is kept as it is and written again. *)
From S2P Require Import Prelude CLib Properties.
From stdpp Require Import base list gmap strings.
Local Open Scope Z_scope.

(** ** Numbers in memory *)

(** The [n] bytes of a number, the lowest first. *)
Fixpoint little (n : nat) (v : Z) : bytes :=
  match n with
  | O => []
  | S n => char_of_int v :: little n (v / 256)
  end.

Fixpoint le_val (s : bytes) : Z :=
  match s with [] => 0 | c :: s => code c + 256 * le_val s end.

Definition signed64 (v : Z) : Z := if v <? 2 ^ 63 then v else v - 2 ^ 64.

(** ** Descriptors *)

Record Descriptor : Type := mk_desc { d_type : ascii; d_flags : Z; d_namelen : Z; d_size : Z }.

Definition desc_bytes (d : Descriptor) : bytes :=
  d_type d :: char_of_int (d_flags d) :: little 2 (d_namelen d) ++ little 4 (d_size d).

Definition desc_of (s : bytes) : Descriptor :=
  mk_desc (nth 0 s NUL) (code (nth 1 s NUL)) (le_val (firstn 2 (skipn 2 s))) (le_val (firstn 4 (skipn 4 s))).

(** [desc.namelen = strlen(name)] and [desc.size = size], in 16 and 32 bits. *)
Definition describe (type : ascii) (name : bytes) (size : Z) : Descriptor :=
  mk_desc type 0 (Z.of_nat (length name) mod 2 ^ 16) (size mod 2 ^ 32).

(** The bytes of the name that are written. *)
Definition name_bytes (d : Descriptor) (name : bytes) : bytes := firstn (Z.to_nat (d_namelen d)) name.

(** ** Output *)

(** [write_buffer], and going back over [skip] bytes to the size of an object to set it. *)
Class OutputStream (T : Type) := {
  write_buffer : bytes -> T -> T;
  patch_size : nat -> Z -> T -> T
}.

(** [BStream]: a vector. *)
#[export] Instance BStream : OutputStream bytes := {
  write_buffer b o := o ++ b;
  patch_size skip size o :=
    let at_ := (length o - (skip + 4))%nat in firstn at_ o ++ little 4 size ++ skipn (at_ + 4) o
}.

(** [FileStream]: a file with its position. *)
Record file : Type := mk_file { data : bytes; position : nat }.

Definition sys_write (b : bytes) (f : file) : file :=
  mk_file (firstn (position f) (data f) ++ b ++ skipn (position f + length b) (data f)) (position f + length b).

#[export] Instance FileStream : OutputStream file := {
  write_buffer := sys_write;
  patch_size skip size f :=
    let f := mk_file (data f) (position f - (skip + 4)) in
    let f := sys_write (little 4 size) f in
    mk_file (data f) (position f + skip)
}.

Definition truncate (f : file) : file := mk_file [] 0.

(** [FileStream::position]: the arguments of [lseek] are exchanged, so that the offset is
    [SEEK_CUR] from the start of the file. *)
Definition file_position (f : file) : Z * file := (1, mk_file (data f) 1).

(** [sizeof(ZDK_UUID)], and the class of [Settings]. *)
Definition UUID_SIZE : nat := 16.
Definition SETTINGS_UUID : bytes :=
  map char_of_int [0xff; 0xeb; 0xe5; 0xaa; 0x49; 0x84; 0xe2; 0x41; 0x0c; 0x8a; 0xb2; 0x8e; 0xde; 0xbb; 0xf9; 0x97].

Section Output.
Context {T : Type} `{OutputStream T}.

(** The number of bits of a word. *)
Variable wordSize : Z.

(** A descriptor, a name and a value; the number of bytes that were written. *)
Definition write_record (type : ascii) (name : bytes) (size : Z) (value : bytes) (o : T) : Z * T :=
  let desc := describe type name size in
  let o := write_buffer (desc_bytes desc) o in
  let o := write_buffer (name_bytes desc name) o in
  let o := write_buffer (firstn (Z.to_nat (d_size desc)) value) o in
  (8 + d_namelen desc + d_size desc, o).

Definition write_word (name : bytes) (val : Z) : T -> Z * T :=
  write_record (if wordSize =? 64 then "x"%char else "i"%char) name (wordSize / 8) (little 8 val).

Definition write_double (name : bytes) (val : Z) : T -> Z * T :=
  write_record "d"%char name 8 (little 8 val).

Definition write_string (name str : bytes) : T -> Z * T :=
  write_record "s"%char name (Z.of_nat (length str)) str.

Definition write_bytes (name s : bytes) : T -> Z * T :=
  write_record "b"%char name (Z.of_nat (length s)) s.

(** [None]: [runtime_error]. *)
Definition write_opaque (s : bytes) (o : T) : option (Z * T) :=
  if (length s <? 8)%nat then None
  else
    let desc := desc_of s in
    let calcSize := (d_size desc + d_namelen desc) mod 2 ^ 32 + 8 + Z.of_nat UUID_SIZE in
    if negb (Ascii.eqb (d_type desc) "o"%char) || negb (calcSize =? Z.of_nat (length s)) then None
    else Some (Z.of_nat (length s), write_buffer s o).

(** [write_object] of [BStream] and of [FileStream]; [object] writes the object. The size is
    written as [0xFE] at first. *)
Definition write_object (name uuid : bytes) (object : T -> option (Z * T)) (o : T) : option (Z * T) :=
  let desc := describe "o"%char name 0xFE in
  let o := write_buffer (desc_bytes desc) o in
  let o := write_buffer (name_bytes desc name) o in
  let o := write_buffer uuid o in
  match object o with
  | None => None
  | Some (size, o) =>
      let size := size mod 2 ^ 32 in
      let skip := (Z.to_nat size + UUID_SIZE + Z.to_nat (d_namelen desc))%nat in
      Some (8 + d_namelen desc + Z.of_nat UUID_SIZE + size, patch_size skip size o)
  end.

End Output.

(** ** Settings *)

(** The maps are given by their entries in the order of iteration. An object is another
    [Settings], a [Streamable] of another class with what it writes, or not streamable. *)
Inductive settings : Type :=
| mk_settings (words : list (bytes * Z)) (doubles : list (bytes * Z)) (strings : list (bytes * bytes))
              (objs : objects) (opaqueList : list bytes)
with objects : Type :=
| no_objects
| an_object (name : bytes) (o : object) (rest : objects)
with object : Type :=
| OSettings (s : settings)
| OForeign (uuid content : bytes)
| OPlain.

Definition empty_settings : settings := mk_settings [] [] [] no_objects [].

Section WriteSettings.
Context {T : Type} `{OutputStream T}.
Variable wordSize : Z.

(** Writing one after the other and adding the numbers of bytes. *)
Fixpoint write_all {A : Type} (f : A -> T -> option (Z * T)) (l : list A) (n : Z) (o : T) : option (Z * T) :=
  match l with
  | [] => Some (n, o)
  | a :: l => match f a o with Some (k, o) => write_all f l (n + k) o | None => None end
  end.

Fixpoint write_settings (s : settings) (o : T) : option (Z * T) :=
  match s with
  | mk_settings words doubles strings objs opaque =>
      match write_all (fun e o => Some (write_word wordSize (fst e) (snd e) o)) words 0 o with
      | None => None
      | Some (n, o) =>
      match write_all (fun e o => Some (write_double (fst e) (snd e) o)) doubles n o with
      | None => None
      | Some (n, o) =>
      match write_all (fun e o => Some (write_string (fst e) (snd e) o)) strings n o with
      | None => None
      | Some (n, o) =>
      match write_objects objs n o with
      | None => None
      | Some (n, o) => write_all write_opaque opaque n o
      end end end end
  end
with write_objects (l : objects) (n : Z) (o : T) : option (Z * T) :=
  match l with
  | no_objects => Some (n, o)
  | an_object name ob l =>
      match write_one name ob o with
      | Some (k, o) => write_objects l (n + k) o
      | None => None
      end
  end
with write_one (name : bytes) (ob : object) (o : T) : option (Z * T) :=
  match ob with
  | OSettings s => write_object name SETTINGS_UUID (write_settings s) o
  | OForeign uuid content =>
      write_object name uuid (fun o => Some (Z.of_nat (length content), write_buffer content o)) o
  | OPlain => Some (0, o)
  end.

(** [Settings::write]; [save] is the environment variable [ZERO_SAVE_STATE]. *)
Definition Settings_write (save : bool) (s : settings) (o : T) : option (Z * T) :=
  if save then write_settings s o else Some (0, o).

End WriteSettings.

(** ** Input *)

Inductive input (A : Type) : Type :=
| Read (a : A)
| Throws
| NoFuel.
Arguments Read {A} a.
Arguments Throws {A}.
Arguments NoFuel {A}.

Definition ibind {A C : Type} (m : input A) (k : A -> input C) : input C :=
  match m with Read a => k a | Throws => Throws | NoFuel => NoFuel end.
Notation "'let^' ' p ':=' m 'in' k" := (ibind m (fun p => k))
  (at level 10, p pattern, m at level 100, k at level 200).

(** [CStream::read_buffer] on what is left of a regular file: at its end nothing is read and
    the buffer is cleared; fewer bytes than asked for are an error. *)
Definition read_buffer (count : nat) (rest : bytes) : input (nat * bytes * bytes) :=
  match count, rest with
  | O, _ => Read (0%nat, [], rest)
  | _, [] => Read (0%nat, repeat NUL count, [])
  | _, _ => if (length rest <? count)%nat then Throws else Read (count, firstn count rest, skipn count rest)
  end.

(** Entries of a hash map: one that is there is replaced. *)
Fixpoint put {A : Type} (k : bytes) (a : A) (m : list (bytes * A)) : list (bytes * A) :=
  match m with
  | [] => [(k, a)]
  | (j, b) :: m => if decide (j = k) then (k, a) :: m else (j, b) :: put k a m
  end.

(** [set_object]: [None] is a [logic_error], an object of another class has the name. *)
Definition same_class (o p : object) : bool :=
  match o, p with
  | OSettings _, OSettings _ => true
  | OForeign u _, OForeign v _ => bool_decide (u = v)
  | OPlain, OPlain => true
  | _, _ => false
  end.
Fixpoint put_object (k : bytes) (o : object) (m : objects) : option objects :=
  match m with
  | no_objects => Some (an_object k o no_objects)
  | an_object j p m =>
      if decide (j = k) then (if same_class p o then Some (an_object k o m) else None)
      else match put_object k o m with Some m => Some (an_object j p m) | None => None end
  end.

(** The events of [Settings]. *)
Definition on_word (name : bytes) (v : Z) (s : settings) : settings :=
  match s with mk_settings w d t o q => mk_settings (put name v w) d t o q end.
Definition on_double (name : bytes) (v : Z) (s : settings) : settings :=
  match s with mk_settings w d t o q => mk_settings w (put name v d) t o q end.
Definition on_string (name v : bytes) (s : settings) : settings :=
  match s with mk_settings w d t o q => mk_settings w d (put name v t) o q end.
Definition on_opaque (v : bytes) (s : settings) : settings :=
  match s with mk_settings w d t o q => mk_settings w d t o (q ++ [v]) end.
Definition on_object (name : bytes) (ob : object) (s : settings) : input settings :=
  match s with
  | mk_settings w d t o q =>
      match put_object name ob o with Some o => Read (mk_settings w d t o q) | None => Throws end
  end.

Section Input.

(** The loop of [on_object_begin]: records are read into the new object until [size] bytes
    were read, or none. *)
Definition read_members (read : settings -> bytes -> input (nat * settings * bytes)) (size : Z)
  : nat -> nat -> settings -> bytes -> input (nat * settings * bytes) :=
  fix loop (fuel nread : nat) (s : settings) (rest : bytes) :=
    if Z.of_nat nread <? size then
      match fuel with
      | O => NoFuel
      | S fuel =>
          let^ '(n, s, rest) := read s rest in
          match n with O => Read (nread, s, rest) | _ => loop fuel (nread + n)%nat s rest end
      end
    else Read (nread, s, rest).

(** [CStream::read_object]. The factory knows the class of [Settings]. *)
Definition read_object (read : settings -> bytes -> input (nat * settings * bytes)) (fuel : nat)
    (desc : Descriptor) (raw name : bytes) (s : settings) (rest : bytes) : input (nat * settings * bytes) :=
  let^ '(n, uuid, rest) := read_buffer UUID_SIZE rest in
  let^ '(tmp, s, rest) :=
    (if decide (uuid = SETTINGS_UUID) then
       let^ '(nread, ob, rest) := read_members read (d_size desc) fuel 0 empty_settings rest in
       let^ 's := on_object name (OSettings ob) s in
       Read (nread, s, rest)
     else Read (0%nat, s, rest)) in
  if negb (tmp =? 0)%nat then Read ((n + tmp)%nat, s, rest)
  else if negb (d_size desc =? 0) then
    let^ '(_, content, rest) := read_buffer (Z.to_nat (d_size desc)) rest in
    let opaque := desc_bytes desc ++ raw ++ uuid ++ content in
    Read ((n + length opaque)%nat, on_opaque opaque s, rest)
  else Read (n, s, rest).

(** [Stream::read]: one record; the number of bytes, 0 at the end. *)
Definition read_step (read : settings -> bytes -> input (nat * settings * bytes)) (fuel : nat)
    (s : settings) (rest : bytes) : input (nat * settings * bytes) :=
  let^ '(n, db, rest) := read_buffer 8 rest in
  if (n =? 0)%nat then Read (0%nat, s, rest)
  else
    let desc := desc_of db in
    let^ '(k, raw, rest) := read_buffer (Z.to_nat (d_namelen desc)) rest in
    let n := (n + k)%nat in
    let name := cstr_of raw in
    let number := let^ '(k, v, rest) := read_buffer 8 rest in Read ((n + k)%nat, le_val v, rest) in
    let type := d_type desc in
    if Ascii.eqb type NUL then Read (n, s, rest)
    else if Ascii.eqb type "i"%char || Ascii.eqb type "x"%char then
      if d_size desc =? 8 then let^ '(n, v, rest) := number in Read (n, on_word name (signed64 v) s, rest) else Throws
    else if Ascii.eqb type "d"%char then
      if d_size desc =? 8 then let^ '(n, v, rest) := number in Read (n, on_double name v s, rest) else Throws
    else if Ascii.eqb type "s"%char then
      let^ '(k, v, rest) := read_buffer (Z.to_nat (d_size desc)) rest in
      Read ((n + k)%nat, on_string name (cstr_of v) s, rest)
    else if Ascii.eqb type "o"%char then
      let^ '(k, s, rest) := read_object read fuel desc raw name s rest in Read ((n + k)%nat, s, rest)
    else if Ascii.eqb type "b"%char then
      let^ '(k, _, rest) := read_buffer (Z.to_nat (d_size desc)) rest in Read ((n + k)%nat, s, rest)
    else Throws.

Fixpoint read (fuel : nat) (s : settings) (rest : bytes) : input (nat * settings * bytes) :=
  match fuel with
  | O => NoFuel
  | S fuel => read_step (read fuel) fuel s rest
  end.

(** The loop of [DebuggerBase::properties]: all records of the file. *)
Fixpoint read_all (fuel : nat) (s : settings) (rest : bytes) : input settings :=
  match fuel with
  | O => NoFuel
  | S fuel' =>
      let^ '(n, s, rest) := read fuel s rest in
      match n with O => Read s | _ => read_all fuel' s rest end
  end.

(** The part of [DebuggerBase::properties] that reads the file. Before it the class of the
    history is registered with the factory and [config_path] is set; here the factory knows
    the class of [Settings] only, and the settings are empty, as for a file that is read on its
    own. There is a record for every 8 bytes at most. *)
Definition read_file (f : file) : input settings :=
  read_all (S (length (data f))) empty_settings (data f).

End Input.
