(* ===== verification/StreamCorrect.v ===== *)
(** * Settings survive a file

    What [Settings::write] writes, to a file or to a buffer, is the encoding of the settings;
    reading it gives the settings back. *)
From S2P Require Import Prelude CLib Properties Stream.
From stdpp Require Import base list gmap strings.
Local Open Scope Z_scope.

(** ** Numbers *)

Lemma length_le n v : length (little n v) = n.
Proof. revert v. induction n as [|n IH]; intros v; cbn; auto. Qed.

Lemma code_char n : code (char_of_int n) = n mod 256.
Proof.
  unfold code, char_of_int. assert (0 <= n mod 256 < 256) by (apply Z.mod_pos_bound; lia).
  rewrite N_ascii_embedding by lia. lia.
Qed.

Lemma le_val_le n v : le_val (little n v) = v mod 256 ^ Z.of_nat n.
Proof.
  revert v. induction n as [|n IH]; intros v; cbn [little le_val].
  - change (256 ^ Z.of_nat 0) with 1. now rewrite Z.mod_1_r.
  - rewrite code_char, IH, Nat2Z.inj_succ, Z.pow_succ_r by lia.
    rewrite (Z.rem_mul_r v 256 (256 ^ Z.of_nat n)) by (try apply Z.pow_pos_nonneg; lia). lia.
Qed.

Lemma signed64_le v : - 2 ^ 63 <= v < 2 ^ 63 -> signed64 (le_val (little 8 v)) = v.
Proof.
  intros H. rewrite le_val_le. change (256 ^ Z.of_nat 8) with (2 ^ 64). unfold signed64.
  destruct (Z.ltb_spec v 0).
  - rewrite <- (Z.mod_add v 1) by lia. rewrite Z.mod_small by lia. destruct (Z.ltb_spec (v + 1 * 2 ^ 64) (2 ^ 63)); lia.
  - rewrite Z.mod_small by lia. destruct (Z.ltb_spec v (2 ^ 63)); lia.
Qed.

(** ** Descriptors *)

Lemma length_desc d : length (desc_bytes d) = 8%nat.
Proof. unfold desc_bytes. cbn. reflexivity. Qed.

Definition desc_ok (d : Descriptor) : Prop := d_flags d = 0 /\ 0 <= d_namelen d < 2 ^ 16 /\ 0 <= d_size d < 2 ^ 32.

Lemma desc_of_bytes d r : desc_ok d -> desc_of (desc_bytes d ++ r) = d.
Proof.
  destruct d as [t f n s]. intros (Hf & Hn & Hs). cbn in Hf, Hn, Hs. unfold desc_of, desc_bytes.
  cbn [d_type d_flags d_namelen d_size app nth].
  rewrite <- !app_assoc. set (x := little 2 n ++ little 4 s ++ r).
  change (skipn 2 (t :: char_of_int f :: x)) with x. change (skipn 4 (t :: char_of_int f :: x)) with (skipn 2 x).
  unfold x.
  assert (firstn 2 (little 2 n ++ little 4 s ++ r) = little 2 n) as -> by (rewrite firstn_app, length_le, Nat.sub_diag, firstn_O, app_nil_r; apply firstn_all2; rewrite length_le; lia).
  assert (skipn 2 (little 2 n ++ little 4 s ++ r) = little 4 s ++ r) as -> by (rewrite skipn_app, length_le, skipn_all2 by (rewrite length_le; lia); now rewrite Nat.sub_diag, skipn_O).
  assert (firstn 4 (little 4 s ++ r) = little 4 s) as -> by (rewrite firstn_app, length_le, Nat.sub_diag, firstn_O, app_nil_r; apply firstn_all2; rewrite length_le; lia).
  rewrite !le_val_le, code_char. change (256 ^ Z.of_nat 2) with (2 ^ 16). change (256 ^ Z.of_nat 4) with (2 ^ 32).
  subst f. now rewrite !Z.mod_small by lia.
Qed.

(** A text that is a name: a C string whose length fits in 16 bits. *)
Definition name_ok (name : bytes) : Prop := no_nul name = true /\ Z.of_nat (length name) < 2 ^ 16.

Lemma describe_name type name size : name_ok name -> d_namelen (describe type name size) = Z.of_nat (length name).
Proof. intros [_ H]. cbn. apply Z.mod_small. lia. Qed.

Lemma name_bytes_ok type name size : name_ok name -> name_bytes (describe type name size) name = name.
Proof. intros H. unfold name_bytes. rewrite describe_name by done. rewrite Nat2Z.id. apply firstn_all. Qed.

Lemma describe_size type name size : 0 <= size < 2 ^ 32 -> d_size (describe type name size) = size.
Proof. intros H. cbn. now apply Z.mod_small. Qed.

Lemma describe_ok type name size : desc_ok (describe type name size).
Proof. unfold desc_ok. cbn. split; [done|]. split; apply Z.mod_pos_bound; lia. Qed.

(** ** The encoding *)

Definition record_ (type : ascii) (name value : bytes) : bytes :=
  desc_bytes (describe type name (Z.of_nat (length value))) ++ name ++ value.

Definition object_record (name uuid content : bytes) : bytes :=
  desc_bytes (describe "o"%char name (Z.of_nat (length content))) ++ name ++ uuid ++ content.

Definition word_record (e : bytes * Z) : bytes := record_ "x"%char e.1 (little 8 e.2).
Definition double_record (e : bytes * Z) : bytes := record_ "d"%char e.1 (little 8 e.2).
Definition string_record (e : bytes * bytes) : bytes := record_ "s"%char e.1 e.2.

Fixpoint encode (s : settings) : bytes :=
  match s with
  | mk_settings words doubles strings objs opaque =>
      concat (map word_record words) ++ concat (map double_record doubles) ++
      concat (map string_record strings) ++ encode_objects objs ++ concat opaque
  end
with encode_objects (l : objects) : bytes :=
  match l with
  | no_objects => []
  | an_object name o l => encode_object name o ++ encode_objects l
  end
with encode_object (name : bytes) (o : object) : bytes :=
  match o with
  | OSettings s => object_record name SETTINGS_UUID (encode s)
  | OForeign uuid content => object_record name uuid content
  | OPlain => []
  end.

(** What is known of the settings. *)
Definition opaque_ok (q : bytes) : Prop :=
  exists name uuid content, q = object_record name uuid content /\ name_ok name /\
    length uuid = UUID_SIZE /\ uuid <> SETTINGS_UUID /\ content <> [] /\
    Z.of_nat (length content) + 2 ^ 16 < 2 ^ 32.

Fixpoint storable (s : settings) : Prop :=
  match s with
  | mk_settings words doubles strings objs opaque =>
      Forall (fun e => name_ok e.1 /\ - 2 ^ 63 <= e.2 < 2 ^ 63) words /\
      Forall (fun e => name_ok e.1 /\ 0 <= e.2 < 2 ^ 64) doubles /\
      Forall (fun e => name_ok e.1 /\ no_nul e.2 = true /\ Z.of_nat (length e.2) < 2 ^ 32) strings /\
      storable_objects objs /\ Forall opaque_ok opaque
  end
with storable_objects (l : objects) : Prop :=
  match l with
  | no_objects => True
  | an_object name o l => name_ok name /\ storable_object o /\ storable_objects l
  end
with storable_object (o : object) : Prop :=
  match o with
  | OSettings s => storable s /\ Z.of_nat (length (encode s)) < 2 ^ 32
  | OForeign uuid content => length uuid = UUID_SIZE /\ Z.of_nat (length content) + 2 ^ 16 < 2 ^ 32
  | OPlain => True
  end.

Scheme settings_mut := Induction for settings Sort Prop
with objects_mut := Induction for objects Sort Prop
with object_mut := Induction for object Sort Prop.
Combined Scheme settings_mutind from settings_mut, objects_mut, object_mut.

(** ** Writing *)

(** What a stream promises: [holds o b] when [b] is what was written and more goes behind it. *)
Class StreamLaws (T : Type) `{OutputStream T} := {
  holds : T -> bytes -> Prop;
  write_holds : forall o b x, holds o b -> holds (write_buffer x o) (b ++ x);
  patch_holds : forall o b x y size, holds o (b ++ x ++ y) -> length x = 4%nat ->
    holds (patch_size (length y) size o) (b ++ little 4 size ++ y)
}.

Lemma firstn_app_exact {A} (a b : list A) : firstn (length a) (a ++ b) = a.
Proof. now rewrite firstn_app, firstn_all, Nat.sub_diag, firstn_O, app_nil_r. Qed.

Lemma skipn_app_exact {A} n (a b : list A) : skipn (length a + n) (a ++ b) = skipn n b.
Proof. rewrite skipn_app, skipn_all2 by lia. cbn. f_equal. lia. Qed.

#[export] Instance BStream_laws : StreamLaws bytes.
Proof.
  refine {| holds := fun (o : bytes) b => o = b |}.
  - intros o b x ->. reflexivity.
  - intros o b x y size -> Hx. cbn [patch_size BStream].
    rewrite !length_app, Hx. replace (length b + (4 + length y) - (length y + 4))%nat with (length b) by lia.
    rewrite firstn_app_exact, skipn_app_exact. do 2 f_equal.
    rewrite <- Hx. now rewrite skipn_app, skipn_all, Nat.sub_diag, skipn_O.
Defined.

#[export] Instance FileStream_laws : StreamLaws file.
Proof.
  refine {| holds := fun f b => data f = b /\ position f = length b |}.
  - intros f b x [Hd Hp]. cbn. rewrite Hd, Hp. split; [|now rewrite length_app].
    rewrite firstn_all, skipn_all2 by lia. now rewrite app_nil_r.
  - intros f b x y size [Hd Hp] Hx. cbn [patch_size FileStream data position sys_write].
    rewrite Hd, Hp, !length_app, Hx, length_le.
    replace (length b + (4 + length y) - (length y + 4))%nat with (length b) by lia.
    rewrite firstn_app_exact, skipn_app_exact. split; [|lia]. do 2 f_equal.
    rewrite <- Hx. now rewrite skipn_app, skipn_all, Nat.sub_diag, skipn_O.
Defined.

Section Writing.
Context {T : Type} `{StreamLaws T}.

(** A writer that writes [x]. *)
Definition writes (f : T -> option (Z * T)) (x : bytes) : Prop :=
  forall o b, holds o b -> exists o', f o = Some (Z.of_nat (length x), o') /\ holds o' (b ++ x).

Lemma write_record_writes type name size value : name_ok name -> Z.of_nat (length value) = size -> size < 2 ^ 32 ->
  writes (fun o => Some (write_record type name size value o)) (record_ type name value).
Proof.
  intros Hn <- Hs o b Ho. unfold write_record. rewrite name_bytes_ok, describe_name by done.
  assert (d_size (describe type name (Z.of_nat (length value))) = Z.of_nat (length value)) as -> by (cbn; apply Z.mod_small; lia).
  rewrite Nat2Z.id, firstn_all. eexists. split.
  - unfold record_. rewrite !length_app, length_desc. do 2 f_equal. lia.
  - unfold record_. rewrite !app_assoc. now do 3 apply write_holds.
Qed.

Lemma write_all_writes {A} (f : A -> T -> option (Z * T)) (g : A -> bytes) l :
  Forall (fun a => writes (f a) (g a)) l ->
  forall n o b, holds o b -> exists o', write_all f l n o = Some (n + Z.of_nat (length (concat (map g l))), o') /\
    holds o' (b ++ concat (map g l)).
Proof.
  induction 1 as [|a l Ha Hl IH]; intros n o b Ho; cbn [write_all map concat].
  - exists o. rewrite app_nil_r. cbn. split; [do 2 f_equal; lia | done].
  - destruct (Ha o b Ho) as (o1 & -> & H1). destruct (IH (n + Z.of_nat (length (g a))) o1 _ H1) as (o2 & -> & H2).
    exists o2. rewrite length_app, app_assoc. split; [do 2 f_equal; lia | done].
Qed.

Lemma write_object_writes name uuid x f : name_ok name -> length uuid = UUID_SIZE -> Z.of_nat (length x) < 2 ^ 32 ->
  writes f x -> writes (write_object name uuid f) (object_record name uuid x).
Proof.
  intros Hn Hu Hx Hf o b Ho. unfold write_object. rewrite name_bytes_ok, describe_name by done.
  set (desc := describe "o" name 0xFE).
  destruct (Hf (write_buffer uuid (write_buffer name (write_buffer (desc_bytes desc) o)))
    (((b ++ desc_bytes desc) ++ name) ++ uuid)) as (o1 & -> & H1); [now do 3 apply write_holds|].
  rewrite (Z.mod_small (Z.of_nat (length x))) by lia. rewrite !Nat2Z.id.
  eexists. split.
  - unfold object_record. rewrite !length_app, length_desc, Hu. do 2 f_equal. unfold UUID_SIZE. lia.
  - replace (length x + UUID_SIZE + length name)%nat with (length (name ++ uuid ++ x)) by (rewrite !length_app; lia).
    set (P := "o"%char :: char_of_int 0 :: little 2 (Z.of_nat (length name) mod 2 ^ 16)).
    assert (forall sz, desc_bytes (describe "o" name sz) = P ++ little 4 (sz mod 2 ^ 32)) as Hdesc by reflexivity.
    unfold object_record. rewrite Hdesc, (Z.mod_small (Z.of_nat (length x))) by lia.
    replace (b ++ (P ++ little 4 (Z.of_nat (length x))) ++ name ++ uuid ++ x)
      with ((b ++ P) ++ little 4 (Z.of_nat (length x)) ++ name ++ uuid ++ x) by now rewrite <- !app_assoc.
    apply (patch_holds _ _ (little 4 (0xFE mod 2 ^ 32))); [|apply length_le].
    unfold desc in H1. rewrite Hdesc in H1. rewrite <- !app_assoc in H1. rewrite <- !app_assoc. exact H1.
Qed.

Lemma concat_map_id {A} (l : list (list A)) : concat (map (fun x => x) l) = concat l.
Proof. now rewrite map_id. Qed.

Lemma write_opaque_writes q : opaque_ok q -> writes (write_opaque q) q.
Proof.
  intros (name & uuid & content & -> & Hn & Hu & _ & _ & Hc) o b Ho. unfold write_opaque.
  assert (length (object_record name uuid content) = 8 + length name + UUID_SIZE + length content)%nat as Hlen.
  { unfold object_record. rewrite !length_app, length_desc, Hu. lia. }
  rewrite Hlen. replace (_ <? 8)%nat with false by lia. unfold object_record at 1 2 3.
  rewrite desc_of_bytes by apply describe_ok. rewrite describe_name by done. cbn [describe d_type d_size].
  destruct Hn as [_ Hn].
  rewrite (Z.mod_small (Z.of_nat (length content))) by lia. rewrite Z.mod_small by lia.
  change (Ascii.eqb "o" "o") with true. cbn [negb orb].
  replace (_ =? _) with true by (unfold UUID_SIZE in *; lia). cbn [negb].
  eexists. split; [reflexivity | now apply write_holds].
Qed.

Lemma writes_settings :
  (forall s, storable s -> writes (write_settings 64 s) (encode s)) /\
  (forall l, storable_objects l -> forall n o b, holds o b ->
     exists o', write_objects 64 l n o = Some (n + Z.of_nat (length (encode_objects l)), o') /\ holds o' (b ++ encode_objects l)) /\
  (forall ob, storable_object ob -> forall name, name_ok name -> writes (write_one 64 name ob) (encode_object name ob)).
Proof.
  apply settings_mutind.
  - intros words doubles strings objs IH opaque (Hw & Hd & Ht & Ho & Hq) o b Hb0. cbn [write_settings encode].
    destruct (write_all_writes (fun e o => Some (write_word 64 e.1 e.2 o)) word_record words) with (n := 0) (o := o) (b := b)
      as (o1 & -> & H1); [|done|].
    { eapply Forall_impl; [exact Hw|]. intros e [He _]. now apply write_record_writes. }
    destruct (write_all_writes (fun e o => Some (write_double e.1 e.2 o)) double_record doubles)
      with (n := 0 + Z.of_nat (length (concat (map word_record words)))) (o := o1) (b := b ++ concat (map word_record words))
      as (o2 & -> & H2); [|done|].
    { eapply Forall_impl; [exact Hd|]. intros e [He _]. now apply write_record_writes. }
    edestruct (write_all_writes (fun e o => Some (write_string e.1 e.2 o)) string_record strings) as (o3 & -> & H3); [|exact H2|].
    { eapply Forall_impl; [exact Ht|]. intros e (He & _ & Hl). now apply write_record_writes. }
    edestruct (IH Ho) as (o4 & -> & H4); [exact H3|].
    edestruct (write_all_writes write_opaque (fun x => x) opaque) as (o5 & -> & H5); [|exact H4|].
    { eapply Forall_impl; [exact Hq|]. apply write_opaque_writes. }
    exists o5. rewrite concat_map_id in *. rewrite <- !app_assoc in H5. split; [|exact H5].
    rewrite !length_app. do 2 f_equal. lia.
  - intros _ n o b Ho. cbn. exists o. rewrite app_nil_r. split; [do 2 f_equal; lia | done].
  - intros name ob IHo l IHl (Hn & Hob & Hl) n o b Ho.
    change (write_objects 64 (an_object name ob l) n o) with
      (match write_one 64 name ob o with Some (k, o) => write_objects 64 l (n + k) o | None => None end).
    cbn [encode_objects]. fold (encode_object name ob).
    destruct (IHo Hob name Hn o b Ho) as (o1 & -> & H1). edestruct (IHl Hl) as (o2 & -> & H2); [exact H1|].
    exists o2. rewrite length_app, app_assoc. split; [do 2 f_equal; lia | done].
  - intros s IH [Hs Hl] name Hn. cbn [write_one encode_object]. apply write_object_writes; auto.
  - intros uuid content (Hu & Hc) name Hn. cbn [write_one encode_object]. apply write_object_writes; auto; [lia|].
    intros o b Ho. eexists. split; [reflexivity | now apply write_holds].
  - intros _ name Hn o b Ho. cbn. exists o. now rewrite app_nil_r.
Qed.

End Writing.

(** ** Reading *)

Lemma read_buffer_app x rest n : n = length x -> read_buffer n (x ++ rest) = Read (n, x, rest).
Proof.
  intros ->. unfold read_buffer. destruct x as [|c x]; [done|]. cbn [length app].
  replace (S (length (x ++ rest)) <? S (length x))%nat with false by (rewrite length_app; lia).
  change (c :: x ++ rest) with ((c :: x) ++ rest). change (S (length x)) with (length (c :: x)).
  rewrite firstn_app_exact. rewrite <- (Nat.add_0_r (length (c :: x))) at 2. now rewrite skipn_app_exact, skipn_O.
Qed.

(** [read] of one record that is in front of something else. *)
Definition reads (r : bytes) (a b : settings) : Prop :=
  r <> [] /\ forall fuel rest, (length r < fuel)%nat -> read fuel a (r ++ rest) = Read (length r, b, rest).

Lemma desc_nonempty d (r : bytes) : desc_bytes d ++ r <> [].
Proof. discriminate. Qed.

Lemma desc_of_self d : desc_ok d -> desc_of (desc_bytes d) = d.
Proof. intros H. rewrite <- (app_nil_r (desc_bytes d)). now apply desc_of_bytes. Qed.

Ltac read_head :=
  rewrite read_buffer_app by (symmetry; apply length_desc); cbn [ibind Nat.eqb];
  rewrite desc_of_self by apply describe_ok;
  rewrite describe_name, Nat2Z.id by done; rewrite read_buffer_app by done; cbn [ibind];
  cbn [describe d_type d_size].

Lemma reads_number type name v (on : bytes -> Z -> settings -> settings) (dec : Z -> Z) a :
  (type = "x"%char /\ on = on_word /\ dec = signed64) \/ (type = "d"%char /\ on = on_double /\ dec = fun z => z) ->
  name_ok name -> dec (le_val (little 8 v)) = v ->
  reads (record_ type name (little 8 v)) a (on name v a).
Proof.
  intros Hc Hn Hv. split; [apply desc_nonempty|]. intros fuel rest Hf.
  destruct fuel as [|fuel]; [unfold record_ in Hf; rewrite length_app, length_desc in Hf; lia|].
  cbn [read]. unfold read_step, record_ at 1. rewrite <- !app_assoc. read_head.
  rewrite length_le. change (Z.of_nat 8 mod 2 ^ 32) with 8. rewrite (read_buffer_app (little 8 v)) by (now rewrite length_le).
  cbn [ibind]. rewrite cstr_of_no_nul by apply Hn.
  assert (8 + length name + 8 = length (record_ type name (little 8 v)))%nat as ->
    by (unfold record_; rewrite !length_app, length_desc, length_le; lia).
  destruct Hc as [(-> & -> & ->)|(-> & -> & ->)]; cbn [Ascii.eqb Bool.eqb orb Z.eqb Pos.eqb]; rewrite Hv; reflexivity.
Qed.

Lemma reads_string name v a : name_ok name -> no_nul v = true -> Z.of_nat (length v) < 2 ^ 32 ->
  reads (record_ "s" name v) a (on_string name v a).
Proof.
  intros Hn Hv Hl. split; [apply desc_nonempty|]. intros fuel rest Hf.
  destruct fuel as [|fuel]; [unfold record_ in Hf; rewrite length_app, length_desc in Hf; lia|].
  cbn [read]. unfold read_step, record_ at 1. rewrite <- !app_assoc. read_head.
  cbn [Ascii.eqb Bool.eqb orb].
  rewrite (Z.mod_small (Z.of_nat (length v))), Nat2Z.id by lia. rewrite read_buffer_app by done. cbn [ibind].
  rewrite !cstr_of_no_nul by (done || apply Hn).
  unfold record_. now rewrite !length_app, length_desc, Nat.add_assoc.
Qed.

(** *** Sequences of records *)

Inductive chain : list bytes -> settings -> settings -> Prop :=
| chain_nil a : chain [] a a
| chain_cons r l a b c : reads r a b -> chain l b c -> chain (r :: l) a c.

Lemma chain_app l m a b c : chain l a b -> chain m b c -> chain (l ++ m) a c.
Proof. induction 1; cbn; [done|]. intros. econstructor; eauto. Qed.

Lemma length_concat_cons {A} (r : list A) l : length (concat (r :: l)) = (length r + length (concat l))%nat.
Proof. cbn. apply length_app. Qed.

(** The members of an object. *)
Lemma read_members_chain l a b fuel k n rest size : chain l a b ->
  (length (concat l) < fuel)%nat -> (length (concat l) <= k)%nat ->
  size = Z.of_nat (n + length (concat l)) ->
  read_members (read fuel) size k n a (concat l ++ rest) = Read ((n + length (concat l))%nat, b, rest).
Proof.
  intros Hc. revert k n. induction Hc as [a|r l a b c [Hr Hreads] Hc IH]; intros k n Hf Hk Hs.
  - cbn [concat length app] in *. rewrite Nat.add_0_r in *. destruct k; cbn; replace (Z.of_nat n <? size) with false by lia; reflexivity.
  - rewrite length_concat_cons in *. destruct r as [|x r]; [done|]. cbn [length] in *.
    destruct k as [|k]; [lia|]. cbn [read_members]. replace (Z.of_nat n <? size) with true by lia.
    cbn [concat]. rewrite <- app_assoc. rewrite Hreads by (cbn [length]; lia). cbn [ibind length].
    rewrite IH by lia. do 2 f_equal. f_equal. lia.
Qed.

(** *** What is read *)

Fixpoint app_objects (l m : objects) : objects :=
  match l with no_objects => m | an_object name o l => an_object name o (app_objects l m) end.

Fixpoint names (l : objects) : list bytes :=
  match l with no_objects => [] | an_object name _ l => name :: names l end.

(** The records of objects of other classes that are not empty. *)
Fixpoint foreign (l : objects) : list bytes :=
  match l with
  | no_objects => []
  | an_object name (OForeign uuid content) l =>
      match content with [] => foreign l | _ => object_record name uuid content :: foreign l end
  | an_object _ _ l => foreign l
  end.

(** Objects of the class [Settings] come back; others are kept as records. *)
Fixpoint reread (s : settings) : settings :=
  match s with
  | mk_settings words doubles strings objs opaque =>
      mk_settings words doubles strings (kept objs) (foreign objs ++ opaque)
  end
with kept (l : objects) : objects :=
  match l with
  | no_objects => no_objects
  | an_object name (OSettings s) l => an_object name (OSettings (reread s)) (kept l)
  | an_object _ _ l => kept l
  end.

(** Names are used once in each map, and objects inside of objects are all [Settings]. *)
Fixpoint pure (s : settings) : Prop :=
  match s with
  | mk_settings words doubles strings objs opaque =>
      NoDup words.*1 /\ NoDup doubles.*1 /\ NoDup strings.*1 /\ NoDup (names (kept objs)) /\ opaque = [] /\ pure_objects objs
  end
with pure_objects (l : objects) : Prop :=
  match l with no_objects => True | an_object _ o l => pure_object o /\ pure_objects l end
with pure_object (o : object) : Prop :=
  match o with OSettings s => pure s | OForeign _ _ => False | OPlain => True end.

(** In the settings of the file themselves there may be objects of other classes. *)
Fixpoint root_objects (l : objects) : Prop :=
  match l with
  | no_objects => True
  | an_object _ o l =>
      match o with OSettings s => pure s | OForeign uuid _ => uuid <> SETTINGS_UUID | OPlain => True end /\ root_objects l
  end.
Definition root (s : settings) : Prop :=
  match s with
  | mk_settings words doubles strings objs opaque =>
      NoDup words.*1 /\ NoDup doubles.*1 /\ NoDup strings.*1 /\ NoDup (names (kept objs)) /\ root_objects objs
  end.

Lemma put_new {A} k (v : A) m : k ∉ m.*1 -> put k v m = m ++ [(k, v)].
Proof.
  induction m as [|[j b] m IH]; cbn; [done|]. rewrite not_elem_of_cons. intros [H1 H2].
  rewrite decide_False by congruence. now rewrite IH.
Qed.

Lemma put_object_new k o m : k ∉ names m -> put_object k o m = Some (app_objects m (an_object k o no_objects)).
Proof.
  induction m as [|j b m IH]; cbn; [done|]. rewrite not_elem_of_cons. intros [H1 H2].
  rewrite decide_False by congruence. now rewrite IH.
Qed.

Lemma app_objects_assoc l m n : app_objects (app_objects l m) n = app_objects l (app_objects m n).
Proof. induction l; cbn; congruence. Qed.

Lemma app_objects_nil l : app_objects l no_objects = l.
Proof. induction l; cbn; congruence. Qed.

Lemma names_app l m : names (app_objects l m) = names l ++ names m.
Proof. induction l; cbn; congruence. Qed.

Lemma NoDup_mid {A} (l m : list A) x : NoDup (l ++ x :: m) -> x ∉ l.
Proof. rewrite NoDup_app. intros (_ & H & _) Hx. apply (H x Hx). left. Qed.

Lemma chain_words w0 words d t o q : NoDup (w0 ++ words).*1 ->
  Forall (fun e => name_ok e.1 /\ - 2 ^ 63 <= e.2 < 2 ^ 63) words ->
  chain (map word_record words) (mk_settings w0 d t o q) (mk_settings (w0 ++ words) d t o q).
Proof.
  intros Hd Hw. revert w0 Hd. induction Hw as [|[k v] words [Hn Hv] Hw IH]; intros w0 Hd; cbn [map].
  - rewrite app_nil_r. constructor.
  - rewrite fmap_app in Hd. cbn in Hd. econstructor.
    + unfold word_record. cbn [fst snd]. apply (reads_number "x" k v on_word signed64); [auto | done | now apply signed64_le].
    + cbn [on_word]. rewrite put_new by now apply NoDup_mid in Hd.
      replace (w0 ++ (k, v) :: words) with ((w0 ++ [(k, v)]) ++ words) by now rewrite <- app_assoc.
      apply IH. rewrite !fmap_app. cbn. now rewrite <- app_assoc.
Qed.

Lemma chain_doubles w d0 doubles t o q : NoDup (d0 ++ doubles).*1 ->
  Forall (fun e => name_ok e.1 /\ 0 <= e.2 < 2 ^ 64) doubles ->
  chain (map double_record doubles) (mk_settings w d0 t o q) (mk_settings w (d0 ++ doubles) t o q).
Proof.
  intros Hd Hw. revert d0 Hd. induction Hw as [|[k v] doubles [Hn Hv] Hw IH]; intros d0 Hd; cbn [map].
  - rewrite app_nil_r. constructor.
  - rewrite fmap_app in Hd. cbn in Hd. econstructor.
    + unfold double_record. cbn [fst snd]. apply (reads_number "d" k v on_double (fun z => z)); [auto | done|].
      rewrite le_val_le. apply Z.mod_small. exact Hv.
    + cbn [on_double]. rewrite put_new by now apply NoDup_mid in Hd.
      replace (d0 ++ (k, v) :: doubles) with ((d0 ++ [(k, v)]) ++ doubles) by now rewrite <- app_assoc.
      apply IH. rewrite !fmap_app. cbn. now rewrite <- app_assoc.
Qed.

Lemma chain_strings w d t0 strings o q : NoDup (t0 ++ strings).*1 ->
  Forall (fun e => name_ok e.1 /\ no_nul e.2 = true /\ Z.of_nat (length e.2) < 2 ^ 32) strings ->
  chain (map string_record strings) (mk_settings w d t0 o q) (mk_settings w d (t0 ++ strings) o q).
Proof.
  intros Hd Hw. revert t0 Hd. induction Hw as [|[k v] strings (Hn & Hv & Hl) Hw IH]; intros t0 Hd; cbn [map].
  - rewrite app_nil_r. constructor.
  - rewrite fmap_app in Hd. cbn in Hd. econstructor.
    + now apply reads_string.
    + cbn [on_string fst snd]. rewrite put_new by now apply NoDup_mid in Hd.
      replace (t0 ++ (k, v) :: strings) with ((t0 ++ [(k, v)]) ++ strings) by now rewrite <- app_assoc.
      apply IH. rewrite !fmap_app. cbn. now rewrite <- app_assoc.
Qed.

(** The records of the objects and of settings. *)
Fixpoint object_records (l : objects) : list bytes :=
  match l with
  | no_objects => []
  | an_object _ OPlain l => object_records l
  | an_object name o l => encode_object name o :: object_records l
  end.

Lemma encode_object_records l : encode_objects l = concat (object_records l).
Proof. induction l as [|name o l IH]; cbn [encode_objects object_records]; [done|]. destruct o; cbn; now rewrite IH. Qed.

Definition records (s : settings) : list bytes :=
  match s with
  | mk_settings words doubles strings objs opaque =>
      map word_record words ++ map double_record doubles ++ map string_record strings ++ object_records objs ++ opaque
  end.

Lemma encode_records s : encode s = concat (records s).
Proof. destruct s. cbn [encode records]. now rewrite !concat_app, encode_object_records. Qed.

Definition add_object (name : bytes) (ob : object) (s : settings) : settings :=
  match s with mk_settings w d t o q => mk_settings w d t (app_objects o (an_object name ob no_objects)) q end.

Definition object_names (s : settings) : list bytes := match s with mk_settings _ _ _ o _ => names o end.

Lemma length_object_record name uuid content : length uuid = UUID_SIZE ->
  length (object_record name uuid content) = (8 + length name + UUID_SIZE + length content)%nat.
Proof. intros Hu. unfold object_record. rewrite !length_app, length_desc, Hu. lia. Qed.

(** A nested object whose members form a sequence. *)
Lemma reads_settings name l b a : name_ok name -> chain l empty_settings b -> Z.of_nat (length (concat l)) < 2 ^ 32 ->
  name ∉ object_names a -> reads (object_record name SETTINGS_UUID (concat l)) a (add_object name (OSettings b) a).
Proof.
  intros Hn Hc Hl Hfresh. split; [apply desc_nonempty|]. intros fuel rest Hf.
  rewrite length_object_record in * by done.
  destruct fuel as [|fuel]; [lia|]. cbn [read]. unfold read_step, object_record at 1. rewrite <- !app_assoc. read_head.
  change (Ascii.eqb "o" NUL) with false. cbn [Ascii.eqb Bool.eqb orb].
  unfold read_object. rewrite read_buffer_app by done. cbn [ibind]. rewrite decide_True by done.
  rewrite describe_size by lia.
  rewrite (read_members_chain l empty_settings b fuel fuel 0 rest) by (done || lia). cbn [ibind].
  rewrite cstr_of_no_nul by apply Hn. destruct a as [w d t o q]. cbn [on_object object_names] in *.
  rewrite put_object_new by done. cbn [ibind]. cbn [Nat.add].
  destruct (Nat.eqb_spec (length (concat l)) 0) as [E|E]; cbn [negb].
  - rewrite E. change (Z.of_nat 0 =? 0) with true. cbn [negb ibind add_object]. do 3 f_equal. lia.
  - cbn [ibind add_object]. do 3 f_equal. lia.
Qed.

(** The objects are [Settings] whose records can be read. *)
Fixpoint nested (l : objects) : Prop :=
  match l with
  | no_objects => True
  | an_object _ (OSettings s) l => chain (records s) empty_settings (reread s) /\ nested l
  | an_object _ (OForeign _ _) l => False
  | an_object _ OPlain l => nested l
  end.

Lemma chain_objects l w d t o q : nested l ->
  storable_objects l -> NoDup (names (app_objects o (kept l))) ->
  chain (object_records l) (mk_settings w d t o q) (mk_settings w d t (app_objects o (kept l)) q).
Proof.
  revert o. induction l as [|name ob l IH]; intros o Hnest Hst Hdup; cbn [object_records kept].
  - rewrite app_objects_nil. constructor.
  - destruct Hst as (Hn & Hob & Hst). destruct ob as [s| |]; [|done|now apply IH].
    destruct Hnest as [Hc Hnest]. destruct Hob as [Hs Hlen]. cbn [kept] in Hdup. econstructor.
    + cbn [encode_object]. rewrite encode_records in *. apply reads_settings; [done | exact Hc | done|].
      cbn. rewrite names_app in Hdup. cbn in Hdup. now apply NoDup_mid in Hdup.
    + cbn [add_object]. replace (app_objects o (an_object name (OSettings (reread s)) (kept l)))
        with (app_objects (app_objects o (an_object name (OSettings (reread s)) no_objects)) (kept l))
        by now rewrite app_objects_assoc.
      apply IH; [done | done|]. rewrite app_objects_assoc. exact Hdup.
Qed.

(** The words, floating point numbers and strings come first. *)
Lemma chain_body words doubles strings m b :
  Forall (fun e => name_ok e.1 /\ - 2 ^ 63 <= e.2 < 2 ^ 63) words ->
  Forall (fun e => name_ok e.1 /\ 0 <= e.2 < 2 ^ 64) doubles ->
  Forall (fun e => name_ok e.1 /\ no_nul e.2 = true /\ Z.of_nat (length e.2) < 2 ^ 32) strings ->
  NoDup words.*1 -> NoDup doubles.*1 -> NoDup strings.*1 ->
  chain m (mk_settings words doubles strings no_objects []) b ->
  chain (map word_record words ++ map double_record doubles ++ map string_record strings ++ m) empty_settings b.
Proof.
  intros Hw Hd Ht Nw Nd Nt Hm.
  eapply chain_app; [exact (chain_words [] words [] [] no_objects [] Nw Hw)|].
  eapply chain_app; [exact (chain_doubles words [] doubles [] no_objects [] Nd Hd)|].
  eapply chain_app; [exact (chain_strings words doubles [] strings no_objects [] Nt Ht) | exact Hm].
Qed.

Lemma pure_foreign l : pure_objects l -> foreign l = [].
Proof. induction l as [|name o l IH]; cbn; [done|]. destruct o; cbn; intros [H1 H2]; auto; contradiction. Qed.

Lemma pure_chain :
  (forall s, storable s -> pure s -> chain (records s) empty_settings (reread s)) /\
  (forall l, storable_objects l -> pure_objects l -> nested l) /\
  (forall o, storable_object o -> pure_object o ->
     match o with OSettings s => chain (records s) empty_settings (reread s) | OForeign _ _ => False | OPlain => True end).
Proof.
  apply settings_mutind.
  - intros words doubles strings objs IH opaque (Hw & Hd & Ht & Ho & _) (Nw & Nd & Nt & No & -> & Hp).
    cbn [records reread]. rewrite (pure_foreign _ Hp), app_nil_r. apply chain_body; auto.
    apply (chain_objects objs words doubles strings no_objects []); auto.
  - done.
  - intros name o IHo l IHl (Hn & Ho & Hl) [Po Pl]. cbn [nested]. specialize (IHo Ho Po). specialize (IHl Hl Pl).
    destruct o; [auto | done | done].
  - intros s IH [Hs _] Hp. auto.
  - done.
  - done.
Qed.

(** *** The records of a file *)

Definition reads_root (r : bytes) (a b : settings) : Prop :=
  r <> [] /\ forall fuel rest, (length r < fuel)%nat -> exists n, read fuel a (r ++ rest) = Read (S n, b, rest).

Inductive root_chain : list bytes -> settings -> settings -> Prop :=
| root_nil a : root_chain [] a a
| root_cons r l a b c : reads_root r a b -> root_chain l b c -> root_chain (r :: l) a c.

Lemma reads_to_root r a b : reads r a b -> reads_root r a b.
Proof.
  intros [Hr H]. split; [done|]. intros fuel rest Hf. rewrite H by done.
  destruct r as [|c r]; [done|]. now exists (length r).
Qed.

Lemma root_chain_app l m a b c : root_chain l a b -> root_chain m b c -> root_chain (l ++ m) a c.
Proof. induction 1; cbn; [done|]. intros. econstructor; eauto. Qed.

Lemma chain_root l a b : chain l a b -> root_chain l a b.
Proof. induction 1; econstructor; eauto using reads_to_root. Qed.

Lemma read_all_chain l a b fuel : root_chain l a b -> (length (concat l) < fuel)%nat -> read_all fuel a (concat l) = Read b.
Proof.
  intros Hc. revert fuel. induction Hc as [a|r l a b c [Hr Hreads] Hc IH]; intros fuel Hf.
  - destruct fuel as [|fuel]; [lia|]. reflexivity.
  - rewrite length_concat_cons in Hf. destruct fuel as [|fuel]; [lia|]. cbn [read_all].
    cbn [concat]. destruct (Hreads (S fuel) (concat l)) as [n ->]; [lia|]. cbn [ibind].
    apply IH. destruct r; [done|]. cbn [length] in Hf. lia.
Qed.

(** A record of another class. *)
Lemma reads_foreign name uuid content a : name_ok name -> length uuid = UUID_SIZE -> uuid <> SETTINGS_UUID ->
  Z.of_nat (length content) < 2 ^ 32 ->
  reads_root (object_record name uuid content) a
    (match content with [] => a | _ => on_opaque (object_record name uuid content) a end).
Proof.
  intros Hn Hu Hne Hl. split; [apply desc_nonempty|]. intros fuel rest Hf.
  rewrite length_object_record in * by done.
  destruct fuel as [|fuel]; [lia|]. cbn [read]. unfold read_step, object_record at 1. rewrite <- !app_assoc. read_head.
  change (Ascii.eqb "o" NUL) with false. cbn [Ascii.eqb Bool.eqb orb].
  unfold read_object. rewrite read_buffer_app by done. cbn [ibind]. rewrite decide_False by done. cbn [ibind Nat.eqb negb].
  rewrite describe_size by lia. rewrite Nat2Z.id.
  destruct content as [|c content].
  - change (Z.of_nat (length []) =? 0) with true. cbn [negb ibind length app Nat.add]. eauto.
  - replace (Z.of_nat (length (c :: content)) =? 0) with false by (cbn [length]; lia). cbn [negb].
    rewrite read_buffer_app by done. cbn [ibind Nat.add]. eauto.
Qed.

Lemma root_chain_objects l w d t o q : storable_objects l -> root_objects l -> NoDup (names (app_objects o (kept l))) ->
  root_chain (object_records l) (mk_settings w d t o q) (mk_settings w d t (app_objects o (kept l)) (q ++ foreign l)).
Proof.
  revert o q. induction l as [|name ob l IH]; intros o q Hst Hr Hdup; cbn [object_records kept foreign].
  - rewrite app_objects_nil, app_nil_r. constructor.
  - destruct Hst as (Hn & Hob & Hst), Hr as [Ho Hr]. destruct ob as [s|uuid content|]; [| |now apply IH].
    + destruct Hob as [Hs Hlen]. cbn [kept] in Hdup. econstructor.
      * cbn [encode_object]. rewrite encode_records in *. apply reads_to_root, reads_settings; [done | | done |].
        -- now apply pure_chain.
        -- cbn. rewrite names_app in Hdup. cbn in Hdup. now apply NoDup_mid in Hdup.
      * cbn [add_object]. replace (app_objects o (an_object name (OSettings (reread s)) (kept l)))
          with (app_objects (app_objects o (an_object name (OSettings (reread s)) no_objects)) (kept l))
          by now rewrite app_objects_assoc.
        apply IH; [done | done|]. rewrite app_objects_assoc. exact Hdup.
    + destruct Hob as [Hu Hc]. econstructor; [cbn [encode_object]; apply reads_foreign; auto; lia|].
      destruct content as [|c content]; [now apply IH|]. cbn [on_opaque].
      replace (q ++ object_record name uuid (c :: content) :: foreign l)
        with ((q ++ [object_record name uuid (c :: content)]) ++ foreign l) by now rewrite <- app_assoc.
      now apply IH.
Qed.

Lemma root_chain_opaque l w d t o q : Forall opaque_ok l ->
  root_chain l (mk_settings w d t o q) (mk_settings w d t o (q ++ l)).
Proof.
  intros H. revert q. induction H as [|r l (name & uuid & content & -> & Hn & Hu & Hne & Hc & Hl) H IH]; intros q.
  - rewrite app_nil_r. constructor.
  - econstructor; [apply reads_foreign; auto; lia|]. destruct content as [|c content]; [done|]. cbn [on_opaque].
    replace (q ++ object_record name uuid (c :: content) :: l)
      with ((q ++ [object_record name uuid (c :: content)]) ++ l) by now rewrite <- app_assoc. apply IH.
Qed.

Lemma root_records s : storable s -> root s -> root_chain (records s) empty_settings (reread s).
Proof.
  destruct s as [words doubles strings objs opaque]. intros (Hw & Hd & Ht & Ho & Hq) (Nw & Nd & Nt & No & Hr).
  cbn [records reread].
  replace (map word_record words ++ map double_record doubles ++ map string_record strings ++ object_records objs ++ opaque)
    with ((map word_record words ++ map double_record doubles ++ map string_record strings ++ []) ++ object_records objs ++ opaque)
    by now rewrite <- !app_assoc.
  eapply root_chain_app; [apply chain_root, chain_body; auto; constructor|].
  eapply root_chain_app; [apply (root_chain_objects objs words doubles strings no_objects []); auto|].
  now apply root_chain_opaque.
Qed.

(** What is written holds the encoding, in a file as in a buffer. *)
Lemma write_encode s f : storable s ->
  Settings_write 64 true s [] = Some (Z.of_nat (length (encode s)), encode s) /\
  exists f', Settings_write 64 true s (truncate f) = Some (Z.of_nat (length (encode s)), f') /\ data f' = encode s.
Proof.
  intros Hs.
  assert (holds (truncate f) []) as H1 by (split; reflexivity).
  assert (holds ([] : bytes) []) as H2 by reflexivity.
  destruct (proj1 (writes_settings (T := file)) s Hs (truncate f) [] H1) as (f' & E & Hf').
  destruct (proj1 (writes_settings (T := bytes)) s Hs [] [] H2) as (b' & E' & Hb).
  cbn in Hb, Hf'. subst b'. split; [exact E'|]. exists f'. split; [exact E | apply Hf'].
Qed.

Lemma read_encode s f : storable s -> root s -> data f = encode s -> read_file f = Read (reread s).
Proof.
  intros Hs Hr Hd. unfold read_file. rewrite Hd, encode_records. apply read_all_chain; [now apply root_records | lia].
Qed.


(** ** Examples *)

Definition some_settings : settings :=
  mk_settings [(B "opts", 513); (B "step_over", -1)] [(B "zoom", 4607182418800017408)] [(B "path", B "/tmp"); (B "empty", [])]
    (an_object (B "window") (OSettings (mk_settings [(B "x", 10)] [] [] 
       (an_object (B "inner") (OSettings (mk_settings [] [] [(B "font", B "mono")] no_objects [])) no_objects) []))
    (an_object (B "plugin") (OForeign (repeat "u"%char 16) (B "content")) no_objects)) [].

Lemma some_settings_ok : storable some_settings /\ root some_settings.
Proof.
  assert (forall a b : bytes, a <> b -> NoDup [a; b]) as Hd.
  { intros a b H. apply NoDup_cons. split; [|apply NoDup_singleton]. intros Hx. apply list_elem_of_singleton in Hx. congruence. }
  assert (forall (a : bytes), NoDup [a]) as Hs by (intros; apply NoDup_singleton).
  split.
  - unfold some_settings. cbn [storable storable_objects storable_object]. unfold name_ok.
    repeat match goal with
           | |- _ /\ _ => split
           | |- Forall _ [] => apply Forall_nil_2
           | |- Forall _ (_ :: _) => apply Forall_cons_2
           | |- True => exact I
           | |- _ => vm_compute; first [reflexivity | discriminate]
           end.
  - unfold some_settings. cbn [root root_objects pure pure_objects pure_object kept names fmap list_fmap fst].
    repeat match goal with
           | |- _ /\ _ => split
           | |- True => exact I
           | |- NoDup [] => apply NoDup_nil_2
           | |- NoDup [_] => apply Hs
           | |- NoDup [_; _] => apply Hd; discriminate
           | |- [] = [] => reflexivity
           | |- _ <> SETTINGS_UUID => let E := fresh in intros E; vm_compute in E; discriminate E
           end.
Qed.


(** In an object, the descriptor, the name and the class of an unknown object are counted
    twice: the loop ends too early, and what follows in the object is read into the one
    around it. *)
Definition with_unknown : settings :=
  mk_settings [] [] []
    (an_object (B "hist") (OSettings (mk_settings [] [] []
       (an_object (B "a-plugin-with-a-long-name") (OForeign (repeat "u"%char 16) (B "content"))
       (an_object (B "prog") (OSettings (mk_settings [(B "line", 7)] [] [] no_objects [])) no_objects)) [])) no_objects) [].

Example unknown_object_misplaces :
  match write_settings 64 with_unknown [] with
  | Some (_, b) =>
      read_file (mk_file b 0) = Read (mk_settings [] [] []
        (an_object (B "hist") (OSettings (mk_settings [] [] [] no_objects [object_record (B "a-plugin-with-a-long-name") (repeat "u"%char 16) (B "content")]))
        (an_object (B "prog") (OSettings (mk_settings [(B "line", 7)] [] [] no_objects [])) no_objects)) [])
  | None => False
  end.
Proof. vm_compute. reflexivity. Qed.

(** A word of 32 bits is written with the type of a machine word, which is 64 bits when it is
    read. *)
Example narrow_words_rejected :
  match write_settings 32 (mk_settings [(B "opts", 1)] [] [] no_objects []) [] with
  | Some (_, b) => read_file (mk_file b 0) = Throws
  | None => False
  end.
Proof. vm_compute. reflexivity. Qed.
