(* ===== verification/SettingsCorrect.v ===== *)
(** * Step-over rules in the settings file

    The step-over manager, its properties and the file of the settings together: what the
    user asked to step over is still stepped over after a restart. *)
From S2P Require Import Prelude CLib Properties StepOver StepOverCorrect Stream StreamCorrect.
From stdpp Require Import base gmap list strings.
Local Open Scope Z_scope.

(** The properties that settings are. *)
Definition props_of (s : settings) : properties :=
  match s with
  | mk_settings words doubles strings _ _ =>
      mk_properties (list_to_map words) (list_to_map doubles) (list_to_map strings) ∅
  end.

(** Settings that hold the words and the strings of some properties, among other things. *)
Definition holds_props (s : settings) (p : properties) : Prop :=
  wordMap_ (props_of s) = wordMap_ p /\ stringMap_ (props_of s) = stringMap_ p.

Lemma lists_holds s p E : holds_props s p -> lists p E -> lists (props_of s) E.
Proof. intros [H1 H2] [L1 L2]. split; [unfold get_word in *; now rewrite H1 | intros i; now rewrite H2]. Qed.

Lemma props_of_reread s : props_of (reread s) = props_of s.
Proof. now destruct s. Qed.

(** C31: The step-over rules survive a restart of the debugger. After any sequence of
    requests, when the settings that hold the properties are written to a file and read
    again, the manager that is restored from them has the rules that have a name, and answers
    every question about a named file outside of the root directory as before; if every rule
    has a name it has the same rules and answers every question as before. The rules without a
    name, which are lost, are the directory rule that was added for a file in the root
    directory and rules for an empty file name. Names are C strings. *)
Theorem step_over_survives_restart p rs s f : clean p -> Forall request_ok rs ->
  let m := fold_left perform rs (StepOverManager p) in
  Forall c_string (enum_step_over m) ->
  holds_props s (props m) -> storable s -> root s ->
  exists f' n s' m', Settings_write 64 true s (truncate f) = Some (n, f') /\ read_file f' = Read s' /\
    restore_from_properties (StepOverManager (props_of s')) = Ok m' /\
    rules_of m' = filter (fun e => e.1 <> []) (rules_of m) /\
    (forall file line, file <> [] -> dirname file <> [] ->
       query_step_over (Some (Some file, line)) m' = query_step_over (Some (Some file, line)) m) /\
    ((forall e, e ∈ rules_of m -> e.1 <> []) ->
       rules_of m' = rules_of m /\ forall symbol, query_step_over symbol m' = query_step_over symbol m).
Proof.
  intros Hp Hrs m Hst Hh Hs Hr. assert (good m) as [Hwf [_ Hl]] by now apply run_good, fresh_good.
  destruct (write_encode s f Hs) as (_ & f' & E & Hd). pose proof (read_encode s f' Hs Hr Hd) as Hf.
  destruct (restore_good m (props_of (reread s)) Hwf) as (m' & H1 & [R1 _ R2 R3] & _); [|done|].
  { rewrite props_of_reread. now apply lists_holds with (props m). }
  exists f', (Z.of_nat (length (StreamCorrect.encode s))), (reread s), m'. repeat (split; [done|]).
  intros Hall. split; [|exact (R3 Hall)]. rewrite R1. apply set_eq. intros e. rewrite elem_of_filter. split; [now intros [_ ?] | auto].
Qed.

(** ** An example *)

Definition one_request : list request := [StepOverCorrect.Add (B "/s/a.c") 5].

Definition with_opts : properties := set_word (B "opts") 513 no_properties.

Definition one_settings : settings :=
  mk_settings [(B "step_over", 1); (B "opts", 513)] [] [(B "step_over_1", B "5!/s/a.c")] no_objects [].

Lemma one_settings_ok : storable one_settings /\ root one_settings /\
  holds_props one_settings (props (fold_left perform one_request (StepOverManager with_opts))).
Proof.
  split; [|split].
  - unfold one_settings. cbn [storable storable_objects]. unfold name_ok.
    repeat match goal with
           | |- _ /\ _ => split
           | |- Forall _ [] => apply Forall_nil_2
           | |- Forall _ (_ :: _) => apply Forall_cons_2
           | |- True => exact I
           | |- _ => vm_compute; first [reflexivity | discriminate]
           end.
  - unfold one_settings. cbn [root root_objects kept names fmap list_fmap fst].
    repeat split; try apply NoDup_nil_2; try apply NoDup_singleton.
    apply NoDup_cons_2; [|apply NoDup_singleton]. intros H%list_elem_of_singleton. discriminate H.
  - split; apply (bool_decide_unpack _); vm_compute; reflexivity.
Qed.

Lemma step_over_survives_restart_witness :
  exists f' n s' m', Settings_write 64 true one_settings (truncate (mk_file [] 0)) = Some (n, f') /\ read_file f' = Read s' /\
    restore_from_properties (StepOverManager (props_of s')) = Ok m' /\
    query_step_over (Some (Some (B "/s/a.c"), 5)) m' = Some true.
Proof.
  destruct one_settings_ok as (H1 & H2 & H3).
  assert (Forall request_ok one_request) as Hrs by (constructor; [right; lia | constructor]).
  destruct (step_over_survives_restart with_opts one_request one_settings (mk_file [] 0)) as (f' & n & s' & m' & E1 & E2 & E3 & _ & Hq & _);
    [split; [reflexivity | intros i; reflexivity] | exact Hrs | | exact H3 | exact H1 | exact H2 |].
  - apply Forall_forall. intros e He%list_elem_of_In. revert e He. apply forallb_forall. vm_compute. reflexivity.
  - exists f', n, s', m'. split; [exact E1|]. split; [exact E2|]. split; [exact E3|].
    rewrite Hq by (vm_compute; discriminate). vm_compute. reflexivity.
Defined.
