(* ===== verification/TaskPool.v ===== *)
(** * The pool of worker threads ([dharma/task_pool.cpp])

    Tasks are put in a queue that worker threads empty; a mutex protects the queue, and two
    condition variables tell workers of new tasks and clients of tasks that were taken. The
    state machine has one step per entry to and exit from the mutex, per wait and wake-up,
    and per execution of a task; what is done while the mutex is held is one step. *)
From S2P Require Import Prelude.
From stdpp Require Import base list option.

Section Pool.
Context {task : Type}.

(** What the other threads do with the pool. *)
Inductive call : Type :=
| Schedule (t : task)
| Cancel
| WaitUntilEmpty
| Destroy.

(** Where a thread is. Workers run [execute_from_queue], clients a sequence of calls. *)
Inductive thread : Type :=
| WEnter                                   (* [get_task]: before the lock *)
| WTest                                    (* has the lock, at the loop *)
| WWait                                    (* in [queueNotEmpty_.wait] *)
| WWoken                                   (* notified, wants the lock back *)
| WLeave (r : option task)                 (* the result is known, still has the lock *)
| WRun (t : task)                          (* [task->execute()] *)
| WExit
| CEnter (c : call) (rest : list call)     (* before the lock *)
| CTest (c : call) (rest : list call)      (* has the lock *)
| CWait (rest : list call)                 (* in [queueEmpty_.wait] *)
| CWoken (rest : list call)
| CLeave (join : bool) (rest : list call)  (* done, still has the lock *)
| CJoin (rest : list call)                 (* in the destructor, waits for the threads *)
| CDone.

Record pool : Type := mk_pool {
  queue_ : list task;
  cancelled_ : bool;
  mutex_ : option nat;         (* the thread that has the mutex *)
  threads : list thread;
  (* a record of what has happened *)
  scheduled : list task;
  started : list task;
  finished : list task;
  aborted : list task
}.

Definition is_worker (th : thread) : bool :=
  match th with
  | WEnter | WTest | WWait | WWoken | WLeave _ | WRun _ | WExit => true
  | _ => false
  end.

(** [queueNotEmpty_.broadcast()] and [queueEmpty_.broadcast()]. *)
Definition wake_worker (th : thread) : thread := match th with WWait => WWoken | _ => th end.
Definition wake_client (th : thread) : thread := match th with CWait rest => CWoken rest | _ => th end.

(** The next call of a client. *)
Definition next_call (rest : list call) : thread :=
  match rest with [] => CDone | c :: rest => CEnter c rest end.

(** How a step goes: the normal way, a wake-up without a reason, or a task that throws. *)
Inductive event : Type := Go | Spurious | Throws.

Definition set_thread (i : nat) (th : thread) (s : pool) : pool :=
  mk_pool (queue_ s) (cancelled_ s) (mutex_ s) (<[i := th]> (threads s)) (scheduled s) (started s) (finished s) (aborted s).
Definition set_mutex (m : option nat) (s : pool) : pool :=
  mk_pool (queue_ s) (cancelled_ s) m (threads s) (scheduled s) (started s) (finished s) (aborted s).
Definition wake (f : thread -> thread) (s : pool) : pool :=
  mk_pool (queue_ s) (cancelled_ s) (mutex_ s) (f <$> threads s) (scheduled s) (started s) (finished s) (aborted s).

(** [Lock<Mutex> lock(mutex_)]: blocks while another thread has it. *)
Definition enter (i : nat) (th : thread) (s : pool) : option pool :=
  match mutex_ s with None => Some (set_mutex (Some i) (set_thread i th s)) | Some _ => None end.
(** Waiting and leaving give the mutex back. *)
Definition leave (i : nat) (th : thread) (s : pool) : option pool := Some (set_mutex None (set_thread i th s)).

(** [get_task] behind the lock. *)
Definition get_task (i : nat) (s : pool) : option pool :=
  if cancelled_ s then Some (set_thread i (WLeave None) s)
  else
    match queue_ s with
    | [] => leave i WWait s
    | t :: q =>
        let s := mk_pool q (cancelled_ s) (mutex_ s) (threads s) (scheduled s) (started s ++ [t]) (finished s) (aborted s) in
        Some (set_thread i (WLeave (Some t)) (wake wake_client s))
    end.

(** [schedule] behind the lock. *)
Definition schedule (i : nat) (t : task) (rest : list call) (s : pool) : option pool :=
  let s := mk_pool (queue_ s ++ [t]) (cancelled_ s) (mutex_ s) (threads s) (scheduled s ++ [t]) (started s) (finished s) (aborted s) in
  Some (set_thread i (CLeave false rest) (wake wake_worker s)).

(** [cancel] behind the lock; [join] when the destructor calls it. *)
Definition cancel (i : nat) (join : bool) (rest : list call) (s : pool) : option pool :=
  let s := mk_pool (queue_ s) true (mutex_ s) (threads s) (scheduled s) (started s) (finished s) (aborted s) in
  Some (set_thread i (CLeave join rest) (wake wake_worker s)).

(** [wait_until_empty] behind the lock. *)
Definition wait_until_empty (i : nat) (rest : list call) (s : pool) : option pool :=
  match queue_ s with
  | [] => Some (set_thread i (CLeave false rest) s)
  | _ => leave i (CWait rest) s
  end.

(** The end of a task in [execute_from_queue]. *)
Definition task_done (i : nat) (t : task) (s : pool) : pool :=
  set_thread i WEnter
    (mk_pool (queue_ s) (cancelled_ s) (mutex_ s) (threads s) (scheduled s) (started s) (finished s ++ [t]) (aborted s)).
(** The exception is caught outside of the loop. *)
Definition task_throws (i : nat) (t : task) (s : pool) : pool :=
  set_thread i WExit
    (mk_pool (queue_ s) (cancelled_ s) (mutex_ s) (threads s) (scheduled s) (started s) (finished s) (aborted s ++ [t])).

Definition exited (th : thread) : bool := match th with WExit => true | _ => negb (is_worker th) end.

(** A step of thread [i]. *)
Definition exec (i : nat) (e : event) (s : pool) : option pool :=
  match threads s !! i, e with
  | Some WEnter, Go => enter i WTest s
  | Some WTest, Go => get_task i s
  | Some WWait, Spurious => Some (set_thread i WWoken s)
  | Some WWoken, Go => enter i WTest s
  | Some (WLeave (Some t)), Go => leave i (WRun t) s
  | Some (WLeave None), Go => leave i WExit s
  | Some (WRun t), Go => Some (task_done i t s)
  | Some (WRun t), Throws => Some (task_throws i t s)
  | Some (CEnter c rest), Go => enter i (CTest c rest) s
  | Some (CTest (Schedule t) rest), Go => schedule i t rest s
  | Some (CTest Cancel rest), Go => cancel i false rest s
  | Some (CTest Destroy rest), Go => cancel i true rest s
  | Some (CTest WaitUntilEmpty rest), Go => wait_until_empty i rest s
  | Some (CWait rest), Spurious => Some (set_thread i (CWoken rest) s)
  | Some (CWoken rest), Go => enter i (CTest WaitUntilEmpty rest) s
  | Some (CLeave join rest), Go => leave i (if join then CJoin rest else next_call rest) s
  | Some (CJoin rest), Go => if forallb exited (threads s) then Some (set_thread i (next_call rest) s) else None
  | _, _ => None
  end.

(** [init(nThreads)], and the clients. *)
Definition init (nThreads : nat) (clients : list (list call)) : pool :=
  mk_pool [] false None (repeat WEnter nThreads ++ map next_call clients) [] [] [] [].

(** The executions. *)
Inductive reachable (n : nat) (clients : list (list call)) : pool -> Prop :=
| reach_init : reachable n clients (init n clients)
| reach_step s i e s' : reachable n clients s -> exec i e s = Some s' -> reachable n clients s'.

End Pool.

Arguments call : clear implicits.
Arguments thread : clear implicits.
Arguments pool : clear implicits.

(** ** Waiting with a timeout ([zdk/src/mutex.cpp])

    [Mutex::wait(c, milliseconds)]: the time at which the wait ends, as the seconds and
    nanoseconds of a [timespec], from the seconds and microseconds of [gettimeofday]. [None]:
    no limit. *)
Definition wait_deadline (tv_sec tv_usec milliseconds : Z) : option (Z * Z) :=
  if (milliseconds =? -1)%Z then None
  else
    let seconds := (milliseconds ÷ 1000)%Z in
    let nanoseconds := (Z.rem milliseconds 1000 * 1000000)%Z in
    Some (tv_sec + seconds, tv_usec * 1000 + nanoseconds)%Z.

(** [pthread_cond_timedwait] gives [EINVAL] when there are a thousand million nanoseconds or
    more. *)
Definition valid_timespec (t : Z * Z) : bool := ((0 <=? snd t) && (snd t <? 1000000000))%Z.
