(* ===== verification/TaskPoolCorrect.v ===== *)
(** * What the pool of worker threads guarantees

    Under every interleaving: only one thread has the mutex, no wake-up is lost, tasks are
    taken once and in order; the pool comes to rest only when there is nothing left to do, or
    when nobody is left to do it. *)
From S2P Require Import Prelude.
From stdpp Require Import base list option relations.
From S2P Require Import TaskPool.

Section Correct.
Context {task : Type}.
Abbreviation thread := (thread task).
Abbreviation pool := (pool task).
Implicit Types (s : pool) (th : thread) (l : list thread).

(** ** The invariant *)

Definition has_lock th : bool :=
  match th with WTest | WLeave _ | CTest _ _ | CLeave _ _ => true | _ => false end.

(** The task that a worker has taken. *)
Definition held th : list task :=
  match th with WLeave (Some t) | WRun t => [t] | _ => [] end.

Definition in_progress l : list task := l ≫= held.

(** In the destructor, behind [cancel]. *)
Definition destroying th : bool := match th with CJoin _ | CLeave true _ => true | _ => false end.

Record inv s : Prop := {
  i_owner : forall i, mutex_ s = Some i <-> exists th, threads s !! i = Some th /\ has_lock th = true;
  i_worker : WWait ∈ threads s -> queue_ s = [] /\ cancelled_ s = false;
  i_client : forall rest, CWait rest ∈ threads s -> queue_ s <> [];
  i_destroy : forall th, th ∈ threads s -> destroying th = true -> cancelled_ s = true;
  i_order : scheduled s = started s ++ queue_ s;
  i_tasks : started s ≡ₚ finished s ++ aborted s ++ in_progress (threads s)
}.

(** A broadcast changes nothing but who waits. *)
Record waker (f : thread -> thread) : Prop := {
  w_lock : forall th, has_lock (f th) = has_lock th;
  w_held : forall th, held (f th) = held th;
  w_destroy : forall th, destroying (f th) = destroying th;
  w_wait : forall th, f th = WWait -> th = WWait;
  w_cwait : forall th rest, f th = CWait rest -> th = CWait rest
}.

Lemma waker_id : waker id.
Proof. now split. Qed.

Lemma waker_worker : waker wake_worker.
Proof. split; intros []; cbn; congruence. Qed.

Lemma waker_client : waker wake_client.
Proof. split; intros []; cbn; congruence. Qed.

Lemma insert_middle l i th th' : l !! i = Some th -> <[i := th']> l = take i l ++ th' :: drop (S i) l.
Proof. intros H. apply insert_take_drop. now apply lookup_lt_Some in H. Qed.

Lemma in_progress_insert l i th : l !! i = Some th ->
  exists r, in_progress l ≡ₚ held th ++ r /\ forall th', in_progress (<[i := th']> l) ≡ₚ held th' ++ r.
Proof.
  intros H. exists (in_progress (take i l) ++ in_progress (drop (S i) l)).
  assert (forall x, in_progress (take i l ++ x :: drop (S i) l) ≡ₚ held x ++ in_progress (take i l) ++ in_progress (drop (S i) l)) as Hx.
  { intros x. unfold in_progress. rewrite bind_app, bind_cons. rewrite !app_assoc. apply Permutation_app_tail, Permutation_app_comm. }
  split.
  - rewrite <- (take_drop_middle l i th H) at 1. apply Hx.
  - intros th'. rewrite (insert_middle l i th th' H). apply Hx.
Qed.

Lemma in_progress_wake f l : waker f -> in_progress (f <$> l) = in_progress l.
Proof. intros Hf. unfold in_progress. induction l as [|x l IH]; cbn; [done|]. now rewrite IH, (w_held f Hf). Qed.

Lemma elem_of_insert_or {A} (l : list A) i (x y : A) : y ∈ <[i := x]> l -> y = x \/ y ∈ l.
Proof.
  intros H. apply list_elem_of_lookup in H as [j H]. destruct (decide (i = j)) as [->|Hne].
  - destruct (decide (j < length l)) as [Hl|Hl]; [left|].
    + rewrite list_lookup_insert_eq in H by done. congruence.
    + right. rewrite list_insert_ge in H by lia. now apply list_elem_of_lookup_2 in H.
  - right. rewrite list_lookup_insert_ne in H by done. now apply list_elem_of_lookup_2 in H.
Qed.

(** A step of a thread from [th] to [th'], with a broadcast [f]. *)
Lemma inv_step f s i th th' q c m sch st fin ab :
  inv s -> threads s !! i = Some th -> waker f ->
  m = (if has_lock th' then Some i else if has_lock th then None else mutex_ s) ->
  (has_lock th = false -> has_lock th' = true -> mutex_ s = None) ->
  (th' = WWait \/ WWait ∈ f <$> threads s -> q = [] /\ c = false) ->
  (forall rest, th' = CWait rest \/ CWait rest ∈ f <$> threads s -> q <> []) ->
  (destroying th' = true \/ cancelled_ s = true -> c = true) ->
  sch = st ++ q ->
  (forall r, started s ≡ₚ finished s ++ aborted s ++ held th ++ r -> st ≡ₚ fin ++ ab ++ held th' ++ r) ->
  inv (mk_pool q c m (<[i := th']> (f <$> threads s)) sch st fin ab).
Proof.
  intros [H1 H2 H3 H4 H5 H6] Hi Hf Hm Hlock Hw Hc Hd Ho Ht.
  assert ((f <$> threads s) !! i = Some (f th)) as Hi' by (now rewrite list_lookup_fmap, Hi).
  assert (i < length (f <$> threads s)) as Hlt by now apply lookup_lt_Some in Hi'.
  assert (forall j x, j <> i -> (<[i := th']> (f <$> threads s)) !! j = Some x -> exists y, threads s !! j = Some y /\ x = f y) as Hother.
  { intros j x Hj. rewrite list_lookup_insert_ne, list_lookup_fmap by congruence.
    destruct (threads s !! j) as [y|]; cbn; [|done]. intros [= <-]. eauto. }
  split; cbn.
  - intros j. rewrite Hm. split.
    + intros E. destruct (has_lock th') eqn:El.
      * injection E as <-. exists th'. rewrite list_lookup_insert_eq by done. auto.
      * destruct (has_lock th) eqn:El2; [done|]. apply H1 in E as (x & Hx & Hl).
        assert (j <> i) by (intros ->; congruence).
        exists (f x). rewrite list_lookup_insert_ne, list_lookup_fmap, Hx by congruence. cbn. now rewrite (w_lock f Hf).
    + intros (x & Hx & Hl). destruct (decide (j = i)) as [->|Hj].
      * rewrite list_lookup_insert_eq in Hx by done. injection Hx as ->. now rewrite Hl.
      * destruct (Hother j x Hj Hx) as (y & Hy & ->). rewrite (w_lock f Hf) in Hl.
        assert (mutex_ s = Some j) as Ej by (apply H1; eauto).
        destruct (has_lock th) eqn:El.
        -- assert (mutex_ s = Some i) by (apply H1; eauto). congruence.
        -- destruct (has_lock th') eqn:El'; [now rewrite (Hlock eq_refl eq_refl) in Ej | done].
  - intros H. apply elem_of_insert_or in H as [H|H]; apply Hw; auto.
  - intros rest H. apply elem_of_insert_or in H as [H|H]; apply (Hc rest); auto.
  - intros x Hx Hdx. apply Hd. apply elem_of_insert_or in Hx as [->|Hx]; [auto|].
    apply list_elem_of_fmap in Hx as (y & -> & Hy). rewrite (w_destroy f Hf) in Hdx. right. now apply (H4 y).
  - exact Ho.
  - destruct (in_progress_insert _ _ _ Hi') as (r & Hr1 & Hr2). rewrite Hr2. apply Ht.
    rewrite H6, <- (in_progress_wake f (threads s) Hf), Hr1, (w_held f Hf). done.
Qed.

(** A step without a broadcast. *)
Lemma inv_step_quiet s i th th' q c m sch st fin ab :
  inv s -> threads s !! i = Some th ->
  m = (if has_lock th' then Some i else if has_lock th then None else mutex_ s) ->
  (has_lock th = false -> has_lock th' = true -> mutex_ s = None) ->
  (th' = WWait \/ WWait ∈ threads s -> q = [] /\ c = false) ->
  (forall rest, th' = CWait rest \/ CWait rest ∈ threads s -> q <> []) ->
  (destroying th' = true \/ cancelled_ s = true -> c = true) ->
  sch = st ++ q ->
  (forall r, started s ≡ₚ finished s ++ aborted s ++ held th ++ r -> st ≡ₚ fin ++ ab ++ held th' ++ r) ->
  inv (mk_pool q c m (<[i := th']> (threads s)) sch st fin ab).
Proof.
  intros H Hi Hm Hl Hw Hc Hd Ho Ht. rewrite <- (list_fmap_id (threads s)).
  apply (inv_step id s i th th'); auto using waker_id; rewrite ?list_fmap_id; auto.
Qed.

Lemma no_waiting_worker l : WWait ∉ wake_worker <$> l.
Proof. intros (x & E & _)%list_elem_of_fmap. destruct x; discriminate E. Qed.

Lemma no_waiting_client l rest : CWait rest ∉ wake_client <$> l.
Proof. intros (x & E & _)%list_elem_of_fmap. destruct x; discriminate E. Qed.

(** The mutex is held by the thread that is behind the lock. *)
Lemma lock_owner s i th : inv s -> threads s !! i = Some th -> has_lock th = true -> mutex_ s = Some i.
Proof. intros H Hi Hl. apply (i_owner s H). eauto. Qed.

(** A step that changes only the thread and the mutex. *)
Lemma inv_move s i th th' m :
  inv s -> threads s !! i = Some th ->
  m = (if has_lock th' then Some i else if has_lock th then None else mutex_ s) ->
  (has_lock th = false -> has_lock th' = true -> mutex_ s = None) ->
  (th' = WWait -> queue_ s = [] /\ cancelled_ s = false) ->
  (forall rest, th' = CWait rest -> queue_ s <> []) ->
  (destroying th' = true -> cancelled_ s = true) ->
  held th' = held th ->
  inv (set_mutex m (set_thread i th' s)).
Proof.
  intros H Hi Hm Hl Hw Hc Hd Hh. apply (inv_step_quiet s i th th'); auto.
  - intros [E|E]; [auto | now apply (i_worker s H)].
  - intros rest [E|E]; [eauto | now apply (i_client s H rest)].
  - intros [E|E]; auto.
  - apply (i_order s H).
  - now rewrite Hh.
Qed.

Lemma inv_stay s i th th' : inv s -> threads s !! i = Some th -> has_lock th' = has_lock th ->
  th' <> WWait -> (forall rest, th' <> CWait rest) ->
  (destroying th' = true -> cancelled_ s = true) -> held th' = held th -> inv (set_thread i th' s).
Proof.
  intros H Hi Hl Hw Hc Hd Hh. replace (set_thread i th' s) with (set_mutex (mutex_ s) (set_thread i th' s)) by now destruct s.
  apply (inv_move s i th th'); auto; try congruence.
  rewrite Hl. destruct (has_lock th) eqn:E; [|done]. now apply (lock_owner s i th).
Qed.

Lemma inv_enter s i th th' s' : inv s -> threads s !! i = Some th -> enter i th' s = Some s' ->
  has_lock th = false -> has_lock th' = true -> destroying th' = false -> held th' = held th -> inv s'.
Proof.
  intros H Hi. unfold enter. destruct (mutex_ s) eqn:Em; [done|]. intros [= <-] Hl Hl' Hd Hh.
  apply (inv_move s i th th'); auto; try (intros; subst; discriminate); try congruence. now rewrite Hl'.
Qed.

Lemma inv_leave s i th th' s' : inv s -> threads s !! i = Some th -> leave i th' s = Some s' ->
  has_lock th = true -> has_lock th' = false ->
  (th' = WWait -> queue_ s = [] /\ cancelled_ s = false) -> (forall rest, th' = CWait rest -> queue_ s <> []) ->
  (destroying th' = true -> cancelled_ s = true) -> held th' = held th -> inv s'.
Proof.
  intros H Hi [= <-] Hl Hl' Hw Hc Hd Hh. apply (inv_move s i th th'); auto; try congruence. now rewrite Hl', Hl.
Qed.

Lemma inv_get_task s i s' : inv s -> threads s !! i = Some WTest -> get_task i s = Some s' -> inv s'.
Proof.
  intros H Hi. unfold get_task. destruct (cancelled_ s) eqn:Ec.
  - intros [= <-]. now apply (inv_stay s i WTest).
  - destruct (queue_ s) as [|t q] eqn:Eq.
    + intros E. now apply (inv_leave s i WTest WWait s').
    + intros [= <-]. apply (inv_step wake_client s i WTest (WLeave (Some t))); auto using waker_client.
      * cbn. now rewrite (lock_owner s i WTest).
      * done.
      * intros [E|E]; [done|]. apply list_elem_of_fmap in E as (x & E & Hx).
        destruct x; try discriminate E. apply (i_worker s H) in Hx as [Hq _]. congruence.
      * intros rest [E|E]; [done|]. now apply no_waiting_client in E.
      * cbn. intros [E|E]; congruence.
      * cbn. rewrite (i_order s H), Eq. now rewrite <- app_assoc.
      * intros r Hr. cbn in *. rewrite Hr. rewrite <- !app_assoc. solve_Permutation.
Qed.

Lemma inv_schedule s i t rest s' : inv s -> threads s !! i = Some (CTest (Schedule t) rest) ->
  schedule i t rest s = Some s' -> inv s'.
Proof.
  intros H Hi [= <-]. apply (inv_step wake_worker s i (CTest (Schedule t) rest) (CLeave false rest)); auto using waker_worker.
  - cbn. now rewrite (lock_owner s i (CTest (Schedule t) rest)).
  - done.
  - intros [E|E]; [done|]. now apply no_waiting_worker in E.
  - intros r [E|_]; [done|]. cbn. now destruct (queue_ s).
  - cbn. intros [E|E]; congruence.
  - cbn. rewrite (i_order s H). now rewrite <- app_assoc.
Qed.

Lemma inv_cancel s i join rest c s' : inv s -> threads s !! i = Some (CTest c rest) ->
  cancel i join rest s = Some s' -> inv s'.
Proof.
  intros H Hi [= <-]. apply (inv_step wake_worker s i (CTest c rest) (CLeave join rest)); auto using waker_worker.
  - cbn. now rewrite (lock_owner s i (CTest c rest)).
  - done.
  - intros [E|E]; [done|]. now apply no_waiting_worker in E.
  - intros r [E|E]; [done|]. apply list_elem_of_fmap in E as (x & E & Hx). destruct x; try discriminate E.
    injection E as <-. exact (i_client s H _ Hx).
  - apply (i_order s H).
Qed.

Lemma inv_task_end s i t th' fin ab : inv s -> threads s !! i = Some (WRun t) -> th' = WEnter \/ th' = WExit ->
  fin ++ ab ≡ₚ t :: finished s ++ aborted s ->
  inv (mk_pool (queue_ s) (cancelled_ s) (mutex_ s) (<[i := th']> (threads s)) (scheduled s) (started s) fin ab).
Proof.
  intros H Hi Hth Hp. apply (inv_step_quiet s i (WRun t) th'); auto; try (destruct Hth as [-> | ->]; done).
  - intros [E|E]; [destruct Hth; congruence | now apply (i_worker s H)].
  - intros rest [E|E]; [destruct Hth; congruence | now apply (i_client s H rest)].
  - intros [E|E]; [destruct Hth; subst; done | done].
  - apply (i_order s H).
  - intros r Hr. replace (held th') with ([] : list task) by (destruct Hth; subst; done). cbn in *.
    rewrite Hr, !app_assoc, Hp. cbn. rewrite <- !app_assoc. cbn. solve_Permutation.
Qed.

Lemma next_call_lock (rest : list (call task)) : has_lock (next_call rest) = false /\ destroying (next_call rest) = false /\
  held (next_call rest) = [] /\ next_call rest <> WWait /\ forall r, next_call rest <> CWait r.
Proof. destruct rest; cbn; repeat split; congruence. Qed.

Lemma inv_exec s i e s' : inv s -> exec i e s = Some s' -> inv s'.
Proof.
  intros H. unfold exec. destruct (threads s !! i) as [th|] eqn:Hi; [|done].
  destruct th as [| | | |[t|]|t| |c rest|[t| | |] rest|rest|rest|join rest|rest|]; destruct e; try done; intros E.
  - now apply (inv_enter s i WEnter WTest).
  - now apply (inv_get_task s i).
  - injection E as <-. now apply (inv_stay s i WWait).
  - now apply (inv_enter s i WWoken WTest).
  - now apply (inv_leave s i (WLeave (Some t)) (WRun t)).
  - now apply (inv_leave s i (WLeave None) WExit).
  - injection E as <-. apply (inv_task_end s i t); auto. cbn. solve_Permutation.
  - injection E as <-. apply (inv_task_end s i t); auto. cbn. solve_Permutation.
  - now apply (inv_enter s i (CEnter c rest) (CTest c rest)).
  - now apply (inv_schedule s i t rest).
  - now apply (inv_cancel s i false rest Cancel).
  - unfold wait_until_empty in E. destruct (queue_ s) eqn:Eq.
    + injection E as <-. now apply (inv_stay s i (CTest WaitUntilEmpty rest)).
    + apply (inv_leave s i (CTest WaitUntilEmpty rest) (CWait rest)); auto; try done. intros. now rewrite Eq.
  - now apply (inv_cancel s i true rest Destroy).
  - injection E as <-. now apply (inv_stay s i (CWait rest)).
  - now apply (inv_enter s i (CWoken rest) (CTest WaitUntilEmpty rest)).
  - destruct (next_call_lock rest) as (N1 & N2 & N3 & N4 & N5). destruct join.
    + apply (inv_leave s i (CLeave true rest) (CJoin rest)); auto; try done.
      intros _. apply (i_destroy s H (CLeave true rest)); [now apply list_elem_of_lookup_2 in Hi | done].
    + apply (inv_leave s i (CLeave false rest) (next_call rest)); auto; try done; try congruence.
  - destruct (forallb exited (threads s)); [|done]. injection E as <-.
    destruct (next_call_lock rest) as (N1 & N2 & N3 & N4 & N5). apply (inv_stay s i (CJoin rest)); auto; congruence.
Qed.

Lemma inv_init n clients : inv (init n clients).
Proof.
  assert (forall th, th ∈ repeat WEnter n ++ map next_call clients -> has_lock th = false /\ held th = [] /\ destroying th = false /\
    th <> WWait /\ forall r, th <> CWait r) as Hth.
  { intros th [H|H]%elem_of_app.
    - apply list_elem_of_In, repeat_spec in H as ->. repeat split; congruence.
    - apply list_elem_of_In, in_map_iff in H as (rest & <- & _). destruct (next_call_lock rest) as (? & ? & ? & ? & ?). auto. }
  split; cbn.
  - intros i. split; [done|]. intros (th & Hi & Hl). apply list_elem_of_lookup_2, Hth in Hi as [E _]. congruence.
  - intros H. apply Hth in H as (_ & _ & _ & H & _). done.
  - intros rest H. apply Hth in H as (_ & _ & _ & _ & H). now destruct (H rest).
  - intros th H Hd. apply Hth in H as (_ & _ & H & _). congruence.
  - done.
  - assert (forall l, (forall th, th ∈ l -> held th = []) -> in_progress l = []) as Hl.
    { unfold in_progress. induction l as [|x l IH]; intros Hx; cbn; [done|]. rewrite (Hx x) by left. apply IH. intros; apply Hx; now right. }
    rewrite Hl; [done|]. intros th H. now apply Hth in H.
Qed.

Lemma reachable_inv n clients s : reachable n clients s -> inv s.
Proof. induction 1; [apply inv_init | eauto using inv_exec]. Qed.

(** C33: Under every interleaving of any number of workers and clients, spurious wake-ups and
    tasks that throw included: tasks are taken from the queue in the order in which they were
    scheduled, and each one that was taken is being executed, was executed or has thrown, once;
    at most one thread is behind the lock; no worker sleeps while there is a task or the pool
    is cancelled, and no client sleeps while the queue is empty. *)
Theorem tasks_taken_once n clients s : reachable n clients s ->
  scheduled s = started s ++ queue_ s /\
  started s ≡ₚ finished s ++ aborted s ++ in_progress (threads s) /\
  (forall i j a b, threads s !! i = Some a -> threads s !! j = Some b -> has_lock a = true -> has_lock b = true -> i = j) /\
  (WWait ∈ threads s -> queue_ s = [] /\ cancelled_ s = false) /\
  (forall rest, CWait rest ∈ threads s -> queue_ s <> []).
Proof.
  intros H%reachable_inv. split; [apply H|]. split; [apply H|]. split; [|split; apply H].
  intros i j a b Hi Hj Ha Hb. pose proof (lock_owner s i a H Hi Ha). pose proof (lock_owner s j b H Hj Hb). congruence.
Qed.

(** ** Counting threads *)

Definition total (f : thread -> nat) l : nat := sum_list (f <$> l).

Lemma total_app f l m : total f (l ++ m) = total f l + total f m.
Proof. unfold total. rewrite fmap_app. induction (f <$> l); cbn; lia. Qed.

Lemma total_insert f l i th th' : l !! i = Some th -> total f (<[i := th']> l) + f th = total f l + f th'.
Proof.
  intros H. rewrite (insert_middle l i th th' H). rewrite <- (take_drop_middle l i th H) at 3.
  rewrite !total_app. cbn. lia.
Qed.

Lemma total_map f g l : (forall th, f (g th) = f th) -> total f (g <$> l) = total f l.
Proof. intros H. unfold total. induction l as [|x l IH]; cbn; [done|]. now rewrite H, IH. Qed.

Lemma total_elem f l th : th ∈ l -> f th <= total f l.
Proof. unfold total. induction 1; cbn; lia. Qed.

(** ** Progress *)

(** How many steps a thread can make by itself, and what its calls cost the others, in a
    pool of [n] threads. *)
Section Rank.
Variable n : nat.

Definition task_cost : nat := 3 * n + 4.
Definition body_cost (c : call task) : nat :=
  match c with Schedule _ => task_cost + 3 * n | Cancel | Destroy => 3 * n | WaitUntilEmpty => 0 end.
Definition call_cost : nat := task_cost + 3 * n + 8.

Definition rank th : nat :=
  match th with
  | WWait | WExit | CDone => 0
  | WLeave None => 1
  | WTest => 2
  | WEnter | WWoken => 3
  | WRun _ => 4
  | WLeave (Some _) => 5
  | CEnter c rest => call_cost * length rest + body_cost c + 4
  | CTest c rest => call_cost * length rest + body_cost c + 3
  | CWoken rest => call_cost * length rest + 4
  | CLeave _ rest => call_cost * length rest + 2
  | CWait rest | CJoin rest => call_cost * length rest + 1
  end.

Definition ranks l : nat := total rank l.

Lemma rank_wake_worker th : rank (wake_worker th) <= rank th + 3.
Proof. destruct th; cbn; lia. Qed.

Lemma rank_wake_client th : rank (wake_client th) <= rank th + 3.
Proof. destruct th; cbn; lia. Qed.

Lemma ranks_wake f l : (forall th, rank (f th) <= rank th + 3) -> ranks (f <$> l) <= ranks l + 3 * length l.
Proof. intros Hf. induction l as [|x l IH]; cbn; [done|]. unfold ranks, total in *. cbn. pose proof (Hf x). lia. Qed.

Lemma rank_next rest : rank (next_call rest) < call_cost * length rest + 1.
Proof.
  destruct rest as [|c rest]; cbn; [lia|]. unfold call_cost. destruct c; cbn; unfold task_cost; nia.
Qed.

End Rank.

Definition measure s : nat := ranks (length (threads s)) (threads s) + task_cost (length (threads s)) * length (queue_ s).

(** Broadcasting [f] and moving a thread on. *)
Lemma measure_wake f s i th th' q c m sch st fin ab :
  threads s !! i = Some th -> f th = th ->
  (forall x, rank (length (threads s)) (f x) <= rank (length (threads s)) x + 3) ->
  rank (length (threads s)) th' + 3 * length (threads s) + task_cost (length (threads s)) * length q
    < rank (length (threads s)) th + task_cost (length (threads s)) * length (queue_ s) ->
  measure (mk_pool q c m (<[i := th']> (f <$> threads s)) sch st fin ab) < measure s.
Proof.
  intros Hi Hf Hw Hlt. unfold measure. cbn [threads queue_]. rewrite length_insert, length_fmap.
  assert ((f <$> threads s) !! i = Some th) as Hi' by (rewrite list_lookup_fmap, Hi; cbn; congruence).
  pose proof (total_insert (rank (length (threads s))) _ i th th' Hi').
  pose proof (ranks_wake (length (threads s)) f (threads s) Hw). unfold ranks in *. lia.
Qed.

Lemma measure_move s i th th' c m sch st fin ab : threads s !! i = Some th ->
  rank (length (threads s)) th' < rank (length (threads s)) th ->
  measure (mk_pool (queue_ s) c m (<[i := th']> (threads s)) sch st fin ab) < measure s.
Proof.
  intros Hi Hlt. unfold measure. cbn [threads queue_]. rewrite length_insert.
  pose proof (total_insert (rank (length (threads s))) _ i th th' Hi). unfold ranks in *. lia.
Qed.

Lemma measure_enter s i th th' s' : enter i th' s = Some s' -> threads s !! i = Some th ->
  rank (length (threads s)) th' < rank (length (threads s)) th -> measure s' < measure s.
Proof. unfold enter. destruct (mutex_ s); [done|]. intros E Hi. injection E as <-. now apply (measure_move s i th th'). Qed.

Lemma measure_get_task s i s' : get_task i s = Some s' -> threads s !! i = Some WTest -> measure s' < measure s.
Proof.
  unfold get_task, leave. intros E Hi. destruct (cancelled_ s).
  - injection E as <-. apply (measure_move s i WTest); [done|]. cbn [rank]. lia.
  - destruct (queue_ s) as [|t q] eqn:Eq; injection E as <-.
    + apply (measure_move s i WTest); [done|]. cbn [rank]. lia.
    + apply (measure_wake wake_client s i WTest); [done | done | apply rank_wake_client|].
      rewrite Eq. cbn [rank length queue_ wake]. rewrite Nat.mul_succ_r. assert (task_cost (length (threads s)) = 3 * length (threads s) + 4) by reflexivity. lia.
Qed.

(** Every step but a spurious wake-up brings the pool nearer to its rest. *)
Lemma exec_measure s i e s' : exec i e s = Some s' -> e <> Spurious -> measure s' < measure s.
Proof.
  unfold exec. destruct (threads s !! i) as [th|] eqn:Hi; [|done].
  destruct th as [| | | |[t|]|t| |c rest|[t| | |] rest|rest|rest|join rest|rest|]; destruct e; try done; intros E _.
  - apply (measure_enter s i _ _ _ E Hi). cbn [rank]. lia.
  - now apply (measure_get_task s i).
  - apply (measure_enter s i _ _ _ E Hi). cbn [rank]. lia.
  - injection E as <-. apply (measure_move s i _ _ _ _ _ _ _ _ Hi). cbn [rank]. lia.
  - injection E as <-. apply (measure_move s i _ _ _ _ _ _ _ _ Hi). cbn [rank]. lia.
  - injection E as <-. apply (measure_move s i _ _ _ _ _ _ _ _ Hi). cbn [rank]. lia.
  - injection E as <-. apply (measure_move s i _ _ _ _ _ _ _ _ Hi). cbn [rank]. lia.
  - apply (measure_enter s i _ _ _ E Hi). cbn [rank]. lia.
  - injection E as <-. apply (measure_wake wake_worker s i _ _ _ _ _ _ _ _ _ Hi); [done | apply rank_wake_worker|].
    cbn [rank body_cost queue_ wake]. rewrite length_app. cbn [length]. rewrite Nat.mul_add_distr_l, Nat.mul_1_r. lia.
  - injection E as <-. apply (measure_wake wake_worker s i _ _ _ _ _ _ _ _ _ Hi); [done | apply rank_wake_worker|].
    cbn [rank body_cost queue_ wake]. lia.
  - unfold wait_until_empty, leave in E. destruct (queue_ s) as [|t q] eqn:Eq; injection E as <-; cbn [queue_ threads set_thread];
      apply (measure_move s i _ _ _ _ _ _ _ _ Hi); cbn [rank body_cost]; lia.
  - injection E as <-. apply (measure_wake wake_worker s i _ _ _ _ _ _ _ _ _ Hi); [done | apply rank_wake_worker|].
    cbn [rank body_cost queue_ wake]. lia.
  - apply (measure_enter s i _ _ _ E Hi). cbn [rank body_cost]. lia.
  - injection E as <-. apply (measure_move s i _ _ _ _ _ _ _ _ Hi). pose proof (rank_next (length (threads s)) rest).
    destruct join; cbn [rank]; lia.
  - destruct (forallb exited (threads s)); [|done]. injection E as <-.
    apply (measure_move s i _ _ _ _ _ _ _ _ Hi). apply rank_next.
Qed.

(** ** Who is left to work *)

Definition worker th : nat := if is_worker th then 1 else 0.

(** A worker that has left its loop, or is about to. *)
Definition gone th : nat := match th with WExit | WLeave None => 1 | _ => 0 end.

(** Workers leave when the pool is cancelled, and when a task throws. *)
Record counted (n : nat) s : Prop := {
  c_workers : total worker (threads s) = n;
  c_gone : cancelled_ s = false -> total gone (threads s) = length (aborted s)
}.

Lemma counted_step n f s i th th' q c m sch st fin ab : counted n s -> threads s !! i = Some th -> f th = th ->
  (forall x, worker (f x) = worker x /\ gone (f x) = gone x) -> worker th' = worker th ->
  (c = false -> cancelled_ s = false /\ gone th' + length (aborted s) = gone th + length ab) ->
  counted n (mk_pool q c m (<[i := th']> (f <$> threads s)) sch st fin ab).
Proof.
  intros H Hi Hf Hx Hw Hg. assert ((f <$> threads s) !! i = Some th) as Hi' by (rewrite list_lookup_fmap, Hi; cbn; congruence).
  pose proof (total_insert worker _ i th th' Hi') as W. pose proof (total_insert gone _ i th th' Hi') as G.
  rewrite total_map in W by apply Hx. rewrite total_map in G by apply Hx.
  split; cbn [threads cancelled_ aborted].
  - pose proof (c_workers n s H). lia.
  - intros E. destruct (Hg E) as [Ec Eg]. pose proof (c_gone n s H Ec). lia.
Qed.

Lemma counted_move n s i th th' q m sch st fin ab : counted n s -> threads s !! i = Some th -> worker th' = worker th ->
  (cancelled_ s = false -> gone th' + length (aborted s) = gone th + length ab) ->
  counted n (mk_pool q (cancelled_ s) m (<[i := th']> (threads s)) sch st fin ab).
Proof.
  intros H Hi Hw Hg. rewrite <- (list_fmap_id (threads s)). apply (counted_step n id s i th th'); auto.
Qed.

Lemma counted_wake_worker x : worker (wake_worker x) = worker x /\ gone (wake_worker x) = gone x.
Proof. now destruct x. Qed.

Lemma counted_wake_client x : worker (wake_client x) = worker x /\ gone (wake_client x) = gone x.
Proof. now destruct x. Qed.

Lemma counted_next n s i th rest q m : counted n s -> threads s !! i = Some th -> worker th = 0 -> gone th = 0 ->
  counted n (mk_pool q (cancelled_ s) m (<[i := next_call rest]> (threads s)) (scheduled s) (started s) (finished s) (aborted s)).
Proof. intros H Hi Hw Hg. apply (counted_move n s i th); auto; destruct rest; cbn; lia. Qed.

Lemma counted_enter n s i th th' s' : counted n s -> threads s !! i = Some th -> enter i th' s = Some s' ->
  worker th' = worker th -> gone th' = gone th -> counted n s'.
Proof.
  intros H Hi E Hw Hg. unfold enter in E. destruct (mutex_ s); [done|]. injection E as <-.
  apply (counted_move n s i th th'); auto.
Qed.

Lemma counted_get_task n s i s' : counted n s -> threads s !! i = Some WTest -> get_task i s = Some s' -> counted n s'.
Proof.
  intros H Hi E. unfold get_task, leave in E. destruct (cancelled_ s) eqn:Ec.
  - injection E as <-. apply (counted_move n s i WTest); auto. congruence.
  - destruct (queue_ s) as [|t q]; injection E as <-.
    + apply (counted_move n s i WTest); auto.
    + apply (counted_step n wake_client s i WTest); auto using counted_wake_client.
Qed.

Lemma counted_exec n s i e s' : counted n s -> exec i e s = Some s' -> counted n s'.
Proof.
  intros H. unfold exec. destruct (threads s !! i) as [th|] eqn:Hi; [|done].
  destruct th as [| | | |[t|]|t| |c rest|[t| | |] rest|rest|rest|join rest|rest|]; destruct e; try done; intros E;
    try (now apply (counted_enter n s i _ _ s' H Hi E));
    try (injection E as <-; now apply (counted_move n s i _ _ _ _ _ _ _ _ H Hi)).
  - now apply (counted_get_task n s i).
  - injection E as <-. apply (counted_move n s i _ _ _ _ _ _ _ _ H Hi); [done|]. intros _. cbn. rewrite length_app. cbn. lia.
  - injection E as <-. apply (counted_step n wake_worker s i _ _ _ _ _ _ _ _ _ H Hi); auto using counted_wake_worker.
  - injection E as <-. apply (counted_step n wake_worker s i _ _ _ _ _ _ _ _ _ H Hi); auto using counted_wake_worker. done.
  - unfold wait_until_empty, leave in E. destruct (queue_ s); injection E as <-; now apply (counted_move n s i _ _ _ _ _ _ _ _ H Hi).
  - injection E as <-. apply (counted_step n wake_worker s i _ _ _ _ _ _ _ _ _ H Hi); auto using counted_wake_worker. done.
  - injection E as <-. destruct join; [now apply (counted_move n s i _ _ _ _ _ _ _ _ H Hi) | now apply (counted_next n s i _ _ _ _ H Hi)].
  - destruct (forallb exited (threads s)); [|done]. injection E as <-. now apply (counted_next n s i _ _ _ _ H Hi).
Qed.

Lemma counted_init n clients : counted n (init n clients).
Proof.
  assert (forall m, total worker (repeat WEnter m) = m /\ total gone (repeat WEnter m) = 0) as Hr.
  { induction m as [|m [IH1 IH2]]; [done|]. unfold total in *. cbn. now rewrite IH1, IH2. }
  assert (total worker (map next_call clients) = 0 /\ total gone (map next_call clients) = 0) as [Hc1 Hc2].
  { induction clients as [|c l [IH1 IH2]]; [done|]. unfold total in *. cbn. rewrite IH1, IH2. now destruct c. }
  destruct (Hr n) as [Hr1 Hr2]. split; cbn [init threads cancelled_ aborted]; rewrite total_app; cbn [length]; lia.
Qed.

Lemma reachable_counted n clients s : reachable n clients s -> counted n s.
Proof. induction 1; [apply counted_init | eauto using counted_exec]. Qed.

(** ** The states in which nothing moves *)

Definition at_rest s : Prop := forall i, exec i Go s = None.

Lemma rest_unlocked s : inv s -> at_rest s -> mutex_ s = None.
Proof.
  intros H R. destruct (mutex_ s) as [i|] eqn:Em; [|done].
  apply (i_owner s H) in Em as (th & Hi & Hl). specialize (R i). unfold exec in R. rewrite Hi in R.
  destruct th as [| | | |[t|]|t| |c rest|[t| | |] rest|rest|rest|join rest|rest|]; try done.
  - unfold get_task, leave in R. destruct (cancelled_ s); [done|]. now destruct (queue_ s).
  - unfold wait_until_empty, leave in R. now destruct (queue_ s).
Qed.

(** Asleep, gone or waiting for the others to go. *)
Definition resting s th : Prop :=
  match th with WWait | WExit | CDone | CWait _ => True | CJoin _ => forallb exited (threads s) = false | _ => False end.

Lemma rest_threads s th : inv s -> at_rest s -> th ∈ threads s -> resting s th.
Proof.
  intros H R [i Hi]%list_elem_of_lookup. pose proof (rest_unlocked s H R) as Em.
  assert (has_lock th = false) as Hl.
  { destruct (has_lock th) eqn:E; [|done]. pose proof (lock_owner s i th H Hi E). congruence. }
  specialize (R i). unfold exec, enter in R. rewrite Hi, Em in R.
  destruct th as [| | | |[t|]|t| |c rest|[t| | |] rest|rest|rest|join rest|rest|]; try done.
  cbn. now destruct (forallb exited (threads s)).
Qed.

Lemma rest_in_progress s l : (forall th, th ∈ l -> resting s th) -> in_progress l = [].
Proof.
  induction l as [|x l IH]; intros H; [done|]. unfold in_progress in *. cbn.
  rewrite IH by (intros; apply H; now right). assert (resting s x) as Hx by (apply H; left). now destruct x as [| | | |[]| | | | | | | | |].
Qed.

(** A worker that is not gone sleeps. *)
Lemma rest_worker s l : (forall th, th ∈ l -> resting s th) -> total gone l < total worker l -> WWait ∈ l.
Proof.
  induction l as [|x l IH]; intros H Hlt; [cbn in Hlt; lia|]. assert (resting s x) as Hx by (apply H; left).
  unfold total in *. cbn in Hlt. destruct x; try done; try left;
    right; (apply IH; [intros; apply H; now right | cbn in Hlt; lia]).
Qed.

(** With the pool cancelled, every worker has left and the destructor returns. *)
Lemma rest_cancelled s th : inv s -> at_rest s -> cancelled_ s = true -> th ∈ threads s ->
  th = WExit \/ th = CDone \/ exists rest, th = CWait rest.
Proof.
  intros H R Ec Hth.
  assert (forallb exited (threads s) = true) as Hall.
  { apply forallb_forall. intros x Hx%list_elem_of_In. pose proof (rest_threads s x H R Hx) as Hr.
    destruct x; try done. apply (i_worker s H) in Hx as [_ E]. congruence. }
  pose proof (rest_threads s th H R Hth) as Hr. destruct th; cbn in Hr; try done; eauto; try congruence.
  apply (i_worker s H) in Hth as [_ E]. congruence.
Qed.

Lemma rest_live s th : inv s -> at_rest s -> cancelled_ s = false -> queue_ s = [] -> th ∈ threads s ->
  th = WWait \/ th = WExit \/ th = CDone.
Proof.
  intros H R Ec Eq Hth. pose proof (rest_threads s th H R Hth) as Hr. destruct th; cbn in Hr; try done; auto.
  - now apply (i_client s H) in Hth.
  - apply (i_destroy s H) in Hth; [congruence | done].
Qed.

(** A step for a reason. *)
Definition moves s s' : Prop := exists i e, e <> Spurious /\ exec i e s = Some s'.

Lemma moves_bounded k s s' : nsteps moves k s s' -> k + measure s' <= measure s.
Proof. induction 1 as [|k a b c (i & e & Hne & E) _ IH]; [lia|]. pose proof (exec_measure _ _ _ _ E Hne). lia. Qed.

(** C30: The pool always comes to rest, and it does so only when its work is done. Whatever
    the interleaving, there is a bound on the number of steps that are not spurious wake-ups.
    When no thread can move: no task is in progress; if the pool was cancelled then all workers
    have left their loop, a destructor has returned, and the only clients that are left wait
    for a queue that is not empty; if it was not cancelled, and less tasks have thrown than
    there are workers, then the queue is empty, every task that was scheduled was executed (or
    has thrown), and all clients have finished all their calls. *)
Theorem pool_comes_to_rest n clients s : reachable n clients s ->
  (forall k s', nsteps moves k s s' -> k <= measure s) /\
  (at_rest s ->
     in_progress (threads s) = [] /\
     (cancelled_ s = true -> forall th, th ∈ threads s ->
        th = WExit \/ th = CDone \/ exists rest, th = CWait rest /\ queue_ s <> []) /\
     (cancelled_ s = false -> length (aborted s) < n ->
        queue_ s = [] /\ scheduled s ≡ₚ finished s ++ aborted s /\
        forall th, th ∈ threads s -> th = WWait \/ th = WExit \/ th = CDone)).
Proof.
  intros Hr. pose proof (reachable_inv _ _ _ Hr) as H. pose proof (reachable_counted _ _ _ Hr) as Hc. split.
  { intros k s' Hk. pose proof (moves_bounded k s s' Hk). lia. }
  intros R. pose proof (rest_in_progress s (threads s) (fun th Hth => rest_threads s th H R Hth)) as Hp.
  split; [done|]. split.
  - intros Ec th Hth. destruct (rest_cancelled s th H R Ec Hth) as [->|[->|(rest & ->)]]; auto.
    right; right. exists rest. split; [done|]. now apply (i_client s H rest).
  - intros Ec Hn. assert (WWait ∈ threads s) as Hw.
    { apply (rest_worker s); [intros th Hth; now apply rest_threads|].
      rewrite (c_workers n s Hc), (c_gone n s Hc Ec). done. }
    apply (i_worker s H) in Hw as [Eq _]. split; [done|]. split; [|intros th; now apply rest_live].
    rewrite (i_order s H), Eq, app_nil_r, (i_tasks s H), Hp, app_nil_r. done.
Qed.

(** ** Waiting for a cancelled pool *)

(** In [wait_until_empty]. *)
Definition awaiting th : bool := match th with CWait _ | CWoken _ | CTest WaitUntilEmpty _ => true | _ => false end.

(** The client [i] waits, and nobody will empty the queue. *)
Definition forsaken (i : nat) s : Prop :=
  cancelled_ s = true /\ queue_ s <> [] /\ exists th, threads s !! i = Some th /\ awaiting th = true.

Lemma forsaken_step f i s j th th' q m sch st fin ab : forsaken i s -> threads s !! j = Some th ->
  (forall x, awaiting (f x) = awaiting x) -> (awaiting th = true -> awaiting th' = true) -> q <> [] ->
  forsaken i (mk_pool q true m (<[j := th']> (f <$> threads s)) sch st fin ab).
Proof.
  intros (_ & _ & x & Hi & Hx) Hj Hf Hth Hq. split; [done|]. split; [done|]. cbn [threads].
  destruct (decide (i = j)) as [<-|Hne].
  - exists th'. rewrite list_lookup_insert_eq by (rewrite length_fmap; now apply lookup_lt_Some in Hi).
    split; [done|]. apply Hth. congruence.
  - exists (f x). rewrite list_lookup_insert_ne, list_lookup_fmap, Hi by done. split; [done|]. now rewrite Hf.
Qed.

Lemma forsaken_move i s j th th' m sch st fin ab : forsaken i s -> threads s !! j = Some th ->
  (awaiting th = true -> awaiting th' = true) ->
  forsaken i (mk_pool (queue_ s) (cancelled_ s) m (<[j := th']> (threads s)) sch st fin ab).
Proof.
  intros H Hj Hth. rewrite <- (list_fmap_id (threads s)). pose proof H as (-> & Hq & _).
  now apply (forsaken_step id i s j th th').
Qed.

Lemma forsaken_enter i s j th th' s' : forsaken i s -> threads s !! j = Some th -> enter j th' s = Some s' ->
  (awaiting th = true -> awaiting th' = true) -> forsaken i s'.
Proof.
  intros H Hj E Hth. unfold enter in E. destruct (mutex_ s); [done|]. injection E as <-. now apply (forsaken_move i s j th th').
Qed.

Lemma awaiting_wake x : awaiting (wake_worker x) = awaiting x.
Proof. now destruct x. Qed.

Lemma forsaken_exec i s j e s' : forsaken i s -> exec j e s = Some s' -> forsaken i s'.
Proof.
  intros H. pose proof H as (Ec & Eq & _). unfold exec. destruct (threads s !! j) as [th|] eqn:Hj; [|done].
  destruct th as [| | | |[t|]|t| |c rest|[t| | |] rest|rest|rest|join rest|rest|]; destruct e; try done; intros E;
    try (now apply (forsaken_enter i s j _ _ s' H Hj E));
    try (injection E as <-; now apply (forsaken_move i s j _ _ _ _ _ _ _ H Hj)).
  - unfold get_task in E. rewrite Ec in E. injection E as <-. now apply (forsaken_move i s j _ _ _ _ _ _ _ H Hj).
  - injection E as <-. cbn. unfold wake, set_thread. cbn. rewrite Ec.
    apply (forsaken_step wake_worker i s j _ _ _ _ _ _ _ _ H Hj); auto using awaiting_wake. now destruct (queue_ s).
  - injection E as <-. now apply (forsaken_step wake_worker i s j _ _ _ _ _ _ _ _ H Hj); auto using awaiting_wake.
  - unfold wait_until_empty, leave in E. destruct (queue_ s) eqn:Eq'; [done|]. injection E as <-.
    now apply (forsaken_move i s j _ _ _ _ _ _ _ H Hj).
  - injection E as <-. now apply (forsaken_step wake_worker i s j _ _ _ _ _ _ _ _ H Hj); auto using awaiting_wake.
  - destruct (forallb exited (threads s)); [|done]. injection E as <-. now apply (forsaken_move i s j _ _ _ _ _ _ _ H Hj).
Qed.

(** A client that is in [wait_until_empty] when the pool is cancelled with tasks left in the
    queue never returns from it, whatever the other threads do, new calls to [schedule]
    included: the workers take no more tasks. *)
Theorem cancelled_wait_forever i s s' : forsaken i s -> rtc (fun a b => exists j e, exec j e a = Some b) s s' -> forsaken i s'.
Proof. intros H R. induction R as [|a b c (j & e & E) _ IH]; [done|]. apply IH. now apply (forsaken_exec i a j e). Qed.

End Correct.

(** ** Concrete runs *)

(** Runs of given steps. *)
Fixpoint exec_list {task} (l : list (nat * event)) (s : pool task) : option (pool task) :=
  match l with [] => Some s | (i, e) :: l => s' ← exec i e s; exec_list l s' end.

Lemma exec_list_reachable {task} n (clients : list (list (call task))) l s s' :
  reachable n clients s -> exec_list l s = Some s' -> reachable n clients s'.
Proof.
  revert s; induction l as [|[i e] l IH]; intros s H E; cbn in E; [now injection E as <-|].
  destruct (exec i e s) as [t|] eqn:Ee; [|done]. apply (IH t); [|done]. now apply (reach_step n clients s i e).
Qed.

(** Two workers, one client that schedules two tasks and waits for them; the first one throws. *)
Definition demo_clients : list (list (call nat)) := [[Schedule 10; Schedule 20; WaitUntilEmpty]].
Definition demo_steps : list (nat * event) :=
  [(0, Go); (0, Go);                                 (* the first worker sleeps *)
   (2, Go); (2, Go); (2, Go);                        (* schedule 10 *)
   (0, Go); (0, Go); (0, Go); (0, Throws);           (* taken, and thrown *)
   (2, Go); (2, Go); (2, Go);                        (* schedule 20 *)
   (2, Go); (2, Go);                                 (* the client waits *)
   (1, Go); (1, Go); (1, Go);                        (* the second worker takes it *)
   (2, Go); (2, Go); (2, Go);
   (1, Go); (1, Go); (1, Go)].
Definition demo_end : pool nat := mk_pool [] false None [WExit; WWait; CDone] [10; 20] [10; 20] [20] [10].

Example demo_run : exec_list demo_steps (init 2 demo_clients) = Some demo_end.
Proof. reflexivity. Qed.

(** The witness of [tasks_taken_once]. *)
Lemma tasks_taken_once_witness :
  scheduled demo_end = started demo_end ++ queue_ demo_end /\
  started demo_end ≡ₚ finished demo_end ++ aborted demo_end ++ in_progress (threads demo_end).
Proof.
  destruct (tasks_taken_once 2 demo_clients demo_end
    (exec_list_reachable 2 demo_clients demo_steps _ _ (reach_init _ _) demo_run)) as (H1 & H2 & _).
  exact (conj H1 H2).
Defined.

Lemma demo_at_rest : at_rest demo_end.
Proof. intros [|[|[|i]]]; reflexivity. Qed.

(** The witness of [pool_comes_to_rest]. *)
Lemma pool_comes_to_rest_witness : scheduled demo_end ≡ₚ finished demo_end ++ aborted demo_end.
Proof.
  destruct (pool_comes_to_rest 2 demo_clients demo_end
    (exec_list_reachable 2 demo_clients demo_steps _ _ (reach_init _ _) demo_run)) as [_ H].
  destruct (H demo_at_rest) as (_ & _ & H3). apply H3; [reflexivity | cbn; lia].
Defined.

(** A task is left in the queue: one client waits for it, another one cancels. *)
Definition cancel_end : pool nat := mk_pool [10] true None [WExit; CWait []; CDone] [10] [] [] [].

Example cancel_run :
  exec_list [(1, Go); (1, Go); (1, Go); (1, Go); (1, Go); (2, Go); (2, Go); (2, Go); (0, Go); (0, Go); (0, Go)]
    (init 1 [[Schedule 10; WaitUntilEmpty]; [Cancel]]) = Some cancel_end.
Proof. reflexivity. Qed.

Example cancel_leaves_waiter : forsaken 1 cancel_end /\ at_rest cancel_end.
Proof.
  split.
  - split; [reflexivity|]. split; [discriminate|]. exists (CWait []). split; reflexivity.
  - intros [|[|[|i]]]; reflexivity.
Qed.

(** ** The deadline of a wait *)

(** The deadline is the right time, but it is a valid [timespec] only if the parts of a second
    do not add up to a second: otherwise the wait fails at once. *)
Lemma wait_deadline_time sec usec ms d : (0 <= ms)%Z -> wait_deadline sec usec ms = Some d ->
  (fst d * 1000000000 + snd d = sec * 1000000000 + usec * 1000 + ms * 1000000)%Z.
Proof.
  unfold wait_deadline. intros Hms. destruct (Z.eqb_spec ms (-1)); [done|]. intros E. injection E as <-. cbn [fst snd].
  pose proof (Z.quot_rem' ms 1000). lia.
Qed.

Lemma wait_deadline_valid sec usec ms : (0 <= usec < 1000000)%Z -> (0 <= ms)%Z ->
  forall d, wait_deadline sec usec ms = Some d -> valid_timespec d = (usec / 1000 + ms mod 1000 <? 1000)%Z.
Proof.
  intros Hu Hms d. unfold wait_deadline. destruct (Z.eqb_spec ms (-1)); [lia|]. intros E. injection E as <-.
  unfold valid_timespec. cbn [snd]. rewrite (Z.rem_mod_nonneg ms 1000) by lia.
  pose proof (Z.mod_pos_bound ms 1000 eq_refl). pose proof (Z.div_mod usec 1000 ltac:(lia)). pose proof (Z.mod_pos_bound usec 1000 eq_refl).
  destruct (Z.leb_spec 0 (usec * 1000 + ms mod 1000 * 1000000)%Z); [|lia]. cbn [andb].
  destruct (Z.ltb_spec (usec * 1000 + ms mod 1000 * 1000000) 1000000000)%Z, (Z.ltb_spec (usec / 1000 + ms mod 1000) 1000)%Z; lia.
Qed.

Example deadline_overflows : wait_deadline 0 999999 1 = Some (0, 1000999000)%Z /\ valid_timespec (0, 1000999000)%Z = false.
Proof. split; reflexivity. Qed.
