(* ===== verification/Elf.v ===== *)
(** * ELF files ([elfz/])

    The wrappers of libelf that the symbol tables, the dynamic linker events and core files are
    read with: headers, sections, symbol tables, program headers, notes, and the queries of
    [Binary]. What libelf gives for a file is a record; the tables are read from the bytes that
    libelf returns. *)
From S2P Require Import Prelude Stream.
Local Open Scope Z_scope.

Definition u64_ (n : Z) : Z := n mod 2 ^ 64.

(** ** What libelf gives *)

Record Ehdr : Type := mk_ehdr {
  e_type : Z; e_machine : Z; e_version : Z; e_entry : Z; e_phoff : Z; e_shoff : Z; e_flags : Z;
  e_ehsize : Z; e_phentsize : Z; e_phnum : Z; e_shentsize : Z; e_shnum : Z; e_shstrndx : Z
}.

Record Phdr : Type := mk_phdr {
  p_type : Z; p_flags : Z; p_offset : Z; p_vaddr : Z; p_paddr : Z; p_filesz : Z; p_memsz : Z; p_align : Z
}.

Record Shdr : Type := mk_shdr {
  sh_name : Z; sh_type : Z; sh_flags : Z; sh_addr : Z; sh_offset : Z; sh_size : Z; sh_link : Z;
  sh_info : Z; sh_addralign : Z; sh_entsize : Z
}.

(** [elfxx_getshdr] and [elf_getdata] of a section; [None]: a null pointer. *)
Record Scn : Type := mk_scn { getshdr : option Shdr; getdata : option bytes }.

Record Elf : Type := mk_elf {
  getident : option bytes;                 (* [elf_getident] *)
  getehdr : option Ehdr;                   (* [elfxx_getehdr] *)
  getphdr : list Phdr;                     (* [elfxx_getphdr]: an array, or null *)
  scns : list Scn;                         (* [elf_getscn], [elf_nextscn] *)
  strptr : Z -> Z -> option bytes          (* [elf_strptr] *)
}.

Definition ELFCLASS32 : Z := 1.
Definition ELFCLASS64 : Z := 2.
Definition ELFMAG : bytes := char_of_int 127 :: B "ELF".

Definition EI_CLASS : nat := 4.
Definition EI_OSABI : nat := 7.
Definition EI_ABIVERSION : nat := 8.

(** ** Reading numbers in tables *)

(** A field of [n] bytes at an offset. *)
Definition field (s : bytes) (at_ : Z) (n : nat) : res Z :=
  if (at_ <? 0) || (Z.of_nat (length s) <? at_ + Z.of_nat n) then Fail OutOfBounds
  else Ok (le_val (firstn n (skipn (Z.to_nat at_) s))).

(** ** [Selector]: the class of a file *)

Definition magic_ok (ident : bytes) : bool := if list_eq_dec ascii_dec (firstn 4 ident) ELFMAG then true else false.

Definition Selector (elf : Elf) : res Z :=
  match getident elf with
  | None => Fail Thrown
  | Some ident =>
      if magic_ok ident then
        let klass := code (nth EI_CLASS ident NUL) in
        if (klass =? ELFCLASS32) || (klass =? ELFCLASS64) then Ok klass else Fail Thrown
      else Fail Thrown
  end.

(** ** [ElfHdr] and [SectionHdr] *)

Definition ElfHdr (elf : Elf) : res Ehdr :=
  let* _ := Selector elf in
  match getehdr elf with Some h => Ok h | None => Fail Thrown end.

Definition SectionHdr (elf : Elf) (scn : Scn) : res Shdr :=
  let* _ := Selector elf in
  match getshdr scn with Some h => Ok h | None => Fail Thrown end.

(** [SectionHdr::name]. *)
Definition section_name (elf : Elf) (h : Shdr) : res (option bytes) :=
  let* eh := ElfHdr elf in Ok (strptr elf (e_shstrndx eh) (sh_name h)).

(** ** [Section] *)

Record Section_ : Type := mk_section { scn_ : nat; hdr_ : Shdr; contents_ : option bytes }.

Definition Section_new (elf : Elf) (i : nat) (scn : Scn) : res Section_ :=
  let* h := SectionHdr elf scn in Ok (mk_section i h (getdata scn)).

(** [Section::data]: without data the name of the section is needed for the message. *)
Definition section_data (elf : Elf) (s : Section_) : res bytes :=
  match contents_ s with
  | Some d => Ok d
  | None => let* name := section_name elf (hdr_ s) in match name with Some _ => Fail Thrown | None => Fail NullDeref end
  end.

(** A loop over the sections from number [i] on: [IterationTraits<Section>::first], and
    [Section::next] behind each turn. The body goes on with [inl] and leaves with [inr]. *)
Fixpoint for_sections {A} (elf : Elf) (i : nat) (l : list Scn) (body : Section_ -> A -> res (A + A)) (a : A) : res A :=
  match l with
  | [] => Ok a
  | scn :: l =>
      let* s := Section_new elf i scn in
      let* r := body s a in
      match r with
      | inr a => Ok a
      | inl a => for_sections elf (S i) l body a
      end
  end.

Definition sections {A} (elf : Elf) (body : Section_ -> A -> res (A + A)) (a : A) : res A :=
  for_sections elf 0 (scns elf) body a.

Definition SHT_SYMTAB : Z := 2.
Definition SHT_DYNAMIC : Z := 6.
Definition SHT_DYNSYM : Z := 11.

Definition is_symbol_table (s : Section_) : bool :=
  (sh_type (hdr_ s) =? SHT_SYMTAB) || (sh_type (hdr_ s) =? SHT_DYNSYM).
Definition is_dynamic_symbol_table (s : Section_) : bool := sh_type (hdr_ s) =? SHT_DYNSYM.

(** [SymbolTable::next_symbol_table], from section [i] on. *)
Fixpoint next_symbol_table (elf : Elf) (i : nat) (l : list Scn) : res (option (Section_ * list Scn)) :=
  match l with
  | [] => Ok None
  | scn :: l =>
      let* s := Section_new elf i scn in
      if is_symbol_table s then Ok (Some (s, l)) else next_symbol_table elf (S i) l
  end.

(** The loop over [symbol_tables()]; each turn takes at least one section. *)
Fixpoint symbol_tables_from (fuel : nat) (elf : Elf) (i : nat) (l : list Scn) : res (list Section_) :=
  match fuel with
  | O => Fail OutOfFuel
  | S fuel =>
      let* r := next_symbol_table elf i l in
      match r with
      | None => Ok []
      | Some (s, l) => let* rest := symbol_tables_from fuel elf (S (scn_ s)) l in Ok (s :: rest)
      end
  end.

Definition symbol_tables (elf : Elf) : res (list Section_) :=
  symbol_tables_from (S (length (scns elf))) elf 0 (scns elf).

(** ** Symbols *)

Record Symbol : Type := mk_sym { y_name : option bytes; y_value : Z; y_size : Z; y_info : Z }.

(** [Symbol()]. *)
Definition null_symbol : Symbol := mk_sym None 0 0 0.

(** [ELF32_ST_BIND], [ELF32_ST_TYPE]. *)
Definition sym_bind (y : Symbol) : Z := Z.shiftr (y_info y) 4.
Definition sym_type (y : Symbol) : Z := Z.land (y_info y) 15.

Section Symbols.
Variables (elf : Elf) (klass : Z) (link : Z) (data : bytes).

(** [sizeof(Elf32_Sym)] or [sizeof(Elf64_Sym)]. *)
Definition sym_step : Z := if klass =? ELFCLASS32 then 16 else 24.

(** [sym32] and [sym64]. *)
Definition sym_read (ptr : Z) : res Symbol :=
  let* _ := field data ptr (Z.to_nat sym_step) in
  if klass =? ELFCLASS32 then
    let* name := field data ptr 4 in
    let* value := field data (ptr + 4) 4 in
    let* size := field data (ptr + 8) 4 in
    let* info := field data (ptr + 12) 1 in
    Ok (mk_sym (strptr elf link name) value size info)
  else
    let* name := field data ptr 4 in
    let* info := field data (ptr + 4) 1 in
    let* value := field data (ptr + 8) 8 in
    let* size := field data (ptr + 16) 8 in
    Ok (mk_sym (strptr elf link name) value size info).

(** [SymbolIteratorBase::size]. *)
Definition sym_count : Z := Z.of_nat (length data) / sym_step.

(** The loop [for (i = begin(); i != end(); ++i)]: [begin] does not read the first symbol,
    [increment] reads the next one unless it is at the end. *)
Fixpoint symbols_from (fuel : nat) (ptr : Z) (sym : Symbol) : res (list Symbol) :=
  match fuel with
  | O => Fail OutOfFuel
  | S fuel =>
      let end_ := Z.of_nat (length data) in
      if ptr =? end_ then Ok []
      else
        let ptr := if ptr <? end_ then ptr + sym_step else ptr in
        let* next := if ptr <? end_ then sym_read ptr else Ok sym in
        let* rest := symbols_from fuel ptr next in
        Ok (sym :: rest)
  end.

End Symbols.

(** The symbols of a table, as its iterator gives them. *)
Definition symbols (elf : Elf) (s : Section_) : res (list Symbol) :=
  let* klass := Selector elf in
  let* data := section_data elf s in
  symbols_from elf klass (sh_link (hdr_ s)) data (S (length data)) 0 null_symbol.

(** ** Program headers *)

(** The loop over the program headers: [ProgramHeader::next] looks up [e_phnum] and moves the
    pointer on in the array that libelf has returned. *)
Fixpoint for_phdrs {A} (elf : Elf) (index : Z) (l : list Phdr) (body : Phdr -> A -> res (A + A)) (a : A) : res A :=
  match l with
  | [] => Fail OutOfBounds
  | h :: l =>
      let* r := body h a in
      match r with
      | inr a => Ok a
      | inl a =>
          let* eh := ElfHdr elf in
          if index + 1 <? e_phnum eh then for_phdrs elf (index + 1) l body a else Ok a
      end
  end.

(** [ProgramHeader(elf)], then [next]. *)
Definition program_headers {A} (elf : Elf) (body : Phdr -> A -> res (A + A)) (a : A) : res A :=
  let* _ := Selector elf in
  match getphdr elf with
  | [] => Fail Thrown
  | l => for_phdrs elf 0 l body a
  end.

Definition PT_LOAD : Z := 1.
Definition PT_INTERP : Z := 3.
Definition PT_NOTE : Z := 4.
Definition PF_X : Z := 1.

(** ** [Binary] *)

(** [check_format]. *)
Definition check_format (elf : Elf) : bool := match getident elf with Some ident => magic_ok ident | None => false end.

Definition abi (elf : Elf) : Z := match getident elf with Some ident => code (nth EI_OSABI ident NUL) | None => 0 end.
Definition abi_version (elf : Elf) : Z :=
  match getident elf with Some ident => code (nth EI_ABIVERSION ident NUL) | None => 0 end.

(** [get_load_addr], with the size in memory. *)
Definition get_load_addr (elf : Elf) : res (Z * Z) :=
  program_headers elf (fun h a => Ok (if p_type h =? PT_LOAD then inr (p_vaddr h, p_memsz h) else inl a)) (0, 0).

(** An entry of a dynamic section: the tag and the value. *)
Definition dyn_size (klass : Z) : Z := if klass =? ELFCLASS32 then 8 else 16.
Definition dyn_word (klass : Z) : nat := if klass =? ELFCLASS32 then 4 else 8.

Definition dyn_read (klass : Z) (d : bytes) (n : Z) : res (Z * Z) :=
  let* tag := field d (n * dyn_size klass) (dyn_word klass) in
  let* val := field d (n * dyn_size klass + Z.of_nat (dyn_word klass)) (dyn_word klass) in
  Ok (tag, val).

(** The loop [for (n = 0; n != count; ++n)] over a dynamic section. *)
Fixpoint dyn_loop {A} (klass : Z) (d : bytes) (n : Z) (more : nat) (body : Z -> Z * Z -> A -> A + A) (a : A) : res A :=
  match more with
  | O => Ok a
  | S more =>
      let* dyn := dyn_read klass d n in
      match body n dyn a with
      | inr a => Ok a
      | inl a => dyn_loop klass d (n + 1) more body a
      end
  end.

Definition dynamic {A} (klass : Z) (d : bytes) (body : Z -> Z * Z -> A -> A + A) (a : A) : res A :=
  dyn_loop klass d 0 (Z.to_nat (Z.of_nat (length d) / dyn_size klass)) body a.

Definition DT_NEEDED : Z := 1.
Definition DT_PLTRELSZ : Z := 2.
Definition DT_RPATH : Z := 15.
Definition DT_DEBUG : Z := 21.
Definition DT_JMPREL : Z := 23.
Definition DT_RUNPATH : Z := 29.

Definition linker_debug_struct_addr (klass : Z) (d : bytes) (addr : Z) : res Z :=
  dynamic klass d (fun n dyn a =>
    if fst dyn =? DT_DEBUG then inr (u64_ (addr + (n * dyn_size klass + Z.of_nat (dyn_word klass)))) else inl a) 0.

(** A turn of the loop below: whether there is a dynamic section, and the address. *)
Definition debug_turn (elf : Elf) (klass : Z) (s : Section_) (a : bool * Z) : res (bool * Z + bool * Z) :=
  if snd a =? 0 then
    if sh_type (hdr_ s) =? SHT_DYNAMIC then
      let* d := section_data elf s in
      let* addr := linker_debug_struct_addr klass d (sh_addr (hdr_ s)) in
      Ok (inl (true, if addr <? sh_addr (hdr_ s) then 0 else addr))
    else Ok (inl a)
  else Ok (inr a).

(** The address at which the linker puts the address of its debug structure; all ones when
    there is no dynamic section. The loop ends in front of the section that follows the one
    that has it. *)
Definition get_linker_debug_struct_addr (elf : Elf) : res Z :=
  let* _ := ElfHdr elf in
  let* klass := Selector elf in
  let* r := sections elf (debug_turn elf klass) (false, 0) in
  Ok (if fst r then snd r else 2 ^ 64 - 1).

(** [_get_plt_addr]. *)
Definition plt_entry (dyn : Z * Z) (plt : Z * Z) : Z * Z :=
  if fst dyn =? DT_JMPREL then (snd dyn, snd plt)
  else if fst dyn =? DT_PLTRELSZ then (fst plt, snd dyn)
  else plt.

(** [get_plt_addr], with what is cached. *)
Definition get_plt_addr (elf : Elf) (plt : Z * Z) : res (Z * Z) :=
  if fst plt =? 0 then
    let* _ := ElfHdr elf in
    let* klass := Selector elf in
    sections elf (fun s plt =>
      if sh_type (hdr_ s) =? SHT_DYNAMIC then
        let* d := section_data elf s in
        let* plt := dynamic klass d (fun _ dyn plt => inl (plt_entry dyn plt)) plt in
        Ok (inl plt)
      else Ok (inl plt)) plt
  else Ok plt.

(** ** [File::readbuf] *)

(** Reads [len] bytes at an offset of the file, all or nothing: at the end of the file it
    reads none, a part of the bytes is an error. An offset that is negative as [off_t] is an
    error of [lseek]. *)
Definition readbuf (file : bytes) (offs len : Z) : res bytes :=
  if 2 ^ 63 <=? offs then Fail Thrown
  else
    let got := firstn (Z.to_nat len) (skipn (Z.to_nat offs) file) in
    if Z.of_nat (length got) =? 0 then Ok []
    else if Z.of_nat (length got) =? len then Ok got
    else Fail Thrown.

(** ** Notes *)

Record Note : Type := mk_note { n_type : Z; n_name : bytes; n_desc : bytes }.

(** [align(n, 2)]. *)
Definition align4 (n : Z) : Z := Z.land (n + 3) (Z.ldiff (2 ^ 64 - 1) 3).

(** [n] bytes of the buffer at an offset. *)
Definition slice (s : bytes) (at_ n : Z) : res bytes :=
  if (at_ <? 0) || (Z.of_nat (length s) <? at_ + n) then Fail OutOfBounds
  else Ok (firstn (Z.to_nat n) (skipn (Z.to_nat at_) s)).

(** [sizeof(Elf32_Nhdr)] and [sizeof(Elf64_Nhdr)]. *)
Definition NHDR_SIZE : Z := 12.

(** [Note(file, data)] with [data] at an offset of the buffer, and [total_rounded_size()]. *)
Definition Note_new (s : bytes) (at_ : Z) : res (Note * Z) :=
  let* namesz := field s at_ 4 in
  let* descsz := field s (at_ + 4) 4 in
  let* type := field s (at_ + 8) 4 in
  let* name := slice s (at_ + NHDR_SIZE) namesz in
  let size := NHDR_SIZE + align4 namesz in
  let* desc := slice s (at_ + size) descsz in
  Ok (mk_note type name desc, size + align4 descsz).
