(* ===== verification/ElfCorrect.v ===== *)
(** * Reading ELF files

    The tables of a file are read as they were written: symbols in both classes, the way from
    the bytes of a symbol table to the symbols of the debugger, symbol tables among sections,
    program headers, dynamic sections, notes. *)
From stdpp Require Import base list.
From S2P Require Import Prelude SymbolTable Stream StreamCorrect Elf.
Local Open Scope Z_scope.

(** ** Fields *)

Lemma field_at pre v n post : field (pre ++ little n v ++ post) (Z.of_nat (length pre)) n = Ok (v mod 256 ^ Z.of_nat n).
Proof.
  unfold field. rewrite !length_app, length_le.
  destruct (Z.ltb_spec (Z.of_nat (length pre)) 0); [lia|].
  destruct (Z.ltb_spec (Z.of_nat (length pre + (n + length post))) (Z.of_nat (length pre) + Z.of_nat n)); [lia|]. cbn [orb].
  rewrite Nat2Z.id, skipn_app, skipn_all, Nat.sub_diag. cbn [app]. rewrite skipn_O, firstn_app, length_le, Nat.sub_diag, firstn_O, app_nil_r.
  rewrite <- (length_le n v) at 1. now rewrite firstn_all, le_val_le.
Qed.

(** Records of numbers: the size and the value of each field. *)
Definition layout (l : list (nat * Z)) : bytes := flat_map (fun f => little (fst f) (snd f)) l.
Definition layout_size (l : list (nat * Z)) : nat := fold_right (fun f n => (fst f + n)%nat) 0%nat l.

Lemma layout_length l : length (layout l) = layout_size l.
Proof. induction l as [|[n v] l IH]; [reflexivity|]. cbn. rewrite length_app, length_le. f_equal. exact IH. Qed.

Lemma layout_app l k : layout (l ++ k) = layout l ++ layout k.
Proof. apply flat_map_app. Qed.

(** Field number [k] of a record behind [pre]. *)
Lemma field_layout pre l post k n v at_ : nth_error l k = Some (n, v) ->
  at_ = Z.of_nat (length pre) + Z.of_nat (layout_size (firstn k l)) -> 0 <= v < 256 ^ Z.of_nat n ->
  field (pre ++ layout l ++ post) at_ n = Ok v.
Proof.
  intros Hk -> Hv. apply nth_error_split in Hk as (l1 & l2 & -> & <-).
  rewrite firstn_app, firstn_all, Nat.sub_diag, firstn_O, app_nil_r, layout_app. cbn [layout flat_map fst snd]. rewrite <- !app_assoc.
  change (flat_map _ l2) with (layout l2). rewrite (app_assoc pre), <- layout_length, <- Nat2Z.inj_add, <- length_app, field_at.
  now rewrite Z.mod_small.
Qed.

Lemma field_any s at_ n : 0 <= at_ -> at_ + Z.of_nat n <= Z.of_nat (length s) -> exists v, field s at_ n = Ok v.
Proof.
  intros H1 H2. unfold field. destruct (Z.ltb_spec at_ 0); [lia|].
  destruct (Z.ltb_spec (Z.of_nat (length s)) (at_ + Z.of_nat n)); [lia|]. cbn. eauto.
Qed.

(** ** Symbols *)

(** An entry of a symbol table. *)
Record raw_symbol : Type := mk_raw { st_name : Z; st_info : Z; st_other : Z; st_shndx : Z; st_value : Z; st_size : Z }.

Definition sym_layout (klass : Z) (r : raw_symbol) : list (nat * Z) :=
  if klass =? ELFCLASS32 then
    [(4, st_name r); (4, st_value r); (4, st_size r); (1, st_info r); (1, st_other r); (2, st_shndx r)]%nat
  else
    [(4, st_name r); (1, st_info r); (1, st_other r); (2, st_shndx r); (8, st_value r); (8, st_size r)]%nat.

Definition sym_bytes (klass : Z) (r : raw_symbol) : bytes := layout (sym_layout klass r).

Definition raw_ok (klass : Z) (r : raw_symbol) : Prop :=
  let word := if klass =? ELFCLASS32 then 2 ^ 32 else 2 ^ 64 in
  0 <= st_name r < 2 ^ 32 /\ 0 <= st_info r < 256 /\ 0 <= st_value r < word /\ 0 <= st_size r < word.

(** What the debugger should see of it. *)
Definition symbol_of (elf : Elf) (link : Z) (r : raw_symbol) : Symbol :=
  mk_sym (strptr elf link (st_name r)) (st_value r) (st_size r) (st_info r).

Lemma sym_bytes_length klass r : Z.of_nat (length (sym_bytes klass r)) = sym_step klass.
Proof. unfold sym_bytes, sym_layout, sym_step. rewrite layout_length. destruct (klass =? ELFCLASS32); reflexivity. Qed.

Ltac next_field l k := erewrite (field_layout _ l _ k) by (reflexivity || (cbn; lia)); cbn [bind].

Lemma sym_read_at elf klass link pre r post : raw_ok klass r ->
  sym_read elf klass link (pre ++ sym_bytes klass r ++ post) (Z.of_nat (length pre)) = Ok (symbol_of elf link r).
Proof.
  intros (H1 & H2 & H3 & H4). unfold sym_read.
  destruct (field_any (pre ++ sym_bytes klass r ++ post) (Z.of_nat (length pre)) (Z.to_nat (sym_step klass))) as [v Hv]; [lia| |].
  { pose proof (sym_bytes_length klass r). rewrite !length_app. unfold sym_step in *. destruct (klass =? ELFCLASS32); lia. }
  rewrite Hv. cbn [bind]. unfold sym_bytes, sym_layout in *. destruct (klass =? ELFCLASS32);
    match goal with |- context [layout ?l] => set (L := l) end.
  - next_field L 0%nat. next_field L 1%nat. next_field L 2%nat. next_field L 3%nat. reflexivity.
  - next_field L 0%nat. next_field L 1%nat. next_field L 4%nat. next_field L 5%nat. reflexivity.
Qed.

Lemma sym_step_pos klass : 0 < sym_step klass.
Proof. unfold sym_step. destruct (klass =? ELFCLASS32); lia. Qed.

Definition table_bytes (klass : Z) (l : list raw_symbol) : bytes := flat_map (sym_bytes klass) l.

Lemma table_bytes_length klass l : Z.of_nat (length (table_bytes klass l)) = sym_step klass * Z.of_nat (length l).
Proof.
  induction l as [|r l IH]; cbn [table_bytes flat_map length]; [lia|]. rewrite length_app, Nat2Z.inj_add, sym_bytes_length.
  change (flat_map _ l) with (table_bytes klass l). lia.
Qed.

(** The iterator in front of entry [r], which it holds in [sym] already. *)
Lemma symbols_from_at elf klass link sym r l pre fuel : Forall (raw_ok klass) l -> (length l < fuel)%nat ->
  symbols_from elf klass link (pre ++ table_bytes klass (r :: l)) (S fuel) (Z.of_nat (length pre)) sym =
  Ok (sym :: map (symbol_of elf link) l).
Proof.
  revert sym r pre fuel. induction l as [|r' l IH]; intros sym r pre fuel Hl Hf; cbn [symbols_from]; cbv zeta;
    pose proof (sym_step_pos klass) as Hs; rewrite length_app, Nat2Z.inj_add, table_bytes_length; cbn [length].
  - destruct (Z.eqb_spec (Z.of_nat (length pre)) (Z.of_nat (length pre) + sym_step klass * Z.of_nat 1)); [lia|].
    destruct (Z.ltb_spec (Z.of_nat (length pre)) (Z.of_nat (length pre) + sym_step klass * Z.of_nat 1)); [|lia].
    destruct (Z.ltb_spec (Z.of_nat (length pre) + sym_step klass) (Z.of_nat (length pre) + sym_step klass * Z.of_nat 1)); [lia|].
    cbn [bind]. destruct fuel as [|fuel]; [lia|]. cbn [symbols_from]. cbv zeta.
    rewrite length_app, Nat2Z.inj_add, table_bytes_length. cbn [length].
    destruct (Z.eqb_spec (Z.of_nat (length pre) + sym_step klass) (Z.of_nat (length pre) + sym_step klass * Z.of_nat 1)); [|lia].
    reflexivity.
  - set (e := Z.of_nat (length pre) + sym_step klass * Z.of_nat (S (S (length l)))).
    assert (Z.of_nat (length pre) + sym_step klass < e) as He by (unfold e; nia).
    destruct (Z.eqb_spec (Z.of_nat (length pre)) e); [lia|].
    destruct (Z.ltb_spec (Z.of_nat (length pre)) e); [|lia].
    destruct (Z.ltb_spec (Z.of_nat (length pre) + sym_step klass) e); [|lia].
    inversion Hl as [|? ? Hr' Hl']; subst.
    replace (pre ++ table_bytes klass (r :: r' :: l)) with ((pre ++ sym_bytes klass r) ++ sym_bytes klass r' ++ table_bytes klass l)
      by (cbn [table_bytes flat_map]; now rewrite <- !app_assoc).
    replace (Z.of_nat (length pre) + sym_step klass) with (Z.of_nat (length (pre ++ sym_bytes klass r)))
      by (rewrite length_app, Nat2Z.inj_add, sym_bytes_length; reflexivity).
    rewrite sym_read_at by assumption. cbn [bind]. destruct fuel as [|fuel]; [cbn in Hf; lia|].
    change (sym_bytes klass r' ++ table_bytes klass l) with (table_bytes klass (r' :: l)).
    rewrite IH by (auto; cbn in Hf; lia). reflexivity.
Qed.

(** A class that the readers know. *)
Definition good (elf : Elf) (klass : Z) : Prop := Selector elf = Ok klass.

(** The iterator gives all entries of the table, except that the first one, which is null in
    every file, is given without a name. *)
Lemma symbols_decoded elf klass s r l : good elf klass -> contents_ s = Some (table_bytes klass (r :: l)) ->
  Forall (raw_ok klass) l ->
  symbols elf s = Ok (null_symbol :: map (symbol_of elf (sh_link (hdr_ s))) l).
Proof.
  intros Hk Hd Hl. unfold symbols, section_data. rewrite Hk, Hd. cbn [bind].
  apply (symbols_from_at elf klass (sh_link (hdr_ s)) null_symbol r l [] _ Hl). cbn [table_bytes flat_map].
  pose proof (table_bytes_length klass (r :: l)) as H. pose proof (sym_step_pos klass). cbn [table_bytes flat_map length] in H. nia.
Qed.

(** ** From the bytes to the symbols of the debugger *)

(** What [SymbolTableImpl::read] looks at. *)
Definition table_symbol (y : Symbol) : elf_symbol := SymbolTable.mk_elf (y_name y) (y_value y) (y_info y).

(** The first entry of a symbol table is null. *)
Definition null_raw : raw_symbol := mk_raw 0 0 0 0 0 0.

Lemma read_loop_skips on_symbol e tbl acc : e_value e = 0 \/ e_name e = None ->
  read_loop on_symbol (e :: tbl) acc = read_loop on_symbol tbl acc.
Proof. cbn [read_loop]. intros [H|H]; rewrite H; [destruct (e_name e) as [[|]|]; reflexivity | reflexivity]. Qed.

(** C6: From the bytes of a symbol table of either class to the symbols of the debugger: what
    [SymbolTableImpl::read] collects is what it would collect from the entries themselves. *)
Theorem elf_symbols_read elf klass s l on_symbol : good elf klass ->
  contents_ s = Some (table_bytes klass (null_raw :: l)) -> Forall (raw_ok klass) l ->
  exists ys, symbols elf s = Ok ys /\ Z.of_nat (length ys) = sym_count klass (table_bytes klass (null_raw :: l)) /\
    read_loop on_symbol (map table_symbol ys) [] =
    read_loop on_symbol (map table_symbol (map (symbol_of elf (sh_link (hdr_ s))) (null_raw :: l))) [].
Proof.
  intros Hk Hd Hl. eexists. split; [now apply (symbols_decoded elf klass s null_raw l)|]. split.
  - unfold sym_count. rewrite table_bytes_length. cbn [length]. rewrite length_map, Z.mul_comm, Z.div_mul; [lia|].
    pose proof (sym_step_pos klass). lia.
  - cbn [map]. rewrite !read_loop_skips by (cbn; auto). reflexivity.
Qed.

(** ** Sections *)

(** Every section has a header. *)
Definition headed (l : list Scn) : Prop := Forall (fun scn => getshdr scn <> None) l.

Fixpoint all_sections (i : nat) (l : list Scn) : list Section_ :=
  match l with
  | [] => []
  | scn :: l =>
      match getshdr scn with
      | Some h => mk_section i h (getdata scn) :: all_sections (S i) l
      | None => all_sections (S i) l
      end
  end.

(** A loop over a list that may be left. *)
Fixpoint scan {X A} (body : X -> A -> res (A + A)) (l : list X) (a : A) : res A :=
  match l with
  | [] => Ok a
  | x :: l => let* r := body x a in match r with inr a => Ok a | inl a => scan body l a end
  end.

Lemma Section_new_ok elf klass i scn h : good elf klass -> getshdr scn = Some h ->
  Section_new elf i scn = Ok (mk_section i h (getdata scn)).
Proof. intros Hk Hh. unfold Section_new, SectionHdr. now rewrite Hk, Hh. Qed.

Lemma for_sections_scan {A} elf klass i l body (a : A) : good elf klass -> headed l ->
  for_sections elf i l body a = scan body (all_sections i l) a.
Proof.
  intros Hk. revert i a. induction l as [|scn l IH]; intros i a Hl; [reflexivity|]. cbn [for_sections all_sections].
  inversion Hl as [|? ? Hh Hl']; subst. destruct (getshdr scn) as [h|] eqn:E; [|congruence].
  rewrite (Section_new_ok elf klass i scn h Hk E). cbn [bind scan]. destruct (body _ a) as [[b|b]|f]; cbn [bind]; auto.
Qed.

Lemma next_symbol_table_spec elf klass i l : good elf klass -> headed l ->
  match next_symbol_table elf i l with
  | Ok None => List.filter is_symbol_table (all_sections i l) = []
  | Ok (Some (s, m)) => List.filter is_symbol_table (all_sections i l) = s :: List.filter is_symbol_table (all_sections (S (scn_ s)) m)
      /\ headed m /\ (length m < length l)%nat
  | Fail _ => False
  end.
Proof.
  intros Hk. revert i. induction l as [|scn l IH]; intros i Hl; [reflexivity|]. cbn [next_symbol_table all_sections].
  inversion Hl as [|? ? Hh Hl']; subst. destruct (getshdr scn) as [h|] eqn:E; [|congruence].
  rewrite (Section_new_ok elf klass i scn h Hk E). cbn [bind List.filter]. destruct (is_symbol_table _) eqn:Es.
  - split; [reflexivity|]. split; [assumption|]. cbn; lia.
  - specialize (IH (S i) Hl'). destruct (next_symbol_table elf (S i) l) as [[[s m]|]|]; auto.
    destruct IH as (H1 & H2 & H3). repeat split; auto. cbn; lia.
Qed.

Lemma symbol_tables_from_spec elf klass fuel i l : good elf klass -> headed l -> (length l < fuel)%nat ->
  symbol_tables_from fuel elf i l = Ok (List.filter is_symbol_table (all_sections i l)).
Proof.
  intros Hk. revert i l. induction fuel as [|fuel IH]; intros i l Hl Hf; [lia|]. cbn [symbol_tables_from].
  pose proof (next_symbol_table_spec elf klass i l Hk Hl) as H. destruct (next_symbol_table elf i l) as [[[s m]|]|]; [| |easy]; cbn [bind].
  - destruct H as (-> & Hm & Hlt). rewrite IH by (auto; lia). reflexivity.
  - now rewrite H.
Qed.

(** The tables that are read are the sections of type [SHT_SYMTAB] and [SHT_DYNSYM], in order. *)
Lemma symbol_tables_found elf klass : good elf klass -> headed (scns elf) ->
  symbol_tables elf = Ok (List.filter is_symbol_table (all_sections 0 (scns elf))).
Proof. intros. apply (symbol_tables_from_spec elf klass); auto. Qed.

(** ** Program headers *)

Lemma for_phdrs_scan {A} elf eh index l body (a : A) : ElfHdr elf = Ok eh -> l <> [] ->
  index + Z.of_nat (length l) = e_phnum eh -> for_phdrs elf index l body a = scan body l a.
Proof.
  intros He. revert index a. induction l as [|h l IH]; intros index a Hne Hn; [easy|]. cbn [for_phdrs scan].
  destruct (body h a) as [[b|b]|f]; cbn [bind]; [|reflexivity|reflexivity]. rewrite He. cbn [bind]. destruct l as [|h' l].
  - destruct (Z.ltb_spec (index + 1) (e_phnum eh)); [cbn in Hn; lia | reflexivity].
  - destruct (Z.ltb_spec (index + 1) (e_phnum eh)); [|cbn in Hn; lia]. apply IH; [easy|]. cbn in *; lia.
Qed.

(** [e_phnum] tells how many there are. *)
Record phdrs_ok (elf : Elf) (eh : Ehdr) : Prop := {
  ph_hdr : ElfHdr elf = Ok eh;
  ph_some : getphdr elf <> [];
  ph_count : Z.of_nat (length (getphdr elf)) = e_phnum eh
}.

Lemma elfhdr_good elf eh : ElfHdr elf = Ok eh -> exists klass, good elf klass.
Proof. unfold ElfHdr, good. destruct (Selector elf); cbn; [eauto | discriminate]. Qed.

Lemma program_headers_scan {A} elf eh body (a : A) : phdrs_ok elf eh ->
  program_headers elf body a = scan body (getphdr elf) a.
Proof.
  intros [H1 H2 H3]. destruct (elfhdr_good elf eh H1) as [klass Hk]. unfold program_headers. rewrite Hk. cbn [bind].
  destruct (getphdr elf) as [|h l] eqn:E; [easy|]. apply (for_phdrs_scan elf eh); auto.
Qed.

Lemma load_addr_first elf eh : phdrs_ok elf eh ->
  get_load_addr elf = Ok match List.find (fun h => p_type h =? PT_LOAD) (getphdr elf) with
                         | Some h => (p_vaddr h, p_memsz h)
                         | None => (0, 0)
                         end.
Proof.
  intros H. unfold get_load_addr. rewrite (program_headers_scan elf eh) by assumption.
  induction (getphdr elf) as [|h l IH]; [reflexivity|]. cbn [scan List.find bind]. destruct (p_type h =? PT_LOAD); [reflexivity | exact IH].
Qed.

(** ** Dynamic sections *)

Definition dyn_layout (klass : Z) (d : Z * Z) : list (nat * Z) := [(dyn_word klass, fst d); (dyn_word klass, snd d)].
Definition dyn_bytes (klass : Z) (l : list (Z * Z)) : bytes := flat_map (fun d => layout (dyn_layout klass d)) l.

Definition dyn_ok (klass : Z) (d : Z * Z) : Prop :=
  0 <= fst d < 256 ^ Z.of_nat (dyn_word klass) /\ 0 <= snd d < 256 ^ Z.of_nat (dyn_word klass).

Lemma dyn_size_word klass : dyn_size klass = 2 * Z.of_nat (dyn_word klass) /\ 0 < dyn_size klass.
Proof. unfold dyn_size, dyn_word. destruct (klass =? ELFCLASS32); lia. Qed.

Lemma dyn_bytes_length klass l : Z.of_nat (length (dyn_bytes klass l)) = Z.of_nat (length l) * dyn_size klass.
Proof.
  induction l as [|d l IH]; [reflexivity|]. cbn [dyn_bytes flat_map length]. change (flat_map _ l) with (dyn_bytes klass l).
  rewrite length_app, layout_length. cbn. pose proof (dyn_size_word klass). lia.
Qed.

(** The same loop over the entries. *)
Fixpoint dyn_scan {A} (body : Z -> Z * Z -> A -> A + A) (n : Z) (l : list (Z * Z)) (a : A) : A :=
  match l with
  | [] => a
  | d :: l => match body n d a with inr a => a | inl a => dyn_scan body (n + 1) l a end
  end.

Lemma dyn_loop_scan {A} klass pre l (body : Z -> Z * Z -> A -> A + A) a n : Forall (dyn_ok klass) l ->
  Z.of_nat (length pre) = n * dyn_size klass ->
  dyn_loop klass (pre ++ dyn_bytes klass l) n (length l) body a = Ok (dyn_scan body n l a).
Proof.
  revert pre a n. induction l as [|d l IH]; intros pre a n Hl Hn; [reflexivity|]. cbn [dyn_loop length dyn_scan].
  inversion Hl as [|? ? [Hd1 Hd2] Hl']; subst. pose proof (dyn_size_word klass) as [Hw _].
  assert (dyn_read klass (pre ++ dyn_bytes klass (d :: l)) n = Ok d) as ->.
  { unfold dyn_read. cbn [dyn_bytes flat_map]. rewrite <- Hn.
    rewrite (field_layout pre (dyn_layout klass d) _ 0 (dyn_word klass) (fst d)) by (try reflexivity; cbn; lia). cbn [bind].
    rewrite (field_layout pre (dyn_layout klass d) _ 1 (dyn_word klass) (snd d)) by (try reflexivity; cbn; lia). now destruct d. }
  cbn [bind]. destruct (body n d a) as [b|b]; [|reflexivity].
  replace (pre ++ dyn_bytes klass (d :: l)) with ((pre ++ layout (dyn_layout klass d)) ++ dyn_bytes klass l)
    by (cbn [dyn_bytes flat_map]; now rewrite <- app_assoc).
  apply IH; [assumption|]. rewrite length_app, layout_length. cbn. lia.
Qed.

Lemma dynamic_scan {A} klass l (body : Z -> Z * Z -> A -> A + A) a : Forall (dyn_ok klass) l ->
  dynamic klass (dyn_bytes klass l) body a = Ok (dyn_scan body 0 l a).
Proof.
  intros Hl. unfold dynamic. rewrite dyn_bytes_length, Z.div_mul by (pose proof (dyn_size_word klass); lia).
  rewrite Nat2Z.id. apply (dyn_loop_scan klass [] l body a 0 Hl). reflexivity.
Qed.

(** The last entries of the two tags count. *)
Lemma plt_found klass l plt : Forall (dyn_ok klass) l ->
  dynamic klass (dyn_bytes klass l) (fun _ dyn plt => inl (plt_entry dyn plt)) plt = Ok (fold_left (fun plt d => plt_entry d plt) l plt).
Proof.
  intros Hl. rewrite dynamic_scan by assumption. f_equal. generalize 0 at 1. revert plt.
  clear Hl. induction l as [|d l IH]; intros plt n; [reflexivity|]. cbn. apply IH.
Qed.

Lemma debug_entry_found klass before v after addr : Forall (dyn_ok klass) (before ++ (DT_DEBUG, v) :: after) ->
  Forall (fun d => fst d <> DT_DEBUG) before ->
  linker_debug_struct_addr klass (dyn_bytes klass (before ++ (DT_DEBUG, v) :: after)) addr =
  Ok (u64_ (addr + (Z.of_nat (length before) * dyn_size klass + Z.of_nat (dyn_word klass)))).
Proof.
  intros Hl Hb. unfold linker_debug_struct_addr. rewrite dynamic_scan by assumption. f_equal.
  rewrite <- (Z.add_0_l (Z.of_nat (length before))). generalize 0 at 1 3 as n. clear Hl.
  induction Hb as [|d l Hd _ IH]; intros n; cbn [dyn_scan app length].
  - rewrite Z.eqb_refl, Z.add_0_r. reflexivity.
  - destruct (Z.eqb_spec (fst d) DT_DEBUG); [easy|]. rewrite IH. do 3 f_equal. lia.
Qed.

Lemma debug_entry_missing klass l addr : Forall (dyn_ok klass) l -> Forall (fun d => fst d <> DT_DEBUG) l ->
  linker_debug_struct_addr klass (dyn_bytes klass l) addr = Ok 0.
Proof.
  intros Hl Hb. unfold linker_debug_struct_addr. rewrite dynamic_scan by assumption. f_equal. generalize 0 at 1 as n. clear Hl.
  induction Hb as [|d l Hd _ IH]; intros n; cbn [dyn_scan]; [reflexivity|]. destruct (Z.eqb_spec (fst d) DT_DEBUG); [easy|]. apply IH.
Qed.

Definition is_dynamic (s : Section_) : bool := sh_type (hdr_ s) =? SHT_DYNAMIC.

Lemma debug_struct_skip elf klass l k : Forall (fun s => is_dynamic s = false) l ->
  scan (debug_turn elf klass) (l ++ k) (false, 0) = scan (debug_turn elf klass) k (false, 0).
Proof.
  induction 1 as [|s l Hs _ IH]; [reflexivity|]. cbn [app scan]. unfold debug_turn at 1. unfold is_dynamic in Hs. rewrite Hs. exact IH.
Qed.

(** Where the linker of a program puts the address of its debug structure: the value of the
    first entry of type [DT_DEBUG] in the first dynamic section, as it is mapped. *)
Lemma debug_struct_found elf eh klass pre s post before v after : ElfHdr elf = Ok eh -> good elf klass -> headed (scns elf) ->
  all_sections 0 (scns elf) = pre ++ s :: post -> Forall (fun s => is_dynamic s = false) pre -> is_dynamic s = true ->
  contents_ s = Some (dyn_bytes klass (before ++ (DT_DEBUG, v) :: after)) ->
  Forall (dyn_ok klass) (before ++ (DT_DEBUG, v) :: after) -> Forall (fun d => fst d <> DT_DEBUG) before ->
  let offset := Z.of_nat (length before) * dyn_size klass + Z.of_nat (dyn_word klass) in
  0 <= sh_addr (hdr_ s) -> sh_addr (hdr_ s) + offset < 2 ^ 64 ->
  get_linker_debug_struct_addr elf = Ok (sh_addr (hdr_ s) + offset).
Proof.
  intros He Hk Hh Ha Hpre Hs Hd Hdyn Hb offset H0 Hlt. unfold get_linker_debug_struct_addr, sections. rewrite He, Hk. cbn [bind].
  assert (0 < offset) as Ho by (unfold offset; pose proof (dyn_size_word klass); nia).
  rewrite (for_sections_scan elf klass), Ha, debug_struct_skip by assumption. cbn [scan].
  unfold debug_turn at 1. cbn [snd]. rewrite Z.eqb_refl. unfold is_dynamic in Hs. rewrite Hs. unfold section_data at 1. rewrite Hd. cbn [bind]. rewrite debug_entry_found by assumption.
  cbn [bind]. unfold u64_. fold offset. rewrite Z.mod_small by lia. destruct (Z.ltb_spec (sh_addr (hdr_ s) + offset) (sh_addr (hdr_ s))); [lia|].
  destruct post as [|s' post]; cbn [scan]; [reflexivity|]. unfold debug_turn at 1. cbn [snd]. destruct (Z.eqb_spec (sh_addr (hdr_ s) + offset) 0); [lia|]. reflexivity.
Qed.

Lemma debug_struct_static elf eh klass : ElfHdr elf = Ok eh -> good elf klass -> headed (scns elf) ->
  Forall (fun s => is_dynamic s = false) (all_sections 0 (scns elf)) -> get_linker_debug_struct_addr elf = Ok (2 ^ 64 - 1).
Proof.
  intros He Hk Hh Ha. unfold get_linker_debug_struct_addr, sections. rewrite He, Hk. cbn [bind].
  rewrite (for_sections_scan elf klass) by assumption. rewrite <- (app_nil_r (all_sections 0 (scns elf))), debug_struct_skip by assumption.
  reflexivity.
Qed.

(** ** Notes *)

(** The bytes up to the next multiple of four. *)
Definition padding (n : Z) : bytes := repeat NUL (Z.to_nat (align4 n - n)).

Definition note_bytes (n : Note) : bytes :=
  layout [(4%nat, Z.of_nat (length (n_name n))); (4%nat, Z.of_nat (length (n_desc n))); (4%nat, n_type n)] ++
  n_name n ++ padding (Z.of_nat (length (n_name n))) ++ n_desc n ++ padding (Z.of_nat (length (n_desc n))).

Definition note_ok (n : Note) : Prop :=
  0 <= n_type n < 2 ^ 32 /\ Z.of_nat (length (n_name n)) < 2 ^ 32 /\ Z.of_nat (length (n_desc n)) < 2 ^ 32.

Lemma align4_spec n : 0 <= n < 2 ^ 32 -> align4 n = 4 * ((n + 3) / 4) /\ n <= align4 n < n + 4.
Proof.
  intros Hn. assert (align4 n = 4 * ((n + 3) / 4)) as E.
  { unfold align4. assert (Z.ldiff (2 ^ 64 - 1) 3 = Z.ldiff (Z.ones 64) (Z.ones 2)) as -> by reflexivity.
    apply Z.bits_inj'. intros i Hi. rewrite Z.land_spec, Z.ldiff_spec, !Z.testbit_ones_nonneg by lia.
    replace (4 * ((n + 3) / 4)) with (Z.shiftl (Z.shiftr (n + 3) 2) 2) by (rewrite Z.shiftl_mul_pow2, Z.shiftr_div_pow2 by lia; change (2 ^ 2) with 4; lia).
    rewrite Z.shiftl_spec by lia. destruct (Z.ltb_spec i 2) as [H2|H2].
    - rewrite (Z.testbit_neg_r _ (i - 2)) by lia. rewrite andb_false_r, andb_false_r. reflexivity.
    - rewrite Z.shiftr_spec by lia. replace (i - 2 + 2) with i by lia. rewrite andb_true_r.
      destruct (Z.ltb_spec i 64); [now rewrite andb_true_r|]. rewrite andb_false_r. symmetry.
      destruct (Z.eq_dec (n + 3) 0); [lia|]. apply Z.bits_above_log2; [lia|]. apply Z.log2_lt_pow2; [lia|].
      apply Z.lt_le_trans with (2 ^ 64); [lia|]. apply Z.pow_le_mono_r; lia. }
  split; [exact E|]. rewrite E. pose proof (Z.div_mod (n + 3) 4 ltac:(lia)). pose proof (Z.mod_pos_bound (n + 3) 4 ltac:(lia)). lia.
Qed.

Lemma padding_length n : 0 <= n < 2 ^ 32 -> Z.of_nat (length (padding n)) = align4 n - n.
Proof. intros Hn. unfold padding. rewrite repeat_length. pose proof (align4_spec n Hn). lia. Qed.

Lemma slice_at pre x post at_ n : at_ = Z.of_nat (length pre) -> n = Z.of_nat (length x) -> Elf.slice (pre ++ x ++ post) at_ n = Ok x.
Proof.
  intros -> ->. unfold Elf.slice. rewrite !length_app. destruct (Z.ltb_spec (Z.of_nat (length pre)) 0); [lia|].
  destruct (Z.ltb_spec (Z.of_nat (length pre + (length x + length post))) (Z.of_nat (length pre) + Z.of_nat (length x))); [lia|]. cbn [orb].
  rewrite !Nat2Z.id, skipn_app, skipn_all, Nat.sub_diag. cbn [app]. rewrite skipn_O, firstn_app, firstn_all, Nat.sub_diag, firstn_O, app_nil_r.
  reflexivity.
Qed.

Lemma note_read pre n post : note_ok n ->
  Note_new (pre ++ note_bytes n ++ post) (Z.of_nat (length pre)) = Ok (n, Z.of_nat (length (note_bytes n))).
Proof.
  intros (Ht & Hn & Hd). unfold Note_new. set (L := [(4%nat, Z.of_nat (length (n_name n))); (4%nat, Z.of_nat (length (n_desc n))); (4%nat, n_type n)]).
  unfold note_bytes at 1 2 3 4 5. fold L. rewrite <- !app_assoc.
  next_field L 0%nat. next_field L 1%nat. next_field L 2%nat.
  pose proof (padding_length (Z.of_nat (length (n_name n))) ltac:(lia)) as Hp.
  rewrite (app_assoc pre (layout L)), (slice_at (pre ++ layout L)) by
    (try reflexivity; rewrite length_app, layout_length; cbn; unfold NHDR_SIZE; lia). cbn [bind].
  rewrite (app_assoc (pre ++ layout L)), (app_assoc _ (padding _)).
  rewrite (slice_at _ (n_desc n)) by (try reflexivity; rewrite !length_app, layout_length; cbn; unfold NHDR_SIZE; lia). cbn [bind].
  unfold note_bytes. fold L. rewrite !length_app, layout_length, !Nat2Z.inj_add, Hp, padding_length by lia.
  change (Z.of_nat (layout_size L)) with NHDR_SIZE. destruct n as [t nm ds]; cbn in *. do 2 f_equal. lia.
Qed.

(** ** A small table *)

Definition sample_syms : list raw_symbol := [mk_raw 1 18 0 1 4096 16; mk_raw 2 17 0 1 8192 8].
Definition sample_names (o : Z) : option bytes := nth_error [B ""; B "main"; B "errno"] (Z.to_nat o).
Definition sample_file_elf : Elf :=
  Elf.mk_elf (Some (ELFMAG ++ map char_of_int [2; 1; 1; 0; 0])) None [] [] (fun _ o => sample_names o).
Definition sample_table : Section_ :=
  mk_section 5 (mk_shdr 0 SHT_SYMTAB 0 0 0 72 6 0 8 24) (Some (table_bytes ELFCLASS64 (null_raw :: sample_syms))).

(** The witness of [elf_symbols_read]. *)
Lemma elf_symbols_read_witness : exists ys, symbols sample_file_elf sample_table = Ok ys /\ length ys = 3%nat /\
  read_loop (fun _ => true) (map table_symbol ys) [] = [mk_symbol (B "main") 4096 2; mk_symbol (B "errno") 8192 1].
Proof.
  destruct (elf_symbols_read sample_file_elf ELFCLASS64 sample_table sample_syms (fun _ => true)) as (ys & E & Hn & H).
  - vm_compute. reflexivity.
  - reflexivity.
  - repeat constructor; vm_compute; congruence.
  - exists ys. split; [exact E|]. split; [apply Nat2Z.inj; rewrite Hn; vm_compute; reflexivity|]. rewrite H. vm_compute. reflexivity.
Defined.

(** A table of which the size is not a multiple of that of an entry is read beyond its end,
    and when it is smaller than an entry the loop does not end. *)
Example odd_table elf : symbols_from elf ELFCLASS64 0 (repeat NUL 30) 31 0 null_symbol = Fail OutOfBounds.
Proof. vm_compute. reflexivity. Qed.

Lemma short_table_endless elf klass data fuel sym : data <> [] -> Z.of_nat (length data) < sym_step klass ->
  symbols_from elf klass 0 data fuel 0 sym = Fail OutOfFuel.
Proof.
  intros Hne Hs. assert (forall fuel ptr sym, Z.of_nat (length data) < ptr -> symbols_from elf klass 0 data fuel ptr sym = Fail OutOfFuel) as H.
  { clear fuel sym. induction fuel as [|fuel IH]; intros ptr sym Hp; [reflexivity|]. cbn [symbols_from]. cbv zeta.
    destruct (Z.eqb_spec ptr (Z.of_nat (length data))); [lia|]. destruct (Z.ltb_spec ptr (Z.of_nat (length data))); [lia|].
    destruct (Z.ltb_spec ptr (Z.of_nat (length data))); [lia|]. cbn [bind]. now rewrite IH. }
  destruct fuel as [|fuel]; [reflexivity|]. cbn [symbols_from]. cbv zeta. destruct (Z.eqb_spec 0 (Z.of_nat (length data))) as [E|].
  { destruct data; [easy | cbn in E; lia]. }
  destruct (Z.ltb_spec 0 (Z.of_nat (length data))); [|lia]. destruct (Z.ltb_spec (0 + sym_step klass) (Z.of_nat (length data))); [lia|].
  cbn [bind]. rewrite H by lia. reflexivity.
Qed.
