(* ===== verification/Environ.v ===== *)
(** * Environments and library paths ([dharma/environ.cpp], [dharma/utility.cpp])

    The environment of a program as it is read from a file or from a core dump, and how the
    name of a library that is not absolute is looked up with it. *)
From S2P Require Import Prelude CLib StepOver.

(** ** [env::read] and [env::write] *)

(** The loop over the characters of the stream: the string so far, and whether it has an
    equals sign that is not its first character. *)
Fixpoint env_loop (input str : bytes) (hasEquals : bool) (env : list bytes) : list bytes :=
  match input with
  | [] => match str with [] => env | _ => if hasEquals then env ++ [str] else env end
  | c :: input =>
      if c =c NUL then env_loop input [] false (if hasEquals then env ++ [str] else env)
      else
        let eq := match str with [] => false | _ => c =c "=" end in
        env_loop input (str ++ [c]) (eq || hasEquals) env
  end.

Definition env_read (input : bytes) (env : list bytes) : list bytes := env_loop input [] false env.

(** Each string with its terminator. *)
Definition env_write (env : list bytes) : bytes := flat_map (fun s => s ++ [NUL]) env.

(** ** Splitting lists of paths *)

(** [boost::char_separator]: the non-empty runs between delimiters. *)
Fixpoint split_at (delim : ascii -> bool) (s tok : bytes) : list bytes :=
  match s with
  | [] => match tok with [] => [] | _ => [tok] end
  | c :: s =>
      if delim c then match tok with [] => split_at delim s [] | _ => tok :: split_at delim s [] end
      else split_at delim s (tok ++ [c])
  end.

Definition tokenize (pathlist : bytes) : list bytes := split_at (fun c => (c =c ":") || (c =c ";")) pathlist [].

(** ** [ensure_abs_lib_path] *)

Definition append_delimiter (path : bytes) : bytes :=
  match path with
  | [] => []
  | _ => if (last path NUL) =c "/" then path else path ++ ["/"%char]
  end.

Definition absolute (path : bytes) : bool := match path with c :: _ => c =c "/" | [] => false end.

(** The text behind the last slash. *)
Definition base_name (path : bytes) : bytes :=
  match before_last "/"%char path with Some d => skipn (S (length d)) path | None => path end.

Section Lookup.
(** [realpath], [stat] of a regular file, and [getcwd]. *)
Variables (canonical_path : bytes -> bytes) (is_regular : bytes -> bool) (cwd : bytes).

(** The loop over the environment: the directories to search, and the working directory. *)
Definition search_entry (st : list bytes * bytes) (e : bytes) : list bytes * bytes :=
  let '(searchPath, work) := st in
  if strncmp_at e (B "LD_LIBRARY_PATH=") 16 then (searchPath ++ tokenize (skipn 16 e), work)
  else if strncmp_at e (B "LD_RUN_PATH=") 12 then (searchPath ++ tokenize (skipn 12 e), work)
  else if strncmp_at e (B "PWD=") 4 then (searchPath ++ [skipn 4 e], skipn 4 e)
  else st.

Definition candidate (work path dir : bytes) : bytes :=
  let tmp := match dir with
             | c :: _ => if (c =c ".") && negb (if list_eq_dec ascii_dec dir work then true else false) then append_delimiter work else []
             | [] => []
             end in
  canonical_path (append_delimiter (tmp ++ dir) ++ path).

Fixpoint try_dirs (work path : bytes) (dirs : list bytes) : bytes :=
  match dirs with
  | [] => path
  | [] :: dirs => try_dirs work path dirs
  | dir :: dirs => if is_regular (candidate work path dir) then candidate work path dir else try_dirs work path dirs
  end.

(** The path, or its last part when it is found nowhere. *)
Definition ensure_abs_lib_path (env : list bytes) (path : bytes) : bytes :=
  match path with
  | [] => []
  | _ =>
      if absolute path then path
      else
        let '(searchPath, work) := fold_left search_entry env ([], []) in
        let work := match work with [] => cwd | _ => work end in
        try_dirs work (base_name path) searchPath
  end.

End Lookup.

(** ** Reading back what was written *)

(** What [env::read] takes for a variable: no terminators, and an equals sign behind the first
    character. *)
Definition env_string (s : bytes) : bool :=
  forallb (fun c => negb (c =c NUL)) s && existsb (fun c => c =c "=") (tl s).

Lemma env_loop_string s input str eq env : forallb (fun c => negb (c =c NUL)) s = true ->
  env_loop (s ++ input) str eq env =
  env_loop input (str ++ s) (existsb (fun c => c =c "=") (match str with [] => tl s | _ => s end) || eq) env.
Proof.
  revert str eq. induction s as [|c s IH]; intros str eq Hs; cbn [app env_loop forallb tl existsb] in *.
  - rewrite app_nil_r. now destruct str.
  - apply andb_true_iff in Hs as [Hc Hs]. apply negb_true_iff in Hc. rewrite Hc, IH by assumption. rewrite <- app_assoc. cbn [app].
    f_equal. destruct str as [|d str]; cbn [app existsb]; [reflexivity|]. rewrite orb_assoc, (orb_comm (existsb _ s)). reflexivity.
Qed.

(** The strings that are variables are read back as they were written, in order; all others
    are left out. *)
Theorem env_read_write env more acc : Forall (fun s => forallb (fun c => negb (c =c NUL)) s = true) env ->
  env_read (env_write env ++ more) acc = env_read more (acc ++ filter env_string env).
Proof.
  unfold env_read. intros H. revert acc. induction H as [|s env Hs _ IH]; intros acc; cbn [env_write flat_map filter].
  - now rewrite app_nil_r.
  - change (flat_map _ env) with (env_write env). rewrite <- !app_assoc, env_loop_string by assumption. cbn [app env_loop].
    replace (NUL =c NUL) with true by reflexivity. rewrite orb_false_r, IH. unfold env_string. rewrite Hs. cbn [andb].
    destruct (existsb _ (tl s)); [rewrite <- app_assoc; reflexivity | reflexivity].
Qed.

(** An absolute path is kept, a path that is found is canonical and a regular file, and
    another one loses its directories. *)
Lemma ensure_abs_lib_path_cases canonical_path is_regular cwd env path :
  let r := ensure_abs_lib_path canonical_path is_regular cwd env path in
  (absolute path = true -> r = path) /\
  (absolute path = false -> r = base_name path \/ is_regular r = true /\ exists p, r = canonical_path p).
Proof.
  cbv zeta. unfold ensure_abs_lib_path. destruct path as [|c path]; [cbn; auto|]. split; intros ->; [reflexivity|].
  destruct (fold_left search_entry env ([], [])) as [dirs work]. set (w := match work with [] => cwd | _ => work end). clearbody w.
  induction dirs as [|[|d dir] dirs IH]; cbn [try_dirs]; auto.
  destruct (is_regular (candidate canonical_path w (base_name (c :: path)) (d :: dir))) eqn:E; [|exact IH].
  right. split; [exact E|]. unfold candidate. eauto.
Qed.
