(* ===== verification/CoreFile.v ===== *)
(** * Core dumps ([elfz/core_file.cpp])

    The image of a program that has crashed: the segments of its memory, of which some parts
    are in the file and the rest was zero, and notes with the registers of its threads, its
    name and its auxiliary vector. *)
From S2P Require Import Prelude CLib Stream StepOver Elf Environ.
Local Open Scope Z_scope.

(** ** Segments *)

Record Segment : Type := mk_seg { offs : Z; msize : Z; fsize : Z; flags : Z; filename : bytes }.

(** [std::map<ElfW(Addr), Segment>]: [insert] keeps an entry that is there. *)
Fixpoint seg_insert (k : Z) (v : Segment) (m : list (Z * Segment)) : list (Z * Segment) :=
  match m with
  | [] => [(k, v)]
  | (j, w) :: m' => if k <? j then (k, v) :: m else if j <? k then (j, w) :: seg_insert k v m' else m
  end.

(** [find_segment]: [lower_bound], or the entry in front of it. *)
Fixpoint find_segment (m : list (Z * Segment)) (addr : Z) : option (Z * Segment) :=
  match m with
  | [] => None
  | (j, w) :: m =>
      if addr <? j then None
      else if addr =? j then Some (j, w)
      else match find_segment m addr with Some r => Some r | None => Some (j, w) end
  end.

(** A change of one entry. *)
Fixpoint seg_update (k : Z) (v : Segment) (m : list (Z * Segment)) : list (Z * Segment) :=
  match m with
  | [] => []
  | (j, w) :: m => if j =? k then (j, v) :: m else (j, w) :: seg_update k v m
  end.

(** ** The state *)

(** A [prstatus] or [prpsinfo] of the class of the file, as its bytes. *)
Record core : Type := mk_core {
  seg_ : list (Z * Segment);
  procname_ : bytes;
  shortname_ : bytes;
  prstatus_ : list (Z * bytes);       (* by thread, the newest first *)
  info_ : list bytes;
  fpxregs_ : list bytes;
  auxv_ : list (Z * Z);
  env_ : list bytes
}.

Definition empty_core : core := mk_core [] [] [] [] [] [] [] [].

Definition with_seg m (c : core) := mk_core m (procname_ c) (shortname_ c) (prstatus_ c) (info_ c) (fpxregs_ c) (auxv_ c) (env_ c).
Definition with_names p s (c : core) := mk_core (seg_ c) p s (prstatus_ c) (info_ c) (fpxregs_ c) (auxv_ c) (env_ c).
Definition with_prstatus m (c : core) := mk_core (seg_ c) (procname_ c) (shortname_ c) m (info_ c) (fpxregs_ c) (auxv_ c) (env_ c).
Definition with_info m (c : core) := mk_core (seg_ c) (procname_ c) (shortname_ c) (prstatus_ c) m (fpxregs_ c) (auxv_ c) (env_ c).
Definition with_fpxregs m (c : core) := mk_core (seg_ c) (procname_ c) (shortname_ c) (prstatus_ c) (info_ c) m (auxv_ c) (env_ c).
Definition with_auxv m (c : core) := mk_core (seg_ c) (procname_ c) (shortname_ c) (prstatus_ c) (info_ c) (fpxregs_ c) m (env_ c).
Definition with_env m (c : core) := mk_core (seg_ c) (procname_ c) (shortname_ c) (prstatus_ c) (info_ c) (fpxregs_ c) (auxv_ c) m.

(** Code that changes the object and may throw: the changes stay. *)
Definition M (A : Type) : Type := core -> res A * core.
Definition ret {A} (a : A) : M A := fun c => (Ok a, c).
Definition andThen {A C} (m : M A) (k : A -> M C) : M C := fun c =>
  match m c with (Ok a, c) => k a c | (Fail f, c) => (Fail f, c) end.
Definition lift {A} (r : res A) : M A := fun c => (r, c).
Definition change (f : core -> core) : M unit := fun c => (Ok tt, f c).
Definition look {A} (f : core -> A) : M A := fun c => (Ok (f c), c).
(** [catch (const exception&)]. *)
Definition catching {A} (m h : M A) : M A := fun c => match m c with (Fail Thrown, c) => h c | r => r end.

Declare Scope core_scope.
Notation "x <-- m ;; k" := (andThen m (fun x => k)) (at level 100, m at next level, right associativity) : core_scope.
Notation "m ;;; k" := (andThen m (fun _ => k)) (at level 100, right associativity) : core_scope.
Local Open Scope core_scope.

(** ** Reading memory *)

(** Writing into a buffer. *)
Definition put (buf : bytes) (at_ : nat) (b : bytes) : bytes := firstn at_ buf ++ b ++ skipn (at_ + length b) buf.

Section Core.
(** The core file and what libelf gives for it, and for the other files by their names;
    [None]: the file cannot be opened as an ELF file. *)
Variables (self : bytes) (elf : Elf) (name : bytes).
Variable open_file : bytes -> option (bytes * Elf).
Variables (canonical_path : bytes -> bytes) (is_regular : bytes -> bool) (cwd : bytes).

(** [Binary(filename)]. *)
Definition open_binary (fn : bytes) : res (bytes * Elf) := match open_file fn with Some b => Ok b | None => Fail Thrown end.

(** [readbuf_]: the number of bytes that it says it has read, and the buffer. *)
Definition readbuf_ (c : core) (addr : Z) (buf : bytes) : res (Z * bytes) :=
  let len := Z.of_nat (length buf) in
  match find_segment (seg_ c) addr with
  | None => Ok (0, buf)
  | Some (segAddr, seg) =>
      let offs_ := addr - segAddr in
      if (msize seg <? u64_ (offs_ + len)) && (msize seg <=? offs_) then Ok (0, buf)
      else
        let bytesToRead := if msize seg <? u64_ (offs_ + len) then msize seg - offs_ else len in
        let fn := match filename seg with [] => procname_ c | fn => fn end in
        if (fsize seg =? 0) && negb (msize seg =? 0) && negb (Z.land (flags seg) PF_X =? 0) then
          match fn with
          | [] => Ok (0, buf)
          | _ =>
              let* b := open_binary fn in
              let* got := readbuf (fst b) offs_ bytesToRead in
              Ok (Z.of_nat (length got), put buf 0 got)
          end
        else
          let* r :=
            (if offs_ <? fsize seg then
               let readFromFile := Z.min bytesToRead (fsize seg - offs_) in
               let* got := readbuf self (offs seg + offs_) readFromFile in
               if Z.of_nat (length got) =? readFromFile then Ok (readFromFile, readFromFile, put buf 0 got) else Fail Thrown
             else Ok (0, 0, buf)) in
          let '(result, readFromFile, buf) := r in
          if readFromFile <? bytesToRead then
            let* r :=
              (match fn with
               | [] => Ok (result, readFromFile, buf)
               | _ =>
                   let* b := open_binary fn in
                   let* got := readbuf (fst b) offs_ bytesToRead in
                   Ok (result + Z.of_nat (length got), Z.of_nat (length got), put buf 0 got)
               end) in
            let '(result, readFromFile, buf) := r in
            Ok (result + (bytesToRead - readFromFile),
                put buf (Z.to_nat readFromFile) (repeat NUL (Z.to_nat (bytesToRead - readFromFile))))
          else Ok (result, buf)
  end.

(** [CoreFile::readbuf]. *)
Definition core_readbuf (c : core) (addr : Z) (buf : bytes) : res bytes :=
  let* r := readbuf_ c addr buf in
  if fst r =? Z.of_nat (length buf) then Ok (snd r) else Fail Thrown.

(** [readval] of [n] bytes. *)
Definition readval (c : core) (addr : Z) (n : nat) : res bytes := core_readbuf c addr (repeat NUL n).

(** ** Notes *)

Definition NT_PRSTATUS : Z := 1.
Definition NT_FPREGSET : Z := 2.
Definition NT_PRPSINFO : Z := 3.
Definition NT_AUXV : Z := 6.

(** The size of [elf_prstatus_], and where [pr_pid] is. *)
Definition prstatus_size (klass : Z) : Z := if klass =? ELFCLASS32 then 144 else 336.
Definition pr_pid_at (klass : Z) : Z := if klass =? ELFCLASS32 then 24 else 32.
(** The size of [elf_prpsinfo_], and where [pr_psargs] is. *)
Definition prpsinfo_size (klass : Z) : Z := if klass =? ELFCLASS32 then 124 else 136.
Definition pr_psargs_at (klass : Z) : Z := if klass =? ELFCLASS32 then 44 else 56.
Definition ELF_PRARGSZ : Z := 80.
(** [sizeof(fpregset_t)] on x86-64. *)
Definition FPREGSET_SIZE : Z := 512.

Definition read_prstatus (klass : Z) (n : Note) : M unit :=
  pid <-- lift (field (n_desc n) (pr_pid_at klass) 4) ;;
  ps <-- lift (slice (n_desc n) 0 (prstatus_size klass)) ;;
  change (fun c => with_prstatus ((pid, ps) :: filter (fun e => negb (fst e =? pid)) (prstatus_ c)) c).

(** The text of an array of characters; without a terminator it is read on. *)
Definition array_text (s : bytes) : res bytes :=
  if existsb (fun c => c =c NUL) s then Ok (cstr_of s) else Fail OutOfBounds.

(** [procname_.substr(0, procname_.find(' '))]. *)
Definition first_word (s : bytes) : bytes := fst (span (fun c => negb (c =c " ")) s).

(** The directory of the core file, with the slash. *)
Definition in_directory (procname : bytes) : bytes :=
  match before_last "/"%char name with
  | None => canonical_path procname
  | Some dir => canonical_path (dir ++ B "/" ++ procname)
  end.

Definition read_prpsinfo (klass : Z) (n : Note) : M unit :=
  info <-- lift (slice (n_desc n) 0 (prpsinfo_size klass)) ;;
  change (fun c => with_info (info_ c ++ [info]) c) ;;;
  procname <-- look procname_ ;;
  (match procname with
   | [] =>
       args <-- lift (slice info (pr_psargs_at klass) ELF_PRARGSZ) ;;
       text <-- lift (array_text args) ;;
       change (with_names (first_word text) (first_word text))
   | _ => ret tt
   end) ;;;
  change (fun c =>
    match procname_ c with
    | [] => c
    | _ => if absolute (procname_ c) then c else with_names (in_directory (procname_ c)) (shortname_ c) c
    end).

Definition read_fpregs (n : Note) : M unit :=
  change (fun c => if Z.of_nat (length (n_desc n)) =? FPREGSET_SIZE then with_fpxregs (fpxregs_ c ++ [n_desc n]) c else c).

(** [read_aux_vect_elem]: the position behind it, the type and the value. *)
Definition aux_word (klass : Z) : nat := if klass =? ELFCLASS32 then 4%nat else 8%nat.
Definition read_as (klass : Z) (d : bytes) (i : Z) : res Z :=
  let* v := field d i (aux_word klass) in Ok (if klass =? ELFCLASS32 then v else signed64 v).

Definition read_aux_vect_elem (klass : Z) (d : bytes) (i : Z) : res (Z * Z * Z) :=
  let nMax := Z.of_nat (length d) in
  let* type := read_as klass d i in
  let i := i + Z.of_nat (aux_word klass) in
  if type =? 0 then Ok (nMax, type, 0)
  else
    let* value := if i <? nMax then read_as klass d i else Ok 0 in
    Ok (i + Z.of_nat (aux_word klass), type, value).

Fixpoint auxv_loop (fuel : nat) (klass : Z) (d : bytes) (i : Z) : M unit :=
  match fuel with
  | O => lift (Fail OutOfFuel)
  | S fuel =>
      if i <? Z.of_nat (length d) then
        e <-- lift (read_aux_vect_elem klass d i) ;;
        let '(i, type, value) := e in
        change (fun c => with_auxv (auxv_ c ++ [(type, value)]) c) ;;;
        auxv_loop fuel klass d i
      else ret tt
  end.

Definition read_auxv (klass : Z) (n : Note) : M unit := auxv_loop (S (length (n_desc n))) klass (n_desc n) 0.

Definition read_note (klass : Z) (n : Note) : M unit :=
  if n_type n =? NT_PRSTATUS then read_prstatus klass n
  else if n_type n =? NT_PRPSINFO then read_prpsinfo klass n
  else if n_type n =? NT_FPREGSET then read_fpregs n
  else if n_type n =? NT_AUXV then read_auxv klass n
  else ret tt.

(** The loop of [read_notes]: a note has twelve bytes at least. *)
Fixpoint notes_loop (fuel : nat) (klass : Z) (s : bytes) (data : Z) : M unit :=
  match fuel with
  | O => lift (Fail OutOfFuel)
  | S fuel =>
      if Z.of_nat (length s) - data <? NHDR_SIZE then ret tt
      else
        n <-- lift (Note_new s data) ;;
        read_note klass (fst n) ;;;
        let data := data + snd n in
        if Z.of_nat (length s) <=? data then ret tt else notes_loop fuel klass s data
  end.

(** A file that ends in front of the notes leaves the vector as zeroes. *)
Definition read_notes (klass : Z) (h : Phdr) : M unit :=
  let bytes0 := repeat NUL (Z.to_nat (p_filesz h)) in
  got <-- lift (readbuf self (p_offset h) (p_filesz h)) ;;
  let s := put bytes0 0 got in
  notes_loop (S (length s)) klass s 0.

(** ** The environment *)

(** The offset of the last segment that is loaded and not executable, or of the first one. *)
Definition env_offset : res Z :=
  match getphdr elf with
  | [] => Fail Thrown
  | h :: _ =>
      program_headers elf (fun h first =>
        Ok (inl (if (p_type h =? PT_LOAD) && (Z.land (p_flags h) PF_X =? 0) then p_offset h else first))) (p_offset h)
  end.

(** Looks for the short name of the program at the start of a string; what follows is the
    environment. *)
Fixpoint env_search (shortname input s : bytes) : list bytes :=
  match input with
  | [] => []
  | c :: input =>
      if c =c NUL then env_search shortname input []
      else
        let s := s ++ [c] in
        if list_eq_dec ascii_dec s shortname then
          env_read input []             (* the stream is at its end behind this *)
        else env_search shortname input s
  end.

Definition get_environment : M unit :=
  env <-- look env_ ;;
  match env with
  | [] =>
      first <-- lift env_offset ;;
      shortname <-- look shortname_ ;;
      change (with_env (env_search shortname (skipn (Z.to_nat first) self) []))
  | _ => ret tt
  end.

(** ** The link map *)

Definition absolute_library (path : bytes) : M bytes :=
  get_environment ;;;
  env <-- look env_ ;;
  ret (ensure_abs_lib_path canonical_path is_regular cwd env path).

Definition set_segment_filename (addr : Z) (path : bytes) : M unit :=
  m <-- look seg_ ;;
  match find_segment m addr with
  | Some (segAddr, seg) =>
      match filename seg with
      | [] =>
          let named p := with_seg (seg_update segAddr (mk_seg (offs seg) (msize seg) (fsize seg) (flags seg) p) m) in
          change (named path) ;;;
          if absolute path then ret tt
          else p <-- absolute_library path ;; change (fun c => with_seg (seg_update segAddr (mk_seg (offs seg) (msize seg) (fsize seg) (flags seg) p) (seg_ c)) c)
      | _ => ret tt
      end
  | None => ret tt
  end.

(** [xread] of a structure of words: its size, in the class of the file. *)
Definition word_size (klass : Z) : Z := if klass =? ELFCLASS32 then 4 else 8.
Definition xread (klass : Z) (addr : Z) (words : Z) : M bytes := fun c =>
  (readval c (if klass =? ELFCLASS32 then Z.land addr 0xffffffff else addr) (Z.to_nat (words * word_size klass)), c).

(** A word of it. *)
Definition xword (klass : Z) (s : bytes) (i : Z) : res Z := field s (i * word_size klass) (Z.to_nat (word_size klass)).

Record link_map : Type := mk_link { l_addr : Z; l_name : Z; l_next : Z; l_prev : Z }.

Definition read_link (klass : Z) (addr : Z) : M link_map :=
  s <-- xread klass addr 5 ;;
  a <-- lift (xword klass s 0) ;;
  n <-- lift (xword klass s 1) ;;
  next <-- lift (xword klass s 3) ;;
  prev <-- lift (xword klass s 4) ;;
  ret (mk_link a n next prev).

Definition PATH_MAX : nat := Z.to_nat 4096.

(** [Binary::dynamic_linker]: what was read in front of an error counts. *)
Definition dynamic_linker (b : bytes * Elf) : res bytes :=
  program_headers (snd b) (fun h interp =>
    if p_type h =? PT_INTERP then
      let n := Z.min (Z.of_nat PATH_MAX - 1) (p_filesz h) in
      let buf := if 2 ^ 63 <=? p_offset h then [] else firstn (Z.to_nat n) (skipn (Z.to_nat (p_offset h)) (fst b)) in
      Ok (inr (match cstr_of buf with [] => interp | s => canonical_path s end))
    else Ok (inl interp)) [].

(** The path of a library, or [None] when the entry is skipped. *)
Definition library_path (ldbase : Z) (m : link_map) : M (option bytes) :=
  buf <-- (if l_name m =? 0 then ret [] else
           fun c => (let* r := readbuf_ c (l_name m) (repeat NUL (PATH_MAX - 1)) in Ok (snd r), c)) ;;
  match cstr_of buf with
  | [] =>
      if l_addr m =? ldbase then
        procname <-- look procname_ ;;
        b <-- lift (open_binary procname) ;;
        linker <-- lift (dynamic_linker b) ;;
        ret (Some linker)
      else ret None
  | path => ret (Some path)
  end.

(** The body of the loop over the link map. *)
Definition read_link_entry (ldbase : Z) (m : link_map) : M unit :=
  if l_prev m =? 0 then
    load <-- lift (get_load_addr elf) ;;
    procname <-- look procname_ ;;
    if l_addr m =? fst load then set_segment_filename (l_addr m) procname else ret tt
  else
    path <-- library_path ldbase m ;;
    match path with
    | None => ret tt
    | Some path =>
        r <-- catching (full <-- absolute_library path ;;
                        b <-- lift (open_binary full) ;;
                        load <-- lift (get_load_addr (snd b)) ;;
                        ret (Some (u64_ (l_addr m + fst load), full)))
                       (ret None) ;;
        match r with
        | None => ret tt
        | Some (addr, full) => set_segment_filename addr full
        end
    end.

Fixpoint link_loop (fuel : nat) (klass ldbase pmap : Z) : M unit :=
  match fuel with
  | O => lift (Fail OutOfFuel)
  | S fuel =>
      if pmap =? 0 then ret tt
      else
        m <-- read_link klass pmap ;;
        read_link_entry ldbase m ;;;
        link_loop fuel klass ldbase (l_next m)
  end.

(** [read_debug_struct]; the list that the crashed program had may be a cycle. *)
Definition read_debug_struct (fuel : nat) (klass addr : Z) : M unit :=
  p <-- (fun c => (readval c addr 8, c)) ;;
  dbgp <-- lift (field p 0 8) ;;
  s <-- xread klass dbgp 5 ;;
  map_ <-- lift (xword klass s 1) ;;
  ldbase <-- lift (xword klass s 4) ;;
  link_loop fuel klass ldbase map_.

(** ** The constructor *)

Definition read_segment (h : Phdr) : M unit :=
  if p_memsz h =? 0 then ret tt
  else change (fun c => with_seg (seg_insert (p_vaddr h) (mk_seg (p_offset h) (p_memsz h) (p_filesz h) (p_flags h) []) (seg_ c)) c).

Definition read_phdr (klass : Z) (h : Phdr) : M unit :=
  if p_type h =? PT_LOAD then read_segment h
  else if p_type h =? PT_NOTE then read_notes klass h
  else ret tt.

(** The loop over the program headers. *)
Fixpoint phdr_loop (klass : Z) (l : list Phdr) : M unit :=
  match l with
  | [] => ret tt
  | h :: l => read_phdr klass h ;;; phdr_loop klass l
  end.

(** The headers that the loop visits. *)
Definition phdr_list : res (list Phdr) := program_headers elf (fun h l => Ok (inl (l ++ [h]))) [].

Definition program_matches (prog : bytes) (c : core) : bool :=
  match prog with
  | [] => false
  | _ => match procname_ c with
         | [] => true
         | p => if list_eq_dec ascii_dec (canonical_path prog) p then true else false
         end
  end.

Definition ET_CORE : Z := 4.

Definition CoreFile (fuel : nat) (prog : bytes) : M unit :=
  eh <-- lift (ElfHdr elf) ;;
  klass <-- lift (Selector elf) ;;
  if e_type eh =? ET_CORE then
    l <-- lift phdr_list ;;
    phdr_loop klass l ;;;
    change (fun c => if program_matches prog c then with_names prog (shortname_ c) c else c) ;;;
    procname <-- look procname_ ;;
    catching (b <-- lift (open_binary procname) ;;
              addr <-- lift (get_linker_debug_struct_addr (snd b)) ;;
              if addr =? 0 then ret tt else read_debug_struct fuel klass addr)
             (ret tt)
  else lift (Fail Thrown).

End Core.
