(* ===== verification/CoreFileCorrect.v ===== *)
(** * What is read from core dumps

    The memory of the crashed program is the one that its program headers describe, wherever
    it is in the file; behind the part that is in the file it is zero only if the program is
    not known. Notes and auxiliary vectors are read as they were written. *)
From stdpp Require Import base list.
From S2P Require Import Prelude CLib Stream StreamCorrect Elf ElfCorrect Environ CoreFile.
Local Open Scope Z_scope.
Local Open Scope core_scope.

(** ** Segments *)

(** Ordered by their addresses, each once. *)
Fixpoint seg_sorted (m : list (Z * Segment)) : Prop :=
  match m with
  | [] => True
  | (j, _) :: m' => Forall (fun e => j < fst e) m' /\ seg_sorted m'
  end.

Lemma seg_insert_from k v m e : In e (seg_insert k v m) -> e = (k, v) \/ In e m.
Proof.
  induction m as [|[j w] m IH]; cbn; [intros [<-|[]]; auto|]. destruct (k <? j); [intros [<-|H]; auto|].
  destruct (j <? k); [|auto]. intros [<-|H]; [auto|]. destruct (IH H); auto.
Qed.

Lemma seg_insert_stays k v m e : In e m -> In e (seg_insert k v m).
Proof.
  induction m as [|[j w] m IH]; cbn; [easy|]. intros H. destruct (k <? j); [now right|]. destruct (j <? k); [|exact H].
  destruct H as [<-|H]; [now left | right; auto].
Qed.

(** A new entry is there unless there was one of the same address. *)
Lemma seg_insert_in k v m : (forall e, In e m -> fst e = k -> e = (k, v)) -> In (k, v) (seg_insert k v m).
Proof.
  induction m as [|[j w] m IH]; cbn; intros H; [now left|]. destruct (Z.ltb_spec k j); [now left|]. destruct (Z.ltb_spec j k).
  - right. apply IH. intros e He. apply H. now right.
  - left. apply H; [now left|]. cbn. lia.
Qed.

Lemma seg_insert_sorted k v m : seg_sorted m -> seg_sorted (seg_insert k v m).
Proof.
  induction m as [|[j w] m IH]; cbn; [auto|]. intros [Hj Hm]. destruct (Z.ltb_spec k j).
  - cbn. repeat split; auto. constructor; [cbn; lia|]. eapply List.Forall_impl; [|exact Hj]. cbn. lia.
  - destruct (Z.ltb_spec j k); [|now cbn]. cbn. split; [|auto].
    rewrite List.Forall_forall in *. intros e He. destruct (seg_insert_from k v m e He) as [->|Hin]; [cbn; lia | now apply Hj].
Qed.

(** The entry with the greatest address that is not above. *)
Lemma find_segment_spec m addr : seg_sorted m ->
  match find_segment m addr with
  | Some (j, w) => In (j, w) m /\ j <= addr /\ Forall (fun e => fst e <= addr -> fst e <= j) m
  | None => Forall (fun e => addr < fst e) m
  end.
Proof.
  induction m as [|[j w] m IH]; cbn [find_segment seg_sorted]; [constructor|]. intros [Hj Hm]. specialize (IH Hm).
  rewrite List.Forall_forall in Hj. destruct (Z.ltb_spec addr j).
  - constructor; [cbn; lia|]. apply List.Forall_forall. intros e He. specialize (Hj e He). lia.
  - destruct (Z.eqb_spec addr j) as [->|Hne].
    + split; [now left|]. split; [lia|]. constructor; [cbn; lia|]. apply List.Forall_forall. intros e He. specialize (Hj e He). lia.
    + destruct (find_segment m addr) as [[j' w']|].
      * destruct IH as (Hin & Hle & Hmax). split; [now right|]. split; [lia|]. constructor; [|assumption]. cbn. specialize (Hj _ Hin). cbn in Hj. lia.
      * split; [now left|]. split; [lia|]. constructor; [cbn; lia|]. eapply List.Forall_impl; [|exact IH]. cbn. lia.
Qed.

Lemma seg_unique m j w w' : seg_sorted m -> In (j, w) m -> In (j, w') m -> w = w'.
Proof.
  induction m as [|[k v] m IH]; cbn; [easy|]. intros [Hk Hm] H1 H2. rewrite List.Forall_forall in Hk.
  destruct H1 as [E1|H1], H2 as [E2|H2]; [congruence| | |now apply IH].
  - specialize (Hk _ H2). cbn in Hk. injection E1; intros; subst. lia.
  - specialize (Hk _ H1). cbn in Hk. injection E2; intros; subst. lia.
Qed.

(** An address in the segment at [j] whose neighbours are not in its way. *)
Lemma find_segment_in m j w addr : seg_sorted m -> In (j, w) m -> j <= addr ->
  Forall (fun e => fst e <= j \/ addr < fst e) m -> find_segment m addr = Some (j, w).
Proof.
  intros Hs Hin Hle Hn. pose proof (find_segment_spec m addr Hs) as H. rewrite List.Forall_forall in Hn.
  destruct (find_segment m addr) as [[j' w']|].
  - destruct H as (Hin' & Hle' & Hmax). rewrite List.Forall_forall in Hmax. specialize (Hmax _ Hin Hle). cbn in Hmax.
    specialize (Hn _ Hin'). cbn in Hn. assert (j' = j) as -> by lia. now rewrite (seg_unique m j w w').
  - rewrite List.Forall_forall in H. specialize (H _ Hin). cbn in H. lia.
Qed.

(** ** Memory *)

(** The bytes of a segment as the program had them. *)
Definition seg_image (self : bytes) (seg : Segment) : bytes :=
  firstn (Z.to_nat (fsize seg)) (skipn (Z.to_nat (offs seg)) self) ++ repeat NUL (Z.to_nat (msize seg - fsize seg)).

(** A segment that is in the file with as many bytes as it says. *)
Record seg_ok (self : bytes) (seg : Segment) : Prop := {
  so_offs : 0 <= offs seg;
  so_size : 0 <= fsize seg <= msize seg;
  so_file : offs seg + fsize seg <= Z.of_nat (length self);
  so_width : Z.of_nat (length self) < 2 ^ 63;
  so_code : fsize seg = 0 -> Z.land (flags seg) PF_X = 0
}.

Lemma readbuf_all file o n : 0 <= o -> 0 <= n -> o + n <= Z.of_nat (length file) -> Z.of_nat (length file) < 2 ^ 63 ->
  readbuf file o n = Ok (firstn (Z.to_nat n) (skipn (Z.to_nat o) file)).
Proof.
  intros Ho Hn Hlen Hw. unfold readbuf. destruct (Z.leb_spec (2 ^ 63) o); [lia|].
  assert (length (firstn (Z.to_nat n) (skipn (Z.to_nat o) file)) = Z.to_nat n) as El by (rewrite length_firstn, length_skipn; lia).
  rewrite El. destruct (Z.eqb_spec (Z.of_nat (Z.to_nat n)) 0).
  - destruct (firstn _ _); [reflexivity|]. cbn in El. lia.
  - destruct (Z.eqb_spec (Z.of_nat (Z.to_nat n)) n); [reflexivity|lia].
Qed.

(** The part of the image that is in the file. *)
Lemma image_file self seg k n : seg_ok self seg -> 0 <= k -> 0 <= n -> k + n <= fsize seg ->
  firstn (Z.to_nat n) (skipn (Z.to_nat (offs seg + k)) self) = firstn (Z.to_nat n) (skipn (Z.to_nat k) (seg_image self seg)).
Proof.
  intros [H1 H2 H3 H4 H5] Hk Hn Hle. unfold seg_image. rewrite skipn_app, firstn_app.
  rewrite skipn_firstn_comm, firstn_firstn, skipn_skipn, length_firstn, length_skipn, length_firstn, length_skipn.
  replace (Z.to_nat n - _)%nat with 0%nat by lia. rewrite firstn_O, app_nil_r. f_equal; [lia|]. f_equal. lia.
Qed.

Lemma image_length self seg : seg_ok self seg -> Z.of_nat (length (seg_image self seg)) = msize seg.
Proof. intros [H1 H2 H3 H4 H5]. unfold seg_image. rewrite length_app, length_firstn, length_skipn, repeat_length. lia. Qed.

(** The part that is not. *)
Lemma image_zero self seg k n : seg_ok self seg -> fsize seg <= k -> 0 <= n -> k + n <= msize seg ->
  firstn (Z.to_nat n) (skipn (Z.to_nat k) (seg_image self seg)) = repeat NUL (Z.to_nat n).
Proof.
  intros [H1 H2 H3 H4 H5] Hk Hn Hle. unfold seg_image. rewrite skipn_app, skipn_all2 by (rewrite length_firstn, length_skipn; lia).
  cbn [app]. rewrite length_firstn, length_skipn.
  replace (Z.to_nat (msize seg - fsize seg)) with (Z.to_nat (k - fsize seg) + (Z.to_nat n + Z.to_nat (msize seg - k - n)))%nat by lia.
  rewrite !repeat_app, skipn_app, repeat_length, skipn_all2 by (rewrite repeat_length; lia). cbn [app].
  replace (_ - _)%nat with 0%nat by lia. rewrite skipn_O, firstn_app, repeat_length, Nat.sub_diag, firstn_O, app_nil_r.
  apply firstn_all2. rewrite repeat_length. lia.
Qed.

Section Memory.
Variables (self : bytes) (open_file : bytes -> option (bytes * Elf)).
Abbreviation readbuf_ := (readbuf_ self open_file).

Lemma put_0 buf b : put buf 0 b = b ++ skipn (length b) buf.
Proof. reflexivity. Qed.

Lemma put_all buf b : length b = length buf -> put buf 0 b = b.
Proof. intros E. unfold put. rewrite Nat.add_0_l, E, skipn_all. cbn. apply app_nil_r. Qed.

Variables (c : core) (addr j : Z) (seg : Segment) (buf : bytes).
Let k : Z := addr - j.
Let len : Z := Z.of_nat (length buf).
Hypothesis found : find_segment (seg_ c) addr = Some (j, seg).
Hypothesis good_seg : seg_ok self seg.
Hypothesis above : 0 <= k.

Lemma not_code : (fsize seg =? 0) && negb (msize seg =? 0) && negb (Z.land (flags seg) PF_X =? 0) = false.
Proof.
  destruct (Z.eqb_spec (fsize seg) 0) as [E|]; [|reflexivity]. rewrite (so_code self seg good_seg E). cbn. apply andb_false_r.
Qed.

(** What is in the file is read from it, whether the program is known or not. *)
Lemma read_file_part : 0 < len -> k + len <= fsize seg ->
  readbuf_ c addr buf = Ok (len, firstn (Z.to_nat len) (skipn (Z.to_nat k) (seg_image self seg))).
Proof.
  intros Hlen Hk. pose proof good_seg as [H1 H2 H3 H4 H5]. unfold CoreFile.readbuf_. rewrite found. fold k len.
  unfold u64_. rewrite Z.mod_small by lia. destruct (Z.ltb_spec (msize seg) (k + len)); [lia|]. cbn [andb]. rewrite not_code.
  destruct (Z.ltb_spec k (fsize seg)); [|lia]. rewrite Z.min_l by lia. rewrite readbuf_all by lia. cbn [bind].
  rewrite (image_file self seg k len) by (auto; lia).
  assert (length (firstn (Z.to_nat len) (skipn (Z.to_nat k) (seg_image self seg))) = Z.to_nat len) as El.
  { rewrite length_firstn, length_skipn. pose proof (image_length self seg good_seg). lia. }
  rewrite El. destruct (Z.eqb_spec (Z.of_nat (Z.to_nat len)) len); [|lia]. cbn [bind].
  destruct (Z.ltb_spec len len); [lia|]. rewrite put_all by (rewrite El; unfold len; lia). reflexivity.
Qed.

Lemma firstn_image_split n a : 0 <= a <= n -> k + n <= msize seg -> k + a = Z.max k (fsize seg) ->
  firstn (Z.to_nat n) (skipn (Z.to_nat k) (seg_image self seg)) =
  firstn (Z.to_nat a) (skipn (Z.to_nat k) (seg_image self seg)) ++ repeat NUL (Z.to_nat (n - a)).
Proof.
  intros Ha Hn Hm. rewrite <- (firstn_skipn (Z.to_nat a) (firstn (Z.to_nat n) _)). rewrite firstn_firstn, Nat.min_l by lia. f_equal.
  rewrite skipn_firstn_comm, skipn_skipn, <- Nat.add_comm, <- Z2Nat.inj_add by lia.
  replace (Z.to_nat n - Z.to_nat a)%nat with (Z.to_nat (n - a)) by lia.
  apply image_zero; auto; lia.
Qed.

(** When the program is not known, what is not in the file is zero, and the read stops at the
    end of the segment. *)
Lemma read_image : filename seg = [] -> procname_ c = [] -> k + len < 2 ^ 64 ->
  readbuf_ c addr buf =
  let n := Z.max 0 (Z.min len (msize seg - k)) in
  Ok (n, firstn (Z.to_nat n) (skipn (Z.to_nat k) (seg_image self seg)) ++ skipn (Z.to_nat n) buf).
Proof.
  intros Hf Hp Hw. pose proof good_seg as [H1 H2 H3 H4 H5]. assert (0 <= len) as Hl by (unfold len; lia).
  unfold CoreFile.readbuf_. rewrite found. fold k len. cbv zeta. unfold u64_. rewrite (Z.mod_small (k + len)) by lia.
  destruct (Z.leb_spec (msize seg) k) as [Hout|Hin].
  { destruct (Z.ltb_spec (msize seg) (k + len)); cbn [andb].
    - replace (Z.max 0 (Z.min len (msize seg - k))) with 0 by lia. reflexivity.
    - rewrite not_code. destruct (Z.ltb_spec k (fsize seg)); [lia|]. cbn [bind]. destruct (Z.ltb_spec 0 len); [lia|].
      replace (Z.max 0 (Z.min len (msize seg - k))) with 0 by lia. reflexivity. }
  rewrite andb_false_r, not_code, Hf, Hp. set (n := Z.max 0 (Z.min len (msize seg - k))).
  replace (if msize seg <? k + len then msize seg - k else len) with n by (unfold n; destruct (Z.ltb_spec (msize seg) (k + len)); lia).
  destruct (Z.ltb_spec k (fsize seg)) as [Hfile|Hbss].
  - set (a := Z.min n (fsize seg - k)). rewrite readbuf_all by lia. cbn [bind].
    rewrite (image_file self seg k a) by (auto; lia).
    assert (length (firstn (Z.to_nat a) (skipn (Z.to_nat k) (seg_image self seg))) = Z.to_nat a) as El.
    { rewrite length_firstn, length_skipn. pose proof (image_length self seg good_seg). lia. }
    rewrite El. destruct (Z.eqb_spec (Z.of_nat (Z.to_nat a)) a); [|lia]. cbn [bind]. destruct (Z.ltb_spec a n) as [Hlt|Hge].
    + cbn [bind]. do 2 f_equal; [lia|]. rewrite put_0, El. unfold put.
      rewrite (firstn_image_split n a) by lia. rewrite repeat_length, <- !app_assoc.
      rewrite firstn_app, El, Nat.sub_diag, firstn_O, app_nil_r, firstn_all2 by lia. f_equal. f_equal.
      rewrite skipn_app, skipn_all2 by lia. rewrite El, skipn_skipn. cbn [app]. f_equal. lia.
    + do 2 f_equal; [lia|]. rewrite put_0, El. replace a with n by lia. reflexivity.
  - cbn [bind]. destruct (Z.ltb_spec 0 n) as [Hpos|Hz].
    + do 2 f_equal; [lia|]. change (Z.to_nat 0) with 0%nat. rewrite put_0, repeat_length, Z.sub_0_r. f_equal. symmetry. apply image_zero; auto; lia.
    + assert (n = 0) as -> by lia. reflexivity.
Qed.

Variables (fn : bytes) (prog : bytes) (pelf : Elf).
Hypothesis named : match filename seg with [] => procname_ c | f => f end = fn.
Hypothesis known : fn <> [].
Hypothesis opened : open_file fn = Some (prog, pelf).

(** When the program is known, the memory that is not in the file is read from the file of
    the program, at the offset in the segment. *)
Lemma read_bss_of_program : fsize seg <= k -> 0 < len -> k + len <= msize seg -> k + len <= Z.of_nat (length prog) ->
  Z.of_nat (length prog) < 2 ^ 63 ->
  readbuf_ c addr buf = Ok (len, firstn (Z.to_nat len) (skipn (Z.to_nat k) prog)).
Proof.
  intros Hk Hlen Hm Hp Hw. unfold CoreFile.readbuf_. rewrite found. fold k len. cbv zeta. unfold u64_. rewrite Z.mod_small by lia.
  destruct (Z.ltb_spec (msize seg) (k + len)); [lia|]. cbn [andb]. rewrite not_code.
  destruct (Z.ltb_spec k (fsize seg)); [lia|]. cbn [bind]. destruct (Z.ltb_spec 0 len); [|lia]. rewrite named.
  destruct fn as [|ch f] eqn:Ef; [easy|]. unfold open_binary. rewrite <- Ef, Ef, opened. cbn [bind fst].
  rewrite readbuf_all by lia. cbn [bind].
  assert (length (firstn (Z.to_nat len) (skipn (Z.to_nat k) prog)) = Z.to_nat len) as El by (rewrite length_firstn, length_skipn; lia).
  rewrite El. rewrite put_all by (rewrite El; unfold len; lia). do 2 f_equal; [lia|].
  replace (Z.to_nat (len - Z.of_nat (Z.to_nat len))) with 0%nat by lia. unfold put. cbn [repeat length app]. rewrite Nat.add_0_r.
  apply firstn_skipn.
Qed.

(** A read across the end of the part in the file counts its first bytes twice, so that the
    caller takes it for a failure. *)
Lemma read_across_fails : k < fsize seg -> fsize seg < k + len -> k + len <= msize seg -> k + len <= Z.of_nat (length prog) ->
  Z.of_nat (length prog) < 2 ^ 63 -> core_readbuf self open_file c addr buf = Fail Thrown.
Proof.
  intros Hk Hlen Hm Hp Hw. pose proof good_seg as [H1 H2 H3 H4 H5]. unfold core_readbuf, CoreFile.readbuf_. rewrite found. fold k len. cbv zeta.
  unfold u64_. rewrite Z.mod_small by lia.
  destruct (Z.ltb_spec (msize seg) (k + len)); [lia|]. cbn [andb]. rewrite not_code.
  destruct (Z.ltb_spec k (fsize seg)); [|lia]. rewrite Z.min_r by lia. rewrite readbuf_all by lia. cbn [bind].
  rewrite length_firstn, length_skipn. match goal with |- context [?x =? fsize seg - k] => destruct (Z.eqb_spec x (fsize seg - k)); [|lia] end. cbn [bind].
  destruct (Z.ltb_spec (fsize seg - k) len); [|lia]. rewrite named. destruct fn as [|ch f] eqn:Ef; [easy|].
  unfold open_binary. rewrite <- Ef, Ef, opened. cbn [bind fst]. rewrite readbuf_all by lia. cbn [bind].
  rewrite length_firstn, length_skipn. cbn [fst].
  match goal with |- context [?x =? len] => destruct (Z.eqb_spec x len); [lia|reflexivity] end.
Qed.

End Memory.

(** ** What the parts of the constructor leave alone *)

Section Leaves.
Context {X : Type}.
Variables (P : core -> X) (I : core -> Prop).
Hypothesis P_I : forall c c', P c = P c' -> I c -> I c'.

(** [P] of the object does not change, from objects that satisfy [I]. *)
Definition leaves {A} (m : M A) : Prop := forall c, I c -> P (snd (m c)) = P c.

Lemma leaves_ret {A} (a : A) : leaves (ret a).
Proof. now intros c. Qed.
Lemma leaves_lift {A} (r : res A) : leaves (lift r).
Proof. now intros c. Qed.
Lemma leaves_look {A} (f : core -> A) : leaves (look f).
Proof. now intros c. Qed.
Lemma leaves_change f : (forall c, P (f c) = P c) -> leaves (change f).
Proof. intros H c _. apply H. Qed.
Lemma leaves_reads {A} (f : core -> res A) : leaves (fun c => (f c, c)).
Proof. now intros c. Qed.

Lemma leaves_bind {A C} (m : M A) (k : A -> M C) : leaves m -> (forall a, leaves (k a)) -> leaves (andThen m k).
Proof.
  intros Hm Hk c Hc. specialize (Hm c Hc). unfold andThen. destruct (m c) as [[a|f] c'] eqn:E; cbn in Hm |- *; [|assumption].
  rewrite <- Hm. apply Hk. apply (P_I c c'); [now symmetry | assumption].
Qed.

Lemma leaves_catching {A} (m h : M A) : leaves m -> leaves h -> leaves (catching m h).
Proof.
  intros Hm Hh c Hc. specialize (Hm c Hc). unfold catching. destruct (m c) as [[a|[]] c'] eqn:E; cbn in Hm |- *; try assumption.
  rewrite <- Hm. apply Hh. apply (P_I c c'); [now symmetry | assumption].
Qed.
End Leaves.

Create HintDb leaves.
#[export] Hint Resolve leaves_ret leaves_lift leaves_look leaves_reads : leaves.

Ltac keep := repeat first [ apply leaves_bind; [solve [eauto] | | intros ] | solve [auto with leaves] | progress cbv zeta | apply leaves_change; intros; reflexivity ].

(** The segments with all but their file names. *)
Definition seg_shape (e : Z * Segment) : Z * (Z * Z * Z * Z) := (fst e, (offs (snd e), msize (snd e), fsize (snd e), flags (snd e))).
Definition shape (m : list (Z * Segment)) : list (Z * (Z * Z * Z * Z)) := map seg_shape m.

Lemma shape_sorted m m' : shape m = shape m' -> seg_sorted m -> seg_sorted m'.
Proof.
  revert m'. induction m as [|[j w] m IH]; intros [|[j' w'] m']; cbn; try easy. intros E [Hj Hm]. injection E as <- _ _ _ _ E.
  split; [|now apply IH]. clear IH Hm w w'. revert m' E. induction Hj as [|e m He _ IH]; intros [|e' m'] E; try discriminate; constructor.
  - cbn in E. injection E as E _. congruence.
  - apply IH. cbn in E. now injection E.
Qed.

Lemma find_segment_shape m m' addr : shape m = shape m' ->
  match find_segment m addr, find_segment m' addr with
  | Some e, Some e' => seg_shape e = seg_shape e'
  | None, None => True
  | _, _ => False
  end.
Proof.
  revert m'. induction m as [|[j w] m IH]; intros [|[j' w'] m'] E; try discriminate; [easy|]. cbn in E.
  injection E as <- E1 E2 E3 E4 E. specialize (IH m' E). cbn [find_segment]. destruct (addr <? j); [easy|].
  assert (seg_shape (j, w) = seg_shape (j, w')) as Hs by (unfold seg_shape; cbn; congruence).
  destruct (addr =? j); [exact Hs|]. destruct (find_segment m addr), (find_segment m' addr); easy.
Qed.

Lemma seg_update_shape m j w w' : seg_sorted m -> In (j, w) m -> seg_shape (j, w') = seg_shape (j, w) -> shape (seg_update j w' m) = shape m.
Proof.
  induction m as [|[k v] m IH]; [easy|]. cbn [seg_sorted seg_update In]. intros [Hk Hm] [E|Hin] Hs.
  - injection E as -> ->. rewrite Z.eqb_refl. cbn [shape map]. now rewrite Hs.
  - rewrite List.Forall_forall in Hk. specialize (Hk _ Hin). cbn in Hk. destruct (Z.eqb_spec k j); [lia|]. cbn [shape map]. f_equal. now apply IH.
Qed.

Section Constructor.
Variables (self : bytes) (elf : Elf) (name : bytes).
Variable open_file : bytes -> option (bytes * Elf).
Variables (canonical_path : bytes -> bytes) (is_regular : bytes -> bool) (cwd : bytes).

Definition always (c : core) : Prop := True.
Lemma always_ok {X} (P : core -> X) c c' : P c = P c' -> always c -> always c'.
Proof. easy. Qed.
Hint Resolve always_ok : core.

(** What notes other than those of threads do not change. *)
Section OtherNotes.
Context {X : Type} (P : core -> X).
Hypothesis P_names : forall p q c, P (with_names p q c) = P c.
Hypothesis P_info : forall m c, P (with_info m c) = P c.
Hypothesis P_fpxregs : forall m c, P (with_fpxregs m c) = P c.
Hypothesis P_auxv : forall m c, P (with_auxv m c) = P c.

Lemma read_prpsinfo_leaves klass n : leaves P always (read_prpsinfo name canonical_path klass n).
Proof.
  unfold read_prpsinfo. apply leaves_bind; [eauto|apply leaves_lift|]. intros info. apply leaves_bind; [eauto|apply leaves_change; auto|]. intros _.
  apply leaves_bind; [eauto|apply leaves_look|]. intros pn. apply leaves_bind; [eauto| |].
  - destruct pn; [|apply leaves_ret]. apply leaves_bind; [eauto|apply leaves_lift|]. intros args.
    apply leaves_bind; [eauto|apply leaves_lift|]. intros text. apply leaves_change; auto.
  - intros _. apply leaves_change. intros c. destruct (procname_ c); [reflexivity|]. destruct (absolute _); auto.
Qed.

Lemma read_fpregs_leaves n : leaves P always (read_fpregs n).
Proof. unfold read_fpregs. apply leaves_change. intros c. destruct (_ =? _); auto. Qed.

Lemma read_auxv_leaves klass n : leaves P always (read_auxv klass n).
Proof.
  unfold read_auxv. generalize (S (length (n_desc n))) 0. intros fuel. induction fuel as [|fuel IH]; intros i; cbn [auxv_loop]; [apply leaves_lift|].
  destruct (i <? _); [|apply leaves_ret]. apply leaves_bind; [eauto|apply leaves_lift|]. intros [[i' t] v].
  apply leaves_bind; [eauto|apply leaves_change; auto|]. intros _. apply IH.
Qed.

Lemma other_note_leaves klass n : n_type n <> NT_PRSTATUS -> leaves P always (read_note name canonical_path klass n).
Proof.
  intros Hn. unfold read_note. destruct (Z.eqb_spec (n_type n) NT_PRSTATUS); [easy|].
  repeat destruct (_ =? _); auto using read_prpsinfo_leaves, read_fpregs_leaves, read_auxv_leaves, leaves_ret.
Qed.
End OtherNotes.

(** Notes do not change the segments. *)
Lemma read_note_segs klass n : leaves seg_ always (read_note name canonical_path klass n).
Proof.
  destruct (Z.eq_dec (n_type n) NT_PRSTATUS) as [E|E]; [|now apply other_note_leaves].
  unfold read_note. rewrite E, Z.eqb_refl. unfold read_prstatus. keep.
Qed.

Lemma notes_loop_segs fuel klass s data : leaves seg_ always (notes_loop name canonical_path fuel klass s data).
Proof.
  revert data. induction fuel as [|fuel IH]; intros data; cbn [notes_loop]; [apply leaves_lift|]. destruct (_ <? _); [apply leaves_ret|].
  apply leaves_bind; [eauto|apply leaves_lift|]. intros n. apply leaves_bind; [eauto|apply read_note_segs|]. intros _. cbv zeta.
  destruct (_ <=? _); [apply leaves_ret | apply IH].
Qed.

(** The segments that a program header adds. *)
Definition seg_of (h : Phdr) : Segment := mk_seg (p_offset h) (p_memsz h) (p_filesz h) (p_flags h) [].
Definition loaded (h : Phdr) : bool := (p_type h =? PT_LOAD) && negb (p_memsz h =? 0).
Definition add_load (m : list (Z * Segment)) (h : Phdr) : list (Z * Segment) :=
  if loaded h then seg_insert (p_vaddr h) (seg_of h) m else m.

Lemma read_phdr_segs klass h c r c' : read_phdr self name canonical_path klass h c = (r, c') -> seg_ c' = add_load (seg_ c) h.
Proof.
  unfold read_phdr, add_load, loaded. destruct (p_type h =? PT_LOAD); cbn [andb].
  - unfold read_segment. destruct (p_memsz h =? 0); intros E; now injection E as <- <-.
  - destruct (p_type h =? PT_NOTE); [|intros E; now injection E as <- <-]. intros E. unfold read_notes in E.
    assert (leaves seg_ always (fun c => read_notes self name canonical_path klass h c)) as K.
    { apply leaves_bind; [eauto|apply leaves_lift|]. intros got. apply notes_loop_segs. }
    specialize (K c I). unfold read_notes in K. rewrite E in K. exact K.
Qed.

Lemma phdr_loop_segs klass l c c' : phdr_loop self name canonical_path klass l c = (Ok tt, c') -> seg_ c' = fold_left add_load l (seg_ c).
Proof.
  revert c. induction l as [|h l IH]; intros c E; cbn [phdr_loop] in E; [now injection E as <-|].
  unfold andThen in E. destruct (read_phdr _ _ _ klass h c) as [[[]|f] c1] eqn:E1; [|discriminate].
  cbn [fold_left]. rewrite <- (read_phdr_segs klass h c (Ok tt) c1 E1). now apply IH.
Qed.
(** Reading the link map only names the files of segments. *)
Definition shape_ (c : core) := (shape (seg_ c), procname_ c).
Definition sorted_ (c : core) : Prop := seg_sorted (seg_ c).

Lemma sorted_ok c c' : shape_ c = shape_ c' -> sorted_ c -> sorted_ c'.
Proof. intros E. apply shape_sorted. now injection E. Qed.
Hint Resolve sorted_ok : core.

Abbreviation leaves_shape := (leaves shape_ sorted_).

Lemma get_environment_shape : leaves_shape (get_environment self elf).
Proof.
  unfold get_environment. apply leaves_bind; [eauto|apply leaves_look|]. intros [|e env]; [|apply leaves_ret]. keep.
Qed.

Lemma absolute_library_shape path : leaves_shape (absolute_library self elf canonical_path is_regular cwd path).
Proof. unfold absolute_library. apply leaves_bind; [eauto|apply get_environment_shape|]. intros _. keep. Qed.

Lemma set_segment_filename_shape addr path : leaves_shape (set_segment_filename self elf canonical_path is_regular cwd addr path).
Proof.
  intros c Hc. unfold set_segment_filename. unfold andThen at 1, look. cbn [fst snd].
  pose proof (find_segment_spec (seg_ c) addr Hc) as Hf. destruct (find_segment (seg_ c) addr) as [[j seg]|]; [|reflexivity].
  destruct Hf as (Hin & _). destruct (filename seg); [|reflexivity]. cbv zeta.
  set (c1 := with_seg (seg_update j (mk_seg (offs seg) (msize seg) (fsize seg) (flags seg) path) (seg_ c)) c).
  assert (shape_ c1 = shape_ c) as H1 by (unfold shape_; cbn; f_equal; apply seg_update_shape with seg; auto).
  unfold andThen at 1, change at 1. fold c1. rewrite <- H1. destruct (absolute path); [reflexivity|].
  assert (sorted_ c1) as Hs1 by (apply (sorted_ok c c1); auto).
  pose proof (absolute_library_shape path c1 Hs1) as H2. unfold andThen.
  destruct (absolute_library _ _ _ _ _ path c1) as [[p|f] c2] eqn:E; cbn [snd fst] in *; [|assumption].
  rewrite <- H2. assert (sorted_ c2) as Hs2 by (apply (sorted_ok c1 c2); auto).
  unfold change. cbn [snd]. unfold shape_ at 1. cbn [seg_ with_seg procname_].
  assert (exists seg', In (j, seg') (seg_ c2) /\ seg_shape (j, seg') = seg_shape (j, seg)) as (seg' & Hin2 & Es).
  { assert (In (seg_shape (j, seg)) (fst (shape_ c2))) as Hsh.
    { rewrite H2, H1. unfold shape_, shape. cbn. apply in_map_iff. eauto. }
    unfold shape_, shape in Hsh. cbn in Hsh. apply in_map_iff in Hsh as ([j' seg'] & Esh & Hin'). assert (j' = j) as -> by (now injection Esh). eauto. }
  unfold shape_. f_equal. apply seg_update_shape with seg'; auto.
Qed.

Lemma read_link_shape klass addr : leaves_shape (read_link self open_file klass addr).
Proof. unfold read_link. apply leaves_bind; [eauto|apply leaves_reads|]. intros s. keep. Qed.

Lemma library_path_shape ldbase m : leaves_shape (library_path self open_file canonical_path ldbase m).
Proof.
  unfold library_path. apply leaves_bind; [eauto| |].
  - destruct (l_name m =? 0); [apply leaves_ret | apply leaves_reads].
  - intros buf. destruct (cstr_of buf); [|apply leaves_ret]. destruct (l_addr m =? ldbase); [|apply leaves_ret]. keep.
Qed.

Lemma read_link_entry_shape ldbase m : leaves_shape (read_link_entry self elf open_file canonical_path is_regular cwd ldbase m).
Proof.
  unfold read_link_entry. destruct (l_prev m =? 0).
  - apply leaves_bind; [eauto|apply leaves_lift|]. intros load. apply leaves_bind; [eauto|apply leaves_look|]. intros pn.
    destruct (l_addr m =? fst load); [apply set_segment_filename_shape | apply leaves_ret].
  - apply leaves_bind; [eauto|apply library_path_shape|]. intros [path|]; [|apply leaves_ret].
    apply leaves_bind; [eauto| |].
    + apply leaves_catching; [eauto| |apply leaves_ret]. apply leaves_bind; [eauto|apply absolute_library_shape|]. intros full. keep.
    + intros [[a full]|]; [apply set_segment_filename_shape | apply leaves_ret].
Qed.

Lemma link_loop_shape fuel klass ldbase pmap : leaves_shape (link_loop self elf open_file canonical_path is_regular cwd fuel klass ldbase pmap).
Proof.
  revert pmap. induction fuel as [|fuel IH]; intros pmap; cbn [link_loop]; [apply leaves_lift|]. destruct (pmap =? 0); [apply leaves_ret|].
  apply leaves_bind; [eauto|apply read_link_shape|]. intros m. apply leaves_bind; [eauto|apply read_link_entry_shape|]. intros _. apply IH.
Qed.

Lemma read_debug_struct_shape fuel klass addr :
  leaves_shape (read_debug_struct self elf open_file canonical_path is_regular cwd fuel klass addr).
Proof.
  unfold read_debug_struct. apply leaves_bind; [eauto|apply leaves_reads|]. intros p. apply leaves_bind; [eauto|apply leaves_lift|]. intros dbgp.
  apply leaves_bind; [eauto|apply leaves_reads|]. intros s. apply leaves_bind; [eauto|apply leaves_lift|]. intros map_.
  apply leaves_bind; [eauto|apply leaves_lift|]. intros ldbase. apply link_loop_shape.
Qed.

Lemma phdr_list_all eh : phdrs_ok elf eh -> phdr_list elf = Ok (getphdr elf).
Proof.
  intros H. unfold phdr_list. rewrite (program_headers_scan elf eh) by assumption.
  enough (forall l acc, scan (fun h l => Ok (inl (l ++ [h]))) l acc = Ok (acc ++ l)) as -> by reflexivity.
  induction l as [|h l IH]; intros acc; cbn [scan bind]; [now rewrite app_nil_r|]. rewrite IH, <- app_assoc. reflexivity.
Qed.

Lemma fold_load_sorted l m : seg_sorted m -> seg_sorted (fold_left add_load l m).
Proof.
  revert m. induction l as [|h l IH]; intros m Hm; cbn; [assumption|]. apply IH. unfold add_load. destruct (loaded h); [|assumption].
  now apply seg_insert_sorted.
Qed.

(** The segments of the object are those that the program headers load. *)
Lemma core_segments eh fuel prog c : phdrs_ok elf eh ->
  CoreFile self elf name open_file canonical_path is_regular cwd fuel prog empty_core = (Ok tt, c) ->
  shape (seg_ c) = shape (fold_left add_load (getphdr elf) []) /\
  (procname_ c = [] -> open_file [] = None -> seg_ c = fold_left add_load (getphdr elf) []).
Proof.
  intros Hp E. unfold CoreFile in E. unfold andThen at 1, lift at 1 in E. rewrite (ph_hdr elf eh Hp) in E.
  destruct (elfhdr_good elf eh (ph_hdr elf eh Hp)) as [klass Hk]. unfold andThen at 1, lift at 1 in E. rewrite Hk in E.
  destruct (e_type eh =? ET_CORE); [|discriminate]. unfold andThen at 1, lift at 1 in E. rewrite (phdr_list_all eh Hp) in E.
  unfold andThen at 1 in E. destruct (phdr_loop _ _ _ klass (getphdr elf) empty_core) as [[[]|f] c1] eqn:E1; [|discriminate].
  apply phdr_loop_segs in E1. cbn [empty_core seg_] in E1.
  unfold andThen at 1, change at 1 in E. set (c2 := if program_matches _ prog c1 then _ else c1) in E.
  assert (seg_ c2 = seg_ c1) as E2 by (unfold c2; destruct (program_matches _ prog c1); reflexivity).
  assert (seg_sorted (seg_ c2)) as Hs by (rewrite E2, E1; apply fold_load_sorted; easy).
  unfold andThen at 1, look at 1 in E.
  match type of E with catching ?m _ _ = _ => assert (leaves_shape m) as K end.
  { apply leaves_bind; [eauto|apply leaves_lift|]. intros b. apply leaves_bind; [eauto|apply leaves_lift|]. intros addr.
    destruct (addr =? 0); [apply leaves_ret | apply read_debug_struct_shape]. }
  pose proof (leaves_catching shape_ sorted_ sorted_ok _ _ K (leaves_ret shape_ sorted_ tt) c2 Hs) as Hc. rewrite E in Hc. cbn [snd] in Hc.
  injection Hc as Hc Hname. split; [rewrite Hc; congruence|]. intros Hn Ho. rewrite Hname in Hn.
  unfold catching, andThen at 1, lift at 1, open_binary in E. rewrite Hn, Ho in E. injection E as <-. congruence.
Qed.

(** The entries that the program headers make. *)
Lemma fold_load_in l m h : loaded h = true -> In h l \/ In (p_vaddr h, seg_of h) m ->
  (forall h', In h' l -> loaded h' = true -> p_vaddr h' = p_vaddr h -> h' = h) ->
  (forall e, In e m -> fst e = p_vaddr h -> e = (p_vaddr h, seg_of h)) ->
  In (p_vaddr h, seg_of h) (fold_left add_load l m).
Proof.
  intros Hh. revert m. induction l as [|g l IH]; intros m Hin Hl Hm; cbn [fold_left]; [destruct Hin; easy|].
  apply IH; [|intros; apply Hl; auto; now right|].
  - destruct Hin as [[->|Hin]|Hin]; [right|now left|right].
    + unfold add_load. rewrite Hh. now apply seg_insert_in.
    + unfold add_load. destruct (loaded g); [|assumption]. now apply seg_insert_stays.
  - intros e He Ee. unfold add_load in He. destruct (loaded g) eqn:Eg; [|now apply Hm].
    destruct (seg_insert_from _ _ _ _ He) as [->|He']; [|now apply Hm].
    cbn in Ee. now rewrite (Hl g (or_introl eq_refl) Eg Ee).
Qed.

Lemma fold_load_from l m e : In e (fold_left add_load l m) ->
  In e m \/ exists h, In h l /\ loaded h = true /\ e = (p_vaddr h, seg_of h).
Proof.
  revert m. induction l as [|g l IH]; intros m H; cbn [fold_left] in H; [auto|]. destruct (IH _ H) as [Hm|(h & H1 & H2 & ->)].
  - unfold add_load in Hm. destruct (loaded g) eqn:Eg; [|auto]. destruct (seg_insert_from _ _ _ _ Hm) as [->|Hm']; [|auto].
    right. exists g. repeat split; auto. now left.
  - right. exists h. repeat split; auto. now right.
Qed.

(** Two segments that do not get in each other's way. *)
Definition apart (h h' : Phdr) : Prop := h' = h \/ p_vaddr h' < p_vaddr h \/ p_vaddr h + p_memsz h <= p_vaddr h'.

(** The segment of a header in the object. *)
Lemma core_segment eh fuel prog c h k : phdrs_ok elf eh ->
  CoreFile self elf name open_file canonical_path is_regular cwd fuel prog empty_core = (Ok tt, c) ->
  In h (getphdr elf) -> loaded h = true ->
  (forall h', In h' (getphdr elf) -> loaded h' = true -> apart h h') -> 0 <= k < p_memsz h ->
  exists seg, find_segment (seg_ c) (p_vaddr h + k) = Some (p_vaddr h, seg) /\
    seg_shape (p_vaddr h, seg) = seg_shape (p_vaddr h, seg_of h) /\
    (procname_ c = [] -> open_file [] = None -> seg = seg_of h).
Proof.
  intros Hp Hc Hin Hh Ha Hk. destruct (core_segments eh fuel prog c Hp Hc) as [Hs Hn].
  set (m := fold_left add_load (getphdr elf) []) in *.
  assert (In (p_vaddr h, seg_of h) m) as Hm.
  { apply fold_load_in; auto; [|easy]. intros h' Hin' Hh' Ev. destruct (Ha h' Hin' Hh') as [->|[H|H]]; [reflexivity|lia|lia]. }
  assert (find_segment m (p_vaddr h + k) = Some (p_vaddr h, seg_of h)) as Hf.
  { apply find_segment_in; [apply fold_load_sorted; easy | exact Hm | lia |]. apply List.Forall_forall. intros e He.
    assert (exists h', In h' (getphdr elf) /\ loaded h' = true /\ fst e = p_vaddr h') as (h' & Hin' & Hh' & ->).
    { destruct (fold_load_from _ _ _ He) as [[]|(h' & H1 & H2 & ->)]. eauto. }
    destruct (Ha h' Hin' Hh') as [->|[H|H]]; lia. }
  pose proof (find_segment_shape m (seg_ c) (p_vaddr h + k) (eq_sym Hs)) as Hsh. rewrite Hf in Hsh.
  destruct (find_segment (seg_ c) (p_vaddr h + k)) as [[j seg]|] eqn:Ef; [|easy].
  assert (j = p_vaddr h) as -> by (now injection Hsh). exists seg. repeat split; [easy|].
  intros H1 H2. rewrite (Hn H1 H2), Hf in Ef. now injection Ef.
Qed.

Lemma seg_ok_shape h seg : seg_shape (p_vaddr h, seg) = seg_shape (p_vaddr h, seg_of h) -> seg_ok self (seg_of h) ->
  seg_ok self seg /\ fsize seg = p_filesz h /\ msize seg = p_memsz h /\ offs seg = p_offset h /\ seg_image self seg = seg_image self (seg_of h).
Proof.
  unfold seg_shape. cbn. intros E [H1 H2 H3 H4 H5]. injection E as E1 E2 E3 E4. cbn in *. unfold seg_image. cbn. rewrite E1, E2, E3.
  repeat split; auto; try lia. rewrite E3, E4. exact H5.
Qed.

(** C37: The memory of a crashed program is read from its core dump as it was. Let a loaded
    segment overlap no other one, be in the file with as many bytes as its header says, and
    have some bytes there if it is executable (an executable one without any is read from the
    file of the program instead). Then any range that is within this segment and that the dump
    contains is read as the bytes of the dump, whatever files the link map names; and when the
    program is not known, any number of bytes from any address of the segment are read up to
    its end, with zeroes behind the part that the dump contains. A range that goes on in the
    next segment is not read whole ([adjacent_segments_throw]). *)
Theorem core_memory_image eh fuel prog c h k buf : phdrs_ok elf eh ->
  CoreFile self elf name open_file canonical_path is_regular cwd fuel prog empty_core = (Ok tt, c) ->
  In h (getphdr elf) -> loaded h = true -> seg_ok self (seg_of h) ->
  (forall h', In h' (getphdr elf) -> loaded h' = true -> apart h h') -> 0 <= k < p_memsz h ->
  let len := Z.of_nat (length buf) in 0 < len -> k + len < 2 ^ 64 ->
  (k + len <= p_filesz h ->
     core_readbuf self open_file c (p_vaddr h + k) buf = Ok (firstn (length buf) (skipn (Z.to_nat (p_offset h + k)) self))) /\
  (procname_ c = [] -> open_file [] = None ->
     let n := Z.min len (p_memsz h - k) in
     readbuf_ self open_file c (p_vaddr h + k) buf =
     Ok (n, firstn (Z.to_nat n) (skipn (Z.to_nat k) (seg_image self (seg_of h))) ++ skipn (Z.to_nat n) buf)).
Proof.
  intros Hp Hc Hin Hh Hok Ha Hk len Hlen Hw. destruct (core_segment eh fuel prog c h k Hp Hc Hin Hh Ha Hk) as (seg & Hf & Hsh & Hn).
  destruct (seg_ok_shape h seg Hsh Hok) as (Hseg & Ef & Em & Eo & Ei). split.
  - intros Hle. unfold core_readbuf. rewrite (read_file_part self open_file c _ _ seg buf Hf Hseg) by (fold len; lia).
    cbn [bind fst snd]. rewrite Z.eqb_refl. replace (p_vaddr h + k - p_vaddr h) with k by lia.
    rewrite <- (image_file self seg k (Z.of_nat (length buf)) Hseg), Eo, Nat2Z.id by (fold len; lia). reflexivity.
  - intros H1 H2. rewrite (Hn H1 H2) in *. cbv zeta.
    rewrite (read_image self open_file c _ _ (seg_of h) buf Hf Hok) by (auto; fold len; lia). cbv zeta. fold len.
    replace (p_vaddr h + k - p_vaddr h) with k by lia. cbn [msize seg_of]. rewrite Z.max_r by lia. reflexivity.
Qed.

(** The file that a segment is taken from. *)
Definition seg_file (c : core) (addr : Z) : bytes :=
  match find_segment (seg_ c) addr with
  | Some (_, seg) => match filename seg with [] => procname_ c | f => f end
  | None => []
  end.

(** C11: When the program is known, memory that is zero because the dump does not contain it is
    not read as zero: a range behind the part in the dump is read from the file of the
    program, at its offset in the segment; a range that begins in the dump and ends behind it
    cannot be read at all. *)
Theorem bss_of_known_program eh fuel prog c h k buf file felf : phdrs_ok elf eh ->
  CoreFile self elf name open_file canonical_path is_regular cwd fuel prog empty_core = (Ok tt, c) ->
  In h (getphdr elf) -> loaded h = true -> seg_ok self (seg_of h) ->
  (forall h', In h' (getphdr elf) -> loaded h' = true -> apart h h') -> 0 <= k ->
  let len := Z.of_nat (length buf) in 0 < len -> k + len <= p_memsz h ->
  seg_file c (p_vaddr h + k) <> [] -> open_file (seg_file c (p_vaddr h + k)) = Some (file, felf) ->
  k + len <= Z.of_nat (length file) -> Z.of_nat (length file) < 2 ^ 63 ->
  (p_filesz h <= k -> core_readbuf self open_file c (p_vaddr h + k) buf = Ok (firstn (length buf) (skipn (Z.to_nat k) file))) /\
  (k < p_filesz h < k + len -> core_readbuf self open_file c (p_vaddr h + k) buf = Fail Thrown).
Proof.
  intros Hp Hc Hin Hh Hok Ha Hk len Hlen Hm. destruct (core_segment eh fuel prog c h k Hp Hc Hin Hh Ha ltac:(lia)) as (seg & Hf & Hsh & _).
  destruct (seg_ok_shape h seg Hsh Hok) as (Hseg & Ef & Em & Eo & Ei). unfold seg_file. rewrite Hf. intros Hfn Hopen Hfile Hw.
  assert (p_vaddr h + k - p_vaddr h = k) as Ek by lia. split.
  - intros Hle. unfold core_readbuf.
    rewrite (read_bss_of_program self open_file c _ _ seg buf Hf Hseg ltac:(lia) _ file felf eq_refl Hfn Hopen) by (fold len; lia).
    cbn [bind fst snd]. rewrite Z.eqb_refl, Ek, Nat2Z.id. reflexivity.
  - intros Hlt. apply (read_across_fails self open_file c _ _ seg buf Hf Hseg ltac:(lia) _ file felf eq_refl Hfn Hopen); fold len; lia.
Qed.

End Constructor.

(** ** Notes *)

Section Notes.
Variables (name : bytes) (canonical_path : bytes -> bytes) (klass : Z).

(** Reading one note after the other. *)
Fixpoint for_notes (ns : list Note) : M unit :=
  match ns with [] => ret tt | n :: ns => read_note name canonical_path klass n ;;; for_notes ns end.

Definition notes_bytes (ns : list Note) : bytes := flat_map note_bytes ns.

Lemma note_bytes_length n : note_ok n -> NHDR_SIZE <= Z.of_nat (length (note_bytes n)).
Proof. intros _. unfold note_bytes. rewrite length_app, layout_length. cbn. unfold NHDR_SIZE. lia. Qed.

Lemma notes_bytes_length ns : Forall note_ok ns -> NHDR_SIZE * Z.of_nat (length ns) <= Z.of_nat (length (notes_bytes ns)).
Proof.
  induction 1 as [|n ns Hn _ IH]; [reflexivity|]. cbn [notes_bytes flat_map length]. rewrite length_app.
  pose proof (note_bytes_length n Hn). change (flat_map note_bytes ns) with (notes_bytes ns). lia.
Qed.

Lemma notes_loop_all fuel pre ns c : Forall note_ok ns -> (length ns < fuel)%nat ->
  notes_loop name canonical_path fuel klass (pre ++ notes_bytes ns) (Z.of_nat (length pre)) c = for_notes ns c.
Proof.
  intros Hns. revert fuel pre c. induction Hns as [|n ns Hn Hns IH]; intros fuel pre c Hf; (destruct fuel as [|fuel]; [lia|]); cbn [notes_loop].
  - cbn [notes_bytes flat_map]. rewrite app_nil_r, Z.sub_diag. reflexivity.
  - cbn [notes_bytes flat_map for_notes]. change (flat_map note_bytes ns) with (notes_bytes ns).
    pose proof (note_bytes_length n Hn) as Hl. pose proof (notes_bytes_length ns Hns) as Hl'.
    destruct (Z.ltb_spec (Z.of_nat (length (pre ++ note_bytes n ++ notes_bytes ns)) - Z.of_nat (length pre)) NHDR_SIZE) as [H|_].
    { rewrite !length_app in H. lia. }
    unfold andThen at 1, lift at 1. rewrite note_read by assumption. cbn [fst snd].
    unfold andThen at 1 2. destruct (read_note name canonical_path klass n c) as [[[]|f] c1]; [|reflexivity]. cbv zeta.
    rewrite (app_assoc pre). replace (Z.of_nat (length pre) + Z.of_nat (length (note_bytes n))) with (Z.of_nat (length (pre ++ note_bytes n)))
      by (rewrite length_app; lia).
    destruct (Z.leb_spec (Z.of_nat (length ((pre ++ note_bytes n) ++ notes_bytes ns))) (Z.of_nat (length (pre ++ note_bytes n)))) as [H|H].
    + rewrite (length_app (pre ++ note_bytes n)) in H. destruct ns; [reflexivity|]. unfold NHDR_SIZE in Hl'. cbn [length] in Hl'. lia.
    + apply IH. cbn in Hf. lia.
Qed.

(** The notes of a core dump are read as they were written, one after the other. *)
Lemma notes_read self h pre ns post c : Forall note_ok ns -> self = pre ++ notes_bytes ns ++ post ->
  p_offset h = Z.of_nat (length pre) -> p_filesz h = Z.of_nat (length (notes_bytes ns)) -> Z.of_nat (length self) < 2 ^ 63 ->
  read_notes self name canonical_path klass h c = for_notes ns c.
Proof.
  intros Hns -> Ho Hs Hw. unfold read_notes, andThen at 1, lift at 1. rewrite Ho, Hs. rewrite !length_app in Hw.
  rewrite readbuf_all by (rewrite ?length_app; lia). rewrite !Nat2Z.id, skipn_app, skipn_all, Nat.sub_diag. cbn [app].
  rewrite skipn_O, firstn_app, firstn_all, Nat.sub_diag, firstn_O, app_nil_r.
  rewrite put_all by (now rewrite repeat_length). pose proof (notes_bytes_length ns Hns) as Hl. unfold NHDR_SIZE in Hl.
  apply (notes_loop_all _ [] ns c Hns). lia.
Qed.

(** ** Auxiliary vectors *)

Definition aux_layout (e : Z * Z) : list (nat * Z) :=
  let w := aux_word klass in [(w, fst e mod 256 ^ Z.of_nat w); (w, snd e mod 256 ^ Z.of_nat w)].
Definition aux_bytes (l : list (Z * Z)) : bytes := flat_map (fun e => layout (aux_layout e)) l.

(** A number as a vector of the class can hold it. *)
Definition aux_range (v : Z) : Prop := if klass =? ELFCLASS32 then 0 <= v < 2 ^ 32 else - 2 ^ 63 <= v < 2 ^ 63.

Lemma read_as_value pre l post k v at_ : nth_error l k = Some (aux_word klass, v mod 256 ^ Z.of_nat (aux_word klass)) -> aux_range v ->
  at_ = Z.of_nat (length pre) + Z.of_nat (layout_size (firstn k l)) ->
  read_as klass (pre ++ layout l ++ post) at_ = Ok v.
Proof.
  intros Hk Hv Ha. unfold read_as. rewrite (field_layout pre l post k _ _ at_ Hk Ha) by (apply Z.mod_pos_bound; lia). cbn [bind]. f_equal.
  unfold aux_range, aux_word in *. destruct (klass =? ELFCLASS32).
  - apply Z.mod_small. exact Hv.
  - rewrite <- le_val_le. now apply signed64_le.
Qed.

Lemma aux_elem pre e post : aux_range (fst e) -> aux_range (snd e) -> fst e <> 0 ->
  read_aux_vect_elem klass (pre ++ layout (aux_layout e) ++ post) (Z.of_nat (length pre)) =
  Ok (Z.of_nat (length (pre ++ layout (aux_layout e))), fst e, snd e).
Proof.
  intros H1 H2 Hne. unfold read_aux_vect_elem.
  rewrite (read_as_value pre (aux_layout e) post 0 (fst e)) by (auto; cbn; lia). cbn [bind].
  destruct (Z.eqb_spec (fst e) 0); [easy|].
  match goal with |- context [?i <? ?n] => destruct (Z.ltb_spec i n) as [_|H] end.
  2:{ rewrite !length_app, layout_length in H. cbn in H. unfold aux_word in H. destruct (klass =? ELFCLASS32); lia. }
  rewrite (read_as_value pre (aux_layout e) post 1 (snd e)) by (auto; cbn; lia). cbn [bind].
  do 3 f_equal. rewrite length_app, layout_length. cbn. lia.
Qed.

(** An auxiliary vector is read up to its end, of which the type is zero. *)
Lemma auxv_read fuel pre l post c : Forall (fun e => aux_range (fst e) /\ aux_range (snd e) /\ fst e <> 0) l -> (S (length l) < fuel)%nat ->
  auxv_loop fuel klass (pre ++ aux_bytes l ++ layout (aux_layout (0, 0)) ++ post) (Z.of_nat (length pre)) c =
  (Ok tt, with_auxv (auxv_ c ++ l ++ [(0, 0)]) c).
Proof.
  assert (0 < Z.of_nat (aux_word klass)) as Hw by (unfold aux_word; destruct (klass =? ELFCLASS32); lia).
  assert (aux_range 0) as H0 by (unfold aux_range; destruct (klass =? ELFCLASS32); lia).
  intros Hl. revert fuel pre c. induction Hl as [|e l (H1 & H2 & Hne) Hl IH]; intros fuel pre c Hf; (destruct fuel as [|fuel]; [lia|]); cbn [auxv_loop].
  - cbn [aux_bytes flat_map app]. match goal with |- context [?i <? ?n] => destruct (Z.ltb_spec i n) as [_|H] end.
    2:{ rewrite !length_app, layout_length in H. cbn in H. lia. }
    unfold andThen at 1, lift at 1, read_aux_vect_elem.
    rewrite (read_as_value pre (aux_layout (0, 0)) post 0 0) by (auto; cbn; lia). cbn [bind]. rewrite Z.eqb_refl.
    unfold andThen, change. destruct fuel as [|fuel]; [cbn in Hf; lia|]. cbn [auxv_loop].
    match goal with |- context [?i <? ?i] => destruct (Z.ltb_spec i i); [lia|] end. reflexivity.
  - cbn [aux_bytes flat_map]. change (flat_map _ l) with (aux_bytes l). rewrite <- app_assoc.
    match goal with |- context [?i <? ?n] => destruct (Z.ltb_spec i n) as [_|H] end.
    2:{ rewrite !length_app, layout_length in H. cbn in H. lia. }
    unfold andThen at 1, lift at 1. rewrite aux_elem by assumption. unfold andThen, change.
    rewrite (app_assoc pre), IH by (cbn in Hf; lia). unfold with_auxv. cbn. rewrite <- app_assoc. destruct e. reflexivity.
Qed.

(** ** Threads *)

Definition find_status (c : core) (pid : Z) : option bytes :=
  match List.find (fun e => fst e =? pid) (prstatus_ c) with Some e => Some (snd e) | None => None end.

(** What a note says of a thread. *)
Definition status_of (n : Note) (pid : Z) : option bytes :=
  if n_type n =? NT_PRSTATUS then
    match field (n_desc n) (pr_pid_at klass) 4, slice (n_desc n) 0 (prstatus_size klass) with
    | Ok p, Ok ps => if p =? pid then Some ps else None
    | _, _ => None
    end
  else None.

Definition newest (a b : option bytes) : option bytes := match b with Some _ => b | None => a end.

Lemma find_filter_ne {V} (l : list (Z * V)) p pid : p <> pid ->
  List.find (fun e => fst e =? pid) (filter (fun e => negb (fst e =? p)) l) = List.find (fun e => fst e =? pid) l.
Proof.
  intros Hne. induction l as [|[q v] l IH]; cbn; [reflexivity|]. destruct (Z.eqb_spec q p); cbn.
  - destruct (Z.eqb_spec q pid); [congruence | exact IH].
  - now rewrite IH.
Qed.

Lemma read_note_status n pid c c' : read_note name canonical_path klass n c = (Ok tt, c') ->
  find_status c' pid = newest (find_status c pid) (status_of n pid).
Proof.
  unfold status_of. destruct (Z.eqb_spec (n_type n) NT_PRSTATUS) as [En|En].
  - unfold read_note. rewrite En, Z.eqb_refl. unfold read_prstatus, andThen, lift, change. destruct (field _ _ 4) as [p|]; [|discriminate].
    destruct (slice (n_desc n) 0 (prstatus_size klass)) as [ps|]; [|discriminate]. intros E. injection E as <-.
    unfold find_status. cbn [with_prstatus prstatus_ List.find fst]. destruct (Z.eqb_spec p pid) as [->|Hne]; [reflexivity|].
    rewrite find_filter_ne by assumption. now destruct (List.find _ (prstatus_ c)).
  - intros E. pose proof (other_note_leaves name canonical_path prstatus_ (fun _ _ _ => eq_refl) (fun _ _ => eq_refl) (fun _ _ => eq_refl)
      (fun _ _ => eq_refl) klass n En c I) as K. rewrite E in K. cbn [snd] in K. unfold find_status. now rewrite K.
Qed.

Lemma for_notes_status ns pid c c' : for_notes ns c = (Ok tt, c') ->
  find_status c' pid = fold_left newest (map (fun n => status_of n pid) ns) (find_status c pid).
Proof.
  revert c. induction ns as [|n ns IH]; intros c E; cbn [for_notes map fold_left] in *; [now injection E as <-|].
  unfold andThen in E. destruct (read_note name canonical_path klass n c) as [[[]|f] c1] eqn:E1; [|discriminate].
  rewrite <- (read_note_status n pid c c1 E1). now apply IH.
Qed.

(** The threads of the crashed program: when a dump is read whose notes were written one behind
    the other, the status of a thread is the last one that they contain, whatever other notes
    are between them, and no other thread is found. *)
Theorem core_threads_found self h pre ns post pid c c' : Forall note_ok ns -> self = pre ++ notes_bytes ns ++ post ->
  p_offset h = Z.of_nat (length pre) -> p_filesz h = Z.of_nat (length (notes_bytes ns)) -> Z.of_nat (length self) < 2 ^ 63 ->
  read_notes self name canonical_path klass h c = (Ok tt, c') ->
  find_status c' pid = fold_left newest (map (fun n => status_of n pid) ns) (find_status c pid).
Proof. intros Hns Hs Ho Hf Hw E. rewrite (notes_read self h pre ns post c Hns Hs Ho Hf Hw) in E. now apply for_notes_status. Qed.

End Notes.

(** ** A small dump *)

(** Eight bytes of a segment of twelve, and a note of thread 7. *)
Definition sample_status : bytes := repeat NUL 32 ++ little 4 7 ++ repeat NUL 300.
Definition sample_notes : list Note := [mk_note NT_PRSTATUS (B "CORE") sample_status; mk_note NT_AUXV (B "CORE") (little 8 6 ++ little 8 4096 ++ little 8 0)].
Definition sample_file : bytes := B "....01234567" ++ notes_bytes sample_notes.
Definition sample_load : Phdr := mk_phdr PT_LOAD 6 4 4096 0 8 12 1.
Definition sample_note_hdr : Phdr := mk_phdr PT_NOTE 0 12 0 0 (Z.of_nat (length (notes_bytes sample_notes))) 0 1.
Definition sample_ehdr (t n : Z) : Ehdr := mk_ehdr t 62 1 0 0 0 0 64 56 n 64 0 0.
Definition sample_elf (t : Z) (l : list Phdr) : Elf :=
  Elf.mk_elf (Some (ELFMAG ++ map char_of_int [2; 1; 1; 0; 0])) (Some (sample_ehdr t (Z.of_nat (length l)))) l [] (fun _ _ => None).
Definition sample_core : Elf := sample_elf ET_CORE [sample_load; sample_note_hdr].
Definition no_files (f : bytes) : option (bytes * Elf) := None.
Definition sample_prog (f : bytes) : option (bytes * Elf) :=
  if list_eq_dec ascii_dec f (B "/prog") then Some (B "this is the program", sample_elf 2 [sample_load]) else None.
Definition load_sample (files : bytes -> option (bytes * Elf)) (prog : bytes) : res unit * core :=
  CoreFile sample_file sample_core (B "core") files id (fun _ => true) (B "/") 10 prog empty_core.

Lemma sample_phdrs_ok : phdrs_ok sample_core (sample_ehdr ET_CORE 2).
Proof. split; [vm_compute; reflexivity | discriminate | reflexivity]. Qed.

Lemma sample_seg_ok : seg_ok sample_file (seg_of sample_load).
Proof. split; try (vm_compute; intuition congruence). Qed.

Lemma sample_apart h : In h (getphdr sample_core) -> loaded h = true -> apart sample_load h.
Proof. intros [<-|[<-|[]]] Hl; [now left | discriminate Hl]. Qed.

(** The witness of [core_memory_image]: four bytes of the dump; and eight bytes of which two
    are in the dump, four are zero and two are behind the segment. *)
Lemma core_memory_image_witness :
  core_readbuf sample_file no_files (snd (load_sample no_files [])) 4098 (B "####") = Ok (B "2345") /\
  readbuf_ sample_file no_files (snd (load_sample no_files [])) 4102 (B "########") = Ok (6, B "67" ++ repeat NUL 4 ++ B "##").
Proof.
  assert (load_sample no_files [] = (Ok tt, snd (load_sample no_files []))) as E by (vm_compute; reflexivity).
  split.
  - destruct (core_memory_image sample_file sample_core (B "core") no_files id (fun _ => true) (B "/") (sample_ehdr ET_CORE 2) 10 []
      (snd (load_sample no_files [])) sample_load 2 (B "####") sample_phdrs_ok E (or_introl eq_refl) eq_refl sample_seg_ok sample_apart)
      as [H _]; [cbn; lia | cbn; lia | cbn; lia |]. apply H. cbn. lia.
  - destruct (core_memory_image sample_file sample_core (B "core") no_files id (fun _ => true) (B "/") (sample_ehdr ET_CORE 2) 10 []
      (snd (load_sample no_files [])) sample_load 6 (B "########") sample_phdrs_ok E (or_introl eq_refl) eq_refl sample_seg_ok sample_apart)
      as [_ H]; [cbn; lia | cbn; lia | cbn; lia |]. apply H; [vm_compute; reflexivity | reflexivity].
Defined.

(** Two segments of four bytes, one behind the other: each of them is read, the range of eight
    bytes is not. *)
Example adjacent_segments_throw :
  let c := snd (CoreFile sample_file (sample_elf ET_CORE [mk_phdr PT_LOAD 6 4 4096 0 4 4 1; mk_phdr PT_LOAD 6 8 4100 0 4 4 1])
    (B "core") no_files id (fun _ => true) (B "/") 10 [] empty_core) in
  core_readbuf sample_file no_files c 4096 (B "####") = Ok (B "0123") /\
  core_readbuf sample_file no_files c 4100 (B "####") = Ok (B "4567") /\
  core_readbuf sample_file no_files c 4096 (B "########") = Fail Thrown.
Proof. vm_compute. auto. Qed.

(** The witness of [bss_of_known_program]: two bytes that were zero are read from the program,
    and four bytes of which two are in the dump are not read. *)
Lemma bss_of_known_program_witness :
  core_readbuf sample_file sample_prog (snd (load_sample sample_prog (B "/prog"))) 4104 (B "##") = Ok (B "th") /\
  core_readbuf sample_file sample_prog (snd (load_sample sample_prog (B "/prog"))) 4102 (B "####") = Fail Thrown.
Proof.
  assert (load_sample sample_prog (B "/prog") = (Ok tt, snd (load_sample sample_prog (B "/prog")))) as E by (vm_compute; reflexivity).
  split.
  - destruct (bss_of_known_program sample_file sample_core (B "core") sample_prog id (fun _ => true) (B "/") (sample_ehdr ET_CORE 2) 10 (B "/prog")
      (snd (load_sample sample_prog (B "/prog"))) sample_load 8 (B "##") (B "this is the program") (sample_elf 2 [sample_load])
      sample_phdrs_ok E (or_introl eq_refl) eq_refl sample_seg_ok sample_apart) as [H _];
      [cbn; lia | cbn; lia | cbn; lia | vm_compute; discriminate | vm_compute; reflexivity | cbn; lia | cbn; lia |].
    apply H. cbn. lia.
  - destruct (bss_of_known_program sample_file sample_core (B "core") sample_prog id (fun _ => true) (B "/") (sample_ehdr ET_CORE 2) 10 (B "/prog")
      (snd (load_sample sample_prog (B "/prog"))) sample_load 6 (B "####") (B "this is the program") (sample_elf 2 [sample_load])
      sample_phdrs_ok E (or_introl eq_refl) eq_refl sample_seg_ok sample_apart) as [_ H];
      [cbn; lia | cbn; lia | cbn; lia | vm_compute; discriminate | vm_compute; reflexivity | cbn; lia | cbn; lia |].
    apply H. cbn. lia.
Defined.

(** The witness of [core_threads_found]. *)
Lemma core_threads_found_witness : exists c,
  read_notes sample_file (B "core") id ELFCLASS64 sample_note_hdr empty_core = (Ok tt, c) /\
  find_status c 7 = Some sample_status /\ find_status c 8 = None.
Proof.
  exists (snd (read_notes sample_file (B "core") id ELFCLASS64 sample_note_hdr empty_core)).
  assert (read_notes sample_file (B "core") id ELFCLASS64 sample_note_hdr empty_core =
    (Ok tt, snd (read_notes sample_file (B "core") id ELFCLASS64 sample_note_hdr empty_core))) as E by (vm_compute; reflexivity).
  assert (Forall note_ok sample_notes) as Hn by (repeat constructor; vm_compute; congruence).
  split; [exact E|]. split.
  - rewrite (core_threads_found (B "core") id ELFCLASS64 sample_file sample_note_hdr (B "....01234567") sample_notes [] 7 empty_core _
      Hn ltac:(now rewrite app_nil_r) eq_refl eq_refl ltac:(vm_compute; reflexivity) E). vm_compute. reflexivity.
  - rewrite (core_threads_found (B "core") id ELFCLASS64 sample_file sample_note_hdr (B "....01234567") sample_notes [] 8 empty_core _
      Hn ltac:(now rewrite app_nil_r) eq_refl eq_refl ltac:(vm_compute; reflexivity) E). vm_compute. reflexivity.
Defined.
