(* ===== verification/DynLib.v ===== *)
(** * The libraries that a program needs ([elfz/dyn_lib_list.cpp], [elfz/ldsoconf.cpp])

    The list of all libraries that an executable depends on, directly or through others, as
    the dynamic linker would find them: in the directories that the file itself names, in
    those of [LD_LIBRARY_PATH], and in those of the system. *)
From S2P Require Import Prelude CLib Stream StepOver Elf Environ.
Local Open Scope Z_scope.

Definition bytes_eqb (a b : bytes) : bool := if list_eq_dec ascii_dec a b then true else false.
Definition mem (s : bytes) (l : list bytes) : bool := existsb (bytes_eqb s) l.

(** ** [ld.so.conf] *)

Section Conf.
(** Files by their names, [glob] (with [GLOB_NOMAGIC]), and [realpath]. *)
Variables (read_text : bytes -> option bytes) (glob : bytes -> option (list bytes)) (canonical_path : bytes -> bytes).

(** The directories so far, and the files that were read. *)
Definition conf : Type := list bytes * list bytes.

Definition conf_delim (c : ascii) : bool :=
  (c =c ":") || (c =c " ") || (code c =? 9) || (code c =? 10) || (c =c ",").

(** [f.getline(&line[0], 4095)]: the line, the rest, and whether the stream is good for more.
    A line that does not fit ends the loop, as the end of the file does. *)
Definition LINE_MAX : nat := Z.to_nat 4094.
Definition getline (f : bytes) : bytes * bytes * bool :=
  let '(line, rest) := span (fun c => negb (code c =? 10)) f in
  if (LINE_MAX <? length line)%nat then (firstn LINE_MAX line, [], false)
  else match rest with
       | _ :: rest => (line, rest, true)
       | [] => match line with [] => ([], [], false) | _ => (line, [], true) end
       end.

Section Parse.
(** The parser of the files that are included. *)
Variable include : bytes -> conf -> res conf.

Fixpoint include_all (files : list bytes) (st : conf) : res conf :=
  match files with
  | [] => Ok st
  | f :: files => let* st := include f st in include_all files st
  end.

(** The patterns behind [include]; those that are not absolute are relative to the file. *)
Fixpoint include_patterns (filename : bytes) (toks : list bytes) (st : conf) : res conf :=
  match toks with
  | [] => Ok st
  | t :: toks =>
      let pattern := if absolute t then t else dirname filename ++ B "/" ++ t in
      let* st := match glob pattern with Some files => include_all files st | None => Ok st end in
      include_patterns filename toks st
  end.

(** The words of a line. *)
Fixpoint parse_words (filename : bytes) (toks : list bytes) (st : conf) : res conf :=
  match toks with
  | [] => Ok st
  | t :: toks =>
      if match t with c :: _ => c =c "#" | [] => false end then Ok st
      else if bytes_eqb t (B "include") then include_patterns filename toks st
      else parse_words filename toks (fst st ++ [t], snd st)
  end.

Definition parse_line (filename line : bytes) (st : conf) : res conf :=
  parse_words filename (split_at conf_delim (cstr_of line) []) st.

Fixpoint parse_lines (fuel : nat) (filename f : bytes) (st : conf) : res conf :=
  match fuel with
  | O => Fail OutOfFuel
  | S fuel =>
      let '(line, rest, good) := getline f in
      let* st := parse_line filename line st in
      if good then parse_lines fuel filename rest st else Ok st
  end.
End Parse.

(** [_ldsoconf_parse]. *)
Fixpoint ldsoconf (fuel : nat) (filename : bytes) (st : conf) : res conf :=
  match fuel with
  | O => Fail OutOfFuel
  | S fuel =>
      let canon := canonical_path filename in
      if mem canon (snd st) then Ok st
      else
        let st := (fst st, canon :: snd st) in
        match read_text filename with
        | None => Ok st
        | Some f => parse_lines (ldsoconf fuel) (S (S (length f))) filename f st
        end
  end.

Definition ldsoconf_parse (fuel : nat) (filename : bytes) (dirs : list bytes) : res (list bytes) :=
  let* st := ldsoconf fuel filename (dirs, []) in Ok (fst st).

End Conf.

(** ** [DynLibList] *)

(** [libs_] is a set: the order in which libraries were found. *)
Record dyn_libs : Type := mk_libs { libs_ : list bytes; libraryPath_ : bytes; paths_ : list bytes }.

Definition default_libs : list bytes :=
  [B "/lib"; B "/usr/lib"; B "/lib64"; B "/usr/lib64"; B "/lib32"; B "/usr/lib32"; B "/lib/i686"].

(** ** What a file needs *)

(** An entry of the dynamic section: the names of libraries, and the search path of the file. *)
Definition needed_entry (elf : Elf) (link : Z) (dyn : Z * Z) (acc : list bytes * bytes) : res (list bytes * bytes) :=
  let '(libs, rpath) := acc in
  let offs := snd dyn mod 2 ^ 32 in
  if fst dyn =? DT_NEEDED then
    match strptr elf link offs with Some lib => Ok (libs ++ [lib], rpath) | None => Fail NullDeref end
  else if (fst dyn =? DT_RPATH) || (fst dyn =? DT_RUNPATH) then
    match strptr elf link offs with
    | Some p => Ok (libs, match rpath with [] => p | _ => rpath ++ B ":" ++ p end)
    | None => Fail NullDeref
    end
  else Ok acc.

(** The entries are read as those of the word size of the debugger, whatever the class of the
    file is. *)
Definition needed (elf : Elf) : res (list bytes * bytes) :=
  sections elf (fun s acc =>
    if sh_type (hdr_ s) =? SHT_DYNAMIC then
      let* d := section_data elf s in
      let* r := dynamic ELFCLASS64 d (fun _ dyn r => inl (let* acc := r in needed_entry elf (sh_link (hdr_ s)) dyn acc)) (Ok acc) in
      let* acc := r in
      Ok (inl acc)
    else Ok (inl acc)) ([], []).

Section Libs.
(** The ELF file at a path, [stat], [realpath]; the executable and its environment; whether
    threads are native; the directories that [ld.so.conf] adds; and the [PathMapper]. *)
Variables (open_elf : bytes -> option Elf) (stat_ok : bytes -> bool) (canonical_path : bytes -> bytes).
Variables (elf_ : Elf) (environ_ : list bytes) (uses_nptl : bool) (conf_dirs : list bytes -> list bytes) (map_path : bytes -> bytes).

(** Same ABI, class and machine as the executable. *)
Definition is_valid_elf_file (path : bytes) : bool :=
  stat_ok path &&
  match open_elf path with
  | Some b =>
      check_format b && (abi b =? abi elf_) &&
      match ElfHdr b, ElfHdr elf_, Selector b, Selector elf_ with
      | Ok h, Ok h', Ok k, Ok k' => (k =? k') && (e_machine h =? e_machine h')
      | _, _, _, _ => false
      end
  | None => false
  end.

(** [get_library_path]: the comparison leaves the equals sign out, so that the text of a
    variable without one is read behind its end. *)
Definition find_library_path : res bytes :=
  match List.find (fun e => strncmp_at (B "LD_LIBRARY_PATH=") e 15) environ_ with
  | Some e => if (length e <? 16)%nat then Fail OutOfBounds else Ok (skipn 16 e)
  | None => Ok []
  end.

Definition get_library_path (d : dyn_libs) : res dyn_libs :=
  match libraryPath_ d with
  | [] => let* path := find_library_path in Ok (mk_libs (libs_ d) path (paths_ d))
  | _ => Ok d
  end.

Definition search_paths : list bytes :=
  map map_path (conf_dirs ((if uses_nptl then [B "/lib/tls"; B "/lib64/tls"] else []) ++ default_libs)).

Definition get_dl_search_paths (d : dyn_libs) : dyn_libs :=
  match paths_ d with [] => mk_libs (libs_ d) (libraryPath_ d) search_paths | _ => d end.

(** Where a library would be in a directory. *)
Definition lib_in (dir name : bytes) : bytes :=
  canonical_path (if absolute name then name else append_delimiter dir ++ name).

Section Collect.
(** [collect_needed(filename)]. *)
Variable collect_file : bytes -> dyn_libs -> res dyn_libs.

Fixpoint try_paths (paths : list bytes) (name : bytes) (d : dyn_libs) : res (bool * dyn_libs) :=
  match paths with
  | [] => Ok (false, d)
  | dir :: paths =>
      let libpath := lib_in dir name in
      if is_valid_elf_file libpath then
        if mem libpath (libs_ d) then Ok (true, d)
        else
          let* d := collect_file libpath (mk_libs (libs_ d ++ [libpath]) (libraryPath_ d) (paths_ d)) in
          Ok (true, d)
      else try_paths paths name d
  end.

(** The libraries that are not found yet. *)
Fixpoint collect_in (paths libs : list bytes) (d : dyn_libs) : res (list bytes * dyn_libs) :=
  match libs with
  | [] => Ok ([], d)
  | lib :: libs =>
      if mem lib (libs_ d) then collect_in paths libs d
      else
        let* r := try_paths paths lib d in
        let* r' := collect_in paths libs (snd r) in
        Ok (if fst r then fst r' else lib :: fst r', snd r')
  end.

Definition collect_pathlist (pathlist : bytes) (libs : list bytes) (d : dyn_libs) : res (list bytes * dyn_libs) :=
  match pathlist with [] => Ok (libs, d) | _ => collect_in (tokenize pathlist) libs d end.

Definition collect_elf (elf : Elf) (d : dyn_libs) : res dyn_libs :=
  let* d := get_library_path d in
  let* n := needed elf in
  let* r := collect_pathlist (snd n) (fst n) d in
  let* r := collect_pathlist (libraryPath_ (snd r)) (fst r) (snd r) in
  let d := get_dl_search_paths (snd r) in
  let* r := collect_in (paths_ d) (fst r) d in
  Ok (snd r).
End Collect.

Fixpoint collect_needed (fuel : nat) (filename : bytes) (d : dyn_libs) : res dyn_libs :=
  match fuel with
  | O => Fail OutOfFuel
  | S fuel =>
      match open_elf filename with
      | None => Fail Thrown
      | Some b => let* _ := ElfHdr b in collect_elf (collect_needed fuel) b d
      end
  end.

(** [DynLibList(filename)], whose file is open. *)
Definition DynLibList (fuel : nat) : res dyn_libs :=
  let* _ := ElfHdr elf_ in collect_elf (collect_needed fuel) elf_ (mk_libs [] [] []).

End Libs.
