(* ===== verification/DynLibCorrect.v ===== *)
(** * The list of libraries is complete

    The search for the libraries of a program ends on every file system with finitely many
    files, finds all libraries that the linker would find for the program and for the libraries
    themselves, and no others. *)
From stdpp Require Import base list.
From S2P Require Import Prelude CLib Stream StepOver Elf ElfCorrect Environ DynLib.
Local Open Scope nat_scope.

Lemma bytes_eqb_spec a b : bytes_eqb a b = true <-> a = b.
Proof. unfold bytes_eqb. destruct (list_eq_dec ascii_dec a b); split; congruence. Qed.

Lemma mem_spec s l : mem s l = true <-> In s l.
Proof.
  unfold mem. rewrite existsb_exists. split; [intros (x & Hx & E%bytes_eqb_spec); now subst|].
  intros H. exists s. split; [assumption | now apply bytes_eqb_spec].
Qed.

Lemma filter_le {A} (f g : A -> bool) l : (forall x, f x = true -> g x = true) -> length (List.filter f l) <= length (List.filter g l).
Proof.
  intros H. induction l as [|x l IH]; cbn; [lia|]. destruct (f x) eqn:E; [rewrite (H x E); cbn; lia|]. destruct (g x); cbn; lia.
Qed.

Lemma filter_lt {A} (f g : A -> bool) l x : (forall x, f x = true -> g x = true) -> In x l -> f x = false -> g x = true ->
  length (List.filter f l) < length (List.filter g l).
Proof.
  intros H Hin Hf Hg. induction l as [|y l IH]; cbn; [easy|]. destruct Hin as [->|Hin].
  - rewrite Hf, Hg. cbn. pose proof (filter_le f g l H). lia.
  - specialize (IH Hin). destruct (f y) eqn:E; [rewrite (H y E); cbn; lia|]. destruct (g y); cbn; lia.
Qed.

Section Complete.
Variables (open_elf : bytes -> option Elf) (stat_ok : bytes -> bool) (canonical_path : bytes -> bytes).
Variables (elf_ : Elf) (environ_ : list bytes) (uses_nptl : bool) (conf_dirs : list bytes -> list bytes) (map_path : bytes -> bytes).

Abbreviation valid := (is_valid_elf_file open_elf stat_ok elf_).
Abbreviation lib_in := (lib_in canonical_path).
Abbreviation SP := (search_paths uses_nptl conf_dirs map_path).

(** The text of [LD_LIBRARY_PATH]; the files are finitely many, and the dynamic sections of the
    libraries can be read. *)
Variable LP : bytes.
Hypothesis library_path : find_library_path environ_ = Ok LP.
Variable files : list bytes.
Hypothesis finite : forall p, valid p = true -> In p files.
Hypothesis readable : forall p e, valid p = true -> open_elf p = Some e -> exists n, needed e = Ok n.

(** ** What is to be found *)

(** The directories in which the libraries of a file are searched, in order. *)
Definition dirs_of (n : list bytes * bytes) : list bytes := tokenize (snd n) ++ tokenize LP ++ SP.

(** The directory in which a library is found. *)
Definition where_ (dirs : list bytes) (name : bytes) : option bytes := List.find (fun dir => valid (lib_in dir name)) dirs.

(** All libraries that a file needs, and that are somewhere, are in the list. *)
Definition settled (L : list bytes) (n : list bytes * bytes) : Prop :=
  forall name, In name (fst n) ->
    In name L \/ match where_ (dirs_of n) name with Some dir => In (lib_in dir name) L | None => True end.

(** What the executable needs, and what the libraries need that are found for it. *)
Inductive reached : bytes -> Prop :=
| reached_exe n name dir : needed elf_ = Ok n -> In name (fst n) -> where_ (dirs_of n) name = Some dir -> reached (lib_in dir name)
| reached_lib p e n name dir : reached p -> open_elf p = Some e -> needed e = Ok n -> In name (fst n) ->
    where_ (dirs_of n) name = Some dir -> reached (lib_in dir name).

(** A file whose libraries are looked for. *)
Definition user (n : list bytes * bytes) : Prop :=
  needed elf_ = Ok n \/ exists p e, reached p /\ open_elf p = Some e /\ needed e = Ok n.

Lemma user_reached n name dir : user n -> In name (fst n) -> where_ (dirs_of n) name = Some dir -> reached (lib_in dir name).
Proof. intros [E|(p & e & Hp & He & E)]; [now apply reached_exe | now apply (reached_lib p e)]. Qed.

Lemma settled_mono L L' n : incl L L' -> settled L n -> settled L' n.
Proof.
  intros H Hs name Hn. destruct (Hs name Hn) as [Hl|Hw]; [left; now apply H|]. right. destruct (where_ _ name); [now apply H | exact I].
Qed.

(** ** The state *)

(** What the cached paths may be, and that nothing is in the list without a reason. *)
Record good (d : dyn_libs) : Prop := {
  g_lib : libraryPath_ d = [] \/ libraryPath_ d = LP;
  g_paths : paths_ d = [] \/ paths_ d = SP;
  g_sound : forall q, In q (libs_ d) -> valid q = true /\ reached q
}.

Definition closed (d : dyn_libs) (p : bytes) : Prop := exists e n, open_elf p = Some e /\ needed e = Ok n /\ settled (libs_ d) n.

(** From [d] to [d']: the list grows, and what is new is complete. *)
Record grows (d d' : dyn_libs) : Prop := {
  gr_incl : incl (libs_ d) (libs_ d');
  gr_lib : libraryPath_ d = LP -> libraryPath_ d' = LP;
  gr_closed : forall q, In q (libs_ d') -> In q (libs_ d) \/ closed d' q
}.

Lemma closed_mono d d' p : incl (libs_ d) (libs_ d') -> closed d p -> closed d' p.
Proof. intros H (e & n & He & Hn & Hs). exists e, n. repeat split; auto. now apply (settled_mono (libs_ d)). Qed.

Lemma grows_refl d : grows d d.
Proof. split; [apply incl_refl | auto | auto]. Qed.

Lemma grows_trans a b c : grows a b -> grows b c -> grows a c.
Proof.
  intros [H1 H2 H3] [K1 K2 K3]. split; [eapply incl_tran; eauto | auto |]. intros q Hq. destruct (K3 q Hq) as [Hb|]; [|auto].
  destruct (H3 q Hb) as [|Hc]; [auto|]. right. now apply (closed_mono b c).
Qed.

(** How many files are not in the list. *)
Definition missing (d : dyn_libs) : nat := length (List.filter (fun p => negb (mem p (libs_ d))) files).

Lemma missing_le d d' : incl (libs_ d) (libs_ d') -> missing d' <= missing d.
Proof.
  intros H. apply filter_le. intros x Hx. apply negb_true_iff in Hx. apply negb_true_iff. destruct (mem x (libs_ d)) eqn:E; [|reflexivity].
  apply mem_spec, H, mem_spec in E. congruence.
Qed.

(** ** The search *)

Section Search.
Variables (fuel : nat) (rec : bytes -> dyn_libs -> res dyn_libs).

(** What the recursive call does when the bound is enough. *)
Hypothesis rec_ok : forall p d, valid p = true -> In p (libs_ d) -> good d -> missing d < fuel ->
  exists d', rec p d = Ok d' /\ grows d d' /\ good d' /\ closed d' p.

Variable n : list bytes * bytes.

Abbreviation try_paths := (try_paths open_elf stat_ok canonical_path elf_ rec).
Abbreviation collect_in := (collect_in open_elf stat_ok canonical_path elf_ rec).

(** A library that is found for a file of the list, and was not in it. *)
Lemma insert_ok d name dir : good d -> user n -> In name (fst n) -> where_ (dirs_of n) name = Some dir ->
  valid (lib_in dir name) = true ->
  mem (lib_in dir name) (libs_ d) = false -> missing d <= fuel ->
  let d1 := mk_libs (libs_ d ++ [lib_in dir name]) (libraryPath_ d) (paths_ d) in
  good d1 /\ missing d1 < fuel.
Proof.
  intros [G1 G2 G3] Hu Hn Hd Hv Hm Hf d1. assert (incl (libs_ d) (libs_ d1)) as Hi by (intros x Hx; cbn; apply in_or_app; now left). split.
  - split; [exact G1 | exact G2 |]. cbn. intros q [Hq|[<-|[]]]%in_app_or.
    + now apply G3.
    + split; [exact Hv | now apply (user_reached n)].
  - apply Nat.lt_le_trans with (missing d); [|assumption]. apply filter_lt with (lib_in dir name).
    + intros x Hx. apply negb_true_iff in Hx. apply negb_true_iff. destruct (mem x (libs_ d)) eqn:E; [|reflexivity].
      apply mem_spec, Hi, mem_spec in E. congruence.
    + now apply finite.
    + apply negb_false_iff, mem_spec. cbn. apply in_or_app. right. now left.
    + now rewrite Hm.
Qed.

(** A part of the directories: where a library is found in it is where it is found. *)
Definition part (paths : list bytes) (name : bytes) : Prop :=
  forall dir, where_ paths name = Some dir -> where_ (dirs_of n) name = Some dir.

Lemma try_paths_spec paths name d : good d -> user n -> In name (fst n) -> part paths name -> missing d <= fuel ->
  exists b d', try_paths paths name d = Ok (b, d') /\ grows d d' /\ good d' /\
    match where_ paths name with Some dir => b = true /\ In (lib_in dir name) (libs_ d') | None => b = false end.
Proof.
  intros Hg Hu Hn Hp Hf. unfold part in Hp. induction paths as [|dir paths IH]; cbn [DynLib.try_paths where_ List.find] in *.
  - exists false, d. split; [reflexivity|]. split; [apply grows_refl|]. now split.
  - destruct (valid (lib_in dir name)) eqn:Ev; [|now apply IH].
    destruct (mem (lib_in dir name) (libs_ d)) eqn:Em.
    + exists true, d. split; [reflexivity|]. split; [apply grows_refl|]. split; [exact Hg|]. split; [reflexivity | now apply mem_spec].
    + destruct (insert_ok d name dir Hg Hu Hn (Hp dir eq_refl) Ev Em Hf) as [Hg1 Hf1].
      set (d1 := mk_libs (libs_ d ++ [lib_in dir name]) (libraryPath_ d) (paths_ d)) in *.
      assert (In (lib_in dir name) (libs_ d1)) as Hin by (cbn; apply in_or_app; right; now left).
      destruct (rec_ok (lib_in dir name) d1 Ev Hin Hg1 Hf1) as (d' & E & [K1 K2 K3] & Hg' & Hc).
      rewrite E. exists true, d'. split; [reflexivity|].
      assert (incl (libs_ d) (libs_ d')) as Hi by (intros x Hx; apply K1; cbn; apply in_or_app; now left).
      split; [|split; [exact Hg'|]; split; [reflexivity|]; now apply K1].
      split; [exact Hi | exact K2 |]. intros q Hq. destruct (K3 q Hq) as [H1|]; [|auto]. cbn in H1. apply in_app_or in H1 as [H1|[<-|[]]]; auto.
Qed.

(** The libraries that remain are in none of the directories. *)
Definition remain (paths libs rest : list bytes) : Prop :=
  forall name, In name rest -> In name libs /\ where_ paths name = None.

Lemma collect_in_spec paths libs d : good d -> user n -> incl libs (fst n) -> (forall name, In name libs -> part paths name) ->
  missing d <= fuel ->
  exists rest d', collect_in paths libs d = Ok (rest, d') /\ grows d d' /\ good d' /\ remain paths libs rest /\
    forall name, In name libs -> In name (libs_ d') \/
      match where_ paths name with Some dir => In (lib_in dir name) (libs_ d') | None => In name rest end.
Proof.
  revert d. induction libs as [|lib libs IH]; intros d Hg Hu Hn Hp Hf; cbn [DynLib.collect_in].
  - exists [], d. split; [reflexivity|]. split; [apply grows_refl|]. split; [exact Hg|]. now split.
  - assert (incl libs (fst n)) as Hn' by (intros x Hx; apply Hn; now right).
    assert (forall name, In name libs -> part paths name) as Hp' by (intros x Hx; apply Hp; now right).
    destruct (mem lib (libs_ d)) eqn:Em.
    + destruct (IH d Hg Hu Hn' Hp' Hf) as (rest & d' & E & G & Hg' & Hr & Hs). exists rest, d'. split; [exact E|]. split; [exact G|].
      split; [exact Hg'|]. split; [intros x Hx; destruct (Hr x Hx); split; [now right | assumption]|].
      intros name [<-|Hin]; [left; apply G; now apply mem_spec | now apply Hs].
    + destruct (try_paths_spec paths lib d Hg Hu (Hn lib (or_introl eq_refl)) (Hp lib (or_introl eq_refl)) Hf) as (b & d1 & E1 & G1 & Hg1 & Hw).
      rewrite E1. cbn [bind snd fst].
      pose proof (missing_le d d1 (gr_incl d d1 G1)) as Hm.
      destruct (IH d1 Hg1 Hu Hn' Hp' ltac:(lia)) as (rest & d2 & E2 & G2 & Hg2 & Hr & Hs).
      rewrite E2. cbn [bind fst snd].
      exists (if b then rest else lib :: rest), d2. split; [reflexivity|]. split; [now apply (grows_trans d d1 d2)|]. split; [exact Hg2|]. split.
      { intros x Hx. assert (b = false /\ x = lib \/ In x rest) as [[-> ->]|Hx'] by (destruct b; [now right | destruct Hx; auto]).
        - split; [now left|]. destruct (where_ paths lib); [now destruct Hw | reflexivity].
        - destruct (Hr x Hx'). split; [now right | assumption]. }
      intros name [<-|Hin].
      * right. destruct (where_ paths lib) as [dir|]; [apply (gr_incl _ _ G2); apply Hw | rewrite Hw; now left].
      * destruct (Hs name Hin) as [Hl|H]; [now left|]. right. destruct (where_ paths name); [exact H | destruct b; [exact H | now right]].
Qed.

Lemma collect_pathlist_spec pl libs d : good d -> user n -> incl libs (fst n) ->
  (forall name, In name libs -> part (tokenize pl) name) -> missing d <= fuel ->
  exists rest d', collect_pathlist open_elf stat_ok canonical_path elf_ rec pl libs d = Ok (rest, d') /\ grows d d' /\ good d' /\
    remain (tokenize pl) libs rest /\
    forall name, In name libs -> In name (libs_ d') \/
      match where_ (tokenize pl) name with Some dir => In (lib_in dir name) (libs_ d') | None => In name rest end.
Proof.
  intros Hg Hu Hn Hp Hf. destruct pl as [|ch pl]; cbn [collect_pathlist].
  - exists libs, d. split; [reflexivity|]. split; [apply grows_refl|]. split; [exact Hg|]. split; [now intros x Hx | now right].
  - now apply collect_in_spec.
Qed.

Lemma where_app a b name : where_ (a ++ b) name = match where_ a name with Some d => Some d | None => where_ b name end.
Proof. unfold where_. induction a as [|x a IH]; cbn; [reflexivity|]. destruct (valid _); [reflexivity | exact IH]. Qed.

Lemma part_first name : part (tokenize (snd n)) name.
Proof. intros dir E. unfold dirs_of. now rewrite where_app, E. Qed.
Lemma part_second name : where_ (tokenize (snd n)) name = None -> part (tokenize LP) name.
Proof. intros H dir E. unfold dirs_of. now rewrite where_app, H, where_app, E. Qed.
Lemma part_third name : where_ (tokenize (snd n)) name = None -> where_ (tokenize LP) name = None -> part SP name.
Proof. intros H1 H2 dir E. unfold dirs_of. now rewrite where_app, H1, where_app, H2. Qed.

(** All libraries of one file, and theirs. *)
Lemma collect_elf_spec e d : needed e = Ok n -> good d -> user n -> missing d <= fuel ->
  exists d', collect_elf open_elf stat_ok canonical_path elf_ environ_ uses_nptl conf_dirs map_path rec e d = Ok d' /\
    grows d d' /\ good d' /\ settled (libs_ d') n.
Proof.
  intros He Hg Hu Hf. unfold collect_elf.
  assert (exists d0, get_library_path environ_ d = Ok d0 /\ libs_ d0 = libs_ d /\ libraryPath_ d0 = LP /\ paths_ d0 = paths_ d)
    as (d0 & -> & L0 & P0 & S0).
  { unfold get_library_path. rewrite library_path. cbn [bind].
    destruct (libraryPath_ d) eqn:E; [eexists; repeat split | exists d; repeat split]. destruct (g_lib d Hg); congruence. }
  cbn [bind]. rewrite He. cbn [bind].
  assert (good d0) as Hg0.
  { split; [now right | rewrite S0; apply (g_paths d Hg) | rewrite L0; apply (g_sound d Hg)]. }
  assert (grows d d0) as G0.
  { split; [rewrite L0; apply incl_refl | auto |]. rewrite L0. auto. }
  assert (missing d0 <= fuel) as Hf0 by (unfold missing; now rewrite L0).
  destruct (collect_pathlist_spec (snd n) (fst n) d0 Hg0 Hu (incl_refl _) ltac:(intros name _; apply part_first) Hf0)
    as (r1 & d1 & E1 & G1 & Hg1 & R1 & S1). rewrite E1. cbn [bind fst snd].
  assert (grows d d1) as G01 by now apply (grows_trans d d0 d1).
  rewrite (gr_lib d0 d1 G1 P0).
  pose proof (missing_le d d1 (gr_incl d d1 G01)) as M1.
  destruct (collect_pathlist_spec LP r1 d1 Hg1 Hu ltac:(intros x Hx; apply R1, Hx)
    ltac:(intros x Hx; apply part_second, R1, Hx) ltac:(lia))
    as (r2 & d2 & E2 & G2 & Hg2 & R2 & S2). rewrite E2. cbn [bind fst snd].
  set (d3 := get_dl_search_paths uses_nptl conf_dirs map_path d2).
  assert (libs_ d3 = libs_ d2 /\ libraryPath_ d3 = libraryPath_ d2 /\ paths_ d3 = SP) as (L3 & P3 & S3).
  { unfold d3, get_dl_search_paths. destruct (paths_ d2) eqn:E; [repeat split|]. repeat split. destruct (g_paths d2 Hg2); congruence. }
  assert (good d3) as Hg3.
  { split; [rewrite P3; apply (g_lib d2 Hg2) | now right | rewrite L3; apply (g_sound d2 Hg2)]. }
  assert (grows d d3) as G03.
  { apply (grows_trans d d1 d3 G01), (grows_trans d1 d2 d3 G2). split; [rewrite L3; apply incl_refl | now rewrite P3 |]. rewrite L3. auto. }
  pose proof (missing_le d d3 (gr_incl d d3 G03)) as M3. rewrite S3.
  destruct (collect_in_spec SP r2 d3 Hg3 Hu ltac:(intros x Hx; apply R1, R2, Hx)
    ltac:(intros x Hx; destruct (R2 x Hx) as [Hx1 Hx2]; apply part_third; [apply R1, Hx1 | exact Hx2]) ltac:(lia))
    as (r4 & d4 & E4 & G4 & Hg4 & R4 & S4). rewrite E4. cbn [bind snd].
  exists d4. split; [reflexivity|]. split; [now apply (grows_trans d d3 d4)|]. split; [exact Hg4|].
  assert (incl (libs_ d1) (libs_ d4)) as I14 by (eapply incl_tran; [apply (gr_incl _ _ G2)|]; rewrite <- L3; apply (gr_incl _ _ G4)).
  assert (incl (libs_ d2) (libs_ d4)) as I24 by (rewrite <- L3; apply (gr_incl _ _ G4)).
  intros name Hname. unfold dirs_of. rewrite !where_app. destruct (S1 name Hname) as [H|H]; [left; now apply I14|].
  destruct (where_ (tokenize (snd n)) name); [right; now apply I14|]. destruct (S2 name H) as [K|K]; [left; now apply I24|].
  destruct (where_ (tokenize LP) name); [right; now apply I24|]. destruct (S4 name K) as [J|J]; [now left|]. right.
  destruct (where_ SP name); [exact J | exact I].
Qed.
End Search.

Lemma collect_needed_spec fuel p d : valid p = true -> In p (libs_ d) -> good d -> missing d < fuel ->
  exists d', collect_needed open_elf stat_ok canonical_path elf_ environ_ uses_nptl conf_dirs map_path fuel p d = Ok d' /\
    grows d d' /\ good d' /\ closed d' p.
Proof.
  revert p d. induction fuel as [|fuel IH]; intros p d Hv Hp Hg Hf; [lia|]. cbn [collect_needed].
  assert (exists e h, open_elf p = Some e /\ ElfHdr e = Ok h) as (e & h & He & Hh).
  { unfold is_valid_elf_file in Hv. apply andb_true_iff in Hv as [_ Hv]. destruct (open_elf p) as [e|]; [|discriminate].
    apply andb_true_iff in Hv as [_ Hv]. destruct (ElfHdr e) as [h|] eqn:E; [eauto | discriminate]. }
  rewrite He, Hh. cbn [bind]. destruct (readable p e Hv He) as [n Hn].
  destruct (collect_elf_spec fuel _ IH n e d Hn Hg ltac:(right; exists p, e; split; [apply (g_sound d Hg p Hp) | now split]) ltac:(lia)) as (d' & E & G & Hg' & Hs).
  exists d'. split; [exact E|]. split; [exact G|]. split; [exact Hg'|]. exists e, n. auto.
Qed.

(** The search ends, with a bound on its depth of one more than the number of files. *)
Lemma list_complete h n fuel : ElfHdr elf_ = Ok h -> needed elf_ = Ok n -> length files < fuel ->
  exists d, DynLibList open_elf stat_ok canonical_path elf_ environ_ uses_nptl conf_dirs map_path fuel = Ok d /\
    settled (libs_ d) n /\
    (forall p, In p (libs_ d) -> closed d p) /\
    (forall q, In q (libs_ d) -> valid q = true /\ reached q).
Proof.
  intros Hh Hn Hf. unfold DynLibList. rewrite Hh. cbn [bind].
  assert (good (mk_libs [] [] [])) as Hg by (split; [now left | now left | easy]).
  destruct (collect_elf_spec fuel _ (collect_needed_spec fuel) n elf_ (mk_libs [] [] []) Hn Hg ltac:(now left)) as (d & E & G & Hg' & Hs).
  { apply Nat.le_trans with (length files); [apply List.filter_length_le | lia]. }
  exists d. split; [exact E|]. split; [exact Hs|]. split; [|apply (g_sound d Hg')].
  intros p Hp. destruct (gr_closed _ _ G p Hp) as [[]|H]; exact H.
Qed.

End Complete.

(** ** What a file says *)

(** The text of a search path: directories with colons between them. *)
Definition dir_ok (dir : bytes) : Prop := dir <> [] /\ forallb (fun c => negb ((c =c ":") || (c =c ";"))) dir = true.

Fixpoint path_text (dirs : list bytes) : bytes :=
  match dirs with [] => [] | [dir] => dir | dir :: dirs => dir ++ B ":" ++ path_text dirs end.

Lemma split_at_app delim a c b tok : delim c = true ->
  split_at delim (a ++ c :: b) tok = split_at delim a tok ++ split_at delim b [].
Proof.
  intros Hc. revert tok. induction a as [|x a IH]; intros tok; cbn [app split_at].
  - rewrite Hc. now destruct tok.
  - destruct (delim x); [|apply IH]. destruct tok; [apply IH|]. cbn. f_equal. apply IH.
Qed.

Lemma split_at_run delim a tok : forallb (fun c => negb (delim c)) a = true -> tok ++ a <> [] -> split_at delim a tok = [tok ++ a].
Proof.
  revert tok. induction a as [|x a IH]; intros tok Ha Hne; cbn [split_at].
  - rewrite app_nil_r in *. now destruct tok.
  - cbn in Ha. apply andb_true_iff in Ha as [Hx Ha]. apply negb_true_iff in Hx. rewrite Hx.
    rewrite IH; [now rewrite <- app_assoc | assumption | now destruct tok].
Qed.

Lemma tokenize_colon a b : tokenize (a ++ B ":" ++ b) = tokenize a ++ tokenize b.
Proof. unfold tokenize. now apply split_at_app. Qed.

Lemma tokenize_path dirs : List.Forall dir_ok dirs -> tokenize (path_text dirs) = dirs.
Proof.
  induction 1 as [|dir dirs [Hne Hd] Hds IH]; [reflexivity|]. cbn [path_text].
  assert (tokenize dir = [dir]) as E by (unfold tokenize; now rewrite split_at_run).
  destruct dirs as [|d' dirs]; [exact E|]. now rewrite tokenize_colon, E, IH.
Qed.

(** An entry of the dynamic section of a file: the name of a library that the file needs, a
    search path of the file, or something else. *)
Inductive entry : Type := Needs (name : bytes) | Searches (dirs : list bytes) | Else.

Definition entry_is (e : Elf) (link : Z) (d : Z * Z) (x : entry) : Prop :=
  match x with
  | Needs name => fst d = DT_NEEDED /\ strptr e link (snd d) = Some name /\ (snd d < 2 ^ 32)%Z
  | Searches dirs => (fst d = DT_RPATH \/ fst d = DT_RUNPATH) /\ strptr e link (snd d) = Some (path_text dirs) /\
                     (snd d < 2 ^ 32)%Z /\ List.Forall dir_ok dirs
  | Else => fst d <> DT_NEEDED /\ fst d <> DT_RPATH /\ fst d <> DT_RUNPATH
  end.

(** A file of 64 bits with these entries in its dynamic section, or without one. *)
Definition says (e : Elf) (entries : list entry) : Prop :=
  ElfCorrect.good e ELFCLASS64 /\ headed (scns e) /\
  (List.Forall (fun s => is_dynamic s = false) (all_sections 0 (scns e)) /\ entries = [] \/
   exists pre s post dyns, all_sections 0 (scns e) = pre ++ s :: post /\
     List.Forall (fun s => is_dynamic s = false) (pre ++ post) /\ is_dynamic s = true /\
     contents_ s = Some (dyn_bytes ELFCLASS64 dyns) /\ List.Forall (dyn_ok ELFCLASS64) dyns /\
     List.Forall2 (entry_is e (sh_link (hdr_ s))) dyns entries).

Definition names_of (entries : list entry) : list bytes :=
  flat_map (fun x => match x with Needs name => [name] | _ => [] end) entries.
Definition paths_of (entries : list entry) : list bytes :=
  flat_map (fun x => match x with Searches dirs => dirs | _ => [] end) entries.

(** A turn of the loop over the entries. *)
Definition needed_body (e : Elf) (link : Z) (n : Z) (dyn : Z * Z) (r : res (list bytes * bytes))
  : res (list bytes * bytes) + res (list bytes * bytes) := inl (let* acc := r in needed_entry e link dyn acc).

(** A turn of the loop over the sections. *)
Definition needed_turn (elf : Elf) (s : Section_) (acc : list bytes * bytes) : res (list bytes * bytes + list bytes * bytes) :=
  if (sh_type (hdr_ s) =? SHT_DYNAMIC)%Z then
    let* d := section_data elf s in
    let* r := dynamic ELFCLASS64 d (needed_body elf (sh_link (hdr_ s))) (Ok acc) in
    let* acc := r in
    Ok (inl acc)
  else Ok (inl acc).

Lemma needed_skip e l k acc : List.Forall (fun s => is_dynamic s = false) l ->
  scan (needed_turn e) (l ++ k) acc = scan (needed_turn e) k acc.
Proof.
  induction 1 as [|s l Hs _ IH]; [reflexivity|]. cbn [app scan]. unfold needed_turn at 1.
  unfold is_dynamic in Hs. rewrite Hs. exact IH.
Qed.

(** What one entry adds. *)
Lemma needed_one e link d x libs rpath : dyn_ok ELFCLASS64 d -> entry_is e link d x ->
  exists rpath', needed_entry e link d (libs, rpath) = Ok (libs ++ names_of [x], rpath') /\
    tokenize rpath' = tokenize rpath ++ paths_of [x].
Proof.
  intros [_ Hv] Hd. unfold needed_entry. destruct x as [name|dirs|]; cbn in Hd |- *.
  - destruct Hd as (Et & Es & Hlt). rewrite Et, Z.eqb_refl, Z.mod_small, Es by lia. exists rpath. now rewrite app_nil_r.
  - destruct Hd as (Et & Es & Hlt & Hdirs). replace (fst d =? DT_NEEDED)%Z with false by (destruct Et as [-> | ->]; reflexivity).
    replace ((fst d =? DT_RPATH) || (fst d =? DT_RUNPATH))%Z with true by (destruct Et as [-> | ->]; reflexivity).
    rewrite Z.mod_small, Es, !app_nil_r by lia. eexists. split; [reflexivity|].
    transitivity (tokenize rpath ++ tokenize (path_text dirs)); [|now rewrite tokenize_path].
    destruct rpath; [reflexivity | apply tokenize_colon].
  - destruct Hd as (E1 & E2 & E3). apply Z.eqb_neq in E1, E2, E3. rewrite E1, E2, E3. exists rpath. now rewrite !app_nil_r.
Qed.

Lemma needed_entries e link dyns entries : List.Forall (dyn_ok ELFCLASS64) dyns -> List.Forall2 (entry_is e link) dyns entries ->
  forall n libs rpath, exists rpath',
    dyn_scan (needed_body e link) n dyns (Ok (libs, rpath)) = Ok (libs ++ names_of entries, rpath') /\
    tokenize rpath' = tokenize rpath ++ paths_of entries.
Proof.
  intros Hok H. revert Hok. induction H as [|d x dyns entries Hd _ IH]; intros Hok n libs rpath; cbn [dyn_scan].
  - exists rpath. cbn. now rewrite !app_nil_r.
  - inversion Hok as [|? ? Hv Hok']; subst. destruct (needed_one e link d x libs rpath Hv Hd) as (r1 & E1 & T1).
    unfold needed_body at 1. cbn [bind]. rewrite E1.
    destruct (IH Hok' (n + 1)%Z (libs ++ names_of [x]) r1) as (r & E & Er). exists r.
    rewrite E, Er, T1, <- !app_assoc. cbn. now rewrite !app_nil_r.
Qed.

(** The code finds what the file says. *)
Lemma needed_says e entries : says e entries ->
  exists rpath, needed e = Ok (names_of entries, rpath) /\ tokenize rpath = paths_of entries.
Proof.
  intros (Hk & Hh & H). change (needed e) with (sections e (needed_turn e) ([], [])). unfold sections.
  rewrite (for_sections_scan e ELFCLASS64) by assumption.
  destruct H as [[Hn ->]|(pre & s & post & dyns & -> & Hn & Hd & Hc & Hok & Hf)].
  - rewrite <- (app_nil_r (all_sections _ _)), needed_skip by assumption. now exists [].
  - apply List.Forall_app in Hn as [Hpre Hpost]. rewrite needed_skip by assumption. cbn [scan].
    destruct (needed_entries e _ dyns entries Hok Hf 0 [] []) as (r & E & Er). exists r. split; [|exact Er].
    unfold needed_turn at 1. unfold is_dynamic in Hd. rewrite Hd. unfold section_data. rewrite Hc. cbn [bind].
    rewrite dynamic_scan, E by assumption. cbn [bind]. rewrite <- (app_nil_r post), needed_skip by assumption. reflexivity.
Qed.

(** The directories of [LD_LIBRARY_PATH] in an environment in which no other variable is
    called so at its beginning. *)
Definition env_says (environ_ : list bytes) (dirs : list bytes) : Prop :=
  let called e := exists t, e = B "LD_LIBRARY_PATH" ++ t in
  List.Forall dir_ok dirs /\
  (dirs = [] /\ (forall e, In e environ_ -> ~ called e) \/
   exists pre post, environ_ = pre ++ (B "LD_LIBRARY_PATH=" ++ path_text dirs) :: post /\ (forall e, In e pre -> ~ called e)).

Lemma strncmp_prefix lit e n : (n <= length lit)%nat -> no_nul lit = true -> strncmp_at lit e n = true ->
  exists t, e = firstn n lit ++ t.
Proof.
  revert lit e. induction n as [|n IH]; intros lit e Hn Hz H; [now exists e|]. destruct lit as [|c lit]; [cbn in Hn; lia|].
  cbn in Hz. apply andb_true_iff in Hz as [Hc Hz]. apply negb_true_iff in Hc.
  cbn [strncmp_at] in H. destruct e as [|d e]; [congruence|]. destruct (Ascii.eqb_spec c d) as [->|]; [|discriminate].
  rewrite Hc in H. destruct (IH lit e ltac:(cbn in Hn; lia) Hz H) as [t ->]. now exists t.
Qed.

Lemma library_path_found environ_ dirs : env_says environ_ dirs ->
  find_library_path environ_ = Ok (path_text dirs).
Proof.
  intros [_ H]. unfold find_library_path.
  assert (forall e, strncmp_at (B "LD_LIBRARY_PATH=") e 15 = true -> exists t, e = B "LD_LIBRARY_PATH" ++ t) as Hs.
  { intros e He. now apply (strncmp_prefix (B "LD_LIBRARY_PATH=") e 15); [cbn; lia | reflexivity |]. }
  destruct H as [[-> Hn]|(pre & post & -> & Hn)].
  - destruct (List.find _ environ_) as [e|] eqn:E; [|reflexivity]. apply find_some in E as [Hin He].
    now destruct (Hn e Hin (Hs e He)).
  - assert (List.find (fun e => strncmp_at (B "LD_LIBRARY_PATH=") e 15) (pre ++ (B "LD_LIBRARY_PATH=" ++ path_text dirs) :: post)
      = Some (B "LD_LIBRARY_PATH=" ++ path_text dirs)) as ->; [|reflexivity].
    induction pre as [|e pre IH]; [reflexivity|]. cbn [app List.find].
    destruct (strncmp_at _ e 15) eqn:E; [|apply IH; intros x Hx; apply Hn; now right].
    destruct (Hn e (or_introl eq_refl) (Hs e E)).
Qed.

(** ** The libraries that the linker loads *)

Section Linker.
Variables (open_elf : bytes -> option Elf) (stat_ok : bytes -> bool) (canonical_path : bytes -> bytes).
Variables (elf_ : Elf) (environ_ : list bytes) (uses_nptl : bool) (conf_dirs : list bytes -> list bytes) (map_path : bytes -> bytes).

(** A file of the same ABI, class and machine as the executable. *)
Definition library_at (p : bytes) (e : Elf) : Prop :=
  stat_ok p = true /\ open_elf p = Some e /\ abi e = abi elf_ /\
  exists h h' k, ElfHdr e = Ok h /\ ElfHdr elf_ = Ok h' /\ Selector e = Ok k /\ Selector elf_ = Ok k /\ e_machine h = e_machine h'.

Lemma valid_spec p : is_valid_elf_file open_elf stat_ok elf_ p = true <-> exists e, library_at p e.
Proof.
  unfold is_valid_elf_file, library_at. rewrite andb_true_iff. split.
  - intros [Hst H]. destruct (open_elf p) as [e|]; [|discriminate]. rewrite !andb_true_iff in H. destruct H as [[_ Ha] H].
    destruct (ElfHdr e) as [h|] eqn:E1; [|discriminate]. destruct (ElfHdr elf_) as [h'|] eqn:E2; [|discriminate].
    destruct (Selector e) as [k|] eqn:E3; [|discriminate]. destruct (Selector elf_) as [k'|] eqn:E4; [|discriminate].
    apply andb_true_iff in H as [Hk Hm]. apply Z.eqb_eq in Ha, Hk, Hm. subst k'.
    exists e. repeat split; auto. exists h, h', k. auto.
  - intros (e & Hst & -> & Ha & h & h' & k & E1 & E2 & E3 & E4 & Hm). split; [exact Hst|].
    rewrite E1, E2, E3, E4, Ha, Hm, !Z.eqb_refl.
    assert (check_format e = true) as ->; [|reflexivity]. unfold check_format. unfold Selector in E3.
    destruct (getident e); [|discriminate]. now destruct (magic_ok _).
Qed.

(** The path of a library in a directory. *)
Inductive path_in (name : bytes) : bytes -> bytes -> Prop :=
| in_any dir : absolute name = true -> path_in name dir name
| in_root : absolute name = false -> path_in name [] name
| in_slashed dir : absolute name = false -> path_in name (dir ++ B "/") (dir ++ B "/" ++ name)
| in_plain dir c : absolute name = false -> c <> "/"%char -> path_in name (dir ++ [c]) (dir ++ [c] ++ B "/" ++ name).

Lemma path_in_spec name dir p : path_in name dir p <-> p = (if absolute name then name else append_delimiter dir ++ name).
Proof.
  split.
  - intros [d E|E|d E|d c E Hc]; rewrite E; auto; change (B "/") with ["/"%char]; unfold append_delimiter; rewrite List.last_last.
    + destruct (d ++ ["/"%char]) eqn:Ed; [now destruct d|]. rewrite <- Ed, Ascii.eqb_refl. now rewrite <- app_assoc.
    + destruct (d ++ [c]) eqn:Ed; [now destruct d|]. rewrite <- Ed. apply Ascii.eqb_neq in Hc. rewrite Hc.
      now rewrite <- !app_assoc.
  - intros ->. destruct (absolute name) eqn:E; [now constructor|].
    destruct dir as [|x dir] using rev_ind; [now constructor|]. unfold append_delimiter. rewrite List.last_last.
    destruct (dir ++ [x]) eqn:Ed; [now destruct dir|]. rewrite <- Ed. destruct (Ascii.eqb_spec x "/"%char) as [->|Hx].
    + rewrite <- app_assoc. now constructor.
    + rewrite <- !app_assoc. now constructor.
Qed.

(** The library that a name stands for: the first one in the directories. *)
Definition resolves (dirs : list bytes) (name q : bytes) : Prop :=
  exists pre dir post p, dirs = pre ++ dir :: post /\ path_in name dir p /\ q = canonical_path p /\ (exists e, library_at q e) /\
    forall dir' p' e, In dir' pre -> path_in name dir' p' -> ~ library_at (canonical_path p') e.

Abbreviation where_ := (where_ open_elf stat_ok canonical_path elf_).

Lemma resolves_where dirs name q : resolves dirs name q <-> exists dir, where_ dirs name = Some dir /\ q = lib_in canonical_path dir name.
Proof.
  split.
  - intros (pre & dir & post & p & -> & ->%path_in_spec & -> & Hl & Hpre). exists dir. split; [|reflexivity].
    induction pre as [|d pre IH]; cbn [app DynLibCorrect.where_ List.find].
    + unfold lib_in. apply valid_spec in Hl. unfold DynLibCorrect.where_. cbn [List.find]. unfold lib_in. now rewrite Hl.
    + unfold DynLibCorrect.where_. cbn [List.find]. destruct (is_valid_elf_file _ _ _ _) eqn:E.
      * apply valid_spec in E as [e He]. exfalso.
        eapply (Hpre d); [now left | now apply path_in_spec | exact He].
      * apply IH. intros d' p' e Hd. apply Hpre. now right.
  - intros (dir & Hw & ->). unfold DynLibCorrect.where_ in Hw. revert Hw. induction dirs as [|d dirs IH]; cbn [List.find]; [discriminate|].
    destruct (is_valid_elf_file open_elf stat_ok elf_ (lib_in canonical_path d name)) eqn:E.
    + intros [= ->]. exists [], dir, dirs, (if absolute name then name else append_delimiter dir ++ name).
      repeat split; [now apply path_in_spec | now apply valid_spec | easy].
    + intros Hw. destruct (IH Hw) as (pre & d0 & post & p & -> & H1 & H2 & H3 & H4).
      exists (d :: pre), d0, post, p. repeat split; auto. intros d' p' e [<-|Hd] Hp'; [|now apply (H4 d')].
      apply path_in_spec in Hp' as ->. intros He. assert (is_valid_elf_file open_elf stat_ok elf_ (lib_in canonical_path d name) = true) as Hv
        by (apply valid_spec; now exists e). congruence.
Qed.

(** The directories of [LD_LIBRARY_PATH]. *)
Variable ld_dirs : list bytes.
Hypothesis environment : env_says environ_ ld_dirs.

(** The directories for the libraries of a file, in order. *)
Definition search_dirs (entries : list entry) : list bytes :=
  paths_of entries ++ ld_dirs ++ search_paths uses_nptl conf_dirs map_path.

(** What is loaded: what the executable needs, and what the libraries need that are loaded. *)
Inductive loaded_lib : bytes -> Prop :=
| for_exe entries name q : says elf_ entries -> In (Needs name) entries -> resolves (search_dirs entries) name q -> loaded_lib q
| for_lib p e entries name q : loaded_lib p -> library_at p e -> says e entries -> In (Needs name) entries ->
    resolves (search_dirs entries) name q -> loaded_lib q.

(** The files are finitely many, those of the libraries can be read, and [realpath] gives
    absolute paths, of which each one is its own. *)
Variable files : list bytes.
Hypothesis finite : forall p e, library_at p e -> In p files.
Hypothesis readable : forall p e, library_at p e -> exists entries, says e entries.
Hypothesis realpath : forall p e, library_at (canonical_path p) e ->
  absolute (canonical_path p) = true /\ canonical_path (canonical_path p) = canonical_path p.

Lemma in_names name entries : In name (names_of entries) <-> In (Needs name) entries.
Proof.
  unfold names_of. rewrite in_flat_map. split.
  - intros (x & Hx & Hn). destruct x; try now destruct Hn. destruct Hn as [<-|[]]. exact Hx.
  - intros H. exists (Needs name). split; [exact H | now left].
Qed.

Lemma dirs_says e entries n : says e entries -> needed e = Ok n ->
  fst n = names_of entries /\ dirs_of uses_nptl conf_dirs map_path (path_text ld_dirs) n = search_dirs entries.
Proof.
  intros Hs E. destruct (needed_says e entries Hs) as (r & E' & Er). rewrite E in E'. injection E' as ->.
  split; [reflexivity|]. unfold dirs_of, search_dirs. cbn [snd]. rewrite Er, tokenize_path by apply environment. reflexivity.
Qed.

(** A name that is in the list is the path of a library. *)
Lemma settled_in L entries n e name q : (forall p, In p L -> exists x, p = canonical_path x /\ exists e, library_at p e) ->
  says e entries -> needed e = Ok n ->
  settled open_elf stat_ok canonical_path elf_ uses_nptl conf_dirs map_path (path_text ld_dirs) L n ->
  In (Needs name) entries -> resolves (search_dirs entries) name q -> In q L.
Proof.
  intros HL Hs E Hset Hn (dir & Hw & ->)%resolves_where. destruct (dirs_says e entries n Hs E) as [En Ed].
  destruct (Hset name) as [Hin|H]; [now rewrite En, in_names | |].
  - destruct (HL name Hin) as (x & -> & e' & He'). destruct (realpath x e' He') as [Ha Hc].
    unfold lib_in. rewrite Ha, Hc. exact Hin.
  - rewrite Ed, Hw in H. exact H.
Qed.

(** C13: the list of the libraries of a program is what the linker loads. Let the program be a
    file of 64 bits whose dynamic section names libraries and search paths, and so for all
    files that can be libraries of it (those of its ABI, class and machine), of which there
    are finitely many; let [LD_LIBRARY_PATH] be the only variable that begins with its name,
    and let [realpath] give absolute paths that are their own. Then the search ends, with a
    bound on its depth of one more than the number of such files, and a path is in the list
    exactly when the linker loads it: when the executable or a library that is loaded needs
    a name that it stands for, which is the first library of the name in the directories of
    the file itself, of [LD_LIBRARY_PATH] and of the system, in that order. *)
Theorem libraries_complete entries h fuel : says elf_ entries -> ElfHdr elf_ = Ok h -> length files < fuel ->
  exists d, DynLibList open_elf stat_ok canonical_path elf_ environ_ uses_nptl conf_dirs map_path fuel = Ok d /\
    forall q, In q (libs_ d) <-> loaded_lib q.
Proof.
  intros Hs Hh Hf. pose proof (library_path_found environ_ ld_dirs environment) as HL.
  destruct (needed_says elf_ entries Hs) as (r & E & _).
  destruct (list_complete open_elf stat_ok canonical_path elf_ environ_ uses_nptl conf_dirs map_path (path_text ld_dirs) HL files)
    with (h := h) (n := (names_of entries, r)) (fuel := fuel) as (d & Ed & Hset & Hcl & Hsound); auto.
  { intros p [e He]%valid_spec. now apply (finite p e). }
  { intros p e [e' He']%valid_spec He. destruct (readable p e') as [x Hx]; [exact He'|].
    destruct He' as (_ & Hop & _). replace e' with e in Hx by congruence. destruct (needed_says e x Hx) as (r' & E' & _). eauto. }
  exists d. split; [exact Ed|].
  assert (forall q, reached open_elf stat_ok canonical_path elf_ uses_nptl conf_dirs map_path (path_text ld_dirs) q ->
    (exists e, library_at q e) -> (exists x, q = canonical_path x) /\ loaded_lib q) as Hr.
  { assert (forall name dir, lib_in canonical_path dir name = canonical_path (if absolute name then name else append_delimiter dir ++ name)) as Hl by reflexivity.
    induction 1 as [n name dir En Hin Hw|p e n name dir Hp IH He En Hin Hw]; intros Hq; (split; [rewrite Hl; eauto|]).
    - destruct (dirs_says elf_ entries n Hs En) as [E1 E2]. rewrite E1, in_names in Hin. rewrite E2 in Hw.
      apply (for_exe entries name); auto. apply resolves_where. eauto.
    - assert (exists e, library_at p e) as [e' He'].
      { apply valid_spec. destruct Hp as [n' name' dir' _ _ Hw'|p' e'' n' name' dir' _ _ _ _ Hw'];
          unfold DynLibCorrect.where_ in Hw'; now apply find_some in Hw'. }
      destruct (IH (ex_intro _ e' He')) as [_ Hlp]. destruct (readable p e' He') as [x Hx].
      assert (e' = e) as -> by (destruct He' as (_ & Ho & _); congruence).
      destruct (dirs_says e x n Hx En) as [E1 E2]. rewrite E1, in_names in Hin. rewrite E2 in Hw.
      apply (for_lib p e x name); auto. apply resolves_where. eauto. }
  assert (forall p, In p (libs_ d) -> exists x, p = canonical_path x /\ exists e, library_at p e) as Hcanon.
  { intros p Hp. destruct (Hsound p Hp) as [Hv%valid_spec Hre]. destruct (Hr p Hre Hv) as [[x Ex] _]. eauto. }
  intros q. split.
  - intros Hq. destruct (Hsound q Hq) as [Hv%valid_spec Hre]. now apply Hr.
  - induction 1 as [x name q Hx Hn Hres|p e x name q _ IH He Hx Hn Hres].
    + destruct (needed_says elf_ x Hx) as (r' & E' & _). rewrite E in E'. injection E' as E1 E2.
      apply (settled_in (libs_ d) x (names_of entries, r) elf_ name q Hcanon Hx); auto.
    + destruct (Hcl p IH) as (e' & n & He' & En & Hse). assert (e' = e) as -> by (destruct He as (_ & Ho & _); congruence).
      apply (settled_in (libs_ d) x n e name q Hcanon Hx En Hse Hn Hres).
Qed.
End Linker.

(** ** [ld.so.conf] *)

Section Conf.
Variables (read_text : bytes -> option bytes) (glob : bytes -> option (list bytes)) (canonical_path : bytes -> bytes).

(** The files are finitely many. *)
Variable texts : list bytes.
Hypothesis few : forall f t, read_text f = Some t -> In (canonical_path f) texts.

Definition unread (st : conf) : nat := length (List.filter (fun p => negb (mem p (snd st))) texts).

(** The files that were read are not forgotten. *)
Definition after (st : conf) (r : res conf) : Prop := exists st', r = Ok st' /\ incl (snd st) (snd st') /\ incl (fst st) (fst st').

Lemma after_refl st : after st (Ok st).
Proof. exists st. repeat split; apply incl_refl. Qed.

Lemma after_bind st r k : after st r -> (forall st', incl (snd st) (snd st') -> after st' (k st')) -> after st (bind r k).
Proof.
  intros (st1 & -> & H1 & H2) Hk. destruct (Hk st1 H1) as (st2 & E & K1 & K2). cbn [bind]. rewrite E. exists st2. split; [reflexivity|].
  split; eapply incl_tran; eauto.
Qed.

Lemma unread_le st st' : incl (snd st) (snd st') -> unread st' <= unread st.
Proof.
  intros H. apply filter_le. intros x Hx. apply negb_true_iff in Hx. apply negb_true_iff. destruct (mem x (snd st)) eqn:E; [|reflexivity].
  apply mem_spec, H, mem_spec in E. congruence.
Qed.

Section Nested.
Variables (fuel : nat) (include : bytes -> conf -> res conf).
Hypothesis include_ok : forall f st, unread st < fuel -> after st (include f st).

Lemma include_all_ok files st : unread st < fuel -> after st (include_all include files st).
Proof.
  revert st. induction files as [|f files IH]; intros st Hf; cbn [include_all]; [apply after_refl|].
  apply after_bind; [now apply include_ok|]. intros st' Hi. apply IH. pose proof (unread_le st st' Hi). lia.
Qed.

Lemma include_patterns_ok filename toks st : unread st < fuel -> after st (include_patterns glob include filename toks st).
Proof.
  revert st. induction toks as [|t toks IH]; intros st Hf; cbn [include_patterns]; [apply after_refl|]. apply after_bind.
  - destruct (glob _); [now apply include_all_ok | apply after_refl].
  - intros st' Hi. apply IH. pose proof (unread_le st st' Hi). lia.
Qed.

Lemma parse_words_ok filename toks st : unread st < fuel -> after st (parse_words glob include filename toks st).
Proof.
  revert st. induction toks as [|t toks IH]; intros st Hf; cbn [parse_words]; [apply after_refl|].
  destruct (match t with c :: _ => c =c "#" | [] => false end); [apply after_refl|].
  destruct (bytes_eqb t (B "include")); [now apply include_patterns_ok|].
  destruct (IH (fst st ++ [t], snd st) Hf) as (st' & E & H1 & H2). rewrite E. exists st'. cbn in *. repeat split; auto.
  eapply incl_tran; [|exact H2]. now apply incl_appl, incl_refl.
Qed.

Lemma getline_shrinks f line rest : getline f = (line, rest, true) -> length rest < length f \/ f <> [] /\ rest = [].
Proof.
  unfold getline. pose proof (span_app (fun c => negb (code c =? 10)%Z) f) as E. destruct (span _ f) as [a r].
  destruct (LINE_MAX <? length a); [discriminate|]. destruct r as [|c r]; [destruct a; [discriminate|]|]; intros H; injection H as <- <-; subst f.
  - right. split; [discriminate | reflexivity].
  - left. rewrite length_app. cbn. lia.
Qed.

Lemma parse_lines_ok k filename f st : unread st < fuel -> length f < k -> after st (parse_lines glob include (S k) filename f st).
Proof.
  revert f st. induction k as [|k IH]; intros f st Hf Hk; [lia|]. cbn [parse_lines]. destruct (getline f) as [[line rest] good] eqn:E.
  apply after_bind; [now apply parse_words_ok|]. intros st' Hi. destruct good; [|apply after_refl].
  pose proof (unread_le st st' Hi). destruct (getline_shrinks f line rest E) as [Hl|[Hne ->]]; apply IH; try lia. destruct f; [easy|]. cbn in *. lia.
Qed.
End Nested.

(** However the files include each other, in cycles too, the parser ends, with a bound on the
    depth of one more than the number of files; directories are only added. *)
Theorem ldsoconf_ends fuel filename dirs : length texts < fuel ->
  exists dirs', ldsoconf_parse read_text glob canonical_path fuel filename dirs = Ok dirs' /\ incl dirs dirs'.
Proof.
  assert (forall fuel f st, unread st < fuel -> after st (ldsoconf read_text glob canonical_path fuel f st)) as H.
  { clear fuel. induction fuel as [|fuel IH]; intros f st Hf; [lia|]. cbn [ldsoconf]. destruct (mem (canonical_path f) (snd st)) eqn:Em; [apply after_refl|].
    set (st1 := (fst st, canonical_path f :: snd st)). assert (incl (snd st) (snd st1)) as Hi by (intros x Hx; now right).
    assert (after st (Ok st1)) as H1 by (exists st1; repeat split; [exact Hi | apply incl_refl]).
    destruct (read_text f) as [t|] eqn:Et; [|exact H1].
    assert (unread st1 < fuel) as Hu.
    { apply Nat.lt_le_trans with (unread st); [|lia]. apply filter_lt with (canonical_path f).
      - intros x Hx. apply negb_true_iff in Hx. apply negb_true_iff. destruct (mem x (snd st)) eqn:E; [|reflexivity].
        apply mem_spec, Hi, mem_spec in E. congruence.
      - now apply (few f t).
      - apply negb_false_iff, mem_spec. now left.
      - now rewrite Em. }
    destruct (parse_lines_ok fuel _ IH (S (length t)) f t st1 Hu ltac:(lia)) as (st2 & E & K1 & K2). rewrite E. exists st2.
    split; [reflexivity|]. split; [now apply (incl_tran Hi) | exact K2]. }
  intros Hf. destruct (H fuel filename (dirs, [])) as (st' & E & _ & Hd).
  { apply Nat.le_lt_trans with (length texts); [apply List.filter_length_le | exact Hf]. }
  unfold ldsoconf_parse. rewrite E. cbn [bind]. eauto.
Qed.
End Conf.

(** ** A small system *)

(** The program needs [liba.so], which needs [libb.so], which needs [liba.so]; and a library
    that is nowhere. *)
Definition name_at (offs : Z) : bytes := nth (Z.to_nat offs) [B ""; B "liba.so"; B "libb.so"; B "libc.so"] [].
Definition needing (l : list Z) : Elf :=
  Elf.mk_elf (Some (ELFMAG ++ map char_of_int [2; 1; 1; 0; 0]%Z)) (Some (mk_ehdr 3 62 1 0 0 0 0 64 56 0 64 1 0)) []
    [mk_scn (Some (mk_shdr 0 SHT_DYNAMIC 0 0 0 0 1 0 0 16)) (Some (dyn_bytes ELFCLASS64 (map (fun o => (DT_NEEDED, o)) l)))]
    (fun _ offs => Some (name_at offs)).
Definition small_system (path : bytes) : option Elf :=
  if bytes_eqb path (B "/lib/liba.so") then Some (needing [2%Z])
  else if bytes_eqb path (B "/lib/libb.so") then Some (needing [1%Z])
  else None.
Definition small_files : list bytes := [B "/lib/liba.so"; B "/lib/libb.so"].

Definition small_exe : Elf := needing [1; 3]%Z.
Definition small_environ : list bytes := [B "HOME=/root"; B "LD_LIBRARY_PATH=/opt:/lib"].

Lemma needing_says l : List.Forall (fun o => (0 <= o < 2 ^ 32)%Z) l -> says (needing l) (map (fun o => Needs (name_at o)) l).
Proof.
  intros Hl. split; [reflexivity|]. split; [repeat constructor; discriminate|]. right.
  exists [], (mk_section 0 (mk_shdr 0 SHT_DYNAMIC 0 0 0 0 1 0 0 16) (Some (dyn_bytes ELFCLASS64 (map (fun o => (DT_NEEDED, o)) l)))), [],
    (map (fun o => (DT_NEEDED, o)) l).
  repeat split; [constructor | |]; induction Hl; constructor; auto; cbn.
  - split; cbn; unfold DT_NEEDED; lia.
  - repeat split. lia.
Qed.

Lemma small_library p e : library_at small_system (fun _ => true) small_exe p e ->
  In p small_files /\ absolute p = true /\ exists entries, says e entries.
Proof.
  intros (_ & H & _). unfold small_system in H. destruct (bytes_eqb p (B "/lib/liba.so")) eqn:E1.
  { apply bytes_eqb_spec in E1 as ->. injection H as <-. split; [now left|]. split; [reflexivity|].
    eexists. apply needing_says. repeat constructor; lia. }
  destruct (bytes_eqb p (B "/lib/libb.so")) eqn:E2; [|discriminate].
  apply bytes_eqb_spec in E2 as ->. injection H as <-. split; [right; now left|]. split; [reflexivity|].
  eexists. apply needing_says. repeat constructor; lia.
Qed.

Lemma small_env : env_says small_environ [B "/opt"; B "/lib"].
Proof.
  split; [repeat constructor; discriminate|]. right. exists [B "HOME=/root"], []. split; [reflexivity|].
  intros e [<-|[]] [t Ht]. discriminate Ht.
Qed.

Example small_list : DynLibList small_system (fun _ => true) id small_exe small_environ true id id 3 =
  Ok (mk_libs [B "/lib/liba.so"; B "/lib/libb.so"] (B "/opt:/lib") (B "/lib/tls" :: B "/lib64/tls" :: default_libs)).
Proof. vm_compute. reflexivity. Qed.

(** The witness of [libraries_complete]: the libraries that need each other are loaded. *)
Lemma libraries_complete_witness :
  loaded_lib small_system (fun _ => true) id small_exe true id id [B "/opt"; B "/lib"] (B "/lib/libb.so") /\
  ~ loaded_lib small_system (fun _ => true) id small_exe true id id [B "/opt"; B "/lib"] (B "/lib/libc.so").
Proof.
  destruct (libraries_complete small_system (fun _ => true) id small_exe small_environ true id id [B "/opt"; B "/lib"] small_env
    small_files (fun p e H => proj1 (small_library p e H)) (fun p e H => proj2 (proj2 (small_library p e H)))
    (fun p e H => conj (proj1 (proj2 (small_library p e H))) eq_refl)
    [Needs (B "liba.so"); Needs (B "libc.so")] (mk_ehdr 3 62 1 0 0 0 0 64 56 0 64 1 0) 3) as (d & E & H).
  - apply (needing_says [1; 3]%Z). repeat constructor; lia.
  - reflexivity.
  - cbn. lia.
  - rewrite small_list in E. injection E as <-. split.
    + apply H. right. now left.
    + intros Hc%H. destruct Hc as [Hc|[Hc|[]]]; discriminate Hc.
Defined.

(** Another variable whose name begins in the same way is taken for [LD_LIBRARY_PATH]. *)
Example other_variable_taken : find_library_path [B "LD_LIBRARY_PATH64=/opt"; B "LD_LIBRARY_PATH=/lib"] = Ok (B "4=/opt").
Proof. vm_compute. reflexivity. Qed.

(** Without an equals sign the text is read behind its end. *)
Example path_past_end : find_library_path [B "LD_LIBRARY_PATH"] = Fail OutOfBounds.
Proof. vm_compute. reflexivity. Qed.

(** In a file of 32 bits the entries are read in pairs, and no library is found: two entries
    of eight bytes are taken for one of sixteen, with a tag of both words of the first. *)
Example needed_of_32_bits :
  needed (Elf.mk_elf (Some (ELFMAG ++ map char_of_int [1; 1; 1; 0; 0]%Z)) (Some (mk_ehdr 3 3 1 0 0 0 0 52 32 0 40 1 0)) []
    [mk_scn (Some (mk_shdr 0 SHT_DYNAMIC 0 0 0 0 1 0 0 8)) (Some (dyn_bytes ELFCLASS32 [(DT_NEEDED, 1%Z); (DT_NEEDED, 2%Z)]))]
    (fun _ offs => Some (name_at offs))) = Ok ([], []).
Proof. vm_compute. reflexivity. Qed.
